(* ===== verification/_CoqProject ===== *)
-Q . S2P
Prelude.v
GoString.v
GoCodec.v
GoNet.v
Steps.v
IO.v
GoHTTP.v
World.v
Xray.v
Options.v
Headers.v
Noise.v
EchConfig.v
Validate.v
EchCache.v
WgKeys.v
WgHandshake.v
WgProbe.v
Dialer.v
Point.v
Process.v
Net.v
Transport.v
Handoff.v
Resolver.v
Fetch.v
Sample.v
Quic.v
Traffic.v
Ownership.v
HandoffRun.v
EchTraffic.v
Evidence.v
Cert.v
EchReject.v
Priming.v
Queries.v
Api.v
