(* ===== verification/Prelude.v ===== *)
(** * A verification development for AndroidLibXrayLite

    The repository is the Go library an Android VPN application calls: it runs an
    xray core behind the VPN's socket protection, and has a client of its own for
    HTTP, DNS over HTTPS and probes. This library models it as executable Rocq
    functions and state machines and proves what each part promises.

    ** The program, and the files that model it

    - Values: [Prelude] (bytes, strings, errors, results, integers of either width,
      automation), [GoString], [GoCodec], [GoNet], [GoHTTP] (what the source uses of
      [strings], [strconv], [encoding/*], [net], [net/http] and [io]).
    - Effects: [IO] is a monad that reads an environment and appends to a history of
      events, with its weakest preconditions and five logics of traces: [does] (every
      event satisfies a predicate), [uses] (how many satisfy one), [caused] (a result
      goes back to an event), [runs] (the trace is a sequence of blocks) and, in
      [Ownership], [settles] (what is opened is closed).
      [World] has clocks, randomness, UDP sockets, descriptors and the resolver; [Net]
      adds connections, TLS, QUIC and the HTTP client. [Xray] has the classes that
      stand for the libraries outside the repository.
    - The core ([src/libv2ray_main.go], [src/libv2ray_support.go]): [Point] is
      [RunLoop] and [StopLoop] with the watcher and the resolver as goroutines that
      interleave at every access to a shared field; [Dialer] is [ProtectedDialer]: resolution, rotation of addresses,
      sockets and descriptors; [Process] is what all points share (the environment's
      variables, the asset reader, the console log, the system's dialer:
      [NewV2RayPoint], [InitV2Env], [TerminateByExit]); [Api] is the rest of the
      exported functions ([QueryStats], [MeasureDelay], [MeasureOutboundDelay],
      [GetDataFromWeb]).
    - The fetch library ([src/libv2ray_fetch*.go]): [Options] and [Validate] are
      [transportOptions] and [validate]; [Headers] the header sets; [Noise] the packets
      sent before QUIC; [EchConfig] and [EchCache] the ECH configuration lists, the
      probe's specification and the cache with its goroutines; [Transport] dialing, the
      proxy, TLS and the [http.RoundTripper]s; [Handoff] the goroutines that dial for
      one request, at every access to its [handoffDialer] and [connState]; [Resolver] the DNS exchange, the
      two ways to acquire a list and [ResolveDoH]; [Fetch] is [FetchWeb]; [Cert] is
      [ProbeCert].
    - The WireGuard probe ([src/libv2ray_wireguard_probe.go]): [WgKeys] the keys and
      options, [WgHandshake] the initiator of the Noise handshake, [WgProbe] the
      socket, the attempts and the verdict.
    - [Quic], [Traffic], [Ownership], [HandoffRun], [EchTraffic], [EchReject],
      [Evidence], [Priming] and [Queries] hold the theorems about whole requests,
      [Sample] the concrete environment their witnesses run in. [Quic] says which runs
      of events a transport can make: an address resolved, a burst to it and a dial
      of it are one block, and everything else is a block by itself.
    - [Steps] is what the machines of [Point], [EchCache] and [Handoff] share:
      schedules, invariants, mutexes, termination, and what a pool of goroutines has.

    How they interact: [FetchWeb] and [ResolveDoH] validate, ask [roundTripper] for a
    transport, which acquires an ECH list through [echConfigList] (whose look-up is a
    DNS exchange or a probe with [lookupOpts], over connections of its own) and wraps
    [rawDial]; the HTTP client of the environment then dials through that transport
    as often as it likes, which is what a redirect does. [RunLoop] hands the core to
    xray, which calls back [Dialer.Dial].

    ** What the theorems show

    - Reachability: with a proxy every connection goes to it, and with a pinned
      address to that, look-ups and redirects included ([Traffic.proxy_only],
      [pinned_only]); the one exception is proved to be one ([proxy_bypassed]).
    - ECH: nothing is sent without a list, and what is acquired is what every
      handshake offers ([EchTraffic.ech_fails_closed]), except for an http url
      ([ech_lost]); a list got from a probe was sent by the server it names
      ([Evidence.echProbe_evidence]); a list that was refused is forgotten, unless the
      first connection of a fingerprint was the one refused
      ([EchReject.rejection_forgets]); the cache answers with what was fetched, fetches
      once at a time, and never deadlocks ([EchCache]), and a request takes its keys from
      it or looks them up once and remembers what it found
      ([EchTraffic.echConfigList_acquires]).
    - Certificates: unless the options say otherwise every handshake checks one, for the
      name it presents ([Traffic.verified_unless_allowed]).
    - Resources: what a request opens is closed once or handed once to the HTTP client
      ([Ownership.request_settles]); likewise the probes ([Cert.ProbeCert_once],
      [WgProbe.probe_socket]), descriptors ([Dialer.Dial_spec]) and cores
      ([Api.MeasureOutboundDelay_closes]).
    - Concurrency of one request: a connection goes to one dial or is closed once, and
      only connections of the protocol the transport was chosen by are handed over,
      under every interleaving ([Handoff.handoff_once], [one_protocol],
      [handoff_returns]); the requests, which dial in turn, are schedules of that
      machine ([HandoffRun.client_is_schedule]), which gives [one_version], also of the
      connections made after one in the clear.
    - Servers are asked for nothing else: [Queries.ResolveDoH_queries],
      [FetchWeb_requests].
    - Results mean what they say: [Evidence.FetchWeb_evidence], [ResolveDoH_evidence],
      [Cert.ProbeCert_evidence], [WgProbe.probe_verdict].
    - Validation and parsing accept exactly what they should ([Validate], [EchConfig],
      [WgKeys], [Noise.parseNoiseRange_spec]), and what is built has its layout and
      bounds ([Noise.nextPacket_shape], [send_cost], [EchConfig.bogusECHConfigList_ok],
      [WgHandshake.createInitiation_wire]); a page is asked for with the headers of a
      browser under those of the caller ([Headers.applyHeaders_spec],
      [Queries.FetchWeb_requests]).
    - The whole burst of noise comes right before each QUIC dial of a request or a
      probe, and no noise is sent but for that ([Priming.noise_before_quic]).
    - The handshake agrees with its responder and accepts only that
      ([WgHandshake.handshake_agreement], [consumeResponse_exact]).
    - The life cycle: mutual exclusion, statuses, progress, the one way it can panic,
      and the behaviour of each call alone, on every branch ([Point]); which address a
      dial connects to, rotation and resolution ([Dialer]).

    ** Conventions

    An [error] carries the format of the call that built it, its arguments and what it
    wraps, which is what [errors.Is] and [errors.As] see; a quoted
    word in a format stands as an argument of [%q]. A field that is an error text in Go ([RespError]) is an
    [option error], [None] where it stays empty. Options arrive as the value of a
    parameter [unmarshal], since [encoding/json] decodes them. A connection, a socket or
    a core is named by the position in the history at which it was opened, so names are
    never reused. The environment answers each event from the whole history, so it may
    be any network, any peer and any scheduler of timeouts; a [context] that ends shows
    as the errors of the calls that take it.

    ** Bounds and fuel

    [echConfigList] has a depth: the options of a look-up have no ECH
    ([EchTraffic], [Traffic.echConfigList_off]), so depth 1 is exact. [client_do] loops
    as often as the environment's [nw_patience] says, which is any number: the HTTP
    client ends by its timeout or its ten redirects. [probe_loop] of the WireGuard
    probe has fuel, and [probe_terminates] says how much is enough; [PrepareDomain] has
    its own ten tries. The goroutines of [Point], [EchCache] and [Handoff] run by
    schedules of any length.

    ** Not modelled

    [net/http], [http2], [http3] and [quicdial] beyond the calls they make of this
    code: in the requests the client asks for its connections in sequence; that
    [net/http] dials in goroutines and may race them is in [Handoff], where a dial up to
    its handshake is one step. What is done with a connection that was handed over is
    theirs. The ladder of QUIC versions is one dial
    with its outcome. JSON, [url.Parse], gzip, x509, miekg/dns, cryptobyte and the
    cryptographic primitives are parameters. [NextProtos] that [net/http] adds for
    HTTP/2 is its own. What is written to the log is left out; how the console
    writes a line is in [Process]. Timeouts of the TLS and HTTP
    libraries that are set and not read here have no counterpart but the errors they
    cause. *)

From Stdlib Require Export Strings.String Init.Byte Strings.Byte ZArith Lia.
From stdpp Require Export base numbers list gmap sets.
From stdpp Require Export options.
Export Strings.String.StringSyntax.

(** ** Bytes and strings

    A Go [string] and a Go [[]byte] are both finite sequences of bytes; both
    are [list byte] here, and a string literal is read as one through the
    coercion below. *)

Abbreviation byte := Init.Byte.byte.
Abbreviation gostr := (list Init.Byte.byte).
Coercion list_byte_of_string : string >-> list.
Arguments list_byte_of_string : simpl never.
Open Scope string_scope.
Open Scope list_scope.
Arguments cons {A}%_type_scope & a l%_list_scope.

#[export] Instance byte_eq_dec : EqDecision byte := Byte.byte_eq_dec.

(** [bZ] is the value of a byte, [Zb] the conversion [byte(n)] of an integer,
    which keeps the low eight bits. *)
Definition bZ (b : byte) : Z := Z.of_N (Byte.to_N b).

Definition Zb (n : Z) : byte :=
  default x00 (Byte.of_N (Z.to_N (n mod 256))).

#[export] Instance byte_inhabited : Inhabited byte := populate x00.

Lemma bZ_range b : (0 <= bZ b < 256)%Z.
Proof. unfold bZ. pose proof (Byte.to_N_bounded b). lia. Qed.

Lemma Zb_bZ b : Zb (bZ b) = b.
Proof.
  unfold Zb, bZ. pose proof (Byte.to_N_bounded b).
  rewrite Z.mod_small by lia. by rewrite N2Z.id, Byte.of_to_N.
Qed.

Lemma bZ_Zb n : bZ (Zb n) = (n mod 256)%Z.
Proof.
  unfold Zb, bZ. pose proof (Z.mod_pos_bound n 256 ltac:(lia)) as Hn.
  destruct (Byte.of_N _) as [b|] eqn:E; simpl.
  - apply Byte.to_of_N in E. rewrite E. lia.
  - apply Byte.of_N_None_iff in E. lia.
Qed.

Lemma bZ_Zb_small n : (0 <= n < 256)%Z -> bZ (Zb n) = n.
Proof. intros. rewrite bZ_Zb. by apply Z.mod_small. Qed.

#[export] Instance bZ_inj : Inj (=) (=) bZ.
Proof. intros x y H. by rewrite <-(Zb_bZ x), H, Zb_bZ. Qed.

#[export] Program Instance byte_countable : Countable byte :=
  inj_countable' bZ Zb Zb_bZ.

(** ** Machine integers

    [int] is 64 bits wide on arm64 and amd64 and 32 bits wide on arm and x86;
    the library is built for all four, so the width is a parameter. [wrapS] is
    the two's complement wrap-around of a signed type of [w] bits. *)

Class IntWidth := {
  int_bits : Z;
  int_bits_cases : int_bits = 32%Z \/ int_bits = 64%Z
}.

Definition wrapS (w n : Z) : Z := ((n + 2 ^ (w - 1)) mod 2 ^ w - 2 ^ (w - 1))%Z.
Definition wrapU (w n : Z) : Z := (n mod 2 ^ w)%Z.

Definition int_min `{IntWidth} : Z := (- 2 ^ (int_bits - 1))%Z.
Definition int_max `{IntWidth} : Z := (2 ^ (int_bits - 1) - 1)%Z.
Definition is_int `{IntWidth} (n : Z) : Prop := (int_min <= n <= int_max)%Z.

#[export] Instance is_int_dec `{IntWidth} n : Decision (is_int n).
Proof. unfold is_int. apply _. Defined.

Definition arm64_int : IntWidth := {| int_bits := 64; int_bits_cases := or_intror eq_refl |}.
Definition arm_int : IntWidth := {| int_bits := 32; int_bits_cases := or_introl eq_refl |}.

Lemma wrapS_small w n :
  (0 < w)%Z -> (- 2 ^ (w - 1) <= n < 2 ^ (w - 1))%Z -> wrapS w n = n.
Proof.
  intros Hw Hn. unfold wrapS.
  assert (2 ^ w = 2 * 2 ^ (w - 1))%Z as E.
  { rewrite <-Z.pow_succ_r by lia. f_equal. lia. }
  rewrite Z.mod_small by lia. lia.
Qed.

Lemma int_max_ge `{IntWidth} : (2147483647 <= int_max)%Z.
Proof. unfold int_max. destruct int_bits_cases as [-> | ->]; simpl; lia. Qed.

(** Or-ing bits below a shifted value adds them. *)
Lemma lor_shiftl_add k a b :
  (0 <= k)%Z -> (0 <= b < 2 ^ k)%Z -> Z.lor (Z.shiftl a k) b = (Z.shiftl a k + b)%Z.
Proof.
  intros Hk Hb. rewrite <-Z.add_lor_land.
  assert (Z.land (Z.shiftl a k) b = 0%Z) as ->; [|lia].
  apply Z.bits_inj'. intros i Hi. rewrite Z.land_spec, Z.bits_0.
  destruct (Z.ltb_spec i k); [by rewrite Z.shiftl_spec_low|].
  rewrite <-(Z.mod_small b (2 ^ k)) by done.
  rewrite Z.mod_pow2_bits_high by lia. apply andb_false_r.
Qed.

(** ** Errors

    A Go [error]: what [fmt.Errorf] builds at one call site (the format, its
    arguments and the error wrapped with [%w], if any), the sentinel errors of
    package [context], the TLS errors the code looks for with [errors.As], and
    errors the environment returns. *)

Inductive tls_stack := GoTLS | UTLS.

#[warnings="-register-all"]
Inductive error : Type :=
| Errorf (format : string) (args : list arg) (wrapped : option error)
| ContextCanceled
| ContextDeadlineExceeded
| ECHRejectionError (stack : tls_stack) (RetryConfigList : list byte)
| CertificateVerificationError (stack : tls_stack)
| NetError (timeout : bool) (msg : gostr)
| OtherError (msg : gostr)
with arg : Type :=
| AStr (s : gostr)
| AInt (n : Z)
| AErr (e : error)
(** A [net.UDPAddr]. *)
| AAddr (ip : list byte) (port : Z).

(** [errors_find p e] walks the chain of wrapped errors, as [errors.Is] and
    [errors.As] do, to the first one satisfying [p]. *)
Fixpoint errors_find (p : error -> bool) (e : error) : option error :=
  if p e then Some e
  else match e with
       | Errorf _ _ (Some w) => errors_find p w
       | _ => None
       end.

Definition errors_has (p : error -> bool) (e : error) : bool :=
  match errors_find p e with Some _ => true | None => false end.

Definition is_ContextCanceled (e : error) : bool :=
  match e with ContextCanceled => true | _ => false end.
Definition is_ContextDeadlineExceeded (e : error) : bool :=
  match e with ContextDeadlineExceeded => true | _ => false end.
Definition is_ECHRejectionError (st : tls_stack) (e : error) : bool :=
  match e, st with
  | ECHRejectionError GoTLS _, GoTLS => true
  | ECHRejectionError UTLS _, UTLS => true
  | _, _ => false
  end.
Definition is_CertificateVerificationError (st : tls_stack) (e : error) : bool :=
  match e, st with
  | CertificateVerificationError GoTLS, GoTLS => true
  | CertificateVerificationError UTLS, UTLS => true
  | _, _ => false
  end.
(** The errors that implement [net.Error], with the answer of [Timeout()]. *)
Definition net_error_timeout (e : error) : option bool :=
  match e with
  | NetError t _ => Some t
  | ContextDeadlineExceeded => Some true
  | _ => None
  end.

Lemma errors_find_holds (p : error -> bool) : forall e e', errors_find p e = Some e' -> p e' = true.
Proof.
  fix IH 1. intros e e'. destruct e as [fmt args [w|]| | | | | |]; simpl; case_match; try (by intros; simplify_eq).
  apply IH.
Qed.

Lemma errors_has_wrap p fmt args w :
  errors_has p w = true -> errors_has p (Errorf fmt args (Some w)) = true.
Proof.
  unfold errors_has. simpl. destruct (p (Errorf fmt args (Some w))); [done|].
  by destruct (errors_find p w).
Qed.

(** ** Results

    A function of the source that returns [(value, error)] returns a [res]. *)

Inductive res (A : Type) : Type :=
| Ok (a : A)
| Err (e : error).
Arguments Ok {A} a.
Arguments Err {A} e.

#[export] Instance res_ret : MRet res := fun A a => Ok a.
#[export] Instance res_bind : MBind res :=
  fun A B f m => match m with Ok a => f a | Err e => Err e end.
#[export] Instance res_fmap : FMap res :=
  fun A B f m => match m with Ok a => Ok (f a) | Err e => Err e end.

Definition is_Ok {A} (r : res A) : bool := match r with Ok _ => true | Err _ => false end.
Definition res_error {A} (r : res A) : option error :=
  match r with Ok _ => None | Err e => Some e end.

(** [if err != nil { return err }]. *)
Definition check (b : bool) (e : error) : res unit := if b then Err e else Ok tt.

Lemma res_bind_Ok {A B} (m : res A) (f : A -> res B) b :
  m ≫= f = Ok b <-> exists a, m = Ok a /\ f a = Ok b.
Proof.
  destruct m as [x|e]; simpl; split.
  - intros E. by exists x.
  - by intros (? & [= <-] & E).
  - done.
  - by intros (? & ? & _).
Qed.

Lemma res_bind_Err {A B} (m : res A) (f : A -> res B) e :
  m ≫= f = Err e <-> m = Err e \/ exists a, m = Ok a /\ f a = Err e.
Proof.
  destruct m as [x|e']; simpl; split.
  - intros E. right. by exists x.
  - by intros [? | (? & [= <-] & E)].
  - intros [= <-]. by left.
  - by intros [[= <-] | (? & ? & _)].
Qed.

Lemma check_Ok b e u : check b e = Ok u <-> b = false.
Proof. by destruct b, u. Qed.

Lemma check_Err b e e' : check b e = Err e' <-> b = true /\ e' = e.
Proof. destruct b; simpl; split; [intros [= <-]|intros [_ ->]|..]; naive_solver. Qed.

Lemma check_bind_Ok {A} b e (k : res A) a :
  (check b e ≫= fun _ => k) = Ok a <-> b = false /\ k = Ok a.
Proof. destruct b; simpl; naive_solver. Qed.

Lemma unit_bind_Ok {A} (m : res unit) (k : res A) a :
  (m ≫= fun _ => k) = Ok a <-> m = Ok tt /\ k = Ok a.
Proof. destruct m as [[]|]; simpl; naive_solver. Qed.

(** ** Automation *)

Create HintDb golib.
Create Rewrite HintDb golib.
#[export] Hint Resolve bZ_range : golib.
#[export] Hint Rewrite Zb_bZ bZ_Zb @res_bind_Ok @res_bind_Err check_Ok check_Err : golib.

(** Inversion of the outcome of a computation in [res]. *)
Ltac res_inv :=
  repeat match goal with
  | H : _ ≫= _ = Ok _ |- _ => apply res_bind_Ok in H as (? & ? & ?)
  | H : check _ _ = Ok _ |- _ => apply check_Ok in H
  | H : Ok _ = Ok _ |- _ => injection H as H; subst
  | H : Err _ = Ok _ |- _ => discriminate H
  | H : Ok _ = Err _ |- _ => discriminate H
  end.

(** Linear arithmetic with division and remainder by constants. *)
Ltac divlia := Z.to_euclidean_division_equations; lia.

(** Split the conditions of an [andb]/[orb] chain that is known to be false or
    true. *)
Ltac bools :=
  repeat match goal with
  | H : _ && _ = true |- _ => apply andb_true_iff in H as [? ?]
  | H : _ || _ = false |- _ => apply orb_false_iff in H as [? ?]
  | H : negb _ = true |- _ => apply negb_true_iff in H
  | H : negb _ = false |- _ => apply negb_false_iff in H
  | H : bool_decide _ = true |- _ => apply bool_decide_eq_true in H
  | H : bool_decide _ = false |- _ => apply bool_decide_eq_false in H
  | H : (_ <? _)%Z = true |- _ => apply Z.ltb_lt in H
  | H : (_ <? _)%Z = false |- _ => apply Z.ltb_ge in H
  | H : (_ <=? _)%Z = true |- _ => apply Z.leb_le in H
  | H : (_ <=? _)%Z = false |- _ => apply Z.leb_gt in H
  | H : (_ =? _)%Z = true |- _ => apply Z.eqb_eq in H
  | H : (_ =? _)%Z = false |- _ => apply Z.eqb_neq in H
  end.
