(* ===== verification/GoString.v ===== *)
(** * Package [strings], as the source uses it

    Strings are byte sequences; [TrimSpace], [ToLower], [ToUpper] and
    [EqualFold] work on the runes they decode to. UTF-8 decoding (with one
    [RuneError] of width 1 per invalid byte), encoding and the white space set
    are written out; the case tables above U+007F are the parameter [Unicode]. *)

From S2P Require Import Prelude.
Open Scope Z_scope.

(** ** Runes *)

Class Unicode := {
  unicode_lower : Z -> Z;
  unicode_upper : Z -> Z;
  unicode_fold : Z -> Z
}.

Definition RuneError : Z := 0xFFFD.

Definition in_range (lo hi : Z) (b : byte) : bool := (lo <=? bZ b) && (bZ b <=? hi).
Definition cont_bits (b : byte) : Z := Z.land (bZ b) 0x3F.

(** [utf8.DecodeRuneInString]: the rune and its width; width 0 on the empty
    string only. *)
Definition decode_rune (s : gostr) : Z * nat :=
  let bad := (RuneError, 1%nat) in
  match s with
  | [] => (RuneError, 0%nat)
  | b0 :: r =>
    let c := bZ b0 in
    if c <? 0x80 then (c, 1%nat)
    else if in_range 0xC2 0xDF b0 then
      match r with
      | b1 :: _ =>
        if in_range 0x80 0xBF b1
        then (Z.lor (Z.shiftl (Z.land c 0x1F) 6) (cont_bits b1), 2%nat) else bad
      | _ => bad
      end
    else if in_range 0xE0 0xEF b0 then
      match r with
      | b1 :: b2 :: _ =>
        let lo := if c =? 0xE0 then 0xA0 else 0x80 in
        let hi := if c =? 0xED then 0x9F else 0xBF in
        if in_range lo hi b1 && in_range 0x80 0xBF b2
        then (Z.lor (Z.lor (Z.shiftl (Z.land c 0x0F) 12) (Z.shiftl (cont_bits b1) 6))
                    (cont_bits b2), 3%nat) else bad
      | _ => bad
      end
    else if in_range 0xF0 0xF4 b0 then
      match r with
      | b1 :: b2 :: b3 :: _ =>
        let lo := if c =? 0xF0 then 0x90 else 0x80 in
        let hi := if c =? 0xF4 then 0x8F else 0xBF in
        if in_range lo hi b1 && in_range 0x80 0xBF b2 && in_range 0x80 0xBF b3
        then (Z.lor (Z.lor (Z.shiftl (Z.land c 0x07) 18) (Z.shiftl (cont_bits b1) 12))
                    (Z.lor (Z.shiftl (cont_bits b2) 6) (cont_bits b3)), 4%nat) else bad
      | _ => bad
      end
    else bad
  end.

(** [for _, r := range s]: every rune with the bytes it was decoded from;
    [skip] counts the bytes of the current rune still to pass over. *)
Fixpoint runes_from (skip : nat) (s : gostr) : list (Z * gostr) :=
  match s with
  | [] => []
  | _ :: r =>
    match skip with
    | S k => runes_from k r
    | O => let '(c, w) := decode_rune s in (c, take w s) :: runes_from (w - 1) r
    end
  end.
Definition runes (s : gostr) : list (Z * gostr) := runes_from 0 s.

(** [utf8.AppendRune]. *)
Definition encode_rune (r : Z) : gostr :=
  let r := if (r <? 0) || (0x10FFFF <? r) || ((0xD800 <=? r) && (r <=? 0xDFFF))
           then RuneError else r in
  if r <? 0x80 then [Zb r]
  else if r <? 0x800 then
    [Zb (Z.lor 0xC0 (Z.shiftr r 6)); Zb (Z.lor 0x80 (Z.land r 0x3F))]
  else if r <? 0x10000 then
    [Zb (Z.lor 0xE0 (Z.shiftr r 12)); Zb (Z.lor 0x80 (Z.land (Z.shiftr r 6) 0x3F));
     Zb (Z.lor 0x80 (Z.land r 0x3F))]
  else
    [Zb (Z.lor 0xF0 (Z.shiftr r 18)); Zb (Z.lor 0x80 (Z.land (Z.shiftr r 12) 0x3F));
     Zb (Z.lor 0x80 (Z.land (Z.shiftr r 6) 0x3F)); Zb (Z.lor 0x80 (Z.land r 0x3F))].

(** [unicode.IsSpace]: the White_Space property. *)
Definition IsSpace (r : Z) : bool :=
  bool_decide (r ∈ [0x09; 0x0A; 0x0B; 0x0C; 0x0D; 0x20; 0x85; 0xA0; 0x1680;
                    0x2028; 0x2029; 0x202F; 0x205F; 0x3000])
  || ((0x2000 <=? r) && (r <=? 0x200A)).

(** ** Case mapping *)

Definition upper_ascii (r : Z) : bool := (0x41 <=? r) && (r <=? 0x5A).
Definition lower_ascii (r : Z) : bool := (0x61 <=? r) && (r <=? 0x7A).

Definition rune_lower `{Unicode} (r : Z) : Z :=
  if r <? 0x80 then (if upper_ascii r then r + 32 else r) else unicode_lower r.
Definition rune_upper `{Unicode} (r : Z) : Z :=
  if r <? 0x80 then (if lower_ascii r then r - 32 else r) else unicode_upper r.
(** A representative of the orbit of [unicode.SimpleFold]. *)
Definition rune_fold `{Unicode} (r : Z) : Z :=
  if r <? 0x80 then (if upper_ascii r then r + 32 else r) else unicode_fold r.

(** [strings.Map]: an invalid byte reaches the mapping as [RuneError]. *)
Definition Map (f : Z -> Z) (s : gostr) : gostr :=
  mjoin (map (fun c => encode_rune (f c.1)) (runes s)).

Definition ToLower `{Unicode} (s : gostr) : gostr := Map rune_lower s.
Definition ToUpper `{Unicode} (s : gostr) : gostr := Map rune_upper s.
Definition EqualFold `{Unicode} (s t : gostr) : bool :=
  bool_decide (map (fun c => rune_fold c.1) (runes s) = map (fun c => rune_fold c.1) (runes t)).

(** ** White space *)

Fixpoint drop_spaces (cs : list (Z * gostr)) : list (Z * gostr) :=
  match cs with
  | c :: cs' => if IsSpace c.1 then drop_spaces cs' else cs
  | [] => []
  end.

Definition TrimSpace (s : gostr) : gostr :=
  mjoin (map snd (reverse (drop_spaces (reverse (drop_spaces (runes s)))))).

(** ** Searching and splitting *)

Definition HasPrefix (s p : gostr) : bool := bool_decide (p `prefix_of` s).

Definition TrimPrefix (s p : gostr) : gostr :=
  if HasPrefix s p then drop (length p) s else s.
Definition TrimSuffix (s p : gostr) : gostr :=
  if bool_decide (p `suffix_of` s) then take (length s - length p) s else s.

Definition ContainsByte (s : gostr) (c : byte) : bool := bool_decide (c ∈ s).
(** [strings.ContainsAny] for a set of ASCII characters. *)
Definition ContainsAny (s chars : gostr) : bool := bool_decide (Exists (.∈ chars) s).

(** [strings.Split] at a one-byte separator. *)
Fixpoint Split (s : gostr) (sep : byte) : list gostr :=
  match s with
  | [] => [[]]
  | c :: r =>
    if decide (c = sep) then [] :: Split r sep
    else match Split r sep with
         | p :: ps => (c :: p) :: ps
         | [] => [[c]]
         end
  end.

Fixpoint Join (parts : list gostr) (sep : gostr) : gostr :=
  match parts with
  | [] => []
  | [p] => p
  | p :: ps => p ++ sep ++ Join ps sep
  end.

(** [IndexByte] and [LastIndexByte]. *)
Fixpoint IndexByte (s : gostr) (c : byte) : option nat :=
  match s with
  | [] => None
  | b :: r => if decide (b = c) then Some 0%nat else S <$> IndexByte r c
  end.

Fixpoint LastIndexByte (s : gostr) (c : byte) : option nat :=
  match s with
  | [] => None
  | b :: r =>
    match LastIndexByte r c with
    | Some i => Some (S i)
    | None => if decide (b = c) then Some 0%nat else None
    end
  end.

(** A table with no case pairs above U+007F, for evaluating examples. *)
Definition ascii_unicode : Unicode :=
  {| unicode_lower := id; unicode_upper := id; unicode_fold := id |}.

(** ** ASCII strings *)

Definition is_ascii (s : gostr) : Prop := Forall (fun b => bZ b < 0x80) s.
#[export] Instance is_ascii_dec s : Decision (is_ascii s).
Proof. unfold is_ascii. apply _. Defined.

Definition lower_byte (b : byte) : byte := if upper_ascii (bZ b) then Zb (bZ b + 32) else b.

Lemma runes_ascii s : is_ascii s -> runes s = map (fun b => (bZ b, [b])) s.
Proof.
  unfold runes. induction 1 as [|b s Hb _ IH]; [done|].
  cbn [runes_from decode_rune map]. rewrite (proj2 (Z.ltb_lt _ _) Hb). simpl. by rewrite IH.
Qed.

Lemma encode_ascii r : 0 <= r < 0x80 -> encode_rune r = [Zb r].
Proof.
  intros Hr. unfold encode_rune.
  rewrite (proj2 (Z.ltb_ge r 0)), (proj2 (Z.ltb_ge 0x10FFFF r)), (proj2 (Z.leb_gt 0xD800 r)) by lia.
  simpl. by rewrite (proj2 (Z.ltb_lt r 0x80)) by lia.
Qed.

Lemma rune_lower_byte `{Unicode} b :
  bZ b < 0x80 -> 0 <= rune_lower (bZ b) < 0x80 /\ Zb (rune_lower (bZ b)) = lower_byte b.
Proof.
  intros Hb. unfold rune_lower, lower_byte, upper_ascii. rewrite (proj2 (Z.ltb_lt _ _) Hb).
  pose proof (bZ_range b). destruct (_ && _) eqn:E; bools.
  - split; [lia|done].
  - split; [lia|apply Zb_bZ].
Qed.

Lemma ToLower_ascii `{Unicode} s : is_ascii s -> ToLower s = map lower_byte s.
Proof.
  intros Hs. unfold ToLower, Map. rewrite runes_ascii by done.
  induction Hs as [|b s Hb _ IH]; [done|]. simpl in *. rewrite IH.
  destruct (rune_lower_byte b Hb) as [Hr E].
  by rewrite encode_ascii, E by done.
Qed.

(** A string is unchanged by [TrimSpace] when its first and last bytes are ASCII
    and not white space. *)
Lemma drop_spaces_id cs : (forall c cs', cs = c :: cs' -> IsSpace c.1 = false) -> drop_spaces cs = cs.
Proof. destruct cs as [|c cs]; [done|]. intros Hc. simpl. by rewrite (Hc c cs). Qed.

Lemma TrimSpace_id s :
  is_ascii s ->
  (forall b, head s = Some b -> IsSpace (bZ b) = false) ->
  (forall b, last s = Some b -> IsSpace (bZ b) = false) ->
  TrimSpace s = s.
Proof.
  intros Hs Hhd Hlst. unfold TrimSpace. rewrite runes_ascii by done.
  set (cs := map _ s).
  assert (drop_spaces cs = cs) as ->.
  { apply drop_spaces_id. intros c cs' E. destruct s as [|b s]; [done|].
    injection E as <- _. by apply Hhd. }
  assert (drop_spaces (reverse cs) = reverse cs) as ->.
  { apply drop_spaces_id. intros c cs' E.
    apply (f_equal reverse) in E. rewrite reverse_involutive, reverse_cons in E.
    pose proof (last_snoc c (reverse cs')) as El. rewrite <-E in El. unfold cs in El.
    rewrite fmap_last in El. destruct (last s) as [b|] eqn:Eb; simplify_eq/=. by apply Hlst. }
  rewrite reverse_involutive. unfold cs. clear. induction s as [|b s IH]; [done|].
  simpl in *. by rewrite IH.
Qed.

(** ** Splitting and joining *)

Lemma Split_nonempty s sep : Split s sep <> [].
Proof. induction s; simpl; [done|]. repeat case_match; done. Qed.

Lemma Split_app p s sep :
  sep ∉ p -> Split (p ++ sep :: s) sep = p :: Split s sep.
Proof.
  induction p as [|c p IH]; intros Hp; simpl.
  - by rewrite decide_True.
  - apply not_elem_of_cons in Hp as [Hc Hp].
    rewrite decide_False by done. by rewrite IH.
Qed.

Lemma Split_single p sep : sep ∉ p -> Split p sep = [p].
Proof.
  induction p as [|c p IH]; intros Hp; simpl; [done|].
  apply not_elem_of_cons in Hp as [Hc Hp]. rewrite decide_False by done. by rewrite IH.
Qed.

Lemma Split_Join parts sep :
  parts <> [] -> Forall (fun p => sep ∉ p) parts -> Split (Join parts [sep]) sep = parts.
Proof.
  intros Hne. induction 1 as [|p ps Hp Hps IH]; [done|].
  destruct ps as [|q ps]; simpl; [by apply Split_single|].
  rewrite Split_app by done. f_equal. by apply IH.
Qed.

Lemma Join_cons p ps sep : ps <> [] -> Join (p :: ps) sep = p ++ sep ++ Join ps sep.
Proof. by destruct ps. Qed.

Lemma Join_push c p ps sep : Join ((c :: p) :: ps) sep = c :: Join (p :: ps) sep.
Proof. by destruct ps. Qed.

Lemma Join_Split s sep : Join (Split s sep) [sep] = s.
Proof.
  induction s as [|c s IH]; [done|]. cbn [Split].
  pose proof (Split_nonempty s sep) as Hne.
  case_decide as Hc.
  - subst. by rewrite Join_cons, IH.
  - destruct (Split s sep) as [|p ps] eqn:E; [done|]. by rewrite Join_push, IH.
Qed.

Lemma Split_parts s sep : Forall (fun p => sep ∉ p) (Split s sep).
Proof.
  induction s as [|c s IH]; simpl; [repeat constructor; apply not_elem_of_nil|].
  case_decide as Hc; [constructor; [apply not_elem_of_nil|done]|].
  destruct (Split s sep) as [|p ps]; [by repeat constructor; apply not_elem_of_cons; split; [congruence|apply not_elem_of_nil]|].
  apply Forall_cons in IH as [Hp Hps]. constructor; [|done].
  apply not_elem_of_cons. split; congruence.
Qed.

(** ** Positions *)

Lemma IndexByte_None s c : IndexByte s c = None <-> c ∉ s.
Proof.
  induction s as [|b s IH]; simpl; [split; [intros _; apply not_elem_of_nil|done]|].
  case_decide; [subst; split; [done|intros []; apply elem_of_cons; by left]|].
  rewrite fmap_None, IH, not_elem_of_cons. split; naive_solver.
Qed.

Lemma IndexByte_Some s c i :
  IndexByte s c = Some i -> exists p q, s = p ++ c :: q /\ c ∉ p /\ length p = i.
Proof.
  revert i. induction s as [|b s IH]; intros i; simpl; [done|].
  case_decide as Hb.
  - intros [= <-]. subst. exists [], s. split_and!; [done|apply not_elem_of_nil|done].
  - intros (j & Hj & ->)%fmap_Some. destruct (IH j Hj) as (p & q & -> & Hp & <-).
    exists (b :: p), q. split_and!; [done| |done]. apply not_elem_of_cons. split; congruence.
Qed.

Lemma IndexByte_app p q c : c ∉ p -> IndexByte (p ++ c :: q) c = Some (length p).
Proof.
  induction p as [|b p IH]; intros Hp; simpl; [by rewrite decide_True|].
  apply not_elem_of_cons in Hp as [Hb Hp]. rewrite decide_False by congruence. by rewrite IH.
Qed.

Lemma LastIndexByte_None s c : LastIndexByte s c = None <-> c ∉ s.
Proof.
  induction s as [|b s IH]; simpl; [split; [intros _; apply not_elem_of_nil|done]|].
  rewrite not_elem_of_cons. destruct (LastIndexByte s c).
  - split; [done|]. intros [_ Hs]. by apply IH in Hs.
  - case_decide; split; [done|naive_solver|split; [congruence|by apply IH]|done].
Qed.

Lemma LastIndexByte_app p q c : c ∉ q -> LastIndexByte (p ++ c :: q) c = Some (length p).
Proof.
  intros Hq. induction p as [|b p IH]; simpl.
  - apply LastIndexByte_None in Hq. by rewrite Hq, decide_True.
  - by rewrite IH.
Qed.

Lemma LastIndexByte_Some s c i :
  LastIndexByte s c = Some i -> exists p q, s = p ++ c :: q /\ c ∉ q /\ length p = i.
Proof.
  revert i. induction s as [|b s IH]; intros i; simpl; [done|].
  destruct (LastIndexByte s c) as [j|] eqn:E.
  - intros [= <-]. destruct (IH j eq_refl) as (p & q & -> & Hq & <-).
    by exists (b :: p), q.
  - case_decide; [|done]. intros [= <-]. subst. apply LastIndexByte_None in E.
    by exists [], s.
Qed.

(** ** [TrimSpace] returns a part of its argument *)

Lemma decode_rune_width b s : (1 <= (decode_rune (b :: s)).2)%nat.
Proof. unfold decode_rune. repeat case_match; simpl; lia. Qed.

Lemma runes_from_join k s : mjoin (map snd (runes_from k s)) = drop k s.
Proof.
  revert k. induction s as [|b s IH]; intros k; cbn [runes_from]; [by rewrite drop_nil|].
  destruct k as [|k]; [|apply IH].
  pose proof (decode_rune_width b s) as Hw. destruct (decode_rune (b :: s)) as [c w].
  simpl in Hw.
  change (take w (b :: s) ++ mjoin (map snd (runes_from (w - 1) s)) = b :: s). rewrite IH.
  destruct w as [|w]; [lia|]. simpl. rewrite Nat.sub_0_r. by rewrite take_drop.
Qed.

Lemma drop_spaces_suffix cs : exists pre, cs = pre ++ drop_spaces cs.
Proof.
  induction cs as [|c cs [pre IH]]; [by exists []|]. simpl.
  destruct (IsSpace c.1); [|by exists []]. exists (c :: pre). by rewrite IH at 1.
Qed.

Lemma TrimSpace_part s : exists a b, s = a ++ TrimSpace s ++ b.
Proof.
  pose proof (runes_from_join 0 s) as E. rewrite drop_0 in E. fold (runes s) in E.
  destruct (drop_spaces_suffix (runes s)) as [pre E1].
  destruct (drop_spaces_suffix (reverse (drop_spaces (runes s)))) as [post E2].
  apply (f_equal reverse) in E2. rewrite reverse_involutive, reverse_app in E2.
  exists (mjoin (map snd pre)), (mjoin (map snd (reverse post))). unfold TrimSpace.
  rewrite <-E at 1. rewrite E1 at 1. rewrite E2 at 1.
  by rewrite !map_app, !join_app.
Qed.

Lemma elem_of_TrimSpace x s : x ∈ TrimSpace s -> x ∈ s.
Proof. destruct (TrimSpace_part s) as (a & b & E). rewrite E at 2. set_solver. Qed.

(** ** Case-insensitive comparison of ASCII strings *)

Lemma rune_fold_byte `{Unicode} b : bZ b < 0x80 -> rune_fold (bZ b) = bZ (lower_byte b).
Proof.
  intros Hb. destruct (rune_lower_byte b Hb) as [Hr E]. unfold rune_lower in *.
  unfold rune_fold. rewrite (proj2 (Z.ltb_lt _ _) Hb) in *. rewrite <-E.
  symmetry. apply bZ_Zb_small. lia.
Qed.

Lemma EqualFold_ascii `{Unicode} s t :
  is_ascii s -> is_ascii t -> EqualFold s t = bool_decide (map lower_byte s = map lower_byte t).
Proof.
  intros Hs Ht. unfold EqualFold.
  assert (forall u, is_ascii u -> map (fun c => rune_fold c.1) (runes u) = map bZ (map lower_byte u)) as E.
  { intros u Hu. rewrite runes_ascii by done. induction Hu as [|b u Hb _ IH]; [done|].
    cbn [map]. f_equal; [by apply rune_fold_byte|exact IH]. }
  rewrite !E by done. apply bool_decide_ext. split; [|congruence].
  apply (list_fmap_eq_inj _ _).
Qed.

Lemma lower_byte_ascii b : bZ b < 0x80 -> bZ (lower_byte b) < 0x80.
Proof. intros Hb. unfold lower_byte, upper_ascii. case_match; [|done]. bools. rewrite bZ_Zb. divlia. Qed.

Lemma lower_byte_fixed c : upper_ascii (bZ c) = false -> lower_ascii (bZ c) = false ->
  forall b, lower_byte b = c -> b = c.
Proof.
  intros Hu Hl b <-. unfold lower_byte in *. destruct (upper_ascii (bZ b)) eqn:E; [|done].
  exfalso. unfold upper_ascii, lower_ascii in *. bools.
  rewrite bZ_Zb_small in Hl by lia. apply andb_false_iff in Hl as [Hl|Hl]; bools; lia.
Qed.

Lemma elem_of_lower c s :
  upper_ascii (bZ c) = false -> lower_ascii (bZ c) = false ->
  c ∈ map lower_byte s <-> c ∈ s.
Proof.
  intros Hu Hl. rewrite list_elem_of_fmap. split.
  - intros (b & E & Hb). by rewrite <-(lower_byte_fixed c Hu Hl b (eq_sym E)).
  - intros Hc. exists c. split; [|done]. unfold lower_byte. by rewrite Hu.
Qed.
