(* ===== verification/GoCodec.v ===== *)
(** * Packages [strconv], [encoding/hex], [encoding/base64] and
    [encoding/binary], as the source uses them *)

From S2P Require Import Prelude GoString.
Open Scope Z_scope.

(** ** [strconv.Atoi]

    One optional sign, then at least one decimal digit; the value must fit in
    an [int]. *)

Definition digit_value (b : byte) : option Z :=
  if in_range 0x30 0x39 b then Some (bZ b - 0x30) else None.

Fixpoint parse_digits (acc : Z) (s : gostr) : option Z :=
  match s with
  | [] => Some acc
  | b :: r => match digit_value b with
              | Some d => parse_digits (acc * 10 + d) r
              | None => None
              end
  end.

Definition Atoi `{IntWidth} (s : gostr) : option Z :=
  let '(neg, ds) := match s with
                    | x2d :: r => (true, r)
                    | x2b :: r => (false, r)
                    | _ => (false, s)
                    end in
  match ds with
  | [] => None
  | _ => match parse_digits 0 ds with
         | Some v => let n := if (neg : bool) then - v else v in
                     if decide (is_int n) then Some n else None
         | None => None
         end
  end.

(** The decimal notation of a natural number. *)
Fixpoint decimal_rev (fuel : nat) (n : Z) : gostr :=
  match fuel with
  | O => []
  | S f => Zb (0x30 + n mod 10) :: (if n <? 10 then [] else decimal_rev f (n / 10))
  end.
Definition Itoa (n : Z) : gostr := reverse (decimal_rev (S (Z.to_nat n)) n).

(** ** [encoding/hex] *)

Definition hex_value (b : byte) : option Z :=
  if in_range 0x30 0x39 b then Some (bZ b - 0x30)
  else if in_range 0x61 0x66 b then Some (bZ b - 0x61 + 10)
  else if in_range 0x41 0x46 b then Some (bZ b - 0x41 + 10)
  else None.

(** [hex.DecodeString]. *)
Fixpoint hex_decode (s : gostr) : option (list byte) :=
  match s with
  | [] => Some []
  | [_] => None
  | a :: b :: r =>
    match hex_value a, hex_value b, hex_decode r with
    | Some x, Some y, Some t => Some (Zb (Z.lor (Z.shiftl x 4) y) :: t)
    | _, _, _ => None
    end
  end.

Definition hex_digits : gostr := "0123456789abcdef".

(** [hex.EncodeToString]. *)
Definition hex_encode (bs : list byte) : gostr :=
  mjoin (map (fun b => [default x30 (hex_digits !! Z.to_nat (bZ b / 16));
                        default x30 (hex_digits !! Z.to_nat (bZ b mod 16))]) bs).

(** ** [encoding/base64] *)

Record base64_encoding := { b64_alphabet : gostr; b64_pad : bool }.

Definition std_alphabet : gostr :=
  "ABCDEFGHIJKLMNOPQRSTUVWXYZabcdefghijklmnopqrstuvwxyz0123456789+/".
Definition url_alphabet : gostr :=
  "ABCDEFGHIJKLMNOPQRSTUVWXYZabcdefghijklmnopqrstuvwxyz0123456789-_".

Definition StdEncoding := {| b64_alphabet := std_alphabet; b64_pad := true |}.
Definition RawStdEncoding := {| b64_alphabet := std_alphabet; b64_pad := false |}.
Definition URLEncoding := {| b64_alphabet := url_alphabet; b64_pad := true |}.
Definition RawURLEncoding := {| b64_alphabet := url_alphabet; b64_pad := false |}.

Definition b64_value (enc : base64_encoding) (b : byte) : option Z :=
  Z.of_nat <$> IndexByte (b64_alphabet enc) b.

Definition b64_bytes3 (a b c d : Z) : list byte :=
  let v := a * 2 ^ 18 + b * 2 ^ 12 + c * 2 ^ 6 + d in
  [Zb (v / 2 ^ 16); Zb (v / 2 ^ 8); Zb v].

(** The symbols of a string without its line breaks, in groups of four. A
    padding encoding ends in [xx==] or [xxx=], a raw one in [xx] or [xxx]; the
    unused low bits are not inspected (none of these encodings is [Strict]). *)
Fixpoint b64_decode_quanta (enc : base64_encoding) (s : gostr) : option (list byte) :=
  let val := b64_value enc in
  match s with
  | [] => Some []
  | [a; b] =>
    if b64_pad enc then None else
    match val a, val b with
    | Some x, Some y => Some (take 1 (b64_bytes3 x y 0 0))
    | _, _ => None
    end
  | [a; b; c] =>
    if b64_pad enc then None else
    match val a, val b, val c with
    | Some x, Some y, Some z => Some (take 2 (b64_bytes3 x y z 0))
    | _, _, _ => None
    end
  | a :: b :: c :: d :: r =>
    match val a, val b, val c, val d with
    | Some x, Some y, Some z, Some w =>
      match b64_decode_quanta enc r with
      | Some t => Some (b64_bytes3 x y z w ++ t)
      | None => None
      end
    | Some x, Some y, Some z, None =>
      if b64_pad enc && bool_decide (d = x3d /\ r = []) then Some (take 2 (b64_bytes3 x y z 0)) else None
    | Some x, Some y, None, _ =>
      if b64_pad enc && bool_decide (c = x3d /\ d = x3d /\ r = [])
      then Some (take 1 (b64_bytes3 x y 0 0)) else None
    | _, _, _, _ => None
    end
  | [_] => None
  end.

Definition is_newline (b : byte) : bool := bool_decide (b = x0a \/ b = x0d).

(** [enc.DecodeString]. *)
Definition b64_decode (enc : base64_encoding) (s : gostr) : option (list byte) :=
  b64_decode_quanta enc (List.filter (fun b => negb (is_newline b)) s).

Definition b64_symbol (enc : base64_encoding) (n : Z) : byte :=
  default x41 (b64_alphabet enc !! Z.to_nat n).

(** [enc.EncodeToString]. *)
Fixpoint b64_encode (enc : base64_encoding) (bs : list byte) : gostr :=
  let sym := b64_symbol enc in
  let pad (n : nat) := if b64_pad enc then replicate n x3d else [] in
  match bs with
  | [] => []
  | [a] => let v := bZ a * 2 ^ 16 in
    [sym (v / 2 ^ 18); sym (v / 2 ^ 12 mod 64)] ++ pad 2%nat
  | [a; b] => let v := bZ a * 2 ^ 16 + bZ b * 2 ^ 8 in
    [sym (v / 2 ^ 18); sym (v / 2 ^ 12 mod 64); sym (v / 2 ^ 6 mod 64)] ++ pad 1%nat
  | a :: b :: c :: r => let v := bZ a * 2 ^ 16 + bZ b * 2 ^ 8 + bZ c in
    [sym (v / 2 ^ 18); sym (v / 2 ^ 12 mod 64); sym (v / 2 ^ 6 mod 64); sym (v mod 64)]
    ++ b64_encode enc r
  end.

(** ** [encoding/binary] *)

Definition be_Uint16 (b : list byte) : Z :=
  match b with b0 :: b1 :: _ => bZ b0 * 256 + bZ b1 | _ => 0 end.
Definition be_put16 (n : Z) : list byte := [Zb (n / 256); Zb n].

Definition le_Uint32 (b : list byte) : Z :=
  match b with
  | b0 :: b1 :: b2 :: b3 :: _ => bZ b0 + bZ b1 * 2 ^ 8 + bZ b2 * 2 ^ 16 + bZ b3 * 2 ^ 24
  | _ => 0
  end.
Definition le_put32 (n : Z) : list byte :=
  [Zb n; Zb (n / 2 ^ 8); Zb (n / 2 ^ 16); Zb (n / 2 ^ 24)].

(** ** Lemmas: big-endian and little-endian *)

Lemma be_Uint16_put n r : 0 <= n < 65536 -> be_Uint16 (be_put16 n ++ r) = n.
Proof.
  intros Hn. simpl. rewrite !bZ_Zb. divlia.
Qed.

Lemma be_Uint16_range b : 0 <= be_Uint16 b < 65536.
Proof.
  destruct b as [|b0 [|b1 b]]; simpl; try lia.
  pose proof (bZ_range b0). pose proof (bZ_range b1). lia.
Qed.

Lemma le_Uint32_put n r : 0 <= n < 2 ^ 32 -> le_Uint32 (le_put32 n ++ r) = n.
Proof.
  intros Hn. cbn [le_put32 le_Uint32 app]. rewrite !bZ_Zb. divlia.
Qed.

Lemma le_Uint32_range b : 0 <= le_Uint32 b < 2 ^ 32.
Proof.
  destruct b as [|b0 [|b1 [|b2 [|b3 b]]]]; simpl; try lia.
  pose proof (bZ_range b0). pose proof (bZ_range b1).
  pose proof (bZ_range b2). pose proof (bZ_range b3). lia.
Qed.

(** ** Lemmas: decimal *)

Lemma digit_value_Zb d : 0 <= d < 10 -> digit_value (Zb (0x30 + d)) = Some d.
Proof.
  intros Hd. unfold digit_value, in_range. rewrite bZ_Zb_small by lia.
  rewrite !(proj2 (Z.leb_le _ _)) by lia. simpl. f_equal. lia.
Qed.

Lemma parse_digits_app acc s t :
  parse_digits acc (s ++ t) = match parse_digits acc s with
                              | Some v => parse_digits v t
                              | None => None
                              end.
Proof. revert acc. induction s as [|b s IH]; intros; simpl; [done|]. by destruct (digit_value b). Qed.

Lemma parse_digits_decimal fuel n :
  0 <= n < Z.of_nat fuel -> parse_digits 0 (reverse (decimal_rev fuel n)) = Some n.
Proof.
  revert n. induction fuel as [|f IH]; intros n Hn; [lia|].
  cbn [decimal_rev]. rewrite reverse_cons, parse_digits_app.
  destruct (n <? 10) eqn:E; bools.
  - simpl. rewrite Z.mod_small, digit_value_Zb by lia. done.
  - rewrite IH by divlia. cbn [parse_digits].
    rewrite digit_value_Zb by divlia. f_equal. divlia.
Qed.

Lemma decimal_rev_digits fuel n :
  0 <= n -> Forall (fun b => in_range 0x30 0x39 b = true) (decimal_rev fuel n).
Proof.
  revert n. induction fuel as [|f IH]; intros n Hn; simpl; [constructor|].
  constructor.
  - unfold in_range. rewrite bZ_Zb_small by divlia. rewrite !(proj2 (Z.leb_le _ _)) by divlia. done.
  - case_match; [constructor|]. apply IH. divlia.
Qed.

Lemma Itoa_digits n : 0 <= n -> Forall (fun b => in_range 0x30 0x39 b = true) (Itoa n).
Proof. intros. by apply Forall_reverse, decimal_rev_digits. Qed.

Lemma Itoa_nonempty n : exists b r, Itoa n = r ++ [b].
Proof. unfold Itoa. cbn [decimal_rev]. rewrite reverse_cons. eauto. Qed.

Lemma Atoi_digits `{IntWidth} s :
  s <> [] -> Forall (fun b => in_range 0x30 0x39 b = true) s ->
  Atoi s = match parse_digits 0 s with
           | Some n => if decide (is_int n) then Some n else None
           | None => None
           end.
Proof.
  intros Hne Hs. destruct s as [|b s]; [done|]. apply Forall_cons in Hs as [Hb _].
  unfold Atoi. destruct b; first [discriminate Hb | done].
Qed.

Lemma Atoi_Itoa `{IntWidth} n : 0 <= n <= int_max -> Atoi (Itoa n) = Some n.
Proof.
  intros Hn. destruct (Itoa_nonempty n) as (b & r & E).
  rewrite Atoi_digits; [|rewrite E; by destruct r|apply Itoa_digits; lia].
  unfold Itoa. rewrite parse_digits_decimal by lia.
  rewrite decide_True; [done|]. unfold is_int, int_min, int_max in *.
  pose proof (Z.pow_nonneg 2 (int_bits - 1) ltac:(lia)). lia.
Qed.

Lemma Atoi_range `{IntWidth} s n : Atoi s = Some n -> is_int n.
Proof. unfold Atoi. intros E. repeat case_match; by simplify_eq. Qed.

(** ** Lemmas: hexadecimal *)

Lemma hex_value_digit n :
  0 <= n < 16 -> hex_value (default x30 (hex_digits !! Z.to_nat n)) = Some n.
Proof.
  intros Hn. assert (exists k, n = Z.of_nat k /\ (k < 16)%nat) as (k & -> & Hk).
  { exists (Z.to_nat n). lia. }
  rewrite Nat2Z.id. clear Hn. by do 16 (destruct k as [|k]; [done|]); lia.
Qed.

Lemma hex_decode_encode bs : hex_decode (hex_encode bs) = Some bs.
Proof.
  induction bs as [|b bs IH]; [done|].
  change (hex_encode (b :: bs)) with
    (default x30 (hex_digits !! Z.to_nat (bZ b / 16)) ::
     default x30 (hex_digits !! Z.to_nat (bZ b mod 16)) :: hex_encode bs).
  cbn [hex_decode]. pose proof (bZ_range b).
  rewrite !hex_value_digit, IH by divlia. do 2 f_equal.
  apply (inj bZ). rewrite bZ_Zb, (lor_shiftl_add 4), Z.shiftl_mul_pow2 by divlia. divlia.
Qed.

(** Induction two elements at a time. *)
Lemma pair_ind {A} (P : list A -> Prop) :
  P [] -> (forall a, P [a]) -> (forall a b l, P l -> P (a :: b :: l)) -> forall l, P l.
Proof.
  intros H0 H1 H2. fix IH 1. intros [|a [|b l]]; [done|apply H1|apply H2, IH].
Qed.

Lemma hex_decode_length s bs : hex_decode s = Some bs -> length s = (2 * length bs)%nat.
Proof.
  revert bs. induction s as [|a|a b s IH] using pair_ind; intros bs; simpl; intros E; simplify_eq/=.
  - done.
  - repeat case_match; simplify_eq/=. rewrite (IH _ eq_refl). lia.
Qed.

(** ** Lemmas: base64 *)

Definition b64_encodings : list base64_encoding :=
  [StdEncoding; RawStdEncoding; URLEncoding; RawURLEncoding].

Lemma b64_symbol_check :
  forallb (fun enc => forallb (fun n =>
      bool_decide (b64_value enc (b64_symbol enc n) = Some n)
      && negb (is_newline (b64_symbol enc n))) (seqZ 0 64)) b64_encodings = true.
Proof. vm_compute. reflexivity. Qed.

Lemma b64_symbol_ok enc n :
  enc ∈ b64_encodings -> 0 <= n < 64 ->
  b64_value enc (b64_symbol enc n) = Some n /\ is_newline (b64_symbol enc n) = false.
Proof.
  intros He Hn. pose proof b64_symbol_check as C. rewrite forallb_forall in C.
  specialize (C enc (proj1 (list_elem_of_In _ _) He)). rewrite forallb_forall in C.
  specialize (C n). rewrite <-list_elem_of_In, elem_of_seqZ in C.
  specialize (C ltac:(lia)). by bools.
Qed.

Lemma b64_bytes3_split x y z a b c d :
  bZ x * 2 ^ 16 + bZ y * 2 ^ 8 + bZ z = a * 2 ^ 18 + b * 2 ^ 12 + c * 2 ^ 6 + d ->
  b64_bytes3 a b c d = [x; y; z].
Proof.
  intros E. unfold b64_bytes3. rewrite <-E.
  pose proof (bZ_range x). pose proof (bZ_range y). pose proof (bZ_range z).
  repeat f_equal; apply (inj bZ); rewrite bZ_Zb; divlia.
Qed.

Lemma triple_ind {A} (P : list A -> Prop) :
  P [] -> (forall a, P [a]) -> (forall a b, P [a; b]) ->
  (forall a b c l, P l -> P (a :: b :: c :: l)) -> forall l, P l.
Proof.
  intros H0 H1 H2 H3. fix IH 1. intros [|a [|b [|c l]]]; [done|apply H1|apply H2|apply H3, IH].
Qed.

Lemma b64_quanta_encode enc bs :
  enc ∈ b64_encodings -> b64_decode_quanta enc (b64_encode enc bs) = Some bs.
Proof.
  intros He. pose proof (fun n Hn => proj1 (b64_symbol_ok enc n He Hn)) as V.
  assert (b64_value enc x3d = None) as Vpad.
  { rewrite !list_elem_of_In in He. by destruct He as [<- | [<- | [<- | [<- | []]]]]. }
  induction bs as [|a|a b|a b c bs IH] using triple_ind; [done|..].
  - pose proof (bZ_range a). cbn [b64_encode].
    destruct (b64_pad enc) eqn:Hp; cbn [replicate app b64_decode_quanta]; rewrite Hp;
      rewrite !V by divlia; rewrite ?Vpad; cbn [andb].
    + rewrite bool_decide_true by done.
      by rewrite (b64_bytes3_split a x00 x00) by (change (bZ x00) with 0; divlia).
    + by rewrite (b64_bytes3_split a x00 x00) by (change (bZ x00) with 0; divlia).
  - pose proof (bZ_range a). pose proof (bZ_range b). cbn [b64_encode].
    destruct (b64_pad enc) eqn:Hp; cbn [replicate app b64_decode_quanta]; rewrite Hp;
      rewrite !V by divlia; rewrite ?Vpad; cbn [andb].
    + rewrite bool_decide_true by done.
      by rewrite (b64_bytes3_split a b x00) by (change (bZ x00) with 0; divlia).
    + by rewrite (b64_bytes3_split a b x00) by (change (bZ x00) with 0; divlia).
  - pose proof (bZ_range a). pose proof (bZ_range b). pose proof (bZ_range c).
    cbn [b64_encode app b64_decode_quanta].
    destruct (b64_encode enc bs) eqn:E; rewrite !V by divlia; rewrite IH;
      by rewrite (b64_bytes3_split a b c) by divlia.
Qed.

Lemma b64_encode_no_newline enc bs :
  enc ∈ b64_encodings -> Forall (fun b => negb (is_newline b) = true) (b64_encode enc bs).
Proof.
  intros He.
  assert (forall n, 0 <= n < 64 -> negb (is_newline (b64_symbol enc n)) = true) as N.
  { intros n Hn. by rewrite (proj2 (b64_symbol_ok enc n He Hn)). }
  assert (forall k, Forall (fun b => negb (is_newline b) = true)
                      (if b64_pad enc then replicate k x3d else [])) as P.
  { intros k. destruct (b64_pad enc); [|constructor]. by apply Forall_replicate. }
  induction bs as [|a|a b|a b c bs IH] using triple_ind; cbn [b64_encode app].
  - constructor.
  - pose proof (bZ_range a). repeat first [apply P | constructor; [apply N; divlia|]].
  - pose proof (bZ_range a). pose proof (bZ_range b).
    repeat first [apply P | constructor; [apply N; divlia|]].
  - pose proof (bZ_range a). pose proof (bZ_range b). pose proof (bZ_range c).
    repeat first [apply IH | constructor; [apply N; divlia|]].
Qed.

Lemma filter_all {A} (p : A -> bool) l :
  Forall (fun x => p x = true) l -> List.filter p l = l.
Proof. induction 1 as [|x l Hx _ IH]; simpl; [done|]. by rewrite Hx, IH. Qed.

Lemma b64_decode_encode enc bs :
  enc ∈ b64_encodings -> b64_decode enc (b64_encode enc bs) = Some bs.
Proof.
  intros He. unfold b64_decode. rewrite filter_all by by apply b64_encode_no_newline.
  by apply b64_quanta_encode.
Qed.

(** Two of the four encodings never decode one string to two values. *)
Lemma b64_value_agree e1 e2 b x y :
  e1 ∈ b64_encodings -> e2 ∈ b64_encodings ->
  b64_value e1 b = Some x -> b64_value e2 b = Some y -> x = y.
Proof.
  intros H1 H2 E1 E2.
  assert (forallb (fun e1 => forallb (fun e2 => forallb (fun n =>
            match b64_value e1 (Zb n), b64_value e2 (Zb n) with
            | Some x, Some y => bool_decide (x = y) | _, _ => true end)
            (seqZ 0 256)) b64_encodings) b64_encodings = true) as C by (vm_compute; reflexivity).
  rewrite forallb_forall in C. specialize (C e1 (proj1 (list_elem_of_In _ _) H1)).
  rewrite forallb_forall in C. specialize (C e2 (proj1 (list_elem_of_In _ _) H2)).
  rewrite forallb_forall in C. specialize (C (bZ b)).
  rewrite <-list_elem_of_In, elem_of_seqZ, Zb_bZ, E1, E2 in C.
  pose proof (bZ_range b). specialize (C ltac:(lia)). by bools.
Qed.

Lemma b64_value_pad enc : enc ∈ b64_encodings -> b64_value enc x3d = None.
Proof. rewrite list_elem_of_In. by intros [<- | [<- | [<- | [<- | []]]]]. Qed.

Lemma b64_quanta_agree e1 e2 s t1 t2 :
  e1 ∈ b64_encodings -> e2 ∈ b64_encodings ->
  b64_decode_quanta e1 s = Some t1 -> b64_decode_quanta e2 s = Some t2 -> t1 = t2.
Proof.
  intros H1 H2. revert t1 t2.
  pose proof (fun b x y => b64_value_agree e1 e2 b x y H1 H2) as A.
  pose proof (b64_value_pad e1 H1) as P1. pose proof (b64_value_pad e2 H2) as P2.
  revert s. fix IH 1. intros s t1 t2.
  destruct s as [|a [|b [|c [|d s]]]]; cbn [b64_decode_quanta]; [congruence|done|..].
  - repeat case_match; intros; simplify_eq.
    repeat match goal with
    | E1 : b64_value e1 ?b = Some ?x, E2 : b64_value e2 ?b = Some ?y |- _ =>
      pose proof (A _ _ _ E1 E2); subst; clear E1 end; done.
  - repeat case_match; intros; simplify_eq.
    repeat match goal with
    | E1 : b64_value e1 ?b = Some ?x, E2 : b64_value e2 ?b = Some ?y |- _ =>
      pose proof (A _ _ _ E1 E2); subst; clear E1 end; done.
  - destruct (b64_decode_quanta e1 s) as [u1|] eqn:U1, (b64_decode_quanta e2 s) as [u2|] eqn:U2;
      try (pose proof (IH s u1 u2 U1 U2); subst);
      repeat case_match; intros; simplify_eq; bools; destruct_and?; subst; simplify_eq;
      repeat match goal with
      | E1 : b64_value e1 ?b = Some ?x, E2 : b64_value e2 ?b = Some ?y |- _ =>
        pose proof (A _ _ _ E1 E2); subst; clear E1 end; congruence.
Qed.

Lemma b64_decode_agree e1 e2 s t1 t2 :
  e1 ∈ b64_encodings -> e2 ∈ b64_encodings ->
  b64_decode e1 s = Some t1 -> b64_decode e2 s = Some t2 -> t1 = t2.
Proof. apply b64_quanta_agree. Qed.
