(* ===== verification/GoNet.v ===== *)
(** * Package [net], as the source uses it: host:port strings and IP addresses *)

From S2P Require Import Prelude GoString GoCodec.
Open Scope Z_scope.

(** ** [net.SplitHostPort] and [net.JoinHostPort] *)

Inductive addr_error :=
| MissingPort | TooManyColons | MissingBracket | UnexpectedOpen | UnexpectedClose.

Definition SplitHostPort (hostport : gostr) : addr_error + (gostr * gostr) :=
  match LastIndexByte hostport x3a with
  | None => inl MissingPort
  | Some i =>
    let tail host j k :=
      if ContainsByte (drop j hostport) x5b then inl UnexpectedOpen
      else if ContainsByte (drop k hostport) x5d then inl UnexpectedClose
      else inr (host, drop (S i) hostport) in
    if bool_decide (head hostport = Some x5b) then
      match IndexByte hostport x5d with
      | None => inl MissingBracket
      | Some e =>
        if (S e =? length hostport)%nat then inl MissingPort
        else if (S e =? i)%nat then tail (drop 1 (take e hostport)) 1%nat (S e)
        else if bool_decide (hostport !! S e = Some x3a) then inl TooManyColons
        else inl MissingPort
      end
    else
      let host := take i hostport in
      if ContainsByte host x3a then inl TooManyColons else tail host 0%nat 0%nat
  end.

Definition JoinHostPort (host port : gostr) : gostr :=
  if ContainsByte host x3a
  then ("[" : gostr) ++ host ++ ("]:" : gostr) ++ port
  else host ++ (":" : gostr) ++ port.

Definition addr_error_text (e : addr_error) : gostr :=
  match e with
  | MissingPort => "missing port in address"
  | TooManyColons => "too many colons in address"
  | MissingBracket => "missing ']' in address"
  | UnexpectedOpen => "unexpected '[' in address"
  | UnexpectedClose => "unexpected ']' in address"
  end.

(** ** [net.ParseIP] *)

(** [parseIPv4Fields]: [val] and [diglen] describe the current octet, [prev] is
    the preceding character, [fields] the octets read so far. *)
Fixpoint parse_ipv4_fields (s : gostr) (prev : option byte) (val : Z) (diglen : nat)
    (fields : list Z) : option (list Z) :=
  match s with
  | [] => if (length fields <? 3)%nat then None else Some (fields ++ [val])
  | c :: r =>
    match digit_value c with
    | Some d =>
      if (diglen =? 1)%nat && (val =? 0) then None
      else let v := val * 10 + d in
           if 255 <? v then None else parse_ipv4_fields r (Some c) v (S diglen) fields
    | None =>
      if bool_decide (c = x2e) then
        if bool_decide (prev = None) || bool_decide (r = []) || bool_decide (prev = Some x2e)
        then None
        else if (length fields =? 3)%nat then None
        else parse_ipv4_fields r (Some c) 0 0%nat (fields ++ [val])
      else None
    end
  end.

Definition parse_ipv4 (s : gostr) : option (list Z) := parse_ipv4_fields s None 0 0%nat [].

(** One group of an IPv6 address: its value, its length and the rest; more than
    four digits are refused. *)
Fixpoint parse_hex_group (s : gostr) (acc : Z) (off : nat) : option (Z * nat * gostr) :=
  match s with
  | c :: r =>
    match hex_value c with
    | Some d => if (3 <? off)%nat then None else parse_hex_group r (acc * 16 + d) (S off)
    | None => Some (acc, off, s)
    end
  | [] => Some (acc, off, s)
  end.

(** The loop of [parseIPv6]: [ip] holds the bytes read so far, [ell] the
    position of the ellipsis. Each round adds two bytes, so eight rounds reach
    sixteen and [fuel] 8 is enough. *)
Fixpoint parse_ipv6_groups (fuel : nat) (s : gostr) (ip : list Z) (ell : option nat)
    : option (gostr * list Z * option nat) :=
  match fuel with
  | O => Some (s, ip, ell)
  | S f =>
    match parse_hex_group s 0 0%nat with
    | None | Some (_, 0%nat, _) => None
    | Some (acc, _, rest) =>
      match rest with
      | x2e :: _ =>
        if (bool_decide (ell = None) && negb (length ip =? 12)%nat) || (16 <? length ip + 4)%nat
        then None
        else match parse_ipv4 s with
             | Some fs => Some ([], ip ++ fs, ell)
             | None => None
             end
      | _ =>
        let ip' := ip ++ [acc / 256; acc mod 256] in
        match rest with
        | [] => Some ([], ip', ell)
        | x3a :: [] => None
        | x3a :: x3a :: r =>
          if bool_decide (ell = None)
          then match r with
               | [] => Some ([], ip', Some (length ip'))
               | _ => parse_ipv6_groups f r ip' (Some (length ip'))
               end
          else None
        | x3a :: r => parse_ipv6_groups f r ip' ell
        | _ => None
        end
      end
    end
  end.

Definition parse_ipv6 (s : gostr) : option (list Z) :=
  let finish '(rest, ip, ell) :=
    match rest with
    | _ :: _ => None
    | [] =>
      if (length ip <? 16)%nat then
        match ell with
        | None => None
        | Some e => Some (take e ip ++ replicate (16 - length ip) 0 ++ drop e ip)
        end
      else match ell with Some _ => None | None => Some ip end
    end in
  match s with
  | x3a :: x3a :: [] => Some (replicate 16 0)
  | x3a :: x3a :: r => parse_ipv6_groups 8 r [] (Some 0%nat) ≫= finish
  | _ => parse_ipv6_groups 8 s [] None ≫= finish
  end.

(** The first of [.], [:] and [%] decides the syntax; an address with a zone is
    not an IP for [net.ParseIP]. The result is the 16-byte form. *)
Definition ParseIP (s : gostr) : option (list byte) :=
  match List.find (fun c => bool_decide (c ∈ [x2e; x3a; x25])) s with
  | Some x2e => (fun fs => map Zb (replicate 10 0 ++ [255; 255] ++ fs)) <$> parse_ipv4 s
  | Some x3a => if ContainsByte s x25 then None else map Zb <$> parse_ipv6 s
  | _ => None
  end.

(** [ip.To4() != nil]. *)
Definition is_IPv4 (ip : list byte) : bool :=
  (length ip =? 4)%nat ||
  ((length ip =? 16)%nat && bool_decide (take 12 ip = replicate 10 x00 ++ [xff; xff])).

(** [ip.To16()]; [None] is nil. *)
Definition To16 (ip : list byte) : option (list byte) :=
  if (length ip =? 4)%nat then Some (replicate 10 x00 ++ [xff; xff] ++ ip)
  else if (length ip =? 16)%nat then Some ip
  else None.

(** ** Lemmas *)

Lemma ContainsByte_true s c : ContainsByte s c = true <-> c ∈ s.
Proof. apply bool_decide_eq_true. Qed.
Lemma ContainsByte_false s c : ContainsByte s c = false <-> c ∉ s.
Proof. apply bool_decide_eq_false. Qed.

(** A host without brackets and a port without colons and brackets survive
    joining and splitting. *)
Lemma Split_Join_HostPort host port :
  x5b ∉ host -> x5d ∉ host -> x3a ∉ port -> x5b ∉ port -> x5d ∉ port ->
  SplitHostPort (JoinHostPort host port) = inr (host, port).
Proof.
  intros Ho Hc Pp Po Pc. unfold JoinHostPort.
  destruct (ContainsByte host x3a) eqn:E.
  - change (("[" : gostr) ++ host ++ ("]:" : gostr) ++ port)
      with (([x5b] ++ host ++ [x5d; x3a] ++ port) : gostr).
    set (s := _ ++ _).
    assert (LastIndexByte s x3a = Some (S (S (length host)))) as L.
    { unfold s. replace ([x5b] ++ host ++ [x5d; x3a] ++ port)
        with (([x5b] ++ host ++ [x5d]) ++ x3a :: port) by by simplify_list_eq.
      rewrite LastIndexByte_app by done. f_equal. rewrite !length_app. simpl. lia. }
    assert (IndexByte s x5d = Some (S (length host))) as I.
    { unfold s. replace ([x5b] ++ host ++ [x5d; x3a] ++ port)
        with (([x5b] ++ host) ++ x5d :: x3a :: port) by by simplify_list_eq.
      rewrite IndexByte_app; [done|]. rewrite elem_of_app, list_elem_of_singleton. naive_solver. }
    unfold SplitHostPort. rewrite L, I, bool_decide_true by done.
    rewrite (proj2 (Nat.eqb_neq _ _)) by (unfold s; rewrite !length_app; simpl; lia).
    rewrite (proj2 (Nat.eqb_eq _ _)) by done.
    assert (drop 1 s = host ++ [x5d; x3a] ++ port) as -> by done.
    assert (drop (S (S (length host))) s = x3a :: port) as D.
    { unfold s. simpl. change (x5d :: x3a :: port) with ([x5d] ++ (x3a :: port)).
      rewrite app_assoc, drop_app_length'; [done|]. rewrite length_app. simpl. lia. }
    rewrite D. rewrite (proj2 (ContainsByte_false _ _)).
    2:{ rewrite !elem_of_app, !elem_of_cons. set_solver. }
    rewrite (proj2 (ContainsByte_false _ _)) by set_solver.
    do 2 f_equal.
    + unfold s. simpl. by rewrite take_app_length.
    + replace (S (S (S (length host)))) with (S (S (length host)) + 1)%nat by lia.
      by rewrite <-drop_drop, D.
  - apply ContainsByte_false in E.
    change ((":" : gostr) ++ port) with (x3a :: port).
    unfold SplitHostPort. rewrite LastIndexByte_app by done.
    rewrite bool_decide_false.
    2:{ destruct host; simpl; [done|]. intros [= ->]. set_solver. }
    rewrite take_app_length, (proj2 (ContainsByte_false _ _)) by done.
    rewrite !drop_0.
    rewrite !(proj2 (ContainsByte_false _ _)) by (rewrite elem_of_app, elem_of_cons; set_solver).
    replace (S (length host)) with (length (host ++ [x3a])) by (rewrite length_app; simpl; lia).
    replace (host ++ x3a :: port) with ((host ++ [x3a]) ++ port) by by simplify_list_eq.
    by rewrite drop_app_length.
Qed.

(** The port is what follows the last colon. *)
Lemma SplitHostPort_port s host port : SplitHostPort s = inr (host, port) -> x3a ∉ port.
Proof.
  unfold SplitHostPort. destruct (LastIndexByte s x3a) as [i|] eqn:E; [|done].
  apply LastIndexByte_Some in E as (a & b & -> & Hb & <-). intros Hs.
  assert (port = drop (S (length a)) (a ++ x3a :: b)) as -> by (repeat case_match; by simplify_eq).
  replace (S (length a)) with (length (a ++ [x3a])) by (rewrite length_app; simpl; lia).
  change (a ++ x3a :: b) with (a ++ [x3a] ++ b). by rewrite (assoc_L (++)), drop_app_length.
Qed.

Lemma Split_Join_port host port host' port' :
  x3a ∉ port -> SplitHostPort (JoinHostPort host port) = inr (host', port') -> port' = port.
Proof.
  intros Hp. assert (exists a, JoinHostPort host port = a ++ x3a :: port) as [a ->].
  { unfold JoinHostPort. destruct (ContainsByte host x3a); [|by exists host].
    exists (("[" : gostr) ++ host ++ [x5d]). by rewrite <- !(assoc_L (++)). }
  unfold SplitHostPort. rewrite LastIndexByte_app by done. intros Hs.
  assert (port' = drop (S (length a)) (a ++ x3a :: port)) as -> by (repeat case_match; by simplify_eq).
  replace (S (length a)) with (length (a ++ [x3a])) by (rewrite length_app; simpl; lia).
  change (a ++ x3a :: port) with (a ++ [x3a] ++ port). by rewrite (assoc_L (++)), drop_app_length.
Qed.

(** [ip != "" && net.ParseIP(ip) == nil], the guard of every pinned address. *)
Lemma validate_ip_guard (ip : gostr) :
  bool_decide (ip <> []) && bool_decide (ParseIP ip = None) = false <->
  ip = [] \/ is_Some (ParseIP ip).
Proof.
  rewrite andb_false_iff, !bool_decide_eq_false, not_eq_None_Some.
  split; [intros [E%dec_stable|E]|intros [->|E]]; auto.
Qed.
