(* ===== verification/Steps.v ===== *)
(** * Machines of goroutines

    The executable step functions of the files about shared state have one shape: an
    action and a state give the next state, or nothing where the action is not
    possible. What holds of every such machine is here: schedules, invariants,
    schedules that must end, and quantities spread over a pool of goroutines. *)

From stdpp Require Import gmap.
From S2P Require Import Prelude.

Section Machine.
Context {A M : Type} (step : A -> M -> option M).

(** A schedule, action by action. *)
Fixpoint schedule (l : list A) (m : M) : option M :=
  match l with
  | [] => Some m
  | a :: l => m' ← step a m; schedule l m'
  end.

Definition leads_to (m m' : M) : Prop := exists l, schedule l m = Some m'.

Lemma schedule_app l1 l2 m : schedule (l1 ++ l2) m = schedule l1 m ≫= schedule l2.
Proof.
  revert m. induction l1 as [|a l1 IH]; intros m; [done|]. simpl. destruct (step a m); [apply IH|done].
Qed.

Lemma schedule_cons a l m m1 m2 :
  step a m = Some m1 -> schedule l m1 = Some m2 -> schedule (a :: l) m = Some m2.
Proof. intros Hs Hl. simpl. by rewrite Hs. Qed.

#[export] Instance leads_to_preorder : PreOrder leads_to.
Proof.
  split; [by intros m; exists []|]. intros m1 m2 m3 [l1 H1] [l2 H2]. exists (l1 ++ l2).
  by rewrite schedule_app, H1.
Qed.

Lemma leads_to_step m0 m a m' : leads_to m0 m -> step a m = Some m' -> leads_to m0 m'.
Proof. intros Hr Hs. etrans; [exact Hr|]. exists [a]. simpl. by rewrite Hs. Qed.

(** What every step keeps holds wherever a schedule leads. *)
Lemma schedule_invariant (I : M -> Prop) :
  (forall a m m', I m -> step a m = Some m' -> I m') ->
  forall l m m', schedule l m = Some m' -> I m -> I m'.
Proof.
  intros Hstep l. induction l as [|a l IH]; intros m m' Hs Hi; simpl in Hs; [by simplify_eq|].
  destruct (step a m) as [m1|] eqn:E; [|done]. eauto.
Qed.

(** What every step relates its ends by, the ends of a schedule are related by. *)
Lemma schedule_related (R : M -> M -> Prop) `{!PreOrder R} :
  (forall a m m', step a m = Some m' -> R m m') -> forall l m m', schedule l m = Some m' -> R m m'.
Proof.
  intros Hstep l m m' Hs. apply (schedule_invariant (R m)) with (2 := Hs); [|reflexivity].
  intros a m1 m2 H1 H2. etrans; [exact H1|by eapply Hstep].
Qed.

(** ** Schedules that end

    Every step of the machine's own uses up some of a measure, and no step of the
    environment adds to it unless it is a new call. *)
Section Ends.
Context (I : M -> Prop) (done_ : M -> Prop) (left_ : M -> nat) (own call : A -> bool).
Context (Hkeep : forall a m m', I m -> step a m = Some m' -> I m').
Context (Huse : forall a m m', I m -> step a m = Some m' -> call a = false ->
  if own a then (left_ m' < left_ m)%nat else (left_ m' <= left_ m)%nat).
Context (Hmove : forall m, I m -> done_ m \/ exists a, own a = true /\ call a = false /\ is_Some (step a m)).

(** Only so many of its own steps fit into a schedule without new calls. *)
Lemma schedule_bounded l m m' :
  I m -> schedule l m = Some m' -> Forall (fun a => call a = false) l ->
  (length (filter (fun a => own a = true) l) + left_ m' <= left_ m)%nat.
Proof using Hkeep Huse.
  revert m. induction l as [|a l IH]; intros m Hi Hs Hl; simpl in Hs; [simplify_eq; simpl; lia|].
  destruct (step a m) as [m1|] eqn:E; [|done]. apply Forall_cons in Hl as [Ha Hl].
  pose proof (Huse a m m1 Hi E Ha) as Hd. specialize (IH m1 (Hkeep _ _ _ Hi E) Hs Hl).
  rewrite filter_cons. destruct (own a); case_decide; try done; cbn [length]; lia.
Qed.

Lemma schedule_own_bounded l m m' :
  (forall a, own a = true -> call a = false) ->
  I m -> schedule l m = Some m' -> Forall (fun a => own a = true) l -> (length l + left_ m' <= left_ m)%nat.
Proof using Hkeep Huse.
  intros Hoc Hi Hs Hl. pose proof (schedule_bounded l m m' Hi Hs) as Hb.
  replace (filter (fun a => own a = true) l) with l in Hb.
  - apply Hb. eapply Forall_impl; [exact Hl|auto].
  - clear Hb Hs. induction Hl as [|a l Ha _ IH]; [done|]. rewrite filter_cons_True by done. by rewrite <- IH.
Qed.

(** And some schedule of its own steps leads to the end. *)
Lemma schedule_finishes m :
  I m -> exists l m', Forall (fun a => own a = true) l /\ schedule l m = Some m' /\ done_ m'.
Proof using Hkeep Huse Hmove.
  remember (left_ m) as n eqn:En. revert m En.
  induction n as [n IH] using lt_wf_ind. intros m -> Hi.
  destruct (Hmove m Hi) as [Hd|(a & Ho & Hc & m1 & Hs)]; [by exists [], m|].
  pose proof (Huse a m m1 Hi Hs Hc) as Hlt. rewrite Ho in Hlt.
  destruct (IH _ Hlt m1 eq_refl (Hkeep _ _ _ Hi Hs)) as (l & m' & Hl & Hm & Hend).
  exists (a :: l), m'. split_and!; [by constructor|by eapply schedule_cons|done].
Qed.
End Ends.
End Machine.

(** ** A pool of goroutines *)

Section Pool.
Context {P : Type}.

Implicit Types (g : gmap nat P) (p : P).

Definition places g : list P := (map_to_list g).*2.

Lemma places_elem g p : p ∈ places g <-> exists t, g !! t = Some p.
Proof.
  unfold places. rewrite list_elem_of_fmap. split.
  - intros ([t q] & -> & Ht%elem_of_map_to_list). by exists t.
  - intros [t Ht]. exists (t, p). split; [done|by apply elem_of_map_to_list].
Qed.

Lemma places_fresh g t p : g !! t = None -> places (<[t := p]> g) ≡ₚ p :: places g.
Proof. intros Ht. unfold places. by rewrite map_to_list_insert. Qed.

Lemma places_delete g t p : g !! t = Some p -> places g ≡ₚ p :: places (delete t g).
Proof. intros Ht. unfold places. by rewrite <- (map_to_list_delete g t p Ht). Qed.

Lemma places_move g t p p' :
  g !! t = Some p -> places (<[t := p']> g) ≡ₚ p' :: places (delete t g).
Proof.
  intros Ht. rewrite <- (insert_delete_eq g t p'), places_fresh by apply lookup_delete_eq. done.
Qed.

Definition holds {B} (o : option B) : list B := match o with Some b => [b] | None => [] end.

(** What the goroutines of a pool have, together. *)
Definition having {B} (f : P -> option B) g : list B := omap f (places g).

Lemma having_elem {B} (f : P -> option B) g b :
  b ∈ having f g <-> exists t p, g !! t = Some p /\ f p = Some b.
Proof.
  unfold having. rewrite list_elem_of_omap. setoid_rewrite places_elem. naive_solver.
Qed.

Lemma having_fresh {B} (f : P -> option B) g t p :
  g !! t = None -> having f (<[t := p]> g) ≡ₚ holds (f p) ++ having f g.
Proof. intros Ht. unfold having. rewrite places_fresh by done. simpl. by destruct (f p). Qed.

Lemma having_at {B} (f : P -> option B) g t p :
  g !! t = Some p -> having f g ≡ₚ holds (f p) ++ having f (delete t g).
Proof. intros Ht. unfold having. rewrite (places_delete g t p) by done. simpl. by destruct (f p). Qed.

Lemma having_move {B} (f : P -> option B) g t p p' :
  g !! t = Some p -> having f (<[t := p']> g) ≡ₚ holds (f p') ++ having f (delete t g).
Proof. intros Ht. unfold having. rewrite (places_move g t p) by done. simpl. by destruct (f p'). Qed.

(** Two goroutines that have the same, where nothing is there twice, are one. *)
Lemma having_unique {B} (f : P -> option B) g s t p q b :
  NoDup (having f g) -> g !! s = Some p -> g !! t = Some q -> f p = Some b -> f q = Some b -> s = t.
Proof.
  intros Hn Hs Ht Hp Hq. destruct (decide (s = t)) as [|Hne]; [done|exfalso].
  rewrite (having_at f g s p Hs), Hp in Hn. apply NoDup_cons in Hn as [Hn _]. apply Hn.
  apply having_elem. exists t, q. by rewrite lookup_delete_ne.
Qed.

(** ** Mutexes

    [mu] names the goroutine between Lock and Unlock, the one whose place is
    critical. *)
Definition guarded (critical : P -> bool) (mu : option nat) g : Prop :=
  forall t, mu = Some t <-> exists p, g !! t = Some p /\ critical p = true.

Lemma guarded_exclusive critical mu g s t p q :
  guarded critical mu g -> g !! s = Some p -> g !! t = Some q -> critical p = true -> critical q = true -> s = t.
Proof.
  intros Hg Hs Ht Hp Hq. assert (mu = Some s) by (apply Hg; eauto). assert (mu = Some t) by (apply Hg; eauto).
  congruence.
Qed.

Lemma guarded_empty critical : guarded critical None ∅.
Proof. intros t. split; [done|]. intros (p & Hp & _). by rewrite lookup_empty in Hp. Qed.

Lemma guarded_fresh critical mu g t p :
  guarded critical mu g -> g !! t = None -> critical p = false -> guarded critical mu (<[t := p]> g).
Proof.
  intros Hg Ht Hp s. rewrite (Hg s). destruct (decide (s = t)) as [->|?].
  - rewrite lookup_insert_eq, Ht. split; intros (q & [= <-] & Hq); congruence.
  - by rewrite lookup_insert_ne.
Qed.

(** [t] takes the mutex when it becomes critical, if it is free, and gives it back. *)
Lemma guarded_move critical mu g t p p' :
  guarded critical mu g -> g !! t = Some p -> (critical p' = true -> critical p = false -> mu = None) ->
  guarded critical (if critical p' then Some t else if critical p then None else mu) (<[t := p']> g).
Proof.
  intros Hg Ht Hfree s. destruct (decide (s = t)) as [->|Hne].
  - rewrite lookup_insert_eq. destruct (critical p') eqn:E'; [by split; [exists p'|]|].
    split; [|intros (q & [= <-] & ?); congruence].
    destruct (critical p) eqn:E; [done|]. rewrite (Hg t), Ht. intros (q & [= <-] & ?). congruence.
  - rewrite lookup_insert_ne by done. rewrite <- (Hg s).
    destruct (critical p) eqn:E.
    + assert (mu = Some t) as -> by (apply Hg; eauto). destruct (critical p'); split; congruence.
    + destruct (critical p') eqn:E'; [|done]. rewrite Hfree by done. split; congruence.
Qed.

(** The steps they have left. *)
Definition steps_left (f : P -> nat) g : nat := sum_list_with f (places g).

Lemma sum_list_with_perm (f : P -> nat) l k : l ≡ₚ k -> sum_list_with f l = sum_list_with f k.
Proof. induction 1; simpl; lia. Qed.

Lemma steps_left_move (f : P -> nat) g t p p' :
  g !! t = Some p -> (steps_left f (<[t := p']> g) + f p = steps_left f g + f p')%nat.
Proof.
  intros Ht. unfold steps_left.
  rewrite (sum_list_with_perm f _ _ (places_move g t p p' Ht)), (sum_list_with_perm f _ _ (places_delete g t p Ht)).
  simpl. lia.
Qed.

(** Whether all have ended, or which has not. *)
Lemma all_or_one (Q : P -> Prop) `{!forall p, Decision (Q p)} g :
  (forall t p, g !! t = Some p -> Q p) \/ exists t p, g !! t = Some p /\ ~ Q p.
Proof.
  destruct (decide (map_Forall (fun _ p => Q p) g)) as [Hd|Hd]; [by left|right].
  by apply map_not_Forall in Hd; [|apply _].
Qed.
End Pool.
