(* ===== verification/IO.v ===== *)
(** * Computations with effects

    A computation reads an environment [W], which answers every request as it
    likes from the history of what happened before, and returns the events [E] it
    added to that history with its result. The files instantiate it with their
    events. *)

From S2P Require Import Prelude.

Definition IO (E W A : Type) : Type := W -> list E -> list E * A.

#[export] Instance IO_ret {E W} : MRet (IO E W) := fun A a w h => ([], a).
#[export] Instance IO_bind {E W} : MBind (IO E W) := fun A B f m w h =>
  let '(t, a) := m w h in
  let '(t', b) := f a w (h ++ t) in
  (t ++ t', b).

Section IO.
Context {E W : Type}.

Definition perform {A} (answer : W -> list E -> A) (ev : A -> E) : IO E W A :=
  fun w h => let a := answer w h in ([ev a], a).

(** [if err != nil { return ..., err }] in the middle of a computation. *)
Definition bind_res {A B} (m : IO E W (res A)) (f : A -> IO E W (res B)) : IO E W (res B) :=
  m ≫= fun r => match r with Ok a => f a | Err e => mret (Err e) end.
Definition bind_err {B} (m : IO E W (option error)) (f : IO E W (res B)) : IO E W (res B) :=
  m ≫= fun r => match r with None => f | Some e => mret (Err e) end.

(** ** A weakest-precondition calculus *)

Definition wp {A} (m : IO E W A) (w : W) (h : list E) (Q : list E -> A -> Prop) : Prop :=
  let '(t, a) := m w h in Q t a.

Lemma wp_ret {A} (a : A) w h Q : Q [] a -> wp (mret a) w h Q.
Proof. done. Qed.

Lemma wp_bind {A B} (m : IO E W A) (f : A -> IO E W B) w h Q :
  wp m w h (fun t a => wp (f a) w (h ++ t) (fun t' b => Q (t ++ t') b)) -> wp (m ≫= f) w h Q.
Proof.
  unfold wp, mbind, IO_bind. destruct (m w h) as [t a]. by destruct (f a w (h ++ t)).
Qed.

Lemma wp_mono {A} (m : IO E W A) w h (Q Q' : list E -> A -> Prop) :
  wp m w h Q -> (forall t a, Q t a -> Q' t a) -> wp m w h Q'.
Proof. unfold wp. destruct (m w h). auto. Qed.

Lemma wp_perform {A} answer (ev : A -> E) w h Q :
  Q [ev (answer w h)] (answer w h) -> wp (perform answer ev) w h Q.
Proof. done. Qed.

Lemma wp_bind_res {A B} (m : IO E W (res A)) (f : A -> IO E W (res B)) w h Q :
  wp m w h (fun t r => match r with
                       | Ok a => wp (f a) w (h ++ t) (fun t' b => Q (t ++ t') b)
                       | Err e => Q t (Err e)
                       end) -> wp (bind_res m f) w h Q.
Proof.
  intros H. apply wp_bind. eapply wp_mono; [exact H|].
  intros t [a|e]; [done|]. intros Hq. apply wp_ret. by rewrite app_nil_r.
Qed.

Lemma wp_run {A} (m : IO E W A) w h Q : wp m w h Q -> Q (m w h).1 (m w h).2.
Proof. unfold wp. by destruct (m w h). Qed.

Lemma wp_both {A} (m : IO E W A) w h (P Q : list E -> A -> Prop) :
  wp m w h P -> wp m w h Q -> wp m w h (fun t a => P t a /\ Q t a).
Proof. unfold wp. by destruct (m w h). Qed.

Lemma wp_True {A} (m : IO E W A) w h (Q : list E -> A -> Prop) : (forall t a, Q t a) -> wp m w h Q.
Proof. unfold wp. destruct (m w h). auto. Qed.

(** Splitting a history at the events a bind performed. *)
Lemma bind_run {A B} (m : IO E W A) (f : A -> IO E W B) w h :
  (m ≫= f) w h =
    ((m w h).1 ++ (f (m w h).2 w (h ++ (m w h).1)).1, (f (m w h).2 w (h ++ (m w h).1)).2).
Proof. unfold mbind, IO_bind. destruct (m w h) as [t a]. simpl. by destruct (f a w (h ++ t)). Qed.

Lemma wp_bind_perform {A B} answer (ev : A -> E) (f : A -> IO E W B) w h Q :
  (forall a, a = answer w h -> wp (f a) w (h ++ [ev a]) (fun t b => Q (ev a :: t) b)) ->
  wp (perform answer ev ≫= f) w h Q.
Proof. intros H. apply wp_bind, wp_perform. by apply H. Qed.

(** ** Invariants of traces

    Every event of [m] satisfies [P], and its result satisfies [Q]. *)

Definition does {A} (P : E -> Prop) (Q : A -> Prop) (m : IO E W A) : Prop :=
  forall w h, wp m w h (fun t a => Forall P t /\ Q a).

Definition anything {A} (a : A) : Prop := True.

Lemma does_ret {A} (P : E -> Prop) (Q : A -> Prop) a : Q a -> does P Q (mret a).
Proof. intros Ha w h. apply wp_ret. split; [constructor|done]. Qed.

Lemma does_bind {A B} (P : E -> Prop) (Q : A -> Prop) (R : B -> Prop) m f :
  does P Q m -> (forall a, Q a -> does P R (f a)) -> does P R (m ≫= f).
Proof.
  intros Hm Hf w h. apply wp_bind. eapply wp_mono; [apply Hm|]. intros t a [Ht Ha].
  eapply wp_mono; [by apply Hf|]. intros t' b [Ht' Hb]. split; [by apply Forall_app|done].
Qed.

Lemma does_then {A B} (P : E -> Prop) (R : B -> Prop) (m : IO E W A) f :
  does P anything m -> (forall a, does P R (f a)) -> does P R (m ≫= f).
Proof. intros Hm Hf. eapply does_bind; [exact Hm|]. auto. Qed.

Lemma does_perform {A} (P : E -> Prop) (answer : W -> list E -> A) ev :
  (forall a, P (ev a)) -> does P anything (perform answer ev).
Proof. intros Hev w h. apply wp_perform. split; [|done]. repeat constructor. apply Hev. Qed.

Lemma does_trace {A} (P : E -> Prop) (m : IO E W A) w h :
  does P anything m -> wp m w h (fun t _ => Forall P t).
Proof. intros Hm. eapply wp_mono; [apply Hm|]. by intros t a [? _]. Qed.

Lemma does_mono {A} (P P' : E -> Prop) (Q Q' : A -> Prop) m :
  does P Q m -> (forall e, P e -> P' e) -> (forall a, Q a -> Q' a) -> does P' Q' m.
Proof.
  intros Hm HP HQ w h. eapply wp_mono; [apply Hm|]. intros t a [Ht Ha].
  split; [|by apply HQ]. eapply Forall_impl; [exact Ht|done].
Qed.

Lemma does_any {A} (m : IO E W A) : does (fun _ => True) anything m.
Proof. intros w h. apply wp_True. intros t a. split; [by apply Forall_true|done]. Qed.

Lemma does_result {A} (P : E -> Prop) (Q : A -> Prop) (m : IO E W A) :
  does P anything m -> does (fun _ => True) Q m -> does P Q m.
Proof.
  intros HP HQ w h. specialize (HP w h). specialize (HQ w h). unfold wp in *.
  destruct (m w h). naive_solver.
Qed.

(** The postcondition of a [res]-valued computation on success. *)
Definition on_Ok {A} (Q : A -> Prop) (r : res A) : Prop := match r with Ok a => Q a | Err _ => True end.

Lemma does_bind_res {A B} (P : E -> Prop) (Q : A -> Prop) (R : res B -> Prop) m f :
  does P (on_Ok Q) m -> (forall a, Q a -> does P R (f a)) -> (forall e, R (Err e)) -> does P R (bind_res m f).
Proof.
  intros Hm Hf He. eapply does_bind; [exact Hm|]. intros [a|e] Ha; [by apply Hf|by apply does_ret].
Qed.

Lemma does_then_res {A B} (P : E -> Prop) (R : res B -> Prop) (m : IO E W (res A)) f :
  does P anything m -> (forall a, does P R (f a)) -> (forall e, R (Err e)) -> does P R (bind_res m f).
Proof. intros Hm Hf He. eapply does_then; [exact Hm|]. intros [a|e]; [apply Hf|by apply does_ret]. Qed.

(** ** Invariants of the traces of some environments *)

Definition does_when {A} (ok : W -> Prop) (P : E -> Prop) (Q : A -> Prop) (m : IO E W A) : Prop :=
  forall w h, ok w -> wp m w h (fun t a => Forall P t /\ Q a).

Lemma does_when_does {A} ok (P : E -> Prop) (Q : A -> Prop) m : does P Q m -> does_when ok P Q m.
Proof. intros Hm w h _. apply Hm. Qed.

Lemma does_when_bind {A B} ok (P : E -> Prop) (Q : A -> Prop) (R : B -> Prop) m f :
  does_when ok P Q m -> (forall a, Q a -> does_when ok P R (f a)) -> does_when ok P R (m ≫= f).
Proof.
  intros Hm Hf w h Hw. apply wp_bind. eapply wp_mono; [by apply Hm|]. intros t a [Ht Ha].
  eapply wp_mono; [by apply Hf|]. intros t' b [Ht' Hb]. split; [by apply Forall_app|done].
Qed.

(** After, and before, a computation of which the environment does not matter. *)
Lemma does_when_then {A B} ok (P : E -> Prop) (R : B -> Prop) (m : IO E W A) f :
  does P anything m -> (forall a, does_when ok P R (f a)) -> does_when ok P R (m ≫= f).
Proof. intros Hm Hf. eapply does_when_bind; [by apply does_when_does|auto]. Qed.

Lemma does_when_last {A B} ok (P : E -> Prop) (R : B -> Prop) (m : IO E W A) f :
  does_when ok P anything m -> (forall a, does P R (f a)) -> does_when ok P R (m ≫= f).
Proof. intros Hm Hf. eapply does_when_bind; [exact Hm|]. intros a _. by apply does_when_does. Qed.

Lemma does_when_ret {A} ok (P : E -> Prop) (Q : A -> Prop) a : Q a -> does_when ok P Q (mret a).
Proof. intros Ha. by apply does_when_does, does_ret. Qed.

(** ** Traces made of blocks

    The trace of [m], in an environment that is [ok], is a sequence of parts each of
    which satisfies [B], and its result satisfies [Q]. *)

Inductive made_of (B : list E -> Prop) : list E -> Prop :=
| made_nil : made_of B []
| made_cons b t : B b -> made_of B t -> made_of B (b ++ t).

Lemma made_of_one (B : list E -> Prop) b : B b -> made_of B b.
Proof. intros Hb. rewrite <- (app_nil_r b). constructor; [done|constructor]. Qed.

Lemma made_of_app (B : list E -> Prop) t t' : made_of B t -> made_of B t' -> made_of B (t ++ t').
Proof. induction 1 as [|b t Hb _ IH]; [done|]. intros Ht'. rewrite <- app_assoc. constructor; auto. Qed.

Lemma made_of_each (B : list E -> Prop) t : Forall (fun e => B [e]) t -> made_of B t.
Proof. induction 1 as [|e t He _ IH]; [constructor|]. exact (made_cons B [e] t He IH). Qed.

Lemma made_of_mono (B B' : list E -> Prop) t : made_of B t -> (forall b, B b -> B' b) -> made_of B' t.
Proof. intros Ht HB. induction Ht; constructor; auto. Qed.

(** What every block says of its last event and of what comes before it. *)
Lemma made_of_preceded (B : list E -> Prop) (L : list E -> E -> Prop) t t1 e t2 :
  made_of B t -> t = t1 ++ e :: t2 ->
  (forall b b1 b2 t0, B b -> b = b1 ++ e :: b2 -> L (t0 ++ b1) e) -> L t1 e.
Proof.
  intros Ht Et HL.
  assert (forall t0, t = t1 ++ e :: t2 -> L (t0 ++ t1) e) as Hg; [|exact (Hg [] Et)].
  clear Et. revert t1. induction Ht as [|b t Hb _ IH]; intros t1 t0 E0; [by destruct t1|].
  apply app_eq_inv in E0 as [(k & -> & Ek)|(k & -> & Ek)].
  - destruct k as [|x k]; simpl in Ek.
    + rewrite app_nil_r in *. rewrite <- (app_nil_r (t0 ++ t1)). by apply IH.
    + injection Ek as <- ->. by eapply HL.
  - rewrite app_assoc. by apply IH.
Qed.

Definition runs {A} (ok : W -> Prop) (B : list E -> Prop) (Q : A -> Prop) (m : IO E W A) : Prop :=
  forall w h, ok w -> wp m w h (fun t a => made_of B t /\ Q a).

Lemma runs_ret {A} ok B (Q : A -> Prop) a : Q a -> runs ok B Q (mret a).
Proof. intros Ha w h _. apply wp_ret. split; [constructor|done]. Qed.

Lemma runs_does {A} ok B (Q : A -> Prop) (m : IO E W A) : does (fun e => B [e]) Q m -> runs ok B Q m.
Proof. intros Hm w h _. eapply wp_mono; [apply Hm|]. intros t a [Ht Ha]. split; [by apply made_of_each|done]. Qed.

Lemma runs_bind {A C} ok B (Q : A -> Prop) (R : C -> Prop) m f :
  runs ok B Q m -> (forall a, Q a -> runs ok B R (f a)) -> runs ok B R (m ≫= f).
Proof.
  intros Hm Hf w h Hw. apply wp_bind. eapply wp_mono; [by apply Hm|]. intros t a [Ht Ha].
  eapply wp_mono; [by apply Hf|]. intros t' b [Ht' Hb]. split; [by apply made_of_app|done].
Qed.

Lemma runs_then {A C} ok B (R : C -> Prop) (m : IO E W A) f :
  runs ok B anything m -> (forall a, runs ok B R (f a)) -> runs ok B R (m ≫= f).
Proof. intros Hm Hf. eapply runs_bind; [exact Hm|]. auto. Qed.

Lemma runs_result {A} ok B (Q : A -> Prop) (m : IO E W A) :
  runs ok B anything m -> does (fun _ => True) Q m -> runs ok B Q m.
Proof.
  intros HB HQ w h Hw. specialize (HB w h Hw). specialize (HQ w h). unfold wp in *. destruct (m w h). naive_solver.
Qed.

Lemma runs_mono {A} (ok : W -> Prop) B B' (Q Q' : A -> Prop) m :
  runs ok B Q m -> (forall b, B b -> B' b) -> (forall a, Q a -> Q' a) -> runs ok B' Q' m.
Proof.
  intros Hm HB HQ w h Hw. eapply wp_mono; [by apply Hm|]. intros t a [Ht Ha].
  split; [by eapply made_of_mono|by apply HQ].
Qed.

Lemma runs_trace {A} (ok : W -> Prop) B (m : IO E W A) w h :
  runs ok B anything m -> ok w -> wp m w h (fun t _ => made_of B t).
Proof. intros Hm Hw. eapply wp_mono; [by apply Hm|]. by intros t a [? _]. Qed.

(** Blocks of one event. *)
Definition single (P : E -> Prop) (b : list E) : Prop := exists e, b = [e] /\ P e.

Lemma single_one (P : E -> Prop) e : P e -> single P [e].
Proof. intros He. by exists e. Qed.

Lemma made_of_single (P : E -> Prop) t : made_of (single P) t -> Forall P t.
Proof. induction 1 as [|b t (e & -> & He) _ IH]; [constructor|]. by constructor. Qed.

Lemma single_inv (P : E -> Prop) e : single P [e] -> P e.
Proof. by intros (x & [= ->] & Hx). Qed.

Lemma runs_single {A} (P : E -> Prop) (Q : A -> Prop) (m : IO E W A) :
  runs (fun _ => True) (single P) Q m -> does P Q m.
Proof.
  intros Hm w h. eapply wp_mono; [by apply Hm|]. intros t a [Ht Ha]. split; [by apply made_of_single|done].
Qed.

(** ** Counting events

    At most [n] events of [m] satisfy [p]. *)

Definition uses {A} (p : E -> bool) (n : nat) (m : IO E W A) : Prop :=
  forall w h, wp m w h (fun t _ => (length (List.filter p t) <= n)%nat).

Lemma uses_ret {A} p n (a : A) : uses p n (mret a).
Proof. intros w h. apply wp_ret. simpl. lia. Qed.

Lemma uses_bind {A B} p n k (m : IO E W A) (f : A -> IO E W B) :
  uses p n m -> (forall a, uses p k (f a)) -> uses p (n + k) (m ≫= f).
Proof.
  intros Hm Hf w h. apply wp_bind. eapply wp_mono; [apply Hm|]. intros t a Ht.
  eapply wp_mono; [apply Hf|]. intros t' b Ht'. cbv beta in *. rewrite List.filter_app, length_app. lia.
Qed.

Lemma uses_perform {A} p (answer : W -> list E -> A) ev : uses p 1 (perform answer ev).
Proof. intros w h. apply wp_perform. simpl. case_match; simpl; lia. Qed.

Lemma uses_none {A} p n (m : IO E W A) : does (fun e => p e = false) anything m -> uses p n m.
Proof.
  intros Hm w h. eapply wp_mono; [apply Hm|]. intros t a [Ht _].
  induction Ht as [|e t He _ IH]; simpl; [lia|]. rewrite He. exact IH.
Qed.

(** After a computation without such an event, and before one. *)
Lemma uses_skip {A B} p n (m : IO E W A) (f : A -> IO E W B) :
  does (fun e => p e = false) anything m -> (forall a, uses p n (f a)) -> uses p n (m ≫= f).
Proof. intros Hm. apply (uses_bind p 0 n). by apply uses_none. Qed.

Lemma uses_last {A B} p n (m : IO E W A) (f : A -> IO E W B) :
  uses p n m -> (forall a, does (fun e => p e = false) anything (f a)) -> uses p n (m ≫= f).
Proof. intros Hm Hf. rewrite <- (Nat.add_0_r n). apply uses_bind; [exact Hm|]. intros a. by apply uses_none. Qed.

(** ** Evidence in traces

    A result that satisfies [post] is the consequence of an event that satisfies [C],
    or of [pre], which held before. *)

Definition caused {A} (C : E -> Prop) (pre : Prop) (m : IO E W A) (post : A -> Prop) : Prop :=
  forall w h, wp m w h (fun t a => post a -> pre \/ Exists C t).

Lemma caused_ret {A} (C : E -> Prop) (pre : Prop) (a : A) (post : A -> Prop) :
  (post a -> pre) -> caused C pre (mret a) post.
Proof. intros Hp w h. apply wp_ret. auto. Qed.

Lemma caused_bind {A B} (C : E -> Prop) pre mid (post : B -> Prop) (m : IO E W A) f :
  caused C pre m mid -> (forall a, caused C (mid a) (f a) post) -> caused C pre (m ≫= f) post.
Proof.
  intros Hm Hf w h. apply wp_bind. eapply wp_mono; [apply Hm|]. intros t a Ht.
  eapply wp_mono; [apply Hf|]. intros t' b Ht' Hb. rewrite Exists_app. naive_solver.
Qed.

(** The evidence comes from what follows. *)
Lemma caused_skip {A B} (C : E -> Prop) (pre : Prop) (post : B -> Prop) (m : IO E W A) f :
  (forall a, caused C pre (f a) post) -> caused C pre (m ≫= f) post.
Proof. apply (caused_bind C pre (fun _ => pre)). intros w h. apply wp_True. auto. Qed.

Lemma caused_perform {A} (C : E -> Prop) pre (answer : W -> list E -> A) ev (post : A -> Prop) :
  (forall a, post a -> pre \/ C (ev a)) -> caused C pre (perform answer ev) post.
Proof. intros Hp w h. apply wp_perform. intros Ha. destruct (Hp _ Ha); [by left|right; by constructor]. Qed.

Lemma caused_mono {A} (C : E -> Prop) (pre pre' : Prop) (post post' : A -> Prop) m :
  caused C pre m post -> (pre -> pre') -> (forall a, post' a -> post a) -> caused C pre' m post'.
Proof. intros Hm Hp Ha w h. eapply wp_mono; [apply Hm|]. naive_solver. Qed.

Lemma caused_bind_res {A B} (C : E -> Prop) pre mid (post : res B -> Prop) (m : IO E W (res A)) f :
  caused C pre m (fun r => match r with Ok a => mid a | Err e => post (Err e) end) ->
  (forall a, caused C (mid a) (f a) post) -> caused C pre (bind_res m f) post.
Proof.
  intros Hm Hf. eapply caused_bind; [exact Hm|]. intros [a|e]; [apply Hf|by apply caused_ret].
Qed.

Lemma caused_skip_res {A B} (C : E -> Prop) (pre : Prop) (post : res B -> Prop) (m : IO E W (res A)) f :
  (forall a, caused C pre (f a) post) -> (forall e, post (Err e) -> pre) -> caused C pre (bind_res m f) post.
Proof. intros Hf He. apply caused_skip. intros [a|e]; [apply Hf|apply caused_ret, He]. Qed.

Lemma caused_bind_with {A B} (C : E -> Prop) (Q : A -> Prop) pre mid (post : B -> Prop) (m : IO E W A) f :
  does (fun _ => True) Q m -> caused C pre m mid -> (forall a, Q a -> caused C (mid a) (f a) post) ->
  caused C pre (m ≫= f) post.
Proof.
  intros Hq Hm Hf w h. apply wp_bind. specialize (Hq w h). specialize (Hm w h). unfold wp in *.
  destruct (m w h) as [t a]. destruct Hq as [_ Hq]. specialize (Hf a Hq w (h ++ t)). unfold wp in Hf.
  destruct (f a w (h ++ t)). intros Hb. rewrite Exists_app. naive_solver.
Qed.

(** From nothing: the evidence is in the trace. *)
Lemma caused_trace {A} (C : E -> Prop) (m : IO E W A) post w h :
  caused C False m post -> wp m w h (fun t a => post a -> Exists C t).
Proof. intros Hm. eapply wp_mono; [apply Hm|]. naive_solver. Qed.

End IO.

Notation "x ←? m ; k" := (bind_res m (fun x => k))
  (at level 20, m at level 100, k at level 200) : stdpp_scope.

(** Take one step of a computation. *)
Ltac wp_step :=
  lazymatch goal with
  | |- wp (mret _) _ _ _ => apply wp_ret
  | |- wp (mbind _ (perform _ _)) _ _ _ => apply wp_bind_perform; let a := fresh "a" in let Ea := fresh "Ea" in intros a Ea
  | |- wp (bind_res _ _) _ _ _ => apply wp_bind_res
  | |- wp (mbind _ _) _ _ _ => apply wp_bind
  | |- wp (perform _ _) _ _ _ => apply wp_perform
  end.
