(* ===== verification/GoHTTP.v ===== *)
(** * Packages [net/http], [net/url] and [io], as the source uses them

    Headers with their canonical keys, the parts of a URL that are read, response
    bodies as finite streams. [url.Parse], the JSON and gzip codecs and the checks of
    [http.NewRequest] are parameters. *)

From stdpp Require Import gmap.
From S2P Require Import Prelude GoString GoNet.
Open Scope Z_scope.

(** ** Headers *)

(** A byte of a token (RFC 7230), which a canonical key consists of. *)
Definition validHeaderFieldByte (b : byte) : bool :=
  let c := bZ b in
  ((0x30 <=? c) && (c <=? 0x39)) || ((0x41 <=? c) && (c <=? 0x5A)) || ((0x61 <=? c) && (c <=? 0x7A))
  || bool_decide (b ∈ ("!#$%&'*+-.^_`|~" : gostr)).

Definition upper_byte (b : byte) : byte :=
  if (0x61 <=? bZ b) && (bZ b <=? 0x7A) then Zb (bZ b - 32) else b.

(** Upper case at the start and after a hyphen, lower case elsewhere. *)
Fixpoint canonical_from (upper : bool) (s : gostr) : gostr :=
  match s with
  | [] => []
  | b :: s =>
    let b := if upper then upper_byte b else lower_byte b in
    b :: canonical_from (bool_decide (b = "-"%byte)) s
  end.

(** [textproto.CanonicalMIMEHeaderKey]. *)
Definition CanonicalHeaderKey (s : gostr) : gostr :=
  if forallb validHeaderFieldByte s then canonical_from true s else s.

Abbreviation Header := (gmap gostr (list gostr)).

Definition header_Set (h : Header) (k v : gostr) : Header := <[CanonicalHeaderKey k := [v]]> h.
Definition header_Get (h : Header) (k : gostr) : gostr :=
  match h !! CanonicalHeaderKey k with Some (v :: _) => v | _ => [] end.

(** [for k, v := range m { h.Set(k, v) }] in the order [kvs]. *)
Definition header_SetAll (h : Header) (kvs : list (gostr * gostr)) : Header :=
  foldl (fun h '(k, v) => header_Set h k v) h kvs.

(** ** URLs *)

(** The fields of [url.URL] that are read; [Userinfo] is a user name and a password,
    which is empty when there is none. *)
Record URL := {
  u_Scheme : gostr;
  u_User : option (gostr * gostr);
  u_Host : gostr
}.

Class NetURL := {
  url_Parse : gostr -> res URL;
  (** The error of [http.NewRequestWithContext(ctx, method, url, body)]. *)
  NewRequest_error : gostr -> gostr -> option error;
  (** [json.Marshal] of a header. *)
  json_Header : Header -> res gostr;
  (** [io.ReadAll(gzip.NewReader(r))] on what [r] delivers. *)
  gunzip : list byte * option error -> res (list byte)
}.

(** A colon and digits, or nothing. *)
Definition validOptionalPort (port : gostr) : bool :=
  match port with
  | [] => true
  | c :: ds => bool_decide (c = ":"%byte) && forallb (fun b => (0x30 <=? bZ b) && (bZ b <=? 0x39)) ds
  end.

(** [url.splitHostPort]. *)
Definition url_splitHostPort (hostPort : gostr) : gostr * gostr :=
  let '(host, port) :=
    match LastIndexByte hostPort ":"%byte with
    | Some i => if validOptionalPort (drop i hostPort) then (take i hostPort, drop (S i) hostPort)
                else (hostPort, [])
    | None => (hostPort, [])
    end in
  let host := if bool_decide (head host = Some "["%byte) && bool_decide (last host = Some "]"%byte)
              then take (length host - 2) (drop 1 host) else host in
  (host, port).

Definition url_Hostname (u : URL) : gostr := (url_splitHostPort (u_Host u)).1.
Definition url_Port (u : URL) : gostr := (url_splitHostPort (u_Host u)).2.

(** ** Responses *)

(** What a reader delivers: bytes, then the end or an error. *)
Definition stream : Type := list byte * option error.

(** [io.LimitReader]. *)
Definition LimitReader (s : stream) (n : Z) : stream :=
  if Z.of_nat (length s.1) <? n then s else (take (Z.to_nat n) s.1, None).
(** [io.ReadAll]. *)
Definition ReadAll (s : stream) : res (list byte) :=
  match s with (_, Some e) => Err e | (b, None) => Ok b end.

(** [http.Response]; [TLS] is [ECHAccepted] of its connection state, if any. *)
Record Response := {
  StatusCode : Z;
  resp_Proto : gostr;
  resp_Header : Header;
  resp_TLS : option bool;
  resp_Body : stream
}.

Record Request := {
  req_Method : gostr;
  req_URL : gostr;
  req_Header : Header;
  req_Body : gostr
}.

(** ** Lemmas *)

Lemma canonical_from_length u s : length (canonical_from u s) = length s.
Proof. revert u. induction s; intros; simpl; auto. Qed.

Lemma header_Get_Set h k v k' :
  header_Get (header_Set h k v) k' =
    if decide (CanonicalHeaderKey k = CanonicalHeaderKey k') then v else header_Get h k'.
Proof.
  unfold header_Get, header_Set. case_decide as E; [by rewrite E, lookup_insert_eq|by rewrite lookup_insert_ne].
Qed.

Lemma header_SetAll_app h l l' : header_SetAll h (l ++ l') = header_SetAll (header_SetAll h l) l'.
Proof. apply foldl_app. Qed.

(** A key nobody set keeps its values, and the last to set it wins. *)
Lemma header_SetAll_other h l k :
  Forall (fun kv => CanonicalHeaderKey kv.1 <> CanonicalHeaderKey k) l ->
  header_SetAll h l !! CanonicalHeaderKey k = h !! CanonicalHeaderKey k.
Proof.
  intros Hl. revert h. induction Hl as [|[k' v] l Hk _ IH]; intros h; [done|]. simpl in *.
  rewrite IH. unfold header_Set. by rewrite lookup_insert_ne.
Qed.

Lemma header_SetAll_last h l k :
  (exists l1 k' v l2, l = l1 ++ (k', v) :: l2 /\ CanonicalHeaderKey k' = CanonicalHeaderKey k /\
     Forall (fun kv => CanonicalHeaderKey kv.1 <> CanonicalHeaderKey k) l2 /\
     header_SetAll h l !! CanonicalHeaderKey k = Some [v]) \/
  Forall (fun kv => CanonicalHeaderKey kv.1 <> CanonicalHeaderKey k) l.
Proof.
  induction l as [|[k' v] l IH] using rev_ind; [by right|]. rewrite header_SetAll_app. simpl.
  destruct (decide (CanonicalHeaderKey k' = CanonicalHeaderKey k)) as [E|E].
  - left. exists l, k', v, []. split_and!; [done|done|done|]. unfold header_Set. by rewrite E, lookup_insert_eq.
  - destruct IH as [(l1 & k'' & v' & l2 & -> & Ek & Hl2 & Hv)|Hall].
    + left. exists l1, k'', v', (l2 ++ [(k', v)]). rewrite <- app_assoc. split_and!; [done|done| |].
      * apply Forall_app. split; [done|]. by constructor.
      * unfold header_Set. by rewrite lookup_insert_ne.
    + right. apply Forall_app. split; [done|]. by constructor.
Qed.

(** When no two keys have the same canonical form, the order does not matter. *)
Lemma header_SetAll_perm h l l' :
  NoDup (map (fun kv => CanonicalHeaderKey kv.1) l) -> l ≡ₚ l' -> header_SetAll h l = header_SetAll h l'.
Proof.
  intros Hnd Hp. revert h Hnd. induction Hp as [|[k v] l l' Hp IH|[k v] [k' v'] l|l l' l'' Hp IH Hp' IH'];
    intros h Hnd; simpl in *; [done|..].
  - apply IH. by apply NoDup_cons in Hnd as [_ ?].
  - f_equal. unfold header_Set. apply insert_insert_ne.
    apply NoDup_cons in Hnd as [Hk _]. intros E. apply Hk. rewrite E. constructor.
  - rewrite IH by done. apply IH'. by rewrite <- Hp.
Qed.

Lemma LimitReader_length s n : 0 <= n -> Z.of_nat (length (LimitReader s n).1) <= n.
Proof. intros Hn. unfold LimitReader. case_match eqn:E; bools; [lia|]. simpl. rewrite length_take. lia. Qed.
