(* ===== verification/World.v ===== *)
(** * The environment

    Randomness, the clock, the caller's context, UDP sockets, the system resolver
    and raw file descriptors. A socket is named by the position in the history at which it was
    opened, so no two sockets of a run share a name. *)

From S2P Require Import Prelude.
From S2P Require Export IO.
Open Scope Z_scope.

(** [net.UDPAddr]. *)
Record udp_addr := { ua_IP : list byte; ua_Port : Z }.

Definition handle := nat.

(** [v2net.Network]. *)
Inductive network := TCP | UDP | OtherNetwork (n : Z).
#[export] Instance network_eq_dec : EqDecision network.
Proof. solve_decision. Defined.

Inductive event : Type :=
| ENow (t : Z)
| ERand (n : nat) (r : res (list byte))
| ERandInt (bound : Z) (r : option Z)
| EResolveUDP (target : gostr) (r : res udp_addr)
| EListenUDP (r : option error)
| EWriteUDP (c : handle) (p : list byte) (dst : udp_addr) (r : option error)
| ESetReadDeadline (c : handle) (t : Z) (r : option error)
| EReadUDP (c : handle) (r : res (list byte * udp_addr))
| ECloseUDP (c : handle)
| EPause (ms : Z) (r : option error)
| ECtxErr (r : option error)
| ELookupPort (port : gostr) (r : res Z)
| ELookupIP (host : gostr) (r : res (list (list byte)))
| ERetryWait (closed : bool)
| EResolveWait
| ESocket (nw : network) (r : res Z)
| EProtect (fd : Z) (r : bool)
| EBind (fd : Z) (r : option error)
| EConnect (fd : Z) (ip : list byte) (port : Z) (r : option error)
| ENewFile (fd : Z) (r : bool)
| EFileConn (fd : Z) (r : res Z)
| EFilePacketConn (fd : Z) (r : res Z)
| EFileClose (fd : Z)
| EUnixClose (fd : Z).

Record World := {
  (** [time.Now], in nanoseconds. *)
  w_now : list event -> Z;
  (** [rand.Read] and [io.ReadFull(rand.Reader, _)] of [n] bytes. *)
  w_rand : list event -> nat -> res (list byte);
  (** [rand.Int(rand.Reader, bound)]. *)
  w_randint : list event -> Z -> option Z;
  w_resolve_udp : list event -> gostr -> res udp_addr;
  w_listen_udp : list event -> option error;
  w_write_udp : list event -> handle -> list byte -> udp_addr -> option error;
  w_set_deadline : list event -> handle -> Z -> option error;
  w_read_udp : list event -> handle -> res (list byte * udp_addr);
  (** The [select] between [ctx.Done()] and a timer: [None] when the timer
      fires, [ctx.Err()] otherwise. *)
  w_pause : list event -> Z -> option error;
  w_ctx_err : list event -> option error;
  (** [net.Resolver.LookupPort] and [LookupIPAddr]. *)
  w_lookup_port : list event -> gostr -> res Z;
  w_lookup_ip : list event -> gostr -> res (list (list byte));
  (** The [select] between a close channel and a timer: whether it was closed. *)
  w_retry_wait : list event -> bool;
  (** [unix.Socket], [Protect], [unix.Bind], [unix.Connect], [os.NewFile] (whether
      it is not nil), [net.FileConn] and [net.FilePacketConn], which duplicate the
      descriptor. *)
  w_socket : list event -> network -> res Z;
  w_protect : list event -> Z -> bool;
  w_bind : list event -> Z -> option error;
  w_connect : list event -> Z -> list byte -> Z -> option error;
  w_new_file : list event -> Z -> bool;
  w_file_conn : list event -> Z -> res Z;
  w_file_packet_conn : list event -> Z -> res Z
}.

(** What the documentation of [crypto/rand] promises. *)
Record world_ok (w : World) : Prop := {
  rand_length : forall h n bs, w_rand w h n = Ok bs -> length bs = n;
  randint_range : forall h b n, w_randint w h b = Some n -> 0 <= n < b
}.

Notation M := (IO event World).

Definition now : M Z := perform w_now ENow.
Definition rand_read (n : nat) : M (res (list byte)) :=
  perform (fun w h => w_rand w h n) (ERand n).
Definition rand_int (b : Z) : M (option Z) := perform (fun w h => w_randint w h b) (ERandInt b).
Definition resolve_udp (s : gostr) : M (res udp_addr) :=
  perform (fun w h => w_resolve_udp w h s) (EResolveUDP s).
Definition write_udp (c : handle) (p : list byte) (dst : udp_addr) : M (option error) :=
  perform (fun w h => w_write_udp w h c p dst) (EWriteUDP c p dst).
Definition set_read_deadline (c : handle) (t : Z) : M (option error) :=
  perform (fun w h => w_set_deadline w h c t) (ESetReadDeadline c t).
Definition read_udp (c : handle) : M (res (list byte * udp_addr)) :=
  perform (fun w h => w_read_udp w h c) (EReadUDP c).
Definition close_udp (c : handle) : M unit := perform (fun _ _ => tt) (fun _ => ECloseUDP c).
Definition pause (ms : Z) : M (option error) := perform (fun w h => w_pause w h ms) (EPause ms).
Definition ctx_err : M (option error) := perform w_ctx_err ECtxErr.
Definition lookup_port (s : gostr) : M (res Z) :=
  perform (fun w h => w_lookup_port w h s) (ELookupPort s).
Definition lookup_ip (s : gostr) : M (res (list (list byte))) :=
  perform (fun w h => w_lookup_ip w h s) (ELookupIP s).
Definition retry_wait : M bool := perform w_retry_wait ERetryWait.
Definition resolve_wait : M unit := perform (fun _ _ => tt) (fun _ => EResolveWait).
Definition socket (nw : network) : M (res Z) := perform (fun w h => w_socket w h nw) (ESocket nw).
Definition protect (fd : Z) : M bool := perform (fun w h => w_protect w h fd) (EProtect fd).
Definition unix_bind (fd : Z) : M (option error) := perform (fun w h => w_bind w h fd) (EBind fd).
Definition unix_connect (fd : Z) (ip : list byte) (port : Z) : M (option error) :=
  perform (fun w h => w_connect w h fd ip port) (EConnect fd ip port).
Definition new_file (fd : Z) : M bool := perform (fun w h => w_new_file w h fd) (ENewFile fd).
Definition file_conn (fd : Z) : M (res Z) := perform (fun w h => w_file_conn w h fd) (EFileConn fd).
Definition file_packet_conn (fd : Z) : M (res Z) :=
  perform (fun w h => w_file_packet_conn w h fd) (EFilePacketConn fd).
Definition file_close (fd : Z) : M unit := perform (fun _ _ => tt) (fun _ => EFileClose fd).
Definition unix_close (fd : Z) : M unit := perform (fun _ _ => tt) (fun _ => EUnixClose fd).

(** [net.ListenUDP]: the new socket is named after the present moment. *)
Definition listen_udp : M (res handle) := fun w h =>
  let r := w_listen_udp w h in
  ([EListenUDP r], match r with None => Ok (length h) | Some e => Err e end).

(** ** Reading a history *)

Definition written (c : handle) (e : event) : option (list byte * udp_addr) :=
  match e with
  | EWriteUDP c' p d None => if decide (c = c') then Some (p, d) else None
  | _ => None
  end.
(** The datagrams that left socket [c], in order. *)
Definition sent (c : handle) (t : list event) : list (list byte * udp_addr) := omap (written c) t.

Definition paused (e : event) : option Z :=
  match e with EPause ms None => Some ms | _ => None end.

Lemma sent_app c t t' : sent c (t ++ t') = sent c t ++ sent c t'.
Proof. apply omap_app. Qed.

(** Events that neither touch a socket nor take time. *)
Definition quiet_event (e : event) : bool :=
  match e with ENow _ | ERand _ _ | ERandInt _ _ => true | _ => false end.
Definition quiet (t : list event) : Prop := Forall (fun e => quiet_event e = true) t.

(** The entropy source failed in [t]. *)
Definition starved_event (e : event) : bool :=
  match e with ERand _ (Err _) => true | _ => false end.
Definition starved (t : list event) : Prop := Exists (fun e => starved_event e = true) t.

Lemma starved_app_l t t' : starved t -> starved (t ++ t').
Proof. intros. by apply Exists_app; left. Qed.
Lemma starved_app_r t t' : starved t' -> starved (t ++ t').
Proof. intros. by apply Exists_app; right. Qed.

Lemma quiet_app t t' : quiet t -> quiet t' -> quiet (t ++ t').
Proof. apply Forall_app_2. Qed.

Lemma quiet_sent c t : quiet t -> sent c t = [].
Proof. induction 1 as [|e t He _ IH]; [done|]. by destruct e. Qed.

Lemma quiet_paused t : quiet t -> omap paused t = [].
Proof. induction 1 as [|e t He _ IH]; [done|]. by destruct e. Qed.

#[export] Hint Resolve quiet_app starved_app_l starved_app_r : golib.
#[export] Hint Unfold quiet : golib.

(** ** A concrete environment

    For evaluating examples: a clock that ticks once per event, a counter for
    randomness, a peer that answers every read with the same datagram. *)
Definition sample_addr : udp_addr := {| ua_IP := [x01; x02; x03; x04]; ua_Port := 2408 |}.

Definition sample_bytes (h : list event) (n : nat) : list byte :=
  map (fun i => Zb (Z.of_nat (i + length h))) (seq 0 n).

Definition world_answering (answer : list event -> res (list byte * udp_addr)) : World := {|
  w_now := fun h => Z.of_nat (length h);
  w_rand := fun h n => Ok (sample_bytes h n);
  w_randint := fun h b => if 0 <? b then Some (Z.of_nat (length h) mod b) else None;
  w_resolve_udp := fun _ _ => Ok sample_addr;
  w_listen_udp := fun _ => None;
  w_write_udp := fun _ _ _ _ => None;
  w_set_deadline := fun _ _ _ => None;
  w_read_udp := fun h _ => answer h;
  w_pause := fun _ _ => None;
  w_ctx_err := fun _ => None;
  w_lookup_port := fun _ _ => Ok 443;
  w_lookup_ip := fun _ _ => Ok [[x01; x02; x03; x04]; replicate 15 x00 ++ [x01]];
  w_retry_wait := fun _ => false;
  w_socket := fun h _ => Ok (Z.of_nat (length h));
  w_protect := fun _ _ => true;
  w_bind := fun _ _ => None;
  w_connect := fun _ _ _ _ => None;
  w_new_file := fun _ _ => true;
  w_file_conn := fun h _ => Ok (Z.of_nat (length h));
  w_file_packet_conn := fun h _ => Ok (Z.of_nat (length h))
|}.

Definition sample_world : World := world_answering (fun _ => Ok ([x2a], sample_addr)).

Lemma world_answering_ok answer : world_ok (world_answering answer).
Proof.
  split; simpl.
  - intros h n bs [= <-]. unfold sample_bytes. by rewrite length_map, length_seq.
  - intros h b n. destruct (0 <? b) eqn:E; [|done]. bools. intros [= <-].
    by apply Z.mod_pos_bound.
Qed.
