(* ===== verification/Xray.v ===== *)
(** * The libraries the source calls

    xray-core, quic-go and the fragment writer are not part of the repository;
    what the source takes from them is a parameter. *)

From S2P Require Import Prelude GoCodec GoHTTP.

Class XrayLib := {
  (** [infra/conf.FragmentMask] and what its [Build] returns: the config, or a
      message of another type. *)
  FragmentMask : Type;
  FragmentConfig : Type;
  FragmentMask_Build : FragmentMask -> res (gostr + FragmentConfig);
  (** [transport/internet/tls.GetFingerprint]: [None] is nil. *)
  Fingerprint_ID : Type;
  GetFingerprint : gostr -> option Fingerprint_ID;
  (** [quic.Version], its two constants and the ladder [quicdial.H3]. *)
  quic_Version : Type;
  Version1 : quic_Version;
  Version2 : quic_Version;
  quicdial_H3 : list (list quic_Version);
  quicdial_Names : list quic_Version -> gostr;
  (** [common/utils.TryDefaultHeadersWith], which changes the header in place: the
      browser profile named by its User-Agent, for a request context. *)
  TryDefaultHeadersWith : Header -> gostr -> Header
}.

(** A concrete library for evaluating examples: every fragment mask is a pair of
    bounds that builds when they are ordered, five fingerprint names are known,
    the ladder is v2 then v1, and a profile is a User-Agent and a fetch mode. *)
Definition sample_lib : XrayLib := {|
  FragmentMask := Z * Z;
  FragmentConfig := Z * Z;
  FragmentMask_Build := fun m =>
    if (m.1 <=? m.2)%Z then Ok (inr m) else Err (OtherError "empty lengths");
  Fingerprint_ID := gostr;
  GetFingerprint := fun s =>
    if decide (s ∈ (["chrome"; "firefox"; "safari"; "random"; "hellochrome_133"] : list gostr))
    then Some s else None;
  quic_Version := Z;
  Version1 := 1%Z;
  Version2 := 0x6b3343cf%Z;
  quicdial_H3 := [[0x6b3343cf%Z]; [1%Z]];
  quicdial_Names := fun vs => if decide (vs = [1%Z]) then "v1" else "v2";
  TryDefaultHeadersWith := fun h variant =>
    let h := header_Set h "User-Agent" ("Mozilla/5.0 " ++ header_Get h "User-Agent") in
    if decide (variant = []) then h else header_Set h "Sec-Fetch-Mode" variant
|}.

(** ** [golang.org/x/crypto/cryptobyte]

    A builder, the calls the source makes on it, and their documented effect on
    the bytes it returns: every [Add] appends, and a length-prefixed child is
    refused when it does not fit its prefix. *)

Class Cryptobyte := {
  Builder : Type;
  NewBuilder : Builder;
  AddUint8 : Z -> Builder -> Builder;
  AddUint16 : Z -> Builder -> Builder;
  AddBytes : list byte -> Builder -> Builder;
  AddUint8LengthPrefixed : (Builder -> Builder) -> Builder -> Builder;
  AddUint16LengthPrefixed : (Builder -> Builder) -> Builder -> Builder;
  Builder_Bytes : Builder -> res (list byte)
}.

Class CryptobyteLaws (C : Cryptobyte) : Prop := {
  Bytes_New : Builder_Bytes NewBuilder = Ok [];
  Bytes_Uint8 v b s : Builder_Bytes b = Ok s -> Builder_Bytes (AddUint8 v b) = Ok (s ++ [Zb v]);
  Bytes_Uint16 v b s :
    Builder_Bytes b = Ok s -> Builder_Bytes (AddUint16 v b) = Ok (s ++ be_put16 v);
  Bytes_Bytes v b s : Builder_Bytes b = Ok s -> Builder_Bytes (AddBytes v b) = Ok (s ++ v);
  Bytes_Prefixed8 f b s c :
    Builder_Bytes b = Ok s -> Builder_Bytes (f NewBuilder) = Ok c ->
    (length c <= 255)%nat ->
    Builder_Bytes (AddUint8LengthPrefixed f b) = Ok (s ++ [Zb (Z.of_nat (length c))] ++ c);
  Bytes_Prefixed16 f b s c :
    Builder_Bytes b = Ok s -> Builder_Bytes (f NewBuilder) = Ok c ->
    (Z.of_nat (length c) <= 65535)%Z ->
    Builder_Bytes (AddUint16LengthPrefixed f b) = Ok (s ++ be_put16 (Z.of_nat (length c)) ++ c)
}.

Definition prefixed (max : Z) (enc : Z -> list byte)
    (f : res (list byte) -> res (list byte)) (b : res (list byte)) : res (list byte) :=
  s ← b; c ← f (Ok []);
  if (Z.of_nat (length c) <=? max)%Z then Ok (s ++ enc (Z.of_nat (length c)) ++ c)
  else Err (OtherError "cryptobyte: pending child length exceeds prefix").

(** The builder as the bytes it has collected. *)
#[export] Instance sample_cryptobyte : Cryptobyte := {|
  Builder := res (list byte);
  NewBuilder := Ok [];
  AddUint8 := fun v b => s ← b; Ok (s ++ [Zb v]);
  AddUint16 := fun v b => s ← b; Ok (s ++ be_put16 v);
  AddBytes := fun v b => s ← b; Ok (s ++ v);
  AddUint8LengthPrefixed := prefixed 255 (fun n => [Zb n]);
  AddUint16LengthPrefixed := prefixed 65535 be_put16;
  Builder_Bytes := id
|}.

#[export] Instance sample_cryptobyte_laws : CryptobyteLaws sample_cryptobyte.
Proof.
  split; simpl; unfold id, prefixed; try (intros; by simplify_eq/=).
  - intros f b s c -> Hc Hl. simpl. rewrite Hc. simpl. by rewrite (proj2 (Z.leb_le _ _)) by lia.
  - intros f b s c -> Hc Hl. simpl. rewrite Hc. simpl. by rewrite (proj2 (Z.leb_le _ _)) by lia.
Qed.
