(* ===== verification/Options.v ===== *)
(** * The transport options ([libv2ray_fetch.go], [libv2ray_fetch_h3.go])

    The options every entry point of the fetch library shares, and what is read
    off them without any I/O: the timeout, the ALPN mode and offer, the QUIC
    version ladder. *)

From stdpp Require Import gmap.
From S2P Require Import Prelude GoString GoCodec Xray.
Open Scope Z_scope.

(** [time.Millisecond] and [time.Second], in nanoseconds; a [time.Duration] is
    an [int64] count of them. *)
Definition Millisecond : Z := 1000000.
Definition Second : Z := 1000000000.

Definition defaultTimeoutMs : Z := 8000.
Definition maxBodyBytes : Z := Z.shiftl 32 20.
Definition maxDNSBytes : Z := Z.shiftl 64 10.

Record echOptions := {
  ech_Domain : gostr;
  ech_DoH : gostr;
  ech_ConfigList : gostr;
  ech_Probe : gostr
}.

Record transportOptions `{XrayLib} := {
  Proxy : gostr;
  IP : gostr;
  Timeout : Z;
  AllowInsecure : bool;
  ServerName : gostr;
  DisableChromeParrot : bool;
  ALPN : gostr;
  QUICVersion : gostr;
  WNoise : gostr;
  WNoiseCount : gostr;
  WNoiseDelay : gostr;
  WPayloadSize : gostr;
  Fingerprint : gostr;
  Fragment : option FragmentMask;
  Ech : option echOptions;
  Browser : gostr;
  Variant : gostr;
  UserAgent : gostr;
  Headers : gmap gostr gostr
}.

(** The zero value of the struct: what [json.Unmarshal] starts from. *)
Definition zero_transportOptions `{XrayLib} : transportOptions := {|
  Proxy := ""; IP := ""; Timeout := 0; AllowInsecure := false; ServerName := "";
  DisableChromeParrot := false; ALPN := ""; QUICVersion := ""; WNoise := "";
  WNoiseCount := ""; WNoiseDelay := ""; WPayloadSize := ""; Fingerprint := "";
  Fragment := None; Ech := None; Browser := ""; Variant := ""; UserAgent := "";
  Headers := ∅
|}.

Section Options.
Context `{XrayLib} `{Unicode}.

(** [strings.ToLower(strings.TrimSpace(s))]. *)
Definition normalised (s : gostr) : gostr := ToLower (TrimSpace s).

Definition timeout_of (ms : Z) : Z :=
  if ms <=? 0 then defaultTimeoutMs * Millisecond
  else wrapS 64 (ms * Millisecond).
Definition timeout (o : transportOptions) : Z := timeout_of (Timeout o).

Definition echEnabled (o : transportOptions) : bool :=
  match Ech o with
  | None => false
  | Some e => bool_decide (ech_DoH e <> []) || bool_decide (ech_ConfigList e <> [])
              || bool_decide (ech_Probe e <> [])
  end.

Definition alpnAuto : gostr := "auto".
Definition alpnH1 : gostr := "h1".
Definition alpnH2 : gostr := "h2".
Definition alpnH3 : gostr := "h3".

Definition alpnMode (o : transportOptions) : res gostr :=
  let s := normalised (ALPN o) in
  if bool_decide (s ∈ (["" : gostr; "auto"])) then Ok alpnAuto
  else if bool_decide (s ∈ (["h1" : gostr; "http1"; "http/1.1"; "http1.1"])) then Ok alpnH1
  else if bool_decide (s ∈ (["h2" : gostr; "http2"; "http/2"])) then Ok alpnH2
  else if bool_decide (s ∈ (["h3" : gostr; "http3"; "http/3"; "quic"])) then Ok alpnH3
  else Err (Errorf "unknown alpn %q (use %q, %q, %q or %q)" [AStr (ALPN o); AStr alpnAuto; AStr alpnH1; AStr alpnH2; AStr alpnH3] None).

Definition alpnOffer (mode : gostr) : list gostr :=
  if bool_decide (mode = alpnH1) then ["http/1.1"]
  else if bool_decide (mode = alpnH2) then ["h2"]
  else if bool_decide (mode = alpnH3) then ["h3"]
  else ["h2"; "http/1.1"].

Definition negotiatedName (proto : gostr) : gostr :=
  if bool_decide (proto = []) then "http/1.1" else proto.

Definition quicAttempts (o : transportOptions) : res (list (list quic_Version)) :=
  let s := normalised (QUICVersion o) in
  if bool_decide (s ∈ (["" : gostr; "auto"])) then Ok quicdial_H3
  else if bool_decide (s ∈ (["v1" : gostr; "1"; "quicv1"])) then Ok [[Version1]]
  else if bool_decide (s ∈ (["v2" : gostr; "2"; "quicv2"])) then Ok [[Version2]]
  else Err (Errorf "unknown quicVersion %q (use %q, %q or %q)" [AStr (QUICVersion o); AStr "auto"; AStr "v1"; AStr "v2"] None).

(** The loop of [quicVersionsDialed], [i] counting the attempts passed. *)
Fixpoint quicVersionsDialed_from (i : nat) (attempts : list (list quic_Version)) : gostr :=
  match attempts with
  | [] => []
  | a :: r => (if (0 <? i)%nat then (" then " : gostr) else []) ++ quicdial_Names a
              ++ quicVersionsDialed_from (S i) r
  end.
Definition quicVersionsDialed (attempts : list (list quic_Version)) : gostr :=
  quicVersionsDialed_from 0 attempts.

Definition fragmentConfig (o : transportOptions) : res (option FragmentConfig) :=
  match Fragment o with
  | None => Ok None
  | Some m =>
    match FragmentMask_Build m with
    | Err e => Err (Errorf "invalid fragment: %w" [] (Some e))
    | Ok (inl type) => Err (Errorf "invalid fragment: unexpected config type %T" [AStr type] None)
    | Ok (inr cfg) => Ok (Some cfg)
    end
  end.

(** ** Lemmas *)

Lemma timeout_default ms : ms <= 0 -> timeout_of ms = 8 * Second.
Proof. intros. unfold timeout_of. by rewrite (proj2 (Z.leb_le _ _)). Qed.

Lemma timeout_exact ms : 0 < ms <= 9223372036854 -> timeout_of ms = ms * Millisecond.
Proof.
  intros. unfold timeout_of. rewrite (proj2 (Z.leb_gt _ _)) by lia.
  apply wrapS_small; unfold Millisecond; lia.
Qed.

Lemma alpnMode_cases o m :
  alpnMode o = Ok m -> m = alpnAuto \/ m = alpnH1 \/ m = alpnH2 \/ m = alpnH3.
Proof. unfold alpnMode. intros E. repeat case_match; simplify_eq; auto. Qed.

Lemma alpnMode_normalised o o' :
  normalised (ALPN o) = normalised (ALPN o') ->
  is_Ok (alpnMode o) = true -> alpnMode o = alpnMode o'.
Proof. unfold alpnMode. intros ->. intros Hok. repeat case_match; done. Qed.

Lemma quicAttempts_cases o l :
  quicAttempts o = Ok l -> l = quicdial_H3 \/ l = [[Version1]] \/ l = [[Version2]].
Proof. unfold quicAttempts. intros E. repeat case_match; simplify_eq; auto. Qed.

End Options.
