(* ===== verification/Headers.v ===== *)
(** * Request headers ([libv2ray_fetch.go])

    The browser profile with the caller's overrides, and the headers of a resolver
    request. [o.Headers] is a Go map: the order in which [range] visits it is
    chosen anew each time, so it is an argument here. *)

From stdpp Require Import gmap.
From S2P Require Import Prelude GoString GoNet GoHTTP Xray Options.
Open Scope Z_scope.

Section Headers.
Context `{XrayLib}.

(** [kvs] is an order of [range o.Headers]. *)
Definition range_of (o : transportOptions) (kvs : list (gostr * gostr)) : Prop :=
  kvs ≡ₚ map_to_list (Headers o).

Definition applyHeaders (kvs : list (gostr * gostr)) (o : transportOptions) (h : Header)
    (variantDefault : gostr) : Header :=
  let browser := if bool_decide (Browser o = []) then "chrome" : gostr else Browser o in
  let variant := if bool_decide (Variant o = []) then variantDefault else Variant o in
  let h := header_Set h "User-Agent" browser in
  let h := TryDefaultHeadersWith h variant in
  let h := if bool_decide (UserAgent o <> []) then header_Set h "User-Agent" (UserAgent o) else h in
  header_SetAll h kvs.

Definition userAgentOnly (o : transportOptions) : gostr :=
  if bool_decide (UserAgent o <> []) then UserAgent o
  else
    let browser := if bool_decide (Browser o = []) then "chrome" : gostr else Browser o in
    header_Get (TryDefaultHeadersWith (header_Set ∅ "User-Agent" browser) []) "User-Agent".

Definition applyDoHHeaders (kvs : list (gostr * gostr)) (o : transportOptions) (h : Header) : Header :=
  let h := header_Set h "Accept" "application/dns-message" in
  let h := header_Set h "Content-Type" "application/dns-message" in
  let ua := userAgentOnly o in
  let h := if bool_decide (ua <> []) then header_Set h "User-Agent" ua else h in
  header_SetAll h kvs.

Definition canonicalAddr (u : URL) : gostr :=
  let port := url_Port u in
  let port := if bool_decide (port = [])
              then (if bool_decide (u_Scheme u = ("https" : gostr)) then "443" : gostr else "80")
              else port in
  JoinHostPort (url_Hostname u) port.

(** ** What the two header sets promise *)

(** The caller's keys that mean the header [k]. *)
Definition overrides (o : transportOptions) (k : gostr) : gmap gostr gostr :=
  filter (fun kv => CanonicalHeaderKey kv.1 = CanonicalHeaderKey k) (Headers o).

(** The header set is the profile's, the caller's [UserAgent] over it and the
    caller's headers over both. *)
Definition layered (o : transportOptions) (profile : Header) (ua : gostr) (h : Header) : Prop :=
  forall k,
    (overrides o k = ∅ ->
       h !! CanonicalHeaderKey k =
         if bool_decide (ua <> [] /\ CanonicalHeaderKey k = ("User-Agent" : gostr)) then Some [ua]
         else profile !! CanonicalHeaderKey k) /\
    (overrides o k <> ∅ -> exists k' v, overrides o k !! k' = Some v /\ h !! CanonicalHeaderKey k = Some [v]).

(** ** Lemmas *)

Lemma overrides_empty o k kvs :
  range_of o kvs -> overrides o k = ∅ <->
  Forall (fun kv => CanonicalHeaderKey kv.1 <> CanonicalHeaderKey k) kvs.
Proof.
  intros Hr. rewrite Hr. unfold overrides. rewrite map_empty_filter, Forall_forall. split.
  - intros Hall [k' v] Hin%elem_of_map_to_list. by apply (Hall k' v).
  - intros Hall k' v Hv. apply (Hall (k', v)). by apply elem_of_map_to_list.
Qed.

Lemma set_all_layered o kvs base ua h :
  range_of o kvs -> h = header_SetAll (if bool_decide (ua <> []) then header_Set base "User-Agent" ua else base) kvs ->
  layered o base ua h.
Proof.
  intros Hr -> k. split.
  - intros He. rewrite header_SetAll_other by exact (proj1 (overrides_empty o k kvs Hr) He).
    case_bool_decide as Hu; case_bool_decide as Hk; try tauto; unfold header_Set.
    + destruct Hk as [_ ->]. by rewrite lookup_insert_eq.
    + rewrite lookup_insert_ne; [done|]. intros E. apply Hk. split; [done|]. symmetry. exact E.
  - intros He.
    destruct (header_SetAll_last (if bool_decide (ua <> []) then header_Set base "User-Agent" ua else base) kvs k)
      as [(l1 & k' & v & l2 & Ekv & Ek & _ & ->)|Hall]; [|by apply (overrides_empty o k kvs Hr) in Hall].
    exists k', v. split; [|done]. apply map_lookup_filter_Some. split; [|done].
    apply elem_of_map_to_list. rewrite <- Hr, Ekv. apply elem_of_app. right. left.
Qed.

Lemma applyHeaders_perm kvs kvs' o h d :
  range_of o kvs -> range_of o kvs' ->
  NoDup (map (fun kv => CanonicalHeaderKey kv.1) (map_to_list (Headers o))) ->
  applyHeaders kvs o h d = applyHeaders kvs' o h d.
Proof.
  intros H1 H2 Hnd. unfold applyHeaders. apply header_SetAll_perm.
  - by rewrite H1.
  - by rewrite H1, H2.
Qed.

(** A port is read off a URL only when it consists of digits. *)
Lemma url_Port_digits u b : b ∈ url_Port u -> (0x30 <=? bZ b) && (bZ b <=? 0x39) = true.
Proof.
  unfold url_Port, url_splitHostPort.
  destruct (LastIndexByte (u_Host u) _) as [i|] eqn:Ei; [|by intros ?%elem_of_nil].
  apply LastIndexByte_Some in Ei as (p & q & -> & _ & <-). rewrite drop_app_length.
  replace (drop (S (length p)) (p ++ ":"%byte :: q)) with q
    by (by rewrite cons_middle, app_assoc, drop_app_length'; [|rewrite length_app; simpl; lia]).
  destruct (validOptionalPort _) eqn:Ev; [|by intros ?%elem_of_nil]. simpl.
  simpl in Ev.
  rewrite forallb_forall in Ev. intros Hb. apply Ev. by apply list_elem_of_In.
Qed.

Lemma canonical_port u :
  let p := if bool_decide (url_Port u = [])
           then (if bool_decide (u_Scheme u = ("https" : gostr)) then "443" : gostr else "80")
           else url_Port u in
  canonicalAddr u = JoinHostPort (url_Hostname u) p /\
  forall b, b ∈ p -> (0x30 <=? bZ b) && (bZ b <=? 0x39) = true.
Proof.
  intros p. split; [done|]. subst p. intros b. case_bool_decide; [|apply url_Port_digits].
  case_bool_decide; intros Hb; repeat (apply elem_of_cons in Hb as [->|Hb]; [done|]); by apply elem_of_nil in Hb.
Qed.

(** ** Properties *)

(** The headers of a request are the browser profile's, the caller's
    [userAgent] over them, and the caller's own headers over both: a header the
    caller does not name keeps the profile's values even when [userAgent] is set.
    When no two of the caller's keys mean the same header, the order in which the
    map is visited does not matter. *)
Theorem applyHeaders_spec kvs o h d :
  range_of o kvs ->
  let variant := if bool_decide (Variant o = []) then d else Variant o in
  let browser := if bool_decide (Browser o = []) then "chrome" : gostr else Browser o in
  layered o (TryDefaultHeadersWith (header_Set h "User-Agent" browser) variant) (UserAgent o)
    (applyHeaders kvs o h d) /\
  (NoDup (map (fun kv => CanonicalHeaderKey kv.1) (map_to_list (Headers o))) ->
   forall kvs', range_of o kvs' -> applyHeaders kvs' o h d = applyHeaders kvs o h d).
Proof.
  intros Hr variant browser. split; [by eapply set_all_layered|].
  intros Hnd kvs' Hr'. by apply applyHeaders_perm.
Qed.

(** A resolver request carries the two content types, the User-Agent the
    profile would send and what the caller adds, and nothing else of the profile. *)
Theorem applyDoHHeaders_spec kvs o :
  range_of o kvs ->
  let base := <[("Accept" : gostr) := ["application/dns-message" : gostr]]>
    (<[("Content-Type" : gostr) := ["application/dns-message" : gostr]]> ∅) in
  layered o base (userAgentOnly o) (applyDoHHeaders kvs o ∅) /\
  (UserAgent o <> [] -> userAgentOnly o = UserAgent o).
Proof.
  intros Hr base. split.
  - eapply set_all_layered; [done|]. unfold applyDoHHeaders, base. f_equal.
  - intros Hu. unfold userAgentOnly. by rewrite bool_decide_true.
Qed.

(** The address that is dialed for a URL splits into the URL's host name and
    its port, or the port of its scheme, whenever the host name has no bracket: an
    IPv6 host keeps its brackets. *)
Theorem canonicalAddr_split u :
  ~ "["%byte ∈ url_Hostname u -> ~ "]"%byte ∈ url_Hostname u ->
  SplitHostPort (canonicalAddr u) = inr (url_Hostname u,
    if bool_decide (url_Port u = [])
    then (if bool_decide (u_Scheme u = ("https" : gostr)) then "443" : gostr else "80")
    else url_Port u).
Proof.
  intros H1 H2. destruct (canonical_port u) as [-> Hp].
  apply Split_Join_HostPort; try done; intros Hb; by specialize (Hp _ Hb).
Qed.

End Headers.

(** ** Witnesses *)

#[local] Existing Instance sample_lib.

(** Two spellings of one header. *)
Definition two_spellings : transportOptions := {|
  Proxy := ""; IP := ""; Timeout := 0; AllowInsecure := false; ServerName := "";
  DisableChromeParrot := false; ALPN := ""; QUICVersion := ""; WNoise := "";
  WNoiseCount := ""; WNoiseDelay := ""; WPayloadSize := ""; Fingerprint := "";
  Fragment := None; Ech := None; Browser := ""; Variant := ""; UserAgent := "probe/1";
  Headers := <[("x-id" : gostr) := "1" : gostr]> (<[("X-ID" : gostr) := "2" : gostr]> ∅)
|}.

(** When two of the caller's keys mean the same header, which of the values is
    sent depends on the order in which the map happens to be visited. *)
Theorem applyHeaders_races :
  exists kvs kvs', range_of two_spellings kvs /\ range_of two_spellings kvs' /\
    header_Get (applyHeaders kvs two_spellings ∅ "nav") "X-Id" = "1" /\
    header_Get (applyHeaders kvs' two_spellings ∅ "nav") "X-Id" = "2".
Proof.
  exists ([("X-ID" : gostr, "2" : gostr); ("x-id" : gostr, "1" : gostr)]),
    ([("x-id" : gostr, "1" : gostr); ("X-ID" : gostr, "2" : gostr)]).
  split_and!; [..|vm_compute; reflexivity|vm_compute; reflexivity]; unfold range_of; simpl;
    rewrite !map_to_list_insert, map_to_list_empty by done; [apply Permutation_swap|done].
Qed.

Lemma applyHeaders_spec_witness :
  header_Get (applyHeaders (map_to_list (Headers two_spellings)) two_spellings ∅ "nav") "Sec-Fetch-Mode" = "nav".
Proof.
  pose proof (proj1 (proj1 (applyHeaders_spec (map_to_list (Headers two_spellings)) two_spellings ∅ "nav"
    (Permutation_refl _)) "Sec-Fetch-Mode") ltac:(vm_compute; reflexivity)) as E.
  unfold header_Get. rewrite E. vm_compute. reflexivity.
Defined.

Lemma applyDoHHeaders_spec_witness :
  userAgentOnly two_spellings = "probe/1".
Proof.
  apply (proj2 (applyDoHHeaders_spec (map_to_list (Headers two_spellings)) two_spellings (Permutation_refl _))).
  done.
Defined.

Lemma canonicalAddr_split_witness :
  SplitHostPort (canonicalAddr {| u_Scheme := "https"; u_User := None; u_Host := "[::1]" |}) = inr ("::1" : gostr, "443" : gostr).
Proof.
  apply (canonicalAddr_split {| u_Scheme := "https"; u_User := None; u_Host := "[::1]" |});
    apply (bool_decide_unpack _); vm_compute; done.
Defined.
