(* ===== verification/Noise.v ===== *)
(** * The QUIC noise generator ([libv2ray_fetch_noise.go])

    Parsing the [wnoise*] options into a plan ([noiseConfig]), building the
    datagrams of each preset, and sending the burst. *)

From S2P Require Import Prelude GoString GoCodec Xray Options World.
Open Scope Z_scope.

Definition noiseNone : gostr := "none".
Definition noiseQUIC : gostr := "quic".
Definition noiseQUICv1 : gostr := "quicv1".
Definition noiseRandom : gostr := "random".
Definition noiseInit : gostr := "quicinit".

Definition quicInitSize : nat := 1200.

Definition noiseMaxCount : Z := 50.
Definition noiseMaxDelayMs : Z := 100.
Definition noiseMaxPayload : Z := 100.
Definition noiseMaxHeaderLen : nat := 50.

Definition quicNoiseVersion2 : list byte := [x6b; x33; x43; xcf].
Definition quicNoiseVersion1 : list byte := [x00; x00; x00; x01].

Record noiseConfig := {
  nc_mode : gostr;
  nc_header : option (list byte);
  countFrom : Z; countTo : Z;
  delayFrom : Z; delayTo : Z;
  sizeFrom : Z; sizeTo : Z
}.

(** ** Parsing the options *)

Section Parse.
Context `{XrayLib} `{Unicode} `{IntWidth}.

Definition parse_bound (name : string) (value p : gostr) : res Z :=
  let bad := Errorf "%s %q must be a non-negative number or a %q range"
                    [AStr name; AStr value; AStr "from-to"] None in
  match Atoi (TrimSpace p) with
  | None => Err bad
  | Some v => if v <? 0 then Err bad else Ok v
  end.

Definition parseNoiseRange (value : gostr) (name : string) (defFrom defTo limit : Z)
    : res (Z * Z) :=
  let value := TrimSpace value in
  if bool_decide (value = []) then Ok (defFrom, defTo)
  else
    let parts := Split value x2d in
    if (2 <? length parts)%nat
    then Err (Errorf "%s %q must be a number or a %q range" [AStr name; AStr value; AStr "from-to"] None)
    else
      bounds ← mapM (parse_bound name value) parts;
      let from := default 0 (bounds !! 0%nat) in
      let to := if (length bounds =? 2)%nat then default 0 (bounds !! 1%nat) else from in
      let '(from, to) := if to <? from then (to, from) else (from, to) in
      let from := if limit <? from then limit else from in
      let to := if limit <? to then limit else to in
      Ok (from, to).

(** [transportOptions.noiseConfig]: [None] when noise is off. *)
Definition noise_config (o : transportOptions) : res (option noiseConfig) :=
  let mode := normalised (WNoise o) in
  '(cf, ct) ← parseNoiseRange (WNoiseCount o) "wnoisecount" 5 5 noiseMaxCount;
  '(df, dt) ← parseNoiseRange (WNoiseDelay o) "wnoisedelay" 5 5 noiseMaxDelayMs;
  '(sf, st) ← parseNoiseRange (WPayloadSize o) "wpayloadsize" 5 10 noiseMaxPayload;
  let plan m h := {| nc_mode := m; nc_header := h; countFrom := cf; countTo := ct;
                     delayFrom := df; delayTo := dt; sizeFrom := sf; sizeTo := st |} in
  if bool_decide (mode ∈ (["" : gostr; noiseNone])) then Ok None
  else if bool_decide (mode ∈ ([noiseQUIC; noiseQUICv1; noiseRandom; noiseInit]))
  then Ok (Some (plan mode None))
  else if negb (Nat.even (length mode))
  then Err (Errorf "wnoise %q has an odd number of hex digits: give whole bytes, or use %q, %q, %q, %q or %q"
              [AStr (WNoise o); AStr noiseNone; AStr noiseQUIC; AStr noiseInit; AStr noiseQUICv1; AStr noiseRandom] None)
  else match hex_decode mode with
       | None => Err (Errorf "wnoise %q is neither a preset (%q, %q, %q, %q, %q) nor a hex string: %w"
                             [AStr (WNoise o); AStr noiseNone; AStr noiseQUIC; AStr noiseInit; AStr noiseQUICv1; AStr noiseRandom] (Some (OtherError "encoding/hex: invalid byte")))
       | Some header =>
         if (length header =? 0)%nat
         then Err (Errorf "wnoise is empty: use %q to disable noise" [AStr noiseNone] None)
         else if (noiseMaxHeaderLen <? length header)%nat
         then Err (Errorf "wnoise is %d bytes, more than the %d-byte maximum"
                          [AInt (Z.of_nat (length header)); AInt (Z.of_nat noiseMaxHeaderLen)] None)
         else Ok (Some (plan "hex" (Some header)))
       end.

End Parse.

(** ** Building datagrams *)

(** [noiseRand]: a uniform integer of the closed interval, [min] when the
    entropy source fails. *)
Definition noiseRand (min max : Z) : M Z :=
  let '(min, max) := if max <? min then (max, min) else (min, max) in
  if max <=? min then mret min
  else n ← rand_int (max - min + 1);
       mret (match n with Some n => n + min | None => min end).

Definition clist : list byte := [xdc; xde; xd3; xd9; xd0; xec; xee; xe3].

(** [None] stands for the nil slice. *)
Definition quicNoiseHeader (version : list byte) : M (option (list byte)) :=
  dcid ← rand_read 8;
  match dcid with
  | Err _ => mret None
  | Ok dcid =>
    i ← noiseRand 0 (Z.of_nat (length clist) - 1);
    mret (Some ([default x00 (clist !! Z.to_nat i)] ++ version ++ [x08] ++ dcid
                ++ [x00; x00; x44; xd0]))
  end.

Definition quicInitPacket : M (option (list byte)) :=
  p ← rand_read quicInitSize;
  match p with
  | Err _ => mret None
  | Ok p =>
    let p := <[0%nat := Zb (Z.lor 0xC0 (Z.land (bZ (default x00 (p !! 0%nat))) 0x0F))]> p in
    let p := list_inserts 1 quicNoiseVersion2 p in
    let p := <[5%nat := x08]> p in
    let p := <[14%nat := x08]> p in
    let p := <[23%nat := x00]> p in
    mret (Some (<[25%nat := x00]> (<[24%nat := x44]> p)))
  end.

Definition nextHeader (n : noiseConfig) : M (option (list byte)) :=
  if bool_decide (nc_mode n = noiseQUIC) then quicNoiseHeader quicNoiseVersion2
  else if bool_decide (nc_mode n = noiseQUICv1) then quicNoiseHeader quicNoiseVersion1
  else if bool_decide (nc_mode n = noiseRandom) then
    h ← rand_read 18; mret (match h with Ok h => Some h | Err _ => None end)
  else mret (nc_header n).

Definition no_entropy : error := Errorf "wnoise: cannot read random bytes" [] None.

Definition nextPacket (n : noiseConfig) : M (res (list byte)) :=
  if bool_decide (nc_mode n = noiseInit) then
    p ← quicInitPacket;
    mret (match p with None => Err no_entropy | Some p => Ok p end)
  else
    header ← nextHeader n;
    match header with
    | None => mret (Err no_entropy)
    | Some header =>
      size ← noiseRand (sizeFrom n) (sizeTo n);
      if 0 <? size then
        tail ← rand_read (Z.to_nat size);
        mret (match tail with
              | Err e => Err (Errorf "wnoise: cannot read random bytes: %w" [] (Some e))
              | Ok tail => Ok (header ++ tail)
              end)
      else mret (Ok header)
    end.

(** ** Sending the burst *)

Fixpoint send_loop (n : noiseConfig) (pc : handle) (dst : udp_addr) (count : nat)
    : M (option error) :=
  match count with
  | O => mret None
  | S k =>
    packet ← nextPacket n;
    match packet with
    | Err e => mret (Some e)
    | Ok packet =>
      werr ← write_udp pc packet dst;
      match werr with
      | Some e => mret (Some (Errorf "wnoise: cannot send noise to %s: %w" [AAddr (ua_IP dst) (ua_Port dst)] (Some e)))
      | None =>
        delay ← noiseRand (delayFrom n) (delayTo n);
        if delay =? 0 then send_loop n pc dst k
        else perr ← pause delay;
             match perr with
             | Some e => mret (Some e)
             | None => send_loop n pc dst k
             end
      end
    end
  end.

Definition send (n : noiseConfig) (pc : handle) (dst : udp_addr) : M (option error) :=
  count ← noiseRand (countFrom n) (countTo n);
  send_loop n pc dst (Z.to_nat count).

(** ** What the burst looks like on the wire

    A reading of the QUIC long header (RFC 9000, section 17.2), independent of
    the code that builds it. *)

Record long_header := {
  lh_first : byte; lh_version : list byte; lh_dcid : list byte; lh_scid : list byte;
  lh_token : list byte; lh_length : Z; lh_rest : list byte
}.

(** A variable-length integer of one or two bytes. *)
Definition read_varint (p : list byte) : option (Z * list byte) :=
  match p with
  | a :: r =>
    if bZ a <? 64 then Some (bZ a, r)
    else match r with
         | b :: r' => if bZ a <? 128 then Some ((bZ a - 64) * 256 + bZ b, r') else None
         | [] => None
         end
  | [] => None
  end.

Definition read_bytes (n : nat) (p : list byte) : option (list byte * list byte) :=
  if (n <=? length p)%nat then Some (take n p, drop n p) else None.

Definition read_prefixed (p : list byte) : option (list byte * list byte) :=
  match p with
  | n :: r => if bZ n <=? 20 then read_bytes (Z.to_nat (bZ n)) r else None
  | [] => None
  end.

Definition read_long_header (p : list byte) : option long_header :=
  '(first, p) ← read_bytes 1 p;
  '(version, p) ← read_bytes 4 p;
  '(dcid, p) ← read_prefixed p;
  '(scid, p) ← read_prefixed p;
  '(tlen, p) ← read_varint p;
  '(token, p) ← read_bytes (Z.to_nat tlen) p;
  '(len, p) ← read_varint p;
  Some {| lh_first := default x00 (head first); lh_version := version; lh_dcid := dcid;
          lh_scid := scid; lh_token := token; lh_length := len; lh_rest := p |}.

(** The pseudo-header of the [quic] presets: 18 bytes of a long header with an
    8-byte destination ID and no source ID or token, that announces 1232 bytes. *)
Definition pseudo_header (version hd : list byte) : Prop :=
  exists h, read_long_header hd = Some h /\ length hd = 18%nat /\
    lh_first h ∈ clist /\ lh_version h = version /\ length (lh_dcid h) = 8%nat /\
    lh_scid h = [] /\ lh_token h = [] /\ lh_length h = 1232 /\ lh_rest h = [].

(** The [quicinit] datagram: 1200 bytes, long header type bits 00, QUIC v2,
    8-byte connection IDs, no token. Its Length field says 1024. *)
Definition initial_datagram (p : list byte) : Prop :=
  exists h, read_long_header p = Some h /\ length p = quicInitSize /\
    192 <= bZ (lh_first h) <= 207 /\ lh_version h = quicNoiseVersion2 /\
    length (lh_dcid h) = 8%nat /\ length (lh_scid h) = 8%nat /\ lh_token h = [] /\
    lh_length h = 1024 /\ length (lh_rest h) = 1174%nat.

Record noise_wf (n : noiseConfig) : Prop := {
  wf_count : 0 <= countFrom n <= countTo n /\ countTo n <= noiseMaxCount;
  wf_delay : 0 <= delayFrom n <= delayTo n /\ delayTo n <= noiseMaxDelayMs;
  wf_size : 0 <= sizeFrom n <= sizeTo n /\ sizeTo n <= noiseMaxPayload;
  wf_mode :
    nc_mode n ∈ ([noiseQUIC; noiseQUICv1; noiseRandom; noiseInit]) /\ nc_header n = None \/
    nc_mode n = "hex" /\ exists h, nc_header n = Some h /\ (1 <= length h <= noiseMaxHeaderLen)%nat
}.

(** One datagram of the plan: [quicinit] is a whole packet, any other preset a
    header of its kind and a payload of the configured size. *)
Definition noise_datagram (n : noiseConfig) (p : list byte) : Prop :=
  if bool_decide (nc_mode n = noiseInit) then initial_datagram p
  else exists hd tl, p = hd ++ tl /\ sizeFrom n <= Z.of_nat (length tl) <= sizeTo n /\
    if bool_decide (nc_mode n = noiseQUIC) then pseudo_header quicNoiseVersion2 hd
    else if bool_decide (nc_mode n = noiseQUICv1) then pseudo_header quicNoiseVersion1 hd
    else if bool_decide (nc_mode n = noiseRandom) then length hd = 18%nat
    else nc_header n = Some hd.

(** The events of a burst of [k] datagrams: each is written to [dst] and, unless
    its delay is zero, followed by a pause within the configured bounds. *)
Inductive burst (n : noiseConfig) (pc : handle) (dst : udp_addr) : nat -> list event -> Prop :=
| burst_done : burst n pc dst 0 []
| burst_next k q p q' d t :
    quiet q -> noise_datagram n p -> quiet q' -> delayFrom n <= d <= delayTo n ->
    burst n pc dst k t ->
    burst n pc dst (S k)
      (q ++ EWriteUDP pc p dst None :: q' ++ (if d =? 0 then [] else [EPause d None]) ++ t).

(** How an interrupted burst ends: no entropy for the next datagram, a failed
    write, or the context ending during the pause after a datagram. *)
Inductive burst_end (n : noiseConfig) (pc : handle) (dst : udp_addr) : list event -> Prop :=
| end_entropy q : quiet q -> starved q -> burst_end n pc dst q
| end_write q p e : quiet q -> noise_datagram n p ->
    burst_end n pc dst (q ++ [EWriteUDP pc p dst (Some e)])
| end_ctx q p q' d e : quiet q -> noise_datagram n p -> quiet q' ->
    delayFrom n <= d <= delayTo n -> d <> 0 ->
    burst_end n pc dst (q ++ EWriteUDP pc p dst None :: q' ++ [EPause d (Some e)]).

Definition total (l : list Z) : Z := foldr Z.add 0 l.

(** What [nextPacket] returns: a datagram of the plan, or an error when the
    entropy source failed. *)
Definition packet_of (n : noiseConfig) (t : list event) (r : res (list byte)) : Prop :=
  quiet t /\ match r with Ok p => noise_datagram n p | Err _ => starved t end.

(** What [send] does: draw a count, then send that many datagrams, or fewer and
    then fail. *)
Definition sends (n : noiseConfig) (pc : handle) (dst : udp_addr) (t : list event)
    (r : option error) : Prop :=
  exists q k t', quiet q /\ t = q ++ t' /\ countFrom n <= Z.of_nat k <= countTo n /\
    match r with
    | None => burst n pc dst k t'
    | Some _ => exists j t1 t2, (j < k)%nat /\ t' = t1 ++ t2 /\
                burst n pc dst j t1 /\ burst_end n pc dst t2
    end.

(** What [send] costs: at most fifty datagrams, all to [dst] and of the plan, and
    at most five seconds of pauses. *)
Definition send_bounded (n : noiseConfig) (pc : handle) (dst : udp_addr) (t : list event) : Prop :=
  (length (sent pc t) <= 50)%nat /\
  Forall (fun s => s.2 = dst /\ noise_datagram n s.1) (sent pc t) /\
  0 <= total (omap paused t) <= 5000.

(** ** Lemmas: parsing *)

Section ParseLemmas.
Context `{XrayLib} `{Unicode} `{IntWidth}.

Lemma parse_bound_Ok name v p a :
  parse_bound name v p = Ok a <-> Atoi (TrimSpace p) = Some a /\ 0 <= a.
Proof.
  unfold parse_bound. destruct (Atoi (TrimSpace p)) as [x|]; [|by split; [|intros [? _]]].
  destruct (x <? 0) eqn:E; bools; split.
  - done.
  - intros [[= ->] ?]. lia.
  - intros [= ->]. done.
  - by intros [[= ->] _].
Qed.

(** What the text of a range denotes before clamping: one bound or two. *)
Definition range_text (v : gostr) (a b : Z) : Prop :=
  (exists p, Split v x2d = [p] /\ Atoi (TrimSpace p) = Some a /\ b = a) \/
  (exists p q, Split v x2d = [p; q] /\ Atoi (TrimSpace p) = Some a /\ Atoi (TrimSpace q) = Some b).

Lemma parse_bounds_Ok name v parts bounds :
  (length parts <= 2)%nat -> parts <> [] ->
  mapM (parse_bound name v) parts = Ok bounds <->
  (exists p a, parts = [p] /\ bounds = [a] /\ parse_bound name v p = Ok a) \/
  (exists p q a b, parts = [p; q] /\ bounds = [a; b] /\
                   parse_bound name v p = Ok a /\ parse_bound name v q = Ok b).
Proof.
  intros Hlen Hne. destruct parts as [|p [|q [|]]]; [done|..|simpl in Hlen; lia]; simpl.
  - destruct (parse_bound name v p) as [a|e] eqn:E; simpl; split.
    + intros [= <-]. left. by exists p, a.
    + intros [(? & ? & ? & -> & ?)|(? & ? & ? & ? & ? & _)]; simplify_eq/=; unfold mret, res_ret; congruence.
    + done.
    + intros [(? & ? & ? & -> & ?)|(? & ? & ? & ? & ? & _)]; simplify_eq/=; unfold mret, res_ret; congruence.
  - destruct (parse_bound name v p) as [a|e] eqn:E, (parse_bound name v q) as [b|e'] eqn:E';
      simpl; split; try done.
    + intros [= <-]. right. by exists p, q, a, b.
    + intros [(? & ? & ? & _)|(? & ? & ? & ? & ? & -> & ? & ?)]; simplify_eq/=; unfold mret, res_ret; congruence.
    + intros [(? & ? & ? & _)|(? & ? & ? & ? & ? & -> & ? & ?)]; simplify_eq/=; unfold mret, res_ret; congruence.
    + intros [(? & ? & ? & _)|(? & ? & ? & ? & ? & -> & ? & ?)]; simplify_eq/=; unfold mret, res_ret; congruence.
    + intros [(? & ? & ? & _)|(? & ? & ? & ? & ? & -> & ? & ?)]; simplify_eq/=; unfold mret, res_ret; congruence.
Qed.

Lemma parseNoiseRange_spec_lem value name df dt limit f t :
  parseNoiseRange value name df dt limit = Ok (f, t) <->
  TrimSpace value = [] /\ f = df /\ t = dt \/
  TrimSpace value <> [] /\ exists a b, range_text (TrimSpace value) a b /\
    0 <= a /\ 0 <= b /\
    f = Z.min (Z.min a b) limit /\ t = Z.min (Z.max a b) limit.
Proof.
  unfold parseNoiseRange. set (v := TrimSpace value). clearbody v.
  destruct (bool_decide (v = [])) eqn:Ev; bools; [split; [intros [= -> ->]; by left|]|].
  { by intros [(_ & -> & ->)|(? & _)]. }
  assert (forall a b, (let '(from, to) := if b <? a then (b, a) else (a, b) in
            let from := if limit <? from then limit else from in
            let to := if limit <? to then limit else to in Ok (from, to)) =
          Ok (Z.min (Z.min a b) limit, Z.min (Z.max a b) limit)) as Hclamp.
  { intros a b. destruct (b <? a) eqn:E1; cbn; bools;
      repeat (case_match; bools); do 2 f_equal; lia. }
  pose proof (Split_nonempty v x2d) as Hne.
  destruct (2 <? length (Split v x2d))%nat eqn:El.
  { apply Nat.ltb_lt in El. split; [done|].
    intros [(? & _)|(_ & a & b & [(p & E & _)|(p & q & E & _)] & _)]; [done|..];
      rewrite E in El; simpl in El; lia. }
  apply Nat.ltb_ge in El.
  destruct (mapM _ (Split v x2d)) as [bounds|e] eqn:Em; simpl.
  - apply parse_bounds_Ok in Em; [|done..]. unfold range_text.
    destruct Em as [(p & a & E & -> & Ha)|(p & q & a & b & E & -> & Ha & Hb)]; simpl;
      rewrite Hclamp, E; apply parse_bound_Ok in Ha as [Ha ?].
    + split.
      * intros [= <- <-]. right. split; [done|]. exists a, a. naive_solver.
      * intros [(? & _)|(_ & a' & b' & [(? & [= <-] & ? & ->)|(? & ? & ? & _)] & ? & ? & -> & ->)];
          congruence.
    + apply parse_bound_Ok in Hb as [Hb ?]. split.
      * intros [= <- <-]. right. split; [done|]. exists a, b. split_and!; try done. right. eauto.
      * intros [(? & _)|(_ & a' & b' & [(? & ? & _)|(? & ? & [= <- <-] & ? & ?)] & ? & ? & -> & ->)];
          congruence.
  - split; [done|]. intros [(? & _)|(_ & a & b & Hr & ? & ? & _)]; [done|]. exfalso.
    assert (exists l, mapM (parse_bound name v) (Split v x2d) = Ok l) as [l Hl]; [|congruence].
    destruct Hr as [(p & E & Ha & ->)|(p & q & E & Ha & Hb)]; rewrite E; simpl.
    + by rewrite (proj2 (parse_bound_Ok name v p a)) by done; eauto.
    + rewrite (proj2 (parse_bound_Ok name v p a)), (proj2 (parse_bound_Ok name v q b)) by done.
      eauto.
Qed.

Lemma parseNoiseRange_bounds value name df dt limit f t :
  0 <= df <= dt -> dt <= limit ->
  parseNoiseRange value name df dt limit = Ok (f, t) -> 0 <= f <= t /\ t <= limit.
Proof.
  intros Hd Hl E. apply parseNoiseRange_spec_lem in E.
  destruct E as [(_ & -> & ->)|(_ & a & b & _ & ? & ? & -> & ->)]; lia.
Qed.

(** Decimal digits are ASCII, and neither white space nor a separator. *)
Lemma digit_not_space b : in_range 0x30 0x39 b = true -> IsSpace (bZ b) = false /\ bZ b < 0x80.
Proof. destruct b; vm_compute; try discriminate; done. Qed.

Lemma TrimSpace_digits s :
  Forall (fun b => in_range 0x30 0x39 b = true) s -> TrimSpace s = s.
Proof.
  intros Hs. rewrite Forall_forall in Hs. apply TrimSpace_id.
  - apply Forall_forall. intros b Hb. by apply digit_not_space, Hs.
  - intros b Hb. apply digit_not_space, Hs. destruct s; simplify_eq/=. set_solver.
  - intros b Hb. apply digit_not_space, Hs. apply last_Some_elem_of in Hb. done.
Qed.

Lemma digits_no_dash s : Forall (fun b => in_range 0x30 0x39 b = true) s -> x2d ∉ s.
Proof. intros Hs Hin. rewrite Forall_forall in Hs. by apply Hs in Hin. Qed.

Lemma TrimSpace_range s t :
  s <> [] -> t <> [] ->
  Forall (fun b => in_range 0x30 0x39 b = true) s ->
  Forall (fun b => in_range 0x30 0x39 b = true) t ->
  TrimSpace (s ++ x2d :: t) = s ++ x2d :: t.
Proof.
  intros Hs Ht Fs Ft. rewrite Forall_forall in Fs, Ft. apply TrimSpace_id.
  - apply Forall_forall. intros b. rewrite elem_of_app, elem_of_cons.
    intros [Hb|[->|Hb]]; [by apply digit_not_space, Fs|done|by apply digit_not_space, Ft].
  - intros b Hb. apply digit_not_space, Fs. destruct s; simplify_eq/=. set_solver.
  - intros b Hb. apply digit_not_space, Ft.
    rewrite last_app_cons, last_cons in Hb. destruct (last t) eqn:El.
    + simplify_eq. by apply last_Some_elem_of.
    + by apply last_None in El.
Qed.

Lemma Itoa_ne n : Itoa n <> [].
Proof. destruct (Itoa_nonempty n) as (b & r & ->). by destruct r. Qed.

Lemma noise_config_wf_lem o r :
  noise_config o = Ok r ->
  match r with
  | None => normalised (WNoise o) ∈ ([("" : gostr); noiseNone])
  | Some n => noise_wf n /\ normalised (WNoise o) ∉ ([("" : gostr); noiseNone]) /\
    (nc_mode n = normalised (WNoise o) \/
     exists h, nc_header n = Some h /\ hex_decode (normalised (WNoise o)) = Some h)
  end.
Proof.
  unfold noise_config. intros E.
  apply res_bind_Ok in E as ([cf ct] & Ec & E).
  apply res_bind_Ok in E as ([df dt] & Ed & E).
  apply res_bind_Ok in E as ([sf st] & Es & E).
  apply parseNoiseRange_bounds in Ec, Ed, Es; try by unfold noiseMaxCount, noiseMaxDelayMs, noiseMaxPayload.
  case_match eqn:E1; simplify_eq; bools; [done|].
  case_match eqn:E2; simplify_eq; bools.
  { split_and!; [|done|by left]. split; simpl; try done. by left. }
  repeat (case_match; simplify_eq). split_and!; [|done|].
  - split; simpl; try done. right. split; [done|]. eexists. split; [done|].
    rewrite Nat.eqb_neq in *. rewrite Nat.ltb_ge in *. lia.
  - right. eauto.
Qed.

End ParseLemmas.

(** ** Lemmas: datagrams *)

Lemma wp_noiseRand w h lo hi Q :
  world_ok w ->
  (forall t v, quiet t -> Z.min lo hi <= v <= Z.max lo hi -> Q t v) ->
  wp (noiseRand lo hi) w h Q.
Proof.
  intros Hw HQ. unfold noiseRand.
  destruct (if hi <? lo then (hi, lo) else (lo, hi)) as [a b] eqn:E.
  assert (a = Z.min lo hi /\ b = Z.max lo hi) as [-> ->].
  { destruct (hi <? lo) eqn:El; bools; simplify_eq; lia. }
  clear E. case_match; bools; [apply wp_ret, HQ; [constructor|lia]|].
  unfold rand_int. wp_step. apply wp_ret. apply HQ; [by repeat constructor|].
  destruct a as [n|]; [|lia]. symmetry in Ea. apply randint_range in Ea; [lia|done].
Qed.

Lemma init_first b : 192 <= bZ (Zb (Z.lor 0xC0 (Z.land (bZ b) 0x0F))) <= 207.
Proof.
  change 0xC0 with (Z.shiftl 12 4). change 0x0F with (Z.ones 4).
  rewrite Z.land_ones, lor_shiftl_add, Z.shiftl_mul_pow2 by (try divlia).
  rewrite bZ_Zb. pose proof (bZ_range b). divlia.
Qed.

Lemma quicInitPacket_ok w h :
  world_ok w ->
  wp quicInitPacket w h (fun t r => quiet t /\
    match r with Some p => initial_datagram p | None => starved t end).
Proof.
  intros Hw. unfold quicInitPacket, rand_read. wp_step. destruct a as [p|e]; apply wp_ret;
    (split; [by repeat constructor|]); [|by repeat constructor].
  symmetry in Ea. apply rand_length in Ea; [|done]. unfold quicInitSize in Ea.
  apply (f_equal Z.of_nat) in Ea. change (Z.of_nat 1200) with 1200 in Ea.
  do 26 (destruct p as [|? p]; [simpl in Ea; lia|]).
  assert (Z.of_nat (length p) = 1174) as Hlen by (cbn [length] in Ea; lia).
  cbn [list_lookup lookup default].
  set (f := Zb _). pose proof (init_first b : 192 <= bZ f <= 207) as Hf. clearbody f.
  eexists {| lh_first := f; lh_dcid := [_; _; _; _; _; _; _; _]; lh_scid := [_; _; _; _; _; _; _; _] |}.
  split; [reflexivity|]. cbn [lh_first lh_version lh_dcid lh_scid lh_token lh_length lh_rest].
  split_and!; try done; try lia. apply Nat2Z.inj. exact Ea.
Qed.

Lemma quicNoiseHeader_ok w h version :
  world_ok w -> length version = 4%nat ->
  wp (quicNoiseHeader version) w h
     (fun t r => quiet t /\ match r with Some hd => pseudo_header version hd | None => starved t end).
Proof.
  intros Hw Hv. unfold quicNoiseHeader, rand_read. wp_step.
  destruct a as [dcid|e]; [|apply wp_ret; by split; repeat constructor].
  symmetry in Ea. apply rand_length in Ea; [|done].
  apply wp_bind, wp_noiseRand; [done|]. intros t i Ht Hi. apply wp_ret.
  split; [constructor; [done|]; rewrite app_nil_r; exact Ht|].
  change (length clist) with 8%nat in Hi.
  destruct (lookup_lt_is_Some_2 clist (Z.to_nat i)) as [f Hf]; [simpl; lia|].
  rewrite Hf. apply list_elem_of_lookup_2 in Hf.
  do 8 (destruct dcid as [|? dcid]; [done|]). destruct dcid; [|done].
  do 4 (destruct version as [|? version]; [done|]). destruct version; [|done].
  eexists. split; [reflexivity|]. cbn. by split_and!.
Qed.

(** The header of a datagram of the plan. *)
Definition noise_header (n : noiseConfig) (hd : list byte) : Prop :=
  if bool_decide (nc_mode n = noiseQUIC) then pseudo_header quicNoiseVersion2 hd
  else if bool_decide (nc_mode n = noiseQUICv1) then pseudo_header quicNoiseVersion1 hd
  else if bool_decide (nc_mode n = noiseRandom) then length hd = 18%nat
  else nc_header n = Some hd.

Lemma nextHeader_ok w h n :
  world_ok w -> noise_wf n -> nc_mode n <> noiseInit ->
  wp (nextHeader n) w h (fun t r => quiet t /\
    match r with Some hd => noise_header n hd | None => starved t end).
Proof.
  intros Hw Hn Hi. unfold nextHeader, noise_header.
  destruct (bool_decide (nc_mode n = noiseQUIC)) eqn:E1; [by apply quicNoiseHeader_ok|].
  destruct (bool_decide (nc_mode n = noiseQUICv1)) eqn:E2; [by apply quicNoiseHeader_ok|].
  destruct (bool_decide (nc_mode n = noiseRandom)) eqn:E3; bools.
  - unfold rand_read. wp_step. apply wp_ret. split; [by repeat constructor|].
    destruct a as [b|]; [|by repeat constructor]. symmetry in Ea. by apply rand_length in Ea.
  - apply wp_ret. split; [constructor|]. destruct (wf_mode n Hn) as [[Hm _]|(_ & hd & -> & _)]; [|done].
    set_solver.
Qed.

Lemma nextPacket_shape_lem w h n :
  world_ok w -> noise_wf n ->
  wp (nextPacket n) w h (packet_of n).
Proof.
  intros Hw Hn. unfold nextPacket, packet_of, noise_datagram.
  destruct (bool_decide (nc_mode n = noiseInit)) eqn:Ei; bools.
  - apply wp_bind. eapply wp_mono; [by apply quicInitPacket_ok|].
    intros t r [Ht Hr]. apply wp_ret. rewrite app_nil_r. by destruct r.
  - apply wp_bind. eapply wp_mono; [by apply nextHeader_ok|].
    intros t [hd|] [Ht Hr]; [|apply wp_ret; by rewrite app_nil_r].
    apply wp_bind, wp_noiseRand; [done|]. intros t' sz Ht' Hsz.
    pose proof (wf_size n Hn).
    case_match; bools.
    + unfold rand_read. wp_step. apply wp_ret.
      split; [apply quiet_app; [done|]; apply quiet_app; [done|]; by repeat constructor|].
      destruct a as [tl|]; [|by apply starved_app_r, starved_app_r; repeat constructor].
      symmetry in Ea. apply rand_length in Ea; [|done].
      exists hd, tl. split_and!; [done|lia|lia|exact Hr].
    + apply wp_ret. split; [apply quiet_app; [done|]; by rewrite app_nil_r|].
      exists hd, []. rewrite app_nil_r. split_and!; [done|simpl; lia|simpl; lia|exact Hr].
Qed.

(** ** Lemmas: the burst *)

Lemma send_loop_ok w h n pc dst k :
  world_ok w -> noise_wf n ->
  wp (send_loop n pc dst k) w h (fun t r =>
    match r with
    | None => burst n pc dst k t
    | Some _ => exists j t1 t2, (j < k)%nat /\ t = t1 ++ t2 /\ burst n pc dst j t1 /\ burst_end n pc dst t2
    end).
Proof.
  intros Hw Hn. revert h. induction k as [|k IH]; intros h; cbn [send_loop].
  { apply wp_ret. constructor. }
  assert (forall t, burst_end n pc dst t -> exists j t1 t2,
            (j < S k)%nat /\ t = t1 ++ t2 /\ burst n pc dst j t1 /\ burst_end n pc dst t2) as Hend.
  { intros t Ht. exists 0%nat, [], t. split_and!; [lia|done|constructor|done]. }
  apply wp_bind. eapply wp_mono; [by apply nextPacket_shape_lem|].
  intros q [p|e] [Hq Hp]; [|apply wp_ret; rewrite app_nil_r; apply Hend; by constructor].
  unfold write_udp. wp_step.
  destruct a as [e|]; [apply wp_ret; apply Hend; by constructor|].
  apply wp_bind, wp_noiseRand; [done|]. intros q' d Hq' Hd.
  pose proof (wf_delay n Hn).
  assert (forall h', wp (send_loop n pc dst k) w h' (fun t r =>
     match r with
     | None => burst n pc dst (S k) (q ++ EWriteUDP pc p dst None :: q' ++ (if d =? 0 then [] else [EPause d None]) ++ t)
     | Some _ => exists j t1 t2, (j < S k)%nat /\
         q ++ EWriteUDP pc p dst None :: q' ++ (if d =? 0 then [] else [EPause d None]) ++ t = t1 ++ t2 /\
         burst n pc dst j t1 /\ burst_end n pc dst t2
     end)) as Hrest.
  { intros h'. eapply wp_mono; [apply IH|]. intros t [e|].
    - intros (j & t1 & t2 & Hj & -> & Hb & He). eexists (S j), _, t2. split_and!; [lia| | |done].
      2:{ apply (burst_next n pc dst j q p q' d t1); try done. lia. }
      by simplify_list_eq.
    - intros Hb. constructor; try done. lia. }
  destruct (d =? 0) eqn:Ed.
  - eapply wp_mono; [apply Hrest|]. done.
  - unfold pause. wp_step. bools. destruct a as [e|].
    + apply wp_ret. apply Hend. apply (end_ctx n pc dst q p); (done || lia).
    + eapply wp_mono; [apply Hrest|]. done.
Qed.

Lemma send_trace_lem w h n pc dst :
  world_ok w -> noise_wf n -> wp (send n pc dst) w h (sends n pc dst).
Proof.
  intros Hw Hn. unfold send. pose proof (wf_count n Hn).
  apply wp_bind, wp_noiseRand; [done|]. intros q c Hq Hc.
  eapply wp_mono; [by apply send_loop_ok|]. intros t r Hr.
  exists q, (Z.to_nat c), t. split_and!; [done|done|lia|lia|done].
Qed.

Lemma burst_cost n pc dst k t :
  noise_wf n -> burst n pc dst k t ->
  length (sent pc t) = k /\ Forall (fun s => s.2 = dst /\ noise_datagram n s.1) (sent pc t) /\
  0 <= total (omap paused t) <= Z.of_nat k * delayTo n.
Proof.
  intros Hn. pose proof (wf_delay n Hn) as Hd. induction 1 as [|k q p q' d t Hq Hp Hq' Hdd Ht IH].
  { split_and!; try done; constructor. }
  destruct IH as (IHl & IHf & IHt).
  assert (sent pc (if d =? 0 then [] else [EPause d None]) = []) as E1 by by destruct (d =? 0).
  assert (total (omap paused (if d =? 0 then [] else [EPause d None])) = d) as E2.
  { destruct (d =? 0) eqn:E; bools; simpl; lia. }
  assert (forall l1 l2, total (l1 ++ l2) = total l1 + total l2) as Happ.
  { intros l1 l2. induction l1 as [|x l1 IH1]; simpl; [done|]. unfold total in *. lia. }
  change (EWriteUDP pc p dst None :: ?x) with ([EWriteUDP pc p dst None] ++ x).
  rewrite !sent_app, !omap_app, E1, (quiet_sent pc q), (quiet_sent pc q'), (quiet_paused q),
    (quiet_paused q'), !Happ, E2 by done.
  assert (sent pc [EWriteUDP pc p dst None] = [(p, dst)]) as ->.
  { unfold sent. simpl. by rewrite decide_True. }
  cbn [app omap list_omap paused total foldr]. rewrite Nat2Z.inj_succ, Z.mul_succ_l.
  split; [cbn [length]; congruence|]. split; [by constructor|]. simpl. lia.
Qed.

Lemma burst_end_cost n pc dst t :
  burst_end n pc dst t ->
  (length (sent pc t) <= 1)%nat /\ Forall (fun s => s.2 = dst /\ noise_datagram n s.1) (sent pc t) /\
  omap paused t = [].
Proof.
  destruct 1 as [q Hq Hs|q p e Hq Hp|q p q' d e Hq Hp Hq' Hd Hne].
  - rewrite quiet_sent, quiet_paused by done. by split_and!; [simpl; lia|constructor|].
  - rewrite sent_app, omap_app, quiet_sent, quiet_paused by done.
    by split_and!; [simpl; lia|constructor|].
  - change (EWriteUDP pc p dst None :: ?x) with ([EWriteUDP pc p dst None] ++ x).
    rewrite !sent_app, !omap_app, (quiet_sent pc q), (quiet_sent pc q'), (quiet_paused q),
      (quiet_paused q') by done. cbn.
    rewrite decide_True by done. by split_and!; [simpl; lia|repeat constructor|].
Qed.

Lemma send_cost_lem w h n pc dst :
  world_ok w -> noise_wf n -> wp (send n pc dst) w h (fun t _ => send_bounded n pc dst t).
Proof.
  intros Hw Hn. pose proof (wf_count n Hn) as [? Hc]. pose proof (wf_delay n Hn) as [? Hd].
  unfold noiseMaxCount, noiseMaxDelayMs in *.
  eapply wp_mono; [by apply send_trace_lem|]. intros t r (q & k & t' & Hq & -> & Hk & Hr).
  unfold send_bounded.
  rewrite sent_app, omap_app, quiet_sent, quiet_paused by done. cbn [app].
  destruct r as [e|].
  - destruct Hr as (j & t1 & t2 & Hj & -> & Hb & He).
    apply burst_cost in Hb as (L1 & F1 & P1); [|done]. apply burst_end_cost in He as (L2 & F2 & P2).
    rewrite sent_app, omap_app, P2, app_nil_r, length_app. split_and!; [lia|by apply Forall_app|lia|nia].
  - apply burst_cost in Hr as (L1 & F1 & P1); [|done]. split_and!; [lia|done|lia|nia].
Qed.

(** ** Properties *)

Section Properties.
Context `{XrayLib} `{Unicode} `{IntWidth}.

(** [parseNoiseRange] accepts exactly an empty text, which means the
    defaults, or one or two non-negative integers of the platform's [int]
    separated by a dash; the result is the ordered pair, each end clamped to the
    limit. *)
Theorem parseNoiseRange_spec value name df dt limit f t :
  parseNoiseRange value name df dt limit = Ok (f, t) <->
  TrimSpace value = [] /\ f = df /\ t = dt \/
  TrimSpace value <> [] /\ exists a b, range_text (TrimSpace value) a b /\
    0 <= a /\ 0 <= b /\
    f = Z.min (Z.min a b) limit /\ t = Z.min (Z.max a b) limit.
Proof. apply parseNoiseRange_spec_lem. Qed.

(** a range printed as [from-to] in decimal is read back, in either order of
    its ends, up to the limit. *)
Theorem parseNoiseRange_print a b name df dt limit :
  0 <= a <= int_max -> 0 <= b <= int_max ->
  parseNoiseRange (Itoa a ++ ("-" : gostr) ++ Itoa b) name df dt limit =
    Ok (Z.min (Z.min a b) limit, Z.min (Z.max a b) limit).
Proof.
  intros Ha Hb. apply parseNoiseRange_spec_lem. right.
  change (("-" : gostr) ++ Itoa b) with (x2d :: Itoa b).
  rewrite TrimSpace_range by (apply Itoa_ne || apply Itoa_digits; lia).
  split; [pose proof (Itoa_ne a); by destruct (Itoa a)|].
  exists a, b. split_and!; try done; try lia. right. exists (Itoa a), (Itoa b).
  rewrite !TrimSpace_digits, !Atoi_Itoa by (done || apply Itoa_digits; lia).
  rewrite Split_app by (apply digits_no_dash, Itoa_digits; lia).
  by rewrite Split_single by (apply digits_no_dash, Itoa_digits; lia).
Qed.

(** C37: whatever the options say, a plan that [noiseConfig] returns respects the
    documented caps (50 datagrams, 100 ms, 100 bytes, a header of 1 to 50 bytes),
    has ordered bounds, and is absent exactly when the mode is empty or [none];
    an unknown mode is the header it spells in hex. *)
Theorem noise_config_wf o r :
  noise_config o = Ok r ->
  match r with
  | None => normalised (WNoise o) ∈ ([("" : gostr); noiseNone])
  | Some n => noise_wf n /\ normalised (WNoise o) ∉ ([("" : gostr); noiseNone]) /\
    (nc_mode n = normalised (WNoise o) \/
     exists h, nc_header n = Some h /\ hex_decode (normalised (WNoise o)) = Some h)
  end.
Proof. apply noise_config_wf_lem. Qed.

End Properties.

(** Every datagram [nextPacket] builds parses as the packet its preset
    promises: the [quic] presets as a QUIC long header with the right version and
    an 8-byte destination ID, [quicinit] as a 1200-byte Initial, [random] as 18
    bytes, a hex preset as its header, followed by a payload within the size
    bounds; it fails only when the entropy source does. *)
Theorem nextPacket_shape w h n :
  world_ok w -> noise_wf n -> wp (nextPacket n) w h (packet_of n).
Proof. apply nextPacket_shape_lem. Qed.

(** C11: [send] performs a burst: it draws a count within the bounds, and the
    events that follow are that many rounds of one datagram of the plan and one
    pause of the configured length; when it returns an error it stopped after
    fewer rounds, at a failed write, an empty entropy source, or the end of the
    context. *)
Theorem send_trace w h n pc dst :
  world_ok w -> noise_wf n -> wp (send n pc dst) w h (sends n pc dst).
Proof. apply send_trace_lem. Qed.

(** C35: the noise a validated plan can cost: never more than fifty datagrams,
    every one of them addressed to the peer and of the plan, and never more than
    five seconds of pauses, also when the burst fails. *)
Theorem send_cost w h n pc dst :
  world_ok w -> noise_wf n -> wp (send n pc dst) w h (fun t _ => send_bounded n pc dst t).
Proof. apply send_cost_lem. Qed.

(** ** Witnesses *)

Definition sample_noise (mode : gostr) : noiseConfig := {|
  nc_mode := mode; nc_header := None; countFrom := 2; countTo := 3;
  delayFrom := 0; delayTo := 7; sizeFrom := 5; sizeTo := 10
|}.

Definition noise_options : @transportOptions sample_lib := {|
  Proxy := ""; IP := ""; Timeout := 0; AllowInsecure := false; ServerName := "";
  DisableChromeParrot := false; ALPN := "h3"; QUICVersion := "v1"; WNoise := " QUIC ";
  WNoiseCount := "8-3"; WNoiseDelay := "500"; WPayloadSize := ""; Fingerprint := "";
  Fragment := None; Ech := None; Browser := ""; Variant := ""; UserAgent := "";
  Headers := ∅
|}.

Lemma sample_noise_wf mode :
  mode ∈ ([noiseQUIC; noiseQUICv1; noiseRandom; noiseInit]) -> noise_wf (sample_noise mode).
Proof. intros Hm. split; [..|by left]; vm_compute; intuition congruence. Qed.

Lemma parseNoiseRange_print_witness :
  @parseNoiseRange arm_int "30-4" "wnoisecount" 5 5 noiseMaxCount = Ok (4, 30).
Proof.
  apply (@parseNoiseRange_print arm_int 30 4 "wnoisecount" 5 5 noiseMaxCount);
    vm_compute; intuition congruence.
Defined.

Lemma noise_config_wf_witness :
  exists n, @noise_config sample_lib ascii_unicode arm64_int noise_options = Ok (Some n) /\
    noise_wf n /\ countFrom n = 3 /\ countTo n = 8 /\ delayTo n = 100.
Proof.
  eexists. split; [vm_compute; reflexivity|]. split_and!; [|reflexivity..].
  apply (@noise_config_wf sample_lib ascii_unicode arm64_int noise_options (Some _)).
  vm_compute. reflexivity.
Defined.

Lemma nextPacket_shape_witness :
  wp (nextPacket (sample_noise noiseQUIC)) sample_world [] (packet_of (sample_noise noiseQUIC)) /\
  is_Ok (nextPacket (sample_noise noiseQUIC) sample_world []).2 = true.
Proof.
  split; [|vm_compute; reflexivity].
  apply nextPacket_shape; [apply world_answering_ok|apply sample_noise_wf; set_solver].
Defined.

Lemma send_trace_witness :
  wp (send (sample_noise noiseInit) 0%nat sample_addr) sample_world []
     (sends (sample_noise noiseInit) 0%nat sample_addr).
Proof. apply send_trace; [apply world_answering_ok|apply sample_noise_wf; set_solver]. Defined.

Lemma send_cost_witness :
  wp (send (sample_noise noiseRandom) 0%nat sample_addr) sample_world []
     (fun t _ => send_bounded (sample_noise noiseRandom) 0%nat sample_addr t) /\
  length (sent 0%nat (send (sample_noise noiseRandom) 0%nat sample_addr sample_world []).1) = 2%nat.
Proof.
  split; [|vm_compute; reflexivity].
  apply send_cost; [apply world_answering_ok|apply sample_noise_wf; set_solver].
Defined.
