(* ===== verification/EchConfig.v ===== *)
(** * ECH configurations ([libv2ray_fetch_probe.go])

    The probe specification, the bogus ECHConfigList a probe offers, the framing
    check on the one it gets back, and the recognition of a rejection. *)

From S2P Require Import Prelude GoString GoCodec GoNet Xray World.
Open Scope Z_scope.

Definition echProbeScheme : gostr := "probe".
Definition echProbeDefaultName : gostr := "cloudflare-ech.com".
Definition echProbeDefaultPort : gostr := "443".
Definition echProbeTTL : Z := 1800.
Definition echProbeTimeout : Z := 12 * 1000000000.

Definition echConfigVersion : Z := 0xfe0d.
Definition echKemX25519 : Z := 0x0020.
Definition echKdfSHA256 : Z := 0x0001.
Definition echAeadAES128 : Z := 0x0001.
Definition echX25519KeyLen : nat := 32.

(** ** The probe specification *)

Section Probe.
Context `{Unicode}.

(** The specification without its optional scheme. *)
Definition strip_scheme (s : gostr) : gostr :=
  if EqualFold s echProbeScheme then []
  else if HasPrefix (ToLower s) (echProbeScheme ++ ("://" : gostr))
  then TrimSpace (drop (length echProbeScheme + 3) s)
  else s.

Definition parseECHProbe (s : gostr) : res (gostr * gostr) :=
  let s := strip_scheme (TrimSpace s) in
  let '(s, hostPort) :=
    match LastIndexByte s x40 with
    | Some at_ => (TrimSpace (take at_ s), TrimSpace (drop (S at_) s))
    | None => (s, [])
    end in
  let publicName := if bool_decide (s = []) then echProbeDefaultName else s in
  if ContainsAny publicName ":/ "
  then Err (Errorf "ECH probe public name %q must be a bare domain" [AStr publicName] None)
  else
    let l := length publicName in
    if (l =? 0)%nat || (255 <? l)%nat
    then Err (Errorf "ECH probe public name has invalid length: %d" [AInt (Z.of_nat l)] None)
    else
      let hostPort :=
        if bool_decide (hostPort = []) then JoinHostPort publicName echProbeDefaultPort
        else match SplitHostPort hostPort with
             | inl _ => JoinHostPort hostPort echProbeDefaultPort
             | inr _ => hostPort
             end in
      Ok (publicName, hostPort).

End Probe.

(** ** The bogus configuration *)

Definition bogusECHConfigList `{Cryptobyte} (publicName : gostr) : M (res (list byte)) :=
  let l := length publicName in
  if (l =? 0)%nat || (255 <? l)%nat
  then mret (Err (Errorf "ECH probe public name has invalid length: %d" [AInt (Z.of_nat l)] None))
  else
    key ←? rand_read echX25519KeyLen;
    configID ←? rand_read 1;
    mret (Builder_Bytes
      (AddUint16LengthPrefixed (fun list =>
         AddUint16LengthPrefixed (fun cfg =>
           AddUint16LengthPrefixed (fun ext => ext)
             (AddUint8LengthPrefixed (fun n => AddBytes publicName n)
               (AddUint8 0
                 (AddUint16LengthPrefixed (fun cs => AddUint16 echAeadAES128 (AddUint16 echKdfSHA256 cs))
                   (AddUint16LengthPrefixed (fun pk => AddBytes key pk)
                     (AddUint16 echKemX25519
                       (AddUint8 (bZ (default x00 (configID !! 0%nat))) cfg)))))))
           (AddUint16 echConfigVersion list))
        NewBuilder)).

(** ** The framing check *)

(** The loop over the configurations of a list; every round consumes at least
    four bytes, so the length of the input is enough [fuel]. *)
Fixpoint looks_loop (fuel : nat) (s : list byte) (configs : nat) : bool :=
  match fuel with
  | O => false
  | S f =>
    match s with
    | [] => (0 <? configs)%nat
    | _ =>
      if (length s <? 4)%nat then false
      else
        let len := be_Uint16 (drop 2 (take 4 s)) in
        if Z.of_nat (length s) <? 4 + len then false
        else looks_loop f (drop (Z.to_nat (4 + len)) s) (S configs)
    end
  end.

Definition looksLikeECHConfigList (b : list byte) : bool :=
  if (length b <? 2)%nat || negb (be_Uint16 (take 2 b) =? Z.of_nat (length b) - 2) then false
  else looks_loop (S (length b)) (drop 2 b) 0.

(** ** Rejections *)

Definition echRejected (err : error) : bool :=
  if errors_has (is_ECHRejectionError GoTLS) err then true
  else if errors_has (is_ECHRejectionError UTLS) err then true
  else errors_has (is_CertificateVerificationError GoTLS) err
       || errors_has (is_CertificateVerificationError UTLS) err.

(** ** The wire format, as a specification

    An ECHConfigList is a 16-bit length and that many bytes of configurations,
    each a 16-bit version, a 16-bit length and that many bytes. *)

Record raw_config := { rc_version : list byte; rc_contents : list byte }.

Definition config_ok (c : raw_config) : Prop :=
  length (rc_version c) = 2%nat /\ Z.of_nat (length (rc_contents c)) < 65536.

Definition config_bytes (c : raw_config) : list byte :=
  rc_version c ++ be_put16 (Z.of_nat (length (rc_contents c))) ++ rc_contents c.

Definition config_list_bytes (cs : list raw_config) : list byte :=
  let body := mjoin (map config_bytes cs) in be_put16 (Z.of_nat (length body)) ++ body.

Definition well_framed (b : list byte) : Prop :=
  exists cs, cs <> [] /\ Forall config_ok cs /\ b = config_list_bytes cs /\
    Z.of_nat (length b) - 2 < 65536.

(** The contents of the configuration a probe offers: config id, KEM, public
    key, one cipher suite, maximum name length, public name, no extensions. *)
Definition bogus_contents (id : byte) (key : list byte) (name : gostr) : list byte :=
  [id] ++ [x00; x20] ++ [x00; x20] ++ key ++ [x00; x04; x00; x01; x00; x01] ++ [x00]
  ++ [Zb (Z.of_nat (length name))] ++ name ++ [x00; x00].

(** What a probe gets from [bogusECHConfigList]: one configuration of the ECH
    draft's version under a fresh 32-byte key, or an error for a name that cannot
    be carried or for a failed entropy source. *)
Definition bogus_result (name : gostr) (t : list event) (r : res (list byte)) : Prop :=
  match r with
  | Ok b => (1 <= length name <= 255)%nat /\ looksLikeECHConfigList b = true /\
      exists id key, length key = 32%nat /\
        b = config_list_bytes [{| rc_version := [xfe; x0d]; rc_contents := bogus_contents id key name |}]
  | Err _ => ~ (1 <= length name <= 255)%nat \/ starved t
  end.

(** ** Lemmas: framing *)

Lemma config_bytes_len c :
  length (rc_version c) = 2%nat -> length (config_bytes c) = (4 + length (rc_contents c))%nat.
Proof. intros Hv. unfold config_bytes. rewrite !length_app. simpl. lia. Qed.

Lemma config_bytes_cut c rest :
  config_ok c ->
  let s := config_bytes c ++ rest in
  be_Uint16 (drop 2 (take 4 s)) = Z.of_nat (length (rc_contents c)) /\
  drop (Z.to_nat (4 + Z.of_nat (length (rc_contents c)))) s = rest.
Proof.
  intros [Hv Hl] s. unfold s. split.
  - unfold config_bytes. destruct (rc_version c) as [|v0 [|v1 [|]]]; try done.
    apply (be_Uint16_put _ []). lia.
  - rewrite drop_app_length'; [done|]. rewrite config_bytes_len by done. lia.
Qed.

Lemma config_split s :
  (4 <= length s)%nat ->
  let len := be_Uint16 (drop 2 (take 4 s)) in
  4 + len <= Z.of_nat (length s) ->
  exists c, config_ok c /\ s = config_bytes c ++ drop (Z.to_nat (4 + len)) s.
Proof.
  intros H4 len Hlen. pose proof (be_Uint16_range (drop 2 (take 4 s))) as Hr. fold len in Hr.
  destruct s as [|v0 [|v1 [|l0 [|l1 s]]]]; try (simpl in H4; lia).
  exists {| rc_version := [v0; v1]; rc_contents := take (Z.to_nat len) s |}.
  assert (Z.of_nat (length (take (Z.to_nat len) s)) = len) as El.
  { rewrite length_take. simpl in Hlen. lia. }
  split; [split; [done|simpl; lia]|].
  unfold config_bytes. cbn [rc_version rc_contents app]. rewrite El.
  assert (be_put16 len = [l0; l1]) as ->.
  { unfold len, be_put16. simpl. pose proof (bZ_range l0). pose proof (bZ_range l1).
    f_equal; [|f_equal]; apply (inj bZ); rewrite bZ_Zb; divlia. }
  replace (Z.to_nat (4 + len)) with (4 + Z.to_nat len)%nat by lia.
  cbn [app drop skipn Nat.add]. do 4 f_equal. by rewrite take_drop.
Qed.

Lemma looks_loop_spec fuel s k :
  (length s < fuel)%nat ->
  looks_loop fuel s k = true <->
  exists cs, Forall config_ok cs /\ s = mjoin (map config_bytes cs) /\ (0 < k + length cs)%nat.
Proof.
  revert s k. induction fuel as [|f IH]; intros s k Hf; [lia|]. cbn [looks_loop].
  destruct s as [|b s']; [|set (s := b :: s') in *].
  - rewrite Nat.ltb_lt. split.
    + intros Hk. exists []. split_and!; [constructor|done|simpl; lia].
    + intros ([|c cs] & Hcs & E & Hk); [simpl in Hk; lia|].
      apply Forall_cons in Hcs as [[Hv _] _]. apply (f_equal length) in E.
      simpl in E. rewrite length_app, config_bytes_len in E by done. simpl in E. lia.
  - destruct (length s <? 4)%nat eqn:E4.
    { apply Nat.ltb_lt in E4. split; [done|].
      intros ([|c cs] & Hcs & E & Hk); [done|]. exfalso.
      apply Forall_cons in Hcs as [[Hv _] _]. apply (f_equal length) in E.
      simpl in E, E4. rewrite length_app, config_bytes_len in E by done. lia. }
    apply Nat.ltb_ge in E4.
    destruct (_ <? _) eqn:El; bools.
    { split; [done|]. intros ([|c cs] & Hcs & E & Hk); [done|]. exfalso.
      apply Forall_cons in Hcs as [Hc _]. simpl in E.
      destruct (config_bytes_cut c (mjoin (map config_bytes cs)) Hc) as [Eu _].
      rewrite <-E in Eu. rewrite Eu in El. rewrite E, length_app, config_bytes_len in El by apply Hc.
      lia. }
    pose proof (be_Uint16_range (drop 2 (take 4 s))) as Hr.
    rewrite IH by (rewrite length_drop; simpl in *; lia). split.
    + intros (cs & Hcs & E & Hk). destruct (config_split s E4 El) as (c & Hc & Es).
      exists (c :: cs). split_and!; [by constructor|by rewrite Es, E at 1|simpl; lia].
    + intros ([|c cs] & Hcs & E & Hk); [done|].
      apply Forall_cons in Hcs as [Hc Hcs]. simpl in E.
      destruct (config_bytes_cut c (mjoin (map config_bytes cs)) Hc) as [Eu Ed].
      rewrite <-E in Eu, Ed. exists cs. rewrite Eu, Ed. split_and!; [done|done|lia].
Qed.

Lemma looksLikeECHConfigList_spec_lem b :
  looksLikeECHConfigList b = true <-> well_framed b.
Proof.
  unfold looksLikeECHConfigList, well_framed.
  destruct (length b <? 2)%nat eqn:E2; cbn [orb].
  { apply Nat.ltb_lt in E2. split; [done|]. intros (cs & _ & _ & -> & _).
    unfold config_list_bytes in E2. rewrite length_app in E2. simpl in E2. lia. }
  apply Nat.ltb_ge in E2. destruct b as [|l0 [|l1 s]]; try (simpl in E2; lia).
  change (take 2 (l0 :: l1 :: s)) with [l0; l1]. change (drop 2 (l0 :: l1 :: s)) with s.
  pose proof (be_Uint16_range [l0; l1]) as Hr.
  destruct (_ =? _) eqn:El; cbn [negb]; bools.
  - rewrite looks_loop_spec by (cbn [length]; lia). split.
    + intros (cs & Hcs & -> & Hk). exists cs. split_and!; [by destruct cs; simpl in *; [lia|]|done| |lia].
      unfold config_list_bytes. set (body := mjoin _) in *.
      change (l0 :: l1 :: body) with ([l0; l1] ++ body). f_equal.
      cbn [length] in El. assert (Z.of_nat (length body) = be_Uint16 [l0; l1]) as -> by lia.
      unfold be_put16. simpl. pose proof (bZ_range l0). pose proof (bZ_range l1).
      f_equal; [|f_equal]; apply (inj bZ); rewrite bZ_Zb; divlia.
    + intros (cs & Hne & Hcs & E & _). unfold config_list_bytes in E.
      exists cs. split_and!; [done|by simplify_eq/=|destruct cs; simpl; [done|lia]].
  - split; [done|]. intros (cs & Hne & Hcs & E & Hl). exfalso. apply El.
    unfold config_list_bytes in E. set (body := mjoin _) in *.
    assert ([l0; l1] = be_put16 (Z.of_nat (length body)) /\ s = body) as [E1 ->] by by simplify_eq/=.
    rewrite E1. rewrite <-(app_nil_r (be_put16 _)), be_Uint16_put; simpl in *; lia.
Qed.

(** ** Lemmas: the bogus configuration *)

(** Evaluate a builder expression inside out; the length conditions of the
    prefixes are left for last. *)
Ltac build :=
  repeat first
    [ apply Bytes_New | eapply Bytes_Uint8 | eapply Bytes_Uint16 | eapply Bytes_Bytes
    | eapply Bytes_Prefixed8 | eapply Bytes_Prefixed16 ].

Lemma bogus_contents_assoc id key (name : gostr) :
  length key = echX25519KeyLen ->
  ((((((([] ++ [Zb (bZ id)]) ++ be_put16 echKemX25519) ++
        be_put16 (Z.of_nat (length ([] ++ key))) ++ [] ++ key) ++
       be_put16 (Z.of_nat (length (([] ++ be_put16 echKdfSHA256) ++ be_put16 echAeadAES128))) ++
       ([] ++ be_put16 echKdfSHA256) ++ be_put16 echAeadAES128) ++ [Zb 0]) ++
     [Zb (Z.of_nat (length ([] ++ name)))] ++ [] ++ name) ++
    be_put16 (Z.of_nat (length (A := byte) [])) ++ []) = bogus_contents id key name.
Proof.
  intros Hk. rewrite <-!app_assoc, Zb_bZ, !app_nil_l, Hk. reflexivity.
Qed.

Lemma bogus_contents_length id key name :
  length key = echX25519KeyLen -> length (bogus_contents id key name) = (47 + length name)%nat.
Proof.
  intros Hk. unfold bogus_contents. rewrite !length_app, Hk.
  cbn [length]. unfold echX25519KeyLen. lia.
Qed.

Lemma bogus_bytes `{CryptobyteLaws} id key (name : gostr) :
  length key = echX25519KeyLen -> (length name <= 255)%nat ->
  Builder_Bytes
    (AddUint16LengthPrefixed (fun list =>
       AddUint16LengthPrefixed (fun cfg =>
         AddUint16LengthPrefixed (fun ext => ext)
           (AddUint8LengthPrefixed (fun n => AddBytes name n)
             (AddUint8 0
               (AddUint16LengthPrefixed (fun cs => AddUint16 echAeadAES128 (AddUint16 echKdfSHA256 cs))
                 (AddUint16LengthPrefixed (fun pk => AddBytes key pk)
                   (AddUint16 echKemX25519 (AddUint8 (bZ id) cfg)))))))
         (AddUint16 echConfigVersion list))
      NewBuilder) =
  Ok (config_list_bytes [{| rc_version := [xfe; x0d]; rc_contents := bogus_contents id key name |}]).
Proof.
  intros Hk Hn. eapply (eq_trans (y := Ok _)); [build|]; try (simpl; lia).
  - simpl. rewrite Hk. unfold echX25519KeyLen. lia.
  - rewrite bogus_contents_assoc, bogus_contents_length by done. lia.
  - rewrite bogus_contents_assoc by done. rewrite !length_app, bogus_contents_length by done.
    cbn [length be_put16]. lia.
  - rewrite !bogus_contents_assoc by done. unfold config_list_bytes, config_bytes.
    cbn [map mjoin list_join rc_version rc_contents]. by rewrite app_nil_r, !app_nil_l.
Qed.

(** ** Lemmas: the probe specification *)

Section ProbeLemmas.
Context `{Unicode}.

Lemma elem_of_strip x s : x ∈ strip_scheme s -> x ∈ s.
Proof.
  unfold strip_scheme. repeat case_match; [by intros ?%elem_of_nil| |done].
  intros Hx%elem_of_TrimSpace. rewrite <-(take_drop (length echProbeScheme + 3) s).
  apply elem_of_app. by right.
Qed.

Lemma SplitHostPort_default n :
  x5b ∉ n -> x5d ∉ n -> SplitHostPort (JoinHostPort n echProbeDefaultPort) = inr (n, echProbeDefaultPort).
Proof.
  intros. apply Split_Join_HostPort; try done; unfold echProbeDefaultPort;
    by apply (bool_decide_unpack _).
Qed.

(** A bare domain, as the left half of a specification, and a dial target as
    written: ASCII text that does not begin or end with white space. *)
Record trimmed (s : gostr) : Prop := {
  trimmed_ascii : is_ascii s;
  trimmed_ne : s <> [];
  trimmed_head : forall b, head s = Some b -> IsSpace (bZ b) = false;
  trimmed_last : forall b, last s = Some b -> IsSpace (bZ b) = false
}.

Record bare_name (n : gostr) : Prop := {
  bare_trimmed : trimmed n;
  bare_chars : Forall (.∉ [x3a; x2f; x20; x40]) n;
  bare_len : (length n <= 255)%nat;
  bare_word : map lower_byte n <> echProbeScheme
}.

Record target_text (a : gostr) : Prop := {
  target_trimmed : trimmed a;
  target_at : x40 ∉ a
}.

Definition probe_target (a : gostr) : gostr :=
  match SplitHostPort a with
  | inl _ => JoinHostPort a echProbeDefaultPort
  | inr _ => a
  end.

(** The scheme in any letter case, or no scheme at all. *)
Definition scheme_text (p : gostr) : Prop :=
  p = [] \/ map lower_byte p = echProbeScheme ++ ("://" : gostr).

Lemma trimmed_id s : trimmed s -> TrimSpace s = s.
Proof. intros [? _ ? ?]. by apply TrimSpace_id. Qed.

Lemma trimmed_app s t : trimmed s -> trimmed t -> trimmed (s ++ t).
Proof.
  intros [As Ns Hs Ls] [At Nt Ht Lt]. split.
  - by apply Forall_app.
  - by destruct s.
  - intros b. destruct s; [done|]. by apply Hs.
  - intros b. rewrite last_app. destruct (last t) eqn:E; [by intros; apply Lt; congruence|].
    by apply last_None in E.
Qed.

Lemma trimmed_at : trimmed [x40].
Proof. split; [by repeat constructor|done|by intros b [= <-]|by intros b [= <-]]. Qed.

Lemma lower_ascii_inv b : bZ (lower_byte b) < 0x80 -> bZ b < 0x80.
Proof.
  unfold lower_byte, upper_ascii. case_match; [|done]. bools. lia.
Qed.

Lemma scheme_trimmed p t : scheme_text p -> trimmed t -> trimmed (p ++ t).
Proof.
  intros [->|Ep]; [done|]. intros Ht. apply trimmed_app; [|done].
  assert (forall b, b ∈ p -> lower_byte b ∈ (echProbeScheme ++ ("://" : gostr))) as Hb.
  { intros b Hb. rewrite <-Ep. apply list_elem_of_fmap. eauto. }
  assert (forall b, b ∈ p -> bZ b < 0x80 /\ IsSpace (bZ b) = false) as Hsp.
  { intros b Hb'. apply Hb in Hb'. revert Hb'. destruct b; vm_compute; intros Hb';
      first [done | exfalso; repeat (apply elem_of_cons in Hb' as [Hb'|Hb']; [discriminate|]);
                    by apply elem_of_nil in Hb']. }
  split.
  - apply Forall_forall. intros b Hb'. by apply Hsp.
  - by intros ->.
  - intros b Hh. apply Hsp. destruct p; simplify_eq/=. set_solver.
  - intros b Hl. apply Hsp. by apply last_Some_elem_of.
Qed.

Lemma strip_spelling p t :
  scheme_text p -> trimmed t -> map lower_byte t <> echProbeScheme ->
  ~ (echProbeScheme ++ ("://" : gostr)) `prefix_of` map lower_byte t ->
  strip_scheme (p ++ t) = t.
Proof.
  intros Hp Ht Hw Hpre. pose proof (trimmed_ascii _ (scheme_trimmed p t Hp Ht)) as Ha.
  unfold strip_scheme, HasPrefix. rewrite ToLower_ascii, EqualFold_ascii by (done || by repeat constructor).
  rewrite map_app. destruct Hp as [->|Ep]; cbn [app map].
  - rewrite bool_decide_false by done. by rewrite bool_decide_false.
  - rewrite Ep. rewrite bool_decide_false.
    2:{ intros E. apply (f_equal length) in E. rewrite !length_app in E. simpl in E. lia. }
    rewrite bool_decide_true by by apply prefix_app_r.
    assert (length p = 8%nat) as Lp.
    { rewrite <-(length_map lower_byte), Ep. done. }
    replace (length echProbeScheme + 3)%nat with (length p) by done.
    rewrite drop_app_length. by apply trimmed_id.
Qed.

(** Text with no colon, or none before its first [@], does not begin with the
    scheme. *)
Lemma bare_no_colon n : Forall (.∉ [x3a; x2f; x20; x40]) n -> x3a ∉ map lower_byte n /\ x3a ∉ n /\ x40 ∉ n.
Proof.
  intros Hn. rewrite Forall_forall in Hn. rewrite elem_of_lower by done.
  split_and!; intros Hx%Hn; set_solver.
Qed.

Lemma no_scheme_bare n :
  Forall (.∉ [x3a; x2f; x20; x40]) n ->
  ~ (echProbeScheme ++ ("://" : gostr)) `prefix_of` map lower_byte n.
Proof.
  intros Hn [k E]. apply bare_no_colon in Hn as [Hn _]. apply Hn. rewrite E.
  rewrite !elem_of_app. left. right. by apply (bool_decide_unpack _).
Qed.

Lemma no_scheme_at n a :
  Forall (.∉ [x3a; x2f; x20; x40]) n ->
  ~ (echProbeScheme ++ ("://" : gostr)) `prefix_of` map lower_byte (n ++ x40 :: a).
Proof.
  intros Hn [k E]. apply bare_no_colon in Hn as [Hn _]. rewrite map_app in E. cbn [map] in E.
  change (lower_byte x40) with x40 in E. apply app_eq_inv in E as [(l & E1 & E2)|(l & E1 & E2)].
  - apply Hn. rewrite E1, !elem_of_app. left. right. by apply (bool_decide_unpack _).
  - destruct l as [|c l].
    + rewrite app_nil_r in E1. apply Hn. rewrite <-E1, elem_of_app. right. by apply (bool_decide_unpack _).
    + cbn [app] in E2. injection E2 as <- E2.
      assert (x40 ∈ (echProbeScheme ++ ("://" : gostr))) as Hx by (rewrite E1; set_solver).
      revert Hx. by apply (bool_decide_unpack _).
Qed.

Lemma name_ok n :
  bare_name n ->
  bool_decide (n = []) = false /\ ContainsAny n ":/ " = false /\
  ((length n =? 0)%nat || (255 <? length n)%nat) = false.
Proof.
  intros [[_ Hne _ _] Hc Hl _]. split_and!.
  - by apply bool_decide_eq_false.
  - apply bool_decide_eq_false. intros (b & Hb & Hin)%Exists_exists. rewrite Forall_forall in Hc.
    apply (Hc b Hb). change (b ∈ [x3a; x2f; x20]) in Hin. set_solver.
  - apply orb_false_iff. rewrite Nat.eqb_neq, Nat.ltb_ge. split; [by destruct n|done].
Qed.

Lemma parseECHProbe_target_lem p n a :
  scheme_text p -> bare_name n -> target_text a ->
  parseECHProbe (p ++ n ++ ("@" : gostr) ++ a) = Ok (n, probe_target a).
Proof.
  intros Hp Hn [Ht Hat]. pose proof Hn as [Hnt Hc _ Hw].
  change (("@" : gostr) ++ a) with ([x40] ++ a).
  assert (trimmed (n ++ [x40] ++ a)) as Htr by (repeat apply trimmed_app; done || apply trimmed_at).
  unfold parseECHProbe. rewrite trimmed_id by by apply scheme_trimmed.
  rewrite strip_spelling; [|done|done| |by apply no_scheme_at].
  2:{ intros E. assert (x40 ∈ map lower_byte (n ++ [x40] ++ a)) as Hx.
      { rewrite elem_of_lower by done. set_solver. }
      rewrite E in Hx. revert Hx. by apply (bool_decide_unpack _). }
  cbn [app]. rewrite LastIndexByte_app by done. rewrite take_app_length.
  replace (drop (S (length n)) (n ++ x40 :: a)) with a.
  2:{ replace (S (length n)) with (length (n ++ [x40])) by (rewrite length_app; simpl; lia).
      replace (n ++ x40 :: a) with ((n ++ [x40]) ++ a) by by simplify_list_eq.
      by rewrite drop_app_length. }
  rewrite !trimmed_id by done. destruct (name_ok n Hn) as (E1 & E2 & E3). rewrite E1, E2, E3.
  rewrite bool_decide_false by apply Ht. done.
Qed.

End ProbeLemmas.

(** ** Properties *)

(** C27: [looksLikeECHConfigList] accepts exactly the byte strings that are a
    non-empty ECHConfigList: a 16-bit length that covers the rest, and inside it
    whole configurations, each a version, a 16-bit length and that many bytes. *)
Theorem looksLikeECHConfigList_spec b : looksLikeECHConfigList b = true <-> well_framed b.
Proof. apply looksLikeECHConfigList_spec_lem. Qed.

(** C33: [bogusECHConfigList] returns an ECHConfigList with exactly one
    configuration, of version 0xfe0d, whose contents are the fields of the ECH
    draft in order (config id, X25519 KEM and a random 32-byte key, one
    HKDF-SHA256/AES-128-GCM suite, the public name, no extensions); the library's
    own framing check accepts it. It fails only for a name that is empty or
    longer than 255 bytes, or without entropy. *)
Theorem bogusECHConfigList_ok `{CryptobyteLaws} w h name :
  world_ok w -> wp (bogusECHConfigList name) w h (bogus_result name).
Proof.
  intros Hw. unfold bogusECHConfigList, bogus_result.
  destruct (_ || _) eqn:E.
  { apply wp_ret. left. apply orb_true_iff in E as [E|E]; [apply Nat.eqb_eq in E|apply Nat.ltb_lt in E]; lia. }
  bools. apply Nat.eqb_neq in H0. apply Nat.ltb_ge in H1.
  wp_step. unfold rand_read at 1. wp_step.
  destruct (w_rand w h echX25519KeyLen) as [key|e] eqn:Ek; [|right; by repeat constructor].
  wp_step. unfold rand_read. wp_step.
  destruct (w_rand w _ 1) as [id|e] eqn:Ei; [|right; by repeat constructor].
  apply rand_length in Ek; [|done]. apply wp_ret. rewrite bogus_bytes by done.
  split; [lia|]. split; [|eexists _, key; by split].
  apply looksLikeECHConfigList_spec_lem. eexists [_]. split_and!; [done| |done|].
  - repeat constructor. cbn [rc_contents]. rewrite bogus_contents_length by done. lia.
  - unfold config_list_bytes, config_bytes. cbn [map mjoin list_join rc_version rc_contents].
    rewrite !length_app, bogus_contents_length by done. cbn [length be_put16]. lia.
Qed.

Section Properties.
Context `{Unicode}.

(** when no bracket occurs in the specification, a result of [parseECHProbe]
    can be used as it is: the public name is 1 to 255 bytes without colon, slash
    or space, and the dial target splits into a host and a port. *)
Theorem parseECHProbe_dialable s n hp :
  x5b ∉ s -> x5d ∉ s ->
  parseECHProbe s = Ok (n, hp) ->
  (1 <= length n <= 255)%nat /\ Forall (.∉ [x3a; x2f; x20]) n /\
  exists host port, SplitHostPort hp = inr (host, port).
Proof.
  intros Ho Hc. unfold parseECHProbe.
  destruct (match LastIndexByte _ _ with Some _ => _ | None => _ end) as [s1 h1] eqn:E1.
  assert (forall x, (x ∈ s1 -> x ∈ s) /\ (x ∈ h1 -> x ∈ s)) as Hsub.
  { intros x. set (u := strip_scheme (TrimSpace s)) in *.
    assert (x ∈ u -> x ∈ s) as Hu by by intros ?%elem_of_strip%elem_of_TrimSpace.
    destruct (LastIndexByte u x40) as [i|]; simplify_eq.
    - split; intros Hx%elem_of_TrimSpace; apply Hu; rewrite <-(take_drop i u);
        apply elem_of_app; [by left|].
      right. replace (S i) with (i + 1)%nat in Hx by lia. rewrite <-drop_drop in Hx.
      rewrite <-(take_drop 1 (drop i u)). apply elem_of_app. by right.
    - split; [done|]. by intros ?%elem_of_nil. }
  clear E1. set (name := if bool_decide (s1 = []) then echProbeDefaultName else s1).
  assert (x5b ∉ name /\ x5d ∉ name) as [No Nc].
  { unfold name. case_match; [split; by apply (bool_decide_unpack _)|].
    split; intros ?%Hsub; done. }
  destruct (ContainsAny name ":/ ") eqn:Ea; [done|].
  destruct (_ || _) eqn:El; [done|]. intros [= <- <-].
  apply orb_false_iff in El as [L1 L2]. apply Nat.eqb_neq in L1. apply Nat.ltb_ge in L2.
  split; [lia|]. split.
  { apply bool_decide_eq_false in Ea. apply not_Exists_Forall in Ea; [|apply _]. exact Ea. }
  case_match; [eexists _, _; by apply SplitHostPort_default|].
  destruct (SplitHostPort h1) as [e|[host port]] eqn:Es; [|by exists host, port].
  eexists _, _. apply SplitHostPort_default; intros ?%Hsub; done.
Qed.

(** C38: [name@target], with the scheme in any letter case or without it, yields
    the name and the target, with port 443 added when the target has none. *)
Theorem parseECHProbe_target p n a :
  scheme_text p -> bare_name n -> target_text a ->
  parseECHProbe (p ++ n ++ ("@" : gostr) ++ a) = Ok (n, probe_target a).
Proof. apply parseECHProbe_target_lem. Qed.

(** a bare name, with or without the scheme, is probed at its own port 443. *)
Theorem parseECHProbe_name p n :
  scheme_text p -> bare_name n ->
  parseECHProbe (p ++ n) = Ok (n, JoinHostPort n echProbeDefaultPort).
Proof.
  intros Hp Hn. pose proof Hn as [Hnt Hc _ Hw].
  unfold parseECHProbe. rewrite trimmed_id by by apply scheme_trimmed.
  rewrite strip_spelling by (done || by apply no_scheme_bare).
  rewrite (proj2 (LastIndexByte_None _ _)) by by apply bare_no_colon.
  destruct (name_ok n Hn) as (E1 & E2 & E3). by rewrite E1, E2, E3.
Qed.

(** a bracketed IPv6 target without a port is bracketed a second time, and
    the dial target that results cannot be split into host and port. *)
Theorem parseECHProbe_bracketed n h :
  bare_name n -> is_ascii h -> x3a ∈ h -> x40 ∉ h -> x5b ∉ h -> x5d ∉ h ->
  let hp := ("[[" : gostr) ++ h ++ ("]]:443" : gostr) in
  parseECHProbe (n ++ ("@[" : gostr) ++ h ++ ("]" : gostr)) = Ok (n, hp) /\
  SplitHostPort hp = inl MissingPort.
Proof.
  intros Hn Ha Hcol Hat Ho Hc hp. set (a := ("[" : gostr) ++ h ++ ("]" : gostr)).
  assert (target_text a) as Hta.
  { split; [split|].
    - apply Forall_app; split; [by repeat constructor|]. apply Forall_app; split; [done|by repeat constructor].
    - done.
    - by intros b [= <-].
    - intros b. unfold a. rewrite app_assoc. change (("]" : gostr)) with [x5d]. rewrite last_snoc. by intros [= <-].
    - unfold a. rewrite !elem_of_app. intros [Hx|[Hx|Hx]]; [|done|];
        revert Hx; by apply (bool_decide_unpack _). }
  assert (IndexByte a x5d = Some (S (length h))) as I.
  { unfold a. change (IndexByte (([x5b] ++ h) ++ x5d :: []) x5d = Some (length ([x5b] ++ h))).
    apply IndexByte_app. set_solver. }
  assert (SplitHostPort a = inl MissingPort) as Sa.
  { unfold SplitHostPort. rewrite I, bool_decide_true by done.
    assert (length a = S (S (length h))) as La.
    { unfold a. rewrite !length_app. simpl. lia. }
    rewrite La, Nat.eqb_refl. by destruct (LastIndexByte a x3a). }
  split.
  - change (n ++ ("@[" : gostr) ++ h ++ ("]" : gostr)) with ([] ++ n ++ ("@" : gostr) ++ a).
    rewrite parseECHProbe_target_lem by (by left || done).
    do 2 f_equal. unfold probe_target. rewrite Sa. unfold JoinHostPort.
    rewrite (proj2 (ContainsByte_true _ _)) by (unfold a; set_solver).
    unfold hp, a. by simplify_list_eq.
  - unfold hp, SplitHostPort.
    change (("[[" : gostr) ++ h ++ ("]]:443" : gostr)) with (([x5b; x5b] ++ h) ++ x5d :: [x5d; x3a; x34; x34; x33]).
    rewrite IndexByte_app by set_solver.
    replace (([x5b; x5b] ++ h) ++ [x5d; x5d; x3a; x34; x34; x33])
      with (([x5b; x5b] ++ h ++ [x5d; x5d]) ++ x3a :: [x34; x34; x33]) by by simplify_list_eq.
    rewrite LastIndexByte_app by by apply (bool_decide_unpack _).
    rewrite bool_decide_true by done. rewrite !length_app. cbn [length].
    rewrite !(proj2 (Nat.eqb_neq _ _)) by lia.
    rewrite bool_decide_false; [done|].
    replace (([x5b; x5b] ++ h ++ [x5d; x5d]) ++ x3a :: [x34; x34; x33])
      with (([x5b; x5b] ++ h ++ [x5d]) ++ x5d :: [x3a; x34; x34; x33]) by by simplify_list_eq.
    rewrite list_lookup_middle; [done|]. rewrite !length_app. simpl. lia.
Qed.

End Properties.

(** ** Witnesses *)

Lemma bogusECHConfigList_ok_witness :
  wp (bogusECHConfigList "cloudflare-ech.com") sample_world [] (bogus_result "cloudflare-ech.com") /\
  is_Ok (bogusECHConfigList "cloudflare-ech.com" sample_world []).2 = true.
Proof.
  split; [|vm_compute; reflexivity].
  apply (bogusECHConfigList_ok (H := sample_cryptobyte_laws)), world_answering_ok.
Defined.

(** The hypotheses on a concrete name or target are decided by evaluation. *)
Ltac text_fact :=
  first [ by apply (bool_decide_unpack _)
        | by intros ? [= <-]
        | vm_compute; lia
        | vm_compute; congruence
        | by repeat constructor ].

Lemma example_name : @bare_name "example.com".
Proof. split; [split|..]; text_fact. Qed.

Lemma example_target : @target_text "1.2.3.4:8443".
Proof. split; [split|]; text_fact. Qed.

Lemma parseECHProbe_dialable_witness :
  exists host port, SplitHostPort "1.2.3.4:443" = inr (host, port).
Proof.
  apply (@parseECHProbe_dialable ascii_unicode "probe://example.com@1.2.3.4" "example.com" "1.2.3.4:443");
    [text_fact|text_fact|vm_compute; reflexivity].
Defined.

Lemma parseECHProbe_target_witness :
  @parseECHProbe ascii_unicode "PROBE://example.com@1.2.3.4:8443" =
    Ok (("example.com" : gostr), ("1.2.3.4:8443" : gostr)).
Proof.
  apply (@parseECHProbe_target ascii_unicode "PROBE://" "example.com" "1.2.3.4:8443");
    [by right|apply example_name|apply example_target].
Defined.

Lemma parseECHProbe_name_witness :
  @parseECHProbe ascii_unicode "example.com" = Ok (("example.com" : gostr), ("example.com:443" : gostr)).
Proof.
  apply (@parseECHProbe_name ascii_unicode [] "example.com"); [by left|apply example_name].
Defined.

Lemma parseECHProbe_bracketed_witness :
  @parseECHProbe ascii_unicode "example.com@[2001:db8::1]" =
    Ok (("example.com" : gostr), ("[[2001:db8::1]]:443" : gostr)).
Proof.
  apply (@parseECHProbe_bracketed ascii_unicode "example.com" "2001:db8::1");
    [apply example_name|text_fact..].
Defined.
