(* ===== verification/Validate.v ===== *)
(** * Validation of the transport options ([transportOptions.validate])

    The checks in the order of the source, and what a configuration that passes
    them guarantees to the code that dials. *)

From S2P Require Import Prelude GoString GoCodec GoNet Xray Options World Noise EchConfig.
Open Scope Z_scope.

Section Validate.
Context `{XrayLib} `{Unicode} `{IntWidth}.

(** The uTLS fingerprint against ECH: the last part of [validate]. *)
Definition validate_fingerprint_ech (o : transportOptions) : res unit :=
  let fp := ToLower (Fingerprint o) in
  if bool_decide (fp ∈ ([("chrome" : gostr); "firefox"])) then Ok tt
  else if bool_decide (fp ∈ ([("random" : gostr); "randomized"; "randomizednoalpn"]))
  then Err (Errorf "fingerprint %q cannot be used with ECH: it is chosen randomly at startup and most hellos in the pool reject ECH; use %q or %q"
                   [AStr (Fingerprint o); AStr "chrome"; AStr "firefox"] None)
  else if HasPrefix fp "hellochrome_" || HasPrefix fp "hellofirefox_" then Ok tt
  else Err (Errorf "fingerprint %q does not support ECH; use %q or %q"
                   [AStr (Fingerprint o); AStr "chrome"; AStr "firefox"] None).

Definition validate (o : transportOptions) : res unit :=
  _ ← check (bool_decide (IP o <> []) && bool_decide (ParseIP (IP o) = None))
        (Errorf "ip %q is not a valid IP address" [AStr (IP o)] None);
  _ ← check (bool_decide (is_Some (Fragment o)) && bool_decide (Proxy o <> []))
        (Errorf "fragment cannot be combined with proxy: the proxy reassembles the stream, so fragmentation would be a silent no-op; configure fragmentation in the xray outbound instead" [] None);
  mode ← alpnMode o;
  _ ← (match Ech o with
       | Some e => if bool_decide (ech_Probe e <> []) then _ ← parseECHProbe (ech_Probe e); Ok tt
                   else Ok tt
       | None => Ok tt
       end);
  _ ← noise_config o;
  _ ← (if bool_decide (mode <> alpnH3) then
         let s := normalised (WNoise o) in
         _ ← check (bool_decide (s <> []) && bool_decide (s <> noiseNone))
               (Errorf "wnoise needs alpn %q: the noise datagrams go out on the QUIC socket so that they open the same 4-tuple as the handshake, and the other paths are TCP (alpn is %q)" [AStr alpnH3; AStr mode] None);
         let s := normalised (QUICVersion o) in
         check (bool_decide (s <> []) && bool_decide (s <> ("auto" : gostr)))
           (Errorf "quicVersion needs alpn %q: the other paths do not use QUIC (alpn is %q)" [AStr alpnH3; AStr mode] None)
       else Ok tt);
  if bool_decide (mode = alpnH3) then
    _ ← quicAttempts o;
    _ ← check (bool_decide (is_Some (Fragment o)))
          (Errorf "alpn %q cannot be combined with fragment: fragmentation splits a TLS record on a TCP stream, and QUIC has no such record layer" [AStr alpnH3] None);
    _ ← check (bool_decide (Proxy o <> []))
          (Errorf "alpn %q cannot be combined with proxy: QUIC is UDP, and the http/socks5 proxies here carry TCP only" [AStr alpnH3] None);
    check (bool_decide (Fingerprint o <> []))
      (Errorf "alpn %q cannot be combined with fingerprint: a uTLS ClientHello is a TLS-over-TCP construct; QUIC uses its own handshake, shaped like Chrome's unless disableChromeParrot is set" [AStr alpnH3] None)
  else if bool_decide (Fingerprint o = []) then Ok tt
  else match GetFingerprint (Fingerprint o) with
       | None => Err (Errorf "unknown fingerprint %q" [AStr (Fingerprint o)] None)
       | Some _ => if negb (echEnabled o) then Ok tt else validate_fingerprint_ech o
       end.

(** ** The contract

    What every caller of [validate] relies on afterwards, stated without the
    order of the checks. *)

Definition ech_capable (fp : gostr) : Prop :=
  let fp := ToLower fp in
  fp ∈ ([("chrome" : gostr); "firefox"]) \/
  ("hellochrome_" : gostr) `prefix_of` fp \/ ("hellofirefox_" : gostr) `prefix_of` fp.

Record valid (o : transportOptions) : Prop := {
  valid_ip : IP o = [] \/ is_Some (ParseIP (IP o));
  valid_fragment_proxy : Fragment o = None \/ Proxy o = [];
  valid_alpn : exists mode, alpnMode o = Ok mode;
  valid_probe : forall e, Ech o = Some e -> ech_Probe e <> [] ->
    exists t, parseECHProbe (ech_Probe e) = Ok t;
  valid_noise : exists n, noise_config o = Ok n;
  valid_h3 : alpnMode o = Ok alpnH3 ->
    (exists l, quicAttempts o = Ok l) /\ Fragment o = None /\ Proxy o = [] /\ Fingerprint o = [];
  valid_tcp : forall mode, alpnMode o = Ok mode -> mode <> alpnH3 ->
    noise_config o = Ok None /\ normalised (QUICVersion o) ∈ ([("" : gostr); "auto"]);
  valid_fingerprint : Fingerprint o <> [] ->
    is_Some (GetFingerprint (Fingerprint o)) /\ (echEnabled o = true -> ech_capable (Fingerprint o))
}.

(** ** Lemmas *)

Lemma validate_fingerprint_ech_ok o u :
  validate_fingerprint_ech o = Ok u <-> ech_capable (Fingerprint o).
Proof.
  unfold validate_fingerprint_ech, ech_capable, HasPrefix. destruct u.
  set (fp := ToLower (Fingerprint o)). clearbody fp.
  destruct (bool_decide (fp ∈ [_; _])) eqn:E1; bools; [by split; [left|]|].
  destruct (bool_decide (fp ∈ [_; _; _])) eqn:E2; bools.
  - split; [done|]. intros [?|Hp]; [done|]. exfalso.
    rewrite !elem_of_cons in E2. destruct E2 as [->|[->|[->|Hx%elem_of_nil]]]; [..|done];
      destruct Hp as [Hp|Hp]; revert Hp; by apply (bool_decide_unpack _).
  - destruct (bool_decide (_ `prefix_of` fp)) eqn:E3; cbn [orb]; bools; [by split; [auto|]|].
    destruct (bool_decide (("hellofirefox_" : gostr) `prefix_of` fp)) eqn:E4; bools;
      [by split; [auto|]|].
    split; [done|]. naive_solver.
Qed.

(** [switch s { case "", def: }], as a guard. *)
Lemma guard_unset (s def : gostr) :
  bool_decide (s <> []) && bool_decide (s <> def) = false <-> s ∈ ([("" : gostr); def]).
Proof.
  change ((("" : gostr)) : gostr) with ([] : gostr).
  rewrite andb_false_iff, !bool_decide_eq_false, elem_of_cons, list_elem_of_singleton.
  split; [intros [E%dec_stable|E%dec_stable]|intros [->| ->]]; auto.
Qed.

Lemma tcp_noise_off o n :
  noise_config o = Ok n ->
  bool_decide (normalised (WNoise o) <> []) && bool_decide (normalised (WNoise o) <> noiseNone) = false <->
  n = None.
Proof.
  intros E. rewrite guard_unset. apply noise_config_wf_lem in E.
  destruct n as [n|]; [|done]. split; [|done]. destruct E as (_ & Hn & _). done.
Qed.

Lemma validate_probe o u :
  (match Ech o with
   | Some e => if bool_decide (ech_Probe e <> []) then _ ← parseECHProbe (ech_Probe e); Ok tt
               else Ok tt
   | None => Ok tt
   end) = Ok u <->
  (forall e, Ech o = Some e -> ech_Probe e <> [] -> exists t, parseECHProbe (ech_Probe e) = Ok t).
Proof.
  destruct u, (Ech o) as [e|]; [|by split].
  case_match; bools; [|split; [intros _ ? [= <-] ?; done|done]].
  destruct (parseECHProbe (ech_Probe e)) as [t|err] eqn:E; simpl; split; try done.
  - intros _ ? [= <-] _. by exists t.
  - intros He. destruct (He e eq_refl ltac:(done)) as [t Ht]. congruence.
Qed.

Lemma validate_tail_fingerprint o u :
  (if bool_decide (Fingerprint o = []) then Ok tt
   else match GetFingerprint (Fingerprint o) with
        | None => Err (Errorf "unknown fingerprint %q" [AStr (Fingerprint o)] None)
        | Some _ => if negb (echEnabled o) then Ok tt else validate_fingerprint_ech o
        end) = Ok u <->
  (Fingerprint o <> [] ->
    is_Some (GetFingerprint (Fingerprint o)) /\ (echEnabled o = true -> ech_capable (Fingerprint o))).
Proof.
  destruct u. case_match; bools; [split; done|].
  destruct (GetFingerprint _) as [f|] eqn:E.
  - destruct (echEnabled o); cbn [negb].
    + rewrite validate_fingerprint_ech_ok. split; [intros; split; eauto|]. intros Hf. by apply Hf.
    + split; [intros; split; [eauto|done]|done].
  - split; [done|]. intros Hf. destruct (Hf ltac:(done)) as [[? ?] _]. done.
Qed.

(** The two halves of [validate] after the noise plan is known, one per mode. *)
Lemma validate_h3_Ok o u :
  (_ ← quicAttempts o;
   _ ← check (bool_decide (is_Some (Fragment o))) (Errorf "alpn %q cannot be combined with fragment: fragmentation splits a TLS record on a TCP stream, and QUIC has no such record layer" [AStr alpnH3] None);
   _ ← check (bool_decide (Proxy o <> [])) (Errorf "alpn %q cannot be combined with proxy: QUIC is UDP, and the http/socks5 proxies here carry TCP only" [AStr alpnH3] None);
   check (bool_decide (Fingerprint o <> [])) (Errorf "alpn %q cannot be combined with fingerprint: a uTLS ClientHello is a TLS-over-TCP construct; QUIC uses its own handshake, shaped like Chrome's unless disableChromeParrot is set" [AStr alpnH3] None))
  = Ok u <->
  (exists l, quicAttempts o = Ok l) /\ Fragment o = None /\ Proxy o = [] /\ Fingerprint o = [].
Proof.
  destruct (quicAttempts o) as [l|e]; cbn [mbind res_bind];
    [|by split; [|intros ((? & ?) & _)]].
  rewrite !check_bind_Ok, check_Ok, !bool_decide_eq_false, <-eq_None_not_Some. split.
  - intros (Hf & Hp%dec_stable & Hfp%dec_stable). eauto.
  - intros (_ & -> & -> & ->). auto.
Qed.

Lemma validate_tcp_Ok o mode n u :
  noise_config o = Ok n ->
  (let s := normalised (WNoise o) in
   _ ← check (bool_decide (s <> []) && bool_decide (s <> noiseNone))
         (Errorf "wnoise needs alpn %q: the noise datagrams go out on the QUIC socket so that they open the same 4-tuple as the handshake, and the other paths are TCP (alpn is %q)" [AStr alpnH3; AStr mode] None);
   let s := normalised (QUICVersion o) in
   check (bool_decide (s <> []) && bool_decide (s <> ("auto" : gostr)))
     (Errorf "quicVersion needs alpn %q: the other paths do not use QUIC (alpn is %q)" [AStr alpnH3; AStr mode] None)) = Ok u <->
  n = None /\ normalised (QUICVersion o) ∈ ([("" : gostr); "auto"]).
Proof.
  intros En. cbn zeta. rewrite check_bind_Ok, (tcp_noise_off o n En), check_Ok, guard_unset. done.
Qed.

Lemma validate_fragment_Ok o :
  bool_decide (is_Some (Fragment o)) && bool_decide (Proxy o <> []) = false <->
  Fragment o = None \/ Proxy o = [].
Proof.
  rewrite andb_false_iff, !bool_decide_eq_false, <-eq_None_not_Some.
  split; [intros [E|E%dec_stable]|intros [E| ->]]; auto.
Qed.

(** A configuration that passes is exactly a valid one. *)
Lemma validate_valid o : validate o = Ok tt <-> valid o.
Proof.
  unfold validate. rewrite !check_bind_Ok, validate_ip_guard, validate_fragment_Ok.
  destruct (alpnMode o) as [mode|e] eqn:Em; cbn [mbind res_bind].
  2:{ split; [by intros (_ & _ & ?)|]. intros Hv. destruct (valid_alpn o Hv) as [? ?]. congruence. }
  rewrite unit_bind_Ok, validate_probe.
  destruct (noise_config o) as [n|e] eqn:En; cbn [mbind res_bind].
  2:{ split; [by intros (_ & _ & _ & ?)|]. intros Hv. destruct (valid_noise o Hv) as [? ?]. congruence. }
  rewrite unit_bind_Ok. destruct (decide (mode = alpnH3)) as [->|Hm].
  - rewrite (bool_decide_false (alpnH3 <> alpnH3)), bool_decide_true, validate_h3_Ok by naive_solver.
    split.
    + intros (Hip & Hfp & Hp & _ & Hh3).
      assert (Fingerprint o = []) as Efp by apply Hh3.
      split; rewrite ?Em, ?En, ?Efp; [done|done|by eexists|done|by eexists|intros _; naive_solver|by intros m [= <-]|done].
    + intros Hv. pose proof (valid_h3 o Hv Em). destruct Hv. naive_solver.
  - rewrite bool_decide_true, (bool_decide_false (mode = alpnH3)), validate_tcp_Ok,
      validate_tail_fingerprint by done. split.
    + intros (Hip & Hfp & Hp & [-> Hq] & Hf).
      split; rewrite ?Em, ?En; [done|done|by eexists|done|by eexists|intros [= ?]; congruence|by intros m [= <-] _|done].
    + intros Hv. pose proof (valid_tcp o Hv mode Em Hm) as [En' Hq].
      rewrite En in En'. injection En' as ->. destruct Hv. naive_solver.
Qed.

(** ** Properties *)

(** C12: [validate] accepts a configuration exactly when it meets the contract
    [valid]: a parseable pinned address, a known ALPN mode, a parseable probe and
    noise plan, no fragment with a proxy; on [h3] a known QUIC version and none of
    the TCP options; on TCP neither noise nor a QUIC version; and a known
    fingerprint, of a hello that can carry ECH when ECH is on. *)
Theorem validate_spec o : validate o = Ok tt <-> valid o.
Proof. apply validate_valid. Qed.

(** ** The options of the ECH lookup

    [echConfigList] looks the ECHConfigList up through a copy of the options
    without ECH and without the pinned address. *)
Definition lookupOpts (o : transportOptions) : transportOptions := {|
  Proxy := Proxy o; IP := []; Timeout := Timeout o; AllowInsecure := AllowInsecure o;
  ServerName := ServerName o; DisableChromeParrot := DisableChromeParrot o; ALPN := ALPN o;
  QUICVersion := QUICVersion o; WNoise := WNoise o; WNoiseCount := WNoiseCount o;
  WNoiseDelay := WNoiseDelay o; WPayloadSize := WPayloadSize o; Fingerprint := Fingerprint o;
  Fragment := Fragment o; Ech := None; Browser := Browser o; Variant := Variant o;
  UserAgent := UserAgent o; Headers := Headers o
|}.

(** the lookup never recurses into ECH, and options that pass [validate] give
    lookup options that pass it too, so the lookup cannot fail on a check the
    request itself has passed. *)
Theorem lookupOpts_valid o :
  validate o = Ok tt -> validate (lookupOpts o) = Ok tt /\ echEnabled (lookupOpts o) = false.
Proof.
  rewrite !validate_valid. intros Hv. split; [|done]. destruct Hv as [_ ? ? ? ? Hh ? Hf].
  split; try done; [by left|]. intros Hne. by destruct (Hf Hne).
Qed.

End Validate.

(** ** Witnesses *)

Definition ech_options : @transportOptions sample_lib := {|
  Proxy := ""; IP := "2001:db8::1"; Timeout := 0; AllowInsecure := false; ServerName := "";
  DisableChromeParrot := false; ALPN := " H2 "; QUICVersion := "auto"; WNoise := "none";
  WNoiseCount := "3-8"; WNoiseDelay := ""; WPayloadSize := ""; Fingerprint := "hellochrome_133";
  Fragment := Some ((1, 2) : @FragmentMask sample_lib);
  Ech := Some {| ech_Domain := ""; ech_DoH := ""; ech_ConfigList := ""; ech_Probe := "probe" |};
  Browser := ""; Variant := ""; UserAgent := ""; Headers := ∅
|}.

Lemma lookupOpts_valid_witness :
  @validate sample_lib ascii_unicode arm64_int (lookupOpts ech_options) = Ok tt /\
  @echEnabled sample_lib (lookupOpts ech_options) = false.
Proof.
  apply (@lookupOpts_valid sample_lib ascii_unicode arm64_int ech_options). vm_compute. reflexivity.
Defined.
