(* ===== verification/EchCache.v ===== *)
(** * The ECH configuration cache ([libv2ray_fetch.go])

    A process-wide map from a key to the outcome of the last acquisition, and one
    mutex per key, so that concurrent requests for a key wait for a single fetch.
    The functions of the source come first; the state machine after them runs
    them in any number of goroutines, interleaved at every access to the shared
    maps, the mutex and the clock. *)

From stdpp Require Import gmap.
From S2P Require Import Prelude Steps Options.
Open Scope Z_scope.

Record echCacheEntry := {
  list_ : list byte;
  err : option error;
  expire : Z
}.

(** What [echAcquire] returns: a list and an error. *)
Definition outcome : Type := list byte * option error.

Definition echNegativeTTL : Z := 30 * Second.
Definition echDefaultTTL : Z := 600.

(** [echCacheLoad] after its [echCache.Load]: the clock is read only when an
    entry was found. *)
Definition echCacheHit (e : option echCacheEntry) (now : Z) : option outcome :=
  match e with
  | None => None
  | Some e => if negb (now <? expire e) then None else Some (list_ e, err e)
  end.

Definition echCacheLoad (cache : gmap gostr echCacheEntry) (key : gostr) (now : Z)
    : option outcome :=
  echCacheHit (cache !! key) now.

Definition echInvalidate (key : gostr) (cache : gmap gostr echCacheEntry)
    : gmap gostr echCacheEntry :=
  if bool_decide (key <> []) then delete key cache else cache.

(** The last part of [echAcquire], on what [fetch] returned at time [now]: the
    entry to store, if any, and the outcome. The TTL is a [uint32], and the
    product is an [int64] of nanoseconds. *)
Definition echStored (r : res (list byte * Z)) (now : Z) : option echCacheEntry * outcome :=
  match r with
  | Err e =>
    (if negb (errors_has is_ContextCanceled e) && negb (errors_has is_ContextDeadlineExceeded e)
     then Some {| list_ := []; err := Some e; expire := now + echNegativeTTL |} else None,
     ([], Some e))
  | Ok (l, ttl) =>
    let ttl := if ttl =? 0 then echDefaultTTL else ttl in
    (Some {| list_ := l; err := None; expire := now + wrapS 64 (ttl * Second) |}, (l, None))
  end.

Definition store_opt (key : gostr) (e : option echCacheEntry) (cache : gmap gostr echCacheEntry)
    : gmap gostr echCacheEntry :=
  match e with Some e => <[key := e]> cache | None => cache end.

(** One call with no other goroutine about: [t1] and [t2] are the readings of the
    clock at the two loads, [t3] the one after [fetch], which returned [r]. The
    boolean says whether [fetch] was called. *)
Definition echAcquire (cache : gmap gostr echCacheEntry) (key : gostr) (t1 t2 t3 : Z)
    (r : res (list byte * Z)) : gmap gostr echCacheEntry * outcome * bool :=
  match echCacheLoad cache key t1 with
  | Some o => (cache, o, false)
  | None =>
    match echCacheLoad cache key t2 with
    | Some o => (cache, o, false)
    | None => let '(e, o) := echStored r t3 in (store_opt key e cache, o, true)
    end
  end.

(** ** Goroutines *)

(** Where a goroutine is in [echAcquire]; [second] tells the two loads apart. *)
Inductive point :=
| AtLoad (second : bool)
| AtCheck (second : bool) (e : option echCacheEntry)
| AtMutex
| AtLock
| AtFetch
| AtFetched (r : res (list byte * Z))
| AtStore (e : echCacheEntry) (o : outcome)
| AtUnlock (o : outcome)
| Returned (o : outcome).

(** What a run leaves behind: the fetches that ended and the cached answers. *)
Inductive record :=
| Fetched (t : nat) (key : gostr) (r : res (list byte * Z))
| Hit (t : nat) (key : gostr) (e : echCacheEntry) (now : Z).

Record machine := {
  echCache : gmap gostr echCacheEntry;
  (** The mutexes [echFetchMu] holds, each with the goroutine that has it. *)
  echFetchMu : gmap gostr (option nat);
  goroutines : gmap nat (gostr * point);
  clock : Z;
  log : list record
}.

Definition start : machine :=
  {| echCache := ∅; echFetchMu := ∅; goroutines := ∅; clock := 0; log := [] |}.

Inductive action :=
| Call (t : nat) (key : gostr)
| Run (t : nat)
| FetchReturns (t : nat) (r : res (list byte * Z))
| Invalidate (key : gostr)
| Tick (d : Z).

Definition goto (t : nat) (key : gostr) (p : point) (m : machine) : machine :=
  {| echCache := echCache m; echFetchMu := echFetchMu m;
     goroutines := <[t := (key, p)]> (goroutines m); clock := clock m; log := log m |}.
Definition with_mu (f : gmap gostr (option nat) -> gmap gostr (option nat)) (m : machine) : machine :=
  {| echCache := echCache m; echFetchMu := f (echFetchMu m);
     goroutines := goroutines m; clock := clock m; log := log m |}.
Definition with_cache (f : gmap gostr echCacheEntry -> gmap gostr echCacheEntry) (m : machine) : machine :=
  {| echCache := f (echCache m); echFetchMu := echFetchMu m;
     goroutines := goroutines m; clock := clock m; log := log m |}.
Definition logged (r : record) (m : machine) : machine :=
  {| echCache := echCache m; echFetchMu := echFetchMu m;
     goroutines := goroutines m; clock := clock m; log := r :: log m |}.

(** One step of the goroutine [t], which is at [p]; [None] when it cannot move. *)
Definition run (t : nat) (key : gostr) (p : point) (m : machine) : option machine :=
  match p with
  | AtLoad second => Some (goto t key (AtCheck second (echCache m !! key)) m)
  | AtCheck second e =>
    match e, echCacheHit e (clock m) with
    | Some e, Some o =>
      Some (goto t key (if second then AtUnlock o else Returned o) (logged (Hit t key e (clock m)) m))
    | _, _ => Some (goto t key (if second then AtFetch else AtMutex) m)
    end
  | AtMutex =>
    Some (goto t key AtLock
            (with_mu (fun mu => match mu !! key with None => <[key := None]> mu | Some _ => mu end) m))
  | AtLock =>
    match echFetchMu m !! key with
    | Some None => Some (goto t key (AtLoad true) (with_mu <[key := Some t]> m))
    | _ => None
    end
  | AtFetch => None
  | AtFetched r =>
    Some (goto t key match echStored r (clock m) with
                     | (Some e, o) => AtStore e o
                     | (None, o) => AtUnlock o
                     end m)
  | AtStore e o => Some (goto t key (AtUnlock o) (with_cache <[key := e]> m))
  | AtUnlock o => Some (goto t key (Returned o) (with_mu <[key := None]> m))
  | Returned _ => None
  end.

(** What [fetch] may return: the TTL is a [uint32]. *)
Definition uint32_ttl (r : res (list byte * Z)) : bool :=
  match r with Ok (_, ttl) => (0 <=? ttl) && (ttl <? 2 ^ 32) | Err _ => true end.

Definition step (a : action) (m : machine) : option machine :=
  match a with
  | Call t key =>
    match goroutines m !! t with None => Some (goto t key (AtLoad false) m) | Some _ => None end
  | Run t => '(key, p) ← goroutines m !! t; run t key p m
  | FetchReturns t r =>
    match goroutines m !! t with
    | Some (key, AtFetch) =>
      if uint32_ttl r then Some (goto t key (AtFetched r) (logged (Fetched t key r) m)) else None
    | _ => None
    end
  | Invalidate key => Some (with_cache (echInvalidate key) m)
  | Tick d =>
    if d <? 0 then None
    else Some {| echCache := echCache m; echFetchMu := echFetchMu m;
                 goroutines := goroutines m; clock := clock m + d; log := log m |}
  end.

Abbreviation steps := (schedule step).

Definition reachable : machine -> Prop := leads_to step start.

(** ** The invariant *)

(** Between [mu.Lock()] and the deferred [mu.Unlock()]. *)
Definition critical (p : point) : bool :=
  match p with
  | AtLoad second | AtCheck second _ => second
  | AtFetch | AtFetched _ | AtStore _ _ | AtUnlock _ => true
  | AtMutex | AtLock | Returned _ => false
  end.

(** The entry [e] for [key] was made, at a moment no later than [now], from what
    a fetch for [key] returned. *)
Definition made (l : list record) (key : gostr) (e : echCacheEntry) (now : Z) : Prop :=
  exists t r t0, Fetched t key r ∈ l /\ t0 <= now /\ (echStored r t0).1 = Some e /\
    uint32_ttl r = true.

(** Where an answer came from: the goroutine's own fetch, or the cache. *)
Definition answered (l : list record) (t : nat) (key : gostr) (o : outcome) : Prop :=
  (exists r, Fetched t key r ∈ l /\ o = (echStored r 0).2) \/
  (exists e now, Hit t key e now ∈ l /\ o = (list_ e, err e)).

(** No fresh entry for [key]. *)
Definition stale (m : machine) (key : gostr) : Prop :=
  forall e, echCache m !! key = Some e -> expire e <= clock m.

Definition point_ok (m : machine) (t : nat) (key : gostr) (p : point) : Prop :=
  match p with
  | AtCheck second e =>
    (forall e', e = Some e' -> made (log m) key e' (clock m)) /\
    (second = true -> forall e', echCache m !! key = Some e' -> e = Some e')
  | AtFetch => stale m key
  | AtFetched r => stale m key /\ Fetched t key r ∈ log m /\ uint32_ttl r = true
  | AtStore e o =>
    stale m key /\ made (log m) key e (clock m) /\ answered (log m) t key o
  | AtUnlock o | Returned o => answered (log m) t key o
  | AtLock => is_Some (echFetchMu m !! key)
  | AtLoad _ | AtMutex => True
  end.

Record good (m : machine) : Prop := {
  good_holder : forall key t, echFetchMu m !! key = Some (Some t) <->
    exists p, goroutines m !! t = Some (key, p) /\ critical p = true;
  good_point : forall t key p, goroutines m !! t = Some (key, p) -> point_ok m t key p;
  good_entry : forall key e, echCache m !! key = Some e -> made (log m) key e (clock m);
  good_hit : forall t key e now, Hit t key e now ∈ log m ->
    now < expire e /\ made (log m) key e now
}.

Lemma made_mono l l' key e now now' :
  made l key e now -> l ⊆ l' -> now <= now' -> made l' key e now'.
Proof. intros (t & r & t0 & Hf & Ht & He & Hr) Hl Hn. exists t, r, t0. split_and!; [by apply Hl|lia|done..]. Qed.

Lemma answered_mono l l' t key o : answered l t key o -> l ⊆ l' -> answered l' t key o.
Proof. intros [(r & Hr & Ho)|(e & now & Hh & Ho)] Hl; [left|right]; naive_solver. Qed.

(** What one goroutine knows survives a step of another: the log and the clock
    only grow, a mutex is never removed, and while it holds the mutex of its key
    the entry can only be deleted. *)
Lemma point_ok_mono m m' t key p :
  point_ok m t key p -> log m ⊆ log m' -> clock m <= clock m' ->
  (is_Some (echFetchMu m !! key) -> is_Some (echFetchMu m' !! key)) ->
  (critical p = true -> echCache m' !! key = echCache m !! key \/ echCache m' !! key = None) ->
  point_ok m' t key p.
Proof.
  intros Hp Hl Hc Hm He.
  assert (critical p = true -> stale m key -> stale m' key) as Hs.
  { intros Hcr Hs e E. destruct (He Hcr) as [E'|E']; [|congruence].
    rewrite E' in E. apply Hs in E. lia. }
  destruct p as [| second oe | | | | r | e o | o | o]; simpl in *; try done; auto.
  - destruct Hp as [Hp Hq]. split; [eauto using made_mono|].
    intros -> e' E. apply Hq; [done|]. destruct (He eq_refl) as [E'|E']; congruence.
  - destruct Hp as (? & ? & ?). split_and!; auto.
  - destruct Hp as (? & ? & ?). split_and!; eauto using made_mono, answered_mono.
  - eauto using answered_mono.
  - eauto using answered_mono.
Qed.

(** A step of goroutine [t] from [p] to [p'] keeps the invariant when what it
    newly knows holds. *)
Lemma good_move m m' t key p p' :
  good m -> goroutines m !! t = Some (key, p) ->
  goroutines m' = <[t := (key, p')]> (goroutines m) ->
  log m ⊆ log m' -> clock m <= clock m' ->
  (forall k, is_Some (echFetchMu m !! k) -> is_Some (echFetchMu m' !! k)) ->
  (forall k h, echFetchMu m' !! k = Some (Some h) <->
    if decide (h = t) then k = key /\ critical p' = true else echFetchMu m !! k = Some (Some h)) ->
  (forall k, echCache m' !! k = echCache m !! k \/ k = key /\ critical p = true) ->
  point_ok m' t key p' ->
  (forall e, echCache m' !! key = Some e -> made (log m') key e (clock m')) ->
  (forall t0 k e now, Hit t0 k e now ∈ log m' -> Hit t0 k e now ∈ log m \/
     now < expire e /\ made (log m') k e now) ->
  good m'.
Proof.
  intros Hg Ht Eg Hl Hc Hmu Hh He Hp Hme Hhit. split.
  - intros k h. rewrite Hh, Eg. destruct (decide (h = t)) as [->|Hne].
    + rewrite lookup_insert_eq. split; [intros [-> ?]; eauto|intros (q & [= -> ->] & ?); done].
    + rewrite lookup_insert_ne by done. apply (good_holder m Hg).
  - intros t' k q. rewrite Eg. destruct (decide (t' = t)) as [->|Hne].
    + rewrite lookup_insert_eq. by intros [= <- <-].
    + rewrite lookup_insert_ne by done. intros Hq.
      apply (point_ok_mono m); auto; [by apply (good_point m Hg)|].
      intros Hcr. destruct (He k) as [E|[-> Hcp]]; [by left|]. exfalso. apply Hne.
      assert (echFetchMu m !! key = Some (Some t')) as E1 by (apply (good_holder m Hg); eauto).
      assert (echFetchMu m !! key = Some (Some t)) as E2 by (apply (good_holder m Hg); eauto).
      congruence.
  - intros k e E. destruct (decide (k = key)) as [->|Hk]; [by apply Hme|].
    destruct (He k) as [E'|[? _]]; [|done]. rewrite E' in E.
    eapply made_mono; [by apply (good_entry m Hg)|done|done].
  - intros t0 k e now Hin. destruct (Hhit _ _ _ _ Hin) as [Hin'|?]; [|done].
    apply (good_hit m Hg) in Hin' as [? ?]. split; [done|]. eapply made_mono; [done|done|lia].
Qed.

Lemma echCacheHit_Some e now o :
  echCacheHit (Some e) now = Some o <-> now < expire e /\ o = (list_ e, err e).
Proof.
  simpl. destruct (now <? expire e) eqn:E; bools; cbn [negb]; split; [|intros [_ ->]| |intros [? _]];
    try done; [by intros [= <-]|lia].
Qed.

Lemma echCacheHit_None e now :
  echCacheHit e now = None <-> forall e', e = Some e' -> expire e' <= now.
Proof.
  destruct e as [e|]; [|by split]. simpl.
  destruct (now <? expire e) eqn:E; bools; cbn [negb]; split; try done.
  - intros Hx. specialize (Hx e eq_refl). lia.
  - by intros _ e' [= <-].
Qed.

Lemma echStored_outcome r t0 t1 : (echStored r t0).2 = (echStored r t1).2.
Proof. by destruct r as [[l ttl]|]. Qed.

(** A step that touches neither the cache nor a mutex. *)
Lemma good_local m m' t key p p' :
  good m -> goroutines m !! t = Some (key, p) ->
  goroutines m' = <[t := (key, p')]> (goroutines m) -> echCache m' = echCache m ->
  echFetchMu m' = echFetchMu m -> clock m' = clock m -> critical p' = critical p ->
  log m ⊆ log m' -> point_ok m' t key p' ->
  (forall t0 k e now, Hit t0 k e now ∈ log m' -> Hit t0 k e now ∈ log m \/
     now < expire e /\ made (log m') k e now) ->
  good m'.
Proof.
  intros Hg Ht Eg Ec Em Ek Hcr Hl Hp Hh.
  apply (good_move m m' t key p p'); try done; try lia.
  - by rewrite Em.
  - intros k h. rewrite Em. case_decide; [|done]. subst h. rewrite (good_holder m Hg), Ht, Hcr.
    split; [intros (? & [= -> ->] & ?); done|intros [-> ?]; eauto].
  - intros k. left. by rewrite Ec.
  - intros e. rewrite Ec, Ek. intros E. eapply made_mono; [by apply (good_entry m Hg)|done|lia].
Qed.

(** The mutex of [key] changes hands between "free" and the goroutine [t]. *)
Lemma good_mutex m m' t key p p' :
  good m -> goroutines m !! t = Some (key, p) ->
  goroutines m' = <[t := (key, p')]> (goroutines m) -> echCache m' = echCache m ->
  log m' = log m -> clock m' = clock m ->
  echFetchMu m' = <[key := if critical p' then Some t else None]> (echFetchMu m) ->
  (forall h, echFetchMu m !! key = Some (Some h) -> h = t) ->
  (critical p = true -> critical p' = false) ->
  point_ok m' t key p' -> good m'.
Proof.
  intros Hg Ht Eg Ec El Ek Em Hfree Hcr Hp.
  apply (good_move m m' t key p p'); try done; try lia.
  - by rewrite El.
  - intros k Hk. rewrite Em. destruct (decide (k = key)) as [->|?];
      [rewrite lookup_insert_eq; eauto|by rewrite lookup_insert_ne].
  - intros k h. rewrite Em. destruct (decide (k = key)) as [->|Hk].
    + rewrite lookup_insert_eq. case_decide as Hht.
      * subst h. destruct (critical p'); naive_solver.
      * split; [destruct (critical p'); naive_solver|]. intros E%Hfree. done.
    + rewrite lookup_insert_ne by done. case_decide; [|done]. subst h.
      rewrite (good_holder m Hg), Ht. naive_solver.
  - intros k. left. by rewrite Ec.
  - intros e. rewrite Ec, Ek, El. apply (good_entry m Hg).
  - rewrite El. auto.
Qed.

Lemma check_good m m' t key sec oe :
  good m -> goroutines m !! t = Some (key, AtCheck sec oe) ->
  run t key (AtCheck sec oe) m = Some m' -> good m'.
Proof.
  intros Hg Ht Hr. destruct (good_point m Hg t key _ Ht) as [Hmade Hlast]. cbn [run] in Hr.
  destruct (echCacheHit oe (clock m)) as [o|] eqn:Eh.
  - destruct oe as [e|]; [|done]. rewrite Eh in Hr. apply echCacheHit_Some in Eh as [Hnow ->].
    simplify_eq.
    apply (good_local m _ t key (AtCheck sec (Some e))
             (if sec then AtUnlock (list_ e, err e) else Returned (list_ e, err e))); simpl; auto.
    + by destruct sec.
    + by apply list_subseteq_cons.
    + destruct sec; simpl; right; exists e, (clock m); split; (left || done).
    + intros t0 k e' now [[= -> -> -> ->]|]%elem_of_cons; [right|by left].
      split; [done|]. eapply made_mono; [by apply Hmade|by apply list_subseteq_cons|done].
  - assert (m' = goto t key (if sec then AtFetch else AtMutex) m) as ->.
    { destruct oe; [rewrite Eh in Hr|]; by simplify_eq. }
    rewrite echCacheHit_None in Eh.
    apply (good_local m _ t key (AtCheck sec oe) (if sec then AtFetch else AtMutex)); simpl; auto.
    { by destruct sec. }
    destruct sec; simpl; [|done]. intros e' E. apply Eh. by apply Hlast.
Qed.

(** [LoadOrStore] of a fresh mutex. *)
Lemma mutex_good m t key :
  good m -> goroutines m !! t = Some (key, AtMutex) ->
  good (goto t key AtLock
          (with_mu (fun mu => match mu !! key with None => <[key := None]> mu | Some _ => mu end) m)).
Proof.
  intros Hg Ht. set (m' := goto _ _ _ _).
  assert (forall k h, echFetchMu m' !! k = Some (Some h) <-> echFetchMu m !! k = Some (Some h)) as Hmu.
  { simpl. destruct (echFetchMu m !! key) as [h|] eqn:E; [done|]. intros k h.
    destruct (decide (k = key)) as [->|?]; [rewrite lookup_insert_eq, E|rewrite lookup_insert_ne]; done. }
  apply (good_move m m' t key AtMutex AtLock); auto; try done.
  - intros k [h Hk]. simpl. destruct (echFetchMu m !! key) eqn:E; [by eexists|].
    destruct (decide (k = key)) as [->|?]; [rewrite lookup_insert_eq|rewrite lookup_insert_ne]; eauto.
  - intros k h. rewrite Hmu. case_decide; [|done]. subst h.
    rewrite (good_holder m Hg), Ht. naive_solver.
  - simpl. destruct (echFetchMu m !! key) eqn:E; [rewrite E|rewrite lookup_insert_eq]; eauto.
  - apply (good_entry m Hg).
Qed.

(** Every step of a goroutine keeps the invariant. *)
Lemma run_good m m' t key p :
  good m -> goroutines m !! t = Some (key, p) -> run t key p m = Some m' -> good m'.
Proof.
  intros Hg Ht Hr. pose proof (good_point m Hg t key p Ht) as Hp.
  assert (critical p = true -> echFetchMu m !! key = Some (Some t)) as Hmine.
  { intros. apply (good_holder m Hg). eauto. }
  destruct p as [sec|sec oe| | | |r|e o|o|o]; [|by apply (check_good m m' t key sec oe)|..];
    cbn [run] in Hr; simplify_eq.
  - apply (good_local m _ t key (AtLoad sec) (AtCheck sec (echCache m !! key))); auto.
    split; [|done]. intros e'. apply (good_entry m Hg).
  - by apply mutex_good.
  - destruct (echFetchMu m !! key) as [[h|]|] eqn:E; simplify_eq.
    apply (good_mutex m _ t key AtLock (AtLoad true)); auto; [|done]. congruence.
  - destruct Hp as (Hs & Hf & Hu). assert (answered (log m) t key (echStored r (clock m)).2) as Ha.
    { left. exists r. split; [done|apply echStored_outcome]. }
    apply (good_local m _ t key (AtFetched r)
             match echStored r (clock m) with (Some e, o) => AtStore e o | (None, o) => AtUnlock o end);
      auto; destruct (echStored r (clock m)) as [[e|] o] eqn:E; try done.
    split_and!; [done| |done]. exists t, r, (clock m). by rewrite E.
  - destruct Hp as (Hs & Hm & Ha).
    apply (good_move m _ t key (AtStore e o) (AtUnlock o)); auto; try done.
    + intros k h. case_decide; [subst h|done]. rewrite (good_holder m Hg), Ht. naive_solver.
    + intros k. simpl. destruct (decide (k = key)) as [->|?]; [by right|left; by rewrite lookup_insert_ne].
    + simpl. rewrite lookup_insert_eq. by intros e' [= <-].
  - apply (good_mutex m _ t key (AtUnlock o) (Returned o)); auto. intros h. rewrite Hmine by done. congruence.
Qed.

Lemma step_good m m' a : good m -> step a m = Some m' -> good m'.
Proof.
  intros Hg Hs. destruct a as [t key|t|t r|key|d]; cbn [step] in Hs.
  - destruct (goroutines m !! t) as [[k p]|] eqn:E; simplify_eq.
    split; simpl.
    + intros k h. rewrite (good_holder m Hg). destruct (decide (h = t)) as [->|?];
        [rewrite lookup_insert_eq, E; naive_solver|by rewrite lookup_insert_ne].
    + intros h k p. destruct (decide (h = t)) as [->|?];
        [rewrite lookup_insert_eq; by intros [= <- <-]|rewrite lookup_insert_ne by done].
      intros Hp%(good_point m Hg). by apply (point_ok_mono m); auto.
    + apply (good_entry m Hg).
    + apply (good_hit m Hg).
  - destruct (goroutines m !! t) as [[k p]|] eqn:E; [|done]. by apply (run_good m m' t k p).
  - destruct (goroutines m !! t) as [[k []]|] eqn:E; try done.
    destruct (uint32_ttl r) eqn:Eu; simplify_eq. pose proof (good_point m Hg t k _ E) as Hp.
    apply (good_local m _ t k AtFetch (AtFetched r)); simpl; auto.
    + by apply list_subseteq_cons.
    + split_and!; [done|left|done].
    + intros t0 k0 e now [?|]%elem_of_cons; [done|by left].
  - simplify_eq. unfold echInvalidate.
    assert (forall k, echCache (with_cache (echInvalidate key) m) !! k = echCache m !! k \/
                      echCache (with_cache (echInvalidate key) m) !! k = None) as He.
    { intros k. simpl. unfold echInvalidate. case_match; [|by left].
      destruct (decide (k = key)) as [->|?]; [right; apply lookup_delete_eq|left; by apply lookup_delete_ne]. }
    split; [apply (good_holder m Hg)| | |apply (good_hit m Hg)].
    + intros t k p Hp%(good_point m Hg). by apply (point_ok_mono m); auto.
    + intros k e E. destruct (He k) as [E'|E']; unfold echInvalidate in E'; rewrite E' in E; [|done].
      by apply (good_entry m Hg).
  - destruct (d <? 0) eqn:Ed; simplify_eq. bools. split; simpl.
    + apply (good_holder m Hg).
    + intros t k p Hp%(good_point m Hg). apply (point_ok_mono m); simpl; auto; lia.
    + intros k e E. eapply made_mono; [by apply (good_entry m Hg)|done|lia].
    + apply (good_hit m Hg).
Qed.

Lemma reachable_good m : reachable m -> good m.
Proof.
  intros [l Hl]. assert (good start) as Hg.
  { split; simpl.
    - intros k t. rewrite !lookup_empty. split; [done|]. by intros (p & Hp & _).
    - intros t k p Hp. by rewrite lookup_empty in Hp.
    - intros k e He. by rewrite lookup_empty in He.
    - by intros t k e now ?%elem_of_nil. }
  eapply schedule_invariant; [by intros a m1 m2; apply step_good|exact Hl|exact Hg].
Qed.

(** ** Termination *)

(** The steps a goroutine has left, waiting not counted. *)
Definition remaining (p : point) : nat :=
  match p with
  | AtLoad false => 10 | AtCheck false _ => 9 | AtMutex => 8 | AtLock => 7
  | AtLoad true => 6 | AtCheck true _ => 5 | AtFetch => 4 | AtFetched _ => 3
  | AtStore _ _ => 2 | AtUnlock _ => 1 | Returned _ => 0
  end.

Definition total (m : machine) : nat := steps_left (fun g => remaining g.2) (goroutines m).

(** The steps of the goroutines themselves. *)
Definition own (a : action) : bool :=
  match a with Run _ | FetchReturns _ _ => true | _ => false end.
Definition is_call (a : action) : bool := match a with Call _ _ => true | _ => false end.

Definition returned (p : point) : Prop := exists o, p = Returned o.

Lemma total_move m m' t key p p' :
  goroutines m !! t = Some (key, p) -> goroutines m' = <[t := (key, p')]> (goroutines m) ->
  (total m' + remaining p = total m + remaining p')%nat.
Proof. intros Ht E. unfold total. rewrite E. by apply (steps_left_move (fun g => remaining g.2) _ t (key, p)). Qed.

(** A step of a goroutine moves it forward and no other. *)
Lemma run_moves m m' t key p :
  run t key p m = Some m' ->
  exists p', goroutines m' = <[t := (key, p')]> (goroutines m) /\ (remaining p' < remaining p)%nat.
Proof.
  destruct p as [sec|sec oe| | | |r|e o|o|o]; cbn [run]; intros E; try done.
  - simplify_eq. eexists. split; [done|]. destruct sec; simpl; lia.
  - destruct oe as [e|]; [destruct (echCacheHit (Some e) (clock m))|]; simplify_eq;
      (eexists; split; [reflexivity|destruct sec; simpl; lia]).
  - simplify_eq. eexists. split; [done|simpl; lia].
  - destruct (echFetchMu m !! key) as [[|]|]; simplify_eq. eexists. split; [done|simpl; lia].
  - simplify_eq. eexists. split; [done|]. destruct (echStored _ _) as [[]]; simpl; lia.
  - simplify_eq. eexists. split; [done|simpl; lia].
  - simplify_eq. eexists. split; [done|simpl; lia].
Qed.

Lemma step_total m m' a :
  step a m = Some m' -> is_call a = false ->
  if own a then (total m' < total m)%nat else total m' = total m.
Proof.
  intros Hs Hc. destruct a as [t key|t|t r|key|d]; cbn [step own] in *; [done|..].
  - destruct (goroutines m !! t) as [[k p]|] eqn:E; [|done].
    apply run_moves in Hs as (p' & E' & Hlt). pose proof (total_move m m' t k p p' E E'). lia.
  - destruct (goroutines m !! t) as [[k []]|] eqn:E; try done. destruct (uint32_ttl r); simplify_eq.
    pose proof (total_move m (goto t k (AtFetched r) (logged (Fetched t k r) m)) t k
      AtFetch (AtFetched r) E eq_refl). simpl in *. lia.
  - by simplify_eq.
  - by destruct (d <? 0); simplify_eq.
Qed.

(** Whoever waits waits for a goroutine that can move. *)
Lemma waits_for m t key p :
  good m -> goroutines m !! t = Some (key, p) -> ~ returned p ->
  exists a, own a = true /\ is_Some (step a m).
Proof.
  intros Hg Ht Hp.
  assert (forall t' p', goroutines m !! t' = Some (key, p') -> critical p' = true ->
            exists a, own a = true /\ is_Some (step a m)) as Hcrit.
  { intros t' p' E Hc. assert (p' = AtFetch \/ p' <> AtFetch) as [->|Hn] by (destruct p'; auto).
    - exists (FetchReturns t' (Err ContextCanceled)). split; [done|]. cbn [step]. rewrite E. by eexists.
    - exists (Run t'). split; [done|]. cbn [step]. rewrite E. cbn [mbind option_bind].
      destruct p' as [sec|sec oe| | | |r|e o|o|o]; try done; cbn [run]; try by eexists.
      destruct oe as [e|]; [destruct (echCacheHit (Some e) (clock m))|]; by eexists. }
  destruct (critical p) eqn:Hc; [by apply (Hcrit t p)|].
  destruct p as [sec|sec oe| | | |r|e o|o|o]; try done.
  - exists (Run t). split; [done|]. cbn [step]. rewrite Ht. by eexists.
  - exists (Run t). split; [done|]. cbn [step]. rewrite Ht. cbn [mbind option_bind run].
    destruct oe as [e|]; [destruct (echCacheHit (Some e) (clock m))|]; by eexists.
  - exists (Run t). split; [done|]. cbn [step]. rewrite Ht. by eexists.
  - destruct (good_point m Hg t key _ Ht) as [h Hh]. destruct h as [h|].
    + apply (good_holder m Hg) in Hh as (p' & Hp' & Hcr). by apply (Hcrit h p').
    + exists (Run t). split; [done|]. cbn [step]. rewrite Ht. cbn [mbind option_bind run].
      rewrite Hh. by eexists.
  - exfalso. apply Hp. by eexists.
Qed.

#[export] Instance returned_dec p : Decision (returned p).
Proof. destruct p; first [right; by intros [? ?] | left; by eexists]. Defined.

Lemma step_uses m a m' :
  step a m = Some m' -> is_call a = false ->
  if own a then (total m' < total m)%nat else (total m' <= total m)%nat.
Proof. intros Hs Hc. apply step_total in Hs; [|done]. destruct (own a); lia. Qed.

(** Only [total m] steps of goroutines fit into a run without new calls. *)
Lemma steps_bounded l m m' :
  good m -> steps l m = Some m' -> Forall (fun a => is_call a = false) l ->
  (length (filter (fun a => own a = true) l) + total m' <= total m)%nat.
Proof.
  apply (schedule_bounded step good).
  - intros a m1 m2. apply step_good.
  - intros a m1 m2 _. apply step_uses.
Qed.

(** And from any reachable state some such run ends every call. *)
Lemma can_finish m :
  good m -> exists l m', Forall (fun a => own a = true) l /\ steps l m = Some m' /\
    forall t key p, goroutines m' !! t = Some (key, p) -> returned p.
Proof.
  apply (schedule_finishes step good (fun m => forall t key p, goroutines m !! t = Some (key, p) -> returned p)
    total own is_call).
  - intros a m1 m2. apply step_good.
  - intros a m1 m2 _. apply step_uses.
  - intros m1 Hg. destruct (all_or_one (fun g : gostr * point => returned g.2) (goroutines m1)) as [Hd|(t & [key p] & Ht & Hp)].
    + left. intros t key p Ht. apply (Hd t (key, p) Ht).
    + right. destruct (waits_for m1 t key p Hg Ht Hp) as (a & Ho & Hs). exists a. split_and!; [done| |done]. by destruct a.
Qed.

(** ** A goroutine alone *)

(** The steps of one call when every other goroutine stands still; the clock
    advances by [d1] before its first look at an entry, [d2] before the second
    and [d3] before it times what [fetch] returned. *)
Definition alone (t : nat) (key : gostr) (cache : gmap gostr echCacheEntry) (c d1 d2 d3 : Z)
    (r : res (list byte * Z)) : list action :=
  [Call t key; Run t; Tick d1; Run t] ++
  match echCacheLoad cache key (c + d1) with
  | Some _ => []
  | None =>
    [Run t; Run t; Run t; Tick d2; Run t] ++
    match echCacheLoad cache key (c + d1 + d2) with
    | Some _ => [Run t]
    | None =>
      [FetchReturns t r; Tick d3; Run t] ++
      match (echStored r (c + d1 + d2 + d3)).1 with
      | Some _ => [Run t; Run t]
      | None => [Run t]
      end
    end
  end.

(** ** What a cached answer may be, stated without the cache *)

Definition outcome_of (r : res (list byte * Z)) : outcome :=
  match r with Ok (l, _) => (l, None) | Err e => ([], Some e) end.

Definition context_error (r : res (list byte * Z)) : bool :=
  match r with
  | Err e => errors_has is_ContextCanceled e || errors_has is_ContextDeadlineExceeded e
  | Ok _ => false
  end.

(** How long the outcome of a fetch is remembered, in nanoseconds. *)
Definition lifetime (r : res (list byte * Z)) : Z :=
  match r with
  | Ok (_, ttl) => (if ttl =? 0 then 600 else ttl) * Second
  | Err _ => 30 * Second
  end.

Lemma echStored_spec r now :
  uint32_ttl r = true ->
  echStored r now =
    (if context_error r then None
     else Some {| list_ := (outcome_of r).1; err := (outcome_of r).2; expire := now + lifetime r |},
     outcome_of r).
Proof.
  destruct r as [[l ttl]|e]; simpl.
  - intros E. bools. rewrite wrapS_small; [done|lia|]. unfold echDefaultTTL, Second.
    destruct (ttl =? 0); lia.
  - intros _. rewrite <-negb_orb. by destruct (_ || _).
Qed.

Lemma lifetime_pos r : uint32_ttl r = true -> 0 < lifetime r.
Proof.
  destruct r as [[l ttl]|e]; simpl; unfold Second; [|lia]. intros E. bools.
  destruct (ttl =? 0) eqn:E0; bools; lia.
Qed.

Lemma step_Run t key p m m1 :
  goroutines m !! t = Some (key, p) -> run t key p m = Some m1 -> step (Run t) m = Some m1.
Proof. intros E Hr. cbn [step]. by rewrite E. Qed.

(** The steps of a call whose first look finds nothing, up to the second one. *)
Lemma alone_locks m t key d :
  0 <= d -> goroutines m !! t = Some (key, AtMutex) -> (forall h, echFetchMu m !! key <> Some (Some h)) ->
  exists m', steps [Run t; Run t; Run t; Tick d] m = Some m' /\
    goroutines m' = <[t := (key, AtCheck true (echCache m !! key))]> (goroutines m) /\
    echCache m' = echCache m /\ clock m' = clock m + d.
Proof.
  intros Hd Ht Hfree.
  set (mu := match echFetchMu m !! key with None => <[key := None]> (echFetchMu m) | Some _ => echFetchMu m end).
  assert (mu !! key = Some None) as Hmu.
  { unfold mu. destruct (echFetchMu m !! key) as [[h|]|] eqn:E; [by destruct (Hfree h)|done|].
    by rewrite lookup_insert_eq. }
  eexists. split.
  - eapply schedule_cons; [by eapply step_Run|].
    eapply schedule_cons.
    { eapply step_Run; [apply lookup_insert_eq|]. cbn [run]. cbn [goto with_mu echFetchMu]. fold mu. by rewrite Hmu. }
    eapply schedule_cons; [eapply step_Run; [apply lookup_insert_eq|done]|].
    eapply schedule_cons; [|done]. cbn [step]. rewrite (proj2 (Z.ltb_ge d 0)) by done. done.
  - cbn. by rewrite !insert_insert_eq.
Qed.

Lemma alone_loads m t key d :
  0 <= d -> goroutines m !! t = None ->
  exists m', steps [Call t key; Run t; Tick d] m = Some m' /\
    goroutines m' = <[t := (key, AtCheck false (echCache m !! key))]> (goroutines m) /\
    echCache m' = echCache m /\ echFetchMu m' = echFetchMu m /\ clock m' = clock m + d.
Proof.
  intros Hd Ht. eexists. split.
  - eapply schedule_cons; [cbn [step]; by rewrite Ht|].
    eapply schedule_cons; [eapply step_Run; [apply lookup_insert_eq|done]|].
    eapply schedule_cons; [|done]. cbn [step]. rewrite (proj2 (Z.ltb_ge d 0)) by done. done.
  - cbn. by rewrite !insert_insert_eq.
Qed.

(** The steps from the fetch on. *)
Lemma alone_fetches m t key d r :
  0 <= d -> goroutines m !! t = Some (key, AtFetch) -> uint32_ttl r = true ->
  let '(e, o) := echStored r (clock m + d) in
  exists m', steps ([FetchReturns t r; Tick d; Run t] ++
                    match e with Some _ => [Run t; Run t] | None => [Run t] end) m = Some m' /\
    goroutines m' = <[t := (key, Returned o)]> (goroutines m) /\
    echCache m' = store_opt key e (echCache m).
Proof.
  intros Hd Ht Hu. destruct (echStored r (clock m + d)) as [[e|] o] eqn:Es; eexists;
    (split;
      [ eapply schedule_cons; [cbn [step]; by rewrite Ht, Hu|];
        eapply schedule_cons; [cbn [step]; by rewrite (proj2 (Z.ltb_ge d 0))|];
        eapply schedule_cons;
          [eapply step_Run; [apply lookup_insert_eq|]; cbn [run clock goto logged]; by rewrite Es|];
        repeat (eapply schedule_cons; [eapply step_Run; [apply lookup_insert_eq|done]|]); done
      | cbn; by rewrite !insert_insert_eq ]).
Qed.

Lemma alone_returns m t key d1 d2 d3 r :
  goroutines m !! t = None -> (forall h, echFetchMu m !! key <> Some (Some h)) ->
  0 <= d1 -> 0 <= d2 -> 0 <= d3 -> uint32_ttl r = true ->
  let c := clock m in
  let '(cache', o, _) := echAcquire (echCache m) key (c + d1) (c + d1 + d2) (c + d1 + d2 + d3) r in
  exists m', steps (alone t key (echCache m) c d1 d2 d3 r) m = Some m' /\
    echCache m' = cache' /\ goroutines m' = <[t := (key, Returned o)]> (goroutines m).
Proof.
  intros Ht Hfree H1 H2 H3 Hu c. unfold echAcquire, alone, echCacheLoad.
  destruct (alone_loads m t key d1 H1 Ht) as (ma & Ea & Ga & Ca & Ma & Ka).
  change ([Call t key; Run t; Tick d1; Run t] ++ ?x) with ([Call t key; Run t; Tick d1] ++ Run t :: x).
  rewrite schedule_app, Ea. cbn [mbind option_bind]. fold c in Ka.
  assert (goroutines ma !! t = Some (key, AtCheck false (echCache m !! key))) as Gat
    by (rewrite Ga; apply lookup_insert_eq).
  destruct (echCacheHit (echCache m !! key) (c + d1)) as [o|] eqn:Eh.
  { destruct (echCache m !! key) as [e|] eqn:Ee; [|done]. rewrite <-Ka in Eh.
    eexists. split; [eapply schedule_cons; [|done]; eapply step_Run; [done|]; cbn [run]; by rewrite Eh|].
    cbn. rewrite Ga, insert_insert_eq. done. }
  set (mb := goto t key AtMutex ma).
  assert (step (Run t) ma = Some mb) as Eb.
  { eapply step_Run; [done|]. cbn [run]. rewrite Ka. destruct (echCache m !! key); [by rewrite Eh|done]. }
  destruct (alone_locks mb t key d2 H2) as (mc & Ec & Gc & Cc & Kc);
    [apply lookup_insert_eq|by cbn; rewrite Ma|].
  cbn [steps]. rewrite Eb. cbn [mbind option_bind].
  change ([Run t; Run t; Run t; Tick d2; Run t] ++ ?x) with ([Run t; Run t; Run t; Tick d2] ++ Run t :: x).
  rewrite schedule_app, Ec. cbn [mbind option_bind].
  cbn in Gc, Cc, Kc. rewrite Ga, !insert_insert_eq in Gc. rewrite Ca in Gc, Cc. rewrite Ka in Kc.
  assert (goroutines mc !! t = Some (key, AtCheck true (echCache m !! key))) as Gct
    by (rewrite Gc; apply lookup_insert_eq).
  destruct (echCacheHit (echCache m !! key) (c + d1 + d2)) as [o|] eqn:Eh2.
  { destruct (echCache m !! key) as [e|] eqn:Ee; [|done]. rewrite <-Kc in Eh2.
    eexists. split.
    - eapply schedule_cons; [eapply step_Run; [done|]; cbn [run]; by rewrite Eh2|].
      eapply schedule_cons; [eapply step_Run; [apply lookup_insert_eq|done]|done].
    - cbn. rewrite Gc, !insert_insert_eq. done. }
  set (md := goto t key AtFetch mc).
  assert (step (Run t) mc = Some md) as Ed.
  { eapply step_Run; [done|]. cbn [run]. rewrite Kc. destruct (echCache m !! key); [by rewrite Eh2|done]. }
  cbn [steps]. rewrite Ed. cbn [mbind option_bind].
  pose proof (alone_fetches md t key d3 r H3 (lookup_insert_eq _ _ _) Hu) as Hf.
  change (clock md) with (clock mc) in Hf. rewrite Kc in Hf.
  destruct (echStored r (c + d1 + d2 + d3)) as [e o]. destruct Hf as (m' & Em & Gm & Cm).
  exists m'. split_and!; [by destruct e|by rewrite Cm; cbn; rewrite Cc|].
  by rewrite Gm; cbn; rewrite Gc, !insert_insert_eq.
Qed.

Lemma echAcquire_missed c key t1 t2 t3 r c' o :
  uint32_ttl r = true ->
  echAcquire c key t1 t2 t3 r = (c', o, true) ->
  o = outcome_of r /\ echCacheLoad c key t2 = None /\
  c' = if context_error r then c
       else <[key := {| list_ := (outcome_of r).1; err := (outcome_of r).2;
                        expire := t3 + lifetime r |}]> c.
Proof.
  intros Hu. unfold echAcquire. destruct (echCacheLoad c key t1); [by intros|].
  destruct (echCacheLoad c key t2) eqn:E; [by intros|]. rewrite echStored_spec by done.
  destruct (context_error r); intros; by simplify_eq.
Qed.

Lemma load_expired c key t t' :
  echCacheLoad c key t = None -> t <= t' -> echCacheLoad c key t' = None.
Proof.
  unfold echCacheLoad. rewrite !echCacheHit_None. intros Hn Ht e He. specialize (Hn e He). lia.
Qed.

Lemma echAcquire_miss c key t1 t2 t3 r :
  uint32_ttl r = true -> t1 <= t2 -> echCacheLoad c key t1 = None ->
  exists c', echAcquire c key t1 t2 t3 r = (c', outcome_of r, true).
Proof.
  intros Hu Ht E. unfold echAcquire. rewrite E, (load_expired c key t1 t2) by done.
  rewrite echStored_spec by done. eauto.
Qed.

(** ** Properties *)

(** C9: per key, one goroutine at a time is between [Lock] and [Unlock], so at
    most one fetch for a key is under way; and none is under way while the cache
    holds an unexpired entry for its key. *)
Theorem echAcquire_single_flight m :
  reachable m ->
  (forall t1 t2 key p1 p2, goroutines m !! t1 = Some (key, p1) -> critical p1 = true ->
     goroutines m !! t2 = Some (key, p2) -> critical p2 = true -> t1 = t2) /\
  (forall t key e, goroutines m !! t = Some (key, AtFetch) -> echCache m !! key = Some e ->
     expire e <= clock m).
Proof.
  intros Hg%reachable_good. split.
  - intros t1 t2 key p1 p2 E1 C1 E2 C2.
    assert (echFetchMu m !! key = Some (Some t1)) by (apply (good_holder m Hg); eauto).
    assert (echFetchMu m !! key = Some (Some t2)) by (apply (good_holder m Hg); eauto). congruence.
  - intros t key e Ht He. by apply (good_point m Hg t key _ Ht).
Qed.

(** C24: whatever [echAcquire] returns is the outcome of a fetch for that very key:
    of its own, or of one remembered for no longer than its lifetime (the TTL of
    the answer, ten minutes when it is zero, thirty seconds for a failure); the
    end of some caller's context is never handed to another. *)
Theorem echAcquire_answers m t key o :
  reachable m -> goroutines m !! t = Some (key, Returned o) ->
  (exists r, Fetched t key r ∈ log m /\ o = outcome_of r) \/
  (exists e now t' r t0, Hit t key e now ∈ log m /\ Fetched t' key r ∈ log m /\ o = outcome_of r /\
     t0 <= now < t0 + lifetime r /\ context_error r = false).
Proof.
  intros Hg%reachable_good Ht. destruct (good_point m Hg t key _ Ht) as [(r & Hr & Ho)|(e & now & Hh & Ho)].
  - left. exists r. split; [done|]. rewrite Ho. destruct r as [[]|]; done.
  - right. destruct (good_hit m Hg _ _ _ _ Hh) as [Hnow (t' & r & t0 & Hf & Ht0 & He & Hu)].
    rewrite echStored_spec in He by done. destruct (context_error r) eqn:Ec; simplify_eq/=.
    exists {| list_ := (outcome_of r).1; err := (outcome_of r).2; expire := t0 + lifetime r |}, now, t', r, t0.
    split_and!; [done|done|by destruct (outcome_of r)|done|done|done].
Qed.

(** C40: the acquisition cannot deadlock: from every reachable state a bounded
    number of steps of the goroutines alone lets every call return, and no run
    without new calls contains more steps of goroutines than that bound. *)
Theorem echAcquire_terminates m :
  reachable m ->
  (exists l m', Forall (fun a => own a = true) l /\ steps l m = Some m' /\
     forall t key p, goroutines m' !! t = Some (key, p) -> exists o, p = Returned o) /\
  (forall l m', steps l m = Some m' -> Forall (fun a => is_call a = false) l ->
     (length (filter (fun a => own a = true) l) <= total m)%nat).
Proof.
  intros Hg%reachable_good. split; [by apply can_finish|]. intros l m' Hs Hl.
  pose proof (steps_bounded l m m' Hg Hs Hl). lia.
Qed.

(** alone with a free mutex, the goroutine of the state machine computes the
    function [echAcquire]: the same cache, the same answer. *)
Theorem echAcquire_alone m t key d1 d2 d3 r :
  goroutines m !! t = None -> (forall h, echFetchMu m !! key <> Some (Some h)) ->
  0 <= d1 -> 0 <= d2 -> 0 <= d3 -> uint32_ttl r = true ->
  let c := clock m in
  let '(cache', o, _) := echAcquire (echCache m) key (c + d1) (c + d1 + d2) (c + d1 + d2 + d3) r in
  exists m', steps (alone t key (echCache m) c d1 d2 d3 r) m = Some m' /\
    echCache m' = cache' /\ goroutines m' = <[t := (key, Returned o)]> (goroutines m).
Proof. apply alone_returns. Qed.

(** after a call that fetched, the next call for the same key returns the
    same outcome without fetching exactly until the lifetime of that outcome has
    passed, and not at all when the fetch ended with its caller's context or the
    key was invalidated; other keys are not affected. *)
Theorem echAcquire_again c key t1 t2 t3 r c' o t1' t2' t3' r' :
  uint32_ttl r = true -> uint32_ttl r' = true -> t2 <= t3 <= t1' -> t1' <= t2' ->
  echAcquire c key t1 t2 t3 r = (c', o, true) ->
  let hit := negb (context_error r) && (t1' <? t3 + lifetime r) in
  let again := echAcquire c' key t1' t2' t3' r' in
  again.2 = negb hit /\ again.1.2 = (if hit then outcome_of r else outcome_of r') /\
  (forall k, k <> key -> c' !! k = c !! k) /\
  (key <> [] -> (echAcquire (echInvalidate key c') key t1' t2' t3' r').2 = true).
Proof.
  intros Hu Hu' Ht Ht' E hit again. apply echAcquire_missed in E as (-> & En & Ec'); [|done].
  split_and!.
  4:{ intros Hk. destruct (echAcquire_miss (echInvalidate key c') key t1' t2' t3' r') as [c'' ->]; try done.
      unfold echCacheLoad, echInvalidate. rewrite bool_decide_true by done. by rewrite lookup_delete_eq. }
  3:{ intros k Hk. rewrite Ec'. destruct (context_error r); [done|by apply lookup_insert_ne]. }
  all: unfold hit, again; destruct (context_error r) eqn:Ex; cbn [negb andb].
  1,3: destruct (echAcquire_miss c' key t1' t2' t3' r') as [c'' ->]; try done;
    rewrite Ec'; eapply load_expired; [done|lia].
  all: assert (echCacheLoad c' key t1' = if t1' <? t3 + lifetime r then Some (outcome_of r) else None) as El
    by (rewrite Ec'; unfold echCacheLoad; rewrite lookup_insert_eq; simpl;
        destruct (t1' <? _); by destruct (outcome_of r)).
  all: destruct (t1' <? t3 + lifetime r);
    [unfold echAcquire; by rewrite El|by destruct (echAcquire_miss c' key t1' t2' t3' r') as [c'' ->]].
Qed.

(** ** Witnesses *)

(** Two calls for one key: the second waits for the first and takes its answer. *)
Definition example_key : gostr := "k".

Definition example_fetch : list action :=
  [Call 0 example_key; Call 1 example_key; Run 0; Run 1; Run 0; Run 1; Run 0; Run 1;
   Run 0; Run 0; Run 0].
Definition example_rest : list action :=
  [FetchReturns 0 (Ok ([x01], 5)); Run 0; Run 0; Run 0; Tick 1000; Run 1; Run 1; Run 1; Run 1].
Definition at_fetch : machine := default start (steps example_fetch start).
Definition at_end : machine := default start (steps (example_fetch ++ example_rest) start).

Lemma at_fetch_reachable : reachable at_fetch.
Proof. exists example_fetch. vm_compute. reflexivity. Qed.
Lemma at_end_reachable : reachable at_end.
Proof. exists (example_fetch ++ example_rest). vm_compute. reflexivity. Qed.

Lemma echAcquire_single_flight_witness :
  goroutines at_fetch !! 0%nat = Some (example_key, AtFetch) /\
  forall t2 p2, goroutines at_fetch !! t2 = Some (example_key, p2) -> critical p2 = true -> 0%nat = t2.
Proof.
  split; [vm_compute; reflexivity|]. intros t2 p2.
  apply (proj1 (echAcquire_single_flight at_fetch at_fetch_reachable) 0%nat t2 example_key AtFetch);
    vm_compute; reflexivity.
Defined.

Lemma echAcquire_answers_witness :
  (exists r, Fetched 1 example_key r ∈ log at_end /\ ([x01], None) = outcome_of r) \/
  (exists e now t' r t0, Hit 1 example_key e now ∈ log at_end /\ Fetched t' example_key r ∈ log at_end /\
     ([x01], None) = outcome_of r /\ t0 <= now < t0 + lifetime r /\ context_error r = false).
Proof. apply (echAcquire_answers at_end 1 example_key); [apply at_end_reachable|vm_compute; reflexivity]. Defined.

Lemma echAcquire_terminates_witness :
  exists l m', Forall (fun a => own a = true) l /\ steps l at_fetch = Some m' /\
    forall t key p, goroutines m' !! t = Some (key, p) -> exists o, p = Returned o.
Proof. apply (echAcquire_terminates at_fetch at_fetch_reachable). Defined.

Lemma echAcquire_alone_witness :
  exists m', steps (alone 2 example_key (echCache at_end) (clock at_end) 0 0 0 (Err ContextCanceled)) at_end = Some m' /\
    echCache m' = echCache at_end /\
    goroutines m' = <[2%nat := (example_key, Returned ([x01], None))]> (goroutines at_end).
Proof.
  apply (echAcquire_alone at_end 2 example_key 0 0 0 (Err ContextCanceled));
    [vm_compute; reflexivity|vm_compute; congruence|vm_compute; congruence..|reflexivity].
Defined.

Lemma echAcquire_again_witness :
  (echAcquire (echAcquire ∅ example_key 0 0 1 (Err (NetError true "i/o timeout"))).1.1 example_key
     (29 * Second) (29 * Second) (29 * Second) (Ok ([x01], 0))).2 = false.
Proof.
  apply (echAcquire_again ∅ example_key 0 0 1 (Err (NetError true "i/o timeout"))
           _ ([], Some (NetError true "i/o timeout")) (29 * Second) (29 * Second) (29 * Second) (Ok ([x01], 0)));
    try reflexivity; vm_compute; intuition congruence.
Defined.
