(* ===== verification/WgKeys.v ===== *)
(** * Keys and options of the WireGuard probe ([libv2ray_wireguard_probe.go])

    Reading the base64 keys and the reserved bytes, clamping and drawing private
    keys, and the options record with what is read off it. *)

From S2P Require Import Prelude GoString GoCodec GoNet Xray Options World Noise.
Open Scope Z_scope.

Record wireGuardProbeOptions := {
  wg_Address : gostr;
  wg_IP : gostr;
  wg_PublicKey : gostr;
  wg_PrivateKey : gostr;
  wg_PresharedKey : gostr;
  wg_Reserved : gostr;
  wg_Timeout : Z;
  wg_Attempts : Z;
  wg_WNoise : gostr;
  wg_WNoiseCount : gostr;
  wg_WNoiseDelay : gostr;
  wg_WPayloadSize : gostr
}.

Definition wg_timeout (o : wireGuardProbeOptions) : Z :=
  if wg_Timeout o <=? 0 then defaultTimeoutMs * Millisecond
  else wrapS 64 (wg_Timeout o * Millisecond).

Definition attempts (o : wireGuardProbeOptions) : Z :=
  if wg_Attempts o <=? 0 then 2 else wg_Attempts o.

(** The noise fields in a transport options record whose other fields are zero. *)
Definition noise_fields `{XrayLib} (o : wireGuardProbeOptions) : transportOptions := {|
  Proxy := []; IP := []; Timeout := 0; AllowInsecure := false; ServerName := [];
  DisableChromeParrot := false; ALPN := []; QUICVersion := []; WNoise := wg_WNoise o;
  WNoiseCount := wg_WNoiseCount o; WNoiseDelay := wg_WNoiseDelay o;
  WPayloadSize := wg_WPayloadSize o; Fingerprint := []; Fragment := None; Ech := None;
  Browser := []; Variant := []; UserAgent := []; Headers := ∅
|}.

Definition noise `{XrayLib} `{Unicode} `{IntWidth} (o : wireGuardProbeOptions)
    : res (option noiseConfig) :=
  noise_config (noise_fields o).

(** [device.NoisePublicKeySize], the size of every key of the protocol. *)
Definition NoisePublicKeySize : nat := 32.

(** ** Base64 *)

Fixpoint decode_first (encs : list base64_encoding) (value : gostr) : res (list byte) :=
  match encs with
  | [] => Err (Errorf "cannot decode %q" [AStr value] None)
  | enc :: r => match b64_decode enc value with
                | Some raw => Ok raw
                | None => decode_first r value
                end
  end.

Definition decodeBase64Any (value : gostr) : res (list byte) :=
  decode_first [StdEncoding; RawStdEncoding; URLEncoding; RawURLEncoding] value.

Definition parseNoiseKey (value : gostr) (field : string) : res (list byte) :=
  let trimmed := TrimSpace value in
  if bool_decide (trimmed = []) then Err (Errorf "%s is required" [AStr field] None)
  else
    match decodeBase64Any trimmed with
    | Err e => Err (Errorf "%s is not valid base64: %w" [AStr field] (Some e))
    | Ok raw =>
      if negb (length raw =? NoisePublicKeySize)%nat
      then Err (Errorf "%s is %d bytes, want %d"
                       [AStr field; AInt (Z.of_nat (length raw)); AInt (Z.of_nat NoisePublicKeySize)] None)
      else Ok raw
    end.

(** ** The reserved bytes *)

Section Reserved.
Context `{IntWidth}.

Definition reserved_value (value part : gostr) : res byte :=
  let bad := Errorf "reserved %q is not three values in 0-255" [AStr value] None in
  match Atoi (TrimSpace part) with
  | None => Err bad
  | Some n => if (n <? 0) || (255 <? n) then Err bad else Ok (Zb n)
  end.

Definition parseReserved (value : gostr) : res (list byte) :=
  let trimmed := TrimSpace value in
  if bool_decide (trimmed = []) then Ok [x00; x00; x00]
  else if ContainsByte trimmed x2c then
    let parts := Split trimmed x2c in
    if negb (length parts =? 3)%nat
    then Err (Errorf "reserved %q has %d values, want 3"
                     [AStr value; AInt (Z.of_nat (length parts))] None)
    else mapM (reserved_value value) parts
  else
    match decodeBase64Any trimmed with
    | Err e => Err (Errorf "reserved %q is neither %q nor base64: %w" [AStr value; AStr "a,b,c"] (Some e))
    | Ok raw =>
      if negb (length raw =? 3)%nat
      then Err (Errorf "reserved decodes to %d bytes, want 3" [AInt (Z.of_nat (length raw))] None)
      else Ok raw
    end.

End Reserved.

(** ** Private keys *)

Definition clampPrivateKey (key : list byte) : list byte :=
  let key := <[0%nat := Zb (Z.land (bZ (default x00 (key !! 0%nat))) 248)]> key in
  <[31%nat := Zb (Z.lor (Z.land (bZ (default x00 (key !! 31%nat))) 127) 64)]> key.

Definition randomBytes (n : nat) : M (res (list byte)) :=
  r ← rand_read n;
  mret match r with
       | Err e => Err (Errorf "cannot read random bytes: %w" [] (Some e))
       | Ok b => Ok b
       end.

Definition randomNoisePrivateKey : M (res (list byte)) :=
  key ←? randomBytes NoisePublicKeySize; mret (Ok (clampPrivateKey key)).

(** ** What a clamped key is, as an integer

    The bits of the little-endian integer a private key stands for: a multiple
    of eight between 2^254 and 2^255. *)
Fixpoint le_int (bs : list byte) : Z :=
  match bs with [] => 0 | b :: r => bZ b + 256 * le_int r end.

Definition clamped (key : list byte) : Prop :=
  length key = 32%nat /\ le_int key mod 8 = 0 /\ 2 ^ 254 <= le_int key < 2 ^ 255.

(** ** Lemmas: base64 *)

Lemma decode_first_sound encs v bs :
  decode_first encs v = Ok bs -> exists enc, enc ∈ encs /\ b64_decode enc v = Some bs.
Proof.
  induction encs as [|e encs IH]; simpl; [done|]. destruct (b64_decode e v) as [bs'|] eqn:E.
  - intros [= ->]. exists e. split; [by left|done].
  - intros (enc & Hin & Hd)%IH. exists enc. split; [by right|done].
Qed.

Lemma decode_first_complete encs enc v bs :
  encs ⊆ b64_encodings -> enc ∈ encs -> b64_decode enc v = Some bs -> decode_first encs v = Ok bs.
Proof.
  induction encs as [|e encs IH]; intros Hs Hin Hd; [by apply elem_of_nil in Hin|]. simpl.
  destruct (b64_decode e v) as [bs'|] eqn:E.
  - f_equal. eapply (b64_decode_agree e enc); [apply Hs; by left|by apply Hs|done|done].
  - apply elem_of_cons in Hin as [->|Hin]; [congruence|]. apply IH; [|done|done].
    intros x Hx. apply Hs. by right.
Qed.

Lemma decodeBase64Any_Ok v bs :
  decodeBase64Any v = Ok bs <-> exists enc, enc ∈ b64_encodings /\ b64_decode enc v = Some bs.
Proof.
  split; [by apply decode_first_sound|]. intros (enc & He & Hd). by apply (decode_first_complete b64_encodings enc).
Qed.

Lemma decodeBase64Any_encode enc bs :
  enc ∈ b64_encodings -> decodeBase64Any (b64_encode enc bs) = Ok bs.
Proof. intros He. apply decodeBase64Any_Ok. exists enc. by rewrite b64_decode_encode. Qed.

Lemma parseNoiseKey_Ok v field key :
  parseNoiseKey v field = Ok key <->
  length key = 32%nat /\ exists enc, enc ∈ b64_encodings /\ b64_decode enc (TrimSpace v) = Some key.
Proof.
  unfold parseNoiseKey. set (s := TrimSpace v). destruct (bool_decide (s = [])) eqn:E; bools.
  - rewrite E. split; [done|]. intros (Hl & enc & He & Hd).
    assert (b64_decode enc [] = Some []) as Hn by by destruct enc. rewrite Hn in Hd. by simplify_eq.
  - rewrite <-decodeBase64Any_Ok. destruct (decodeBase64Any s) as [raw|e].
    + destruct (length raw =? NoisePublicKeySize)%nat eqn:El; cbn [negb].
      * apply Nat.eqb_eq in El. split; [by intros [= ->]|by intros [_ [= ->]]].
      * apply Nat.eqb_neq in El. split; [done|]. by intros [? [= ->]].
    + split; [done|]. by intros [_ ?].
Qed.

(** ** Lemmas: reserved bytes *)

Section ReservedLemmas.
Context `{IntWidth}.

Lemma reserved_value_Ok value part b :
  reserved_value value part = Ok b <->
  exists n, Atoi (TrimSpace part) = Some n /\ 0 <= n <= 255 /\ b = Zb n.
Proof.
  unfold reserved_value. destruct (Atoi (TrimSpace part)) as [n|]; [|split; [done|naive_solver]].
  destruct ((n <? 0) || (255 <? n)) eqn:E.
  - split; [done|]. intros (n' & [= ->] & Hn & _). apply orb_true_iff in E as [E|E]; bools; lia.
  - bools. split; [intros [= <-]; exists n; split_and!; (done || lia)|]. naive_solver.
Qed.

(** The list form of the reserved bytes: three numbers between commas. *)
Definition reserved_list (s : gostr) (bs : list byte) : Prop :=
  exists p q r a b c, Split s x2c = [p; q; r] /\
    Atoi (TrimSpace p) = Some a /\ Atoi (TrimSpace q) = Some b /\ Atoi (TrimSpace r) = Some c /\
    0 <= a <= 255 /\ 0 <= b <= 255 /\ 0 <= c <= 255 /\ bs = [Zb a; Zb b; Zb c].

Lemma reserved_parts value s bs :
  length (Split s x2c) = 3%nat ->
  mapM (reserved_value value) (Split s x2c) = Ok bs <-> reserved_list s bs.
Proof.
  unfold reserved_list. destruct (Split s x2c) as [|p [|q [|r [|]]]]; try done. intros _.
  cbn [mapM]. rewrite res_bind_Ok. split.
  - intros (x & Hx & E). apply res_bind_Ok in E as (l & E & [= <-]).
    apply res_bind_Ok in E as (y & Hy & E). apply res_bind_Ok in E as (l' & E & [= <-]).
    apply res_bind_Ok in E as (z & Hz & E). simplify_eq/=.
    apply reserved_value_Ok in Hx as (a & ? & ? & ->), Hy as (b & ? & ? & ->), Hz as (c & ? & ? & ->).
    exists p, q, r, a, b, c. injection E as <-. split_and!; (done || lia).
  - intros (p' & q' & r' & a & b & c & [= <- <- <-] & Ha & Hb & Hc & ? & ? & ? & ->).
    exists (Zb a). rewrite (proj2 (reserved_value_Ok value p (Zb a))) by eauto. split; [done|].
    rewrite (proj2 (reserved_value_Ok value q (Zb b))) by eauto.
    by rewrite (proj2 (reserved_value_Ok value r (Zb c))) by eauto.
Qed.

Lemma Split_length_comma s p q r : Split s x2c = [p; q; r] -> x2c ∈ s.
Proof.
  intros E. destruct (decide (x2c ∈ s)) as [|Hn]; [done|]. by rewrite Split_single in E.
Qed.

Lemma parseReserved_Ok v bs :
  parseReserved v = Ok bs <->
  (TrimSpace v = [] /\ bs = [x00; x00; x00]) \/
  reserved_list (TrimSpace v) bs \/
  (TrimSpace v <> [] /\ x2c ∉ TrimSpace v /\ length bs = 3%nat /\
   exists enc, enc ∈ b64_encodings /\ b64_decode enc (TrimSpace v) = Some bs).
Proof.
  unfold parseReserved. set (s := TrimSpace v). destruct (bool_decide (s = [])) eqn:E; bools.
  { rewrite E. split; [intros [= <-]; by left|].
    intros [[_ ->]|[(p & q & r & a & b & c & Hs & _)|(? & _)]]; done. }
  destruct (ContainsByte s x2c) eqn:Ec.
  - apply ContainsByte_true in Ec. destruct (length (Split s x2c) =? 3)%nat eqn:El; cbn [negb].
    + apply Nat.eqb_eq in El. rewrite reserved_parts by done. naive_solver.
    + apply Nat.eqb_neq in El. split; [done|].
      intros [[? _]|[(p & q & r & a & b & c & Hs & _)|(_ & ? & _)]]; [done| |done]. by rewrite Hs in El.
  - apply ContainsByte_false in Ec. rewrite <-decodeBase64Any_Ok.
    destruct (decodeBase64Any s) as [raw|e].
    + destruct (length raw =? 3)%nat eqn:El; cbn [negb];
        [apply Nat.eqb_eq in El|apply Nat.eqb_neq in El]; (split; [try done|]).
      * intros [= <-]. right. by right.
      * intros [[? _]|[(p & q & r & a & b & c & Hs & _)|(_ & _ & _ & ?)]]; [done| |done].
        by apply Split_length_comma in Hs.
      * intros [[? _]|[(p & q & r & a & b & c & Hs & _)|(_ & _ & ? & ?)]]; [done| |congruence].
        by apply Split_length_comma in Hs.
    + split; [done|]. intros [[? _]|[(p & q & r & a & b & c & Hs & _)|(_ & _ & _ & ?)]]; [done| |done].
      by apply Split_length_comma in Hs.
Qed.

End ReservedLemmas.

(** ** Lemmas: clamping *)

Lemma key_split (key : list byte) :
  length key = 32%nat -> exists a mid z, key = a :: mid ++ [z] /\ length mid = 30%nat.
Proof.
  intros Hl. destruct key as [|a r]; [done|]. destruct (exists_last (l := r)) as (mid & z & ->).
  { by destruct r. }
  exists a, mid, z. split; [done|]. simpl in Hl. rewrite length_app in Hl. simpl in Hl. lia.
Qed.

Definition clamp_low (b : byte) : byte := Zb (Z.land (bZ b) 248).
Definition clamp_high (b : byte) : byte := Zb (Z.lor (Z.land (bZ b) 127) 64).

Lemma clampPrivateKey_bytes a mid z :
  length mid = 30%nat ->
  clampPrivateKey (a :: mid ++ [z]) = clamp_low a :: mid ++ [clamp_high z].
Proof.
  intros Hl. unfold clampPrivateKey. cbn [lookup list_lookup default]. simpl.
  f_equal. rewrite lookup_app_r by lia. rewrite Hl. simpl. by rewrite insert_app_r_alt, Hl by lia.
Qed.

Lemma clamp_bits b :
  bZ (clamp_low b) mod 8 = 0 /\ 64 <= bZ (clamp_high b) < 128 /\
  clamp_low (clamp_low b) = clamp_low b /\ clamp_high (clamp_high b) = clamp_high b.
Proof.
  assert (forallb (fun n => let b := Zb n in
    (bZ (clamp_low b) mod 8 =? 0) && (64 <=? bZ (clamp_high b)) && (bZ (clamp_high b) <? 128) &&
    bool_decide (clamp_low (clamp_low b) = clamp_low b) &&
    bool_decide (clamp_high (clamp_high b) = clamp_high b)) (seqZ 0 256) = true) as C by (vm_compute; reflexivity).
  rewrite forallb_forall in C. specialize (C (bZ b)).
  rewrite <-list_elem_of_In, elem_of_seqZ, Zb_bZ in C. pose proof (bZ_range b).
  specialize (C ltac:(lia)). cbn zeta in C. bools. done.
Qed.

Lemma le_int_snoc l b : le_int (l ++ [b]) = le_int l + 256 ^ Z.of_nat (length l) * bZ b.
Proof.
  induction l as [|x l IH]; [simpl; lia|]. cbn [app le_int length]. rewrite IH, Nat2Z.inj_succ, Z.pow_succ_r by lia.
  lia.
Qed.

Lemma le_int_range l : 0 <= le_int l < 256 ^ Z.of_nat (length l).
Proof.
  induction l as [|x l IH]; [simpl; lia|]. cbn [le_int length]. rewrite Nat2Z.inj_succ, Z.pow_succ_r by lia.
  pose proof (bZ_range x). lia.
Qed.

Lemma clampPrivateKey_length key : length (clampPrivateKey key) = length key.
Proof. unfold clampPrivateKey. by rewrite !length_insert. Qed.

Lemma clampPrivateKey_clamped key : length key = 32%nat -> clamped (clampPrivateKey key).
Proof.
  intros (a & mid & z & -> & Hm)%key_split. rewrite clampPrivateKey_bytes by done.
  destruct (clamp_bits a) as (Ha & _ & _ & _). destruct (clamp_bits z) as (_ & Hz & _ & _).
  split; [simpl; rewrite length_app; simpl; lia|].
  cbn [le_int]. rewrite le_int_snoc, Hm. pose proof (le_int_range mid) as Hr. rewrite Hm in Hr.
  pose proof (bZ_range (clamp_low a)).
  change (256 ^ Z.of_nat 30) with (2 ^ 240) in *. split.
  - rewrite Z.add_mod, Ha by lia. replace (256 * (_ + _)) with ((32 * (le_int mid + 2 ^ 240 * bZ (clamp_high z))) * 8) by lia.
    by rewrite Z.mod_mul.
  - replace (2 ^ 254) with (256 * (2 ^ 240 * 64)) by lia.
    replace (2 ^ 255) with (256 * (2 ^ 240 * 128)) by lia. lia.
Qed.

Lemma clampPrivateKey_idemp key :
  length key = 32%nat -> clampPrivateKey (clampPrivateKey key) = clampPrivateKey key.
Proof.
  intros (a & mid & z & -> & Hm)%key_split. rewrite !clampPrivateKey_bytes by done.
  destruct (clamp_bits a) as (_ & _ & -> & _). by destruct (clamp_bits z) as (_ & _ & _ & ->).
Qed.

Lemma randomBytes_ok w h n :
  world_ok w -> wp (randomBytes n) w h (fun t r =>
    quiet t /\ match r with Ok b => length b = n | Err _ => starved t end).
Proof.
  intros Hw. unfold randomBytes, rand_read. wp_step. apply wp_ret.
  split; [by repeat constructor|]. destruct a as [b|e]; [|by repeat constructor].
  symmetry in Ea. by apply rand_length in Ea.
Qed.

Lemma randomNoisePrivateKey_ok w h :
  world_ok w -> wp randomNoisePrivateKey w h (fun t r =>
    quiet t /\ match r with Ok k => clamped k | Err _ => starved t end).
Proof.
  intros Hw. unfold randomNoisePrivateKey. wp_step. eapply wp_mono; [by apply randomBytes_ok|].
  intros t [b|e] [Ht Hr]; [|done]. apply wp_ret. rewrite app_nil_r. split; [done|].
  by apply clampPrivateKey_clamped.
Qed.

(** ** Properties *)

(** a key is accepted exactly when, without surrounding white space, it is
    the base64 of 32 bytes in the standard or the URL alphabet, padded or not;
    the encodings never disagree about the bytes, and every encoding of a key is
    read back. *)
Theorem parseNoiseKey_spec v field key :
  (parseNoiseKey v field = Ok key <->
   length key = 32%nat /\ exists enc, enc ∈ b64_encodings /\ b64_decode enc (TrimSpace v) = Some key) /\
  (length key = 32%nat -> forall enc, enc ∈ b64_encodings -> TrimSpace v = b64_encode enc key ->
   parseNoiseKey v field = Ok key).
Proof.
  split; [apply parseNoiseKey_Ok|]. intros Hl enc He Hv. apply parseNoiseKey_Ok. split; [done|].
  exists enc. split; [done|]. rewrite Hv. by apply b64_decode_encode.
Qed.

(** the reserved bytes are three: zeros for an empty text, the values of a
    comma-separated list of three numbers of 0 to 255, or, for a text without a
    comma, what its base64 in any of the four alphabets decodes to. Nothing else
    is accepted. *)
Theorem parseReserved_spec `{IntWidth} v bs :
  parseReserved v = Ok bs <->
  (TrimSpace v = [] /\ bs = [x00; x00; x00]) \/
  reserved_list (TrimSpace v) bs \/
  (TrimSpace v <> [] /\ x2c ∉ TrimSpace v /\ length bs = 3%nat /\
   exists enc, enc ∈ b64_encodings /\ b64_decode enc (TrimSpace v) = Some bs).
Proof. apply parseReserved_Ok. Qed.

(** a private key drawn by the probe is a Curve25519 scalar: 32 bytes that
    stand for a multiple of eight between 2^254 and 2^255. Clamping a key that
    the caller supplied does the same, and nothing to one already clamped. *)
Theorem randomNoisePrivateKey_clamped w h :
  world_ok w ->
  wp randomNoisePrivateKey w h
    (fun t r => match r with Ok k => clamped k | Err _ => starved t end) /\
  forall key, length key = 32%nat ->
    clamped (clampPrivateKey key) /\ clampPrivateKey (clampPrivateKey key) = clampPrivateKey key.
Proof.
  intros Hw. split.
  - eapply wp_mono; [by apply randomNoisePrivateKey_ok|]. by intros t r [_ ?].
  - intros key Hl. split; [by apply clampPrivateKey_clamped|by apply clampPrivateKey_idemp].
Qed.

(** ** Witnesses *)

Lemma randomNoisePrivateKey_clamped_witness :
  wp randomNoisePrivateKey sample_world []
    (fun t r => match r with Ok k => clamped k | Err _ => starved t end) /\
  is_Ok (randomNoisePrivateKey sample_world []).2 = true.
Proof.
  split; [|vm_compute; reflexivity].
  exact (proj1 (randomNoisePrivateKey_clamped sample_world [] (world_answering_ok _))).
Defined.
