(* ===== verification/WgHandshake.v ===== *)
(** * The WireGuard handshake ([libv2ray_wireguard_probe.go])

    The initiator half of Noise_IKpsk2 as the probe performs it:
    [createInitiation] and [consumeResponse]. The ciphers and the message layouts
    belong to other packages and are parameters, with what their documentation
    promises as laws; the responder the probe talks to is written out from the
    protocol, as the specification the two functions are held against. *)

From S2P Require Import Prelude GoCodec World WgKeys.
Open Scope Z_scope.

(** The messages of the [device] package, field by field. *)
Record MessageResponse := {
  resp_Type : Z;
  resp_Sender : Z;
  resp_Receiver : Z;
  resp_Ephemeral : list byte;
  resp_Empty : list byte
}.

Record MessageInitiation := {
  init_Type : Z;
  init_Sender : Z;
  init_Ephemeral : list byte;
  init_Static : list byte;
  init_Timestamp : list byte
}.

Class WireGuardLib := {
  (** [device]: constants, KDFs, MACs. *)
  MessageInitiationType : Z;
  MessageResponseType : Z;
  MessageInitiationSize : nat;
  MessageResponseSize : nat;
  InitialHash : list byte;
  InitialChainKey : list byte;
  ZeroNonce : list byte;
  KDF1 : list byte -> list byte -> list byte;
  KDF2 : list byte -> list byte -> list byte * list byte;
  KDF3 : list byte -> list byte -> list byte * list byte * list byte;
  (** A fresh [CookieGenerator] for a public key, applied to a packet. *)
  AddMacs : list byte -> list byte -> list byte;
  mac1 : list byte -> list byte -> list byte;
  (** [binary.Write] of an initiation whose MACs are zero, and [binary.Read] of a
      response. *)
  Write_MessageInitiation : MessageInitiation -> res (list byte);
  Read_MessageResponse : list byte -> res MessageResponse;
  (** [blake2s], [curve25519], [chacha20poly1305], [tai64n]. *)
  blake2s : list byte -> list byte;
  X25519 : list byte -> list byte -> res (list byte);
  Basepoint : list byte;
  AEAD : Type;
  chacha20poly1305_New : list byte -> res AEAD;
  Seal : AEAD -> list byte -> list byte -> list byte -> list byte;
  Open_ : AEAD -> list byte -> list byte -> list byte -> res (list byte);
  tai64n_of : Z -> list byte
}.

Section Handshake.
Context `{WireGuardLib}.

(** [mixHashInto]: BLAKE2s of the running hash and the new data. *)
Definition mixHash (h data : list byte) : list byte := blake2s (h ++ data).

Definition sharedSecret (private public : list byte) : res (list byte) :=
  match X25519 private public with
  | Err e => Err (Errorf "invalid key material: %w" [] (Some e))
  | Ok secret => Ok secret
  end.

Definition publicKeyOf (private : list byte) : res (list byte) :=
  match X25519 private Basepoint with
  | Err e => Err (Errorf "invalid private key: %w" [] (Some e))
  | Ok public => Ok public
  end.

Record initiatorState := {
  hs_hash : list byte;
  hs_chainKey : list byte;
  hs_localEphemeral : list byte;
  hs_localIndex : Z
}.

(** [packet[1], packet[2], packet[3] = reserved[0], reserved[1], reserved[2]]. *)
Definition set_reserved (packet reserved : list byte) : list byte :=
  list_inserts 1 reserved packet.

(** [return ..., err] after a call without effects. *)
Definition lift {A} (r : res A) : M (res A) := mret r.

Definition createInitiation (ourPrivate peerPublic reserved : list byte)
    : M (res (initiatorState * list byte)) :=
  localEphemeral ←? randomNoisePrivateKey;
  ourPublic ←? lift (publicKeyOf ourPrivate);
  ephemeralPublic ←? lift (publicKeyOf localEphemeral);
  let hash := mixHash InitialHash peerPublic in
  let chainKey := KDF1 InitialChainKey ephemeralPublic in
  let hash := mixHash hash ephemeralPublic in
  ss ←? lift (sharedSecret localEphemeral peerPublic);
  let '(chainKey, key) := KDF2 chainKey ss in
  aead ←? lift (chacha20poly1305_New key);
  let static := Seal aead ZeroNonce ourPublic hash in
  let hash := mixHash hash static in
  staticStatic ←? lift (sharedSecret ourPrivate peerPublic);
  let '(chainKey, key) := KDF2 chainKey staticStatic in
  aead ←? lift (chacha20poly1305_New key);
  t ← now;
  let timestamp := Seal aead ZeroNonce (tai64n_of t) hash in
  indexBytes ←? randomBytes 4;
  let index := le_Uint32 indexBytes in
  let hash := mixHash hash timestamp in
  packet ←? lift (Write_MessageInitiation
                    {| init_Type := MessageInitiationType; init_Sender := index;
                       init_Ephemeral := ephemeralPublic; init_Static := static;
                       init_Timestamp := timestamp |});
  if negb (length packet =? MessageInitiationSize)%nat
  then mret (Err (Errorf "built a %d byte initiation, want %d"
                         [AInt (Z.of_nat (length packet)); AInt (Z.of_nat MessageInitiationSize)] None))
  else
    let packet := set_reserved (AddMacs peerPublic packet) reserved in
    mret (Ok ({| hs_hash := hash; hs_chainKey := chainKey; hs_localEphemeral := localEphemeral;
                 hs_localIndex := index |}, packet)).

Definition consumeResponse (hs : initiatorState) (packet ourPrivate psk : list byte) : res bool :=
  let clean := set_reserved packet [x00; x00; x00] in
  msg ← Read_MessageResponse clean;
  if negb (resp_Receiver msg =? hs_localIndex hs) then Ok false
  else
    let hash := mixHash (hs_hash hs) (resp_Ephemeral msg) in
    let chainKey := KDF1 (hs_chainKey hs) (resp_Ephemeral msg) in
    match sharedSecret (hs_localEphemeral hs) (resp_Ephemeral msg) with
    | Err _ => Ok false
    | Ok ss =>
      let chainKey := KDF1 chainKey ss in
      match sharedSecret ourPrivate (resp_Ephemeral msg) with
      | Err _ => Ok false
      | Ok ss =>
        let chainKey := KDF1 chainKey ss in
        let '(chainKey, tau, key) := KDF3 chainKey psk in
        let hash := mixHash hash tau in
        aead ← chacha20poly1305_New key;
        match Open_ aead ZeroNonce (resp_Empty msg) hash with
        | Err _ => Ok false
        | Ok _ => Ok true
        end
      end
    end.

(** ** The responder, from the protocol

    What a WireGuard peer that holds the private key for [peerPublic] does with an
    initiation, and how it answers. The reserved bytes are stripped before the
    MAC is checked, as Cloudflare's peers do. *)

Definition sub (p : list byte) (off n : nat) : list byte := take n (drop off p).

Definition mac1_valid (public packet : list byte) : Prop :=
  sub packet 116 16 = mac1 public (take 116 packet).
#[export] Instance mac1_valid_dec public packet : Decision (mac1_valid public packet).
Proof. unfold mac1_valid. apply _. Defined.

Record transcript := {
  tr_hash : list byte;
  tr_chainKey : list byte;
  tr_static : list byte;
  tr_timestamp : list byte;
  tr_ephemeral : list byte;
  tr_index : Z
}.

Definition responder_consume (private packet : list byte) : res transcript :=
  let p := set_reserved packet [x00; x00; x00] in
  let bad := OtherError "dropped" in
  public ← X25519 private Basepoint;
  _ ← check (negb (length p =? 148)%nat) bad;
  _ ← check (negb (le_Uint32 p =? 1)) bad;
  _ ← check (negb (bool_decide (mac1_valid public p))) bad;
  let ephemeral := sub p 8 32 in
  let hash := mixHash InitialHash public in
  let chainKey := KDF1 InitialChainKey ephemeral in
  let hash := mixHash hash ephemeral in
  ss ← X25519 private ephemeral;
  let '(chainKey, key) := KDF2 chainKey ss in
  aead ← chacha20poly1305_New key;
  static ← Open_ aead ZeroNonce (sub p 40 48) hash;
  let hash := mixHash hash (sub p 40 48) in
  ss ← X25519 private static;
  let '(chainKey, key) := KDF2 chainKey ss in
  aead ← chacha20poly1305_New key;
  timestamp ← Open_ aead ZeroNonce (sub p 88 28) hash;
  let hash := mixHash hash (sub p 88 28) in
  Ok {| tr_hash := hash; tr_chainKey := chainKey; tr_static := static;
        tr_timestamp := timestamp; tr_ephemeral := ephemeral; tr_index := le_Uint32 (drop 4 p) |}.

(** The answer under a fresh ephemeral key, with any index, reserved bytes and
    MACs of the responder's own. *)
Definition responder_answer (tr : transcript) (ephemeral psk reserved macs : list byte) (index : Z)
    : res (list byte) :=
  public ← X25519 ephemeral Basepoint;
  let hash := mixHash (tr_hash tr) public in
  let chainKey := KDF1 (tr_chainKey tr) public in
  ss ← X25519 ephemeral (tr_ephemeral tr);
  let chainKey := KDF1 chainKey ss in
  ss ← X25519 ephemeral (tr_static tr);
  let chainKey := KDF1 chainKey ss in
  let '(chainKey, tau, key) := KDF3 chainKey psk in
  let hash := mixHash hash tau in
  aead ← chacha20poly1305_New key;
  Ok ([x02] ++ reserved ++ le_put32 index ++ le_put32 (tr_index tr) ++ public ++
      Seal aead ZeroNonce [] hash ++ macs).

(** The one payload the initiator accepts from a peer with ephemeral key [e]. *)
Definition response_tag (hs : initiatorState) (ourPrivate psk e : list byte) : res (list byte) :=
  s1 ← X25519 (hs_localEphemeral hs) e;
  s2 ← X25519 ourPrivate e;
  let '(_, tau, key) := KDF3 (KDF1 (KDF1 (KDF1 (hs_chainKey hs) e) s1) s2) psk in
  aead ← chacha20poly1305_New key;
  Ok (Seal aead ZeroNonce [] (mixHash (mixHash (hs_hash hs) e) tau)).

(** ** What the documentation of the libraries promises *)

Class WireGuardLaws : Prop := {
  message_types : MessageInitiationType = 1 /\ MessageResponseType = 2;
  message_sizes : MessageInitiationSize = 148%nat /\ MessageResponseSize = 92%nat;
  X25519_length k p s : X25519 k p = Ok s -> length s = 32%nat;
  (** Diffie-Hellman: both sides of an exchange compute the same secret. *)
  X25519_exchange a b A B :
    X25519 a Basepoint = Ok A -> X25519 b Basepoint = Ok B -> X25519 a B = X25519 b A;
  KDF2_length k i : length (KDF2 k i).1 = 32%nat /\ length (KDF2 k i).2 = 32%nat;
  KDF3_length k i : length (KDF3 k i).2 = 32%nat;
  chacha_New k : length k = 32%nat -> exists a, chacha20poly1305_New k = Ok a;
  Seal_length a n p ad : length (Seal a n p ad) = (length p + 16)%nat;
  (** An AEAD opens exactly what it sealed. *)
  Open_exact a n c p ad : Open_ a n c ad = Ok p <-> c = Seal a n p ad;
  tai64n_length t : length (tai64n_of t) = 12%nat;
  (** The layouts: little-endian integers, no padding, sixteen bytes for each MAC. *)
  Write_layout m :
    length (init_Ephemeral m) = 32%nat -> length (init_Static m) = 48%nat ->
    length (init_Timestamp m) = 28%nat ->
    Write_MessageInitiation m =
      Ok (le_put32 (init_Type m) ++ le_put32 (init_Sender m) ++ init_Ephemeral m ++
          init_Static m ++ init_Timestamp m ++ replicate 32 x00);
  Read_layout p : length p = 92%nat ->
    Read_MessageResponse p =
      Ok {| resp_Type := le_Uint32 p; resp_Sender := le_Uint32 (drop 4 p);
            resp_Receiver := le_Uint32 (drop 8 p); resp_Ephemeral := sub p 12 32;
            resp_Empty := sub p 44 16 |};
  (** [AddMacs] writes mac1 over everything before it; mac2 stays as it is. *)
  AddMacs_layout k p : length p = 148%nat ->
    AddMacs k p = take 116 p ++ mac1 k (take 116 p) ++ drop 132 p;
  mac1_length k p : length (mac1 k p) = 16%nat
}.

(** ** Lemmas: cutting packets *)

Lemma sub_skip a b k n : sub (a ++ b) (length a + k) n = sub b k n.
Proof. unfold sub. rewrite <-drop_drop, drop_app_length. done. Qed.

Lemma sub_here a b n : length a = n -> sub (a ++ b) 0 n = a.
Proof. intros <-. unfold sub. by rewrite drop_0, take_app_length. Qed.

Lemma sub_at a b c off n : length a = off -> length b = n -> sub (a ++ b ++ c) off n = b.
Proof. intros <- Hb. rewrite <-(Nat.add_0_r (length a)), sub_skip. by apply sub_here. Qed.

Lemma set_reserved_cons a x y z r rsv :
  length rsv = 3%nat -> set_reserved (a :: x :: y :: z :: r) rsv = a :: rsv ++ r.
Proof. destruct rsv as [|b0 [|b1 [|b2 [|]]]]; done. Qed.

Lemma set_reserved_strip a r rsv :
  length rsv = 3%nat ->
  set_reserved (a :: rsv ++ r) [x00; x00; x00] = a :: [x00; x00; x00] ++ r.
Proof. destruct rsv as [|b0 [|b1 [|b2 [|]]]]; done. Qed.

(** An initiation on the wire: type, reserved bytes, sender, ephemeral key, the
    two sealed fields, mac1, and sixteen zeros for mac2. *)
Definition initiation_wire (public reserved : list byte) (index : Z) (e static timestamp : list byte)
    : list byte :=
  let fields := le_put32 index ++ e ++ static ++ timestamp in
  [x01] ++ reserved ++ fields ++ mac1 public ([x01; x00; x00; x00] ++ fields) ++ replicate 16 x00.

Lemma fields_length index (e static timestamp : list byte) :
  length e = 32%nat -> length static = 48%nat -> length timestamp = 28%nat ->
  length (le_put32 index ++ e ++ static ++ timestamp) = 112%nat.
Proof. intros He Hs Ht. rewrite !length_app, He, Hs, Ht. done. Qed.

End Handshake.

Section Agreement.
Context `{WireGuardLib} `{!WireGuardLaws}.
#[local] Set Default Proof Using "Type*".

Lemma written_initiation public reserved index e static timestamp :
  length e = 32%nat -> length static = 48%nat -> length timestamp = 28%nat ->
  length reserved = 3%nat ->
  exists p, Write_MessageInitiation
      {| init_Type := MessageInitiationType; init_Sender := index; init_Ephemeral := e;
         init_Static := static; init_Timestamp := timestamp |} = Ok p /\
    length p = MessageInitiationSize /\
    set_reserved (AddMacs public p) reserved = initiation_wire public reserved index e static timestamp.
Proof.
  intros He Hs Ht Hr. rewrite Write_layout by done. cbn [init_Type init_Sender init_Ephemeral init_Static init_Timestamp].
  destruct message_types as [-> _]. destruct message_sizes as [-> _].
  pose proof (fields_length index e static timestamp He Hs Ht) as Hf.
  unfold initiation_wire. set (fields := le_put32 index ++ e ++ static ++ timestamp) in *.
  set (p := le_put32 1 ++ le_put32 index ++ e ++ static ++ timestamp ++ replicate 32 x00).
  assert (p = ([x01; x00; x00; x00] ++ fields) ++ replicate 32 x00) as Ep.
  { unfold p, fields. by rewrite <-!app_assoc. }
  assert (length ([x01; x00; x00; x00] ++ fields) = 116%nat) as Hl by (rewrite length_app, Hf; done).
  assert (length p = 148%nat) as Hp by (rewrite Ep, length_app, Hl; done).
  exists p. split_and!; [done|done|]. rewrite AddMacs_layout by done.
  assert (take 116 p = [x01; x00; x00; x00] ++ fields) as ->.
  { rewrite Ep. by apply take_app_length'. }
  assert (drop 132 p = replicate 16 x00) as ->.
  { rewrite Ep. change 132%nat with (116 + 16)%nat. rewrite <-drop_drop, drop_app_length' by done. done. }
  rewrite <-!app_assoc. cbn [app]. by rewrite set_reserved_cons.
Qed.

Lemma initiation_wire_length public reserved index e static timestamp :
  length e = 32%nat -> length static = 48%nat -> length timestamp = 28%nat ->
  length reserved = 3%nat ->
  length (initiation_wire public reserved index e static timestamp) = 148%nat.
Proof.
  intros He Hs Ht Hr. unfold initiation_wire.
  set (m := mac1 _ _). assert (length m = 16%nat) as Hm by apply mac1_length.
  rewrite !length_app, He, Hs, Ht, Hr, Hm. done.
Qed.
(** What the responder reads off it. *)
Lemma wire_parts public reserved index e static timestamp :
  length e = 32%nat -> length static = 48%nat -> length timestamp = 28%nat ->
  length reserved = 3%nat -> 0 <= index < 2 ^ 32 ->
  let p := set_reserved (initiation_wire public reserved index e static timestamp) [x00; x00; x00] in
  length p = 148%nat /\ le_Uint32 p = 1 /\ mac1_valid public p /\
  sub p 8 32 = e /\ sub p 40 48 = static /\ sub p 88 28 = timestamp /\ le_Uint32 (drop 4 p) = index.
Proof.
  intros He Hs Ht Hr Hi p.
  pose proof (fields_length index e static timestamp He Hs Ht) as Hf.
  assert (p = [x01; x00; x00; x00] ++ (le_put32 index ++ e ++ static ++ timestamp) ++
              mac1 public ([x01; x00; x00; x00] ++ le_put32 index ++ e ++ static ++ timestamp) ++
              replicate 16 x00) as Ep.
  { unfold p, initiation_wire. cbn [app]. by rewrite set_reserved_strip. }
  assert (length (mac1 public ([x01; x00; x00; x00] ++ le_put32 index ++ e ++ static ++ timestamp)) = 16%nat)
    as Hm by apply mac1_length.
  clearbody p. subst p. split_and!.
  - rewrite !length_app, He, Hs, Ht, Hm. done.
  - reflexivity.
  - unfold mac1_valid. set (fields := le_put32 index ++ e ++ static ++ timestamp) in *.
    rewrite app_assoc. rewrite sub_at by (rewrite ?length_app, ?Hf; done).
    by rewrite take_app_length' by (rewrite length_app, Hf; done).
  - rewrite <-!app_assoc, app_assoc. by apply sub_at.
  - rewrite <-!app_assoc, 2!app_assoc. apply sub_at; [rewrite !length_app, He; done|done].
  - rewrite <-!app_assoc, 3!app_assoc. apply sub_at; [rewrite !length_app, He, Hs; done|done].
  - change (drop 4 _) with ((le_put32 index ++ e ++ static ++ timestamp) ++
              mac1 public ([x01; x00; x00; x00] ++ le_put32 index ++ e ++ static ++ timestamp) ++
              replicate 16 x00).
    rewrite <-app_assoc. by apply le_Uint32_put.
Qed.

(** ** Lemmas: the two sides compute the same *)

Lemma sharedSecret_Ok k p s : sharedSecret k p = Ok s <-> X25519 k p = Ok s.
Proof. unfold sharedSecret. destruct (X25519 k p); split; congruence. Qed.

Lemma publicKeyOf_Ok k p : publicKeyOf k = Ok p <-> X25519 k Basepoint = Ok p.
Proof. unfold publicKeyOf. destruct (X25519 k Basepoint); split; congruence. Qed.

(** The chain of keys an initiation is built with. *)
Definition initiation_keys (ourPrivate peerPublic : list byte) (hs : initiatorState)
    (e static timestamp : list byte) (t : Z) : Prop :=
  exists ourPublic ss sss k1 k2 c1 c2 a1 a2,
    X25519 ourPrivate Basepoint = Ok ourPublic /\
    X25519 (hs_localEphemeral hs) Basepoint = Ok e /\
    X25519 (hs_localEphemeral hs) peerPublic = Ok ss /\
    X25519 ourPrivate peerPublic = Ok sss /\
    KDF2 (KDF1 InitialChainKey e) ss = (c1, k1) /\ chacha20poly1305_New k1 = Ok a1 /\
    static = Seal a1 ZeroNonce ourPublic (mixHash (mixHash InitialHash peerPublic) e) /\
    KDF2 c1 sss = (c2, k2) /\ chacha20poly1305_New k2 = Ok a2 /\
    timestamp = Seal a2 ZeroNonce (tai64n_of t)
      (mixHash (mixHash (mixHash InitialHash peerPublic) e) static) /\
    hs_hash hs = mixHash (mixHash (mixHash (mixHash InitialHash peerPublic) e) static) timestamp /\
    hs_chainKey hs = c2.

Lemma responder_consumes peerPrivate ourPrivate peerPublic hs e static timestamp t reserved :
  X25519 peerPrivate Basepoint = Ok peerPublic -> length reserved = 3%nat ->
  0 <= hs_localIndex hs < 2 ^ 32 ->
  initiation_keys ourPrivate peerPublic hs e static timestamp t ->
  exists tr,
    responder_consume peerPrivate
      (initiation_wire peerPublic reserved (hs_localIndex hs) e static timestamp) = Ok tr /\
    tr_hash tr = hs_hash hs /\ tr_chainKey tr = hs_chainKey hs /\
    X25519 ourPrivate Basepoint = Ok (tr_static tr) /\ tr_timestamp tr = tai64n_of t /\
    tr_ephemeral tr = e /\ tr_index tr = hs_localIndex hs.
Proof.
  intros Hpeer Hr Hi (ourPublic & ss & sss & k1 & k2 & c1 & c2 & a1 & a2 & Hour & He & Hss & Hsss & Hk1 &
    Ha1 & Hst & Hk2 & Ha2 & Hts & Hh & Hc).
  exists {| tr_hash := hs_hash hs; tr_chainKey := hs_chainKey hs; tr_static := ourPublic;
            tr_timestamp := tai64n_of t; tr_ephemeral := e; tr_index := hs_localIndex hs |}.
  split; [|done].
  assert (length e = 32%nat) as Le by by eapply X25519_length.
  assert (length static = 48%nat) as Ls.
  { rewrite Hst, Seal_length. by rewrite (X25519_length _ _ _ Hour). }
  assert (length timestamp = 28%nat) as Lt.
  { rewrite Hts, Seal_length. by rewrite tai64n_length. }
  destruct (wire_parts peerPublic reserved (hs_localIndex hs) e static timestamp Le Ls Lt Hr Hi)
    as (E1 & E2 & E3 & E4 & E5 & E6 & E7).
  unfold responder_consume. rewrite E1, E2, E4, E5, E6, E7, Hpeer. cbn [mbind res_bind check Nat.eqb negb].
  rewrite bool_decide_true by done. cbn [mbind res_bind check Z.eqb negb].
  rewrite (X25519_exchange peerPrivate (hs_localEphemeral hs) peerPublic e), Hss by done.
  cbn [mbind res_bind]. rewrite Hk1. cbn [mbind res_bind]. rewrite Ha1. cbn [mbind res_bind].
  rewrite (proj2 (Open_exact a1 _ static ourPublic _)) by done. cbn [mbind res_bind].
  rewrite (X25519_exchange peerPrivate ourPrivate peerPublic ourPublic), Hsss by done.
  cbn [mbind res_bind]. rewrite Hk2. cbn [mbind res_bind]. rewrite Ha2. cbn [mbind res_bind].
  rewrite (proj2 (Open_exact a2 _ timestamp (tai64n_of t) _)) by done. cbn [mbind res_bind].
  by rewrite Hh, Hc.
Qed.

Lemma Open_empty a n c ad :
  length c = 16%nat ->
  match Open_ a n c ad with Ok _ => true | Err _ => false end = bool_decide (c = Seal a n [] ad).
Proof.
  intros Hl. destruct (Open_ a n c ad) as [p|err] eqn:E.
  - apply Open_exact in E as ->. rewrite Seal_length in Hl. destruct p; [|simpl in Hl; lia].
    by rewrite bool_decide_true.
  - symmetry. apply bool_decide_eq_false. intros Hc%Open_exact. congruence.
Qed.

Lemma set_reserved_tail p rsv n k :
  (4 <= length p)%nat -> length rsv = 3%nat -> (4 <= n)%nat ->
  drop n (set_reserved p rsv) = drop n p /\ sub (set_reserved p rsv) n k = sub p n k.
Proof.
  intros Hp Hr Hn. destruct p as [|a [|x [|y [|z r]]]]; try (simpl in Hp; lia).
  unfold sub. rewrite set_reserved_cons by done.
  replace n with (4 + (n - 4))%nat by lia. rewrite <-!drop_drop.
  destruct rsv as [|b0 [|b1 [|b2 [|]]]]; try done.
Qed.

(** On a packet of the right size the outcome is decided by two fields. *)
Lemma consumeResponse_eq hs p ourPrivate psk :
  length p = 92%nat ->
  consumeResponse hs p ourPrivate psk =
    Ok (bool_decide (le_Uint32 (drop 8 p) = hs_localIndex hs) &&
        match response_tag hs ourPrivate psk (sub p 12 32) with
        | Ok tag => bool_decide (sub p 44 16 = tag)
        | Err _ => false
        end).
Proof.
  intros Hl. unfold consumeResponse, response_tag.
  assert (length (set_reserved p [x00; x00; x00]) = 92%nat) as Hc.
  { unfold set_reserved. by rewrite length_inserts. }
  rewrite Read_layout by done. cbn [mbind res_bind resp_Receiver resp_Ephemeral resp_Empty].
  destruct (set_reserved_tail p [x00; x00; x00] 8 0) as [-> _]; [lia|done|lia|].
  destruct (set_reserved_tail p [x00; x00; x00] 12 32) as [_ ->]; [lia|done|lia|].
  destruct (set_reserved_tail p [x00; x00; x00] 44 16) as [_ ->]; [lia|done|lia|].
  set (e := sub p 12 32). unfold sharedSecret.
  destruct (_ =? _) eqn:Ei; cbn [negb]; bools.
  2:{ by rewrite bool_decide_false. }
  rewrite bool_decide_true by done. cbn [andb].
  destruct (X25519 (hs_localEphemeral hs) e) as [s1|]; [|done]. cbn [mbind res_bind].
  destruct (X25519 ourPrivate e) as [s2|]; [|done]. cbn [mbind res_bind].
  destruct (KDF3 _ psk) as [[ck tau] key] eqn:Ek.
  destruct (chacha_New key) as [a Ha].
  { change key with (ck, tau, key).2. rewrite <-Ek. apply KDF3_length. }
  rewrite Ha. cbn [mbind res_bind].
  assert (length (sub p 44 16) = 16%nat) as Ht.
  { unfold sub. rewrite length_take, length_drop. lia. }
  rewrite <-Open_empty by done. by destruct (Open_ _ _ _ _).
Qed.

Lemma consumeResponse_total hs p ourPrivate psk :
  length p = 92%nat -> exists b, consumeResponse hs p ourPrivate psk = Ok b.
Proof. intros Hl. rewrite consumeResponse_eq by done. by eexists. Qed.

(** The parts of an answer. *)
Lemma answer_parts reserved index rindex (e tag macs : list byte) :
  length reserved = 3%nat -> length e = 32%nat -> length tag = 16%nat -> length macs = 32%nat ->
  0 <= rindex < 2 ^ 32 ->
  let p := [x02] ++ reserved ++ le_put32 index ++ le_put32 rindex ++ e ++ tag ++ macs in
  length p = 92%nat /\ le_Uint32 (drop 8 p) = rindex /\ sub p 12 32 = e /\ sub p 44 16 = tag.
Proof.
  intros Hr He Ht Hm Hi p. destruct reserved as [|b0 [|b1 [|b2 [|]]]]; try done.
  assert (p = ([x02; b0; b1; b2] ++ le_put32 index) ++ le_put32 rindex ++ e ++ tag ++ macs) as -> by done.
  split_and!.
  - rewrite !length_app, He, Ht, Hm. done.
  - rewrite drop_app_length' by done. by apply le_Uint32_put.
  - rewrite app_assoc. by apply sub_at.
  - rewrite 2!app_assoc. apply sub_at; [rewrite !length_app, He; done|done].
Qed.

Lemma answer_accepted ourPrivate peerPublic hs e static timestamp t tr er psk reserved macs index resp :
  initiation_keys ourPrivate peerPublic hs e static timestamp t ->
  0 <= hs_localIndex hs < 2 ^ 32 -> length reserved = 3%nat -> length macs = 32%nat ->
  tr_hash tr = hs_hash hs -> tr_chainKey tr = hs_chainKey hs -> tr_ephemeral tr = e ->
  X25519 ourPrivate Basepoint = Ok (tr_static tr) -> tr_index tr = hs_localIndex hs ->
  responder_answer tr er psk reserved macs index = Ok resp ->
  length resp = 92%nat /\ head resp = Some x02 /\ consumeResponse hs resp ourPrivate psk = Ok true.
Proof.
  intros (ourPublic & ss & sss & k1 & k2 & c1 & c2 & a1 & a2 & Hour & He & _) Hi Hr Hm Eh Ec Ee Es Ex.
  unfold responder_answer. rewrite Eh, Ec, Ee, Ex. intros E.
  apply res_bind_Ok in E as (E_r & HEr & E). apply res_bind_Ok in E as (s1 & Hs1 & E).
  apply res_bind_Ok in E as (s2 & Hs2 & E).
  destruct (KDF3 _ psk) as [[ck tau] key] eqn:Ek. apply res_bind_Ok in E as (a & Ha & E).
  set (tag := Seal a ZeroNonce [] (mixHash (mixHash (hs_hash hs) E_r) tau)) in E.
  assert (resp = [x02] ++ reserved ++ le_put32 index ++ le_put32 (hs_localIndex hs) ++ E_r ++ tag ++ macs)
    as -> by congruence. clear E.
  destruct (answer_parts reserved index (hs_localIndex hs) E_r tag macs) as (L & I & S1 & S2); try done.
  { by eapply X25519_length. }
  { unfold tag. by rewrite Seal_length. }
  split_and!; [done|done|]. rewrite consumeResponse_eq by done. rewrite I, S1, S2.
  rewrite bool_decide_true by done. cbn [andb]. unfold response_tag.
  rewrite (X25519_exchange (hs_localEphemeral hs) er e E_r), Hs1 by done. cbn [mbind res_bind].
  rewrite (X25519_exchange ourPrivate er (tr_static tr) E_r), Hs2 by done. cbn [mbind res_bind].
  rewrite Ek, Ha. cbn [mbind res_bind]. by rewrite bool_decide_true.
Qed.

Lemma wp_lift {A B} (r : res A) (f : A -> M (res B)) w h Q :
  match r with Ok a => wp (f a) w h Q | Err e => Q [] (Err e) end -> wp (bind_res (lift r) f) w h Q.
Proof.
  intros Hr. apply wp_bind_res, wp_ret. destruct r; [|done]. rewrite app_nil_r.
  eapply wp_mono; [exact Hr|done].
Qed.

(** X25519 refuses the keys of a run, our private key, the peer's public key and a
    clamped ephemeral key (a point of small order). *)
Definition refused_key (ourPrivate peerPublic : list byte) : Prop := exists ephemeral e, clamped ephemeral /\
  (X25519 ourPrivate Basepoint = Err e \/ X25519 ephemeral Basepoint = Err e \/
   X25519 ephemeral peerPublic = Err e \/ X25519 ourPrivate peerPublic = Err e).

(** What [createInitiation] returns. *)
Definition initiation_result (ourPrivate peerPublic reserved : list byte) (t : list event)
    (r : res (initiatorState * list byte)) : Prop :=
  quiet t /\
  match r with
  | Ok (hs, packet) => exists e static timestamp tm,
      initiation_keys ourPrivate peerPublic hs e static timestamp tm /\ ENow tm ∈ t /\
      0 <= hs_localIndex hs < 2 ^ 32 /\ clamped (hs_localEphemeral hs) /\
      packet = initiation_wire peerPublic reserved (hs_localIndex hs) e static timestamp
  | Err _ => starved t \/ refused_key ourPrivate peerPublic
  end.

Lemma createInitiation_ok w h ourPrivate peerPublic reserved :
  world_ok w -> length reserved = 3%nat ->
  wp (createInitiation ourPrivate peerPublic reserved) w h (initiation_result ourPrivate peerPublic reserved).
Proof.
  intros Hw Hr. unfold createInitiation, initiation_result, publicKeyOf, sharedSecret.
  apply wp_bind_res. eapply wp_mono; [by apply randomNoisePrivateKey_ok|].
  intros t1 [eph|err] [Q1 R1]; [|by auto].
  apply wp_lift. destruct (X25519 ourPrivate Basepoint) as [ourPublic|] eqn:Hour;
    [|rewrite app_nil_r; split; [done|right; exists eph; eexists; split; [exact R1|]; eauto]].
  apply wp_lift. destruct (X25519 eph Basepoint) as [e|] eqn:He;
    [|rewrite app_nil_r; split; [done|right; exists eph; eexists; split; [exact R1|]; eauto]].
  cbn zeta. apply wp_lift. destruct (X25519 eph peerPublic) as [ss|] eqn:Hss;
    [|rewrite app_nil_r; split; [done|right; exists eph; eexists; split; [exact R1|]; eauto]].
  destruct (KDF2 _ ss) as [c1 k1] eqn:Hk1.
  destruct (chacha_New k1) as [a1 Ha1].
  { change k1 with (c1, k1).2. rewrite <-Hk1. apply KDF2_length. }
  apply wp_lift. rewrite Ha1. apply wp_lift.
  destruct (X25519 ourPrivate peerPublic) as [sss|] eqn:Hsss;
    [|rewrite app_nil_r; split; [done|right; exists eph; eexists; split; [exact R1|]; eauto]].
  destruct (KDF2 c1 sss) as [c2 k2] eqn:Hk2.
  destruct (chacha_New k2) as [a2 Ha2].
  { change k2 with (c2, k2).2. rewrite <-Hk2. apply KDF2_length. }
  apply wp_lift. rewrite Ha2. unfold now. wp_step. clear Ea.
  apply wp_bind_res. eapply wp_mono; [by apply randomBytes_ok|].
  intros t2 [ib|err] [Q2 R2].
  2:{ split; [|left; apply starved_app_r; by constructor 2].
      apply quiet_app; [done|]. by constructor. }
  set (static := Seal a1 ZeroNonce ourPublic _). set (timestamp := Seal a2 ZeroNonce (tai64n_of a) _).
  assert (length e = 32%nat) as Le by by eapply X25519_length.
  assert (length static = 48%nat) as Ls.
  { unfold static. rewrite Seal_length. by rewrite (X25519_length _ _ _ Hour). }
  assert (length timestamp = 28%nat) as Lt.
  { unfold timestamp. rewrite Seal_length. by rewrite tai64n_length. }
  destruct (written_initiation peerPublic reserved (le_Uint32 ib) e static timestamp Le Ls Lt Hr)
    as (p & -> & Hp & Hwire).
  apply wp_lift. rewrite Hp, Nat.eqb_refl. cbn [negb]. apply wp_ret. rewrite Hwire, app_nil_r.
  split; [apply quiet_app; [done|by constructor]|].
  exists e, static, timestamp, a. split_and!; cbn [hs_localIndex hs_localEphemeral];
    [|set_solver|apply le_Uint32_range|apply le_Uint32_range|exact R1|done].
  exists ourPublic, ss, sss, k1, k2, c1, c2, a1, a2. by split_and!.
Qed.

(** ** Properties *)

(** C4: key agreement with an honest peer. The initiation the probe builds is
    accepted by a responder that holds the private key for the probed public key:
    it recovers the probe's static public key and its timestamp; and whatever
    that responder answers under the same preshared key, with any ephemeral key,
    index, reserved bytes and MACs, the probe accepts as authentic. Building it
    fails only without entropy or on key material that X25519 refuses. *)
Theorem handshake_agreement w h peerPrivate peerPublic ourPrivate reserved :
  world_ok w -> length reserved = 3%nat -> X25519 peerPrivate Basepoint = Ok peerPublic ->
  wp (createInitiation ourPrivate peerPublic reserved) w h (fun t r =>
    match r with
    | Ok (hs, packet) => exists tr tm,
        responder_consume peerPrivate packet = Ok tr /\
        publicKeyOf ourPrivate = Ok (tr_static tr) /\
        tr_timestamp tr = tai64n_of tm /\ ENow tm ∈ t /\
        forall er psk rsv macs index resp,
          length rsv = 3%nat -> length macs = 32%nat ->
          responder_answer tr er psk rsv macs index = Ok resp ->
          consumeResponse hs resp ourPrivate psk = Ok true
    | Err _ => starved t \/ refused_key ourPrivate peerPublic
    end).
Proof.
  intros Hw Hr Hp. eapply wp_mono; [by apply createInitiation_ok|].
  intros t [[hs packet]|] [_ R]; [|done].
  destruct R as (e & static & timestamp & tm & Hk & Ht & Hi & _ & ->).
  destruct (responder_consumes peerPrivate ourPrivate peerPublic hs e static timestamp tm reserved Hp Hr Hi Hk)
    as (tr & Hc & Eh & Ek & Es & Ets & Ee & Ei).
  exists tr, tm. split_and!; [done|by apply publicKeyOf_Ok|done|done|].
  intros er psk rsv macs index resp Hl Hm Ha.
  by destruct (answer_accepted ourPrivate peerPublic hs e static timestamp tm tr er psk rsv macs index resp
    Hk Hi Hl Hm Eh Ek Ee Es Ei Ha) as (_ & _ & ?).
Qed.

(** the initiation on the wire: 148 bytes, type 1, the caller's three
    reserved bytes after it and, once they are stripped, a valid mac1 for the
    probed key, the index the probe remembers, and zeros for mac2. *)
Theorem createInitiation_wire w h ourPrivate peerPublic reserved :
  world_ok w -> length reserved = 3%nat ->
  wp (createInitiation ourPrivate peerPublic reserved) w h (fun t r =>
    match r with
    | Ok (hs, packet) =>
        length packet = 148%nat /\ sub packet 0 1 = [x01] /\ sub packet 1 3 = reserved /\
        (let p := set_reserved packet [x00; x00; x00] in
         le_Uint32 p = 1 /\ mac1_valid peerPublic p /\ le_Uint32 (drop 4 p) = hs_localIndex hs) /\
        drop 132 packet = replicate 16 x00
    | Err _ => starved t \/ refused_key ourPrivate peerPublic
    end).
Proof.
  intros Hw Hr. eapply wp_mono; [by apply createInitiation_ok|].
  intros t [[hs packet]|] [_ R]; [|done].
  destruct R as (e & static & timestamp & tm & Hk & _ & Hi & _ & ->).
  destruct Hk as (ourPublic & ss & sss & k1 & k2 & c1 & c2 & a1 & a2 & Hour & He & _ & _ & _ & _ & Hst & _ & _ & Hts & _).
  assert (length e = 32%nat) as Le by by eapply X25519_length.
  assert (length static = 48%nat) as Ls.
  { rewrite Hst, Seal_length. by rewrite (X25519_length _ _ _ Hour). }
  assert (length timestamp = 28%nat) as Lt.
  { rewrite Hts, Seal_length. by rewrite tai64n_length. }
  destruct (wire_parts peerPublic reserved (hs_localIndex hs) e static timestamp Le Ls Lt Hr Hi)
    as (_ & E2 & E3 & _ & _ & _ & E7).
  unfold initiation_wire in *. cbn beta iota zeta in *.
  split_and!; [by apply initiation_wire_length|done|by apply sub_at|done|done|done|]. set (m := mac1 _ _). assert (length m = 16%nat) as Hm by apply mac1_length.
  rewrite !app_assoc. apply drop_app_length'. rewrite !length_app, Le, Ls, Lt, Hr, Hm. done.
Qed.

(** C29: an answer of the right size is accepted exactly when it names our index
    and its sixteen-byte payload is the one sealed under the keys of both
    exchanges, the preshared key and the transcript: one payload for each
    ephemeral key. It never makes [consumeResponse] fail, and its sender index,
    reserved bytes and MACs play no part. *)
Theorem consumeResponse_exact hs p ourPrivate psk :
  length p = 92%nat ->
  (exists b, consumeResponse hs p ourPrivate psk = Ok b) /\
  (consumeResponse hs p ourPrivate psk = Ok true <->
   le_Uint32 (drop 8 p) = hs_localIndex hs /\
   response_tag hs ourPrivate psk (sub p 12 32) = Ok (sub p 44 16)).
Proof.
  intros Hl. split; [by apply consumeResponse_total|]. rewrite consumeResponse_eq by done.
  destruct (response_tag _ _ _ _) as [tag|]; split.
  - intros [= E]. bools. split; congruence.
  - intros [Hi [= Ht]]. by rewrite !bool_decide_true.
  - intros [= E]. by bools.
  - by intros [_ ?].
Qed.

End Agreement.

(** ** A concrete library

    Ciphers that satisfy the laws and nothing more: multiplication for X25519, a
    checksum for the hash. For evaluating examples. *)
Definition toy_hash (l : list byte) : list byte :=
  replicate 31 x00 ++ [Zb (foldr (fun b s => bZ b + 3 * s) 1 l mod 256)].
Definition toy_tag (l : list byte) : list byte := drop 16 (toy_hash l).
Definition toy_seal (k n p ad : list byte) : list byte := p ++ toy_tag (k ++ p ++ ad).

Definition toy_wireguard : WireGuardLib := {|
  MessageInitiationType := 1; MessageResponseType := 2;
  MessageInitiationSize := 148%nat; MessageResponseSize := 92%nat;
  InitialHash := toy_hash [x01]; InitialChainKey := toy_hash [x02]; ZeroNonce := replicate 12 x00;
  KDF1 := fun k i => toy_hash (k ++ i);
  KDF2 := fun k i => (toy_hash (k ++ i), toy_hash (k ++ i ++ [x01]));
  KDF3 := fun k i => (toy_hash (k ++ i), toy_hash (k ++ i ++ [x01]), toy_hash (k ++ i ++ [x02]));
  AddMacs := fun k p => take 116 p ++ toy_tag (k ++ take 116 p) ++ drop 132 p;
  mac1 := fun k p => toy_tag (k ++ p);
  Write_MessageInitiation := fun m =>
    Ok (le_put32 (init_Type m) ++ le_put32 (init_Sender m) ++ init_Ephemeral m ++
        init_Static m ++ init_Timestamp m ++ replicate 32 x00);
  Read_MessageResponse := fun p =>
    if (length p =? 92)%nat
    then Ok {| resp_Type := le_Uint32 p; resp_Sender := le_Uint32 (drop 4 p);
               resp_Receiver := le_Uint32 (drop 8 p); resp_Ephemeral := sub p 12 32;
               resp_Empty := sub p 44 16 |}
    else Err (OtherError "unexpected EOF");
  blake2s := toy_hash;
  X25519 := fun k p =>
    if (length k =? 32)%nat && (length p =? 32)%nat
    then Ok (zip_with (fun x y => Zb (bZ x * bZ y)) k p)
    else Err (OtherError "bad input length");
  Basepoint := replicate 32 x01;
  AEAD := list byte;
  chacha20poly1305_New := fun k =>
    if (length k =? 32)%nat then Ok k else Err (OtherError "bad key length");
  Seal := toy_seal;
  Open_ := fun k n c ad =>
    let p := take (length c - 16) c in
    if bool_decide (c = toy_seal k n p ad) then Ok p else Err (OtherError "message authentication failed");
  tai64n_of := fun t => replicate 8 x00 ++ le_put32 t
|}.

Lemma toy_tag_length l : length (toy_tag l) = 16%nat.
Proof. done. Qed.

Lemma toy_public k p :
  @X25519 toy_wireguard k (@Basepoint toy_wireguard) = Ok p -> p = k.
Proof.
  simpl. destruct (length k =? 32)%nat eqn:E; [|done]. apply Nat.eqb_eq in E. simpl.
  intros [= <-]. change [x01; _; _; _; _; _; _; _; _; _; _; _; _; _; _; _; _; _; _; _; _; _; _; _; _; _; _; _; _; _; _; _]
    with (replicate 32 x01). rewrite <-E. clear E.
  induction k as [|x k IH]; [done|]. simpl. rewrite IH. f_equal.
  change (bZ x01) with 1. by rewrite Z.mul_1_r, Zb_bZ.
Qed.

#[export] Instance toy_laws : @WireGuardLaws toy_wireguard.
Proof.
  split; try done; simpl.
  - intros k p s. destruct (length k =? 32)%nat eqn:Ek, (length p =? 32)%nat eqn:Ep; try done.
    apply Nat.eqb_eq in Ek, Ep. intros [= <-]. rewrite length_zip_with. lia.
  - intros a b A B HA%toy_public HB%toy_public. subst A B. rewrite andb_comm. case_match; [|done].
    f_equal. clear. revert b. induction a as [|x a IH]; intros [|y b]; try done. simpl.
    by rewrite IH, Z.mul_comm.
  - intros k Hk. rewrite Hk. by eexists.
  - intros a n p ad. unfold toy_seal. by rewrite length_app, toy_tag_length.
  - intros a n c p ad. split.
    + case_match eqn:E; [|done]. bools. by intros [= <-].
    + intros ->. assert (take (length (toy_seal a n p ad) - 16) (toy_seal a n p ad) = p) as ->.
      { unfold toy_seal. rewrite length_app, toy_tag_length. apply take_app_length'. lia. }
      by rewrite bool_decide_true.
  - intros p ->. done.
Qed.

(** ** Witnesses *)

#[local] Existing Instance toy_wireguard.

Definition toy_peer : list byte := replicate 32 x05.
Definition toy_private : list byte := replicate 32 x07.
Definition toy_initiation : list event * res (initiatorState * list byte) :=
  createInitiation toy_private toy_peer [x0a; x0b; x0c] sample_world [].

Lemma handshake_agreement_witness :
  match toy_initiation.2 with
  | Ok (hs, packet) => exists tr, responder_consume toy_peer packet = Ok tr /\
      exists resp, responder_answer tr (replicate 32 x09) (replicate 32 x00) [x01; x02; x03] (replicate 32 xff) 77 = Ok resp /\
        consumeResponse hs resp toy_private (replicate 32 x00) = Ok true
  | Err _ => False
  end.
Proof.
  pose proof (@handshake_agreement toy_wireguard toy_laws sample_world [] toy_peer toy_peer toy_private [x0a; x0b; x0c]
    (world_answering_ok _) eq_refl ltac:(vm_compute; reflexivity)) as Ha.
  unfold wp in Ha. change (createInitiation toy_private toy_peer [x0a; x0b; x0c] sample_world [])
    with toy_initiation in Ha.
  destruct toy_initiation as [t [[hs packet]|e]] eqn:E; cbn [snd].
  2:{ vm_compute in E. discriminate E. }
  destruct Ha as (tr & tm & Hc & _ & _ & _ & Hacc). exists tr. split; [exact Hc|].
  assert (exists resp, responder_answer tr (replicate 32 x09) (replicate 32 x00) [x01; x02; x03] (replicate 32 xff) 77 = Ok resp)
    as [resp Hresp].
  { vm_compute in E. injection E as <- <- <-. vm_compute in Hc. injection Hc as <-.
    eexists. vm_compute. reflexivity. }
  exists resp. split; [exact Hresp|].
  exact (Hacc _ _ [x01; x02; x03] (replicate 32 xff) 77 resp eq_refl eq_refl Hresp).
Defined.

Lemma createInitiation_wire_witness :
  match toy_initiation.2 with
  | Ok (_, packet) => length packet = 148%nat /\ sub packet 1 3 = [x0a; x0b; x0c]
  | Err _ => False
  end.
Proof.
  pose proof (@createInitiation_wire toy_wireguard toy_laws sample_world [] toy_private toy_peer [x0a; x0b; x0c]
    (world_answering_ok _) eq_refl) as Ha.
  unfold wp in Ha. change (createInitiation toy_private toy_peer [x0a; x0b; x0c] sample_world [])
    with toy_initiation in Ha.
  destruct toy_initiation as [t [[hs packet]|e]] eqn:E; cbn [snd].
  2:{ vm_compute in E. discriminate E. }
  destruct Ha as (Hl & _ & Hr & _). split; [exact Hl|exact Hr].
Defined.

Definition toy_state : initiatorState :=
  {| hs_hash := toy_hash []; hs_chainKey := toy_hash [x01]; hs_localEphemeral := replicate 32 x03;
     hs_localIndex := 7 |}.

Lemma consumeResponse_exact_witness :
  consumeResponse toy_state (replicate 92 x02) toy_private (replicate 32 x00) <> Ok true.
Proof.
  intros Ha. apply consumeResponse_exact in Ha; [|reflexivity]. destruct Ha as [Hi _].
  vm_compute in Hi. discriminate Hi.
Defined.
