(* ===== verification/WgProbe.v ===== *)
(** * The WireGuard probe ([libv2ray_wireguard_probe.go])

    [probeWireGuardOnce], which sends one initiation and listens for an answer
    that authenticates, and [ProbeWireGuard], which checks the options, opens the
    socket, sends the noise and makes the attempts. *)

From S2P Require Import Prelude GoString GoCodec GoNet Xray Options World Noise WgKeys WgHandshake.
Open Scope Z_scope.

Record WireGuardResult := {
  Alive : bool;
  Responded : bool;
  ReplyType : Z;
  ReplySize : Z;
  Attempts : Z;
  RttMs : Z;
  (** The empty string is [None]. *)
  RespError : option error
}.

Definition zero_result : WireGuardResult :=
  {| Alive := false; Responded := false; ReplyType := 0; ReplySize := 0; Attempts := 0;
     RttMs := 0; RespError := None |}.
Definition failed (e : error) : WireGuardResult :=
  {| Alive := false; Responded := false; ReplyType := 0; ReplySize := 0; Attempts := 0;
     RttMs := 0; RespError := Some e |}.

Definition set_alive (r : WireGuardResult) : WireGuardResult :=
  {| Alive := true; Responded := Responded r; ReplyType := ReplyType r; ReplySize := ReplySize r;
     Attempts := Attempts r; RttMs := RttMs r; RespError := RespError r |}.
Definition set_attempts (n : Z) (r : WireGuardResult) : WireGuardResult :=
  {| Alive := Alive r; Responded := Responded r; ReplyType := ReplyType r; ReplySize := ReplySize r;
     Attempts := n; RttMs := RttMs r; RespError := RespError r |}.
Definition set_rtt (n : Z) (r : WireGuardResult) : WireGuardResult :=
  {| Alive := Alive r; Responded := Responded r; ReplyType := ReplyType r; ReplySize := ReplySize r;
     Attempts := Attempts r; RttMs := n; RespError := RespError r |}.
Definition set_error (e : option error) (r : WireGuardResult) : WireGuardResult :=
  {| Alive := Alive r; Responded := Responded r; ReplyType := ReplyType r; ReplySize := ReplySize r;
     Attempts := Attempts r; RttMs := RttMs r; RespError := e |}.

(** [result.Responded = true; result.ReplySize = n], and the type when there is
    a byte to read it from. *)
Definition record_reply (p : list byte) (r : WireGuardResult) : WireGuardResult :=
  {| Alive := Alive r; Responded := true;
     ReplyType := match p with b :: _ => bZ b | [] => ReplyType r end;
     ReplySize := Z.of_nat (length p);
     Attempts := Attempts r; RttMs := RttMs r; RespError := RespError r |}.

(** [net.IP.Equal]: an IPv4 address equals its 16-byte form. *)
Definition v4InV6Prefix : list byte := replicate 10 x00 ++ [xff; xff].
Definition IP_Equal (a b : list byte) : bool :=
  if (length a =? length b)%nat then bool_decide (a = b)
  else if (length a =? 4)%nat && (length b =? 16)%nat then
    bool_decide (take 12 b = v4InV6Prefix) && bool_decide (a = drop 12 b)
  else if (length a =? 16)%nat && (length b =? 4)%nat then
    bool_decide (take 12 a = v4InV6Prefix) && bool_decide (drop 12 a = b)
  else false.

Definition same_endpoint (from dst : udp_addr) : bool :=
  IP_Equal (ua_IP from) (ua_IP dst) && (ua_Port from =? ua_Port dst).

(** [errors.As(err, &netErr) && netErr.Timeout()]. *)
Definition is_net_timeout (e : error) : bool :=
  match errors_find (fun e => bool_decide (is_Some (net_error_timeout e))) e with
  | Some ne => default false (net_error_timeout ne)
  | None => false
  end.

(** The size of the read buffer; a longer datagram is cut. *)
Definition readBuffer : nat := 1500.

Section Probe.
Context `{WireGuardLib}.

(** The read loop. It has no bound of its own: [None] when the fuel runs out. *)
Fixpoint probe_loop (fuel : nat) (conn : handle) (dst : udp_addr) (deadline : Z)
    (hs : initiatorState) (ourPrivate psk : list byte) (result : WireGuardResult)
    : M (option (WireGuardResult * option error)) :=
  match fuel with
  | O => mret None
  | S fuel =>
    serr ← set_read_deadline conn deadline;
    match serr with
    | Some e => mret (Some (result, Some e))
    | None =>
      r ← read_udp conn;
      match r with
      | Err e => if is_net_timeout e then mret (Some (result, None)) else mret (Some (result, Some e))
      | Ok (data, from) =>
        let buf := take readBuffer data in
        if negb (same_endpoint from dst)
        then probe_loop fuel conn dst deadline hs ourPrivate psk result
        else
          let result := record_reply buf result in
          if negb (length buf =? MessageResponseSize)%nat || negb (ReplyType result =? MessageResponseType)
          then probe_loop fuel conn dst deadline hs ourPrivate psk result
          else
            match consumeResponse hs buf ourPrivate psk with
            | Err e => mret (Some (result, Some e))
            | Ok true => mret (Some (set_alive result, None))
            | Ok false => probe_loop fuel conn dst deadline hs ourPrivate psk result
            end
      end
    end
  end.

Definition probeWireGuardOnce (fuel : nat) (conn : handle) (dst : udp_addr)
    (ourPrivate peerPublic psk reserved : list byte) (wait : Z) (result : WireGuardResult)
    : M (option (WireGuardResult * option error)) :=
  init ← createInitiation ourPrivate peerPublic reserved;
  match init with
  | Err e => mret (Some (result, Some e))
  | Ok (hs, packet) =>
    werr ← write_udp conn packet dst;
    match werr with
    | Some e => mret (Some (result, Some (Errorf "cannot send the handshake initiation to %s: %w" [AAddr (ua_IP dst) (ua_Port dst)] (Some e))))
    | None =>
      t ← now;
      probe_loop fuel conn dst (t + wait) hs ourPrivate psk result
    end
  end.

(** What the options amount to once they are checked. *)
Record wg_plan := {
  pl_host : gostr;
  pl_port : gostr;
  pl_peerPublic : list byte;
  pl_ourPrivate : list byte;
  pl_psk : list byte;
  pl_reserved : list byte;
  pl_noise : option noiseConfig
}.

Section Options.
Context `{XrayLib} `{Unicode} `{IntWidth}.

Definition wg_prepare (opts : wireGuardProbeOptions) : M (res wg_plan) :=
  if bool_decide (wg_Address opts = []) then mret (Err (Errorf "address is required" [] None))
  else
    match SplitHostPort (wg_Address opts) with
    | inl e => mret (Err (Errorf "address %q is not host:port: %v"
                            [AStr (wg_Address opts); AStr (addr_error_text e)] None))
    | inr (host, port) =>
      _ ←? lift (check (bool_decide (wg_IP opts <> []) && bool_decide (ParseIP (wg_IP opts) = None))
                   (Errorf "ip %q is not a valid IP address" [AStr (wg_IP opts)] None));
      let host := if bool_decide (wg_IP opts <> []) then wg_IP opts else host in
      peerPublic ←? lift (parseNoiseKey (wg_PublicKey opts) "publicKey");
      ourPrivate ←? (if bool_decide (wg_PrivateKey opts = []) then randomNoisePrivateKey
                     else lift (key ← parseNoiseKey (wg_PrivateKey opts) "privateKey";
                                Ok (clampPrivateKey key)));
      psk ←? lift (if bool_decide (wg_PresharedKey opts <> [])
                   then parseNoiseKey (wg_PresharedKey opts) "presharedKey"
                   else Ok (replicate NoisePublicKeySize x00));
      reserved ←? lift (parseReserved (wg_Reserved opts));
      nc ←? lift (noise opts);
      mret (Ok {| pl_host := host; pl_port := port; pl_peerPublic := peerPublic;
                  pl_ourPrivate := ourPrivate; pl_psk := psk; pl_reserved := reserved;
                  pl_noise := nc |})
    end.

(** The end of the function: an attempt that failed for no reported reason. *)
Definition finish (result : WireGuardResult) : WireGuardResult :=
  match RespError result with
  | None => set_error (Some (Errorf "no handshake response" [] None)) result
  | Some _ => result
  end.

(** The attempts left, of which this is number [i] (from zero). *)
Fixpoint attempt_loop (fuel : nat) (left_ : nat) (i : Z) (conn : handle) (dst : udp_addr) (p : wg_plan)
    (per started : Z) (result : WireGuardResult) : M (option WireGuardResult) :=
  match left_ with
  | O => mret (Some (finish result))
  | S left_ =>
    let result := set_attempts (i + 1) result in
    r ← probeWireGuardOnce fuel conn dst (pl_ourPrivate p) (pl_peerPublic p) (pl_psk p)
          (pl_reserved p) per result;
    match r with
    | None => mret None
    | Some (result, err) =>
      t ← now;
      let result := set_rtt (wrapS int_bits (Z.quot (t - started) Millisecond)) result in
      if Alive result then mret (Some (set_error None result))
      else
        let result := match err with Some e => set_error (Some e) result | None => result end in
        cerr ← ctx_err;
        match cerr with
        | Some _ => mret (Some (finish result))
        | None => attempt_loop fuel left_ (i + 1) conn dst p per started result
        end
    end
  end.

(** From the open socket to the result. *)
Definition probe_on (fuel : nat) (opts : wireGuardProbeOptions) (p : wg_plan) (conn : handle)
    (udpAddr : udp_addr) : M (option WireGuardResult) :=
  nerr ← (match pl_noise p with Some n => send n conn udpAddr | None => mret None end);
  match nerr with
  | Some e => mret (Some (failed e))
  | None =>
    started ← now;
    attempt_loop fuel (Z.to_nat (attempts opts)) 0 conn udpAddr p
      (Z.quot (wg_timeout opts) (attempts opts)) started zero_result
  end.

(** [ProbeWireGuard], with [unmarshal] standing for [json.Unmarshal] into the
    options record. *)
Definition ProbeWireGuard (unmarshal : gostr -> res wireGuardProbeOptions) (fuel : nat)
    (optionsJSON : gostr) : M (option WireGuardResult) :=
  match unmarshal optionsJSON with
  | Err e => mret (Some (failed (Errorf "invalid options json: %w" [] (Some e))))
  | Ok opts =>
    plan ← wg_prepare opts;
    match plan with
    | Err e => mret (Some (failed e))
    | Ok p =>
      addr ← resolve_udp (JoinHostPort (pl_host p) (pl_port p));
      match addr with
      | Err e => mret (Some (failed (Errorf "cannot resolve %q: %v" [AStr (wg_Address opts); AErr e] None)))
      | Ok udpAddr =>
        sock ← listen_udp;
        match sock with
        | Err e => mret (Some (failed (Errorf "cannot open udp socket: %w" [] (Some e))))
        | Ok conn =>
          r ← probe_on fuel opts p conn udpAddr;
          _ ← close_udp conn;
          mret r
        end
      end
    end
  end.

End Options.
End Probe.

(** ** Reading a run *)

(** Neither opens nor closes a socket. *)
Definition plain_event (e : event) : bool :=
  match e with EListenUDP _ | ECloseUDP _ => false | _ => true end.
Definition plain (t : list event) : Prop := Forall (fun e => plain_event e = true) t.

Definition delivered (c : handle) (e : event) : bool :=
  match e with EReadUDP c' (Ok _) => bool_decide (c = c') | _ => false end.
(** How many datagrams were read from [c]. *)
Definition reads (c : handle) (t : list event) : nat := length (List.filter (delivered c) t).

(** A socket delivers finitely many datagrams before its deadline: after [n] of
    them, reading fails. *)
Definition delivers_at_most (w : World) (n : nat) : Prop :=
  forall h c, (n <= reads c h)%nat -> exists e, w_read_udp w h c = Err e.

(** A result that says nothing about a reply it has not seen. *)
Definition consistent (r : WireGuardResult) : Prop :=
  Responded r = false -> ReplyType r = 0 /\ ReplySize r = 0.

(** What [Alive] comes with. *)
Definition verdict (r : WireGuardResult) : Prop :=
  Responded r = true /\ ReplyType r = 2 /\ ReplySize r = 92.

Section Reading.
Context `{WireGuardLib}.

(** [packet] is an initiation to the holder of [peerPublic], of which [hs] is what
    the probe remembers. *)
Definition initiated (ourPrivate peerPublic reserved : list byte) (hs : initiatorState)
    (packet : list byte) : Prop :=
  exists e static timestamp tm,
    initiation_keys ourPrivate peerPublic hs e static timestamp tm /\
    packet = initiation_wire peerPublic reserved (hs_localIndex hs) e static timestamp.

(** [data] came from the endpoint, is an answer by its size and type, and
    authenticates against [hs]. *)
Definition authentic (dst : udp_addr) (ourPrivate psk : list byte) (hs : initiatorState)
    (data : list byte) (from : udp_addr) : Prop :=
  same_endpoint from dst = true /\ length (take readBuffer data) = 92%nat /\
  head (take readBuffer data) = Some x02 /\
  consumeResponse hs (take readBuffer data) ourPrivate psk = Ok true.

(** An initiation left the socket for the endpoint, and afterwards an authentic
    answer to it was read. *)
Definition answered_in (t : list event) (conn : handle) (dst : udp_addr) (p : wg_plan) : Prop :=
  exists hs packet data from t1 t2 t3,
    t = t1 ++ EWriteUDP conn packet dst None :: t2 ++ EReadUDP conn (Ok (data, from)) :: t3 /\
    initiated (pl_ourPrivate p) (pl_peerPublic p) (pl_reserved p) hs packet /\
    authentic dst (pl_ourPrivate p) (pl_psk p) hs data from.

Definition initiation_to (dst : udp_addr) (p : wg_plan) (s : list byte * udp_addr) : Prop :=
  s.2 = dst /\ exists hs, initiated (pl_ourPrivate p) (pl_peerPublic p) (pl_reserved p) hs s.1.

End Reading.

(** ** Lemmas *)

Lemma plain_app t t' : plain t -> plain t' -> plain (t ++ t').
Proof. apply Forall_app_2. Qed.

Lemma quiet_plain t : quiet t -> plain t.
Proof. intros Ht. eapply Forall_impl; [exact Ht|]. by intros []. Qed.

Lemma reads_app c t t' : reads c (t ++ t') = (reads c t + reads c t')%nat.
Proof. unfold reads. by rewrite List.filter_app, length_app. Qed.

Lemma quiet_reads c t : quiet t -> reads c t = 0%nat.
Proof. induction 1 as [|e t He _ IH]; [done|]. destruct e; done. Qed.

#[export] Hint Resolve plain_app quiet_plain : golib.

Section ProbeLemmas.
Context `{WireGuardLib} `{!WireGuardLaws}.
#[local] Set Default Proof Using "Type*".

(** What a stretch of listening changes in the result. *)
Definition listened (hs : initiatorState) (conn : handle) (dst : udp_addr) (ourPrivate psk : list byte)
    (result : WireGuardResult) (t : list event) (r : option (WireGuardResult * option error)) : Prop :=
  plain t /\ sent conn t = [] /\
  match r with
  | None => True
  | Some (res, err) =>
      Attempts res = Attempts result /\ RespError res = RespError result /\
      (consistent result -> consistent res) /\
      (Alive res = true -> err = None /\ verdict res /\
        exists data from t1 t2, t = t1 ++ EReadUDP conn (Ok (data, from)) :: t2 /\
          authentic dst ourPrivate psk hs data from)
  end.

Lemma listened_more hs conn dst ourPrivate psk result result' t0 t r :
  listened hs conn dst ourPrivate psk result' t r ->
  plain t0 -> sent conn t0 = [] ->
  Attempts result' = Attempts result -> RespError result' = RespError result ->
  (consistent result -> consistent result') ->
  listened hs conn dst ourPrivate psk result (t0 ++ t) r.
Proof.
  intros (Hp & Hs & Hr) Hp0 Hs0 Ha He Hc. split; [by apply plain_app|].
  split; [by rewrite sent_app, Hs0, Hs|]. destruct r as [[res err]|]; [|done].
  destruct Hr as (Ha' & He' & Hc' & Hv). split_and!; [congruence|congruence|auto|].
  intros Hal. destruct (Hv Hal) as (E1 & E2 & data & from & t1 & t2 & -> & Hau).
  split_and!; [done|done|]. exists data, from, (t0 ++ t1), t2. by rewrite app_assoc.
Qed.

Lemma record_reply_consistent p r : consistent (record_reply p r).
Proof. by intros ?. Qed.

Lemma probe_loop_ok fuel w h conn dst deadline hs ourPrivate psk result :
  Alive result = false ->
  wp (probe_loop fuel conn dst deadline hs ourPrivate psk result) w h
     (listened hs conn dst ourPrivate psk result).
Proof.
  revert h result. induction fuel as [|fuel IH]; intros h result Hal; cbn [probe_loop].
  { apply wp_ret. split_and!; [constructor|done|done]. }
  assert (forall t err, plain t -> sent conn t = [] ->
            listened hs conn dst ourPrivate psk result t (Some (result, err))) as Hstop.
  { intros t err Hp Hs. split_and!; try done. congruence. }
  unfold set_read_deadline. wp_step. destruct a as [e|].
  { apply wp_ret. apply Hstop; [by repeat constructor|done]. }
  unfold read_udp. wp_step. destruct a as [[data from]|e]; clear Ea Ea0.
  2:{ destruct (is_net_timeout e); apply wp_ret; (apply Hstop; [by repeat constructor|done]). }
  set (evs := [ESetReadDeadline conn deadline None; EReadUDP conn (Ok (data, from))]).
  assert (plain evs /\ sent conn evs = []) as [Hpe Hse] by (split; [by repeat constructor|done]).
  assert (forall result', Alive result' = false -> Attempts result' = Attempts result ->
            RespError result' = RespError result -> (consistent result -> consistent result') ->
            wp (probe_loop fuel conn dst deadline hs ourPrivate psk result') w
               ((h ++ [ESetReadDeadline conn deadline None]) ++ [EReadUDP conn (Ok (data, from))])
               (fun t r => listened hs conn dst ourPrivate psk result (evs ++ t) r)) as Hrec.
  { intros result' Ha' Hat He Hc. eapply wp_mono; [by apply IH|].
    intros t r Hl. by apply (listened_more _ _ _ _ _ result result'). }
  destruct (same_endpoint from dst) eqn:Eep; cbn [negb]; [|by apply Hrec].
  assert (Alive (record_reply (take readBuffer data) result) = false) as Hal' by done.
  destruct message_sizes as [_ ->]. destruct message_types as [_ ->].
  destruct (length (take readBuffer data) =? 92)%nat eqn:El; cbn [negb orb]; [|by apply Hrec].
  destruct (ReplyType _ =? 2) eqn:Et; cbn [negb]; [|by apply Hrec].
  apply Nat.eqb_eq in El. bools.
  destruct (consumeResponse_total hs (take readBuffer data) ourPrivate psk El) as [[] Hb]; rewrite Hb;
    [|by apply Hrec].
  apply wp_ret. split; [done|]. split; [done|]. split_and!; try done.
  intros _. assert (head (take readBuffer data) = Some x02) as Hhd.
  { destruct (take readBuffer data) as [|b r]; [done|]. simpl in Et. simpl. f_equal. by apply (inj bZ). }
  split_and!; try done.
  - split_and!; [done|exact Et|]. cbn [set_alive record_reply ReplySize]. rewrite El. done.
  - exists data, from, [ESetReadDeadline conn deadline None], []. done.
Qed.

(** What one attempt does. *)
Definition attempted (conn : handle) (dst : udp_addr) (p : wg_plan) (result : WireGuardResult)
    (t : list event) (r : option (WireGuardResult * option error)) : Prop :=
  plain t /\ (length (sent conn t) <= 1)%nat /\ Forall (initiation_to dst p) (sent conn t) /\
  match r with
  | None => True
  | Some (res, err) =>
      Attempts res = Attempts result /\ RespError res = RespError result /\
      (consistent result -> consistent res) /\
      (Alive res = true -> err = None /\ verdict res /\ answered_in t conn dst p)
  end.

Lemma once_ok fuel w h conn dst p wait result :
  world_ok w -> length (pl_reserved p) = 3%nat -> Alive result = false ->
  wp (probeWireGuardOnce fuel conn dst (pl_ourPrivate p) (pl_peerPublic p) (pl_psk p) (pl_reserved p)
        wait result) w h (attempted conn dst p result).
Proof.
  intros Hw Hr Hal. unfold probeWireGuardOnce. apply wp_bind.
  eapply wp_mono; [by apply createInitiation_ok|]. intros t1 init [Q1 R1].
  assert (sent conn t1 = []) as S1 by by apply quiet_sent.
  destruct init as [[hs packet]|e].
  2:{ apply wp_ret. rewrite app_nil_r. unfold attempted. rewrite S1.
      split_and!; [by apply quiet_plain|simpl; lia|constructor|done..|congruence]. }
  destruct R1 as (e & static & timestamp & tm & Hk & _ & _ & _ & Hpk).
  assert (initiated (pl_ourPrivate p) (pl_peerPublic p) (pl_reserved p) hs packet) as Hin
    by (exists e, static, timestamp, tm; by split).
  unfold write_udp. wp_step. destruct a as [err|].
  { apply wp_ret. unfold attempted. rewrite sent_app, S1.
    split_and!; [apply plain_app; [by apply quiet_plain|by repeat constructor]|simpl; lia|constructor|done..|congruence]. }
  clear Ea. unfold now. wp_step. clear Ea.
  eapply wp_mono; [by apply probe_loop_ok|]. intros t r (Hp & Hs & Hres).
  assert (sent conn (t1 ++ EWriteUDP conn packet dst None :: ENow a :: t) = [(packet, dst)]) as Es.
  { rewrite sent_app, S1. cbn [app]. change (EWriteUDP conn packet dst None :: ENow a :: t)
      with ([EWriteUDP conn packet dst None; ENow a] ++ t). rewrite sent_app, Hs.
    unfold sent. simpl. by rewrite decide_True. }
  unfold attempted. rewrite Es. split.
  { apply plain_app; [by apply quiet_plain|]. by do 2 constructor. }
  split_and!; [simpl; lia|repeat constructor; by exists hs|].
  destruct r as [[res err]|]; [|done]. destruct Hres as (E1 & E2 & E3 & E4). split_and!; try done.
  intros Ha. destruct (E4 Ha) as (? & ? & data & from & ta & tb & -> & Hau). split_and!; [done|done|].
  exists hs, packet, data, from, t1, (ENow a :: ta), tb. by split_and!.
Qed.

(** What the attempts do. *)
Definition tried (conn : handle) (dst : udp_addr) (p : wg_plan) (i : Z) (k : nat)
    (t : list event) (r : option WireGuardResult) : Prop :=
  plain t /\ (length (sent conn t) <= k)%nat /\ Forall (initiation_to dst p) (sent conn t) /\
  match r with
  | None => True
  | Some res =>
      i <= Attempts res <= i + Z.of_nat k /\ Z.of_nat (length (sent conn t)) <= Attempts res - i /\
      consistent res /\ (Alive res = true <-> RespError res = None) /\
      (Alive res = true -> verdict res /\ answered_in t conn dst p)
  end.

Lemma answered_weaken t0 t t1 conn dst p :
  answered_in t conn dst p -> answered_in (t0 ++ t ++ t1) conn dst p.
Proof.
  intros (hs & packet & data & from & ta & tb & tc & -> & Hi & Ha).
  exists hs, packet, data, from, (t0 ++ ta), tb, (tc ++ t1). split; [|done].
  by rewrite <-!app_assoc; cbn [app]; rewrite <-!app_assoc.
Qed.

Lemma finish_error r : exists e, RespError (finish r) = Some e.
Proof.
  unfold finish. destruct (RespError r) as [e|] eqn:E; [by exists e|].
  cbn [set_error RespError]. by eexists.
Qed.

Lemma finish_fields r :
  Alive (finish r) = Alive r /\ Attempts (finish r) = Attempts r /\ (consistent r -> consistent (finish r)).
Proof. unfold finish. by destruct (RespError r). Qed.

Lemma tried_more conn dst p i k t0 t r :
  tried conn dst p (i + 1) k t r ->
  plain t0 -> (length (sent conn t0) <= 1)%nat -> Forall (initiation_to dst p) (sent conn t0) ->
  tried conn dst p i (S k) (t0 ++ t) r.
Proof.
  intros (Hp & Hl & Hf & Hr) Hp0 Hl0 Hf0. unfold tried. rewrite sent_app, length_app.
  split_and!; [by apply plain_app|lia|by apply Forall_app|]. destruct r as [res|]; [|done].
  destruct Hr as (? & ? & ? & ? & Hv). split_and!; try done; try lia.
  intros Ha. destruct (Hv Ha) as [? Hin]. split; [done|].
  rewrite <-(app_nil_r (t0 ++ t)), <-app_assoc. by apply answered_weaken.
Qed.

(** The end without a verdict. *)
Lemma tried_finish conn dst p i k t res :
  plain t -> (length (sent conn t) <= 1)%nat -> (length (sent conn t) <= k)%nat ->
  Forall (initiation_to dst p) (sent conn t) ->
  i <= Attempts res <= i + Z.of_nat k -> Z.of_nat (length (sent conn t)) <= Attempts res - i ->
  consistent res -> Alive res = false ->
  tried conn dst p i k t (Some (finish res)).
Proof.
  intros Hp Hl Hk Hf Ha Hs Hc Hal. destruct (finish_fields res) as (Ea & Et & Ec).
  destruct (finish_error res) as [e Ee]. unfold tried. rewrite Ea, Et, Ee, Hal.
  split_and!; try done; try lia; auto.
Qed.

Context `{IntWidth}.

Lemma attempt_loop_ok fuel w h k i conn dst p per started result :
  world_ok w -> length (pl_reserved p) = 3%nat ->
  Alive result = false -> consistent result -> Attempts result = i ->
  wp (attempt_loop fuel k i conn dst p per started result) w h (tried conn dst p i k).
Proof.
  intros Hw Hr. revert h i result. induction k as [|k IH]; intros h i result Hal Hc Hat; cbn [attempt_loop].
  { apply wp_ret. apply tried_finish; try done; try (simpl; lia); constructor. }
  apply wp_bind. eapply wp_mono; [by apply once_ok|].
  intros t1 [[res err]|] (Hp1 & Hl1 & Hf1 & R1).
  2:{ apply wp_ret. rewrite app_nil_r. split_and!; [done|lia|done|done]. }
  destruct R1 as (Ea & Ee & Ec & Ev). cbn [set_attempts Attempts] in Ea. specialize (Ec Hc).
  unfold now. wp_step. clear Ea0.
  assert (sent conn (t1 ++ [ENow a]) = sent conn t1) as Sn by (rewrite sent_app; apply app_nil_r).
  assert (plain (t1 ++ [ENow a])) as Pn by (apply plain_app; [done|by repeat constructor]).
  cbn [set_rtt Alive]. destruct (Alive res) eqn:Eal.
  { apply wp_ret. unfold tried. rewrite Sn. split; [done|]. split; [lia|]. split; [done|].
    cbn [set_error set_rtt Attempts Alive RespError]. rewrite Ea, Eal.
    destruct (Ev eq_refl) as (_ & Hv & Hin).
    split; [lia|]. split; [lia|]. split; [exact Ec|]. split; [done|]. intros _. split; [exact Hv|]. apply (answered_weaken []). exact Hin. }
  set (res' := match err with Some _ => _ | None => _ end).
  assert (Alive res' = false /\ Attempts res' = i + 1 /\ consistent res') as (A1 & A2 & A3).
  { unfold res'. destruct err; cbn; by rewrite ?Eal, ?Ea. }
  clearbody res'. unfold ctx_err. wp_step. clear Ea0.
  change (ENow a :: ?x) with ([ENow a] ++ x).
  assert (forall c, sent conn (t1 ++ [ENow a] ++ [ECtxErr c]) = sent conn t1) as Sc.
  { intros c. rewrite app_assoc, sent_app, Sn. apply app_nil_r. }
  assert (forall c, plain (t1 ++ [ENow a] ++ [ECtxErr c])) as Pc.
  { intros c. rewrite app_assoc. apply plain_app; [done|by repeat constructor]. }
  destruct a0 as [ce|].
  - apply wp_ret. apply tried_finish; rewrite ?Sc; try done; rewrite ?A2; lia.
  - eapply wp_mono; [by apply IH|]. intros t r Ht.
    replace (t1 ++ [ENow a] ++ ECtxErr None :: t) with ((t1 ++ [ENow a] ++ [ECtxErr None]) ++ t)
      by by rewrite <-!app_assoc.
    apply tried_more; rewrite ?Sc; done.
Qed.

End ProbeLemmas.

(** ** Lemmas: the noise *)

Lemma burst_plain n pc dst k t : burst n pc dst k t -> plain t.
Proof.
  induction 1 as [|k q p q' d t Hq _ Hq' _ _ IH]; [constructor|].
  apply plain_app; [by apply quiet_plain|]. constructor; [done|].
  apply plain_app; [by apply quiet_plain|]. apply plain_app; [|done]. case_match; by repeat constructor.
Qed.

Lemma sends_plain n pc dst t r : sends n pc dst t r -> plain t.
Proof.
  intros (q & k & t' & Hq & -> & _ & Hr). apply plain_app; [by apply quiet_plain|].
  destruct r as [e|]; [|by eapply burst_plain].
  destruct Hr as (j & t1 & t2 & _ & -> & Hb & He). apply plain_app; [by eapply burst_plain|].
  destruct He as [q0 Hq0 _|q0 p e' Hq0 _|q0 p q' d e' Hq0 _ Hq' _ _].
  - by apply quiet_plain.
  - apply plain_app; [by apply quiet_plain|by repeat constructor].
  - apply plain_app; [by apply quiet_plain|]. constructor; [done|].
    apply plain_app; [by apply quiet_plain|by repeat constructor].
Qed.

(** ** What the options must say *)

Section Plan.
Context `{WireGuardLib} `{!WireGuardLaws} `{XrayLib} `{Unicode} `{IntWidth}.

(** The plan an accepted set of options stands for. *)
Record from_options (opts : wireGuardProbeOptions) (p : wg_plan) : Prop := {
  fo_address : exists host,
    SplitHostPort (wg_Address opts) = inr (host, pl_port p) /\
    pl_host p = (if bool_decide (wg_IP opts <> []) then wg_IP opts else host);
  fo_ip : wg_IP opts = [] \/ is_Some (ParseIP (wg_IP opts));
  fo_public : parseNoiseKey (wg_PublicKey opts) "publicKey" = Ok (pl_peerPublic p);
  fo_private :
    if bool_decide (wg_PrivateKey opts = []) then clamped (pl_ourPrivate p)
    else exists key, parseNoiseKey (wg_PrivateKey opts) "privateKey" = Ok key /\
                     pl_ourPrivate p = clampPrivateKey key;
  fo_psk :
    if bool_decide (wg_PresharedKey opts <> [])
    then parseNoiseKey (wg_PresharedKey opts) "presharedKey" = Ok (pl_psk p)
    else pl_psk p = replicate NoisePublicKeySize x00;
  fo_reserved : parseReserved (wg_Reserved opts) = Ok (pl_reserved p);
  fo_noise : noise opts = Ok (pl_noise p)
}.

Lemma SplitHostPort_nil : SplitHostPort [] = inl MissingPort.
Proof. done. Qed.

(** The last part of [wg_prepare], where nothing is drawn any more. *)
Lemma wg_prepare_ok w h opts :
  world_ok w ->
  wp (wg_prepare opts) w h (fun t r => quiet t /\
    match r with
    | Ok p => from_options opts p
    | Err _ => starved t \/ forall p, ~ from_options opts p
    end).
Proof.
  intros Hw. unfold wg_prepare.
  destruct (bool_decide (wg_Address opts = [])) eqn:Ea; bools.
  { apply wp_ret. split; [constructor|]. right. intros p Hp. destruct (fo_address _ _ Hp) as (host & Hs & _).
    by rewrite Ea in Hs. }
  destruct (SplitHostPort (wg_Address opts)) as [e|[host port]] eqn:Es.
  { apply wp_ret. split; [constructor|]. right. intros p Hp. destruct (fo_address _ _ Hp) as (host & Hs & _).
    congruence. }
  apply wp_lift. destruct (check _ _) as [[]|e] eqn:Ec.
  2:{ split; [constructor|]. right. intros p Hp. apply check_Err in Ec as [Ec _]. bools.
      destruct (fo_ip _ _ Hp) as [?|[? ?]]; congruence. }
  apply check_Ok, validate_ip_guard in Ec.
  apply wp_lift. destruct (parseNoiseKey (wg_PublicKey opts) "publicKey") as [pub|e] eqn:Epub.
  2:{ split; [constructor|]. right. intros p Hp. pose proof (fo_public _ _ Hp). congruence. }
  assert (wp (if bool_decide (wg_PrivateKey opts = []) then randomNoisePrivateKey
              else lift (key ← parseNoiseKey (wg_PrivateKey opts) "privateKey"; Ok (clampPrivateKey key))) w h
    (fun t r => quiet t /\ match r with
      | Ok k => if bool_decide (wg_PrivateKey opts = []) then clamped k
                else exists key, parseNoiseKey (wg_PrivateKey opts) "privateKey" = Ok key /\ k = clampPrivateKey key
      | Err _ => starved t \/ forall p, ~ from_options opts p
      end)) as Hpriv.
  { destruct (bool_decide (wg_PrivateKey opts = [])) eqn:Ep.
    - eapply wp_mono; [by apply randomNoisePrivateKey_ok|]. intros t [k|e] [Q R]; auto.
    - apply wp_ret. split; [constructor|].
      destruct (parseNoiseKey (wg_PrivateKey opts) "privateKey") as [k|e] eqn:Ek; simpl; [eauto|].
      right. intros p Hp. pose proof (fo_private _ _ Hp) as Hx. rewrite Ep in Hx. destruct Hx as (? & ? & _). congruence. }
  apply wp_bind_res. eapply wp_mono; [exact Hpriv|]. intros t [priv|e] [Q R]; [|done].
  apply wp_lift. destruct (if bool_decide (wg_PresharedKey opts <> []) then _ else _) as [psk|e] eqn:Epsk.
  2:{ rewrite app_nil_r. split; [done|]. right. intros p Hp. pose proof (fo_psk _ _ Hp) as Hx.
      destruct (bool_decide (wg_PresharedKey opts <> [])); congruence. }
  apply wp_lift. destruct (parseReserved (wg_Reserved opts)) as [rsv|e] eqn:Ersv.
  2:{ rewrite app_nil_r. split; [done|]. right. intros p Hp. pose proof (fo_reserved _ _ Hp). congruence. }
  apply wp_lift. destruct (noise opts) as [nc|e] eqn:En.
  2:{ rewrite app_nil_r. split; [done|]. right. intros p Hp. pose proof (fo_noise _ _ Hp). congruence. }
  apply wp_ret. rewrite app_nil_r. split; [done|].
  split; cbn [pl_host pl_port pl_peerPublic pl_ourPrivate pl_psk pl_reserved pl_noise]; try done.
  - by exists host.
  - destruct (bool_decide (wg_PresharedKey opts <> [])); congruence.
Qed.

Lemma from_options_reserved opts p : from_options opts p -> length (pl_reserved p) = 3%nat.
Proof.
  intros Hp. pose proof (fo_reserved _ _ Hp) as E. apply parseReserved_Ok in E.
  destruct E as [[_ ->]|[(q & r & s & a & b & c & _ & _ & _ & _ & _ & _ & _ & ->)|(_ & _ & ? & _)]]; done.
Qed.

Lemma from_options_noise opts p n : from_options opts p -> pl_noise p = Some n -> noise_wf n.
Proof.
  intros Hp En. pose proof (fo_noise _ _ Hp) as E. apply noise_config_wf_lem in E. rewrite En in E. apply E.
Qed.

Lemma from_options_keys opts p :
  from_options opts p -> length (pl_peerPublic p) = 32%nat /\ clamped (pl_ourPrivate p) /\ length (pl_psk p) = 32%nat.
Proof.
  intros Hp. split_and!.
  - pose proof (fo_public _ _ Hp) as E. by apply parseNoiseKey_Ok in E as [? _].
  - pose proof (fo_private _ _ Hp) as E. case_match; [done|]. destruct E as (key & Ek & ->).
    apply clampPrivateKey_clamped. by apply parseNoiseKey_Ok in Ek as [? _].
  - pose proof (fo_psk _ _ Hp) as E. case_match; [|by rewrite E]. by apply parseNoiseKey_Ok in E as [? _].
Qed.

End Plan.

(** ** What a whole run does *)

Section Run.
Context `{WireGuardLib} `{!WireGuardLaws} `{XrayLib} `{Unicode} `{IntWidth}.
#[local] Set Default Proof Using "Type*".

(** A datagram the probe may send: noise of the plan, or an initiation. *)
Definition of_plan (dst : udp_addr) (p : wg_plan) (s : list byte * udp_addr) : Prop :=
  s.2 = dst /\
  ((exists n, pl_noise p = Some n /\ noise_datagram n s.1) \/
   exists hs, initiated (pl_ourPrivate p) (pl_peerPublic p) (pl_reserved p) hs s.1).

(** What a result may say of the run [t]. *)
Definition report (n : Z) (t : list event) (conn : handle) (dst : udp_addr) (p : wg_plan)
    (res : WireGuardResult) : Prop :=
  0 <= Attempts res <= n /\ consistent res /\ (Alive res = true <-> RespError res = None) /\
  (Alive res = true -> verdict res /\ answered_in t conn dst p).

Definition probed (opts : wireGuardProbeOptions) (p : wg_plan) (conn : handle) (dst : udp_addr)
    (t : list event) (r : option WireGuardResult) : Prop :=
  plain t /\ Z.of_nat (length (sent conn t)) <= 50 + attempts opts /\
  Forall (of_plan dst p) (sent conn t) /\
  match r with None => True | Some res => report (attempts opts) t conn dst p res end.

Lemma attempts_pos opts : 1 <= attempts opts.
Proof. unfold attempts. case_match; bools; lia. Qed.

Lemma failed_report n t conn dst p e : 0 <= n -> report n t conn dst p (failed e).
Proof. intros Hn. split; [simpl; lia|]. split; [done|]. split; [by split|done]. Qed.

Lemma initiation_of_plan dst p l : Forall (initiation_to dst p) l -> Forall (of_plan dst p) l.
Proof. intros Hl. eapply Forall_impl; [exact Hl|]. intros s [Hd Hi]. split; [done|by right]. Qed.

Lemma probe_on_ok fuel w h opts p conn dst :
  world_ok w -> from_options opts p ->
  wp (probe_on fuel opts p conn dst) w h (probed opts p conn dst).
Proof.
  intros Hw Hp. pose proof (from_options_reserved opts p Hp) as Hr. pose proof (attempts_pos opts) as Hat.
  assert (wp (match pl_noise p with Some n => send n conn dst | None => mret None end) w h
            (fun t _ => plain t /\ (length (sent conn t) <= 50)%nat /\ Forall (of_plan dst p) (sent conn t)))
    as Hnoise.
  { destruct (pl_noise p) as [n|] eqn:En.
    - pose proof (from_options_noise opts p n Hp En) as Hn.
      pose proof (send_trace_lem w h n conn dst Hw Hn) as Htr.
      pose proof (send_cost_lem w h n conn dst Hw Hn) as Hc.
      unfold wp in *. destruct (send n conn dst w h) as [t r]. destruct Hc as (Hl & Hf & _).
      split_and!; [by eapply sends_plain|done|].
      eapply Forall_impl; [exact Hf|]. intros s [Hd Hs]. split; [done|]. left. by exists n.
    - apply wp_ret. split_and!; [constructor|simpl; lia|constructor]. }
  unfold probe_on. apply wp_bind. eapply wp_mono; [exact Hnoise|].
  intros t1 [e|] (Hp1 & Hl1 & Hf1).
  { apply wp_ret. rewrite app_nil_r. split; [done|]. split; [lia|]. split; [done|].
    apply failed_report. lia. }
  unfold now. wp_step. clear Ea.
  eapply wp_mono; [apply (attempt_loop_ok fuel w _ _ 0); done|].
  intros t r (Hpt & Hlt & Hft & Hrt).
  change (ENow a :: t) with ([ENow a] ++ t). unfold probed. rewrite !sent_app, !length_app.
  change (sent conn [ENow a]) with (@nil (list byte * udp_addr)). cbn [app length].
  split; [apply plain_app; [done|by constructor]|]. split; [lia|].
  split; [apply Forall_app; split; [done|by apply initiation_of_plan]|].
  destruct r as [res|]; [|done]. destruct Hrt as (? & _ & ? & ? & Hv).
  split; [lia|]. split; [done|]. split; [done|]. intros Ha. destruct (Hv Ha) as [? Hin]. split; [done|].
  change (t1 ++ ENow a :: t) with (t1 ++ [ENow a] ++ t). rewrite app_assoc, <-(app_nil_r t), app_assoc.
  rewrite <-app_assoc. by apply answered_weaken.
Qed.

(** The socket of a run: none was opened, or opening it failed, or it was opened,
    used as the plan says, and closed at the end. *)
Inductive socket_use (opts : wireGuardProbeOptions) (h t : list event) : Prop :=
| never_opened : plain t -> socket_use opts h t
| open_failed t1 e : plain t1 -> t = t1 ++ [EListenUDP (Some e)] -> socket_use opts h t
| used_and_closed t1 t2 p dst :
    t = t1 ++ EListenUDP None :: t2 ++ [ECloseUDP (length (h ++ t1))] -> plain t1 -> plain t2 ->
    from_options opts p ->
    EResolveUDP (JoinHostPort (pl_host p) (pl_port p)) (Ok dst) ∈ t1 ->
    Forall (of_plan dst p) (sent (length (h ++ t1)) t2) ->
    Z.of_nat (length (sent (length (h ++ t1)) t2)) <= 50 + attempts opts ->
    socket_use opts h t.

(** What [Alive] means. *)
Definition proved_alive (opts : wireGuardProbeOptions) (t : list event) (res : WireGuardResult) : Prop :=
  verdict res /\ exists p conn dst, from_options opts p /\
    EResolveUDP (JoinHostPort (pl_host p) (pl_port p)) (Ok dst) ∈ t /\ answered_in t conn dst p.

Definition probe_result (unmarshal : gostr -> res wireGuardProbeOptions) (json : gostr)
    (h t : list event) (r : option WireGuardResult) : Prop :=
  match unmarshal json with
  | Err _ => t = [] /\ exists e, r = Some (failed e)
  | Ok opts =>
    socket_use opts h t /\
    match r with
    | None => True
    | Some res =>
      0 <= Attempts res <= attempts opts /\ consistent res /\
      (Alive res = true <-> RespError res = None) /\
      (Alive res = true -> proved_alive opts t res) /\
      ((forall p, ~ from_options opts p) -> Alive res = false)
    end
  end.

Lemma failed_result opts t e :
  0 <= Attempts (failed e) <= attempts opts /\ consistent (failed e) /\
  (Alive (failed e) = true <-> RespError (failed e) = None) /\
  (Alive (failed e) = true -> proved_alive opts t (failed e)) /\
  ((forall p, ~ from_options opts p) -> Alive (failed e) = false).
Proof.
  pose proof (attempts_pos opts). cbn [failed Attempts Alive RespError].
  split; [lia|]. split; [done|]. split; [by split|]. by split.
Qed.

Lemma ProbeWireGuard_ok w h unmarshal fuel json :
  world_ok w ->
  wp (ProbeWireGuard unmarshal fuel json) w h (probe_result unmarshal json h).
Proof.
  intros Hw. unfold ProbeWireGuard, probe_result. destruct (unmarshal json) as [opts|e].
  2:{ apply wp_ret. split; [done|]. by eexists. }
  apply wp_bind. eapply wp_mono; [by apply wg_prepare_ok|]. intros t1 [p|e] [Q1 R1].
  2:{ apply wp_ret. rewrite app_nil_r. split; [by apply never_opened, quiet_plain|apply failed_result]. }
  unfold resolve_udp. wp_step. destruct a as [dst|e].
  2:{ apply wp_ret. split; [|apply failed_result]. apply never_opened, plain_app; [by apply quiet_plain|by repeat constructor]. }
  clear Ea. set (rev := EResolveUDP _ _). set (t2 := t1 ++ [rev]).
  assert (plain t2) as P2 by (apply plain_app; [by apply quiet_plain|by repeat constructor]).
  unfold listen_udp. apply wp_bind. unfold wp at 1.
  destruct (w_listen_udp w _) as [e|] eqn:El.
  { apply wp_ret. split; [|apply failed_result]. apply (open_failed _ _ _ t2 e); [done|].
    unfold t2. by rewrite <-app_assoc. }
  apply wp_bind. eapply wp_mono; [by apply probe_on_ok|]. intros t3 r (P3 & L3 & F3 & R3).
  unfold close_udp. apply wp_bind_perform. intros _ _. apply wp_ret.
  assert (length ((h ++ t1) ++ [rev]) = length (h ++ t2)) as Ec by (unfold t2; by rewrite <-app_assoc).
  rewrite Ec in *. set (conn := length (h ++ t2)) in *.
  assert (rev :: [EListenUDP None] ++ t3 ++ [ECloseUDP conn] = [rev] ++ EListenUDP None :: t3 ++ [ECloseUDP conn]) as Ee
    by done.
  assert (t1 ++ rev :: [EListenUDP None] ++ t3 ++ [ECloseUDP conn] =
          t2 ++ EListenUDP None :: t3 ++ [ECloseUDP conn]) as Et.
  { rewrite Ee. unfold t2. by rewrite <-app_assoc. }
  rewrite Et. assert (rev ∈ t2) as Hrev by (unfold t2; set_solver).
  split; [apply (used_and_closed _ _ _ t2 t3 p dst); done|].
  destruct r as [res|]; [|done]. destruct R3 as (Ha & Hc & Hal & Hv).
  split; [done|]. split; [done|]. split; [done|]. split.
  - intros Hlive. destruct (Hv Hlive) as [Hver Hin]. split; [done|]. exists p, conn, dst.
    split; [done|]. split; [rewrite elem_of_app; by left|].
    change (t2 ++ EListenUDP None :: t3 ++ [ECloseUDP conn]) with (t2 ++ [EListenUDP None] ++ t3 ++ [ECloseUDP conn]).
    rewrite app_assoc. by apply answered_weaken.
  - intros Hno. by destruct (Hno p).
Qed.

End Run.

(** ** Lemmas: termination *)

Section Fuel.
Context `{WireGuardLib}.

Lemma probe_loop_fuel n fuel w h conn dst deadline hs ourPrivate psk result :
  delivers_at_most w n -> (1 <= fuel)%nat -> (n < reads conn h + fuel)%nat ->
  wp (probe_loop fuel conn dst deadline hs ourPrivate psk result) w h (fun _ r => r <> None).
Proof.
  intros Hd. revert h result. induction fuel as [|fuel IH]; intros h result Hf Hn; [lia|].
  cbn [probe_loop]. unfold set_read_deadline. wp_step. destruct a as [e|]; [by apply wp_ret|].
  unfold read_udp. wp_step. destruct a as [[data from]|e].
  2:{ destruct (is_net_timeout e); by apply wp_ret. }
  set (h1 := h ++ [ESetReadDeadline conn deadline None]) in *.
  assert (reads conn h1 = reads conn h) as R1 by (unfold h1; rewrite reads_app; apply Nat.add_0_r).
  assert (reads conn (h1 ++ [EReadUDP conn (Ok (data, from))]) = S (reads conn h)) as R2.
  { rewrite reads_app, R1. unfold reads at 2. cbn [List.filter delivered].
    rewrite bool_decide_true by done. cbn [length]. lia. }
  assert (reads conn h < n)%nat as Hlt.
  { destruct (decide (n <= reads conn h1)%nat) as [Hle|]; [|lia].
    destruct (Hd h1 conn Hle) as [e He]. congruence. }
  assert (forall result', wp (probe_loop fuel conn dst deadline hs ourPrivate psk result') w
            (h1 ++ [EReadUDP conn (Ok (data, from))]) (fun _ r => r <> None)) as Hrec.
  { intros result'. apply IH; [lia|rewrite R2; lia]. }
  destruct (negb (same_endpoint from dst)); [apply Hrec|]. case_match; [apply Hrec|].
  destruct (consumeResponse _ _ _ _) as [[]|]; [by apply wp_ret|apply Hrec|by apply wp_ret].
Qed.

Context `{XrayLib} `{Unicode} `{IntWidth}.

Lemma once_fuel n fuel w h conn dst ourPrivate peerPublic psk reserved wait result :
  delivers_at_most w n -> (n < fuel)%nat ->
  wp (probeWireGuardOnce fuel conn dst ourPrivate peerPublic psk reserved wait result) w h
     (fun _ r => r <> None).
Proof.
  intros Hd Hf. unfold probeWireGuardOnce. apply wp_bind, wp_True. intros t [[hs packet]|e]; [|by apply wp_ret].
  unfold write_udp. wp_step. destruct a; [by apply wp_ret|]. unfold now. wp_step.
  apply (probe_loop_fuel n); [done|lia|lia].
Qed.

Lemma attempt_loop_fuel n fuel w h k i conn dst p per started result :
  delivers_at_most w n -> (n < fuel)%nat ->
  wp (attempt_loop fuel k i conn dst p per started result) w h (fun _ r => r <> None).
Proof.
  intros Hd Hf. revert h i result. induction k as [|k IH]; intros h i result; cbn [attempt_loop]; [by apply wp_ret|].
  apply wp_bind. eapply wp_mono; [by apply (once_fuel n)|]. intros t [[res err]|] Hr; [|done].
  unfold now. wp_step. case_match; [by apply wp_ret|]. unfold ctx_err. wp_step.
  destruct a0; [by apply wp_ret|]. apply IH.
Qed.

Lemma probe_fuel n fuel w h unmarshal json :
  delivers_at_most w n -> (n < fuel)%nat ->
  wp (ProbeWireGuard unmarshal fuel json) w h (fun _ r => r <> None).
Proof.
  intros Hd Hf. unfold ProbeWireGuard. destruct (unmarshal json) as [opts|]; [|by apply wp_ret].
  apply wp_bind, wp_True. intros t [p|]; [|by apply wp_ret].
  unfold resolve_udp. wp_step. destruct a as [dst|]; [|by apply wp_ret].
  apply wp_bind, wp_True. intros t1 [conn|]; [|by apply wp_ret].
  apply wp_bind. assert (forall h', wp (probe_on fuel opts p conn dst) w h' (fun _ r => r <> None)) as Ho.
  { intros h'. unfold probe_on. apply wp_bind, wp_True. intros t2 [e|]; [by apply wp_ret|].
    unfold now. wp_step. by apply (attempt_loop_fuel n). }
  eapply wp_mono; [apply Ho|]. intros t2 r Hr. unfold close_udp. wp_step. by apply wp_ret.
Qed.

End Fuel.

(** ** Lemmas: an honest peer *)

Section Honest.
Context `{WireGuardLib} `{!WireGuardLaws} `{XrayLib} `{Unicode} `{IntWidth}.
#[local] Set Default Proof Using "Type*".

(** The environment refused something the probe needs. *)
Definition failure_event (e : event) : bool :=
  match e with
  | ERand _ (Err _) | EResolveUDP _ (Err _) | EListenUDP (Some _) | EWriteUDP _ _ _ (Some _)
  | ESetReadDeadline _ _ (Some _) | EPause _ (Some _) => true
  | _ => false
  end.
Definition env_failure (t : list event) : Prop := Exists (fun e => failure_event e = true) t.

(** The peer at [dst] holds [peerPrivate] and [psk]: the first datagram read
    after an initiation it can consume is an answer to it. *)
Definition answers_honestly (w : World) (dst : udp_addr) (peerPrivate psk : list byte) : Prop :=
  forall h c packet h' tr,
    responder_consume peerPrivate packet = Ok tr ->
    Forall (fun e => match e with ENow _ | ESetReadDeadline _ _ _ => True | _ => False end) h' ->
    exists er rsv macs index resp,
      length rsv = 3%nat /\ length macs = 32%nat /\
      responder_answer tr er psk rsv macs index = Ok resp /\
      w_read_udp w (h ++ EWriteUDP c packet dst None :: h') c = Ok (resp, dst).

(** X25519 takes the key, and the base point, under every clamped private key: the
    point is not of small order. *)
Definition accepted_key (public : list byte) : Prop := forall k, clamped k ->
  is_Ok (X25519 k Basepoint) = true /\ is_Ok (X25519 k public) = true.

Lemma accepted_not_refused ourPrivate peerPublic :
  clamped ourPrivate -> accepted_key peerPublic -> ~ refused_key ourPrivate peerPublic.
Proof.
  intros Hour Hacc (eph & e & Heph & He). destruct (Hacc _ Hour) as [O1 O2], (Hacc _ Heph) as [E1 E2].
  destruct He as [He|[He|[He|He]]]; rewrite He in *; done.
Qed.

Lemma from_options_private opts p : from_options opts p -> clamped (pl_ourPrivate p).
Proof.
  intros Hp. pose proof (fo_private _ _ Hp) as Hk. case_bool_decide; [done|]. destruct Hk as (key & Hk & ->).
  apply clampPrivateKey_clamped. by apply parseNoiseKey_Ok in Hk as [? _].
Qed.

Lemma starved_failure t : starved t -> env_failure t.
Proof. intros Hs. eapply Exists_impl; [exact Hs|]. intros []; try done. Qed.

Lemma failure_app_l t t' : env_failure t -> env_failure (t ++ t').
Proof. intros. apply Exists_app. by left. Qed.
Lemma failure_app_r t t' : env_failure t' -> env_failure (t ++ t').
Proof. intros. apply Exists_app. by right. Qed.

Lemma IP_Equal_refl a : IP_Equal a a = true.
Proof. unfold IP_Equal. by rewrite Nat.eqb_refl, bool_decide_true. Qed.

Lemma same_endpoint_refl a : same_endpoint a a = true.
Proof. unfold same_endpoint. by rewrite IP_Equal_refl, Z.eqb_refl. Qed.

Lemma once_honest fuel w h conn dst p peerPrivate wait result :
  world_ok w -> length (pl_reserved p) = 3%nat ->
  X25519 peerPrivate Basepoint = Ok (pl_peerPublic p) -> clamped (pl_ourPrivate p) -> accepted_key (pl_peerPublic p) ->
  answers_honestly w dst peerPrivate (pl_psk p) ->
  wp (probeWireGuardOnce (S fuel) conn dst (pl_ourPrivate p) (pl_peerPublic p) (pl_psk p) (pl_reserved p)
        wait result) w h (fun t r =>
     (exists res, r = Some (res, None) /\ Alive res = true /\ Attempts res = Attempts result) \/
     env_failure t).
Proof.
  intros Hw Hr Hpeer Hour Hkey Hh. unfold probeWireGuardOnce. apply wp_bind.
  eapply wp_mono; [by apply createInitiation_ok|]. intros t1 [[hs packet]|e] [Q1 R1].
  2:{ apply wp_ret. rewrite app_nil_r. destruct R1; [right; by apply starved_failure|by destruct (accepted_not_refused (pl_ourPrivate p) (pl_peerPublic p))]. }
  destruct R1 as (e & static & timestamp & tm & Hk & _ & Hi & _ & ->).
  destruct (responder_consumes peerPrivate _ _ hs e static timestamp tm (pl_reserved p) Hpeer Hr Hi Hk)
    as (tr & Hc & Eh & Ek & Es & Ets & Ee & Ei).
  unfold write_udp. wp_step. destruct a as [err|].
  { apply wp_ret. right. apply failure_app_r. by constructor. }
  unfold now. wp_step. cbn [probe_loop]. unfold set_read_deadline. wp_step.
  destruct a0 as [err|].
  { apply wp_ret. right. apply failure_app_r. do 2 constructor 2. by constructor. }
  unfold read_udp. wp_step.
  destruct (Hh (h ++ t1) conn _ [ENow a; ESetReadDeadline conn (a + wait) None] tr Hc)
    as (er & rsv & macs & index & resp & Hl & Hm & Ha & Hread); [by repeat constructor|].
  rewrite <-!app_assoc in Ea2. cbn [app] in Ea2. rewrite <-app_assoc in Hread. rewrite Hread in Ea2. subst a0.
  destruct (answer_accepted _ _ hs e static timestamp tm tr er (pl_psk p) rsv macs index resp
    Hk Hi Hl Hm Eh Ek Ee Es Ei Ha) as (Lr & Hd & Hacc).
  rewrite same_endpoint_refl. cbn [negb].
  rewrite take_ge by (unfold readBuffer; lia). destruct message_sizes as [_ ->]. destruct message_types as [_ ->].
  rewrite Lr. cbn [Nat.eqb negb orb].
  assert (ReplyType (record_reply resp result) = 2) as ->.
  { destruct resp as [|b resp]; [done|]. simpl in Hd. injection Hd as ->. done. }
  cbn [Z.eqb negb Pos.eqb]. rewrite Hacc. apply wp_ret. left. by eexists.
Qed.

Lemma sends_failure n pc dst t e : sends n pc dst t (Some e) -> env_failure t.
Proof.
  intros (q & k & t' & _ & -> & _ & j & t1 & t2 & _ & -> & _ & He).
  apply failure_app_r, failure_app_r. destruct He as [q0 _ Hs|q0 p e' _ _|q0 p q' d e' _ _ _ _ _].
  - by apply starved_failure.
  - apply failure_app_r. by constructor.
  - apply failure_app_r. constructor 2. apply failure_app_r. by constructor.
Qed.

(** The verdict an honest peer gets, or what kept the probe from asking. *)
Definition found_alive (t : list event) (r : option WireGuardResult) : Prop :=
  (exists res, r = Some res /\ Alive res = true /\ Attempts res = 1 /\ RespError res = None) \/
  env_failure t.

Lemma found_more t0 t r : found_alive t r -> found_alive (t0 ++ t) r.
Proof. intros [?|?]; [by left|right; by apply failure_app_r]. Qed.

Lemma found_app t0 t r : env_failure t0 -> found_alive (t0 ++ t) r.
Proof. intros. right. by apply failure_app_l. Qed.

Lemma attempt_loop_honest fuel k w h conn dst p peerPrivate per started result :
  world_ok w -> length (pl_reserved p) = 3%nat ->
  X25519 peerPrivate Basepoint = Ok (pl_peerPublic p) -> clamped (pl_ourPrivate p) -> accepted_key (pl_peerPublic p) ->
  answers_honestly w dst peerPrivate (pl_psk p) ->
  wp (attempt_loop (S fuel) (S k) 0 conn dst p per started result) w h found_alive.
Proof.
  intros Hw Hr Hpeer Hour Hacc Hh. cbn [attempt_loop]. apply wp_bind.
  eapply wp_mono; [by eapply once_honest|]. intros t r [(res & -> & Hal & Hat)|Hbad].
  - unfold now. wp_step. cbn [set_rtt Alive]. rewrite Hal. apply wp_ret. left. eexists. split_and!; [done|done|exact Hat|done].
  - apply wp_True. intros t' r'. by apply found_app.
Qed.

Lemma probe_on_honest fuel w h opts p conn dst peerPrivate :
  world_ok w -> from_options opts p ->
  X25519 peerPrivate Basepoint = Ok (pl_peerPublic p) -> clamped (pl_ourPrivate p) -> accepted_key (pl_peerPublic p) ->
  answers_honestly w dst peerPrivate (pl_psk p) ->
  wp (probe_on (S fuel) opts p conn dst) w h found_alive.
Proof.
  intros Hw Hp Hpeer Hour Hacc Hh. pose proof (attempts_pos opts) as Hat. unfold probe_on.
  assert (wp (match pl_noise p with Some n => send n conn dst | None => mret None end) w h
            (fun t r => match r with Some _ => env_failure t | None => True end)) as Hn.
  { destruct (pl_noise p) as [n|] eqn:En; [|by apply wp_ret].
    eapply wp_mono; [apply send_trace_lem; [done|by eapply from_options_noise]|].
    intros t [e|] Ht; [by eapply sends_failure|done]. }
  apply wp_bind. eapply wp_mono; [exact Hn|]. intros t [e|] Ht.
  { apply wp_ret. by apply found_app. }
  unfold now. wp_step. replace (Z.to_nat (attempts opts)) with (S (Z.to_nat (attempts opts - 1))) by lia.
  eapply wp_mono; [apply (attempt_loop_honest _ _ _ _ _ _ _ peerPrivate); try done; by eapply from_options_reserved|].
  intros t' r Hf. change (ENow a :: t') with ([ENow a] ++ t'). by do 2 apply found_more.
Qed.

Lemma probe_honest fuel w h unmarshal json opts p0 peerPrivate :
  world_ok w -> unmarshal json = Ok opts -> from_options opts p0 ->
  (forall p, from_options opts p ->
     X25519 peerPrivate Basepoint = Ok (pl_peerPublic p) /\ accepted_key (pl_peerPublic p) /\
     forall dst, answers_honestly w dst peerPrivate (pl_psk p)) ->
  wp (ProbeWireGuard unmarshal (S fuel) json) w h found_alive.
Proof.
  intros Hw Hu Hp0 Hh. unfold ProbeWireGuard. rewrite Hu. apply wp_bind.
  eapply wp_mono; [by apply wg_prepare_ok|]. intros t1 [p|e] [Q1 R1].
  2:{ apply wp_ret. apply found_app. destruct R1 as [?|Hno]; [by apply starved_failure|by destruct (Hno p0)]. }
  destruct (Hh p R1) as (Hpeer & Hacc & Hans). unfold resolve_udp. wp_step. destruct a as [dst|e].
  2:{ apply wp_ret. apply found_more. right. by constructor. }
  unfold listen_udp. apply wp_bind. unfold wp at 1. destruct (w_listen_udp w _) as [e|].
  { apply wp_ret. apply found_more. right. constructor 2. by constructor. }
  apply wp_bind. eapply wp_mono; [apply (probe_on_honest _ _ _ _ _ _ _ peerPrivate); try done; by eapply from_options_private|].
  intros t2 r Hf. unfold close_udp. wp_step. apply wp_ret.
  apply found_more. change (?x :: ?y ++ ?z) with ([x] ++ y ++ z). apply found_more, found_more.
  destruct Hf as [?|?]; [by left|by apply found_app].
Qed.

End Honest.

(** ** Properties *)

Section Properties.
Context `{WireGuardLib} `{!WireGuardLaws} `{XrayLib} `{Unicode} `{IntWidth}.
#[local] Set Default Proof Using "Type*".

(** C1: the verdict. A result says [Alive] exactly when it reports no error, and
    then an initiation to the probed key left the socket for the resolved
    endpoint, and afterwards a 92-byte answer of type 2 was read from that very
    endpoint that authenticates against that initiation. Options that do not make
    a plan are never alive; [Attempts] stays within the configured number, and a
    run without a reply reports neither type nor size. *)
Theorem probe_verdict w h unmarshal fuel json opts :
  world_ok w -> unmarshal json = Ok opts ->
  wp (ProbeWireGuard unmarshal fuel json) w h (fun t r => forall res, r = Some res ->
    (Alive res = true <-> RespError res = None) /\
    (Alive res = true -> proved_alive opts t res) /\
    ((forall p, ~ from_options opts p) -> Alive res = false) /\
    0 <= Attempts res <= attempts opts /\ consistent res).
Proof.
  intros Hw Hu. eapply wp_mono; [by apply ProbeWireGuard_ok|]. unfold probe_result. rewrite Hu.
  intros t r [_ Hr] res ->. destruct Hr as (? & ? & ? & ? & ?). auto.
Qed.

(** the socket. A run opens at most one socket; once open it is closed as the
    last thing the run does, on every path; every datagram written to it goes to
    the resolved endpoint and is noise of the plan or an initiation, and there
    are at most fifty more of them than attempts. *)
Theorem probe_socket w h unmarshal fuel json opts :
  world_ok w -> unmarshal json = Ok opts ->
  wp (ProbeWireGuard unmarshal fuel json) w h (fun t _ => socket_use opts h t).
Proof.
  intros Hw Hu. eapply wp_mono; [by apply ProbeWireGuard_ok|]. unfold probe_result. rewrite Hu.
  by intros t r [Hs _].
Qed.

(** C39: termination. The read loop has no bound of its own, but when the socket
    delivers at most [n] datagrams before reading times out, fuel for [n + 1]
    rounds is enough for the whole probe, whatever its number of attempts. *)
Theorem probe_terminates n fuel w h unmarshal json :
  delivers_at_most w n -> (n < fuel)%nat ->
  wp (ProbeWireGuard unmarshal fuel json) w h (fun _ r => exists res, r = Some res).
Proof using Type.
  intros Hd Hf. eapply wp_mono; [by apply (probe_fuel n)|]. intros t [res|] Hr; [by exists res|done].
Qed.

(** C28: An endpoint that is the peer is found alive, at the first attempt: when it
    holds the private key for the probed public key, which is not of small order, and
    the preshared key, and answers what it can consume, the probe says so, unless the
    environment refused it entropy, the address, the socket, a write or the time for
    the noise. *)
Theorem probe_finds_peer fuel w h unmarshal json opts p0 peerPrivate :
  world_ok w -> unmarshal json = Ok opts -> from_options opts p0 ->
  (forall p, from_options opts p ->
     X25519 peerPrivate Basepoint = Ok (pl_peerPublic p) /\ accepted_key (pl_peerPublic p) /\
     forall dst, answers_honestly w dst peerPrivate (pl_psk p)) ->
  wp (ProbeWireGuard unmarshal (S fuel) json) w h found_alive.
Proof. apply probe_honest. Qed.

End Properties.

(** ** Witnesses *)

#[local] Existing Instance toy_wireguard.
#[local] Existing Instance sample_lib.
#[local] Existing Instance ascii_unicode.
#[local] Existing Instance arm64_int.

Definition wg_example : wireGuardProbeOptions := {|
  wg_Address := "engage.example.com:2408"; wg_IP := "162.159.192.1";
  wg_PublicKey := b64_encode RawURLEncoding toy_peer;
  wg_PrivateKey := b64_encode StdEncoding toy_private;
  wg_PresharedKey := ""; wg_Reserved := "1, 2, 3"; wg_Timeout := 5000; wg_Attempts := 3;
  wg_WNoise := "quic"; wg_WNoiseCount := "2"; wg_WNoiseDelay := "1-3"; wg_WPayloadSize := ""
|}.

Definition wg_unmarshal (json : gostr) : res wireGuardProbeOptions :=
  if decide (json = []) then Err (OtherError "unexpected end of JSON input") else Ok wg_example.

Definition written_any (e : event) : option (list byte * udp_addr) :=
  match e with EWriteUDP _ p dst None => Some (p, dst) | _ => None end.
Definition last_write (h : list event) : option (list byte * udp_addr) := last (omap written_any h).

(** A network with the toy peer behind every address. *)
Definition peer_answer (h : list event) : res (list byte * udp_addr) :=
  match last_write h with
  | Some (p, dst) =>
    tr ← responder_consume toy_peer p;
    resp ← responder_answer tr (replicate 32 x09) (replicate 32 x00) [x00; x00; x00] (replicate 32 x00) 1;
    Ok (resp, dst)
  | None => Err (NetError true "i/o timeout")
  end.
Definition peer_world : World := world_answering peer_answer.

Lemma last_write_here h c p dst h' :
  Forall (fun e => match e with ENow _ | ESetReadDeadline _ _ _ => True | _ => False end) h' ->
  last_write (h ++ EWriteUDP c p dst None :: h') = Some (p, dst).
Proof.
  intros Hh. assert (omap written_any h' = []) as E.
  { induction Hh as [|e h' He _ IH]; [done|]. destruct e; try done; exact IH. }
  unfold last_write. change (h ++ EWriteUDP c p dst None :: h') with (h ++ [EWriteUDP c p dst None] ++ h').
  rewrite !omap_app, E, app_nil_r. apply last_snoc.
Qed.

Lemma toy_X25519_length k p s : X25519 k p = Ok s -> length p = 32%nat.
Proof. simpl. destruct (length k =? 32)%nat, (length p =? 32)%nat eqn:E; try done. by apply Nat.eqb_eq in E. Qed.

Lemma peer_world_honest dst : answers_honestly peer_world dst toy_peer (replicate 32 x00).
Proof.
  intros h c packet h' tr Hc Hh.
  exists (replicate 32 x09), [x00; x00; x00], (replicate 32 x00), 1.
  assert (length (tr_ephemeral tr) = 32%nat /\ length (tr_static tr) = 32%nat) as [Le Ls].
  { unfold responder_consume in Hc. res_inv.
    repeat match goal with
    | H : (let '(_, _) := ?x in _) = Ok _ |- _ => destruct x
    | H : _ ≫= _ = Ok _ |- _ => apply res_bind_Ok in H as (? & ? & ?)
    | H : X25519 _ _ = Ok _ |- _ => apply toy_X25519_length in H
    end. res_inv. split; assumption. }
  assert (exists resp, responder_answer tr (replicate 32 x09) (replicate 32 x00) [x00; x00; x00] (replicate 32 x00) 1 = Ok resp)
    as [resp Hresp].
  { unfold responder_answer. cbn [X25519 toy_wireguard]. rewrite Le, Ls. by eexists. }
  exists resp. split_and!; [done|done|exact Hresp|].
  cbn [w_read_udp peer_world world_answering]. unfold peer_answer. rewrite last_write_here by done.
  rewrite Hc. cbn [mbind res_bind]. by rewrite Hresp.
Qed.

Definition wg_run : list event * option WireGuardResult :=
  ProbeWireGuard wg_unmarshal 1 "{}" peer_world [].

Definition wg_example_plan : wg_plan := {|
  pl_host := "162.159.192.1"; pl_port := "2408"; pl_peerPublic := toy_peer;
  pl_ourPrivate := clampPrivateKey toy_private; pl_psk := replicate 32 x00;
  pl_reserved := [x01; x02; x03];
  pl_noise := Some {| nc_mode := "quic"; nc_header := None; countFrom := 2; countTo := 2;
                      delayFrom := 1; delayTo := 3; sizeFrom := 5; sizeTo := 10 |}
|}.

Lemma wg_example_ok : from_options wg_example wg_example_plan.
Proof.
  split; try (vm_compute; reflexivity).
  - eexists. split; vm_compute; reflexivity.
  - right. by eexists.
  - eexists. split; vm_compute; reflexivity.
Qed.

(** A run against the peer: it ends alive, at the first attempt. *)
Lemma wg_run_alive : match wg_run.2 with Some res => Alive res = true /\ Attempts res = 1 | None => False end.
Proof. vm_compute. by split. Qed.

Lemma probe_verdict_witness :
  match wg_run.2 with Some res => proved_alive wg_example wg_run.1 res | None => False end.
Proof.
  pose proof (probe_verdict peer_world [] wg_unmarshal 1 "{}" wg_example
    (world_answering_ok _) ltac:(vm_compute; reflexivity)) as Hv.
  unfold wp in Hv. change (ProbeWireGuard wg_unmarshal 1 "{}" peer_world []) with wg_run in Hv.
  pose proof wg_run_alive as Ha. destruct wg_run as [t [res|]]; [|exact Ha].
  destruct (Hv res eq_refl) as (_ & Hp & _). apply Hp. apply Ha.
Defined.

Lemma probe_socket_witness : socket_use wg_example [] wg_run.1.
Proof.
  pose proof (probe_socket peer_world [] wg_unmarshal 1 "{}" wg_example
    (world_answering_ok _) ltac:(vm_compute; reflexivity)) as Hv.
  unfold wp in Hv. change (ProbeWireGuard wg_unmarshal 1 "{}" peer_world []) with wg_run in Hv.
  destruct wg_run as [t r]. exact Hv.
Defined.

(** A network that loses everything. *)
Definition silent_world : World := world_answering (fun _ => Err (NetError true "i/o timeout")).

Lemma silent_world_delivers : delivers_at_most silent_world 0.
Proof. intros h c _. by eexists. Qed.

Lemma probe_terminates_witness :
  wp (ProbeWireGuard wg_unmarshal 1 "{}") silent_world [] (fun _ r => exists res, r = Some res).
Proof. apply (probe_terminates 0); [exact silent_world_delivers|lia]. Defined.

Lemma probe_finds_peer_witness :
  wp (ProbeWireGuard wg_unmarshal 1 "{}") peer_world [] found_alive.
Proof.
  apply (probe_finds_peer 0 peer_world [] wg_unmarshal "{}" wg_example wg_example_plan toy_peer
    (world_answering_ok _) ltac:(vm_compute; reflexivity) wg_example_ok).
  intros p Hp.
  assert (Ok (pl_peerPublic p) = Ok toy_peer) as [= ->]
    by (rewrite <-(fo_public _ _ Hp); vm_compute; reflexivity).
  assert (pl_psk p = replicate 32 x00) as -> by exact (fo_psk _ _ Hp).
  split; [vm_compute; reflexivity|]. split; [|intros dst; apply peer_world_honest].
  intros k [Hk _]. simpl. by rewrite Hk.
Defined.
