(* ===== verification/Dialer.v ===== *)
(** * The protected dialer ([libv2ray_support.go])

    The addresses of the server and the rotation over them ([resolved]), their
    lookup ([lookupAddr], [PrepareDomain]), and dialing through a socket that the
    VPN service has exempted ([Dial], [getFd], [fdConn]). *)

From S2P Require Import Prelude GoString GoNet Options World.
Open Scope Z_scope.

Record resolved := {
  domain : gostr;
  IPs : list (list byte);
  rs_Port : Z;
  lastResolved : Z;
  (** A [uint8]. *)
  ipIdx : Z;
  (** [None] is the zero [time.Time]. *)
  lastSwitched : option Z
}.

Definition with_idx (r : resolved) (now idx : Z) : resolved :=
  {| domain := domain r; IPs := IPs r; rs_Port := rs_Port r; lastResolved := lastResolved r;
     ipIdx := idx; lastSwitched := Some now |}.

(** [now.Sub(r.lastSwitched) < 5 * time.Second]; the difference from the zero
    time saturates. *)
Definition switched_lately (r : resolved) (now : Z) : bool :=
  match lastSwitched r with Some t => now - t <? 5 * Second | None => false end.

(** [NextIP] at time [now]. *)
Definition NextIP_at (now : Z) (r : resolved) : resolved :=
  if (1 <? length (IPs r))%nat then
    if switched_lately r now then r
    else
      let idx := wrapU 8 (ipIdx r + 1) in
      with_idx r now (if wrapU 8 (Z.of_nat (length (IPs r))) <=? idx then 0 else idx)
  else r.

(** The clock is read only when there is something to switch to. *)
Definition NextIP (r : resolved) : M resolved :=
  if (1 <? length (IPs r))%nat then now ≫= fun t => mret (NextIP_at t r) else mret r.

(** [None] is nil; the index is in range (see [resolved_ok]). *)
Definition currentIP (r : option resolved) : option (list byte) :=
  match r with
  | None => None
  | Some r => if (length (IPs r) =? 0)%nat then None else IPs r !! Z.to_nat (ipIdx r)
  end.

Record ProtectedDialer := {
  currentServer : gostr;
  preferIPv6 : bool;
  vServer : option resolved
}.

Definition set_server (name : gostr) (v6 : bool) (d : ProtectedDialer) : ProtectedDialer :=
  {| currentServer := name; preferIPv6 := v6; vServer := vServer d |}.
Definition set_vServer (r : resolved) (d : ProtectedDialer) : ProtectedDialer :=
  {| currentServer := currentServer d; preferIPv6 := preferIPv6 d; vServer := Some r |}.

Definition IsVServerReady (d : ProtectedDialer) : bool := bool_decide (is_Some (vServer d)).

(** ** Lookup *)

(** The three loops of [lookupAddr] over the addresses. *)
Definition by_family (prefer6 : bool) (addrs : list (list byte)) : list (list byte) :=
  (if prefer6 then List.filter (fun ip => negb (is_IPv4 ip)) addrs else []) ++
  List.filter is_IPv4 addrs ++
  (if prefer6 then [] else List.filter (fun ip => negb (is_IPv4 ip)) addrs).

Definition lookupAddr (d : ProtectedDialer) (addr : gostr) : M (res resolved) :=
  match SplitHostPort addr with
  | inl e => mret (Err (OtherError (addr_error_text e)))
  | inr (host, port) =>
    portnum ←? lookup_port port;
    addrs ←? lookup_ip host;
    if (length addrs =? 0)%nat
    then mret (Err (Errorf "domain %s Failed to resolve" [AStr addr] None))
    else
      t ← now;
      mret (Ok {| domain := host; IPs := by_family (preferIPv6 d) addrs; rs_Port := portnum;
                  lastResolved := t; ipIdx := 0; lastSwitched := None |})
  end.

(** The loop of [PrepareDomain], [maxRetry] counting down. *)
Fixpoint prepare_loop (maxRetry : nat) (domainName : gostr) (d : ProtectedDialer) : M ProtectedDialer :=
  match maxRetry with
  | O => mret d
  | S maxRetry =>
    r ← lookupAddr d domainName;
    match r with
    | Err _ =>
      closed ← retry_wait;
      if closed : bool then mret d else prepare_loop maxRetry domainName d
    | Ok r => mret (set_vServer r d)
    end
  end.

Definition PrepareDomain (domainName : gostr) (prefIPv6 : bool) (d : ProtectedDialer) : M ProtectedDialer :=
  prepare_loop 10 domainName (set_server domainName prefIPv6 d).

(** ** Dialing *)

Inductive conn :=
| StreamConn (fd : Z)
| PacketConnWrapper (fd : Z) (ip : list byte) (port : Z).

Definition getFd (nw : network) : M (res Z) :=
  match nw with
  | TCP | UDP => socket nw
  | OtherNetwork _ => mret (Err (Errorf "unknow network" [] None))
  end.

(** The body of [fdConn] from [os.NewFile] on, with its deferred [file.Close()]. *)
Definition wrap_file (ip : list byte) (port fd : Z) (nw : network) : M (res conn) :=
  ok ← new_file fd;
  if negb ok then mret (Err (OtherError "fdConn fd invalid"))
  else
    r ← (if bool_decide (nw = UDP) then
           c ← file_packet_conn fd;
           mret match c with Err e => Err e | Ok c => Ok (PacketConnWrapper c ip port) end
         else
           c ← file_conn fd;
           mret match c with Err e => Err e | Ok c => Ok (StreamConn c) end);
    _ ← file_close fd;
    mret r.

(** [fdConn], with its deferred [unix.Close(fd)]. *)
Definition fdConn (ip : list byte) (port fd : Z) (nw : network) : M (res conn) :=
  r ← (ok ← protect fd;
       if negb ok then mret (Err (OtherError "fail to protect"))
       else
         err ← (if bool_decide (nw = UDP) then unix_bind fd
                else unix_connect fd (default (replicate 16 x00) (To16 ip)) port);
         match err with
         | Some e => mret (Err e)
         | None => wrap_file ip port fd nw
         end);
  _ ← unix_close fd;
  mret r.

Record Destination := { dest_Network : network; dest_NetAddr : gostr }.

(** [Dial]. [await] is what the goroutines that resolve the server did to the
    dialer while this one waited on [resolveChan]. *)
Definition Dial (await : ProtectedDialer -> ProtectedDialer) (d : ProtectedDialer) (dest : Destination)
    : M (ProtectedDialer * res conn) :=
  if bool_decide (dest_NetAddr dest = currentServer d) then
    d ← (match vServer d with
         | None => _ ← resolve_wait; mret (await d)
         | Some _ => mret d
         end);
    match vServer d with
    | None => mret (d, Err (Errorf "fail to prepare domain %s" [AStr (currentServer d)] None))
    | Some r =>
      fd ← getFd (dest_Network dest);
      match fd with
      | Err e => mret (d, Err e)
      | Ok fd =>
        c ← fdConn (default [] (currentIP (vServer d))) (rs_Port r) fd (dest_Network dest);
        match c with
        | Err e => r' ← NextIP r; mret (set_vServer r' d, Err e)
        | Ok c => mret (d, Ok c)
        end
      end
    end
  else
    r ← lookupAddr d (dest_NetAddr dest);
    match r with
    | Err e => mret (d, Err e)
    | Ok r =>
      fd ← getFd (dest_Network dest);
      match fd with
      | Err e => mret (d, Err e)
      | Ok fd =>
        match IPs r !! 0%nat with
        | None => mret (d, Err (OtherError "runtime error: index out of range"))
        | Some ip => c ← fdConn ip (rs_Port r) fd (dest_Network dest); mret (d, c)
        end
      end
    end.

Definition DestIpAddress (d : option ProtectedDialer) : option (list byte) :=
  match d with None => None | Some d => currentIP (vServer d) end.

(** ** Specifications *)

(** The index is in range: [IPs[ipIdx]] does not panic. *)
Definition resolved_ok (r : resolved) : Prop :=
  0 <= ipIdx r < 256 /\ ipIdx r < Z.of_nat (length (IPs r)).

Definition dialer_ok (d : ProtectedDialer) : Prop :=
  forall r, vServer d = Some r -> resolved_ok r.

(** A run of switches, one at each time. *)
Definition switches (times : list Z) (r : resolved) : resolved :=
  foldl (fun r t => NextIP_at t r) r times.

(** Every time is at least five seconds after the one before, the first after
    the last switch of [r]. *)
Fixpoint spaced (last : option Z) (times : list Z) : Prop :=
  match times with
  | [] => True
  | t :: times => (forall l, last = Some l -> 5 * Second <= t - l) /\ spaced (Some t) times
  end.

(** The addresses of a family, in the order of the lookup, and the preferred
    family first. *)
Definition ordered_by_family (prefer6 : bool) (addrs ips : list (list byte)) : Prop :=
  ips ≡ₚ addrs /\
  exists a b, ips = a ++ b /\
    a = List.filter (fun ip => Bool.eqb (is_IPv4 ip) (negb prefer6)) addrs /\
    b = List.filter (fun ip => Bool.eqb (is_IPv4 ip) prefer6) addrs.

Definition lookups (t : list event) : nat :=
  length (List.filter (fun e => match e with ELookupIP _ _ => true | _ => false end) t).

(** How often descriptor [fd] is closed, by either call. *)
Definition closes (fd : Z) (t : list event) : nat :=
  length (List.filter (fun e => match e with
                                | EFileClose fd' | EUnixClose fd' => fd =? fd' | _ => false end) t).

(** No packet leaves a socket that the VPN service has not exempted: a descriptor
    is connected or bound only after [Protect] said yes to it. *)
Fixpoint protected_since (ok : list Z) (t : list event) : Prop :=
  match t with
  | [] => True
  | EProtect fd true :: t => protected_since (fd :: ok) t
  | (EConnect fd _ _ _ | EBind fd _) :: t => fd ∈ ok /\ protected_since ok t
  | _ :: t => protected_since ok t
  end.

(** The descriptors opened in [t] and not closed in it. *)
Fixpoint left_open (t : list event) : list Z :=
  match t with
  | [] => []
  | ESocket _ (Ok fd) :: t =>
    if existsb (fun e => match e with EUnixClose fd' => fd =? fd' | _ => false end) t
    then left_open t else fd :: left_open t
  | _ :: t => left_open t
  end.

(** ** Lemmas: rotation *)

Lemma wrapU8_small n : 0 <= n < 256 -> wrapU 8 n = n.
Proof. intros. unfold wrapU. by apply Z.mod_small. Qed.

Lemma NextIP_at_ok now r : resolved_ok r -> resolved_ok (NextIP_at now r).
Proof.
  intros [Hi Hl]. unfold NextIP_at. destruct (1 <? length (IPs r))%nat eqn:E; [|done].
  apply Nat.ltb_lt in E. case_match; [done|]. unfold resolved_ok, with_idx. cbn [ipIdx IPs].
  set (n := Z.of_nat (length (IPs r))) in *.
  pose proof (Z.mod_pos_bound (ipIdx r + 1) 256 ltac:(lia)).
  destruct (_ <=? _) eqn:Ec; bools; [lia|]. unfold wrapU in *. change (2 ^ 8) with 256 in *.
  pose proof (Z.mod_le n 256 ltac:(lia) ltac:(lia)). lia.
Qed.

Lemma NextIP_at_IPs now r : IPs (NextIP_at now r) = IPs r.
Proof. unfold NextIP_at. by repeat case_match. Qed.

Lemma currentIP_in r : resolved_ok r -> exists ip, currentIP (Some r) = Some ip /\ ip ∈ IPs r.
Proof.
  intros [Hi Hl]. simpl. destruct (length (IPs r) =? 0)%nat eqn:E; [apply Nat.eqb_eq in E; lia|].
  destruct (lookup_lt_is_Some_2 (IPs r) (Z.to_nat (ipIdx r))) as [ip Hip]; [lia|].
  exists ip. split; [done|]. by eapply list_elem_of_lookup_2.
Qed.

Lemma NextIP_at_step now r :
  resolved_ok r -> (2 <= length (IPs r) <= 255)%nat -> switched_lately r now = false ->
  NextIP_at now r = with_idx r now ((ipIdx r + 1) mod Z.of_nat (length (IPs r))).
Proof.
  intros [Hi Hl] Hn Hs. unfold NextIP_at. rewrite (proj2 (Nat.ltb_lt _ _)) by lia. rewrite Hs.
  rewrite !wrapU8_small by lia. f_equal.
  destruct (_ <=? _) eqn:E; bools.
  - replace (ipIdx r + 1) with (Z.of_nat (length (IPs r))) by lia. by rewrite Z.mod_same by lia.
  - by rewrite Z.mod_small by lia.
Qed.

Lemma switched_lately_spaced r t :
  (forall l, lastSwitched r = Some l -> 5 * Second <= t - l) -> switched_lately r t = false.
Proof.
  unfold switched_lately. destruct (lastSwitched r) as [l|]; [|done]. intros Hl.
  apply Z.ltb_ge. by apply Hl.
Qed.

Lemma switches_idx times r :
  resolved_ok r -> (2 <= length (IPs r) <= 255)%nat -> spaced (lastSwitched r) times ->
  ipIdx (switches times r) = (ipIdx r + Z.of_nat (length times)) mod Z.of_nat (length (IPs r)).
Proof.
  revert r. induction times as [|t times IH]; intros r Hr Hn Hs; cbn [switches foldl].
  - destruct Hr. rewrite Z.add_0_r, Z.mod_small by lia. done.
  - destruct Hs as [Ht Hs]. apply switched_lately_spaced in Ht.
    pose proof (NextIP_at_ok t r Hr) as Hr'. rewrite NextIP_at_step in * by done.
    change (foldl _ ?x times) with (switches times x). rewrite IH; [|done|done|done].
    cbn [with_idx ipIdx IPs length]. rewrite Nat2Z.inj_succ.
    rewrite Zplus_mod_idemp_l. f_equal. lia.
Qed.

(** ** Lemmas: lookup *)

Lemma filter_split {A} (f : A -> bool) (l : list A) :
  List.filter f l ++ List.filter (fun x => negb (f x)) l ≡ₚ l.
Proof.
  induction l as [|x l IH]; simpl; [done|]. destruct (f x); cbn [negb].
  - simpl. by rewrite IH.
  - by rewrite <-Permutation_middle, IH.
Qed.

Lemma filter_ext {A} (f g : A -> bool) (l : list A) :
  (forall x, f x = g x) -> List.filter f l = List.filter g l.
Proof. intros Hf. induction l as [|x l IH]; simpl; [done|]. by rewrite Hf, IH. Qed.

Lemma by_family_ordered prefer6 addrs : ordered_by_family prefer6 addrs (by_family prefer6 addrs).
Proof.
  unfold ordered_by_family, by_family. destruct prefer6; cbn [app negb]; rewrite ?app_nil_r; split.
  - rewrite Permutation_app_comm. apply filter_split.
  - eexists _, _. split; [done|]. split; apply filter_ext; intros ip; by destruct (is_IPv4 ip).
  - apply filter_split.
  - eexists _, _. split; [done|]. split; apply filter_ext; intros ip; by destruct (is_IPv4 ip).
Qed.

(** What a successful lookup returns. *)
Definition looked_up (prefer6 : bool) (addr : gostr) (t : list event) (r : resolved) : Prop :=
  exists host port addrs,
    SplitHostPort addr = inr (host, port) /\ domain r = host /\
    ELookupPort port (Ok (rs_Port r)) ∈ t /\ ELookupIP host (Ok addrs) ∈ t /\ addrs <> [] /\
    ordered_by_family prefer6 addrs (IPs r) /\ ipIdx r = 0 /\ lastSwitched r = None /\ resolved_ok r.

(** Events of a lookup: no descriptor is touched. *)
Definition lookup_event (e : event) : bool :=
  match e with ELookupPort _ _ | ELookupIP _ _ | ENow _ | ERetryWait _ | EResolveWait => true | _ => false end.
Definition lookup_only (t : list event) : Prop := Forall (fun e => lookup_event e = true) t.

Lemma lookupAddr_ok w h d addr :
  wp (lookupAddr d addr) w h (fun t r => lookup_only t /\ (lookups t <= 1)%nat /\
    match r with Ok r => looked_up (preferIPv6 d) addr t r | Err _ => True end).
Proof.
  unfold lookupAddr. destruct (SplitHostPort addr) as [e|[host port]] eqn:Es.
  { apply wp_ret. split; [constructor|]. split; [unfold lookups; simpl; lia|done]. }
  wp_step. unfold lookup_port. wp_step. destruct (w_lookup_port w h port) as [pn|e] eqn:Ep.
  2:{ split; [by repeat constructor|]. split; [unfold lookups; simpl; lia|done]. }
  wp_step. unfold lookup_ip. wp_step. destruct (w_lookup_ip w _ host) as [addrs|e] eqn:Ei.
  2:{ split; [by repeat constructor|]. split; [unfold lookups; simpl; lia|done]. }
  destruct (length addrs =? 0)%nat eqn:El.
  { apply wp_ret. split; [by repeat constructor|]. split; [unfold lookups; simpl; lia|done]. }
  apply Nat.eqb_neq in El. unfold now. wp_step. apply wp_ret.
  split; [by repeat constructor|]. split; [unfold lookups; simpl; lia|].
  pose proof (by_family_ordered (preferIPv6 d) addrs) as Ho.
  exists host, port, addrs. cbn [domain rs_Port IPs ipIdx lastSwitched]. split_and!; try done.
  - set_solver.
  - set_solver.
  - by intros ->.
  - split; [done|]. cbn [ipIdx IPs]. destruct Ho as [Hp _]. apply Permutation_length in Hp. lia.
Qed.

Lemma lookups_app t t' : lookups (t ++ t') = (lookups t + lookups t')%nat.
Proof. unfold lookups. by rewrite List.filter_app, length_app. Qed.

Lemma looked_up_mono p addr t t' r : looked_up p addr t r -> t ⊆ t' -> looked_up p addr t' r.
Proof.
  intros (host & port & addrs & Hs & Hd & Hp & Hi & Hrest) Ht. exists host, port, addrs.
  split; [done|]. split; [done|]. split; [by apply Ht|]. split; [by apply Ht|done].
Qed.

(** The outcome of resolving the server: a fresh answer, or nothing changed. *)
Lemma prepare_loop_ok w h k name d :
  wp (prepare_loop k name d) w h (fun t d' => lookup_only t /\ (lookups t <= k)%nat /\
    ((exists r, d' = set_vServer r d /\ looked_up (preferIPv6 d) name t r) \/ d' = d)).
Proof.
  revert h. induction k as [|k IH]; intros h; cbn [prepare_loop].
  { apply wp_ret. split; [constructor|]. split; [unfold lookups; simpl; lia|by right]. }
  apply wp_bind. eapply wp_mono; [apply lookupAddr_ok|]. intros t [r|e] (Hl & Hn & Hr).
  { apply wp_ret. rewrite app_nil_r. split; [done|]. split; [lia|]. left. by exists r. }
  unfold retry_wait. wp_step. destruct a.
  - apply wp_ret. split; [apply Forall_app; split; [done|by repeat constructor]|].
    rewrite lookups_app. split; [|by right]. unfold lookups at 2. simpl. lia.
  - eapply wp_mono; [apply IH|]. intros t' d' (Hl' & Hn' & Hd').
    split; [apply Forall_app; split; [done|by constructor]|].
    rewrite lookups_app. split; [unfold lookups in *; simpl; lia|].
    destruct Hd' as [(r & -> & Hlk)| ->]; [left|by right]. exists r. split; [done|].
    eapply looked_up_mono; [exact Hlk|]. set_solver.
Qed.

(** ** Lemmas: descriptors *)

Definition files (fd : Z) (t : list event) : nat :=
  length (List.filter (fun e => match e with ENewFile fd' true => fd =? fd' | _ => false end) t).

Definition socketless (t : list event) : Prop :=
  Forall (fun e => match e with ESocket _ _ => False | _ => True end) t.

Lemma protected_app ok t t' :
  protected_since ok t -> (forall ok', protected_since ok' t') -> protected_since ok (t ++ t').
Proof.
  intros Ht Ht'. revert ok Ht. induction t as [|e t IH]; intros ok Ht; [apply Ht'|].
  destruct e; cbn [app protected_since] in *; repeat case_match; try (by apply IH);
    destruct Ht; split; auto.
Qed.

(** The connection [c] was made to [ip] and [port] over [nw]. *)
Definition conn_to (nw : network) (ip : list byte) (port : Z) (t : list event) (c : conn) : Prop :=
  match c with
  | StreamConn s => nw <> UDP /\ exists fd,
      EConnect fd (default (replicate 16 x00) (To16 ip)) port None ∈ t /\ EFileConn fd (Ok s) ∈ t
  | PacketConnWrapper s ip' port' => nw = UDP /\ ip' = ip /\ port' = port /\ exists fd,
      EBind fd None ∈ t /\ EFilePacketConn fd (Ok s) ∈ t
  end.

(** A connection attempt is to this address and port. *)
Definition connects_to (ip : list byte) (port : Z) (e : event) : Prop :=
  match e with EConnect _ a p _ => a = default (replicate 16 x00) (To16 ip) /\ p = port | _ => True end.

(** What [fdConn] does with the descriptor it was given. *)
Definition fd_used (ip : list byte) (port fd : Z) (nw : network) (t : list event) (r : res conn) : Prop :=
  (exists t0, t = t0 ++ [EUnixClose fd]) /\ socketless t /\
  closes fd t = S (files fd t) /\ (files fd t <= 1)%nat /\
  (forall ok, protected_since ok t) /\ Forall (connects_to ip port) t /\
  (forall c, r = Ok c -> conn_to nw ip port t c /\ files fd t = 1%nat).

Lemma closes_app fd t t' : closes fd (t ++ t') = (closes fd t + closes fd t')%nat.
Proof. unfold closes. by rewrite List.filter_app, length_app. Qed.
Lemma files_app fd t t' : files fd (t ++ t') = (files fd t + files fd t')%nat.
Proof. unfold files. by rewrite List.filter_app, length_app. Qed.

(** The part from [os.NewFile] on: the file, if there is one, is closed. *)
Definition wrapped (ip : list byte) (port fd : Z) (nw : network) (t : list event) (r : res conn) : Prop :=
  socketless t /\ closes fd t = files fd t /\ (files fd t <= 1)%nat /\
  (forall ok, protected_since ok t) /\ Forall (connects_to ip port) t /\
  (forall c, r = Ok c -> files fd t = 1%nat /\
     match c with
     | StreamConn s => nw <> UDP /\ EFileConn fd (Ok s) ∈ t
     | PacketConnWrapper s ip' port' => nw = UDP /\ ip' = ip /\ port' = port /\ EFilePacketConn fd (Ok s) ∈ t
     end).

Lemma wrap_file_ok w h ip port fd nw : wp (wrap_file ip port fd nw) w h (wrapped ip port fd nw).
Proof.
  unfold wrap_file, new_file. wp_step. clear Ea. destruct a; cbn [negb].
  2:{ apply wp_ret. split; [by repeat constructor|].
      split_and!; try done; [unfold files; simpl; lia|by repeat constructor]. }
  apply wp_bind. destruct (bool_decide (nw = UDP)) eqn:Eu; bools.
  - unfold file_packet_conn. wp_step. clear Ea. apply wp_ret. unfold file_close. wp_step. apply wp_ret.
    cbn [app]. unfold wrapped, closes, files. cbn [List.filter length]. rewrite Z.eqb_refl. cbn [length].
    split; [by repeat constructor|]. split_and!; try done; [by repeat constructor|].
    intros c Hc. split; [done|]. destruct a as [s|]; simplify_eq. split_and!; try done. set_solver.
  - unfold file_conn. wp_step. clear Ea. apply wp_ret. unfold file_close. wp_step. apply wp_ret.
    cbn [app]. unfold wrapped, closes, files. cbn [List.filter length]. rewrite Z.eqb_refl. cbn [length].
    split; [by repeat constructor|]. split_and!; try done; [by repeat constructor|].
    intros c Hc. split; [done|]. destruct a as [s|]; simplify_eq. split_and!; try done. set_solver.
Qed.

(** The end of [fdConn] after [Protect] said yes and the socket was bound or
    connected by [e]. *)
Lemma protected_wrapped ip port fd nw e t r :
  (e = EBind fd None /\ nw = UDP \/
   e = EConnect fd (default (replicate 16 x00) (To16 ip)) port None /\ nw <> UDP) ->
  wrapped ip port fd nw t r ->
  fd_used ip port fd nw (EProtect fd true :: e :: t ++ [EUnixClose fd]) r.
Proof.
  intros He (Hs & Hc & Hf & Hp & Hct & Hr).
  assert (files fd (EProtect fd true :: e :: t ++ [EUnixClose fd]) = files fd t) as Ef.
  { change (EProtect fd true :: e :: t ++ [EUnixClose fd]) with ([EProtect fd true; e] ++ t ++ [EUnixClose fd]).
    rewrite !files_app. destruct He as [[-> _]|[-> _]]; unfold files at 1 3; simpl; lia. }
  assert (closes fd (EProtect fd true :: e :: t ++ [EUnixClose fd]) = S (closes fd t)) as Ec.
  { change (EProtect fd true :: e :: t ++ [EUnixClose fd]) with ([EProtect fd true; e] ++ t ++ [EUnixClose fd]).
    rewrite !closes_app. unfold closes at 1 3. cbn [List.filter]. rewrite Z.eqb_refl.
    destruct He as [[-> _]|[-> _]]; simpl; lia. }
  split; [exists (EProtect fd true :: e :: t); done|]. rewrite Ef, Ec, Hc.
  split; [constructor; [done|]; constructor; [by destruct He as [[-> _]|[-> _]]|]; apply Forall_app;
          split; [done|by repeat constructor]|].
  split; [done|]. split; [done|]. split.
  - intros ok. assert (forall ok, protected_since ok (t ++ [EUnixClose fd])) as Hp'.
    { intros ok'. by apply protected_app. }
    cbn [protected_since]. destruct He as [[-> _]|[-> _]]; cbn [protected_since]; split; try apply Hp'; set_solver.
  - split; [constructor; [done|]; constructor; [by destruct He as [[-> _]|[-> _]]|];
      apply Forall_app; split; [done|by repeat constructor]|].
    intros c Ec'. destruct (Hr c Ec') as [Hf1 Hc']. split; [|done]. unfold conn_to.
    destruct c as [s|s ip' port'].
    + destruct Hc' as [Hn Hin]. destruct He as [[-> ?]|[-> _]]; [done|]. split; [done|].
      exists fd. set_solver.
    + destruct Hc' as (Hn & -> & -> & Hin). destruct He as [[-> _]|[-> ?]]; [|done].
      split_and!; try done. exists fd. set_solver.
Qed.

Lemma fdConn_ok w h ip port fd nw : wp (fdConn ip port fd nw) w h (fd_used ip port fd nw).
Proof.
  unfold fdConn, protect. apply wp_bind. wp_step. clear Ea. unfold unix_close.
  destruct a; cbn [negb].
  2:{ apply wp_ret. wp_step. apply wp_ret. cbn [app]. split; [by exists [EProtect fd false]|].
      split; [by repeat constructor|]. unfold closes, files. cbn [List.filter length].
      rewrite Z.eqb_refl. split_and!; try done; [simpl; lia|by repeat constructor]. }
  destruct (bool_decide (nw = UDP)) eqn:Eu; bools.
  - unfold unix_bind. wp_step. clear Ea. destruct a as [e|].
    + apply wp_ret. wp_step. apply wp_ret. cbn [app]. split; [by exists [EProtect fd true; EBind fd (Some e)]|].
      split; [by repeat constructor|]. unfold closes, files. cbn [List.filter length]. rewrite Z.eqb_refl.
      split_and!; try done; [simpl; lia|intros ok; cbn; split; [set_solver|done]|by repeat constructor].
    + eapply wp_mono; [apply wrap_file_ok|]. intros t r Hw. wp_step. apply wp_ret.
      cbn [app]. apply protected_wrapped; [by left|done].
  - unfold unix_connect. wp_step. clear Ea. destruct a as [e|].
    + apply wp_ret. wp_step. apply wp_ret. cbn [app].
      split; [by eexists [EProtect fd true; EConnect fd _ port (Some e)]|].
      split; [by repeat constructor|]. unfold closes, files. cbn [List.filter length]. rewrite Z.eqb_refl.
      split_and!; try done; [simpl; lia|intros ok; cbn; split; [set_solver|done]|by repeat constructor].
    + eapply wp_mono; [apply wrap_file_ok|]. intros t r Hw. wp_step. apply wp_ret.
      cbn [app]. apply protected_wrapped; [by right|done].
Qed.

(** ** Lemmas: a dial *)

Lemma left_open_skip l r : socketless l -> left_open (l ++ r) = left_open r.
Proof. induction 1 as [|e l He _ IH]; [done|]. by destruct e. Qed.

Lemma left_open_none l : socketless l -> left_open l = [].
Proof. intros Hl. rewrite <-(app_nil_r l). by rewrite left_open_skip. Qed.

Lemma left_open_used nw fd t0 post :
  socketless t0 -> socketless post ->
  left_open (ESocket nw (Ok fd) :: (t0 ++ [EUnixClose fd]) ++ post) = [].
Proof.
  intros H0 Hp. cbn [left_open]. rewrite <-app_assoc. rewrite existsb_app. cbn [app existsb].
  rewrite Z.eqb_refl. cbn [orb]. rewrite orb_true_r. apply left_open_none, Forall_app.
  split; [done|]. by constructor.
Qed.

Lemma lookup_only_socketless t : lookup_only t -> socketless t.
Proof. intros Hl. eapply Forall_impl; [exact Hl|]. by intros []. Qed.

Lemma lookup_only_protected t ok : lookup_only t -> protected_since ok t.
Proof. intros Hl. revert ok. induction Hl as [|e t He _ IH]; intros ok; [done|]. destruct e; try done; apply IH. Qed.

(** The dialer as [Dial] sees it once it need not wait any more. *)
Definition after_wait (await : ProtectedDialer -> ProtectedDialer) (d : ProtectedDialer) (dest : Destination)
    : ProtectedDialer :=
  if bool_decide (dest_NetAddr dest = currentServer d)
  then match vServer d with None => await d | Some _ => d end
  else d.

(** The address and port a dial goes to: the server's current ones, or the first
    of a fresh lookup. *)
Definition dial_endpoint (d d1 : ProtectedDialer) (dest : Destination) (t : list event)
    (ip : list byte) (port : Z) : Prop :=
  if bool_decide (dest_NetAddr dest = currentServer d)
  then exists r, vServer d1 = Some r /\ currentIP (Some r) = Some ip /\ port = rs_Port r
  else exists r, looked_up (preferIPv6 d) (dest_NetAddr dest) t r /\ IPs r !! 0%nat = Some ip /\
                 port = rs_Port r.

(** What is left of the dialer [d1] when a dial of its server failed after [t]: the next
    address is current, if there is one and the last switch was not lately. *)
Definition switched (d1 : ProtectedDialer) (t : list event) (d' : ProtectedDialer) : Prop :=
  exists r0, vServer d1 = Some r0 /\
    if (1 <? length (IPs r0))%nat then exists t0 now r1,
      t = t0 ++ [ENow now] /\ d' = set_vServer r1 d1 /\
      if switched_lately r0 now then r1 = r0
      else IPs r1 = IPs r0 /\ rs_Port r1 = rs_Port r0 /\ lastSwitched r1 = Some now /\
        ((length (IPs r0) <= 255)%nat -> ipIdx r1 = (ipIdx r0 + 1) mod Z.of_nat (length (IPs r0)))
    else d' = d1.

Definition no_socket (t : list event) : Prop := forall nw fd, ESocket nw (Ok fd) ∉ t.

Definition dialed (await : ProtectedDialer -> ProtectedDialer) (d : ProtectedDialer) (dest : Destination)
    (t : list event) (out : ProtectedDialer * res conn) : Prop :=
  let d1 := after_wait await d dest in
  protected_since [] t /\ left_open t = [] /\ dialer_ok out.1 /\
  (forall fd a port r, EConnect fd a port r ∈ t -> exists ip,
     dial_endpoint d d1 dest t ip port /\ a = default (replicate 16 x00) (To16 ip)) /\
  match out.2 with
  | Ok c => out.1 = d1 /\ exists ip port,
      dial_endpoint d d1 dest t ip port /\ conn_to (dest_Network dest) ip port t c
  | Err _ =>
    if bool_decide (dest_NetAddr dest = currentServer d)
    then no_socket t /\ out.1 = d1 \/ ~ no_socket t /\ switched d1 t out.1
    else out.1 = d1
  end.

Lemma conn_to_app nw ip port t1 t t2 c : conn_to nw ip port t c -> conn_to nw ip port (t1 ++ t ++ t2) c.
Proof.
  destruct c as [s|s ip' port']; simpl.
  - intros (Hn & fd & H1 & H2). split; [done|]. exists fd. set_solver.
  - intros (Hn & -> & -> & fd & H1 & H2). split_and!; try done. exists fd. set_solver.
Qed.

Lemma getFd_ok w h nw : wp (getFd nw) w h (fun t r =>
  match r with
  | Ok fd => t = [ESocket nw (Ok fd)]
  | Err e => (forall ok, protected_since ok t) /\ left_open t = [] /\ no_socket t /\
      forall fd a port r, EConnect fd a port r ∉ t
  end).
Proof.
  unfold getFd, no_socket. destruct nw; [| |apply wp_ret; split_and!; try done; intros; by apply not_elem_of_nil];
    unfold socket; wp_step; destruct (w_socket w h _); try done; split_and!; try done;
    intros; by apply not_elem_of_cons; split; [|apply not_elem_of_nil].
Qed.

Lemma set_vServer_self r d : vServer d = Some r -> set_vServer r d = d.
Proof. intros E. destruct d; simpl in *. by subst. Qed.

Lemma NextIP_ok w h r : resolved_ok r -> wp (NextIP r) w h (fun t r' => lookup_only t /\ resolved_ok r' /\
  forall d t0, vServer d = Some r -> switched d (t0 ++ t) (set_vServer r' d)).
Proof.
  intros Hr. unfold NextIP, switched. destruct (1 <? length (IPs r))%nat eqn:E.
  2:{ apply wp_ret. split_and!; [constructor|done|]. intros d t0 Hd. exists r. rewrite E. split; [done|by apply set_vServer_self]. }
  unfold now. wp_step. apply wp_ret. split_and!; [by repeat constructor|by apply NextIP_at_ok|].
  intros d t0 Hd. exists r. split; [done|]. rewrite E. eexists _, _, _. split_and!; [reflexivity|reflexivity|].
  apply Nat.ltb_lt in E. destruct (switched_lately r a) eqn:Es.
  { unfold NextIP_at. rewrite Es. by case_match. }
  unfold NextIP_at. rewrite (proj2 (Nat.ltb_lt _ _)), Es by lia. split_and!; [done..|]. intros Hl.
  pose proof (NextIP_at_step a r Hr ltac:(lia) Es) as Hst. unfold NextIP_at in Hst.
  rewrite (proj2 (Nat.ltb_lt _ _)), Es in Hst by lia. by rewrite Hst.
Qed.

(** A lookup opens no socket and connects none. *)
Lemma lookup_only_no_socket t : lookup_only t -> no_socket t.
Proof. intros Hl nw fd He. unfold lookup_only in Hl. rewrite Forall_forall in Hl. by apply Hl in He. Qed.

Lemma lookup_only_no_connect t fd a port r : lookup_only t -> EConnect fd a port r ∉ t.
Proof. intros Hl He. unfold lookup_only in Hl. rewrite Forall_forall in Hl. by apply Hl in He. Qed.

Lemma no_socket_app t1 t2 : no_socket t1 -> no_socket t2 -> no_socket (t1 ++ t2).
Proof. intros H1 H2 nw fd [He|He]%elem_of_app; [by apply (H1 nw fd)|by apply (H2 nw fd)]. Qed.

(** Where the connection attempts of a dial go. *)
Lemma connects_used ip port t1 nw fd t3 post fd' a p r :
  lookup_only t1 -> lookup_only post -> Forall (connects_to ip port) t3 ->
  EConnect fd' a p r ∈ t1 ++ [ESocket nw fd] ++ t3 ++ post ->
  a = default (replicate 16 x00) (To16 ip) /\ p = port.
Proof.
  intros H1 Hp H3. rewrite !elem_of_app, list_elem_of_singleton. intros [He|[He|[He|He]]].
  - by apply lookup_only_no_connect in He.
  - done.
  - rewrite Forall_forall in H3. by apply H3 in He.
  - by apply lookup_only_no_connect in He.
Qed.

Lemma set_vServer_ok r d : resolved_ok r -> dialer_ok (set_vServer r d).
Proof. intros Hr r' [= <-]. done. Qed.

Lemma dial_server_ok w h await d dest :
  dialer_ok d -> dialer_ok (await d) -> dest_NetAddr dest = currentServer d ->
  wp (Dial await d dest) w h (dialed await d dest).
Proof.
  intros Hd Ha Hn. unfold Dial, dialed, after_wait, dial_endpoint. rewrite bool_decide_true by done.
  set (d1 := match vServer d with None => await d | Some _ => d end).
  assert (dialer_ok d1) as Hd1 by (unfold d1; by destruct (vServer d)).
  apply wp_bind. assert (wp (match vServer d with None => _ ← resolve_wait; mret (await d) | Some _ => mret d end)
    w h (fun t x => x = d1 /\ lookup_only t)) as Hw.
  { unfold d1. destruct (vServer d); [apply wp_ret; by split; [|constructor]|].
    unfold resolve_wait. wp_step. apply wp_ret. by split; [|repeat constructor]. }
  eapply wp_mono; [exact Hw|]. clearbody d1. clear Hw Hd Ha. intros t1 x [-> Ht1].
  destruct (vServer d1) as [r|] eqn:Ev.
  2:{ apply wp_ret. rewrite app_nil_r. cbn [fst snd].
      split_and!; [by apply lookup_only_protected|by apply left_open_none, lookup_only_socketless|done|
        by intros ???? ?%lookup_only_no_connect|]. left. split; [by apply lookup_only_no_socket|done]. }
  pose proof (Hd1 r Ev) as Hr. destruct (currentIP_in r Hr) as (ip & Hip & _).
  apply wp_bind. eapply wp_mono; [apply getFd_ok|]. intros t2 [fd|e] H2.
  2:{ apply wp_ret. rewrite app_nil_r. destruct H2 as (Hp & Hl & Hns & Hnc). cbn [fst snd].
      split_and!; [|by rewrite left_open_skip by by apply lookup_only_socketless|done| |].
      - apply protected_app; [by apply lookup_only_protected|done].
      - intros fd a port e' [He|He]%elem_of_app; [by apply lookup_only_no_connect in He|by apply Hnc in He].
      - left. split; [|done]. apply no_socket_app; [by apply lookup_only_no_socket|done]. }
  subst t2. rewrite Hip. cbn [default]. apply wp_bind. eapply wp_mono; [apply fdConn_ok|].
  intros t3 c ((t0 & E3) & Hs & _ & _ & Hp & Hct & Hc).
  assert (forall post fd' a p e, lookup_only post -> EConnect fd' a p e ∈ t1 ++ [ESocket (dest_Network dest) (Ok fd)] ++ t3 ++ post ->
    exists ip', (exists r1, Some r = Some r1 /\ currentIP (Some r1) = Some ip' /\ p = rs_Port r1) /\
      a = default (replicate 16 x00) (To16 ip')) as Hconn.
  { intros post fd' a p e Hpost He. eapply connects_used in He as [-> ->]; [|done..]. exists ip. split; [|done]. by exists r. }
  assert (forall post, lookup_only post -> protected_since [] (t1 ++ [ESocket (dest_Network dest) (Ok fd)] ++ t3 ++ post))
    as Hprot.
  { intros post Hpost. apply protected_app; [by apply lookup_only_protected|]. intros ok'.
    cbn [app protected_since]. apply protected_app; [done|]. intros ok''. by apply lookup_only_protected. }
  assert (forall post, lookup_only post -> left_open (t1 ++ [ESocket (dest_Network dest) (Ok fd)] ++ t3 ++ post) = [])
    as Hopen.
  { intros post Hpost. rewrite left_open_skip by by apply lookup_only_socketless. rewrite E3 in *.
    apply Forall_app in Hs as [Hs _]. apply left_open_used; [done|by apply lookup_only_socketless]. }
  destruct c as [c|e].
  - apply wp_ret. cbn [fst snd].
    split_and!; [apply Hprot; constructor|apply Hopen; constructor|done|intros fd' a p e He; apply (Hconn [] fd' a p e); [constructor|exact He]|done|].
    exists ip, (rs_Port r). split; [by exists r|]. rewrite app_assoc. apply conn_to_app. by apply Hc.
  - apply wp_bind. eapply wp_mono; [by apply NextIP_ok|]. intros t4 r' (H4 & Hr' & Hsw). apply wp_ret.
    rewrite app_nil_r. cbn [fst snd].
    split_and!; [by apply Hprot|by apply Hopen|by apply set_vServer_ok|intros fd' a p e'; by apply Hconn|].
    right. split; [intros Hns; apply (Hns (dest_Network dest) fd); set_solver|]. rewrite !(assoc_L (++)). by apply Hsw.
Qed.

Lemma dial_direct_ok w h await d dest :
  dialer_ok d -> dest_NetAddr dest <> currentServer d ->
  wp (Dial await d dest) w h (dialed await d dest).
Proof.
  intros Hd Hn. unfold Dial, dialed, after_wait, dial_endpoint. rewrite bool_decide_false by done. cbv iota.
  apply wp_bind. eapply wp_mono; [apply lookupAddr_ok|]. intros t1 [r|e] (Ht1 & _ & Hr).
  2:{ apply wp_ret. rewrite app_nil_r. cbn [fst snd].
      split_and!; [by apply lookup_only_protected|by apply left_open_none, lookup_only_socketless|done|
        by intros ???? ?%lookup_only_no_connect|done]. }
  apply wp_bind. eapply wp_mono; [apply getFd_ok|]. intros t2 [fd|e] H2.
  2:{ apply wp_ret. rewrite app_nil_r. destruct H2 as (Hp & Hl & _ & Hnc). cbn [fst snd].
      split_and!; [|by rewrite left_open_skip by by apply lookup_only_socketless|done| |done].
      - apply protected_app; [by apply lookup_only_protected|done].
      - intros fd a port e' [He|He]%elem_of_app; [by apply lookup_only_no_connect in He|by apply Hnc in He]. }
  subst t2. assert (exists ip, IPs r !! 0%nat = Some ip) as [ip Hip].
  { destruct Hr as (_ & _ & _ & _ & _ & _ & _ & _ & _ & _ & _ & Hok). destruct Hok.
    apply lookup_lt_is_Some_2. lia. }
  rewrite Hip. apply wp_bind. eapply wp_mono; [apply fdConn_ok|].
  intros t3 c ((t0 & E3) & Hs & _ & _ & Hp & Hct & Hc). apply wp_ret. rewrite app_nil_r. cbn [fst snd].
  assert (looked_up (preferIPv6 d) (dest_NetAddr dest) (t1 ++ [ESocket (dest_Network dest) (Ok fd)] ++ t3) r) as Hlk.
  { eapply looked_up_mono; [exact Hr|]. set_solver. }
  split_and!; [| |done| |].
  - apply protected_app; [by apply lookup_only_protected|]. intros ok'. by cbn [app protected_since].
  - rewrite left_open_skip by by apply lookup_only_socketless. rewrite E3 in *.
    apply Forall_app in Hs as [Hs _]. rewrite <-(app_nil_r (t0 ++ _)). apply left_open_used; [done|constructor].
  - intros fd' a p e He. rewrite <- (app_nil_r t3) in He.
    eapply connects_used in He as [-> ->]; [|done|constructor|done]. exists ip. split; [|done]. by exists r.
  - destruct c as [c|e]; [|done]. split; [done|]. exists ip, (rs_Port r). split.
    + by exists r.
    + destruct (Hc c eq_refl) as [Hcc _]. rewrite app_assoc, <-(app_nil_r t3). by apply conn_to_app.
Qed.

(** ** Properties *)

(** the rotation. With 2 to 255 addresses and five seconds between the
    switches, [k] switches advance the index by [k] modulo the number of
    addresses, so every address has its turn; a switch within five seconds of the
    last one changes nothing; and the index always stays in range. *)
Theorem NextIP_rotates r times now :
  resolved_ok r ->
  resolved_ok (NextIP_at now r) /\
  (switched_lately r now = true -> NextIP_at now r = r) /\
  ((2 <= length (IPs r) <= 255)%nat -> spaced (lastSwitched r) times ->
   ipIdx (switches times r) = (ipIdx r + Z.of_nat (length times)) mod Z.of_nat (length (IPs r))).
Proof.
  intros Hr. split; [by apply NextIP_at_ok|]. split; [|by apply switches_idx].
  intros Hs. unfold NextIP_at. rewrite Hs. by case_match.
Qed.

(** the length is cut to a [uint8], so with 256 addresses every switch goes
    back to the first one, and a server with more than 256 of them never sees
    those past [length mod 256]. *)
Theorem NextIP_many r now :
  resolved_ok r -> (256 <= length (IPs r))%nat -> switched_lately r now = false ->
  ipIdx (NextIP_at now r) = 0 \/
  ipIdx (NextIP_at now r) < Z.of_nat (length (IPs r)) mod 256.
Proof.
  intros [Hi _] Hn Hs. unfold NextIP_at. rewrite (proj2 (Nat.ltb_lt _ _)) by lia. rewrite Hs.
  unfold with_idx. cbn [ipIdx]. destruct (_ <=? _) eqn:E; bools; [by left|right].
  unfold wrapU in *. change (2 ^ 8) with 256 in *. lia.
Qed.

(** a lookup that succeeds resolves the host and the port of the address it
    was given, and keeps all the addresses, in their order, those of the preferred
    family first; there is at least one, and the first is current. *)
Theorem lookupAddr_spec w h d addr :
  wp (lookupAddr d addr) w h (fun t r =>
    match r with
    | Ok r => looked_up (preferIPv6 d) addr t r /\ currentIP (Some r) = head (IPs r) /\ IPs r <> []
    | Err _ => True
    end).
Proof.
  eapply wp_mono; [apply lookupAddr_ok|]. intros t [r|e] (_ & _ & Hr); [|done]. split; [done|].
  destruct Hr as (_ & _ & _ & _ & _ & _ & _ & _ & _ & Hi & _ & [_ Hok]).
  rewrite Hi in Hok. destruct (IPs r) as [|ip l] eqn:E; [simpl in Hok; lia|].
  split; [|done]. simpl. by rewrite E, Hi.
Qed.

(** [PrepareDomain] makes at most ten lookups and then either holds a fresh
    answer for the new server, or has left the addresses of the previous server in
    place: it never clears them, so a dialer that was ready stays ready although
    the new name did not resolve. *)
Theorem PrepareDomain_spec w h name v6 d :
  wp (PrepareDomain name v6 d) w h (fun t d' =>
    (lookups t <= 10)%nat /\ currentServer d' = name /\ preferIPv6 d' = v6 /\
    ((exists r, vServer d' = Some r /\ looked_up v6 name t r) \/ vServer d' = vServer d) /\
    (IsVServerReady d = true -> IsVServerReady d' = true)).
Proof.
  unfold PrepareDomain. eapply wp_mono; [apply prepare_loop_ok|].
  intros t d' (_ & Hn & [(r & -> & Hl)| ->]); cbn [set_server set_vServer currentServer preferIPv6 vServer] in *.
  - split_and!; [done|done|done|left; by exists r|done].
  - split_and!; [done|done|done|by right|done].
Qed.

(** whatever happens in [fdConn], the last thing it does is to close the
    descriptor it was given; and when it had made a file of it, which is so
    whenever it succeeds, that is the second time it closes it. *)
Theorem fdConn_closes w h ip port fd nw :
  wp (fdConn ip port fd nw) w h (fun t r =>
    (exists t0, t = t0 ++ [EUnixClose fd]) /\ closes fd t = S (files fd t) /\ (files fd t <= 1)%nat /\
    (is_Ok r = true -> closes fd t = 2%nat)).
Proof.
  eapply wp_mono; [apply fdConn_ok|]. intros t r (Hl & _ & Hc & Hf & _ & _ & Hr).
  split_and!; [done|done|done|]. destruct r as [c|]; [|done]. intros _.
  destruct (Hr c eq_refl) as [_ E]. by rewrite Hc, E.
Qed.

(** C15: A dial. No socket is bound or connected before the VPN service has
    exempted it, and none is left open but the one inside the returned connection.
    A dial of the server goes to its current address, and when that fails, once it has
    a socket, the next address becomes current, unless the last switch was less than
    five seconds ago or there is one address only; without a socket nothing changes. Any
    other dial goes to the first address of a fresh lookup and changes nothing. A UDP
    dial binds its socket without connecting it and remembers the address. *)
Theorem Dial_spec w h await d dest :
  dialer_ok d -> dialer_ok (await d) ->
  wp (Dial await d dest) w h (dialed await d dest).
Proof.
  intros Hd Ha. destruct (decide (dest_NetAddr dest = currentServer d)).
  - by apply dial_server_ok.
  - by apply dial_direct_ok.
Qed.

(** ** Witnesses *)

Definition sample_resolved (n : nat) : resolved := {|
  domain := "example.com"; IPs := map (fun i => [x0a; x00; x00; Zb (Z.of_nat i)]) (seq 0 n);
  rs_Port := 443; lastResolved := 0; ipIdx := 0; lastSwitched := None
|}.

Lemma sample_resolved_ok n : (0 < n)%nat -> resolved_ok (sample_resolved n).
Proof. intros Hn. split; cbn [sample_resolved ipIdx IPs]; [lia|]. rewrite length_map, length_seq. lia. Qed.

Lemma NextIP_rotates_witness :
  ipIdx (switches [0; 5 * Second; 11 * Second; 20 * Second] (sample_resolved 3)) = 1.
Proof.
  apply (NextIP_rotates (sample_resolved 3) [0; 5 * Second; 11 * Second; 20 * Second] 0
           (sample_resolved_ok 3 ltac:(lia))); [simpl; lia|].
  simpl. unfold Second. split_and!; try done; intros l [= <-]; lia.
Defined.

Lemma NextIP_many_witness :
  ipIdx (NextIP_at 0 (sample_resolved 256)) = 0 \/ ipIdx (NextIP_at 0 (sample_resolved 256)) < 256 mod 256.
Proof. apply (NextIP_many (sample_resolved 256) 0 (sample_resolved_ok 256 ltac:(lia))); [simpl; lia|reflexivity]. Defined.

Definition sample_dialer : ProtectedDialer := {|
  currentServer := "example.com:443"; preferIPv6 := false; vServer := Some (sample_resolved 3)
|}.

Lemma Dial_spec_witness :
  wp (Dial id sample_dialer {| dest_Network := TCP; dest_NetAddr := "example.com:443" |}) sample_world []
     (dialed id sample_dialer {| dest_Network := TCP; dest_NetAddr := "example.com:443" |}).
Proof. apply Dial_spec; intros r [= <-]; apply sample_resolved_ok; lia. Defined.
