(* ===== verification/Point.v ===== *)
(** * The life of the core ([libv2ray_main.go])

    [RunLoop] and [StopLoop] of a [V2RayPoint], and the two goroutines a run
    starts: one that waits for the server's name to resolve and stops the core
    when it did not, and, with [AsyncResolve], one that resolves it. The state
    machine interleaves any number of calls with them at every access to a field, a
    channel or the mutex that another goroutine can change meanwhile. Whoever holds
    the mutex is the only one to write [closeChan], [resolveChan] and [Vpoint], so
    its reads of these go with the access that follows. *)

From stdpp Require Import gmap.
From S2P Require Import Prelude Steps.

Definition chan := nat.

(** Where a call of [PrepareDomain] is: before it sets the name, before a lookup
    with [k] tries left, or in the pause after a failed one. *)
Inductive preparing := PrepSet | PrepLookup (k : nat) | PrepPause (k : nat).

(** Where a goroutine is. [StopLoop] is also called by the watcher; the flag says
    so. A goroutine that does not hold the mutex takes a field in one step, and uses
    what it took in a later one. *)
Inductive place :=
| RunLock | RunCheck | RunMakeClose | RunMakeResolve | RunWatch | RunResolve
| RunPrepare (name : gostr) (p : preparing) (close_ch : option chan) | RunResolved
| RunConfig | RunNew | RunStats | RunMark | RunStart | RunEmit | RunUnlock (failed : bool)
| RunReturned (failed : bool)
| StopLock (watcher : bool) | StopCheck (watcher : bool) | StopClose (watcher : bool)
| StopMark (watcher : bool) | StopCore (watcher : bool) | StopForget (watcher : bool) | StopStats (watcher : bool)
| StopEmit (watcher : bool) | StopUnlock (watcher : bool) | StopReturned
| WatchStart | WatchClose (resolve_ch : option chan) | Watching (resolve_ch close_ch : option chan) | WatchReady | WatchShutdown | WatchGone
| ResolveStart | ResolveName (name : gostr)
| Resolving (name : gostr) (p : preparing) (close_ch : option chan) | ResolveDone
| ResolveClose (resolve_ch : option chan) | ResolveGone.

(** What the environment is told: [OnEmitStatus(0, "Running")] and ["Closed"], and
    [Shutdown]. *)
Inductive notice := Running | Closed | Shutdown.

Record V2RayPoint := {
  (** The fields of the struct and of its dialer. A core is known by a number. *)
  closeChan : option chan;
  resolveChan : option chan;
  Vpoint : option nat;
  statsManager : option nat;
  IsRunning : bool;
  DomainName : gostr;
  AsyncResolve : bool;
  currentServer : gostr;
  (** The name whose addresses [vServer] holds. *)
  vServer : option gostr;
  (** The mutex [v2rayOP], the channels that are closed, the cores that were made
      and not closed, and how many channels and cores there have been. *)
  v2rayOP : option nat;
  closed : gset chan;
  live : gset nat;
  made_chans : nat;
  made_cores : nat;
  goroutines : gmap nat place;
  notices : list notice;
  (** A goroutine panicked, and the program with it. *)
  panicked : bool
}.

Definition NewV2RayPoint (adns : bool) : V2RayPoint := {|
  closeChan := None; resolveChan := None; Vpoint := None; statsManager := None; IsRunning := false;
  DomainName := []; AsyncResolve := adns; currentServer := []; vServer := None; v2rayOP := None;
  closed := ∅; live := ∅; made_chans := 0; made_cores := 0; goroutines := ∅; notices := [];
  panicked := false
|}.

(** ** Updates *)

Definition upd_go (f : gmap nat place -> gmap nat place) (v : V2RayPoint) : V2RayPoint := {|
  closeChan := closeChan v; resolveChan := resolveChan v; Vpoint := Vpoint v;
  statsManager := statsManager v; IsRunning := IsRunning v; DomainName := DomainName v;
  AsyncResolve := AsyncResolve v; currentServer := currentServer v; vServer := vServer v;
  v2rayOP := v2rayOP v; closed := closed v; live := live v; made_chans := made_chans v;
  made_cores := made_cores v; goroutines := f (goroutines v); notices := notices v;
  panicked := panicked v |}.
Definition set_mutex (m : option nat) (v : V2RayPoint) : V2RayPoint := {|
  closeChan := closeChan v; resolveChan := resolveChan v; Vpoint := Vpoint v;
  statsManager := statsManager v; IsRunning := IsRunning v; DomainName := DomainName v;
  AsyncResolve := AsyncResolve v; currentServer := currentServer v; vServer := vServer v;
  v2rayOP := m; closed := closed v; live := live v; made_chans := made_chans v;
  made_cores := made_cores v; goroutines := goroutines v; notices := notices v;
  panicked := panicked v |}.
Definition make_closeChan (v : V2RayPoint) : V2RayPoint := {|
  closeChan := Some (made_chans v); resolveChan := resolveChan v; Vpoint := Vpoint v;
  statsManager := statsManager v; IsRunning := IsRunning v; DomainName := DomainName v;
  AsyncResolve := AsyncResolve v; currentServer := currentServer v; vServer := vServer v;
  v2rayOP := v2rayOP v; closed := closed v; live := live v; made_chans := S (made_chans v);
  made_cores := made_cores v; goroutines := goroutines v; notices := notices v;
  panicked := panicked v |}.
Definition PrepareResolveChan (v : V2RayPoint) : V2RayPoint := {|
  closeChan := closeChan v; resolveChan := Some (made_chans v); Vpoint := Vpoint v;
  statsManager := statsManager v; IsRunning := IsRunning v; DomainName := DomainName v;
  AsyncResolve := AsyncResolve v; currentServer := currentServer v; vServer := vServer v;
  v2rayOP := v2rayOP v; closed := closed v; live := live v; made_chans := S (made_chans v);
  made_cores := made_cores v; goroutines := goroutines v; notices := notices v;
  panicked := panicked v |}.
Definition set_core (c : option nat) (v : V2RayPoint) : V2RayPoint := {|
  closeChan := closeChan v; resolveChan := resolveChan v; Vpoint := c;
  statsManager := statsManager v; IsRunning := IsRunning v; DomainName := DomainName v;
  AsyncResolve := AsyncResolve v; currentServer := currentServer v; vServer := vServer v;
  v2rayOP := v2rayOP v; closed := closed v; live := live v; made_chans := made_chans v;
  made_cores := made_cores v; goroutines := goroutines v; notices := notices v;
  panicked := panicked v |}.
(** [v2core.New]. *)
Definition new_core (v : V2RayPoint) : V2RayPoint := {|
  closeChan := closeChan v; resolveChan := resolveChan v; Vpoint := Some (made_cores v);
  statsManager := statsManager v; IsRunning := IsRunning v; DomainName := DomainName v;
  AsyncResolve := AsyncResolve v; currentServer := currentServer v; vServer := vServer v;
  v2rayOP := v2rayOP v; closed := closed v; live := {[made_cores v]} ∪ live v;
  made_chans := made_chans v; made_cores := S (made_cores v); goroutines := goroutines v;
  notices := notices v; panicked := panicked v |}.
Definition close_core (c : nat) (v : V2RayPoint) : V2RayPoint := {|
  closeChan := closeChan v; resolveChan := resolveChan v; Vpoint := Vpoint v;
  statsManager := statsManager v; IsRunning := IsRunning v; DomainName := DomainName v;
  AsyncResolve := AsyncResolve v; currentServer := currentServer v; vServer := vServer v;
  v2rayOP := v2rayOP v; closed := closed v; live := live v ∖ {[c]}; made_chans := made_chans v;
  made_cores := made_cores v; goroutines := goroutines v; notices := notices v;
  panicked := panicked v |}.
Definition set_stats (s : option nat) (v : V2RayPoint) : V2RayPoint := {|
  closeChan := closeChan v; resolveChan := resolveChan v; Vpoint := Vpoint v;
  statsManager := s; IsRunning := IsRunning v; DomainName := DomainName v;
  AsyncResolve := AsyncResolve v; currentServer := currentServer v; vServer := vServer v;
  v2rayOP := v2rayOP v; closed := closed v; live := live v; made_chans := made_chans v;
  made_cores := made_cores v; goroutines := goroutines v; notices := notices v;
  panicked := panicked v |}.
Definition set_running (b : bool) (v : V2RayPoint) : V2RayPoint := {|
  closeChan := closeChan v; resolveChan := resolveChan v; Vpoint := Vpoint v;
  statsManager := statsManager v; IsRunning := b; DomainName := DomainName v;
  AsyncResolve := AsyncResolve v; currentServer := currentServer v; vServer := vServer v;
  v2rayOP := v2rayOP v; closed := closed v; live := live v; made_chans := made_chans v;
  made_cores := made_cores v; goroutines := goroutines v; notices := notices v;
  panicked := panicked v |}.
Definition set_domain (d : gostr) (v : V2RayPoint) : V2RayPoint := {|
  closeChan := closeChan v; resolveChan := resolveChan v; Vpoint := Vpoint v;
  statsManager := statsManager v; IsRunning := IsRunning v; DomainName := d;
  AsyncResolve := AsyncResolve v; currentServer := currentServer v; vServer := vServer v;
  v2rayOP := v2rayOP v; closed := closed v; live := live v; made_chans := made_chans v;
  made_cores := made_cores v; goroutines := goroutines v; notices := notices v;
  panicked := panicked v |}.
Definition set_dialer (name : gostr) (s : option gostr) (v : V2RayPoint) : V2RayPoint := {|
  closeChan := closeChan v; resolveChan := resolveChan v; Vpoint := Vpoint v;
  statsManager := statsManager v; IsRunning := IsRunning v; DomainName := DomainName v;
  AsyncResolve := AsyncResolve v; currentServer := name; vServer := s;
  v2rayOP := v2rayOP v; closed := closed v; live := live v; made_chans := made_chans v;
  made_cores := made_cores v; goroutines := goroutines v; notices := notices v;
  panicked := panicked v |}.
Definition notify (n : notice) (v : V2RayPoint) : V2RayPoint := {|
  closeChan := closeChan v; resolveChan := resolveChan v; Vpoint := Vpoint v;
  statsManager := statsManager v; IsRunning := IsRunning v; DomainName := DomainName v;
  AsyncResolve := AsyncResolve v; currentServer := currentServer v; vServer := vServer v;
  v2rayOP := v2rayOP v; closed := closed v; live := live v; made_chans := made_chans v;
  made_cores := made_cores v; goroutines := goroutines v; notices := n :: notices v;
  panicked := panicked v |}.
Definition add_closed (c : chan) (v : V2RayPoint) : V2RayPoint := {|
  closeChan := closeChan v; resolveChan := resolveChan v; Vpoint := Vpoint v;
  statsManager := statsManager v; IsRunning := IsRunning v; DomainName := DomainName v;
  AsyncResolve := AsyncResolve v; currentServer := currentServer v; vServer := vServer v;
  v2rayOP := v2rayOP v; closed := {[c]} ∪ closed v; live := live v; made_chans := made_chans v;
  made_cores := made_cores v; goroutines := goroutines v; notices := notices v;
  panicked := panicked v |}.
Definition panic (v : V2RayPoint) : V2RayPoint := {|
  closeChan := closeChan v; resolveChan := resolveChan v; Vpoint := Vpoint v;
  statsManager := statsManager v; IsRunning := IsRunning v; DomainName := DomainName v;
  AsyncResolve := AsyncResolve v; currentServer := currentServer v; vServer := vServer v;
  v2rayOP := v2rayOP v; closed := closed v; live := live v; made_chans := made_chans v;
  made_cores := made_cores v; goroutines := goroutines v; notices := notices v;
  panicked := true |}.

(** [close(c)]: a panic on a nil or a closed channel. *)
Definition close_chan (c : option chan) (v : V2RayPoint) : V2RayPoint :=
  match c with
  | None => panic v
  | Some c => if decide (c ∈ closed v) then panic v else add_closed c v
  end.

(** Receiving from [c] does not block. *)
Definition is_closed (c : option chan) (v : V2RayPoint) : bool :=
  match c with Some c => bool_decide (c ∈ closed v) | None => false end.

(** ** Steps *)

Definition maxRetry : nat := 10.

(** A step of [PrepareDomain(name, close_ch, _)]; [ok] is what the environment
    decides: the lookup succeeds, or the pause ends by the timer. The result is
    [None] when it cannot go on that way, and has no new place when it returned. *)
Definition prepare_step (name : gostr) (p : preparing) (close_ch : option chan) (ok : bool)
    (v : V2RayPoint) : option (V2RayPoint * option preparing) :=
  match p with
  | PrepSet => Some (set_dialer name (vServer v) v, Some (PrepLookup maxRetry))
  | PrepLookup O => Some (v, None)
  | PrepLookup (S k) =>
    if ok then Some (set_dialer (currentServer v) (Some name) v, None)
    else Some (v, Some (PrepPause k))
  | PrepPause k =>
    if ok then Some (v, Some (PrepLookup k))
    else if is_closed close_ch v then Some (v, None) else None
  end.

(** The goroutine [t] moves to [p]. *)
Definition goto (t : nat) (p : place) (v : V2RayPoint) : V2RayPoint := upd_go <[t := p]> v.

(** [v2rayOP.Lock()]: [t] waits while somebody holds it. *)
Definition lock (t : nat) (next : place) (v : V2RayPoint) : option V2RayPoint :=
  match v2rayOP v with
  | None => Some (goto t next (set_mutex (Some t) v))
  | Some _ => None
  end.

(** [go func() ...()]: [t] starts [t'] at [q]. *)
Definition spawn (t t' : nat) (q next : place) (v : V2RayPoint) : option V2RayPoint :=
  match goroutines v !! t' with
  | None => if decide (t' = t) then None else Some (goto t next (goto t' q v))
  | Some _ => None
  end.

(** One step of goroutine [t] at [p], per function. [ok] is the environment's
    choice where there is one (the configuration loads, the core is made, it
    starts, a lookup succeeds; the resolve branch of the watcher's [select]), [t']
    the name of a goroutine it starts. *)
Definition run_RunLoop (t t' : nat) (ok : bool) (p : place) (v : V2RayPoint) : option V2RayPoint :=
  match p with
  | RunLock => lock t RunCheck v
  | RunCheck => Some (goto t (if IsRunning v then RunUnlock false else RunMakeClose) v)
  | RunMakeClose => Some (goto t RunMakeResolve (make_closeChan v))
  | RunMakeResolve => Some (goto t RunWatch (PrepareResolveChan v))
  | RunWatch => spawn t t' WatchStart RunResolve v
  | RunResolve =>
    if AsyncResolve v then spawn t t' ResolveStart RunConfig v
    else Some (goto t (RunPrepare (DomainName v) PrepSet (closeChan v)) v)
  | RunPrepare name q c =>
    '(v', q') ← prepare_step name q c ok v;
    Some (goto t (match q' with Some q' => RunPrepare name q' c | None => RunResolved end) v')
  | RunResolved => Some (goto t RunConfig (close_chan (resolveChan v) v))
  | RunUnlock failed => Some (goto t (RunReturned failed) (set_mutex None v))
  | _ => None
  end.

Definition pointloop (t : nat) (ok : bool) (p : place) (v : V2RayPoint) : option V2RayPoint :=
  match p with
  | RunConfig => Some (goto t (if ok then RunNew else RunUnlock true) v)
  | RunNew =>
    if ok then Some (goto t RunStats (new_core v)) else Some (goto t (RunUnlock true) (set_core None v))
  | RunStats => Some (goto t RunMark (set_stats (Vpoint v) v))
  | RunMark => Some (goto t RunStart (set_running true v))
  | RunStart =>
    if ok then Some (goto t RunEmit v) else Some (goto t (RunUnlock true) (set_running false v))
  | RunEmit => Some (goto t (RunUnlock false) (notify Running v))
  | _ => None
  end.

Definition shutdownInit (t : nat) (p : place) (v : V2RayPoint) : option V2RayPoint :=
  match p with
  | StopMark w => Some (goto t (StopCore w) (set_running false v))
  | StopCore w =>
    match Vpoint v with
    | Some c => Some (goto t (StopForget w) (close_core c v))
    | None => Some (panic v)
    end
  | StopForget w => Some (goto t (StopStats w) (set_core None v))
  | StopStats w => Some (goto t (StopEmit w) (set_stats None v))
  | _ => None
  end.

Definition run_StopLoop (t : nat) (p : place) (v : V2RayPoint) : option V2RayPoint :=
  match p with
  | StopLock w => lock t (StopCheck w) v
  | StopCheck w => Some (goto t (if IsRunning v then StopClose w else StopUnlock w) v)
  | StopClose w => Some (goto t (StopMark w) (close_chan (closeChan v) v))
  | StopMark _ | StopCore _ | StopForget _ | StopStats _ => shutdownInit t p v
  | StopEmit w => Some (goto t (StopUnlock w) (notify Closed v))
  | StopUnlock w => Some (goto t (if w then WatchShutdown else StopReturned) (set_mutex None v))
  | _ => None
  end.

(** The goroutine that waits for the name to resolve. *)
Definition run_watcher (t : nat) (ok : bool) (p : place) (v : V2RayPoint) : option V2RayPoint :=
  match p with
  | WatchStart => Some (goto t (WatchClose (resolveChan v)) v)
  | WatchClose rc => Some (goto t (Watching rc (closeChan v)) v)
  | Watching rc cc =>
    if ok then (if is_closed rc v then Some (goto t WatchReady v) else None)
    else (if is_closed cc v then Some (goto t WatchGone v) else None)
  | WatchReady =>
    Some (goto t (match vServer v with Some _ => WatchGone | None => StopLock true end) v)
  | WatchShutdown => Some (goto t WatchGone (notify Shutdown v))
  | _ => None
  end.

(** The goroutine that resolves the name when [AsyncResolve] is on. *)
Definition run_resolver (t : nat) (ok : bool) (p : place) (v : V2RayPoint) : option V2RayPoint :=
  match p with
  | ResolveStart => Some (goto t (ResolveName (DomainName v)) v)
  | ResolveName name => Some (goto t (Resolving name PrepSet (closeChan v)) v)
  | Resolving name q c =>
    '(v', q') ← prepare_step name q c ok v;
    Some (goto t (match q' with Some q' => Resolving name q' c | None => ResolveDone end) v')
  | ResolveDone => Some (goto t (ResolveClose (resolveChan v)) v)
  | ResolveClose c => Some (goto t ResolveGone (close_chan c v))
  | _ => None
  end.

Definition run (t t' : nat) (ok : bool) (p : place) (v : V2RayPoint) : option V2RayPoint :=
  match p with
  | RunConfig | RunNew | RunStats | RunMark | RunStart | RunEmit => pointloop t ok p v
  | StopLock _ | StopCheck _ | StopClose _ | StopMark _ | StopCore _ | StopForget _ | StopStats _ | StopEmit _
  | StopUnlock _ | StopReturned => run_StopLoop t p v
  | WatchStart | WatchClose _ | Watching _ _ | WatchReady | WatchShutdown | WatchGone => run_watcher t ok p v
  | ResolveStart | ResolveName _ | Resolving _ _ _ | ResolveDone | ResolveClose _ | ResolveGone => run_resolver t ok p v
  | _ => run_RunLoop t t' ok p v
  end.

Inductive action :=
| CallRunLoop (t : nat)
| CallStopLoop (t : nat)
| SetDomainName (d : gostr)
| Step (t t' : nat) (ok : bool).

Definition step (a : action) (v : V2RayPoint) : option V2RayPoint :=
  if panicked v then None
  else match a with
  | CallRunLoop t =>
    match goroutines v !! t with None => Some (goto t RunLock v) | Some _ => None end
  | CallStopLoop t =>
    match goroutines v !! t with None => Some (goto t (StopLock false) v) | Some _ => None end
  | SetDomainName d => Some (set_domain d v)
  | Step t t' ok => p ← goroutines v !! t; run t t' ok p v
  end.

Abbreviation steps := (schedule step).

Definition reachable (adns : bool) : V2RayPoint -> Prop := leads_to step (NewV2RayPoint adns).

(** ** The invariant *)

(** Between [v2rayOP.Lock()] and the deferred [Unlock()]. *)
Definition critical (p : place) : bool :=
  match p with
  | RunLock | RunReturned _ | StopLock _ | StopReturned
  | WatchStart | WatchClose _ | Watching _ _ | WatchReady | WatchShutdown | WatchGone
  | ResolveStart | ResolveName _ | Resolving _ _ _ | ResolveDone | ResolveClose _ | ResolveGone => false
  | _ => true
  end.

(** The goroutines that [AsyncResolve] adds. *)
Definition resolver (p : place) : bool :=
  match p with
  | ResolveStart | ResolveName _ | Resolving _ _ _ | ResolveDone | ResolveClose _ | ResolveGone => true | _ => false end.

(** The statuses emitted, newest first. *)
Definition is_status (n : notice) : bool := match n with Shutdown => false | _ => true end.
Definition statuses (v : V2RayPoint) : list notice := List.filter is_status (notices v).

Fixpoint alternating (l : list notice) : Prop :=
  match l with
  | [] => True
  | Running :: r => head r <> Some Running /\ alternating r
  | Closed :: r => head r = Some Running /\ alternating r
  | Shutdown :: _ => False
  end.

Definition status_on (v : V2RayPoint) : Prop := head (statuses v) = Some Running.

Definition chan_open (c : option chan) (v : V2RayPoint) : Prop :=
  exists n, c = Some n /\ n ∉ closed v.

(** A core is up: it has not been closed, its statistics are the ones in use, and
    the channel that will announce its end is open. *)
Definition core_up (v : V2RayPoint) : Prop :=
  chan_open (closeChan v) v /\ exists c, Vpoint v = Some c /\ statsManager v = Some c /\ c ∈ live v.

(** What holds whenever nobody holds the mutex. *)
Definition settled (v : V2RayPoint) : Prop :=
  (IsRunning v = true -> core_up v) /\ (status_on v <-> IsRunning v = true).

Definition down (v : V2RayPoint) : Prop := IsRunning v = false /\ ~ status_on v.

Definition has_core (v : V2RayPoint) : Prop := exists c, Vpoint v = Some c /\ c ∈ live v.

(** The tries that are left are tries of this call. *)
Definition tries_ok (p : preparing) : Prop :=
  match p with
  | PrepSet => True
  | PrepLookup k => (k <= maxRetry)%nat
  | PrepPause k => (k < maxRetry)%nat
  end.

(** What the goroutine that holds the mutex at [p] knows. *)
Definition place_ok (v : V2RayPoint) (p : place) : Prop :=
  match p with
  | RunCheck | RunUnlock _ | StopCheck _ | StopUnlock _ => settled v
  | RunMakeClose => down v
  | RunMakeResolve => down v /\ chan_open (closeChan v) v
  | RunWatch | RunResolve =>
    down v /\ chan_open (closeChan v) v /\ is_Some (resolveChan v) /\
    (AsyncResolve v = false -> chan_open (resolveChan v) v)
  | RunPrepare _ p c =>
    down v /\ chan_open (closeChan v) v /\ AsyncResolve v = false /\ chan_open (resolveChan v) v /\
    c = closeChan v /\ tries_ok p
  | RunResolved =>
    down v /\ chan_open (closeChan v) v /\ AsyncResolve v = false /\ chan_open (resolveChan v) v
  | RunConfig | RunNew => down v /\ chan_open (closeChan v) v
  | RunStats => down v /\ chan_open (closeChan v) v /\ has_core v
  | RunMark => IsRunning v = false /\ core_up v /\ ~ status_on v
  | RunStart | RunEmit => IsRunning v = true /\ core_up v /\ ~ status_on v
  | StopClose _ => IsRunning v = true /\ core_up v /\ status_on v
  | StopMark _ => has_core v /\ status_on v
  | StopCore _ => IsRunning v = false /\ has_core v /\ status_on v
  | StopForget _ | StopStats _ | StopEmit _ => IsRunning v = false /\ status_on v
  | _ => True
  end.

(** What holds of the fields alone. *)
Record data_ok (v : V2RayPoint) : Prop := {
  data_chans : forall c, closeChan v = Some c \/ resolveChan v = Some c \/ c ∈ closed v -> (c < made_chans v)%nat;
  data_distinct : forall c, closeChan v = Some c -> resolveChan v <> Some c;
  data_cores : forall c, c ∈ live v -> (c < made_cores v)%nat;
  data_order : alternating (statuses v)
}.

Record good (v : V2RayPoint) : Prop := {
  good_mutex : guarded critical (v2rayOP v) (goroutines v);
  good_place : forall t p, goroutines v !! t = Some p -> place_ok v p;
  good_idle : v2rayOP v = None -> settled v;
  good_data : data_ok v;
  good_sync : AsyncResolve v = false -> forall t p, goroutines v !! t = Some p -> resolver p = false
}.

(** A resolver has come to its end. *)
Definition retired (v : V2RayPoint) : Prop := exists s, goroutines v !! s = Some ResolveGone.

(** The channel a resolver took, or would take now. *)
Definition takable (v : V2RayPoint) (c : chan) : Prop :=
  resolveChan v = Some c \/ exists t, goroutines v !! t = Some (ResolveClose (Some c)).

(** What the resolvers know: there is a channel to take, the one that was taken does
    not announce the end of a run, and nobody but a resolver closes it. *)
Record resolvers_ok (v : V2RayPoint) : Prop := {
  resolvers_chan : forall t p, goroutines v !! t = Some p -> resolver p = true -> is_Some (resolveChan v);
  resolvers_taken : forall t o, goroutines v !! t = Some (ResolveClose o) ->
    exists c, o = Some c /\ (c < made_chans v)%nat /\ closeChan v <> Some c;
  resolvers_closed : AsyncResolve v = true -> forall c, c ∈ closed v -> takable v c -> retired v
}.

(** The steps a holder of the mutex has left before it unlocks, at most. *)
Definition rank (p : place) : nat :=
  match p with
  | RunCheck => 35 | RunMakeClose => 34 | RunMakeResolve => 33 | RunWatch => 32 | RunResolve => 31
  | RunPrepare _ PrepSet _ => 30
  | RunPrepare _ (PrepLookup k) _ => 9 + 2 * k
  | RunPrepare _ (PrepPause k) _ => 10 + 2 * k
  | RunResolved => 8 | RunConfig => 7 | RunNew => 6 | RunStats => 5 | RunMark => 4 | RunStart => 3
  | RunEmit => 2 | RunUnlock _ => 1
  | StopCheck _ => 8 | StopClose _ => 7 | StopMark _ => 6 | StopCore _ => 5 | StopForget _ => 4 | StopStats _ => 3
  | StopEmit _ => 2 | StopUnlock _ => 1
  | _ => 0
  end.

Definition step_of (t : nat) (a : action) : bool :=
  match a with Step s _ _ => bool_decide (s = t) | _ => false end.

(** The steps of [t] in [l]. *)
Definition moves (t : nat) (l : list action) : nat := length (List.filter (step_of t) l).

(** The steps of a call that runs alone, [S t] being the goroutine it may start. *)
Definition alone (t : nat) (oks : list bool) : list action := List.map (Step t (S t)) oks.

(** The steps of [PrepareDomain] when the first [k] lookups fail, and of [pointloop]:
    [conf], [new] and [start] say whether the configuration loads, the core is made
    and it starts. *)
Definition prepare_alone (k : nat) : list bool := [true] ++ concat (repeat [false; true] k) ++ [true].
Definition pointloop_alone (conf new start : bool) : list bool :=
  conf :: if conf then new :: if new then [true; true; start] ++ (if start then [true] else []) else [] else [].

(** [RunLoop] with a core up or not ([up]) and [AsyncResolve] on or off ([adns]):
    [S t] is the watcher, [S (S t)] the resolver. *)
Definition run_alone (t : nat) (up adns : bool) (k : nat) (conf new start : bool) : list action :=
  CallRunLoop t :: alone t [true; true] ++
  (if up then []
   else alone t [true; true; true] ++
     (if adns then [Step t (S (S t)) true] else alone t ([true] ++ prepare_alone k ++ [true])) ++
     alone t (pointloop_alone conf new start)) ++
  alone t [true].

Definition stop_alone (t : nat) : list action := CallStopLoop t :: alone t (repeat true 9).

(** [n] steps of [t]. *)
Definition go (t t' n : nat) : list action := repeat (Step t t' true) n.

(** With [AsyncResolve]: a run, its end and a second run. The resolvers of the two,
    2 and 6, have resolved the name and took the second run's channel, and 2 has
    closed it. *)
Definition racing_script : list action :=
  (CallRunLoop 0 :: go 0 1 5 ++ go 0 2 8 ++ go 2 0 4 ++ stop_alone 3 ++
   CallRunLoop 4 :: go 4 5 5 ++ go 4 6 8 ++ go 6 0 5 ++ go 2 0 2)%nat.

(** With [AsyncResolve] off: a run with the name "a" and its end, and a run with
    the name "b", which never resolves. *)
Definition stale_script : list action :=
  (SetDomainName ["a"%byte] :: run_alone 0 false false 0 true true true ++ go 1 0 4 ++ stop_alone 2 ++
   SetDomainName ["b"%byte] :: CallRunLoop 3 :: go 3 4 7 ++
   concat (repeat [Step 3 4 false; Step 3 4 true] 10) ++ go 3 4 9 ++ go 4 0 4)%nat.

(** ** Lemmas: the fields *)

Lemma data_ok_eq v v' :
  data_ok v -> closeChan v' = closeChan v -> resolveChan v' = resolveChan v -> closed v' = closed v ->
  made_chans v' = made_chans v -> live v' ⊆ live v -> made_cores v' = made_cores v ->
  statuses v' = statuses v -> data_ok v'.
Proof.
  intros [H1 H2 H3 H4] E1 E2 E3 E4 E5 E6 E7.
  split; rewrite ?E1, ?E2, ?E3, ?E4, ?E6, ?E7; try done. intros c Hc. by apply H3, E5.
Qed.

Lemma make_closeChan_ok v : data_ok v -> data_ok (make_closeChan v).
Proof.
  intros [H1 H2 H3 H4]. split; try done; simpl.
  - intros c [[= <-]|Hc]; [lia|]. specialize (H1 c ltac:(by right)). lia.
  - intros c [= <-] Hr. specialize (H1 _ ltac:(right; by left)). lia.
Qed.

Lemma PrepareResolveChan_ok v : data_ok v -> data_ok (PrepareResolveChan v).
Proof.
  intros [H1 H2 H3 H4]. split; try done; simpl.
  - intros c [Hc|[[= <-]|Hc]]; [|lia|].
    + specialize (H1 c ltac:(by left)). lia.
    + specialize (H1 c ltac:(by right; right)). lia.
  - intros c Hc [= <-]. specialize (H1 _ ltac:(by left)). lia.
Qed.

Lemma new_core_ok v : data_ok v -> data_ok (new_core v).
Proof.
  intros [H1 H2 H3 H4]. split; try done; simpl. intros c [->%elem_of_singleton|Hc]%elem_of_union; [lia|].
  specialize (H3 c Hc). lia.
Qed.

Lemma add_closed_ok c v : data_ok v -> (c < made_chans v)%nat -> data_ok (add_closed c v).
Proof. intros [H1 H2 H3 H4] Hc. split; try done; simpl. intros d. rewrite elem_of_union, elem_of_singleton. naive_solver. Qed.

Lemma close_chan_ok c v :
  data_ok v -> (forall n, c = Some n -> (n < made_chans v)%nat) -> data_ok (close_chan c v).
Proof.
  intros Hd Hc. unfold close_chan. destruct c as [n|]; [|by apply (data_ok_eq v)].
  case_decide; [by apply (data_ok_eq v)|]. by apply add_closed_ok; [|apply Hc].
Qed.

Lemma notify_ok n v :
  data_ok v -> (n = Running -> ~ status_on v) -> (n = Closed -> status_on v) -> data_ok (notify n v).
Proof.
  intros [H1 H2 H3 H4] Hr Hc. split; try done. unfold statuses, status_on in *. simpl.
  destruct n; simpl; auto.
Qed.

(** Closing a channel, when it does not panic, changes nothing but the set of
    closed channels. *)
Lemma close_chan_open c v :
  chan_open c v -> exists n, c = Some n /\ close_chan c v = add_closed n v.
Proof. intros (n & -> & Hn). exists n. simpl. by rewrite decide_False. Qed.

(** The step that [run] is at a place. *)
Ltac open_run H := simpl in H; unfold lock, spawn in H.

(** ** Lemmas: steps *)

(** [place_ok] reads these fields only. *)
Lemma place_ok_frame v v' p :
  place_ok v p ->
  closeChan v' = closeChan v -> resolveChan v' = resolveChan v -> Vpoint v' = Vpoint v ->
  statsManager v' = statsManager v -> IsRunning v' = IsRunning v -> AsyncResolve v' = AsyncResolve v ->
  live v' = live v -> statuses v' = statuses v ->
  (chan_open (closeChan v) v -> chan_open (closeChan v) v') ->
  (AsyncResolve v = false -> chan_open (resolveChan v) v -> chan_open (resolveChan v) v') ->
  place_ok v' p.
Proof.
  intros Hp E1 E2 E3 E4 E5 E6 E7 E8 Hc Hr.
  assert (core_up v -> core_up v') as Hup.
  { intros [Ho Hx]. split; [rewrite E1; by apply Hc|]. by rewrite E3, E4, E7. }
  assert (settled v -> settled v') as Hs.
  { unfold settled, status_on. rewrite E5, E8. intros [H1 H2]. auto. }
  assert (down v -> down v') as Hdn by (unfold down, status_on; by rewrite E5, E8).
  assert (has_core v -> has_core v') as Hh by (unfold has_core; by rewrite E3, E7).
  assert (status_on v' <-> status_on v) as Hst by (unfold status_on; by rewrite E8).
  destruct p; simpl in *; rewrite ?E1, ?E2, ?E5, ?E6, ?Hst; try done; destruct_and?; split_and?; auto.
Qed.

(** A step of goroutine [t] from [p] to [p'], which may start others that do not
    hold the mutex. *)
Lemma point_move v v' t p p' :
  good v -> goroutines v !! t = Some p -> goroutines v' !! t = Some p' ->
  (forall s q, s <> t -> goroutines v !! s = Some q -> goroutines v' !! s = Some q) ->
  (forall s q, s <> t -> goroutines v' !! s = Some q ->
     goroutines v !! s = Some q \/ critical q = false /\ place_ok v' q /\ (AsyncResolve v = false -> resolver q = false)) ->
  AsyncResolve v' = AsyncResolve v -> resolver p' = resolver p ->
  v2rayOP v' = (if critical p' then Some t else if critical p then None else v2rayOP v) ->
  (critical p' = true -> critical p = true \/ v2rayOP v = None) ->
  place_ok v' p' ->
  (critical p = false -> critical p' = false -> forall q, critical q = true -> place_ok v q -> place_ok v' q) ->
  (v2rayOP v' = None -> settled v') -> data_ok v' -> good v'.
Proof.
  intros Hg Ht Ht' Hold Hnew Ha Hres Em Hlock Hp Hframe Hset Hd.
  pose proof (good_mutex v Hg) as Hmu. unfold guarded in Hmu.
  assert (forall s q, s <> t -> goroutines v !! s = Some q -> critical q = true ->
            critical p = false /\ critical p' = false /\ v2rayOP v = Some s) as Hother.
  { intros s q Hne Hq Hc. assert (v2rayOP v = Some s) as Es by (apply Hmu; eauto). split_and!; [..|done].
    - destruct (critical p) eqn:Ep; [|done]. assert (v2rayOP v = Some t) by (apply Hmu; eauto). congruence.
    - destruct (critical p') eqn:Ep'; [|done]. destruct (Hlock eq_refl) as [Hx|Hx]; [|congruence].
      assert (v2rayOP v = Some t) by (apply Hmu; eauto). congruence. }
  split; [|..|done|].
  - intros s. destruct (decide (s = t)) as [->|Hne].
    + rewrite Em. split.
      * intros E. exists p'. split; [done|]. destruct (critical p') eqn:Ep'; [done|].
        destruct (critical p) eqn:Ep; [done|]. apply Hmu in E as (q & Hq & Hcq). congruence.
      * intros (q & Hq & Hcq). rewrite Ht' in Hq. injection Hq as <-. by rewrite Hcq.
    + split.
      * rewrite Em. intros E. destruct (critical p') eqn:Ep'; [congruence|].
        destruct (critical p) eqn:Ep; [done|]. apply Hmu in E as (q & Hq & Hcq). exists q. auto.
      * intros (q & Hq & Hcq). destruct (Hnew s q Hne Hq) as [Hq'|(? & _)]; [|congruence].
        destruct (Hother s q Hne Hq' Hcq) as (Ep & Ep' & Es). by rewrite Em, Ep, Ep'.
  - intros s q Hq. destruct (decide (s = t)) as [->|Hne].
    { rewrite Ht' in Hq. by injection Hq as <-. }
    destruct (Hnew s q Hne Hq) as [Hq'|(_ & Hok & _)]; [|done].
    destruct (critical q) eqn:Ecq.
    + destruct (Hother s q Hne Hq' Ecq) as (Ep & Ep' & Es).
      apply Hframe; try done. by apply (good_place v Hg s).
    + by destruct q.
  - done.
  - rewrite Ha. intros Hs s q Hq. destruct (decide (s = t)) as [->|Hne].
    { rewrite Ht' in Hq. injection Hq as <-. rewrite Hres. by apply (good_sync v Hg Hs t). }
    destruct (Hnew s q Hne Hq) as [Hq'|(_ & _ & Hr)]; [by apply (good_sync v Hg Hs s)|by apply Hr].
Qed.

Lemma upd_go_ok f v : data_ok v -> data_ok (upd_go f v).
Proof. intros Hd. by apply (data_ok_eq v). Qed.

Lemma place_ok_upd_go f v p : place_ok (upd_go f v) p <-> place_ok v p.
Proof. by destruct p. Qed.

Lemma good_set_domain d v : good v -> good (set_domain d v).
Proof.
  intros [H1 H2 H3 H4 H5]. split; [exact H1| |exact H3|by apply (data_ok_eq v)|exact H5].
  intros t p Hp. specialize (H2 t p Hp). by destruct p.
Qed.

Lemma good_call v t p :
  good v -> goroutines v !! t = None -> critical p = false ->
  (AsyncResolve v = false -> resolver p = false) -> good (goto t p v).
Proof.
  intros [H1 H2 H3 H4 H5] Ht Hc Hr. split; simpl.
  - by apply guarded_fresh.
  - intros s q Hq. apply place_ok_upd_go. apply lookup_insert_Some in Hq as [[-> <-]|[_ Hq]]; [by destruct p|by apply (H2 s)].
  - exact H3.
  - by apply upd_go_ok.
  - intros Hs s q Hq. apply lookup_insert_Some in Hq as [[-> <-]|[_ Hq]]; [by apply Hr|by apply (H5 Hs s)].
Qed.

(** The four ways to move: inside the critical section, outside it, into it and
    out of it. *)
Section moves.
Context (v w : V2RayPoint) (t : nat) (p p' : place).
Context (Hg : good v) (Ht : goroutines v !! t = Some p).
Context (Ew : goroutines w = goroutines v) (Ea : AsyncResolve w = AsyncResolve v).
Context (Er : resolver p' = resolver p) (Hok : place_ok w p') (Hd : data_ok w).

Lemma good_goto :
  v2rayOP w = (if critical p' then Some t else if critical p then None else v2rayOP v) ->
  (critical p' = true -> critical p = true \/ v2rayOP v = None) ->
  (critical p = false -> critical p' = false -> forall q, place_ok v q -> place_ok w q) ->
  (v2rayOP w = None -> settled w) -> good (goto t p' w).
Proof using All.
  intros Em Hlock Hframe Hset.
  apply (point_move v _ t p p'); try done; simpl; rewrite ?Ew.
  - by rewrite lookup_insert_eq.
  - intros s q Hne Hq. by rewrite lookup_insert_ne.
  - intros s q Hne Hq. rewrite lookup_insert_ne in Hq by done. by left.
  - intros Hp Hp' q _ Hq. exact (proj2 (place_ok_upd_go _ w q) (Hframe Hp Hp' q Hq)).
  - by apply upd_go_ok.
Qed.

Lemma mutex_held : critical p = true -> v2rayOP v = Some t.
Proof using Hg Ht. intros Hc. apply (good_mutex v Hg). eauto. Qed.

Lemma good_inside :
  critical p = true -> critical p' = true -> v2rayOP w = v2rayOP v -> good (goto t p' w).
Proof using All.
  intros Hc Hc' Em. pose proof (mutex_held Hc) as Hm.
  apply good_goto; rewrite ?Hc, ?Hc'; try (congruence || by left).
Qed.

Lemma good_outside :
  critical p = false -> critical p' = false -> v2rayOP w = v2rayOP v ->
  (forall q, place_ok v q -> place_ok w q) -> good (goto t p' w).
Proof using All.
  intros Hc Hc' Em Hf. apply good_goto; rewrite ?Hc, ?Hc'; try done.
  rewrite Em. intros E. apply (Hf RunCheck). by apply (good_idle v Hg).
Qed.

Lemma good_lock :
  critical p = false -> critical p' = true -> v2rayOP v = None -> v2rayOP w = Some t -> good (goto t p' w).
Proof using All.
  intros Hc Hc' En Em. apply good_goto; rewrite ?Hc, ?Hc'; try (congruence || by right).
Qed.

Lemma good_unlock :
  critical p = true -> critical p' = false -> v2rayOP w = None -> settled w -> good (goto t p' w).
Proof using All.
  intros Hc Hc' En Hs. apply good_goto; rewrite ?Hc, ?Hc'; done || by left.
Qed.
End moves.

Lemma good_spawn v t t' p p' q :
  good v -> goroutines v !! t = Some p -> goroutines v !! t' = None -> t' <> t ->
  critical p = true -> critical p' = true -> resolver p' = resolver p ->
  critical q = false -> (AsyncResolve v = false -> resolver q = false) -> place_ok v p' ->
  good (goto t p' (goto t' q v)).
Proof.
  intros Hg Ht Ht' Hne Hc Hc' Hr Hcq Hrq Hp'.
  pose proof (good_call v t' q Hg Ht' Hcq Hrq) as Hg'.
  apply (good_inside (goto t' q v) (goto t' q v) t p p'); try done.
  - simpl. by rewrite lookup_insert_ne.
  - exact (good_data _ Hg').
Qed.

(** [PrepareDomain] writes the dialer's names only. *)
Lemma prepare_step_dialer name q c ok v v' q' :
  prepare_step name q c ok v = Some (v', q') -> exists n s, v' = set_dialer n s v.
Proof.
  assert (v = set_dialer (currentServer v) (vServer v) v) as Hself by by destruct v.
  destruct q as [|[|k]|k]; simpl; intros H; [..|destruct ok; [|destruct (is_closed c v); [|done]]];
    try destruct ok; injection H as <- <-; eauto.
Qed.

Lemma prepare_step_tries name q c ok v v' q' :
  prepare_step name q c ok v = Some (v', Some q') -> tries_ok q -> tries_ok q'.
Proof.
  destruct q as [|[|k]|k]; simpl; intros H;
    [|done|destruct ok; [done|]|destruct ok; [|by destruct (is_closed c v)]]; injection H as <- <-; simpl; lia.
Qed.

Lemma data_ok_dialer n s v : data_ok v -> data_ok (set_dialer n s v).
Proof. intros Hd. by apply (data_ok_eq v). Qed.

Lemma place_ok_dialer n s v p : place_ok v p -> place_ok (set_dialer n s v) p.
Proof. by destruct p. Qed.

(** A resolver closes a channel that does not announce the end of a run. *)
Lemma place_ok_close_taken v c p :
  AsyncResolve v = true -> closeChan v <> Some c -> place_ok v p -> place_ok (close_chan (Some c) v) p.
Proof.
  intros Ha Hc Hp. simpl. case_decide; [by destruct p|].
  apply (place_ok_frame v); try done; [|congruence].
  intros (n & En & Hn). exists n. split; [done|]. simpl. apply not_elem_of_union. split; [|done].
  intros ->%elem_of_singleton. done.
Qed.

Lemma data_ok_close_resolve v : data_ok v -> data_ok (close_chan (resolveChan v) v).
Proof. intros Hd. apply close_chan_ok; [done|]. intros n En. eapply data_chans; eauto. Qed.

Lemma goroutines_close_chan c v : goroutines (close_chan c v) = goroutines v.
Proof. destruct c; simpl; [by case_decide|done]. Qed.
Lemma AsyncResolve_close_chan c v : AsyncResolve (close_chan c v) = AsyncResolve v.
Proof. destruct c; simpl; [by case_decide|done]. Qed.
Lemma v2rayOP_close_chan c v : v2rayOP (close_chan c v) = v2rayOP v.
Proof. destruct c; simpl; [by case_decide|done]. Qed.

(** Use a way to move, with the goroutines, the mutex and [AsyncResolve] as [w] shows. *)
Ltac use_move lem v w :=
  apply (lem v w _ _ _ ltac:(eassumption) ltac:(eassumption));
  try first [reflexivity | apply goroutines_close_chan | apply AsyncResolve_close_chan | apply v2rayOP_close_chan].

Lemma run_RunLoop_good v v' t t' ok p :
  good v -> goroutines v !! t = Some p ->
  match p with
  | RunLock | RunCheck | RunMakeClose | RunMakeResolve | RunWatch | RunResolve | RunPrepare _ _ _
  | RunResolved => True
  | _ => False
  end -> run t t' ok p v = Some v' -> good v'.
Proof.
  intros Hg Ht Hp Hr. pose proof (good_data v Hg) as Hd. pose proof (good_place v Hg t p Ht) as Hpl.
  destruct p; try done; open_run Hr; simpl in Hpl.
  - destruct (v2rayOP v) eqn:Em; [done|]. injection Hr as <-.
    use_move good_lock v (set_mutex (Some t) v); [..|done].
    + exact (good_idle v Hg Em).
    + by apply (data_ok_eq v).
  - injection Hr as <-. destruct (IsRunning v) eqn:Er; use_move good_inside v v; try done.
    split; [done|]. destruct Hpl as [_ [H _]]. intros Hs. specialize (H Hs). congruence.
  - injection Hr as <-. use_move good_inside v (make_closeChan v); [|by apply make_closeChan_ok].
    split; [exact Hpl|]. exists (made_chans v). split; [done|]. simpl. intros Hin.
    pose proof (data_chans v Hd _ (or_intror (or_intror Hin))). lia.
  - injection Hr as <-. use_move good_inside v (PrepareResolveChan v); [|by apply PrepareResolveChan_ok].
    destruct Hpl as [Hdn Ho]. split_and!; [exact Hdn|exact Ho|by eexists|]. intros _. exists (made_chans v).
    split; [done|]. simpl. intros Hin. pose proof (data_chans v Hd _ (or_intror (or_intror Hin))). lia.
  - destruct (goroutines v !! t') eqn:Et'; [done|]. case_decide; [done|]. injection Hr as <-.
    by eapply good_spawn.
  - destruct Hpl as (Hdn & Ho & _ & Hrc). destruct (AsyncResolve v) eqn:Ea.
    + destruct (goroutines v !! t') eqn:Et'; [done|]. case_decide; [done|]. injection Hr as <-.
      eapply good_spawn; try done; rewrite ?Ea; try done.
    + injection Hr as <-. use_move good_inside v v; [|done]. simpl. split_and!; auto.
  - destruct (prepare_step _ _ _ _ _) as [[w q']|] eqn:Ew; simpl in Hr; [|done]. injection Hr as <-.
    pose proof Ew as (n & s & ->)%prepare_step_dialer.
    pose proof (data_ok_dialer n s v Hd) as Hd'.
    pose proof (place_ok_dialer n s v _ (good_place v Hg t _ Ht)) as Hpl'.
    destruct q' as [q'|]; use_move good_inside v (set_dialer n s v); try done.
    all: simpl in *; destruct_and!; split_and!; try done. by apply prepare_step_tries in Ew.
  - injection Hr as <-. destruct Hpl as (Hdn & Ho & Ha & Hrc).
    use_move good_inside v (close_chan (resolveChan v) v); [|by apply data_ok_close_resolve].
    destruct (close_chan_open _ _ Hrc) as (n & En & ->). split; [exact Hdn|].
    destruct Ho as (m & Em & Hm). exists m. split; [done|]. simpl. apply not_elem_of_union. split; [|done].
    intros ->%elem_of_singleton. by eapply data_distinct.
Qed.

Lemma status_on_notify n v : is_status n = true -> status_on (notify n v) <-> n = Running.
Proof. unfold status_on, statuses. destruct n; simpl; naive_solver. Qed.

Lemma down_settled v : down v -> settled v.
Proof. intros [Hi Hs]. split; [congruence|]. split; [done|congruence]. Qed.

Lemma run_pointloop_good v v' t t' ok p :
  good v -> goroutines v !! t = Some p ->
  match p with
  | RunConfig | RunNew | RunStats | RunMark | RunStart | RunEmit | RunUnlock _ | RunReturned _ => True
  | _ => False
  end -> run t t' ok p v = Some v' -> good v'.
Proof.
  intros Hg Ht Hp Hr. pose proof (good_data v Hg) as Hd. pose proof (good_place v Hg t p Ht) as Hpl.
  destruct p; try done; open_run Hr; simpl in Hpl.
  - injection Hr as <-. destruct Hpl as [Hdn Ho].
    destruct ok; use_move good_inside v v; try done. by apply down_settled.
  - destruct Hpl as [Hdn Ho]. destruct ok; injection Hr as <-.
    + use_move good_inside v (new_core v); [|by apply new_core_ok]. split_and!; [exact Hdn|exact Ho|].
      exists (made_cores v). split; [done|]. simpl. set_solver.
    + use_move good_inside v (set_core None v); [|by apply (data_ok_eq v)].
      by apply (down_settled (set_core None v)).
  - injection Hr as <-. destruct Hpl as ([Hi Hs] & Ho & c & Ec & Hc).
    use_move good_inside v (set_stats (Vpoint v) v); [|by apply (data_ok_eq v)].
    split; [done|]. split; [|exact Hs]. split; [exact Ho|]. by exists c.
  - injection Hr as <-. destruct Hpl as (Hi & Hup & Hs).
    use_move good_inside v (set_running true v); [|by apply (data_ok_eq v)]. done.
  - destruct Hpl as (Hi & Hup & Hs). destruct ok; injection Hr as <-.
    + use_move good_inside v v; done.
    + use_move good_inside v (set_running false v); [|by apply (data_ok_eq v)].
      by apply (down_settled (set_running false v)).
  - injection Hr as <-. destruct Hpl as (Hi & Hup & Hs).
    use_move good_inside v (notify Running v); [|by apply notify_ok].
    split; [done|]. rewrite status_on_notify by done. done.
  - injection Hr as <-. use_move good_unlock v (set_mutex None v); try done. by apply (data_ok_eq v).
Qed.

Lemma run_StopLoop_good v v' t t' ok p :
  good v -> goroutines v !! t = Some p ->
  match p with
  | StopLock _ | StopCheck _ | StopClose _ | StopMark _ | StopCore _ | StopForget _ | StopStats _ | StopEmit _
  | StopUnlock _ | StopReturned => True
  | _ => False
  end -> run t t' ok p v = Some v' -> good v'.
Proof.
  intros Hg Ht Hp Hr. pose proof (good_data v Hg) as Hd. pose proof (good_place v Hg t p Ht) as Hpl.
  destruct p; try done; open_run Hr; simpl in Hpl.
  - destruct (v2rayOP v) eqn:Em; [done|]. injection Hr as <-.
    use_move good_lock v (set_mutex (Some t) v); [..|done].
    + exact (good_idle v Hg Em).
    + by apply (data_ok_eq v).
  - injection Hr as <-. destruct (IsRunning v) eqn:Ei; use_move good_inside v v; try done.
    destruct Hpl as [H1 H2]. split_and!; [done|by apply H1|by apply H2].
  - injection Hr as <-. destruct Hpl as (Hi & [Ho (c & Ec & Es & Hc)] & Hs).
    destruct (close_chan_open _ _ Ho) as (n & En & ->).
    use_move good_inside v (add_closed n v).
    + split; [by exists c|exact Hs].
    + apply add_closed_ok; [done|]. eapply data_chans; eauto.
  - injection Hr as <-. use_move good_inside v (set_running false v); [|by apply (data_ok_eq v)]. done.
  - destruct Hpl as (Hi & (c & Ec & Hc) & Hs). rewrite Ec in Hr. injection Hr as <-.
    use_move good_inside v (close_core c v); [done|]. apply (data_ok_eq v); try done. simpl. set_solver.
  - injection Hr as <-. use_move good_inside v (set_core None v); [done|]. by apply (data_ok_eq v).
  - injection Hr as <-. use_move good_inside v (set_stats None v); [done|]. by apply (data_ok_eq v).
  - injection Hr as <-. destruct Hpl as (Hi & Hs).
    use_move good_inside v (notify Closed v); [|by apply notify_ok].
    apply (down_settled (notify Closed v)). split; [exact Hi|]. rewrite status_on_notify; done.
  - injection Hr as <-.
    destruct watcher; use_move good_unlock v (set_mutex None v); try done; by apply (data_ok_eq v).
Qed.

Lemma run_goroutine_good v v' t t' ok p :
  good v -> resolvers_ok v -> goroutines v !! t = Some p ->
  match p with
  | WatchStart | WatchClose _ | Watching _ _ | WatchReady | WatchShutdown | WatchGone
  | ResolveStart | ResolveName _ | Resolving _ _ _ | ResolveDone | ResolveClose _ | ResolveGone => True
  | _ => False
  end -> run t t' ok p v = Some v' -> good v'.
Proof.
  intros Hg Hro Ht Hp Hr. pose proof (good_data v Hg) as Hd.
  assert (forall q, place_ok v q -> place_ok (notify Shutdown v) q) as Hsd by (intros q; by destruct q).
  destruct p; try done; open_run Hr.
  - injection Hr as <-. use_move good_outside v v; done.
  - injection Hr as <-. use_move good_outside v v; done.
  - destruct ok; [destruct (is_closed resolve_ch v)|destruct (is_closed close_ch v)]; try done;
      injection Hr as <-; use_move good_outside v v; done.
  - injection Hr as <-. destruct (vServer v); use_move good_outside v v; done.
  - injection Hr as <-. use_move good_outside v (notify Shutdown v); try done. by apply notify_ok.
  - injection Hr as <-. use_move good_outside v v; done.
  - injection Hr as <-. use_move good_outside v v; done.
  - destruct (prepare_step _ _ _ _ _) as [[w q']|] eqn:Ew; simpl in Hr; [|done]. injection Hr as <-.
    apply prepare_step_dialer in Ew as (n & s & ->).
    destruct q' as [q'|]; use_move good_outside v (set_dialer n s v); try done;
      (by apply data_ok_dialer) || (intros; by apply place_ok_dialer).
  - injection Hr as <-. use_move good_outside v v; done.
  - injection Hr as <-. destruct (resolvers_taken v Hro t _ Ht) as (c & -> & Hc & Hne).
    use_move good_outside v (close_chan (Some c) v); try done.
    + apply close_chan_ok; [done|]. by intros n [= <-].
    + intros q Hq. apply place_ok_close_taken; [|done|done].
      destruct (AsyncResolve v) eqn:E; [done|]. by pose proof (good_sync v Hg E t _ Ht).
Qed.

Lemma point_step_good a v v' : good v -> resolvers_ok v -> step a v = Some v' -> good v'.
Proof.
  unfold step. intros Hg Hro Hs. destruct (panicked v); [done|]. destruct a as [t|t|d|t t' ok].
  - destruct (goroutines v !! t) eqn:Et; [done|]. injection Hs as <-. by apply good_call.
  - destruct (goroutines v !! t) eqn:Et; [done|]. injection Hs as <-. by apply good_call.
  - injection Hs as <-. by apply good_set_domain.
  - destruct (goroutines v !! t) as [p|] eqn:Et; [|done]. simpl in Hs. destruct p;
      (by eapply run_RunLoop_good) || (by eapply run_pointloop_good) ||
      (by eapply run_StopLoop_good) || (by eapply run_goroutine_good).
Qed.

(** ** Lemmas: the resolvers *)

Lemma resolvers_fresh v t q :
  resolvers_ok v -> goroutines v !! t = None -> (resolver q = true -> is_Some (resolveChan v)) ->
  (forall o, q <> ResolveClose o) -> resolvers_ok (goto t q v).
Proof.
  intros [H1 H2 H3] Ht Hq Hc. split; simpl.
  - intros s p [[<- <-]|[_ Hs]]%lookup_insert_Some; [exact Hq|by apply (H1 s)].
  - intros s o [[<- E]|[_ Hs]]%lookup_insert_Some; [by destruct (Hc o)|by apply (H2 s)].
  - intros Ha c Hcl Hk. destruct (H3 Ha c Hcl) as [s Hs].
    + destruct Hk as [?|[s Hs]]; [by left|]. simpl in Hs.
      apply lookup_insert_Some in Hs as [[_ E]|[_ Hs]]; [by destruct (Hc (Some c))|right; by exists s].
    + exists s. simpl. rewrite lookup_insert_ne; [done|congruence].
Qed.

(** A step of [t] from [p] to [q]. *)
Lemma resolvers_goto v w t p q :
  good v -> resolvers_ok v -> goroutines v !! t = Some p -> goroutines w = goroutines v ->
  AsyncResolve w = AsyncResolve v -> (made_chans v <= made_chans w)%nat ->
  closeChan w = closeChan v \/ closeChan w = Some (made_chans v) ->
  resolveChan w = resolveChan v \/ resolveChan w = Some (made_chans v) ->
  (forall c, c ∈ closed w -> q = ResolveGone \/ c ∈ closed v \/ closeChan v = Some c \/ AsyncResolve v = false) ->
  resolver q = resolver p -> p <> ResolveGone ->
  (forall o, q = ResolveClose o -> o = resolveChan v /\ closeChan w = closeChan v) -> resolvers_ok (goto t q w).
Proof.
  intros Hg [H1 H2 H3] Ht Eg Ea Em Ec Er Ecl Hres Hp Hq. pose proof (good_data v Hg) as Hd.
  assert (forall s, goroutines v !! s = Some ResolveGone -> s <> t) as Hgone by (intros s Hs ->; congruence).
  split; simpl; rewrite ?Eg.
  - assert (is_Some (resolveChan v) -> is_Some (resolveChan w)) as Hsome
      by (destruct Er as [->| ->]; [done|by eexists]).
    intros s r [[<- <-]|[_ Hs]]%lookup_insert_Some Hr; apply Hsome; [|by eapply H1].
    eapply H1; [exact Ht|by rewrite <- Hres].
  - intros s o [[<- E]|[_ Hs]]%lookup_insert_Some.
    + destruct (Hq o E) as [-> Ecc]. destruct (H1 t p Ht) as [c Hc].
      { rewrite <- Hres, E. done. }
      exists c. split; [done|]. rewrite Ecc. pose proof (data_chans v Hd c ltac:(by right; left)). split; [lia|].
      intros Hx. by apply (data_distinct v Hd c Hx).
    + destruct (H2 s o Hs) as (c & -> & Hlt & Hne). exists c. split_and!; [done|lia|].
      destruct Ec as [->| ->]; [done|]. intros [= E]. lia.
  - rewrite Ea. intros Ha c Hc Hk. destruct (Ecl c Hc) as [->|Hc']; [exists t; simpl; by rewrite lookup_insert_eq|].
    assert (c < made_chans v)%nat as Hlt.
    { destruct Hc' as [?|[?|?]]; [|..|congruence]; apply (data_chans v Hd); auto. }
    assert (takable v c) as Hkv.
    { destruct Hk as [Hk|[s Hs]]; simpl in *; rewrite ?Eg in *.
      - destruct Er as [E|E]; rewrite E in Hk; [by left|]. injection Hk as Hk. lia.
      - apply lookup_insert_Some in Hs as [[<- E]|[_ Hs]]; [left|right; by exists s]. symmetry. by apply Hq. }
    destruct Hc' as [Hc'|[Hc'|?]]; [|exfalso|congruence].
    + destruct (H3 Ha c Hc' Hkv) as [s Hs]. exists s. simpl. rewrite Eg, lookup_insert_ne; [done|].
      intros <-. by apply (Hgone t).
    + destruct Hkv as [Hk'|[s Hs]]; [by apply (data_distinct v Hd c Hc')|].
      destruct (H2 s _ Hs) as (d & [= <-] & _ & Hne). done.
Qed.

Lemma close_chan_closed n c v : c ∈ closed (close_chan n v) -> c ∈ closed v \/ n = Some c.
Proof. destruct n as [n|]; simpl; [|by left]. case_decide; simpl; set_solver. Qed.

Lemma close_chan_fields c v :
  closeChan (close_chan c v) = closeChan v /\ resolveChan (close_chan c v) = resolveChan v /\
  made_chans (close_chan c v) = made_chans v.
Proof. destruct c; simpl; [by case_decide|done]. Qed.

(** A step of a goroutine that neither makes nor closes a channel. *)
Lemma resolvers_quiet v w t p q :
  good v -> resolvers_ok v -> goroutines v !! t = Some p -> goroutines w = goroutines v ->
  AsyncResolve w = AsyncResolve v -> made_chans w = made_chans v -> closeChan w = closeChan v ->
  resolveChan w = resolveChan v -> closed w = closed v -> resolver q = resolver p -> p <> ResolveGone ->
  (forall o, q <> ResolveClose o) -> resolvers_ok (goto t q w).
Proof.
  intros Hg Hro Ht Eg Ea Em Ec Er Ecl Hres Hp Hq.
  apply (resolvers_goto v w t p q); try done; rewrite ?Em, ?Ecl; auto. intros o E. by destruct (Hq o).
Qed.

Lemma run_resolvers t t' ok p v v' :
  good v -> resolvers_ok v -> goroutines v !! t = Some p -> run t t' ok p v = Some v' -> resolvers_ok v'.
Proof.
  intros Hg Hro Ht Hr. pose proof (good_data v Hg) as Hd. pose proof (good_place v Hg t p Ht) as Hpl.
  assert (forall w q, Some (goto t q w) = Some v' -> goroutines w = goroutines v -> AsyncResolve w = AsyncResolve v ->
    made_chans w = made_chans v -> closeChan w = closeChan v -> resolveChan w = resolveChan v ->
    closed w = closed v -> resolver q = resolver p -> p <> ResolveGone -> (forall o, q <> ResolveClose o) ->
    resolvers_ok v') as Hquiet by (intros w q [= <-] **; by eapply resolvers_quiet).
  assert (forall q r, goroutines v !! t' = None -> t' <> t -> Some (goto t r (goto t' q v)) = Some v' ->
    critical p = true -> critical r = true -> critical q = false -> place_ok v r ->
    (AsyncResolve v = false -> resolver q = false) -> (resolver q = true -> is_Some (resolveChan v)) ->
    (forall o, q <> ResolveClose o) -> resolver r = resolver p -> resolvers_ok v') as Hspawn.
  { intros q r Ht' Hne [= <-] Hp Hr' Hcq Hpr Ha Hs Hq Hres.
    apply (resolvers_quiet (goto t' q v) (goto t' q v) t p r); try done.
    - by apply good_call.
    - by apply resolvers_fresh.
    - simpl. by rewrite lookup_insert_ne.
    - by intros ->.
    - intros o ->. done. }
  destruct p; open_run Hr; simpl in Hpl; try done; try (by eapply Hquiet; [exact Hr|..]).
  all: try (destruct (v2rayOP v); [done|]; by eapply Hquiet; [exact Hr|..]).
  all: try (destruct (IsRunning v); by eapply Hquiet; [exact Hr|..]).
  all: try (destruct ok; by eapply Hquiet; [exact Hr|..]).
  all: try (destruct watcher; by eapply Hquiet; [exact Hr|..]).
  all: try (destruct (prepare_step _ _ _ _ _) as [[u q']|] eqn:Eu; simpl in Hr; [|done];
    apply prepare_step_dialer in Eu as (n & s & ->); destruct q'; by eapply Hquiet; [exact Hr|..]).
  - injection Hr as <-. eapply (resolvers_goto v); try done; auto. simpl. lia.
  - injection Hr as <-. eapply (resolvers_goto v); try done; auto. simpl. lia.
  - destruct (goroutines v !! t') eqn:Et'; [done|]. case_decide; [done|]. by eapply Hspawn; [| |exact Hr|..].
  - destruct Hpl as (? & ? & ? & ?). destruct (AsyncResolve v) eqn:Ea; [|by eapply Hquiet; [exact Hr|..]].
    destruct (goroutines v !! t') eqn:Et'; [done|]. case_decide; [done|].
    by eapply Hspawn; [| |exact Hr|..].
  - injection Hr as <-. destruct Hpl as (_ & _ & Ha & _). destruct (close_chan_fields (resolveChan v) v) as (E1 & E2 & E3).
    eapply (resolvers_goto v); try done; rewrite ?E1, ?E2, ?E3, ?goroutines_close_chan, ?AsyncResolve_close_chan; auto.
  - injection Hr as <-. destruct (close_chan_fields (closeChan v) v) as (E1 & E2 & E3).
    eapply (resolvers_goto v); try done; rewrite ?E1, ?E2, ?E3, ?goroutines_close_chan, ?AsyncResolve_close_chan; auto.
    intros c [?|?]%close_chan_closed; auto.
  - destruct (Vpoint v); [by eapply Hquiet; [exact Hr|..]|]. injection Hr as <-. by destruct Hro.
  - destruct ok; [destruct (is_closed resolve_ch v)|destruct (is_closed close_ch v)]; try done; by eapply Hquiet; [exact Hr|..].
  - destruct (vServer v); by eapply Hquiet; [exact Hr|..].
  - injection Hr as <-. eapply (resolvers_goto v); try done; auto. by intros o [= <-].
  - injection Hr as <-. destruct (close_chan_fields resolve_ch v) as (E1 & E2 & E3).
    eapply (resolvers_goto v); try done; rewrite ?E1, ?E2, ?E3, ?goroutines_close_chan, ?AsyncResolve_close_chan; auto.
Qed.

Lemma point_step_resolvers a v v' : good v -> resolvers_ok v -> step a v = Some v' -> resolvers_ok v'.
Proof.
  unfold step. intros Hg Hro Hs. destruct (panicked v); [done|]. destruct a as [t|t|d|t t' ok].
  - destruct (goroutines v !! t) eqn:Et; [done|]. injection Hs as <-. by apply resolvers_fresh.
  - destruct (goroutines v !! t) eqn:Et; [done|]. injection Hs as <-. by apply resolvers_fresh.
  - injection Hs as <-. by destruct Hro.
  - destruct (goroutines v !! t) as [p|] eqn:Et; [|done]. simpl in Hs. by eapply run_resolvers.
Qed.

Lemma good_start adns : good (NewV2RayPoint adns).
Proof.
  split; try done.
  - apply guarded_empty.
  - split; try done. simpl. intros c [?|[?|?]]; set_solver.
Qed.

Lemma point_reachable_ok adns v : reachable adns v -> good v /\ resolvers_ok v.
Proof.
  intros [l Hl]. eapply (schedule_invariant step (fun v => good v /\ resolvers_ok v)); [|exact Hl|].
  - intros a u w [Hg Hr] Hs. split; [by eapply point_step_good|by eapply point_step_resolvers].
  - split; [apply good_start|]. split; simpl; intros; by rewrite ?lookup_empty in *.
Qed.

Lemma point_reachable_good adns v : reachable adns v -> good v.
Proof. intros Hr. by apply (point_reachable_ok adns). Qed.

(** ** Lemmas: panics and progress *)

Lemma close_chan_panicked c v :
  panicked v = false -> chan_open c v -> panicked (close_chan c v) = false.
Proof. intros Hp Ho. destruct (close_chan_open c v Ho) as (n & _ & ->). exact Hp. Qed.

Lemma run_panicked t t' ok p v v' :
  good v -> resolvers_ok v -> goroutines v !! t = Some p -> panicked v = false -> run t t' ok p v = Some v' ->
  panicked v' = true -> exists c, p = ResolveClose (Some c) /\ c ∈ closed v.
Proof.
  intros Hg Hro Ht Hn Hr Hp. pose proof (good_place v Hg t p Ht) as Hpl.
  assert (forall w q, panicked w = false -> Some (goto t q w) = Some v' -> False) as Hno.
  { intros w q Hw [= <-]. simpl in Hp. congruence. }
  destruct p; open_run Hr; simpl in Hpl; try done; try (by exfalso; eapply Hno; [|exact Hr]).
  - by destruct (v2rayOP v); [|exfalso; eapply Hno; [|exact Hr]].
  - destruct (goroutines v !! t'); [done|]. case_decide; [done|]. by exfalso; eapply Hno; [|exact Hr].
  - destruct (AsyncResolve v); [|by exfalso; eapply Hno; [|exact Hr]].
    destruct (goroutines v !! t'); [done|]. case_decide; [done|]. by exfalso; eapply Hno; [|exact Hr].
  - destruct (prepare_step _ _ _ _ _) as [[w q']|] eqn:Ew; simpl in Hr; [|done].
    apply prepare_step_dialer in Ew as (n & s & ->). by exfalso; eapply Hno; [|exact Hr].
  - exfalso. eapply Hno; [|exact Hr]. apply close_chan_panicked; [done|]. by destruct_and!.
  - destruct ok; by exfalso; eapply Hno; [|exact Hr].
  - destruct ok; by exfalso; eapply Hno; [|exact Hr].
  - by destruct (v2rayOP v); [|exfalso; eapply Hno; [|exact Hr]].
  - exfalso. eapply Hno; [|exact Hr]. apply close_chan_panicked; [done|]. by destruct Hpl as (_ & [? _] & _).
  - destruct Hpl as (_ & (c & Ec & _) & _). rewrite Ec in Hr. by exfalso; eapply Hno; [|exact Hr].
  - destruct ok; [destruct (is_closed resolve_ch v)|destruct (is_closed close_ch v)]; try done;
      by exfalso; eapply Hno; [|exact Hr].
  - destruct (prepare_step _ _ _ _ _) as [[w q']|] eqn:Ew; simpl in Hr; [|done].
    apply prepare_step_dialer in Ew as (n & s & ->). by exfalso; eapply Hno; [|exact Hr].
  - destruct (resolvers_taken v Hro t _ Ht) as (c & -> & _). exists c. split; [done|].
    destruct (decide (c ∈ closed v)); [done|]. exfalso. eapply Hno; [|exact Hr].
    apply close_chan_panicked; [done|]. by exists c.
Qed.

Lemma lookup_goto t p v : goroutines (goto t p v) !! t = Some p.
Proof. simpl. by rewrite lookup_insert_eq. Qed.

(** A holder that moves keeps the mutex and has fewer steps left, or unlocks. *)
Lemma run_rank t t' ok p v w :
  critical p = true -> run t t' ok p v = Some w ->
  v2rayOP w = None \/ panicked w = true \/
  exists p', goroutines w !! t = Some p' /\ critical p' = true /\ rank p' < rank p.
Proof.
  intros Hc Hr.
  assert (forall q u, Some (goto t q u) = Some w -> critical q = true -> (rank q < rank p)%nat ->
    exists p', goroutines w !! t = Some p' /\ critical p' = true /\ (rank p' < rank p)%nat) as Hgo.
  { intros q u [= <-] Hq Hl. exists q. split; [apply lookup_goto|done]. }
  destruct p; try done; open_run Hr;
    try (destruct (goroutines v !! t'); [done|]; case_decide; [done|]).
  all: try (right; right; eapply Hgo; [exact Hr|done|simpl; lia]).
  all: try (left; by injection Hr as <-).
  all: try (right; right; destruct (IsRunning v); (eapply Hgo; [exact Hr|done|simpl; lia])).
  all: try (right; right; destruct ok; (eapply Hgo; [exact Hr|done|simpl; lia])).
  - right; right. destruct (AsyncResolve v); [destruct (goroutines v !! t'); [done|]; case_decide; [done|]|];
      (eapply Hgo; [exact Hr|done|simpl; lia]).
  - right; right. destruct (prepare_step _ _ _ _ _) as [[u q']|] eqn:Eu; simpl in Hr; [|done].
    eapply Hgo; [exact Hr|by destruct q'|].
    destruct p as [|[|k]|k]; simpl in Eu; [..|destruct ok; [|destruct (is_closed close_ch v)]];
      try destruct ok; simplify_eq; simpl; unfold maxRetry; lia.
  - destruct (Vpoint v); [right; right; eapply Hgo; [exact Hr|done|simpl; lia]|]. injection Hr as <-. auto.
Qed.

(** A step moves its goroutine and may start another one. *)
Lemma run_shape t t' ok p v w :
  run t t' ok p v = Some w ->
  goroutines w = goroutines v \/
  exists q g, goroutines w = <[t := q]> g /\
    (g = goroutines v \/ exists r, goroutines v !! t' = None /\ g = <[t' := r]> (goroutines v)).
Proof.
  intros Hr.
  assert (forall q u, goroutines u = goroutines v -> Some (goto t q u) = Some w ->
    exists q g, goroutines w = <[t := q]> g /\
    (g = goroutines v \/ exists r, goroutines v !! t' = None /\ g = <[t' := r]> (goroutines v))) as Hgo.
  { intros q u Eu [= <-]. simpl. rewrite Eu. eauto 10. }
  destruct p; open_run Hr; try done; try (right; by eapply Hgo; [|exact Hr]).
  all: try (destruct (prepare_step _ _ _ _ _) as [[u q']|] eqn:Eu; simpl in Hr; [|done];
    apply prepare_step_dialer in Eu as (n & s & ->); right; by eapply Hgo; [|exact Hr]).
  all: try (right; eapply Hgo; [|exact Hr]; apply goroutines_close_chan).
  all: repeat match type of Hr with
      | context [match ?x with _ => _ end] => destruct x eqn:?
      end; try done; try (right; by eapply Hgo; [|exact Hr]).
  all: injection Hr as <-; simpl; eauto 10.
Qed.

(** The steps of others leave a goroutine where it is. *)
Lemma step_other a t p v w :
  step a v = Some w -> step_of t a = false -> goroutines v !! t = Some p -> goroutines w !! t = Some p.
Proof.
  unfold step. intros Hs Ha Ht. destruct (panicked v); [done|]. destruct a as [s|s|d|s s' ok]; simpl in Ha.
  - destruct (goroutines v !! s) eqn:Es; [done|]. injection Hs as <-. simpl.
    rewrite lookup_insert_ne; [done|congruence].
  - destruct (goroutines v !! s) eqn:Es; [done|]. injection Hs as <-. simpl.
    rewrite lookup_insert_ne; [done|congruence].
  - by injection Hs as <-.
  - apply bool_decide_eq_false in Ha. destruct (goroutines v !! s) as [q|] eqn:Es; simpl in Hs; [|done].
    apply run_shape in Hs as [->|(q' & g & -> & Hg)]; [done|]. rewrite lookup_insert_ne by done.
    destruct Hg as [->|(r & Hn & ->)]; [done|]. rewrite lookup_insert_ne; [done|congruence].
Qed.

(** Whoever holds the mutex unlocks it within [rank] of its own steps, whatever the
    others do in between. *)
Lemma holder_unlocks t l : forall v w p,
  good v -> resolvers_ok v -> panicked w = false -> goroutines v !! t = Some p -> critical p = true ->
  steps l v = Some w -> rank p <= moves t l ->
  exists l1 l2 u, l = l1 ++ l2 /\ steps l1 v = Some u /\ v2rayOP u = None.
Proof.
  induction l as [|a l IH]; intros v w p Hg Hro Hnp Ht Hc Hs Hrk; simpl in Hs.
  - unfold moves in Hrk. simpl in Hrk. destruct p; try done; simpl in Hrk; try lia; destruct p; lia.
  - destruct (step a v) as [u|] eqn:Eu; [|done]. simpl in Hs.
    assert (good u) as Hgu by (by eapply point_step_good).
    assert (resolvers_ok u) as Hru by (by apply (point_step_resolvers a v)).
    assert (forall q, goroutines u !! t = Some q -> critical q = true -> rank q <= moves t l ->
      exists l1 l2 x, a :: l = l1 ++ l2 /\ steps l1 v = Some x /\ v2rayOP x = None) as Hrec.
    { intros q Hq Hcq Hr. destruct (IH u w q Hgu Hru Hnp Hq Hcq Hs Hr) as (l1 & l2 & x & -> & Hx & Hn).
      exists (a :: l1), l2, x. simpl. by rewrite Eu. }
    unfold moves in Hrk. simpl in Hrk. destruct (step_of t a) eqn:Ea.
    + destruct a as [| | |s s' ok]; try done. simpl in Ea. apply bool_decide_eq_true in Ea as ->.
      pose proof Eu as Er. unfold step in Er. destruct (panicked v) eqn:Epv; [done|]. rewrite Ht in Er. simpl in Er.
      destruct (run_rank t s' ok p v u Hc Er) as [Hn|[Hp|(q & Hq & Hcq & Hr)]].
      * exists [Step t s' ok], l, u. simpl. rewrite Eu. done.
      * by destruct (run_panicked t s' ok p v u Hg Hro Ht Epv Er Hp) as (c & -> & _).
      * apply (Hrec q); try done. unfold moves. simpl in *. lia.
    + apply (Hrec p); try done. by eapply step_other.
Qed.

Lemma fresh_goroutine t v : exists t', goroutines v !! t' = None /\ t' <> t.
Proof.
  exists (fresh ({[t]} ∪ dom (goroutines v))).
  pose proof (is_fresh ({[t]} ∪ dom (goroutines v))) as Hf.
  apply not_elem_of_union in Hf as [H1 H2]. split; [by apply not_elem_of_dom|]. intros E. apply H1. set_solver.
Qed.

(** The holder of the mutex never waits. *)
Lemma holder_moves t p v :
  good v -> panicked v = false -> goroutines v !! t = Some p -> critical p = true ->
  exists t' w, step (Step t t' true) v = Some w.
Proof.
  intros Hg Hn Ht Hc. destruct (fresh_goroutine t v) as (t' & Ht' & Hne). exists t'.
  unfold step. rewrite Hn, Ht. simpl.
  pose proof (good_place v Hg t p Ht) as Hpl.
  destruct p; try done; simpl; unfold spawn; rewrite ?Ht', ?decide_False by done; eauto.
  - destruct (AsyncResolve v); eauto.
  - destruct p as [|[|k]|k]; simpl; eauto.
  - destruct (Vpoint v); eauto.
Qed.

Lemma run_AsyncResolve t t' ok p v w : run t t' ok p v = Some w -> AsyncResolve w = AsyncResolve v.
Proof.
  intros Hr. destruct p; open_run Hr; try done;
    try (by injection Hr as <-; simpl; rewrite ?AsyncResolve_close_chan).
  all: try (destruct (prepare_step _ _ _ _ _) as [[u q']|] eqn:Eu; simpl in Hr; [|done];
    apply prepare_step_dialer in Eu as (n & s & ->); by injection Hr as <-).
  all: repeat match type of Hr with
      | context [match ?x with _ => _ end] => destruct x eqn:?
      end; try done; by injection Hr as <-.
Qed.

Lemma reachable_AsyncResolve adns v : reachable adns v -> AsyncResolve v = adns.
Proof.
  intros [l Hl]. eapply (schedule_invariant step (fun v => AsyncResolve v = adns)); [|exact Hl|done].
  intros a u w He Ew. rewrite <- He.
  unfold step in Ew. destruct (panicked u); [done|]. destruct a as [t|t|d|t t' ok].
  - destruct (goroutines u !! t); [done|]. by injection Ew as <-.
  - destruct (goroutines u !! t); [done|]. by injection Ew as <-.
  - by injection Ew as <-.
  - destruct (goroutines u !! t) as [q|]; [|done]. by eapply run_AsyncResolve.
Qed.

Lemma steps_run t t' ok p v w l :
  panicked v = false -> goroutines v !! t = Some p -> run t t' ok p v = Some w ->
  steps (Step t t' ok :: l) v = steps l w.
Proof. intros Hn Ht Hr. cbn [schedule]. unfold step. rewrite Hn, Ht. simpl. by rewrite Hr. Qed.

Lemma steps_call_stop t v l :
  panicked v = false -> goroutines v !! t = None ->
  steps (CallStopLoop t :: l) v = steps l (goto t (StopLock false) v).
Proof. intros Hn Ht. cbn [schedule]. unfold step. by rewrite Hn, Ht. Qed.

Lemma steps_call_run t v l :
  panicked v = false -> goroutines v !! t = None ->
  steps (CallRunLoop t :: l) v = steps l (goto t RunLock v).
Proof. intros Hn Ht. cbn [schedule]. unfold step. by rewrite Hn, Ht. Qed.

(** Evaluate the next step of a call that runs alone. *)
Ltac shape :=
  cbv beta iota delta [goto upd_go set_mutex make_closeChan PrepareResolveChan set_core new_core close_core set_stats
    set_running set_domain set_dialer notify add_closed
    closeChan resolveChan Vpoint statsManager IsRunning DomainName AsyncResolve currentServer vServer
    v2rayOP closed live made_chans made_cores goroutines notices panicked];
  rewrite ?insert_insert_eq.
Ltac next :=
  erewrite steps_run; [|reflexivity|apply lookup_insert_eq|
    cbn -[difference union singleton lookup insert]; unfold lock, spawn; cbn -[difference union singleton lookup insert];
    rewrite ?lookup_insert_ne, ?lookup_insert_eq by done;
    simplify_option_eq; reflexivity]; shape.

Lemma insert_between (g : gmap nat place) s t p q r :
  s <> t -> <[t := p]> (<[s := q]> (<[t := r]> g)) = <[t := p]> (<[s := q]> g).
Proof. intros Hne. by rewrite (insert_insert_ne g s t) by done; rewrite insert_insert_eq. Qed.

(** [k] failed lookups and the pauses after them. *)
Lemma steps_lookups t name c l k : forall v n,
  panicked v = false -> goroutines v !! t = Some (RunPrepare name (PrepLookup n) c) -> (k <= n)%nat ->
  steps (List.map (Step t (S t)) (concat (repeat [false; true] k)) ++ l) v =
  steps l (goto t (RunPrepare name (PrepLookup (n - k)) c) v).
Proof.
  induction k as [|k IH]; intros v n Hp Ht Hk.
  - rewrite Nat.sub_0_r. simpl. f_equal. destruct v; unfold goto, upd_go; simpl in *. by rewrite insert_id.
  - destruct n as [|n]; [lia|]. cbn [repeat concat app List.map].
    rewrite (steps_run t (S t) false _ v (goto t (RunPrepare name (PrepPause n) c) v) _ Hp Ht eq_refl).
    erewrite steps_run; [|exact Hp|apply lookup_goto|reflexivity].
    rewrite (IH _ n) by (apply lookup_goto || done || lia). f_equal. destruct v; unfold goto, upd_go; simpl.
    by rewrite !insert_insert_eq.
Qed.

(** The steps of [pointloop] and the unlocking, on each branch. *)
Ltac point_ends conf new start failed Hn1 Hn2 :=
  unfold pointloop_alone; destruct conf; cbn [app List.map]; next;
    [destruct new; cbn [app List.map]; next;
     [do 2 next; destruct start; cbn [app List.map]; next; [next|]|]|];
    next; eexists; (split; [reflexivity|]); subst failed; simpl andb; simpl negb; cbv iota;
    split_and!; try reflexivity; try assumption;
    simpl; intros [E%elem_of_singleton|?]%elem_of_union; (lia || done).

(** A state that a script reaches and a test accepts. *)
Lemma reachable_by adns l (test : V2RayPoint -> bool) :
  match steps l (NewV2RayPoint adns) with Some v => test v | None => false end = true ->
  exists v, reachable adns v /\ test v = true.
Proof. destruct (steps l _) as [v|] eqn:E; [|done]. intros H. exists v. split; [by exists l|done]. Qed.

#[global] Instance notice_eq_dec : EqDecision notice.
Proof. solve_decision. Defined.

Lemma holder v t : good v -> v2rayOP v = Some t -> exists p, goroutines v !! t = Some p /\ critical p = true.
Proof. intros Hg. apply (good_mutex v Hg). Qed.

(** ** Properties *)

(** C6: Whatever calls of [RunLoop] and [StopLoop] and whatever changes of
    [DomainName] interleave with the watchers and resolvers: two goroutines are
    never between Lock and Unlock together, and when none is, [IsRunning] means
    that a core is in use that nobody closed, that [statsManager] is that core's,
    and that the channel that announces its end is open. *)
Theorem point_safety adns v :
  reachable adns v ->
  (forall s t p q, goroutines v !! s = Some p -> goroutines v !! t = Some q ->
     critical p = true -> critical q = true -> s = t) /\
  (v2rayOP v = None -> IsRunning v = true ->
   exists n c, closeChan v = Some n /\ n ∉ closed v /\ Vpoint v = Some c /\ statsManager v = Some c /\ c ∈ live v).
Proof.
  intros Hr. pose proof (point_reachable_good _ _ Hr) as Hg. split.
  - intros s t p q Hs Ht Hp Hq.
    by eapply guarded_exclusive; [apply (good_mutex v Hg)|..].
  - intros Hm Hi. destruct (good_idle v Hg Hm) as [Hup _].
    destruct (Hup Hi) as [(n & Hn & Hc) (c & H1 & H2 & H3)]. by exists n, c.
Qed.

(** The statuses reported alternate, "Running" first, and when nobody holds the
    mutex the last one says whether [IsRunning]. *)
Theorem point_statuses adns v :
  reachable adns v ->
  alternating (statuses v) /\ (v2rayOP v = None -> IsRunning v = true <-> head (statuses v) = Some Running).
Proof.
  intros Hr. pose proof (point_reachable_good _ _ Hr) as Hg. split; [exact (data_order v (good_data v Hg))|].
  intros Hm. destruct (good_idle v Hg Hm) as [_ H]. symmetry. exact H.
Qed.

(** C22: No close of [closeChan] and of a core panics, and no channel is nil when it
    is closed. The only step that can panic is a resolver's closing of the channel it
    took from [resolveChan], which with [AsyncResolve] off does not exist; and then
    another resolver has come to its end and that channel is closed. *)
Theorem point_panics adns a v w :
  reachable adns v -> step a v = Some w -> panicked w = true ->
  adns = true /\ exists t t' ok c s, a = Step t t' ok /\
    goroutines v !! t = Some (ResolveClose (Some c)) /\ c ∈ closed v /\ goroutines v !! s = Some ResolveGone.
Proof.
  intros Hr Hs Hp. destruct (point_reachable_ok _ _ Hr) as [Hg Hro].
  assert (panicked v = false) as Hn by (unfold step in Hs; by destruct (panicked v)).
  destruct a as [t|t|d|t t' ok]; unfold step in Hs; rewrite Hn in Hs.
  1, 2: destruct (goroutines v !! t); [done|]; injection Hs as <-; simpl in Hp; congruence.
  { injection Hs as <-. simpl in Hp. congruence. }
  destruct (goroutines v !! t) as [p|] eqn:Et; simpl in Hs; [|done].
  destruct (run_panicked t t' ok p v w Hg Hro Et Hn Hs Hp) as (c & -> & Hc).
  assert (AsyncResolve v = true) as Ha.
  { destruct (AsyncResolve v) eqn:Ea; [done|]. by pose proof (good_sync v Hg Ea t _ Et). }
  destruct (resolvers_closed v Hro Ha c Hc) as [s Hgone]; [right; by exists t|].
  rewrite <- (reachable_AsyncResolve _ _ Hr). split; [done|]. by exists t, t', ok, c, s.
Qed.

(** C23: Whoever holds the mutex never waits for another goroutine and unlocks
    within 35 steps of its own, whatever the environment decides and the others do
    in between: the ten lookups and their pauses are the longest it can be held. *)
Theorem point_unlocks adns v t :
  reachable adns v -> panicked v = false -> v2rayOP v = Some t ->
  (exists t' w, step (Step t t' true) v = Some w) /\
  forall l w, steps l v = Some w -> panicked w = false -> (35 <= moves t l)%nat ->
    exists l1 l2 u, l = l1 ++ l2 /\ steps l1 v = Some u /\ v2rayOP u = None.
Proof.
  intros Hr Hn Hm. destruct (point_reachable_ok _ _ Hr) as [Hg Hro].
  destruct (holder v t Hg Hm) as (p & Ht & Hc). split; [by eapply holder_moves|].
  intros l w Hs Hw Hl. apply (holder_unlocks t l v w p); try done.
  etrans; [|exact Hl]. pose proof (good_place v Hg t p Ht) as Hpl.
  destruct p; simpl in *; try lia. destruct Hpl as (_ & _ & _ & _ & _ & Hq).
  match goal with q : preparing |- _ => destruct q end; unfold tries_ok, maxRetry in Hq; lia.
Qed.

(** With [AsyncResolve] off the channel that [RunLoop] hands to [PrepareDomain]
    is never closed while it resolves, since only [StopLoop] closes it and needs the
    mutex: a pause between two lookups ends by its timer alone. *)
Theorem sync_resolve_uncancelled v t name q c :
  reachable false v -> goroutines v !! t = Some (RunPrepare name q c) ->
  (exists n, c = Some n /\ closeChan v = Some n /\ n ∉ closed v) /\
  forall t' k, q = PrepPause k -> run t t' false (RunPrepare name q c) v = None.
Proof.
  intros Hr Ht. pose proof (point_reachable_good _ _ Hr) as Hg.
  destruct (good_place v Hg t _ Ht) as (_ & (n & Hn & Hc) & _ & _ & -> & _). rewrite Hn. split; [by exists n|].
  intros t' k ->. simpl. by rewrite bool_decide_eq_false_2.
Qed.

(** [StopLoop] while a core is up, run alone: it closes the channel that ends
    the run, closes the core and forgets it and its statistics, reports "Closed"
    and releases the mutex. *)
Theorem StopLoop_alone adns v t :
  reachable adns v -> panicked v = false -> v2rayOP v = None -> goroutines v !! t = None ->
  IsRunning v = true ->
  exists c n v', steps (stop_alone t) v = Some v' /\ Vpoint v = Some c /\ closeChan v = Some n /\
    goroutines v' = <[t := StopReturned]> (goroutines v) /\ v2rayOP v' = None /\ IsRunning v' = false /\
    Vpoint v' = None /\ statsManager v' = None /\ live v' = live v ∖ {[c]} /\
    closed v' = {[n]} ∪ closed v /\ notices v' = Closed :: notices v /\ panicked v' = false.
Proof.
  intros Hr Hp Hm Ht Hi. destruct (good_idle v (point_reachable_good _ _ Hr) Hm) as [Hup _].
  destruct (Hup Hi) as [(n & Hn & Hcl) (c & Hc & _)]. exists c, n. clear Hr Hup.
  destruct v; simpl in Hp, Hm, Ht, Hi, Hc, Hn, Hcl; subst.
  unfold stop_alone, alone. cbn [List.map repeat]. rewrite steps_call_stop by done. shape.
  do 9 next. eexists. split; [reflexivity|]. split_and!; reflexivity.
Qed.


(** With [AsyncResolve], [RunLoop], [StopLoop], [RunLoop] can end the program:
    the resolver of the first run closes the channel that the second run made, and
    then the second run's resolver closes it again. *)
Theorem async_double_close :
  exists v, reachable true v /\ panicked v = true /\ statuses v = [Running; Closed; Running].
Proof.
  destruct (reachable_by true (racing_script ++ go 6 0 1)
    (fun v => panicked v && bool_decide (statuses v = [Running; Closed; Running])))
    as (v & Hr & [Hp Hs%bool_decide_eq_true]%andb_prop); [vm_compute; reflexivity|].
  by exists v.
Qed.

(** The channel that is closed again need not be the one in use: with a third run in
    between, the second run's resolver panics while [resolveChan] is open. *)
Theorem async_late_close :
  exists v w, reachable true v /\ chan_open (resolveChan v) v /\ step (Step 6 0 true) v = Some w /\ panicked w = true.
Proof.
  destruct (reachable_by true (racing_script ++ stop_alone 7 ++ CallRunLoop 8 :: go 8 9 5)
    (fun v => negb (panicked v) && negb (is_closed (resolveChan v) v) && bool_decide (is_Some (resolveChan v)) &&
      match step (Step 6 0 true) v with Some w => panicked w | None => false end))
    as (v & Hr & [[[_ Ho%negb_true_iff]%andb_prop [c Hc]%bool_decide_eq_true]%andb_prop Hw]%andb_prop);
    [vm_compute; reflexivity|].
  destruct (step _ v) as [w|] eqn:E; [|done]. exists v, w. split_and!; try done.
  exists c. split; [done|]. rewrite Hc in Ho. by apply bool_decide_eq_false in Ho.
Qed.

(** A run whose name does not resolve goes on with the addresses of the name
    before: the watcher asks whether there are addresses, not whose they are, and
    does not stop the core. *)
Theorem stale_server :
  exists v, reachable false v /\ v2rayOP v = None /\ IsRunning v = true /\ panicked v = false /\
    currentServer v = DomainName v /\ DomainName v = ["b"%byte] /\ vServer v = Some ["a"%byte] /\
    (forall t p, goroutines v !! t = Some p -> p = RunReturned false \/ p = StopReturned \/ p = WatchGone).
Proof.
  destruct (reachable_by false stale_script
    (fun v => bool_decide (v2rayOP v = None) && IsRunning v && negb (panicked v) &&
      bool_decide (currentServer v = DomainName v /\ DomainName v = ["b"%byte] /\ vServer v = Some ["a"%byte]) &&
      forallb (fun '(_, p) => match p with RunReturned false | StopReturned | WatchGone => true | _ => false end)
        (map_to_list (goroutines v)))) as (v & Hr & Hv); [vm_compute; reflexivity|].
  apply andb_prop in Hv as [[[[Hm%bool_decide_eq_true Hi]%andb_prop Hp%negb_true_iff]%andb_prop
    (H1 & H2 & H3)%bool_decide_eq_true]%andb_prop Hg].
  exists v. split_and!; try done. intros t p Ht%elem_of_map_to_list.
  rewrite forallb_forall in Hg. specialize (Hg (t, p) (proj1 (list_elem_of_In _ _) Ht)). simpl in Hg.
  destruct p; try done; [destruct failed; [done|]|..]; auto.
Qed.

(** ** Witnesses *)

(** What a script reaches. *)
Definition reached (adns : bool) (l : list action) : V2RayPoint :=
  default (NewV2RayPoint adns) (steps l (NewV2RayPoint adns)).

Lemma reached_ok adns l :
  bool_decide (is_Some (steps l (NewV2RayPoint adns))) = true -> reachable adns (reached adns l).
Proof. intros [v Hv]%bool_decide_eq_true. exists l. unfold reached. by rewrite Hv. Qed.

(** A core is up; and [RunLoop] is about to look the name up. *)
Definition up : V2RayPoint := reached false (run_alone 0 false false 0 true true true).
Definition resolving : V2RayPoint :=
  reached false (CallRunLoop 0 :: alone 0 (repeat true 7 ++ [false])).

Lemma point_safety_witness :
  exists n c, closeChan up = Some n /\ n ∉ closed up /\ Vpoint up = Some c /\ statsManager up = Some c /\ c ∈ live up.
Proof.
  refine (proj2 (point_safety false up _) _ _); [apply reached_ok; vm_compute; reflexivity|..]; vm_compute; reflexivity.
Defined.

Lemma point_statuses_witness : head (statuses up) = Some Running.
Proof.
  refine (proj1 (proj2 (point_statuses false up _) _) _); [apply reached_ok; vm_compute; reflexivity|..];
    vm_compute; reflexivity.
Defined.

Lemma point_panics_witness :
  exists t t' ok c s, Step 6 0 true = Step t t' ok /\
    goroutines (reached true racing_script) !! t = Some (ResolveClose (Some c)) /\
    c ∈ closed (reached true racing_script) /\ goroutines (reached true racing_script) !! s = Some ResolveGone.
Proof.
  refine (proj2 (point_panics true (Step 6 0 true) (reached true racing_script)
    (default (reached true racing_script) (step (Step 6 0 true) (reached true racing_script))) _ _ _));
    [apply reached_ok; vm_compute; reflexivity|vm_compute; reflexivity..].
Defined.

Lemma point_unlocks_witness :
  exists t' w, step (Step 0 t' true) resolving = Some w.
Proof.
  refine (proj1 (point_unlocks false resolving 0 _ _ _)); [apply reached_ok; vm_compute; reflexivity|..];
    vm_compute; reflexivity.
Defined.

Lemma sync_resolve_uncancelled_witness :
  run 0 1 false (RunPrepare [] (PrepPause 9) (Some 0%nat)) resolving = None.
Proof.
  refine (proj2 (sync_resolve_uncancelled resolving 0 [] (PrepPause 9) (Some 0%nat) _ _) 1%nat 9%nat eq_refl);
    [apply reached_ok; vm_compute; reflexivity|vm_compute; reflexivity].
Defined.


Lemma StopLoop_alone_witness :
  exists v, steps (stop_alone 2) up = Some v /\ IsRunning v = false.
Proof.
  destruct (StopLoop_alone false up 2) as (c & n & v & Hs & _ & _ & _ & _ & Hi & _);
    [apply reached_ok; vm_compute; reflexivity|vm_compute; reflexivity..|]. by exists v.
Defined.
