(* ===== verification/Process.v ===== *)
(** * The process ([libv2ray_main.go])

    What the library changes for everything in the process: the variables of its
    environment, the reader of assets, the console log, and the dialer that every core
    uses, whichever point made it. *)

From stdpp Require Import gmap.
From S2P Require Import Prelude GoString GoNet Options World Dialer.
Open Scope Z_scope.

(** A [V2RayPoint] is known by its place among those made; its [SupportSet] is inside
    its dialer. *)
Record Process := {
  environ : gmap gostr gostr;
  (** [InitV2Env] replaced [NewFileReader]. *)
  file_reader : bool;
  (** A handler was registered for [LogType_Console]. *)
  console : bool;
  stdout : gostr;
  points : list ProtectedDialer;
  system_dialer : option nat;
  exited : option Z
}.

(** ** The environment *)

Definition v2Asset : gostr := "xray.location.asset".
Definition xudpBaseKey : gostr := "xray.xudp.basekey".

(** Where [NewFileReader] looks. *)
Inductive opened_file := Asset (name : gostr) | OSFile (path : gostr).

(** The last element of [filepath.Split]. *)
Definition filepath_base (path : gostr) : gostr :=
  match LastIndexByte path "/"%byte with Some i => drop (S i) path | None => path end.

(** [missing]: whether [os.Stat] says that the file does not exist. *)
Definition NewFileReader (missing : gostr -> bool) (path : gostr) : opened_file :=
  if missing path then Asset (filepath_base path) else OSFile path.

Definition InitV2Env (envPath key : gostr) (p : Process) : Process :=
  let env := environ p in
  let env := if bool_decide (envPath <> []) then <[v2Asset := envPath]> env else env in
  let env := if bool_decide (key <> []) then <[xudpBaseKey := key]> env else env in
  {| environ := env; file_reader := true; console := console p; stdout := stdout p; points := points p;
     system_dialer := system_dialer p; exited := exited p |}.

(** ** The log *)

Definition newline : byte := x0a.

(** [log.Logger.Print] of a logger without flags or prefix. *)
Definition print_line (s : gostr) : gostr :=
  if bool_decide (last s = Some newline) then s else s ++ [newline].

Definition with_stdout (s : gostr) (p : Process) : Process :=
  {| environ := environ p; file_reader := file_reader p; console := console p; stdout := s; points := points p;
     system_dialer := system_dialer p; exited := exited p |}.

(** [consoleLogWriter.Write] and [Close]. *)
Definition console_Write (s : gostr) (p : Process) : Process * option error :=
  (with_stdout (stdout p ++ print_line s) p, None).
Definition console_Close (p : Process) : Process * option error := (p, None).

(** ** Points *)

(** The zero dialer: [p] and the resolver have no state here. *)
Definition NewPreotectedDialer : ProtectedDialer := {| currentServer := []; preferIPv6 := false; vServer := None |}.

Definition NewV2RayPoint (p : Process) : Process * nat :=
  let k := length (points p) in
  ({| environ := environ p; file_reader := file_reader p; console := true; stdout := stdout p;
      points := points p ++ [NewPreotectedDialer]; system_dialer := Some k; exited := exited p |}, k).

Definition TerminateByExit (p : Process) : Process :=
  {| environ := environ p; file_reader := file_reader p; console := console p; stdout := stdout p; points := points p;
     system_dialer := system_dialer p; exited := Some 0 |}.

(** [version] is [v2core.Version()]. *)
Definition CheckVersionX (version : gostr) : gostr := ("Mahsa-XrayCore v" : gostr) ++ version.

Definition with_point (k : nat) (d : ProtectedDialer) (p : Process) : Process :=
  {| environ := environ p; file_reader := file_reader p; console := console p; stdout := stdout p;
     points := <[k := d]> (points p); system_dialer := system_dialer p; exited := exited p |}.

(** The resolution of a run of the point [k]. *)
Definition prepare_point (k : nat) (name : gostr) (v6 : bool) (p : Process) : M Process :=
  match points p !! k with
  | Some d => d ← PrepareDomain name v6 d; mret (with_point k d p)
  | None => mret p
  end.

Section Cores.
(** The dialer of xray-core, in use until a point was made. *)
Context (DefaultSystemDialer : Destination -> M (res conn)).

(** A connection of a core: the core has no say in who dials. *)
Definition core_dial (await : ProtectedDialer -> ProtectedDialer) (dest : Destination) (p : Process)
    : M (Process * res conn) :=
  match system_dialer p with
  | None => r ← DefaultSystemDialer dest; mret (p, r)
  | Some k =>
    match points p !! k with
    | Some d => '(d, r) ← Dial await d dest; mret (with_point k d p, r)
    | None => mret (p, Err (OtherError "no dialer"))
    end
  end.

(** ** Properties *)

(** Every point that is made takes over the dialing of the whole process. *)
Theorem NewV2RayPoint_last p :
  let '(p', k) := NewV2RayPoint p in
  system_dialer p' = Some k /\ points p' !! k = Some NewPreotectedDialer /\
  (forall i, (i < k)%nat -> points p' !! i = points p !! i) /\ console p' = true /\ exited p' = exited p.
Proof.
  simpl. split_and!; try done.
  - rewrite lookup_app_r by lia. by rewrite Nat.sub_diag.
  - intros i Hi. by apply lookup_app_l.
Qed.

(** With two points the cores of the first dial with the second's dialer: what the
    first resolved for its server is neither used nor changed, whatever it is. *)
Theorem first_point_ignored await dest p k d w h :
  system_dialer p <> Some k ->
  let run := core_dial await dest p w h in
  core_dial await dest (with_point k d p) w h = (run.1, (with_point k d run.2.1, run.2.2)) /\
  points run.2.1 !! k = points p !! k.
Proof.
  intros Hk. unfold core_dial. simpl. destruct (system_dialer p) as [j|] eqn:Ej.
  - assert (k <> j) as Hn by congruence. rewrite list_lookup_insert_ne by done.
    destruct (points p !! j) as [dj|] eqn:Edj; [|done]. rewrite !bind_run. simpl.
    destruct (Dial await dj dest w h) as [t [d' r]]. simpl. rewrite app_nil_r. split.
    + unfold with_point. simpl. by rewrite list_insert_insert_ne.
    + by rewrite list_lookup_insert_ne.
  - rewrite !bind_run. simpl. by rewrite app_nil_r.
Qed.

(** A log entry is one line, and nothing stands before it. *)
Theorem console_Write_line s p :
  let '(p', err) := console_Write s p in
  err = None /\ exists line, stdout p' = stdout p ++ line ++ [newline] /\ (line = s \/ line ++ [newline] = s).
Proof.
  simpl. split; [done|]. unfold print_line. case_bool_decide as Hl.
  - apply last_Some in Hl as [l ->]. exists l. split; [done|by right].
  - exists s. split; [done|by left].
Qed.

End Cores.
