(* ===== verification/Net.v ===== *)
(** * The environment of a request

    TCP connections, TLS and QUIC handshakes, the HTTP client and the clock, over
    the environment of [World.v]. A connection is named by the position in the
    history at which it was opened. *)

From stdpp Require Import gmap.
From S2P Require Import Prelude GoString GoHTTP Xray.
From S2P Require Export World.
Open Scope Z_scope.

(** What [crypto/tls] and uTLS are given. [MinTLS13], [RejectionUnverified] (a
    [EncryptedClientHelloRejectionVerify] that accepts) and [NameToVerify]
    ([InsecureServerNameToVerify]) are set by the ECH probe only. *)
Record tls_config := {
  tc_ServerName : gostr;
  tc_InsecureSkipVerify : bool;
  tc_NextProtos : list gostr;
  tc_ECHConfigList : list byte;
  tc_MinTLS13 : bool;
  tc_RejectionUnverified : bool;
  tc_NameToVerify : gostr
}.

(** [quic.Config], as far as it is set. *)
Record quic_config `{XrayLib} := {
  qc_Versions : list quic_Version;
  qc_MaxIdleTimeout : Z;
  qc_HandshakeIdleTimeout : Z;
  qc_MaxIncomingStreams : Z;
  qc_ChromeParrot : bool
}.

Section Events.
Context `{XrayLib}.

Inductive nev : Type :=
| Base (e : event)
| EDial (addr : gostr) (r : option error)
| ESocks (server : gostr) (auth : option (gostr * gostr)) (addr : gostr) (r : option error)
| EFragment (c : handle) (cfg : FragmentConfig) (r : option error)
| EClose (c : handle)
| EDeadline (ok : bool)
| ESetDeadline (c : handle) (set : bool)
| EWrite (c : handle) (p : list byte) (r : option error)
(** [http.ReadResponse]: status code, status, bytes left in the reader. *)
| EReadResponse (c : handle) (r : res (Z * gostr * Z))
(** A TLS handshake with [crypto/tls] or with a uTLS fingerprint: the protocol
    negotiated and whether ECH was accepted. *)
| EHandshake (c : handle) (fp : option Fingerprint_ID) (cfg : tls_config) (r : res (gostr * bool))
(** Whether [xtls.UClient] gave a [*xtls.UConn]. *)
| EUClient (c : handle) (ok : bool)
| EQUICDial (socket : handle) (dst : udp_addr) (cfg : tls_config) (q : quic_config)
    (attempts : list (list quic_Version)) (r : option error)
| EQUICClose (c : handle)
(** The chains a handshake gave to [VerifyPeerCertificate], call by call. *)
| ECertificates (calls : list (list (list byte)))
(** [http3.Transport.Close] and [quic.Transport.Close]. *)
| EH3Close
| EQUICTransportClose (socket : handle)
| EClientDo (req : Request)
(** The HTTP client asks the transport for a connection to an address, for TLS or
    for cleartext, or goes on without; what the transport gave it; and it returns. *)
| EClientConnect (m : option (gostr * bool))
| EClientGot (r : res handle)
| EClientReturn (r : res Response)
| EBodyClose
| EHeaderOrder (kvs : list (gostr * gostr))
| ERandBetween (lo hi n : Z).

Record NetWorld := {
  (** The sockets, clock and randomness of [World.v], from here on. *)
  nw_base : list nev -> World;
  nw_dial : list nev -> gostr -> option error;
  nw_socks : list nev -> gostr -> option (gostr * gostr) -> gostr -> option error;
  nw_fragment : list nev -> handle -> FragmentConfig -> option error;
  (** [ctx.Deadline()]: whether there is one. *)
  nw_deadline : list nev -> bool;
  nw_write : list nev -> handle -> list byte -> option error;
  nw_read_response : list nev -> handle -> res (Z * gostr * Z);
  nw_handshake : list nev -> handle -> option Fingerprint_ID -> tls_config -> res (gostr * bool);
  nw_uclient : list nev -> handle -> bool;
  nw_quic_dial : list nev -> handle -> udp_addr -> tls_config -> quic_config ->
    list (list quic_Version) -> option error;
  (** [ConnectionState().TLS.NegotiatedProtocol] of a QUIC connection. *)
  nw_quic_alpn : list nev -> handle -> gostr;
  nw_certificates : list nev -> list (list (list byte));
  (** The HTTP client: how many connections it asks for at most before its timeout
      or its limits end it, which, and what it returns. *)
  nw_patience : list nev -> nat;
  nw_client : list nev -> option (gostr * bool);
  nw_return : list nev -> res Response;
  (** The order in which [range] visits a map. *)
  nw_range : list nev -> gmap gostr gostr -> list (gostr * gostr);
  (** [common/crypto.RandBetween]. *)
  nw_rand_between : list nev -> Z -> Z -> Z
}.

(** What the language and [RandBetween]'s documentation promise. *)
Record net_ok (w : NetWorld) : Prop := {
  base_ok : forall h, world_ok (nw_base w h);
  range_ok : forall h m, nw_range w h m ≡ₚ map_to_list m;
  rand_between_ok : forall h lo hi, lo <= hi -> lo <= nw_rand_between w h lo hi <= hi
}.
End Events.

Notation N := (IO nev NetWorld).

Section Operations.
Context `{XrayLib}.

Definition base_event (e : nev) : option event := match e with Base e => Some e | _ => None end.

(** A computation of [World.v]. *)
Definition lift_base {A} (m : M A) : N A := fun w h =>
  let '(t, a) := m (nw_base w h) (omap base_event h) in (map Base t, a).

(** A new connection is named after the present moment. *)
Definition opened (m : N (option error)) : N (res handle) := fun w h =>
  let '(t, r) := m w h in (t, match r with None => Ok (length h) | Some e => Err e end).

Definition dial_tcp (addr : gostr) : N (res handle) :=
  opened (perform (fun w h => nw_dial w h addr) (EDial addr)).
Definition dial_socks (server : gostr) (auth : option (gostr * gostr)) (addr : gostr) : N (res handle) :=
  opened (perform (fun w h => nw_socks w h server auth addr) (ESocks server auth addr)).
Definition new_fragment (c : handle) (cfg : FragmentConfig) : N (option error) :=
  perform (fun w h => nw_fragment w h c cfg) (EFragment c cfg).
Definition close_conn (c : handle) : N unit := perform (fun _ _ => tt) (fun _ => EClose c).
Definition ctx_deadline : N bool := perform nw_deadline EDeadline.
Definition set_deadline (c : handle) (b : bool) : N unit :=
  perform (fun _ _ => tt) (fun _ => ESetDeadline c b).
Definition write_conn (c : handle) (p : list byte) : N (option error) :=
  perform (fun w h => nw_write w h c p) (EWrite c p).
Definition read_response (c : handle) : N (res (Z * gostr * Z)) :=
  perform (fun w h => nw_read_response w h c) (EReadResponse c).
Definition tls_handshake (c : handle) (fp : option Fingerprint_ID) (cfg : tls_config) : N (res (gostr * bool)) :=
  perform (fun w h => nw_handshake w h c fp cfg) (EHandshake c fp cfg).
Definition new_uclient (c : handle) : N bool := perform (fun w h => nw_uclient w h c) (EUClient c).
Definition quic_dial (s : handle) (dst : udp_addr) (cfg : tls_config) (q : quic_config)
    (attempts : list (list quic_Version)) : N (res handle) :=
  opened (perform (fun w h => nw_quic_dial w h s dst cfg q attempts) (EQUICDial s dst cfg q attempts)).
Definition quic_alpn (c : handle) : N gostr := fun w h => ([], nw_quic_alpn w h c).
Definition quic_close (c : handle) : N unit := perform (fun _ _ => tt) (fun _ => EQUICClose c).
Definition certificates : N (list (list (list byte))) := perform nw_certificates ECertificates.
Definition h3_close : N unit := perform (fun _ _ => tt) (fun _ => EH3Close).
Definition quic_transport_close (s : handle) : N unit :=
  perform (fun _ _ => tt) (fun _ => EQUICTransportClose s).
Definition client_start (req : Request) : N unit := perform (fun _ _ => tt) (fun _ => EClientDo req).
Definition client_patience : N nat := fun w h => ([], nw_patience w h).
Definition client_next : N (option (gostr * bool)) := perform nw_client EClientConnect.
Definition client_got (r : res handle) : N unit := perform (fun _ _ => tt) (fun _ => EClientGot r).
Definition client_return : N (res Response) := perform nw_return EClientReturn.
Definition body_close : N unit := perform (fun _ _ => tt) (fun _ => EBodyClose).
Definition range_map (m : gmap gostr gostr) : N (list (gostr * gostr)) :=
  perform (fun w h => nw_range w h m) EHeaderOrder.
Definition RandBetween (lo hi : Z) : N Z :=
  perform (fun w h => nw_rand_between w h lo hi) (ERandBetween lo hi).

(** ** Lemmas *)

Lemma wp_lift_base {A} (m : M A) w h Q :
  wp m (nw_base w h) (omap base_event h) (fun t a => Q (map Base t) a) -> wp (lift_base m) w h Q.
Proof. unfold wp, lift_base. by destruct (m (nw_base w h) (omap base_event h)). Qed.

Lemma wp_opened (answer : NetWorld -> list nev -> option error) ev w h (Q : list nev -> res handle -> Prop) :
  (forall r, r = answer w h ->
     Q [ev r] (match r with None => Ok (length h) | Some e => Err e end)) ->
  wp (opened (perform answer ev)) w h Q.
Proof. intros Hq. by apply Hq. Qed.

Lemma does_lift {A} (P : nev -> Prop) (Q : A -> Prop) (m : M A) :
  does (fun e => P (Base e)) Q m -> does P Q (lift_base m).
Proof.
  intros Hm w h. apply wp_lift_base. eapply wp_mono; [apply Hm|]. intros t a [Ht Ha].
  split; [by apply Forall_map|done].
Qed.

Lemma does_opened (P : nev -> Prop) (answer : NetWorld -> list nev -> option error) ev :
  (forall r, P (ev r)) -> does P anything (opened (perform answer ev)).
Proof. intros Hev w h. apply wp_opened. intros r _. split; [|done]. repeat constructor. apply Hev. Qed.

End Operations.

(** ** Automation *)

(** Take one step of a computation of which only the events matter. *)
Ltac does_step :=
  lazymatch goal with
  | |- does _ _ (mret _) => apply does_ret; try done
  | |- does _ _ (bind_res _ _) => eapply does_then_res; [| |try done]
  | |- does _ _ (mbind _ _) => eapply does_then
  | |- does _ _ (perform _ _) => apply does_perform; try done
  | |- does _ _ (opened _) => apply does_opened
  | |- does _ _ (lift_base _) => apply does_lift
  | |- does _ _ (if ?b then _ else _) => destruct b eqn:?
  | |- does _ _ (match ?x with _ => _ end) => destruct x eqn:?
  | |- does _ _ (let _ := _ in _) => cbv zeta
  | |- forall _, _ => intros ?
  end.
