(* ===== verification/Transport.v ===== *)
(** * Connections and transports ([libv2ray_fetch.go], [libv2ray_fetch_h3.go])

    How a request reaches its server: directly or through a proxy, with the
    standard library's TLS, with a uTLS fingerprint or over QUIC. A
    [http.RoundTripper] that the code builds from closures is a value of
    [round_tripper], and [rt_dial] is what its closures do; what they share (the
    [connState], the connection a [handoffDialer] holds) is passed along. *)

From stdpp Require Import gmap.
From S2P Require Import Prelude GoString GoCodec GoNet GoHTTP Xray Options Noise Headers Net EchCache.
Open Scope Z_scope.

Abbreviation cache := (gmap gostr echCacheEntry).

(** ** The state of a request *)

Record connState := {
  cs_proto : gostr;
  cs_echAccepted : bool;
  cs_set : bool;
  cs_echKey : gostr
}.

Definition new_connState : connState :=
  {| cs_proto := []; cs_echAccepted := false; cs_set := false; cs_echKey := [] |}.

Definition set_echKey (key : gostr) (s : connState) : connState :=
  {| cs_proto := cs_proto s; cs_echAccepted := cs_echAccepted s; cs_set := cs_set s; cs_echKey := key |}.

Definition record (proto : gostr) (ech : bool) (s : connState) : connState * option error :=
  if cs_set s && bool_decide (cs_proto s <> proto)
  then (s, Some (Errorf "connection negotiated %q but an earlier one negotiated %q: a redirect crossed an HTTP version boundary" [AStr proto; AStr (cs_proto s)] None))
  else ({| cs_proto := proto; cs_echAccepted := ech; cs_set := true; cs_echKey := cs_echKey s |}, None).

Definition snapshot (s : connState) : gostr * bool := (cs_proto s, cs_echAccepted s).

Definition echAcceptedFrom (s : connState) (resp : option Response) : bool :=
  if cs_set s then cs_echAccepted s
  else match resp with
       | Some r => match resp_TLS r with Some b => b | None => false end
       | None => false
       end.

Section Transport.
Context `{XrayLib} `{NetURL} `{Unicode} `{IntWidth}.

Inductive round_tripper :=
(** [http.Transport] for an http url. *)
| RtPlain (frag : option FragmentConfig)
(** [http.Transport] that runs TLS itself, and whether it forces HTTP/2. *)
| RtStd (frag : option FragmentConfig) (cfg : tls_config) (force_h2 : bool)
(** [http2.Transport] over [stdTLSDial]. *)
| RtH2 (frag : option FragmentConfig) (host : gostr) (echList : list byte)
(** [http2.Transport] or [http.Transport] over a [handoffDialer]. *)
| RtUTLS (h2 : bool) (mode : gostr) (frag : option FragmentConfig) (host : gostr) (echList : list byte)
    (fp : Fingerprint_ID)
| RtH3 (socket : handle) (attempts : list (list quic_Version)) (noise : option noiseConfig)
       (echList : list byte) (cfg : tls_config) (q : quic_config).

Record rt_state := {
  rs_conn : connState;
  rs_pending : option handle
}.

(** ** Dialing *)

(** The address to dial for [addr]: the pinned one, with its port. *)
Definition pin_addr (o : transportOptions) (addr : gostr) : res gostr :=
  if bool_decide (IP o <> []) then
    match SplitHostPort addr with
    | inl e => Err (Errorf "cannot pin ip for %q: %w" [AStr addr] (Some (OtherError (addr_error_text e))))
    | inr (_, port) => Ok (JoinHostPort (IP o) port)
    end
  else Ok addr.

Definition crlf : gostr := [x0d; x0a].

Definition connect_request (pu : URL) (addr : gostr) : list byte :=
  ("CONNECT " : gostr) ++ addr ++ (" HTTP/1.1" : gostr) ++ crlf ++ ("Host: " : gostr) ++ addr ++ crlf ++
  match u_User pu with
  | Some (user, pw) =>
    ("Proxy-Authorization: Basic " : gostr) ++ b64_encode StdEncoding (user ++ (":" : gostr) ++ pw) ++ crlf
  | None => []
  end ++ crlf.

(** With its deferred [conn.SetDeadline(time.Time{})]. *)
Definition proxyConnect (c : handle) (pu : URL) (addr : gostr) : N (option error) :=
  dl ← ctx_deadline;
  _ ← (if dl : bool then set_deadline c true else mret tt);
  r ← (werr ← write_conn c (connect_request pu addr);
       match werr with
       | Some e => mret (Some e)
       | None =>
         resp ← read_response c;
         mret match resp with
              | Err e => Some e
              | Ok (code, status, buffered) =>
                if negb (code =? 200)
                then Some (Errorf "proxy CONNECT %s: %s" [AStr addr; AStr status] None)
                else if 0 <? buffered
                then Some (Errorf "proxy sent %d unexpected bytes after CONNECT" [AInt buffered] None)
                else None
              end
       end);
  _ ← (if dl : bool then set_deadline c false else mret tt);
  mret r.

Definition dialViaProxy (o : transportOptions) (addr : gostr) : N (res handle) :=
  match url_Parse (Proxy o) with
  | Err e => mret (Err (Errorf "bad proxy url: %w" [] (Some e)))
  | Ok pu =>
    let scheme := ToLower (u_Scheme pu) in
    if bool_decide (scheme ∈ ([("socks5" : gostr); "socks5h"])) then dial_socks (u_Host pu) (u_User pu) addr
    else if bool_decide (scheme = ("http" : gostr)) then
      c ←? dial_tcp (u_Host pu);
      err ← proxyConnect c pu addr;
      match err with
      | Some e => _ ← close_conn c; mret (Err e)
      | None => mret (Ok c)
      end
    else mret (Err (Errorf "unsupported proxy scheme %q (use http:// or socks5://)" [AStr (u_Scheme pu)] None))
  end.

Definition rawDial (o : transportOptions) (addr : gostr) (frag : option FragmentConfig) : N (res handle) :=
  addr ←? mret (pin_addr o addr);
  c ←? (if bool_decide (Proxy o = []) then dial_tcp addr else dialViaProxy o addr);
  match frag with
  | None => mret (Ok c)
  | Some cfg =>
    ferr ← new_fragment c cfg;
    match ferr with
    | Some e => _ ← close_conn c; mret (Err e)
    | None => mret (Ok c)
    end
  end.

(** ** TLS *)

Definition tlsConfig (o : transportOptions) (host : gostr) (echList : list byte) (alpn : list gostr) : tls_config := {|
  tc_ServerName := if bool_decide (ServerName o = []) then host else ServerName o;
  tc_InsecureSkipVerify := AllowInsecure o;
  tc_NextProtos := alpn;
  tc_ECHConfigList := echList;
  tc_MinTLS13 := false; tc_RejectionUnverified := false; tc_NameToVerify := []
|}.

Definition stdTLSDial (o : transportOptions) (addr : gostr) (frag : option FragmentConfig) (host : gostr)
    (echList : list byte) (alpn : list gostr) (s : connState) : N (connState * res handle) :=
  raw ← rawDial o addr frag;
  match raw with
  | Err e => mret (s, Err e)
  | Ok raw =>
    r ← tls_handshake raw None (tlsConfig o host echList alpn);
    match r with
    | Err e => _ ← close_conn raw; mret (s, Err e)
    | Ok (proto, ech) =>
      match record proto ech s with
      | (s, Some e) => _ ← close_conn raw; mret (s, Err e)
      | (s, None) => mret (s, Ok raw)
      end
    end
  end.

(** The closure [dialTLS] of [roundTripper]. *)
Definition dialTLS (o : transportOptions) (mode : gostr) (frag : option FragmentConfig) (host : gostr)
    (echList : list byte) (fp : Fingerprint_ID) (addr : gostr) (s : connState) : N (connState * res handle) :=
  raw ← rawDial o addr frag;
  match raw with
  | Err e => mret (s, Err e)
  | Ok raw =>
    ok ← new_uclient raw;
    if negb ok then _ ← close_conn raw; mret (s, Err (Errorf "unexpected uTLS connection type" [] None))
    else
      r ← tls_handshake raw (Some fp) (tlsConfig o host echList []);
      match r with
      | Err e => _ ← close_conn raw; mret (s, Err e)
      | Ok (proto, ech) =>
        if bool_decide (mode <> alpnAuto) &&
           bool_decide (negotiatedName proto <> negotiatedName (default [] (head (alpnOffer mode))))
        then _ ← close_conn raw;
             mret (s, Err (Errorf "alpn %q requested but fingerprint %q negotiated %q: a uTLS ClientHello carries its own ALPN list, so pick a fingerprint that offers the version you want (or drop the fingerprint)"
                             [AStr mode; AStr (Fingerprint o); AStr (negotiatedName proto)] None))
        else
          match record proto ech s with
          | (s, Some e) => _ ← close_conn raw; mret (s, Err e)
          | (s, None) => mret (s, Ok raw)
          end
      end
  end.

(** ** The handoff *)

(** [handoffDialer.get]: the connection held, once, and then a fresh dial. *)
Definition handoff_get (dial : gostr -> connState -> N (connState * res handle)) (st : rt_state) (addr : gostr)
    : N (rt_state * res handle) :=
  match rs_pending st with
  | Some c => mret ({| rs_conn := rs_conn st; rs_pending := None |}, Ok c)
  | None => '(s, r) ← dial addr (rs_conn st); mret ({| rs_conn := s; rs_pending := None |}, r)
  end.

Definition handoff_discard (st : rt_state) : N unit :=
  match rs_pending st with Some c => close_conn c | None => mret tt end.

(** ** HTTP/3 *)

Definition h3RoundTripper (o : transportOptions) (u : URL) (echList : list byte) (s : connState)
    : N (res (round_tripper * rt_state)) :=
  attempts ←? mret (quicAttempts o);
  noise ←? mret (noise_config o);
  sock ← lift_base listen_udp;
  match sock with
  | Err e => mret (Err (Errorf "h3: cannot open udp socket: %w" [] (Some e)))
  | Ok sock =>
    let q := {| qc_Versions := default [] (head attempts); qc_MaxIdleTimeout := timeout o;
                qc_HandshakeIdleTimeout := 0; qc_MaxIncomingStreams := -1;
                qc_ChromeParrot := negb (DisableChromeParrot o) |} in
    let cfg := tlsConfig o (url_Hostname u) echList ["h3" : gostr] in
    let cfg := if bool_decide (ServerName o = []) then
                 {| tc_ServerName := []; tc_InsecureSkipVerify := tc_InsecureSkipVerify cfg;
                    tc_NextProtos := tc_NextProtos cfg; tc_ECHConfigList := tc_ECHConfigList cfg;
                    tc_MinTLS13 := false; tc_RejectionUnverified := false; tc_NameToVerify := [] |}
               else cfg in
    mret (Ok (RtH3 sock attempts noise echList cfg q, {| rs_conn := s; rs_pending := None |}))
  end.

(** The [Dial] of the [http3.Transport]. *)
Definition h3_dial (o : transportOptions) (sock : handle) (attempts : list (list quic_Version))
    (noise : option noiseConfig) (echList : list byte) (cfg : tls_config) (q : quic_config)
    (addr : gostr) (s : connState) : N (connState * res handle) :=
  match pin_addr o addr with
  | Err e => mret (s, Err e)
  | Ok target =>
    dst ← lift_base (resolve_udp target);
    match dst with
    | Err e => mret (s, Err (Errorf "h3: cannot resolve %q: %w" [AStr target] (Some e)))
    | Ok dst =>
      nerr ← (match noise with Some n => lift_base (send n sock dst) | None => mret None end);
      match nerr with
      | Some e => mret (s, Err e)
      | None =>
        c ← quic_dial sock dst cfg q attempts;
        match c with
        | Err e => mret (s, Err e)
        | Ok c =>
          match record "h3" (bool_decide (echList <> [])) s with
          | (s, Some e) => _ ← quic_close c; mret (s, Err e)
          | (s, None) => mret (s, Ok c)
          end
        end
      end
    end
  end.

(** ** The transport of one request *)

(** The part of [roundTripper] after [echConfigList], for an https url. *)
Definition transport_with (o : transportOptions) (u : URL) (frag : option FragmentConfig) (mode : gostr)
    (echList : list byte) (s : connState) : N (res (round_tripper * rt_state)) :=
  let host := url_Hostname u in
  let st := {| rs_conn := s; rs_pending := None |} in
  if bool_decide (mode = alpnH3) then h3RoundTripper o u echList s
  else if bool_decide (Fingerprint o = []) then
    if bool_decide (mode = alpnH2) then mret (Ok (RtH2 frag host echList, st))
    else mret (Ok (RtStd frag (tlsConfig o host echList (alpnOffer mode)) (bool_decide (mode = alpnAuto)), st))
  else
    match GetFingerprint (Fingerprint o) with
    | None => mret (Err (Errorf "unknown fingerprint %q" [AStr (Fingerprint o)] None))
    | Some fp =>
      '(s, probe) ← dialTLS o mode frag host echList fp (canonicalAddr u) s;
      match probe with
      | Err e => mret (Err e)
      | Ok probe =>
        mret (Ok (RtUTLS (bool_decide ((snapshot s).1 = ("h2" : gostr))) mode frag host echList fp,
                  {| rs_conn := s; rs_pending := Some probe |}))
      end
    end.

(** [acquire] is [echConfigList]; it may change the cache. *)
Definition roundTripper (acquire : gostr -> cache -> N (cache * res (list byte * gostr)))
    (o : transportOptions) (u : URL) (s : connState) (ca : cache)
    : N (cache * res (round_tripper * rt_state)) :=
  match fragmentConfig o with
  | Err e => mret (ca, Err e)
  | Ok frag =>
    match alpnMode o with
    | Err e => mret (ca, Err e)
    | Ok mode =>
      if bool_decide (u_Scheme u = ("http" : gostr)) then
        mret (ca,
          if bool_decide (mode = alpnH2)
          then Err (Errorf "alpn %q needs an https url: cleartext h2c is not supported" [AStr alpnH2] None)
          else if bool_decide (mode = alpnH3)
          then Err (Errorf "alpn %q needs an https url: QUIC is always encrypted" [AStr alpnH3] None)
          else Ok (RtPlain frag, {| rs_conn := s; rs_pending := None |}))
      else
        '(ca, r) ← acquire (url_Hostname u) ca;
        match r with
        | Err e => mret (ca, Err e)
        | Ok (echList, echKey) => r ← transport_with o u frag mode echList (set_echKey echKey s); mret (ca, r)
        end
    end
  end.

(** ** What the HTTP client gets from the transport

    A connection to [addr]. [net/http] runs TLS over the connections of a
    [DialContext] itself. An [http.Transport] with [DialTLSContext] only dials cleartext by itself, and
    [http2] and [http3] do not speak it. *)

Definition http_tls (cfg : tls_config) (c : handle) : N (res handle) :=
  r ← tls_handshake c None cfg;
  match r with
  | Err e => _ ← close_conn c; mret (Err e)
  | Ok _ => mret (Ok c)
  end.

(** [net/http] and [http3] complete a configuration that names no server with the
    host they dial. *)
Definition name_tls (addr : gostr) (cfg : tls_config) : tls_config :=
  if bool_decide (tc_ServerName cfg = []) then {|
    tc_ServerName := match SplitHostPort addr with inr (host, _) => host | inl _ => addr end;
    tc_InsecureSkipVerify := tc_InsecureSkipVerify cfg; tc_NextProtos := tc_NextProtos cfg;
    tc_ECHConfigList := tc_ECHConfigList cfg; tc_MinTLS13 := tc_MinTLS13 cfg;
    tc_RejectionUnverified := tc_RejectionUnverified cfg; tc_NameToVerify := tc_NameToVerify cfg
  |} else cfg.

(** Without a [TLSClientConfig]. *)
Definition default_tls (addr : gostr) : tls_config := name_tls addr {|
  tc_ServerName := []; tc_InsecureSkipVerify := false; tc_NextProtos := []; tc_ECHConfigList := [];
  tc_MinTLS13 := false; tc_RejectionUnverified := false; tc_NameToVerify := []
|}.

Definition rt_dial (o : transportOptions) (rt : round_tripper) (st : rt_state)
    (addr : gostr) (tls : bool) : N (rt_state * res handle) :=
  let keep (m : N (res handle)) := r ← m; mret (st, r) in
  let unsupported := mret (st, Err (OtherError "unsupported protocol scheme")) in
  match rt with
  | RtPlain frag =>
    keep (c ←? rawDial o addr frag; if tls then http_tls (default_tls addr) c else mret (Ok c))
  | RtStd frag cfg _ => keep (c ←? rawDial o addr frag; if tls then http_tls (name_tls addr cfg) c else mret (Ok c))
  | RtH2 frag host ech =>
    if tls then
      '(s, r) ← stdTLSDial o addr frag host ech (alpnOffer alpnH2) (rs_conn st);
      mret ({| rs_conn := s; rs_pending := rs_pending st |}, r)
    else unsupported
  | RtUTLS h2 mode frag host ech fp =>
    if tls then handoff_get (dialTLS o mode frag host ech fp) st addr
    else if h2 then unsupported else keep (dial_tcp addr)
  | RtH3 sock attempts noise ech cfg q =>
    if tls then
      '(s, r) ← h3_dial o sock attempts noise ech (name_tls addr cfg) q addr (rs_conn st);
      mret ({| rs_conn := s; rs_pending := rs_pending st |}, r)
    else unsupported
  end.

(** [client.Do(req)]: the client asks for up to [n] connections and returns. *)
Fixpoint client_loop (n : nat) (o : transportOptions) (rt : round_tripper) (st : rt_state)
    : N (rt_state * res Response) :=
  let return_ := r ← client_return; mret (st, r) in
  match n with
  | O => return_
  | S n =>
    m ← client_next;
    match m with
    | None => return_
    | Some (addr, tls) => '(st, r) ← rt_dial o rt st addr tls; _ ← client_got r; client_loop n o rt st
    end
  end.

Definition client_do (o : transportOptions) (rt : round_tripper) (st : rt_state) (req : Request)
    : N (rt_state * res Response) :=
  _ ← client_start req; n ← client_patience; client_loop n o rt st.

(** The function [roundTripper] returns with the transport, which the callers defer. *)
Definition cleanup (rt : round_tripper) (st : rt_state) : N unit :=
  match rt with
  | RtUTLS _ _ _ _ _ _ => handoff_discard st
  | RtH3 sock _ _ _ _ _ =>
    _ ← h3_close; _ ← quic_transport_close sock; lift_base (close_udp sock)
  | _ => mret tt
  end.

(** ** Lemmas *)

Lemma name_tls_list addr cfg : tc_ECHConfigList (name_tls addr cfg) = tc_ECHConfigList cfg.
Proof. unfold name_tls. by case_bool_decide. Qed.

Lemma name_tls_tlsConfig o addr host l alpn :
  exists host', name_tls addr (tlsConfig o host l alpn) = tlsConfig o host' l alpn.
Proof.
  unfold name_tls. case_bool_decide as Hn; [|by exists host].
  exists (match SplitHostPort addr with inr (host, _) => host | inl _ => addr end).
  unfold tlsConfig in *. simpl in *. by case_bool_decide.
Qed.

Lemma deadline_run c (dl b : bool) w h :
  wp (if dl then set_deadline c b else mret tt) w h (fun t _ => t = if dl then [ESetDeadline c b] else []).
Proof. by destruct dl. Qed.

(** The part of [proxyConnect] under the deadline. *)
Lemma tunnel_run c pu addr w h :
  wp (werr ← write_conn c (connect_request pu addr);
      match werr with
      | Some e => mret (Some e)
      | None =>
        resp ← read_response c;
        mret match resp with
             | Err e => Some e
             | Ok (code, status, buffered) =>
               if negb (code =? 200)
               then Some (Errorf "proxy CONNECT %s: %s" [AStr addr; AStr status] None)
               else if 0 <? buffered
               then Some (Errorf "proxy sent %d unexpected bytes after CONNECT" [AInt buffered] None)
               else None
             end
      end) w h (fun t r => exists werr answer,
    t = EWrite c (connect_request pu addr) werr :: (if bool_decide (werr = None) then [EReadResponse c answer] else []) /\
    (r = None <-> werr = None /\ exists status buffered, answer = Ok (200, status, buffered) /\ buffered <= 0)).
Proof.
  apply wp_bind_perform. intros [e|] _; [apply wp_ret; exists (Some e), (Err e); naive_solver|].
  apply wp_bind_perform. intros answer _. apply wp_ret. exists None, answer. split; [done|].
  destruct answer as [[[code status] buffered]|e]; [|naive_solver].
  destruct (code =? 200) eqn:Ec; simpl; [|bools; naive_solver]. bools. subst code.
  destruct (0 <? buffered) eqn:Eb; bools; split; try done.
  - intros (_ & ? & ? & [= <- <-] & ?). lia.
  - intros _. eauto.
Qed.

(** ** Properties *)

(** One CONNECT is sent to the proxy, for the address asked for, and the tunnel is
    there exactly when it answered 200 and nothing follows its answer; the deadline of
    the context is on the connection meanwhile, and is taken off on every path. *)
Theorem proxyConnect_spec c pu addr w h :
  wp (proxyConnect c pu addr) w h (fun t r =>
    exists dl werr answer,
      t = EDeadline dl :: (if dl : bool then [ESetDeadline c true] else []) ++
          EWrite c (connect_request pu addr) werr ::
          (if bool_decide (werr = None) then [EReadResponse c answer] else []) ++
          (if dl then [ESetDeadline c false] else []) /\
      (r = None <-> werr = None /\ exists status buffered, answer = Ok (200, status, buffered) /\ buffered <= 0)).
Proof.
  unfold proxyConnect. apply wp_bind_perform. intros dl _.
  apply wp_bind. eapply wp_mono; [apply deadline_run|]. intros ? ? ->.
  apply wp_bind. eapply wp_mono; [apply tunnel_run|]. intros t r (werr & answer & -> & Hr).
  apply wp_bind. eapply wp_mono; [apply deadline_run|]. intros ? ? ->. apply wp_ret.
  exists dl, werr, answer. split; [|exact Hr]. by rewrite app_nil_r.
Qed.

End Transport.
