(* ===== verification/Handoff.v ===== *)
(** * The connections of one request, dial by dial ([libv2ray_fetch.go])

    A client dials in goroutines of its own, any number at a time, and a dial may
    still run when the call that wanted it is over. The [handoffDialer] and the
    [connState] of a request are what its dials share: the machine here interleaves
    [handoffDialer.get], [handoffDialer.discard], the dials of [dialTLS],
    [stdTLSDial] and HTTP/3 and [echAcceptedFrom] at every access to them and to
    their two mutexes. What a dial does before it has negotiated is one step of the
    environment, of which [Ownership.v] shows that it closes what it does not return. *)

From stdpp Require Import gmap.
From S2P Require Import Prelude Steps GoString GoNet GoHTTP Xray Options Net Transport.

(** What a handshake gave: the protocol, and whether ECH was accepted. *)
Abbreviation negotiation := (gostr * bool)%type.

Inductive place :=
(** [handoffDialer.get]: before [h.mu.Lock()], before it looks at [h.pending],
    before it clears it, before [h.mu.Unlock()], with what it took. *)
| GetLock | GetCheck | GetClear (c : handle) | GetUnlock (c : option handle)
(** A dial, up to the handshake; then [state.record]: before [s.mu.Lock()], before
    its condition, before it writes, before [s.mu.Unlock()]; and before the
    connection it refused is closed. *)
| Dialing
| RecordLock (c : handle) (n : negotiation) | RecordCheck (c : handle) (n : negotiation)
| RecordSet (c : handle) (n : negotiation) | RecordUnlock (c : handle) (e : option error)
| RecordClose (c : handle) (e : error)
(** What the client got. *)
| Got (r : res handle)
(** [handoffDialer.discard]. *)
| DiscardLock | DiscardCheck | DiscardClear (c : handle) | DiscardClose (c : handle) | DiscardUnlock | Discarded
(** [echAcceptedFrom], on a response. *)
| AcceptedLock (resp : option Response) | AcceptedRead (resp : option Response)
| AcceptedUnlock (resp : option Response) (b : bool) | Accepted (b : bool).

Record machine := {
  (** The [handoffDialer]. *)
  h_mu : option nat;
  pending : option handle;
  (** The [connState]. *)
  s_mu : option nat;
  state : connState;
  (** The connections whose handshake succeeded, with what it negotiated, and those
      the code closed. *)
  negotiated : gmap handle negotiation;
  closed : list handle;
  goroutines : gmap nat place
}.

(** ** Updates *)

Definition goto (t : nat) (p : place) (m : machine) : machine :=
  {| h_mu := h_mu m; pending := pending m; s_mu := s_mu m; state := state m; negotiated := negotiated m;
     closed := closed m; goroutines := <[t := p]> (goroutines m) |}.
Definition with_h_mu (o : option nat) (m : machine) : machine :=
  {| h_mu := o; pending := pending m; s_mu := s_mu m; state := state m; negotiated := negotiated m;
     closed := closed m; goroutines := goroutines m |}.
Definition with_s_mu (o : option nat) (m : machine) : machine :=
  {| h_mu := h_mu m; pending := pending m; s_mu := o; state := state m; negotiated := negotiated m;
     closed := closed m; goroutines := goroutines m |}.
Definition clear_pending (m : machine) : machine :=
  {| h_mu := h_mu m; pending := None; s_mu := s_mu m; state := state m; negotiated := negotiated m;
     closed := closed m; goroutines := goroutines m |}.
Definition with_state (s : connState) (m : machine) : machine :=
  {| h_mu := h_mu m; pending := pending m; s_mu := s_mu m; state := s; negotiated := negotiated m;
     closed := closed m; goroutines := goroutines m |}.
Definition opened (c : handle) (n : negotiation) (m : machine) : machine :=
  {| h_mu := h_mu m; pending := pending m; s_mu := s_mu m; state := state m;
     negotiated := <[c := n]> (negotiated m); closed := closed m; goroutines := goroutines m |}.
Definition close (c : handle) (m : machine) : machine :=
  {| h_mu := h_mu m; pending := pending m; s_mu := s_mu m; state := state m; negotiated := negotiated m;
     closed := c :: closed m; goroutines := goroutines m |}.

(** What [roundTripper] leaves: nothing, or the connection it dialed to learn the
    protocol, which was recorded. *)
Definition start (key : gostr) (probe : option (handle * negotiation)) : machine :=
  let s := set_echKey key new_connState in {|
    h_mu := None; pending := fst <$> probe; s_mu := None;
    state := match probe with Some (_, (proto, ech)) => fst (record proto ech s) | None => s end;
    negotiated := match probe with Some (c, n) => {[c := n]} | None => ∅ end;
    closed := []; goroutines := ∅ |}.

(** ** Steps *)

(** [Lock()]: it waits while somebody holds the mutex. *)
Definition lock_h (t : nat) (next : place) (m : machine) : option machine :=
  match h_mu m with None => Some (goto t next (with_h_mu (Some t) m)) | Some _ => None end.
Definition lock_s (t : nat) (next : place) (m : machine) : option machine :=
  match s_mu m with None => Some (goto t next (with_s_mu (Some t) m)) | Some _ => None end.

Definition run_get (t : nat) (p : place) (m : machine) : option machine :=
  match p with
  | GetLock => lock_h t GetCheck m
  | GetCheck => Some (goto t (match pending m with Some c => GetClear c | None => GetUnlock None end) m)
  | GetClear c => Some (goto t (GetUnlock (Some c)) (clear_pending m))
  | GetUnlock c =>
    Some (goto t (match c with Some c => Got (Ok c) | None => Dialing end) (with_h_mu None m))
  | _ => None
  end.

Definition run_record (t : nat) (p : place) (m : machine) : option machine :=
  match p with
  | RecordLock c n => lock_s t (RecordCheck c n) m
  | RecordCheck c n =>
    Some (goto t (match snd (record n.1 n.2 (state m)) with
                  | Some e => RecordUnlock c (Some e)
                  | None => RecordSet c n
                  end) m)
  | RecordSet c n => Some (goto t (RecordUnlock c None) (with_state (fst (record n.1 n.2 (state m))) m))
  | RecordUnlock c e =>
    Some (goto t (match e with Some e => RecordClose c e | None => Got (Ok c) end) (with_s_mu None m))
  | RecordClose c e => Some (goto t (Got (Err e)) (close c m))
  | _ => None
  end.

Definition run_discard (t : nat) (p : place) (m : machine) : option machine :=
  match p with
  | DiscardLock => lock_h t DiscardCheck m
  | DiscardCheck => Some (goto t (match pending m with Some c => DiscardClear c | None => DiscardUnlock end) m)
  | DiscardClear c => Some (goto t (DiscardClose c) (clear_pending m))
  | DiscardClose c => Some (goto t DiscardUnlock (close c m))
  | DiscardUnlock => Some (goto t Discarded (with_h_mu None m))
  | _ => None
  end.

Definition run_accepted (t : nat) (p : place) (m : machine) : option machine :=
  match p with
  | AcceptedLock resp => lock_s t (AcceptedRead resp) m
  | AcceptedRead resp => Some (goto t (AcceptedUnlock resp (echAcceptedFrom (state m) resp)) m)
  | AcceptedUnlock _ b => Some (goto t (Accepted b) (with_s_mu None m))
  | _ => None
  end.

Definition run (t : nat) (p : place) (m : machine) : option machine :=
  match p with
  | GetLock | GetCheck | GetClear _ | GetUnlock _ => run_get t p m
  | RecordLock _ _ | RecordCheck _ _ | RecordSet _ _ | RecordUnlock _ _ | RecordClose _ _ => run_record t p m
  | DiscardLock | DiscardCheck | DiscardClear _ | DiscardClose _ | DiscardUnlock => run_discard t p m
  | AcceptedLock _ | AcceptedRead _ | AcceptedUnlock _ _ => run_accepted t p m
  | Dialing | Got _ | Discarded | Accepted _ => None
  end.

(** A call of [get], of a dial that has no handoff, of [discard] or of
    [echAcceptedFrom]; a step; and what the network gave a dial: an error or a new
    connection with its negotiation. *)
Inductive action :=
| CallGet (t : nat)
| CallDial (t : nat)
| CallDiscard (t : nat)
| CallAccepted (t : nat) (resp : option Response)
| Run (t : nat)
| DialReturns (t : nat) (r : res (handle * negotiation)).

Definition call (t : nat) (p : place) (m : machine) : option machine :=
  match goroutines m !! t with None => Some (goto t p m) | Some _ => None end.

Definition step (a : action) (m : machine) : option machine :=
  match a with
  | CallGet t => call t GetLock m
  | CallDial t => call t Dialing m
  | CallDiscard t => call t DiscardLock m
  | CallAccepted t resp => call t (AcceptedLock resp) m
  | Run t => p ← goroutines m !! t; run t p m
  | DialReturns t r =>
    match goroutines m !! t, r with
    | Some Dialing, Err e => Some (goto t (Got (Err e)) m)
    | Some Dialing, Ok (c, n) =>
      match negotiated m !! c with None => Some (goto t (RecordLock c n) (opened c n m)) | Some _ => None end
    | _, _ => None
    end
  end.

Definition reachable (key : gostr) (probe : option (handle * negotiation)) : machine -> Prop :=
  leads_to step (start key probe).

(** ** The invariant *)

(** Between [Lock] and [Unlock] of the one mutex and of the other. *)
Definition h_critical (p : place) : bool :=
  match p with
  | GetCheck | GetClear _ | GetUnlock _ | DiscardCheck | DiscardClear _ | DiscardClose _ | DiscardUnlock => true
  | _ => false
  end.
Definition s_critical (p : place) : bool :=
  match p with
  | RecordCheck _ _ | RecordSet _ _ | RecordUnlock _ _ | AcceptedRead _ | AcceptedUnlock _ _ => true
  | _ => false
  end.

(** The connection a goroutine alone has. *)
Definition hand (p : place) : option handle :=
  match p with
  | GetUnlock (Some c) | RecordLock c _ | RecordCheck c _ | RecordSet c _ | RecordUnlock c _ | RecordClose c _
  | Got (Ok c) | DiscardClose c => Some c
  | _ => None
  end.

(** Where the connections are: held for a dial, with a goroutine or closed. *)
Definition holdings (m : machine) : list handle :=
  holds (pending m) ++ having hand (goroutines m) ++ closed m.

(** The connection [c] negotiated what was recorded. *)
Definition matched (m : machine) (c : handle) : Prop :=
  cs_set (state m) = true /\ exists ech, negotiated m !! c = Some (cs_proto (state m), ech).

(** The answer [b] of [echAcceptedFrom] is about a connection; without a probe it may be
    the response's. *)
Definition answer_ok (probe : option gostr) (m : machine) (resp : option Response) (b : bool) : Prop :=
  (cs_set (state m) = true /\ exists c, negotiated m !! c = Some (cs_proto (state m), b)) \/
  (probe = None /\ b = echAcceptedFrom new_connState resp).

Definition place_ok (probe : option gostr) (m : machine) (p : place) : Prop :=
  match p with
  | GetClear c | DiscardClear c => pending m = Some c
  | GetUnlock None | DiscardClose _ | DiscardUnlock | Discarded => pending m = None
  | GetUnlock (Some c) => pending m = None /\ matched m c
  | RecordLock c n | RecordCheck c n => negotiated m !! c = Some n
  | RecordSet c n => negotiated m !! c = Some n /\ (cs_set (state m) = true -> cs_proto (state m) = n.1)
  | RecordUnlock c None | Got (Ok c) => matched m c
  | AcceptedUnlock resp b => answer_ok probe m resp b
  | Accepted b => exists resp, answer_ok probe m resp b
  | _ => True
  end.

Record good (probe : option gostr) (m : machine) : Prop := {
  good_h : guarded h_critical (h_mu m) (goroutines m);
  good_s : guarded s_critical (s_mu m) (goroutines m);
  good_place : forall t p, goroutines m !! t = Some p -> place_ok probe m p;
  good_pending : forall c, pending m = Some c -> matched m c;
  good_state : cs_set (state m) = true -> exists c, negotiated m !! c = Some (cs_proto (state m), cs_echAccepted (state m));
  good_probe : forall proto, probe = Some proto -> cs_set (state m) = true /\ cs_proto (state m) = proto;
  good_holdings : holdings m ≡ₚ (map_to_list (negotiated m)).*1
}.

(** ** Lemmas *)

Lemma record_ok proto ech s :
  snd (record proto ech s) = None <-> (cs_set s = true -> cs_proto s = proto).
Proof.
  unfold record. destruct (cs_set s); simpl; [|by split].
  destruct (decide (cs_proto s = proto)) as [E|E].
  - by rewrite bool_decide_eq_false_2 by auto.
  - rewrite bool_decide_eq_true_2 by done. split; [done|]. intros Hs. by destruct E; apply Hs.
Qed.

Lemma record_done proto ech s :
  (cs_set s = true -> cs_proto s = proto) ->
  record proto ech s =
    ({| cs_proto := proto; cs_echAccepted := ech; cs_set := true; cs_echKey := cs_echKey s |}, None).
Proof.
  intros Hs. unfold record. destruct (cs_set s); simpl; [|done]. by rewrite bool_decide_eq_false_2 by auto.
Qed.

(** What is recorded and negotiated only grows. *)
Definition grows (m m' : machine) : Prop :=
  (cs_set (state m) = true -> cs_set (state m') = true /\ cs_proto (state m') = cs_proto (state m)) /\
  negotiated m ⊆ negotiated m' /\ (forall c, pending m' = Some c -> pending m = Some c).

#[export] Instance grows_preorder : PreOrder grows.
Proof.
  split; [by intros m|]. intros m1 m2 m3 (H1 & H2 & H3) (H4 & H5 & H6). split_and!; [|by etrans|auto].
  intros Hs. destruct (H1 Hs) as [Hs2 <-]. auto.
Qed.

Lemma matched_grows m m' c : grows m m' -> matched m c -> matched m' c.
Proof.
  intros (Hs & Hn & _) [H1 [ech H2]]. destruct (Hs H1) as [H3 H4]. split; [done|]. exists ech. rewrite H4.
  by eapply lookup_weaken.
Qed.

Lemma answer_ok_grows probe m m' resp b : grows m m' -> answer_ok probe m resp b -> answer_ok probe m' resp b.
Proof.
  intros (Hs & Hn & _) [[H1 [c H2]]|?]; [left|by right]. destruct (Hs H1) as [H3 H4]. split; [done|]. exists c.
  rewrite H4. by eapply lookup_weaken.
Qed.

(** What a goroutine knows survives a step of another: while it is between the lock
    and the unlock of a mutex, nobody else changes what the mutex is for. *)
Lemma place_ok_grows probe m m' p :
  grows m m' -> (h_critical p = true -> pending m' = pending m) ->
  (s_critical p = true -> state m' = state m) -> place_ok probe m p -> place_ok probe m' p.
Proof.
  intros Hg Hh Hs. pose proof Hg as (_ & Hn & Hp).
  assert (pending m = None -> pending m' = None) as Hnone.
  { intros E. destruct (pending m') eqn:E'; [|done]. rewrite (Hp _ eq_refl) in E. done. }
  destruct p as [| |c|[c|]| |c n|c n|c n|c [e|]|c e|[c|e]| | |c|c| | |resp|resp|resp b|b]; simpl in *; rewrite ?Hh, ?Hs by done; try done;
    eauto using matched_grows, answer_ok_grows, lookup_weaken.
  - intros []. split; eauto using matched_grows.
  - intros []. split; [by eapply lookup_weaken|done].
  - intros []. eauto using answer_ok_grows.
Qed.

Lemma Permutation_balance {A} (p p' h h' c c' n n' r : list A) :
  p' ++ h' ++ c' ++ n ≡ₚ p ++ h ++ c ++ n' -> p ++ (h ++ r) ++ c ≡ₚ n ->
  (p' ++ (h' ++ r) ++ c') ++ n ≡ₚ n' ++ n.
Proof.
  intros H1 H2. trans ((p' ++ h' ++ c' ++ n) ++ r); [solve_Permutation|]. rewrite H1.
  trans ((p ++ (h ++ r) ++ c) ++ n'); [solve_Permutation|]. rewrite H2. apply Permutation_app_comm.
Qed.

(** A step of the goroutine [t] from [p] to [p'] keeps the invariant. *)
Lemma handoff_good_move probe m m' t p p' :
  good probe m -> goroutines m !! t = Some p -> goroutines m' = <[t := p']> (goroutines m) ->
  grows m m' -> place_ok probe m' p' ->
  (pending m' = pending m \/ h_critical p = true) ->
  (state m' = state m \/
   s_critical p = true /\
   exists c, negotiated m' !! c = Some (cs_proto (state m'), cs_echAccepted (state m'))) ->
  h_mu m' = (if h_critical p' then Some t else if h_critical p then None else h_mu m) ->
  (h_critical p' = true -> h_critical p = false -> h_mu m = None) ->
  s_mu m' = (if s_critical p' then Some t else if s_critical p then None else s_mu m) ->
  (s_critical p' = true -> s_critical p = false -> s_mu m = None) ->
  holds (pending m') ++ holds (hand p') ++ closed m' ++ (map_to_list (negotiated m)).*1 ≡ₚ
    holds (pending m) ++ holds (hand p) ++ closed m ++ (map_to_list (negotiated m')).*1 ->
  good probe m'.
Proof.
  intros Hg Ht Eg Hgr Hp Hpend Hst Eh Hh Es Hs Hown. split.
  - rewrite Eh, Eg. apply guarded_move; [apply Hg|done|done].
  - rewrite Es, Eg. apply guarded_move; [apply Hg|done|done].
  - intros s q. rewrite Eg. destruct (decide (s = t)) as [->|Hne].
    { rewrite lookup_insert_eq. by intros [= <-]. }
    rewrite lookup_insert_ne by done. intros Hq.
    apply (place_ok_grows probe m); [done| | |by apply (good_place _ m Hg s)].
    + intros Hc. destruct Hpend as [|Hcp]; [done|]. destruct Hne. by eapply (guarded_exclusive h_critical); try apply Hg.
    + intros Hc. destruct Hst as [|[Hcp _]]; [done|]. destruct Hne. by eapply (guarded_exclusive s_critical); try apply Hg.
  - intros c Hc. apply (matched_grows m); [done|]. by apply (good_pending _ m Hg), Hgr.
  - intros Hset. destruct Hst as [E|[_ ?]]; [|done]. rewrite E in *.
    destruct (good_state _ m Hg Hset) as [c Hc]. exists c. eapply lookup_weaken; [exact Hc|apply Hgr].
  - intros proto Hpr. destruct (good_probe _ m Hg proto Hpr) as [H1 H2]. destruct Hgr as [Hgr _].
    destruct (Hgr H1) as [H3 H4]. by rewrite H4.
  - unfold holdings. rewrite Eg, (having_move hand _ t p p' Ht).
    apply (Permutation_app_inv_r (map_to_list (negotiated m)).*1).
    pose proof (good_holdings _ m Hg) as Hho. unfold holdings in Hho. rewrite (having_at hand _ t p Ht) in Hho.
    apply (Permutation_balance _ _ _ _ _ _ _ _ _ Hown Hho).
Qed.

Lemma handoff_good_call probe m m' t p :
  good probe m -> call t p m = Some m' -> hand p = None -> h_critical p = false -> s_critical p = false ->
  place_ok probe m p -> good probe m'.
Proof.
  unfold call. intros Hg Hc Hh Hhc Hsc Hp. destruct (goroutines m !! t) eqn:Ht; simplify_eq.
  split; try apply Hg; simpl.
  - apply guarded_fresh; [apply Hg|done..].
  - apply guarded_fresh; [apply Hg|done..].
  - intros s q. destruct (decide (s = t)) as [->|Hne].
    + rewrite lookup_insert_eq. by intros [= <-].
    + rewrite lookup_insert_ne by done. apply (good_place _ m Hg).
  - unfold holdings. simpl. rewrite (having_fresh hand _ t p Ht), Hh. apply (good_holdings _ m Hg).
Qed.

Lemma grows_same m m' :
  state m' = state m -> negotiated m' = negotiated m -> pending m' = pending m -> grows m m'.
Proof. intros Hs Hn Hp. unfold grows. by rewrite Hs, Hn, Hp. Qed.

(** A step that only takes or gives back a mutex, or neither. *)
Lemma handoff_good_local probe m m' t p p' :
  good probe m -> goroutines m !! t = Some p -> goroutines m' = <[t := p']> (goroutines m) ->
  state m' = state m -> negotiated m' = negotiated m -> pending m' = pending m -> closed m' = closed m ->
  place_ok probe m' p' -> hand p' = hand p ->
  h_mu m' = (if h_critical p' then Some t else if h_critical p then None else h_mu m) ->
  (h_critical p' = true -> h_critical p = false -> h_mu m = None) ->
  s_mu m' = (if s_critical p' then Some t else if s_critical p then None else s_mu m) ->
  (s_critical p' = true -> s_critical p = false -> s_mu m = None) ->
  good probe m'.
Proof.
  intros Hg Ht Eg Es En Ep Ec Hp Eh. intros. apply (handoff_good_move probe m m' t p p'); try done.
  - by apply grows_same.
  - by left.
  - by left.
  - by rewrite En, Ep, Ec, Eh.
Qed.

Lemma mine_h probe m t p :
  good probe m -> goroutines m !! t = Some p -> h_critical p = true -> h_mu m = Some t.
Proof. intros Hg Ht Hp. apply (good_h _ m Hg). eauto. Qed.

Lemma mine_s probe m t p :
  good probe m -> goroutines m !! t = Some p -> s_critical p = true -> s_mu m = Some t.
Proof. intros Hg Ht Hp. apply (good_s _ m Hg). eauto. Qed.

(** [h.pending = nil], by the goroutine that then has the connection. *)
Lemma clear_good probe m t c p p' :
  good probe m -> goroutines m !! t = Some p -> pending m = Some c -> hand p = None -> hand p' = Some c ->
  h_critical p = true -> h_critical p' = true -> s_critical p = false -> s_critical p' = false ->
  place_ok probe (goto t p' (clear_pending m)) p' -> good probe (goto t p' (clear_pending m)).
Proof.
  intros Hg Ht Hp Eh Eh' Hc Hc' Hs Hs' Hok. pose proof (mine_h _ _ _ _ Hg Ht Hc) as Hm.
  apply (handoff_good_move probe m _ t p p'); simpl; try congruence; rewrite ?Hc, ?Hc', ?Hs, ?Hs'; auto; try done.
  rewrite Eh, Eh', Hp. done.
Qed.

(** [Close()], by the goroutine that has the connection. *)
Lemma close_good probe m t c p p' :
  good probe m -> goroutines m !! t = Some p -> hand p = Some c -> hand p' = None ->
  h_critical p' = h_critical p -> s_critical p' = s_critical p ->
  place_ok probe (goto t p' (close c m)) p' -> good probe (goto t p' (close c m)).
Proof.
  intros Hg Ht Eh Eh' Hc Hs Hok.
  apply (handoff_good_move probe m _ t p p'); simpl; try done; rewrite ?Hc, ?Hs; auto; try congruence.
  - destruct (h_critical p) eqn:E; [by eapply mine_h|done].
  - destruct (s_critical p) eqn:E; [by eapply mine_s|done].
  - rewrite Eh, Eh'. simpl. done.
Qed.

Lemma run_get_good probe m m' t p :
  good probe m -> goroutines m !! t = Some p -> run_get t p m = Some m' -> good probe m'.
Proof.
  intros Hg Ht Hr. pose proof (good_place _ m Hg t p Ht) as Hp.
  destruct p as [| |c|[c|]| |c n|c n|c n|c [e|]|c e|[c|e]| | |c|c| | |resp|resp|resp b|b]; try done; simpl in Hr, Hp.
  - unfold lock_h in Hr. destruct (h_mu m) eqn:Em; simplify_eq.
    by apply (handoff_good_local probe m _ t GetLock GetCheck).
  - simplify_eq. pose proof (mine_h _ _ _ _ Hg Ht eq_refl).
    destruct (pending m) as [c|] eqn:Ep.
    + by apply (handoff_good_local probe m _ t GetCheck (GetClear c)).
    + by apply (handoff_good_local probe m _ t GetCheck (GetUnlock None)).
  - simplify_eq. apply (clear_good probe m t c (GetClear c)); try done.
    split; [done|]. apply (good_pending _ m Hg c Hp).
  - simplify_eq. destruct Hp as [Hp Hc].
    by apply (handoff_good_local probe m _ t (GetUnlock (Some c)) (Got (Ok c))).
  - simplify_eq. by apply (handoff_good_local probe m _ t (GetUnlock None) Dialing).
Qed.

Lemma run_discard_good probe m m' t p :
  good probe m -> goroutines m !! t = Some p -> run_discard t p m = Some m' -> good probe m'.
Proof.
  intros Hg Ht Hr. pose proof (good_place _ m Hg t p Ht) as Hp.
  destruct p as [| |c|[c|]| |c n|c n|c n|c [e|]|c e|[c|e]| | |c|c| | |resp|resp|resp b|b]; try done; simpl in Hr, Hp.
  - unfold lock_h in Hr. destruct (h_mu m) eqn:Em; simplify_eq.
    by apply (handoff_good_local probe m _ t DiscardLock DiscardCheck).
  - simplify_eq. pose proof (mine_h _ _ _ _ Hg Ht eq_refl).
    destruct (pending m) as [c|] eqn:Ep.
    + by apply (handoff_good_local probe m _ t DiscardCheck (DiscardClear c)).
    + by apply (handoff_good_local probe m _ t DiscardCheck DiscardUnlock).
  - simplify_eq. by apply (clear_good probe m t c (DiscardClear c)).
  - simplify_eq. by apply (close_good probe m t c (DiscardClose c)).
  - simplify_eq. by apply (handoff_good_local probe m _ t DiscardUnlock Discarded).
Qed.

Lemma run_record_good probe m m' t p :
  good probe m -> goroutines m !! t = Some p -> run_record t p m = Some m' -> good probe m'.
Proof.
  intros Hg Ht Hr. pose proof (good_place _ m Hg t p Ht) as Hp.
  destruct p as [| |c|[c|]| |c n|c n|c n|c [e|]|c e|[c|e]| | |c|c| | |resp|resp|resp b|b]; try done; simpl in Hr, Hp.
  - unfold lock_s in Hr. destruct (s_mu m) eqn:Em; simplify_eq.
    by apply (handoff_good_local probe m _ t (RecordLock c n) (RecordCheck c n)).
  - simplify_eq. pose proof (mine_s _ _ _ _ Hg Ht eq_refl).
    destruct (snd (record n.1 n.2 (state m))) as [e|] eqn:Er.
    + by apply (handoff_good_local probe m _ t (RecordCheck c n) (RecordUnlock c (Some e))).
    + apply (handoff_good_local probe m _ t (RecordCheck c n) (RecordSet c n)); try done. simpl.
      by rewrite record_ok in Er.
  - simplify_eq. destruct Hp as [Hn Hs]. rewrite (record_done _ _ _ Hs). simpl.
    apply (handoff_good_move probe m _ t (RecordSet c n) (RecordUnlock c None)); simpl; try done; auto.
    + split_and!; [|done|done]. simpl. intros H1. by rewrite (Hs H1).
    + split; [done|]. exists n.2. simpl. rewrite Hn. by destruct n.
    + right. split; [done|]. exists c. rewrite Hn. by destruct n.
    + by eapply mine_s.
  - simplify_eq. by apply (handoff_good_local probe m _ t (RecordUnlock c (Some e)) (RecordClose c e)).
  - simplify_eq. by apply (handoff_good_local probe m _ t (RecordUnlock c None) (Got (Ok c))).
  - simplify_eq. by apply (close_good probe m t c (RecordClose c e)).
Qed.

Lemma run_accepted_good probe m m' t p :
  good probe m -> goroutines m !! t = Some p -> run_accepted t p m = Some m' -> good probe m'.
Proof.
  intros Hg Ht Hr. pose proof (good_place _ m Hg t p Ht) as Hp.
  destruct p as [| |c|[c|]| |c n|c n|c n|c [e|]|c e|[c|e]| | |c|c| | |resp|resp|resp b|b]; try done; simpl in Hr, Hp.
  - unfold lock_s in Hr. destruct (s_mu m) eqn:Em; simplify_eq.
    by apply (handoff_good_local probe m _ t (AcceptedLock resp) (AcceptedRead resp)).
  - simplify_eq. pose proof (mine_s _ _ _ _ Hg Ht eq_refl).
    apply (handoff_good_local probe m _ t (AcceptedRead resp) (AcceptedUnlock resp (echAcceptedFrom (state m) resp)));
      try done.
    simpl. unfold answer_ok, echAcceptedFrom. simpl. destruct (cs_set (state m)) eqn:Es.
    + left. split; [done|]. by apply (good_state _ m Hg).
    + right. split; [|done]. destruct probe as [proto|]; [|done]. destruct (good_probe _ m Hg proto eq_refl). congruence.
  - simplify_eq. apply (handoff_good_local probe m _ t (AcceptedUnlock resp b) (Accepted b)); try done. by exists resp.
Qed.

Lemma dial_good probe m t c n :
  good probe m -> goroutines m !! t = Some Dialing -> negotiated m !! c = None ->
  good probe (goto t (RecordLock c n) (opened c n m)).
Proof.
  intros Hg Ht Hc. apply (handoff_good_move probe m _ t Dialing (RecordLock c n)); simpl; try done; auto.
  - split_and!; [done|by apply insert_subseteq|done].
  - by rewrite lookup_insert_eq.
  - rewrite map_to_list_insert by done. simpl. solve_Permutation.
Qed.

Lemma handoff_step_good probe a m m' : good probe m -> step a m = Some m' -> good probe m'.
Proof.
  intros Hg Hs. destruct a as [t|t|t|t resp|t|t r]; cbn [step] in Hs;
    [by eapply handoff_good_call..| |].
  - destruct (goroutines m !! t) as [p|] eqn:Ht; simpl in Hs; [|done].
    destruct p; try done; by eauto using run_get_good, run_record_good, run_discard_good, run_accepted_good.
  - destruct (goroutines m !! t) as [[]|] eqn:Ht; try done.
    destruct r as [[c n]|e]; [destruct (negotiated m !! c) eqn:Hc; [done|]|]; simplify_eq.
    + by apply dial_good.
    + by apply (handoff_good_local probe m _ t Dialing (Got (Err e))).
Qed.

(** The protocol of the connection [roundTripper] dialed. *)
Definition probed (probe : option (handle * negotiation)) : option gostr := (fun p => p.2.1) <$> probe.

Lemma start_good key probe : good (probed probe) (start key probe).
Proof.
  split; simpl; try apply guarded_empty.
  - intros t p Hp. by rewrite lookup_empty in Hp.
  - destruct probe as [[c [proto ech]]|]; [|done]. simpl. intros c' [= <-]. split; [done|]. exists ech.
    apply lookup_insert_eq.
  - destruct probe as [[c [proto ech]]|]; [|done]. intros _. exists c. apply lookup_insert_eq.
  - destruct probe as [[c [proto ech]]|]; simpl; [|done]. by intros proto' [= <-].
  - unfold holdings. simpl. destruct probe as [[c n]|]; simpl; [|done].
    rewrite map_to_list_singleton. done.
Qed.

Lemma handoff_reachable_good key probe m : reachable key probe m -> good (probed probe) m.
Proof. intros [l Hl]. eapply schedule_invariant; [by intros; eapply handoff_step_good|exact Hl|apply start_good]. Qed.

(** ** What is left to do *)

Definition remaining (p : place) : nat :=
  match p with
  | GetLock => 10 | GetCheck => 9 | GetClear _ => 2 | GetUnlock (Some _) => 1 | GetUnlock None => 7
  | Dialing => 6 | RecordLock _ _ => 5 | RecordCheck _ _ => 4 | RecordSet _ _ => 3 | RecordUnlock _ _ => 2
  | RecordClose _ _ => 1 | Got _ => 0
  | DiscardLock => 5 | DiscardCheck => 4 | DiscardClear _ => 3 | DiscardClose _ => 2 | DiscardUnlock => 1
  | Discarded => 0
  | AcceptedLock _ => 3 | AcceptedRead _ => 2 | AcceptedUnlock _ _ => 1 | Accepted _ => 0
  end.

Definition ended (p : place) : Prop :=
  match p with Got _ | Discarded | Accepted _ => True | _ => False end.

#[export] Instance ended_dec p : Decision (ended p).
Proof. destruct p; simpl; apply _. Defined.

Definition own (a : action) : bool := match a with Run _ | DialReturns _ _ => true | _ => false end.
Definition is_call (a : action) : bool := negb (own a).

Definition left_ (m : machine) : nat := steps_left remaining (goroutines m).

(** A step of a goroutine moves it forward and no other. *)
Lemma handoff_run_moves t p m m' :
  run t p m = Some m' ->
  exists p', goroutines m' = <[t := p']> (goroutines m) /\ (remaining p' < remaining p)%nat.
Proof.
  destruct p as [| |c|[c|]| |c n|c n|c n|c [e|]|c e|[c|e]| | |c|c| | |resp|resp|resp b|b]; simpl;
    unfold lock_h, lock_s; intros Hr; try done;
    repeat match type of Hr with context [match ?x with _ => _ end] => destruct x end; simplify_eq;
    (eexists; split; [reflexivity|simpl; lia]).
Qed.

Lemma handoff_step_uses a m m' :
  step a m = Some m' -> is_call a = false ->
  if own a then (left_ m' < left_ m)%nat else (left_ m' <= left_ m)%nat.
Proof.
  intros Hs Hc. unfold left_. destruct a as [t|t|t|t resp|t|t r]; try done; cbn [step own] in *.
  - destruct (goroutines m !! t) as [p|] eqn:Ht; simpl in Hs; [|done].
    apply handoff_run_moves in Hs as (p' & -> & Hlt). pose proof (steps_left_move remaining _ t p p' Ht). lia.
  - destruct (goroutines m !! t) as [[]|] eqn:Ht; try done.
    destruct r as [[c n]|e]; [destruct (negotiated m !! c) eqn:E; [done|]|]; simplify_eq; simpl.
    + pose proof (steps_left_move remaining _ t _ (RecordLock c n) Ht). simpl in *. lia.
    + pose proof (steps_left_move remaining _ t _ (Got (Err e)) Ht). simpl in *. lia.
Qed.

(** Whoever is between Lock and Unlock can go on. *)
Lemma critical_moves m t p :
  goroutines m !! t = Some p -> h_critical p || s_critical p = true -> is_Some (step (Run t) m).
Proof.
  intros Ht Hc. cbn [step]. rewrite Ht. simpl.
  destruct p as [| |c|[c|]| |c n|c n|c n|c [e|]|c e|[c|e]| | |c|c| | |resp|resp|resp b|b]; try done; simpl;
    by eexists.
Qed.

(** Whoever waits waits for a goroutine that can move. *)
Lemma handoff_waits_for probe m t p :
  good probe m -> goroutines m !! t = Some p -> ~ ended p ->
  exists a, own a = true /\ is_call a = false /\ is_Some (step a m).
Proof.
  intros Hg Ht Hp.
  assert (forall s q, goroutines m !! s = Some q -> h_critical q || s_critical q = true ->
            exists a, own a = true /\ is_call a = false /\ is_Some (step a m)) as Hcrit.
  { intros s q Hs Hq. exists (Run s). split_and!; [done..|by eapply critical_moves]. }
  destruct (h_critical p || s_critical p) eqn:Hc; [by eapply Hcrit|].
  assert (forall next, is_Some (lock_h t next m) \/ exists s q, goroutines m !! s = Some q /\ h_critical q = true) as Hlh.
  { intros next. unfold lock_h. destruct (h_mu m) as [s|] eqn:E; [right|left; by eexists].
    apply (good_h _ m Hg) in E as (q & ? & ?). eauto. }
  assert (forall next, is_Some (lock_s t next m) \/ exists s q, goroutines m !! s = Some q /\ s_critical q = true) as Hls.
  { intros next. unfold lock_s. destruct (s_mu m) as [s|] eqn:E; [right|left; by eexists].
    apply (good_s _ m Hg) in E as (q & ? & ?). eauto. }
  assert (is_Some (run t p m) -> exists a, own a = true /\ is_call a = false /\ is_Some (step a m)) as Hrun.
  { intros Hr. exists (Run t). split_and!; [done..|]. cbn [step]. by rewrite Ht. }
  destruct p as [| |c|[c|]| |c n|c n|c n|c [e|]|c e|[c|e]| | |c|c| | |resp|resp|resp b|b]; try done; simpl in Hrun.
  - destruct (Hlh GetCheck) as [?|(s & q & ? & E)]; [auto|]. apply (Hcrit s q); [done|by rewrite E].
  - exists (DialReturns t (Err ContextCanceled)). split_and!; [done..|]. cbn [step]. rewrite Ht. by eexists.
  - destruct (Hls (RecordCheck c n)) as [?|(s & q & ? & E)]; [auto|]. apply (Hcrit s q); [done|by rewrite E, orb_true_r].
  - apply Hrun. by eexists.
  - destruct (Hlh DiscardCheck) as [?|(s & q & ? & E)]; [auto|]. apply (Hcrit s q); [done|by rewrite E].
  - destruct (Hls (AcceptedRead resp)) as [?|(s & q & ? & E)]; [auto|]. apply (Hcrit s q); [done|by rewrite E, orb_true_r].
Qed.

(** ** Properties *)

(** C7: However the dials of a request, the one [discard] and what reads the result
    interleave: a connection goes to one dial only, and the code neither closes nor
    keeps one it gave away; nothing is closed twice; and when every call is over and
    [discard] was one of them, each connection went to a dial or was closed. *)
Theorem handoff_once key probe m :
  reachable key probe m ->
  (forall s t c, goroutines m !! s = Some (Got (Ok c)) -> goroutines m !! t = Some (Got (Ok c)) -> s = t) /\
  (forall t c, goroutines m !! t = Some (Got (Ok c)) -> c ∉ closed m /\ pending m <> Some c) /\
  NoDup (closed m) /\
  ((forall t p, goroutines m !! t = Some p -> ended p) -> (exists t, goroutines m !! t = Some Discarded) ->
   forall c, is_Some (negotiated m !! c) ->
     c ∈ closed m \/ exists t, goroutines m !! t = Some (Got (Ok c))).
Proof.
  intros Hg%handoff_reachable_good. pose proof (good_holdings _ m Hg) as Hh.
  assert (NoDup (holdings m)) as Hn by (rewrite Hh; apply NoDup_fst_map_to_list).
  unfold holdings in *. apply NoDup_app in Hn as (_ & Hp & [Hn1 [Hn2 Hn3]]%NoDup_app).
  assert (forall t c, goroutines m !! t = Some (Got (Ok c)) -> c ∈ having hand (goroutines m)) as Hin.
  { intros t c Ht. apply having_elem. by exists t, (Got (Ok c)). }
  split_and!; [| |exact Hn3|].
  - intros s t c Hs Ht. by eapply having_unique.
  - intros t c Ht. split; [by eapply Hn2, Hin|]. intros E. rewrite E in Hp. eapply (Hp c); [by left|].
    rewrite elem_of_app. left. by eapply Hin.
  - intros Hend [t Ht] c [n Hc]. apply (good_place _ m Hg) in Ht. simpl in Ht. rewrite Ht in Hh. simpl in Hh.
    assert (c ∈ (map_to_list (negotiated m)).*1) as Hm.
    { apply list_elem_of_fmap. exists (c, n). split; [done|]. by apply elem_of_map_to_list. }
    rewrite <- Hh, elem_of_app, having_elem in Hm. destruct Hm as [(s & p & Hs & Hc')|?]; [right|by left].
    exists s. pose proof (Hend _ _ Hs) as He. destruct p as [| |?|[?|]| | | | | | |[?|]| | | | | | | | | |]; try done.
    simpl in Hc'. by simplify_eq.
Qed.

(** C8: Every connection a dial hands over negotiated one protocol, and when
    [roundTripper] dialed first, the protocol it chose the transport by: no other
    version reaches the transport, in whatever order the dials record theirs. What
    [echAcceptedFrom] answers is then the acceptance of one of these connections. *)
Theorem one_protocol key probe m :
  reachable key probe m ->
  (forall t c, goroutines m !! t = Some (Got (Ok c)) -> exists ech, negotiated m !! c = Some (cs_proto (state m), ech)) /\
  forall c0 proto0 ech0, probe = Some (c0, (proto0, ech0)) ->
    proto0 = (snapshot (state (start key probe))).1 /\ cs_proto (state m) = proto0 /\
    forall t b, goroutines m !! t = Some (Accepted b) -> exists c, negotiated m !! c = Some (proto0, b).
Proof.
  intros Hg%handoff_reachable_good. split.
  - intros t c Ht. by destruct (good_place _ m Hg t _ Ht) as [_ ?].
  - intros c0 proto0 ech0 ->. destruct (good_probe _ m Hg proto0 eq_refl) as [Hs <-]. split_and!; [|done|].
    + by destruct (good_probe _ _ (start_good key (Some (c0, (cs_proto (state m), ech0)))) _ eq_refl).
    + intros t b Ht. destruct (good_place _ m Hg t _ Ht) as [resp [[_ ?]|[? _]]]; done.
Qed.

(** No call waits for ever: from every reachable state only so many steps of
    the calls under way are possible, and some schedule of them ends every call. *)
Theorem handoff_returns key probe m :
  reachable key probe m ->
  (forall l m', schedule step l m = Some m' -> Forall (fun a => own a = true) l ->
     (length l + left_ m' <= left_ m)%nat) /\
  exists l m', Forall (fun a => own a = true) l /\ schedule step l m = Some m' /\
    forall t p, goroutines m' !! t = Some p -> ended p.
Proof.
  intros Hg%handoff_reachable_good. set (I := good (probed probe)).
  assert (forall a m1 m2, I m1 -> step a m1 = Some m2 -> I m2) as Hkeep by (intros; by eapply handoff_step_good).
  split.
  - intros l m' Hs Hl. apply (schedule_own_bounded step I left_ own is_call); try done.
    + intros a m1 m2 _. apply handoff_step_uses.
    + unfold is_call. by intros a ->.
  - apply (schedule_finishes step I (fun m => forall t p, goroutines m !! t = Some p -> ended p)
      left_ own is_call Hkeep (fun a m1 m2 _ => handoff_step_uses a m1 m2)); [|done].
    intros m1 H1. destruct (all_or_one ended (goroutines m1)) as [?|(t & p & Ht & Hp)]; [by left|right].
    by eapply handoff_waits_for.
Qed.

(** ** Witnesses *)

(** Two calls of [get] race for a connection that negotiated HTTP/2; one takes it and
    the other dials, a third dials a server that speaks HTTP/1.1 and is refused, while
    [discard] and [echAcceptedFrom] run. *)
Definition example_probe : option (handle * negotiation) := Some (3%nat, ("h2" : gostr, true)).

Definition example_script : list action :=
  [CallGet 0; CallGet 1; CallDiscard 2; CallDial 3; CallAccepted 4 None; Run 0; Run 0; Run 0; Run 0; Run 1; Run 1;
   Run 1; DialReturns 3 (Ok (8%nat, ("http/1.1" : gostr, false))); Run 2;
   DialReturns 1 (Ok (5%nat, ("h2" : gostr, false))); Run 1; Run 1; Run 1; Run 1; Run 3; Run 3; Run 3; Run 3; Run 2;
   Run 2; Run 4; Run 4; Run 4].

Definition example_end : machine :=
  default (start [] example_probe) (schedule step example_script (start [] example_probe)).

Lemma example_reachable : reachable [] example_probe example_end.
Proof. exists example_script. vm_compute. reflexivity. Qed.

Lemma example_ended t p : goroutines example_end !! t = Some p -> ended p.
Proof.
  assert (map_Forall (fun _ p => ended p) (goroutines example_end)) as H.
  { eapply bool_decide_eq_true_1. vm_compute. reflexivity. }
  apply H.
Qed.

Lemma handoff_once_witness :
  (8%nat ∈ closed example_end \/ exists t, goroutines example_end !! t = Some (Got (Ok 8%nat))) /\
  3%nat ∉ closed example_end.
Proof.
  destruct (handoff_once [] example_probe example_end example_reachable) as (_ & H2 & _ & H4). split.
  - apply H4; [exact example_ended|exists 2%nat; vm_compute; reflexivity|by eexists; vm_compute].
  - apply (H2 0%nat 3%nat). vm_compute. reflexivity.
Defined.

Lemma one_protocol_witness :
  (exists ech, negotiated example_end !! 5%nat = Some (cs_proto (state example_end), ech)) /\
  cs_proto (state example_end) = ("h2" : gostr).
Proof.
  destruct (one_protocol [] example_probe example_end example_reachable) as [H1 H2]. split.
  - apply (H1 1%nat). vm_compute. reflexivity.
  - exact (proj1 (proj2 (H2 3%nat ("h2" : gostr) true eq_refl))).
Defined.

Lemma handoff_returns_witness :
  exists l m', Forall (fun a => own a = true) l /\ schedule step l example_end = Some m' /\
    forall t p, goroutines m' !! t = Some p -> ended p.
Proof. exact (proj2 (handoff_returns [] example_probe example_end example_reachable)). Defined.
