(* ===== verification/Resolver.v ===== *)
(** * ECH acquisition and DNS over HTTPS ([libv2ray_fetch.go], [libv2ray_fetch_probe.go])

    The query over a transport of its own, the two ways to get an ECHConfigList, and
    [ResolveDoH]. Messages and their wire format are those of [miekg/dns]. *)

From stdpp Require Import gmap.
From S2P Require Import Prelude GoString GoCodec GoNet GoHTTP Xray Options Headers EchConfig Validate Net EchCache Transport.
Open Scope Z_scope.

(** ** Messages *)

Inductive svcb_value := SVCBECHConfig (ECH : list byte) | SVCBOther.

Inductive rdata :=
| RR_A (ip : list byte)
| RR_AAAA (ip : list byte)
| RR_HTTPS (values : list svcb_value)
| RR_Other.

(** A record: its header, and the texts [String()] gives for both. *)
Record RR := {
  rr_Name : gostr;
  rr_Rrtype : Z;
  rr_Ttl : Z;
  rr_data : rdata;
  rr_String : gostr;
  hdr_String : gostr
}.

Record dnsAnswer := { da_Name : gostr; da_Type : gostr; da_TTL : Z; da_Value : gostr }.

Class DnsLib := {
  dns_Msg : Type;
  (** [new(dns.Msg)] after [SetQuestion(name, type)]. *)
  SetQuestion : gostr -> Z -> dns_Msg;
  clear_Id : dns_Msg -> dns_Msg;
  SetEdns0 : Z -> bool -> dns_Msg -> dns_Msg;
  IsEdns0 : dns_Msg -> bool;
  append_padding : list byte -> dns_Msg -> dns_Msg;
  Pack : dns_Msg -> res (list byte);
  Unpack : list byte -> res dns_Msg;
  dns_Answer : dns_Msg -> list RR;
  dns_Rcode : dns_Msg -> Z;
  Fqdn : gostr -> gostr;
  TypeHTTPS : Z;
  StringToType : gostr -> option Z;
  TypeToString : Z -> gostr;
  RcodeToString : Z -> gostr;
  (** [net.IP.String] and [json.Marshal] of the answers. *)
  IP_String : list byte -> gostr;
  json_Answers : list dnsAnswer -> res gostr
}.

Section Resolver.
Context `{XrayLib} `{NetURL} `{Unicode} `{IntWidth} `{Cryptobyte} `{DnsLib}.

(** The first key of an answer for [domain]. *)
Fixpoint first_ECH (values : list svcb_value) : option (list byte) :=
  match values with
  | [] => None
  | SVCBECHConfig (b :: l) :: _ => Some (b :: l)
  | _ :: values => first_ECH values
  end.

Fixpoint extract_loop (answers : list RR) (domain : gostr) : list byte * Z :=
  match answers with
  | [] => ([], 0)
  | a :: answers =>
    match rr_data a with
    | RR_HTTPS values =>
      if negb (EqualFold (rr_Name a) (Fqdn domain)) then extract_loop answers domain
      else match first_ECH values with
           | Some l => (l, rr_Ttl a)
           | None => extract_loop answers domain
           end
    | _ => extract_loop answers domain
    end
  end.

Definition extractECH (reply : option dns_Msg) (domain : gostr) : list byte * Z :=
  match reply with
  | None => ([], 0)
  | Some reply => extract_loop (dns_Answer reply) domain
  end.

(** Reference definitions: the keys of a record, and those of an answer. *)
Definition ech_key (v : svcb_value) : option (list byte) :=
  match v with SVCBECHConfig (b :: l) => Some (b :: l) | _ => None end.

Definition ech_records (domain : gostr) (a : RR) : list (list byte * Z) :=
  match rr_data a with
  | RR_HTTPS values =>
    if EqualFold (rr_Name a) (Fqdn domain) then map (fun l => (l, rr_Ttl a)) (omap ech_key values) else []
  | _ => []
  end.

(** ** The exchange *)

(** What [dnsExchange] returns: a reply or an error, the protocol and whether ECH
    was accepted. *)
Record exchanged := { dx_reply : res dns_Msg; dx_proto : gostr; dx_ech : bool }.

Definition exchange_failed (e : error) : exchanged := {| dx_reply := Err e; dx_proto := []; dx_ech := false |}.

(** The query that is sent: no id, EDNS0 and 100 to 300 bytes of padding. *)
Definition padded (msg : dns_Msg) : N dns_Msg :=
  let msg := SetEdns0 4096 false (clear_Id msg) in
  if IsEdns0 msg then n ← RandBetween 100 300; mret (append_padding (replicate (Z.to_nat n) x00) msg)
  else mret msg.

(** From the response on, with the deferred [resp.Body.Close()]. *)
Definition read_reply (resp : Response) (ech : bool) : N exchanged :=
  let proto := resp_Proto resp in
  let out r := {| dx_reply := r; dx_proto := proto; dx_ech := ech |} in
  _ ← body_close;
  mret (out (
    if negb (StatusCode resp =? 200) then
      let msg := TrimSpace (LimitReader (resp_Body resp) 512).1 in
      if bool_decide (msg <> [])
      then Err (Errorf "doh query failed with status %d: %s" [AInt (StatusCode resp); AStr msg] None)
      else Err (Errorf "doh query failed with status %d" [AInt (StatusCode resp)] None)
    else
      body ← ReadAll (LimitReader (resp_Body resp) maxDNSBytes);
      match Unpack body with
      | Err e => Err (Errorf "malformed doh response: %w" [] (Some e))
      | Ok reply => Ok reply
      end)).

(** From the transport on; the caller runs the deferred [cleanup()]. *)
Definition exchange_over (o : transportOptions) (server : gostr) (wire : list byte) (rt : round_tripper)
    (st : rt_state) (ca : cache) : N (cache * rt_state * exchanged) :=
  match NewRequest_error "POST" server with
  | Some e => mret (ca, st, exchange_failed e)
  | None =>
    kvs ← range_map (Headers o);
    '(st, r) ← client_do o rt st
      {| req_Method := "POST"; req_URL := server; req_Header := applyDoHHeaders kvs o ∅; req_Body := wire |};
    match r with
    | Err e =>
      let ca := if echEnabled o && echRejected e then echInvalidate (cs_echKey (rs_conn st)) ca else ca in
      mret (ca, st, exchange_failed e)
    | Ok resp =>
      x ← read_reply resp (echAcceptedFrom (rs_conn st) (Some resp));
      mret (ca, st, x)
    end
  end.

Definition dnsExchange (acquire : gostr -> cache -> N (cache * res (list byte * gostr)))
    (o : transportOptions) (server : gostr) (msg : dns_Msg) (ca : cache) : N (cache * exchanged) :=
  match url_Parse server with
  | Err e => mret (ca, exchange_failed (Errorf "invalid doh server %q: %w" [AStr server] (Some e)))
  | Ok su =>
    if bool_decide (u_Scheme su <> ("https" : gostr)) && bool_decide (u_Scheme su <> ("http" : gostr))
    then mret (ca, exchange_failed (Errorf "doh server must be http(s), got %q" [AStr (u_Scheme su)] None))
    else
      msg ← padded msg;
      match Pack msg with
      | Err e => mret (ca, exchange_failed e)
      | Ok wire =>
        '(ca, tr) ← roundTripper acquire o su new_connState ca;
        match tr with
        | Err e => mret (ca, exchange_failed e)
        | Ok (rt, st) =>
          '(ca, st, x) ← exchange_over o server wire rt st ca;
          _ ← cleanup rt st;
          mret (ca, x)
        end
      end
  end.

(** ** The probe *)

Definition probe_config (o : transportOptions) (publicName : gostr) (configList : list byte) : tls_config := {|
  tc_ServerName := publicName;
  tc_InsecureSkipVerify := AllowInsecure o;
  tc_NextProtos := ["h2"; "http/1.1"];
  tc_ECHConfigList := configList;
  tc_MinTLS13 := true;
  tc_RejectionUnverified := AllowInsecure o;
  tc_NameToVerify := if bool_decide (Fingerprint o <> []) then publicName else []
|}.

(** What the handshake of the probe says: the [retry_configs] of a rejection. *)
Definition retry_configs (stack : tls_stack) (r : res (gostr * bool)) : res (list byte) :=
  match r with
  | Ok _ => Ok []
  | Err e =>
    match errors_find (is_ECHRejectionError stack) e with
    | Some (ECHRejectionError _ l) => Ok l
    | _ => Err e
    end
  end.

Definition judge_retry (publicName hostPort : gostr) (r : res (list byte)) : res (list byte * Z) :=
  match r with
  | Err e => Err (Errorf "ECH probe to %s as %s failed: %w" [AStr hostPort; AStr publicName] (Some e))
  | Ok l =>
    if bool_decide (l = [])
    then Err (Errorf "ECH probe to %s returned no retry_configs: %s is probably not ECH-enabled"
                [AStr hostPort; AStr publicName] None)
    else if negb (looksLikeECHConfigList l)
    then Err (Errorf "ECH probe to %s returned a malformed ECHConfigList" [AStr hostPort] None)
    else Ok (l, echProbeTTL)
  end.

Definition echProbe (o : transportOptions) (publicName hostPort : gostr) : N (res (list byte * Z)) :=
  configList ←? lift_base (bogusECHConfigList publicName);
  frag ←? mret (fragmentConfig o);
  conn ← rawDial o hostPort frag;
  match conn with
  | Err e => mret (Err (Errorf "ECH probe could not reach %s: %w" [AStr hostPort] (Some e)))
  | Ok c =>
    dl ← ctx_deadline;
    _ ← (if dl : bool then set_deadline c true else mret tt);
    r ← (if bool_decide (Fingerprint o <> []) then
           match GetFingerprint (Fingerprint o) with
           | None => mret (Err (Errorf "unknown fingerprint %q" [AStr (Fingerprint o)] None))
           | Some fp =>
             r ← tls_handshake c (Some fp) (probe_config o publicName configList);
             mret (judge_retry publicName hostPort (retry_configs UTLS r))
           end
         else
           r ← tls_handshake c None (probe_config o publicName configList);
           mret (judge_retry publicName hostPort (retry_configs GoTLS r)));
    _ ← close_conn c;
    mret r
  end.

(** ** Acquisition *)

Definition pipe : gostr := "|".

(** [echAcquire], with [fetch] as a computation: the function of [EchCache] with the
    clock read where it reads it. *)
Definition echAcquire_run (ca : cache) (key : gostr) (fetch : cache -> N (cache * res (list byte * Z)))
    : N (cache * outcome) :=
  t1 ← lift_base now;
  match echCacheLoad ca key t1 with
  | Some o => mret (ca, o)
  | None =>
    t2 ← lift_base now;
    match echCacheLoad ca key t2 with
    | Some o => mret (ca, o)
    | None =>
      '(ca, r) ← fetch ca;
      t3 ← lift_base now;
      let '(e, o) := echStored r t3 in mret (store_opt key e ca, o)
    end
  end.

(** The look-up of [fetch] for a DoH server. *)
Definition fetch_doh (exchange : gostr -> dns_Msg -> cache -> N (cache * exchanged)) (doh domain : gostr) (ca : cache)
    : N (cache * res (list byte * Z)) :=
  '(ca, x) ← exchange doh (SetQuestion (Fqdn domain) TypeHTTPS) ca;
  mret (ca,
    match dx_reply x with
    | Err e => Err (Errorf "ECH lookup for %s failed: %w" [AStr domain] (Some e))
    | Ok reply =>
      let '(l, ttl) := extractECH (Some reply) domain in
      if bool_decide (l = []) then Err (Errorf "no ECH record for %s: an HTTPS/type-65 record with an ech key is required" [AStr domain] None) else Ok (l, ttl)
    end).

Definition acquired (key : gostr) (r : outcome) : res (list byte * gostr) :=
  match r with (_, Some e) => Err e | (l, None) => Ok (l, key) end.

(** The look-up runs with [lookupOpts], whose own call of [echConfigList] returns at
    once: one level of [depth] is enough. *)
Fixpoint echConfigList (depth : nat) (o : transportOptions) (host : gostr) (ca : cache)
    : N (cache * res (list byte * gostr)) :=
  if negb (echEnabled o) then mret (ca, Ok ([], []))
  else match Ech o with
  | None => mret (ca, Ok ([], []))
  | Some e =>
    if bool_decide (ech_ConfigList e <> []) then
      mret (ca,
        match b64_decode StdEncoding (ech_ConfigList e) with
        | None => Err (Errorf "invalid ech.configList: %w" [] (Some (OtherError "illegal base64 data")))
        | Some l =>
          if negb (looksLikeECHConfigList l)
          then Err (Errorf "invalid ech.configList: not a well-formed ECHConfigList" [] None)
          else Ok (l, [])
        end)
    else if bool_decide (ech_Probe e <> []) then
      match parseECHProbe (ech_Probe e) with
      | Err e => mret (ca, Err e)
      | Ok (publicName, hostPort) =>
        let key := ("probe|" : gostr) ++ publicName ++ pipe ++ hostPort ++ pipe ++ Proxy o in
        '(ca, r) ← echAcquire_run ca key (fun ca => r ← echProbe (lookupOpts o) publicName hostPort; mret (ca, r));
        mret (ca, acquired key r)
      end
    else
      let domain := if bool_decide (ech_Domain e = []) then host else ech_Domain e in
      let key := ("doh|" : gostr) ++ domain ++ pipe ++ ech_DoH e ++ pipe ++ Proxy o in
      let exchange := match depth with
                      | O => fun _ _ ca => mret (ca, exchange_failed (OtherError "echConfigList"))
                      | S depth => dnsExchange (echConfigList depth (lookupOpts o)) (lookupOpts o)
                      end in
      '(ca, r) ← echAcquire_run ca key (fetch_doh exchange (ech_DoH e) domain);
      mret (ca, acquired key r)
  end.

(** ** ResolveDoH *)

Record dohOptions := {
  doh_transport : transportOptions;
  doh_Domain : gostr;
  doh_Type : gostr;
  doh_Server : gostr
}.

(** [RespError] is [None] where the source leaves it empty. *)
Record DNSResult := {
  dns_Answers : gostr;
  dns_IPs : gostr;
  dns_RcodeName : gostr;
  dns_TTL : Z;
  dns_Proto : gostr;
  dns_EchAccepted : bool;
  dns_RespError : option error
}.

Definition dns_failed (e : error) (proto : gostr) (ech : bool) : DNSResult := {|
  dns_Answers := []; dns_IPs := []; dns_RcodeName := []; dns_TTL := 0; dns_Proto := proto;
  dns_EchAccepted := ech; dns_RespError := Some e |}.

Definition answer_of (a : RR) : dnsAnswer := {|
  da_Name := TrimSuffix (rr_Name a) ("." : gostr); da_Type := TypeToString (rr_Rrtype a); da_TTL := rr_Ttl a;
  da_Value := TrimSpace (TrimPrefix (rr_String a) (hdr_String a)) |}.

Definition ip_of (a : RR) : option gostr :=
  match rr_data a with RR_A ip | RR_AAAA ip => Some (IP_String ip) | _ => None end.

(** [i] counts the answers passed; the accumulators are the locals of the source. *)
Fixpoint summarize_loop (i : nat) (answers : list RR) (out : list dnsAnswer) (ips : list gostr) (ttl : Z)
    : list dnsAnswer * list gostr * Z :=
  match answers with
  | [] => (out, ips, ttl)
  | a :: answers =>
    let ttl := if (i =? 0)%nat then wrapS int_bits (rr_Ttl a) else ttl in
    let out := out ++ [answer_of a] in
    let ips := match ip_of a with Some ip => ips ++ [ip] | None => ips end in
    summarize_loop (S i) answers out ips ttl
  end.

Definition summarizeAnswers (reply : dns_Msg) : gostr * list gostr * Z :=
  let '(out, ips, ttl) := summarize_loop 0 (dns_Answer reply) [] [] 0 in
  match json_Answers out with
  | Err _ => ("[]" : gostr, ips, ttl)
  | Ok b => (b, ips, ttl)
  end.

Definition ResolveDoH (unmarshal : gostr -> res dohOptions) (json : gostr) (ca : cache) : N (cache * DNSResult) :=
  match unmarshal json with
  | Err e => mret (ca, dns_failed (Errorf "invalid options json: %w" [] (Some e)) [] false)
  | Ok opts =>
    let o := doh_transport opts in
    if bool_decide (doh_Domain opts = []) then mret (ca, dns_failed (OtherError "domain is required") [] false)
    else if bool_decide (doh_Server opts = []) then mret (ca, dns_failed (OtherError "server is required (a DoH url, e.g. https://1.1.1.1/dns-query)") [] false)
    else match validate o with
    | Err e => mret (ca, dns_failed e [] false)
    | Ok _ =>
      let qtypeName := ToUpper (doh_Type opts) in
      let qtypeName := if bool_decide (qtypeName = []) then "A" : gostr else qtypeName in
      match StringToType qtypeName with
      | None => mret (ca, dns_failed (Errorf "unknown record type %s" [AStr qtypeName] None) [] false)
      | Some qtype =>
        '(ca, x) ← dnsExchange (echConfigList 1 o) o (doh_Server opts) (SetQuestion (Fqdn (doh_Domain opts)) qtype) ca;
        mret (ca,
          match dx_reply x with
          | Err e => dns_failed e (dx_proto x) (dx_ech x)
          | Ok reply =>
            let '(answers, ips, ttl) := summarizeAnswers reply in
            {| dns_Answers := answers; dns_IPs := Join ips ("," : gostr);
               dns_RcodeName := RcodeToString (dns_Rcode reply); dns_TTL := ttl; dns_Proto := dx_proto x;
               dns_EchAccepted := dx_ech x; dns_RespError := None |}
          end)
      end
    end
  end.

(** ** Lemmas *)

Lemma first_ECH_head values : first_ECH values = head (omap ech_key values).
Proof. induction values as [|[[|b l]|] values IH]; simpl; done. Qed.

Lemma extract_loop_head answers domain :
  extract_loop answers domain = default ([], 0) (head (flat_map (ech_records domain) answers)).
Proof.
  induction answers as [|a answers IH]; simpl; [done|]. unfold ech_records at 1.
  destruct (rr_data a) as [| |values|]; simpl; try exact IH.
  destruct (EqualFold (rr_Name a) (Fqdn domain)); simpl; [|exact IH].
  rewrite first_ECH_head. by destruct (omap ech_key values).
Qed.

Lemma summarize_loop_app i answers out ips ttl :
  summarize_loop (S i) answers out ips ttl = (out ++ map answer_of answers, ips ++ omap ip_of answers, ttl).
Proof.
  revert i out ips. induction answers as [|a answers IH]; intros i out ips; simpl.
  - by rewrite !app_nil_r.
  - rewrite IH, <- (assoc_L (++)). simpl. f_equal. f_equal. destruct (ip_of a); simpl; [by rewrite <- (assoc_L (++))|done].
Qed.

(** ** Properties *)

(** [extractECH] takes the first non-empty key, in the order of the message, of
    the HTTPS records whose name is the domain's, with the TTL of its record; none
    gives the empty list. *)
Theorem extractECH_spec reply domain :
  extractECH reply domain =
    default ([], 0) (head (flat_map (ech_records domain) (match reply with Some m => dns_Answer m | None => [] end))).
Proof. destruct reply as [m|]; [|done]. apply extract_loop_head. Qed.

(** [summarizeAnswers] lists every answer in order, joins the addresses of the A
    and AAAA records among them, and reports the TTL of the first answer, wrapped to
    an [int]. *)
Theorem summarizeAnswers_spec reply :
  summarizeAnswers reply =
    (match json_Answers (map answer_of (dns_Answer reply)) with Ok b => b | Err _ => "[]" end,
     omap ip_of (dns_Answer reply),
     match dns_Answer reply with a :: _ => wrapS int_bits (rr_Ttl a) | [] => 0 end).
Proof.
  unfold summarizeAnswers. destruct (dns_Answer reply) as [|a answers]; simpl; [by destruct (json_Answers [])|].
  rewrite summarize_loop_app. simpl.
  replace ((match ip_of a with Some ip => [ip] | None => [] end) ++ omap ip_of answers)
    with (match ip_of a with Some ip => ip :: omap ip_of answers | None => omap ip_of answers end)
    by (by destruct (ip_of a)).
  by destruct (json_Answers _).
Qed.

End Resolver.
