(* ===== verification/Fetch.v ===== *)
(** * FetchWeb ([libv2ray_fetch.go]) *)

From stdpp Require Import gmap.
From S2P Require Import Prelude GoString GoCodec GoNet GoHTTP Xray Options Headers EchConfig Validate Net EchCache Transport Resolver.
Open Scope Z_scope.

Section Fetch.
Context `{XrayLib} `{NetURL} `{Unicode} `{IntWidth} `{Cryptobyte} `{DnsLib}.

Record fetchOptions := {
  fo_transport : transportOptions;
  fo_URL : gostr;
  fo_Method : gostr;
  fo_Data : gostr
}.

(** [RespError] is [None] where the source leaves it empty. *)
Record FetchResult := {
  RespBody : gostr;
  RespHeader : gostr;
  RespHeaders : gostr;
  fr_RespError : option error;
  fr_StatusCode : Z;
  fr_Proto : gostr;
  EchAccepted : bool
}.

Definition fetch_failed (e : error) : FetchResult := {|
  RespBody := []; RespHeader := []; RespHeaders := []; fr_RespError := Some e; fr_StatusCode := 0; fr_Proto := [];
  EchAccepted := false |}.

Definition readBody (resp : Response) : res gostr :=
  let r := LimitReader (resp_Body resp) maxBodyBytes in
  if EqualFold (header_Get (resp_Header resp) "Content-Encoding") "gzip" then gunzip r else ReadAll r.

Definition marshalHeaders (h : Header) : gostr :=
  match json_Header h with Err _ => "{}" | Ok b => b end.

(** The method and the profile's request context. *)
Definition request_method (opts : fetchOptions) : gostr :=
  let method := ToUpper (fo_Method opts) in
  if bool_decide (method = []) then (if bool_decide (fo_Data opts <> []) then "POST" else "GET") else method.

Definition request_header (kvs : list (gostr * gostr)) (opts : fetchOptions) (method : gostr) : Header :=
  let variantDefault := if bool_decide (method <> ("GET" : gostr)) then "fetch" : gostr else "nav" in
  let h := applyHeaders kvs (fo_transport opts) ∅ variantDefault in
  if bool_decide (fo_Data opts <> []) && bool_decide (header_Get h "Content-Type" = [])
  then header_Set h "Content-Type" "application/json" else h.

Definition ech_rejected_error (e : error) : error :=
  Errorf "ECH rejected: the server refused the config we offered, which is how a rotated key shows up. The cached entry has been dropped, so a retry will fetch a fresh one. %w" [] (Some e).

(** From the response on, with the deferred [resp.Body.Close()]. *)
Definition fetch_response (s : connState) (resp : Response) : N FetchResult :=
  _ ← body_close;
  mret match readBody resp with
       | Err e => fetch_failed e
       | Ok payload =>
         let bad := 299 <? StatusCode resp in
         {| RespBody := if bad then [] else payload;
            RespHeader := header_Get (resp_Header resp) "X-From-Server";
            RespHeaders := marshalHeaders (resp_Header resp);
            fr_RespError := if bad then Some (Errorf "ERR status code: %d\n%s"
                                                [AInt (StatusCode resp); AStr payload] None) else None;
            fr_StatusCode := StatusCode resp;
            fr_Proto := resp_Proto resp;
            EchAccepted := echAcceptedFrom s (Some resp) |}
       end.

(** From the transport on; the caller runs the deferred [cleanup()]. *)
Definition fetch_over (opts : fetchOptions) (method : gostr) (rt : round_tripper) (st : rt_state) (ca : cache)
    : N (cache * rt_state * FetchResult) :=
  match NewRequest_error method (fo_URL opts) with
  | Some e => mret (ca, st, fetch_failed e)
  | None =>
    kvs ← range_map (Headers (fo_transport opts));
    '(st, r) ← client_do (fo_transport opts) rt st
      {| req_Method := method; req_URL := fo_URL opts; req_Header := request_header kvs opts method;
         req_Body := fo_Data opts |};
    match r with
    | Err e =>
      if echEnabled (fo_transport opts) && echRejected e
      then mret (echInvalidate (cs_echKey (rs_conn st)) ca, st, fetch_failed (ech_rejected_error e))
      else mret (ca, st, fetch_failed e)
    | Ok resp => x ← fetch_response (rs_conn st) resp; mret (ca, st, x)
    end
  end.

Definition fetch_with (opts : fetchOptions) (u : URL) (ca : cache) : N (cache * FetchResult) :=
  let o := fo_transport opts in
  '(ca, tr) ← roundTripper (echConfigList 1 o) o u new_connState ca;
  match tr with
  | Err e => mret (ca, fetch_failed e)
  | Ok (rt, st) =>
    '(ca, st, x) ← fetch_over opts (request_method opts) rt st ca;
    _ ← cleanup rt st;
    mret (ca, x)
  end.

(** The checks before anything is dialed. *)
Definition fetch_prepare (unmarshal : gostr -> res fetchOptions) (json : gostr) : res (fetchOptions * URL) :=
  match unmarshal json with
  | Err e => Err (Errorf "invalid options json: %w" [] (Some e))
  | Ok opts =>
    _ ← check (bool_decide (fo_URL opts = [])) (OtherError "url is required");
    _ ← validate (fo_transport opts);
    match url_Parse (fo_URL opts) with
    | Err e => Err (Errorf "invalid url: %w" [] (Some e))
    | Ok u =>
      if bool_decide (u_Scheme u <> ("http" : gostr)) && bool_decide (u_Scheme u <> ("https" : gostr))
      then Err (Errorf "unsupported url scheme %s" [AStr (u_Scheme u)] None)
      else Ok (opts, u)
    end
  end.

Definition FetchWeb (unmarshal : gostr -> res fetchOptions) (json : gostr) (ca : cache) : N (cache * FetchResult) :=
  match fetch_prepare unmarshal json with
  | Err e => mret (ca, fetch_failed e)
  | Ok (opts, u) => fetch_with opts u ca
  end.

End Fetch.
