(* ===== verification/Sample.v ===== *)
(** * A concrete environment for requests

    Simple stand-ins for the library functions that are parameters, and an
    environment in which every step succeeds, to evaluate requests with. *)

From stdpp Require Import gmap.
From S2P Require Import Prelude GoString GoCodec GoNet GoHTTP Xray Options Headers EchConfig Validate Net EchCache Transport Resolver Fetch.
Open Scope Z_scope.

(** Enough of [url.Parse] for the examples: a scheme and a host. *)
Definition sample_parse (s : gostr) : res URL :=
  match IndexByte s ":"%byte with
  | None => Err (OtherError "missing protocol scheme")
  | Some i =>
    let rest := drop (i + 3) s in
    Ok {| u_Scheme := take i s; u_User := None;
          u_Host := match IndexByte rest "/"%byte with Some j => take j rest | None => rest end |}
  end.

Definition sample_url : NetURL := {|
  url_Parse := sample_parse;
  NewRequest_error := fun _ _ => None;
  json_Header := fun _ => Ok ("{}" : gostr);
  gunzip := ReadAll
|}.

Definition sample_dns : DnsLib := {|
  dns_Msg := gostr * list RR;
  SetQuestion := fun name _ => (name, []);
  clear_Id := fun m => m;
  SetEdns0 := fun _ _ m => m;
  IsEdns0 := fun _ => true;
  append_padding := fun p m => (m.1 ++ p, m.2);
  Pack := fun m => Ok m.1;
  Unpack := fun b => Ok (b, []);
  dns_Answer := snd;
  dns_Rcode := fun _ => 0;
  Fqdn := fun s => s ++ ("." : gostr);
  TypeHTTPS := 65;
  StringToType := fun s => if bool_decide (s = ("A" : gostr)) then Some 1 else None;
  TypeToString := fun _ => "A";
  RcodeToString := fun _ => "NOERROR";
  IP_String := fun ip => ip;
  json_Answers := fun _ => Ok ("[]" : gostr)
|}.

#[local] Existing Instance sample_lib.
#[local] Existing Instance sample_url.
#[local] Existing Instance sample_dns.
#[local] Existing Instance ascii_unicode.
#[local] Existing Instance arm64_int.

Definition sample_response : Response := {|
  StatusCode := 200; resp_Proto := "HTTP/1.1"; resp_Header := ∅; resp_TLS := None; resp_Body := ("hello" : gostr, None)
|}.

(** A configuration list with one configuration of four bytes. *)
Definition sample_list : list byte := [x00; x08; xfe; x0d; x00; x04; x01; x02; x03; x04].

Definition asked (e : nev) : bool := match e with EClientConnect _ => true | _ => false end.

(** Every step succeeds, handshakes negotiate [alpn], and the HTTP client asks for the
    connections of [script], one for each redirect. *)
Definition scripted (alpn : gostr) (script : list (gostr * bool)) : NetWorld := {|
  nw_base := fun _ => sample_world;
  nw_dial := fun _ _ => None;
  nw_socks := fun _ _ _ _ => None;
  nw_fragment := fun _ _ _ => None;
  nw_deadline := fun _ => true;
  nw_write := fun _ _ _ => None;
  nw_read_response := fun _ _ => Ok (200, "200 OK" : gostr, 0);
  nw_handshake := fun _ _ _ _ => Ok (alpn, false);
  nw_uclient := fun _ _ => true;
  nw_quic_dial := fun _ _ _ _ _ _ => None;
  nw_quic_alpn := fun _ _ => "h3";
  nw_certificates := fun _ => [];
  nw_patience := fun _ => length script;
  nw_client := fun h => script !! length (List.filter asked h);
  nw_return := fun _ => Ok sample_response;
  nw_range := fun _ m => map_to_list m;
  nw_rand_between := fun _ lo _ => lo
|}.

(** The same with other answers of the peers, and of the HTTP client. *)
Definition with_handshake (f : list nev -> handle -> option Fingerprint_ID -> tls_config -> res (gostr * bool)) (w : NetWorld) : NetWorld := {|
  nw_base := nw_base w; nw_dial := nw_dial w; nw_socks := nw_socks w; nw_fragment := nw_fragment w;
  nw_deadline := nw_deadline w; nw_write := nw_write w; nw_read_response := nw_read_response w;
  nw_handshake := f; nw_uclient := nw_uclient w; nw_quic_dial := nw_quic_dial w; nw_quic_alpn := nw_quic_alpn w;
  nw_certificates := nw_certificates w; nw_patience := nw_patience w; nw_client := nw_client w;
  nw_return := nw_return w; nw_range := nw_range w; nw_rand_between := nw_rand_between w |}.

Definition with_return (f : list nev -> res Response) (w : NetWorld) : NetWorld := {|
  nw_base := nw_base w; nw_dial := nw_dial w; nw_socks := nw_socks w; nw_fragment := nw_fragment w;
  nw_deadline := nw_deadline w; nw_write := nw_write w; nw_read_response := nw_read_response w;
  nw_handshake := nw_handshake w; nw_uclient := nw_uclient w; nw_quic_dial := nw_quic_dial w; nw_quic_alpn := nw_quic_alpn w;
  nw_certificates := nw_certificates w; nw_patience := nw_patience w; nw_client := nw_client w;
  nw_return := f; nw_range := nw_range w; nw_rand_between := nw_rand_between w |}.

(** The keys are asked of the server, which refuses the list of the probe. *)
Definition probed : option echOptions :=
  Some {| ech_Domain := ""; ech_DoH := ""; ech_ConfigList := ""; ech_Probe := "cloudflare-ech.com" |}.

Definition answering_probe (w : NetWorld) : NetWorld :=
  with_handshake (fun h c fp cfg =>
    if tc_MinTLS13 cfg then Err (ECHRejectionError (if fp then UTLS else GoTLS) sample_list)
    else nw_handshake w h c fp cfg) w.

Definition with_ (proxy ip fp : gostr) (ech : option echOptions) : transportOptions := {|
  Proxy := proxy; IP := ip; Timeout := 0; AllowInsecure := false; ServerName := "";
  DisableChromeParrot := false; ALPN := ""; QUICVersion := ""; WNoise := "";
  WNoiseCount := ""; WNoiseDelay := ""; WPayloadSize := ""; Fingerprint := fp;
  Fragment := None; Ech := ech; Browser := ""; Variant := ""; UserAgent := "";
  Headers := ∅
|}.

(** Over HTTP/3, with random noise: three to eight datagrams. *)
Definition with_h3 (ip : gostr) : transportOptions := {|
  Proxy := ""; IP := ip; Timeout := 0; AllowInsecure := false; ServerName := "";
  DisableChromeParrot := false; ALPN := "h3"; QUICVersion := ""; WNoise := "random";
  WNoiseCount := "3-8"; WNoiseDelay := ""; WPayloadSize := ""; Fingerprint := "";
  Fragment := None; Ech := None; Browser := ""; Variant := ""; UserAgent := "";
  Headers := ∅
|}.

Definition fetch_of (o : transportOptions) (url : gostr) (json : gostr) : res fetchOptions :=
  Ok {| fo_transport := o; fo_URL := url; fo_Method := ""; fo_Data := "" |}.

Definition run_fetch (o : transportOptions) (url alpn : gostr) (script : list (gostr * bool)) : list nev * (cache * FetchResult) :=
  FetchWeb (fetch_of o url) "" ∅ (scripted alpn script) [].
