(* ===== verification/Quic.v ===== *)
(** * QUIC dials and the datagrams before them

    What the library sends over UDP by itself, and how a dial of [quic-go] comes after
    it: a trace in which every such dial, and every datagram, is part of a block that
    starts with the resolution of the address it goes to. *)

From stdpp Require Import gmap.
From S2P Require Import Prelude GoString GoNet GoHTTP Xray Options Noise Net EchCache Transport.
Open Scope Z_scope.

(** Events that reach nobody: clocks, randomness, what happens on a connection that
    was dialed, the bookkeeping of the HTTP client. *)
Definition neutral `{XrayLib} (e : nev) : bool :=
  match e with
  | Base (ENow _) | Base (ERand _ _) | Base (ERandInt _ _) | Base (EPause _ _) | Base (ECloseUDP _)
  | EFragment _ _ _ | EClose _ | EDeadline _ | ESetDeadline _ _ | EWrite _ _ _ | EReadResponse _ _
  | EUClient _ _ | EQUICClose _ | ECertificates _ | EH3Close | EQUICTransportClose _
  | EClientDo _ | EClientConnect _ | EClientGot _ | EClientReturn _ | EBodyClose | EHeaderOrder _ | ERandBetween _ _ _ => true
  | _ => false
  end.

Definition noise_event (e : event) : bool :=
  match e with ERand _ _ | ERandInt _ _ | EWriteUDP _ _ _ _ | EPause _ _ => true | _ => false end.

(** An event of a burst from [sock] to [dst]. *)
Definition towards (sock : handle) (dst : udp_addr) (e : event) : Prop :=
  match e with EWriteUDP c _ d _ => c = sock /\ d = dst | _ => noise_event e = true end.

Section Quic.
Context `{XrayLib} `{NetURL} `{Unicode} `{IntWidth}.
#[local] Set Default Proof Using "Type*".

(** Where a datagram of the library, or of a QUIC dial, goes. *)
Definition datagram_to (e : nev) : option udp_addr :=
  match e with
  | EQUICDial _ dst _ _ _ _ | Base (EWriteUDP _ _ dst _) => Some dst
  | _ => None
  end.

(** The resolution of a target that satisfies [P], perhaps the opening of a socket, a
    burst from a socket to the address that was found, and then nothing or one QUIC
    dial from the socket to the address, after a burst that satisfies [Burst]. *)
Definition quic_block (P : gostr -> Prop) (Burst : handle -> udp_addr -> list event -> Prop) (b : list nev) : Prop :=
  exists target dst sock mid tb tq,
    P target /\ b = Base (EResolveUDP target (Ok dst)) :: map Base mid ++ map Base tb ++ tq /\
    Forall (fun e => exists r, e = EListenUDP r) mid /\ Forall (towards sock dst) tb /\
    (tq = [] \/ Burst sock dst tb /\ exists cfg q attempts r, tq = [EQUICDial sock dst cfg q attempts r]).

(** One event that satisfies [S], or such a block. *)
Definition blocks (S : nev -> Prop) (P : gostr -> Prop) (Burst : handle -> udp_addr -> list event -> Prop)
    (b : list nev) : Prop :=
  single S b \/ quic_block P Burst b.

(** Every datagram of [t] goes to an address that was found for such a target before. *)
Definition resolved_before (P : gostr -> Prop) (t : list nev) : Prop := forall t1 e t2 dst,
  t = t1 ++ e :: t2 -> datagram_to e = Some dst ->
  exists target, P target /\ Base (EResolveUDP target (Ok dst)) ∈ t1.

(** ** Lemmas: the noise *)

Lemma noiseRand_does lo hi : does (fun e => noise_event e = true) anything (noiseRand lo hi).
Proof. unfold noiseRand, rand_int. destruct (if hi <? lo then _ else _) as [a b]. repeat does_step. Qed.

Lemma nextPacket_does n : does (fun e => noise_event e = true) anything (nextPacket n).
Proof.
  unfold nextPacket, quicInitPacket, nextHeader, quicNoiseHeader, rand_read.
  repeat first [apply noiseRand_does | does_step].
Qed.

Lemma noiseRand_towards c dst lo hi : does (towards c dst) anything (noiseRand lo hi).
Proof. unfold noiseRand, rand_int. destruct (if hi <? lo then _ else _) as [a b]. repeat does_step. Qed.

Lemma nextPacket_towards c dst n : does (towards c dst) anything (nextPacket n).
Proof.
  unfold nextPacket, quicInitPacket, nextHeader, quicNoiseHeader, rand_read.
  repeat first [apply noiseRand_towards | does_step].
Qed.

Lemma send_towards n c dst : does (towards c dst) anything (send n c dst).
Proof.
  assert (forall k, does (towards c dst) anything (send_loop n c dst k)) as Hl.
  { induction k; simpl; unfold write_udp, pause;
      repeat first [apply nextPacket_towards | apply noiseRand_towards | apply IHk | does_step]. }
  unfold send. repeat first [apply noiseRand_towards | apply Hl | does_step].
Qed.

Lemma send_does n c dst : does (fun e => noise_event e = true) anything (send n c dst).
Proof. eapply does_mono; [apply send_towards|by intros []|done]. Qed.

(** ** Lemmas: a dial *)

Definition is_neutral (e : nev) : Prop := neutral e = true.

(** The burst, and the dial when it was sent. *)
Lemma burst_and_dial {A} (Burst : handle -> udp_addr -> list event -> Prop) noise sock dst cfg q attempts
    (stop : error -> A) (k : res handle -> N A) w h :
  match noise with
  | Some n => wp (send n sock dst) (nw_base w h) (omap base_event h) (fun tb r => r = None -> Burst sock dst tb)
  | None => Burst sock dst []
  end ->
  (forall c, does is_neutral anything (k c)) ->
  wp (nerr ← (match noise with Some n => lift_base (send n sock dst) | None => mret None end);
      match nerr with Some e => mret (stop e) | None => c ← quic_dial sock dst cfg q attempts; k c end) w h
    (fun t _ => exists tb tq t', t = map Base tb ++ tq ++ t' /\ Forall (towards sock dst) tb /\ Forall is_neutral t' /\
       (tq = [] \/ Burst sock dst tb /\ exists cfg q attempts r, tq = [EQUICDial sock dst cfg q attempts r])).
Proof.
  intros Hb Hk. apply wp_bind.
  assert (forall h tb, Forall (towards sock dst) tb -> Burst sock dst tb ->
    wp (c ← quic_dial sock dst cfg q attempts; k c) w h (fun t _ => exists tb' tq t', map Base tb ++ t = map Base tb' ++ tq ++ t' /\
      Forall (towards sock dst) tb' /\ Forall is_neutral t' /\
      (tq = [] \/ Burst sock dst tb' /\ exists cfg q attempts r, tq = [EQUICDial sock dst cfg q attempts r]))) as Hd.
  { intros h' tb Ht HB. apply wp_bind, wp_opened. intros r _. eapply wp_mono; [apply Hk|]. intros t' a [Ht' _].
    eexists tb, [_], t'. split_and!; [reflexivity|done|done|]. right. split; [done|]. by repeat eexists. }
  destruct noise as [n|].
  - apply wp_lift_base. eapply wp_mono; [apply wp_both; [exact Hb|apply send_towards]|]. intros tb [e|] [HB [Ht _]].
    + apply wp_ret. exists tb, [], []. split_and!; [done|done|constructor|by left].
    + by apply Hd; [|apply HB].
  - apply wp_ret. apply (Hd _ []); [constructor|done].
Qed.

(** What [burst_and_dial] asks of the noise, wherever it is sent. *)
Definition bursts (ok : NetWorld -> Prop) (Burst : handle -> udp_addr -> list event -> Prop) (noise : option noiseConfig) : Prop :=
  forall sock dst w h, ok w ->
    match noise with
    | Some n => wp (send n sock dst) (nw_base w h) (omap base_event h) (fun tb r => r = None -> Burst sock dst tb)
    | None => Burst sock dst []
    end.

Lemma bursts_any ok noise : bursts ok (fun _ _ _ => True) noise.
Proof. intros sock dst w h _. destruct noise; [by apply wp_True|done]. Qed.

Lemma h3_dial_blocks ok S P Burst o sock attempts noise ech cfg q addr s :
  (forall e, is_neutral e -> S e) -> (forall target r, pin_addr o addr = Ok target -> S (Base (EResolveUDP target r)) /\ P target) ->
  bursts ok Burst noise -> runs ok (blocks S P Burst) anything (h3_dial o sock attempts noise ech cfg q addr s).
Proof.
  intros Hn Hres Hb w h Hw. unfold h3_dial. destruct (pin_addr o addr) as [target|e]; [|apply wp_ret; by split; [constructor|]].
  apply wp_bind, wp_lift_base, wp_perform. set (r := w_resolve_udp _ _ _). clearbody r. cbn [map].
  destruct (Hres target r eq_refl) as [HS HP]. destruct r as [dst|e].
  2:{ apply wp_ret. split; [|done]. apply made_of_one. left. by apply single_one. }
  eapply wp_mono; [apply (burst_and_dial Burst); [by apply Hb|]|].
  - intros [c|e]; [|by apply does_ret]. unfold quic_close. repeat does_step.
  - intros t a (tb & tq & t' & -> & Ht & Hn' & Hq). split; [|done]. rewrite (assoc_L (++)), app_assoc.
    apply (made_cons _ (_ ++ _)); [right|].
    + exists target, dst, sock, [], tb, tq. by rewrite <- (assoc_L (++)).
    + apply made_of_each. eapply Forall_impl; [exact Hn'|]. intros e He. left. apply single_one. by apply Hn.
Qed.

(** ** Lemmas: what is before a datagram *)

Lemma base_not_dial (tb : list event) sock dst cfg q attempts r :
  EQUICDial sock dst cfg q attempts r ∉ map Base tb.
Proof. clear. induction tb; simpl; [apply not_elem_of_nil|by apply not_elem_of_cons]. Qed.

(** A datagram in a block, and what is before it there. *)
Lemma quic_block_datagram P Burst b b1 e b2 dst :
  quic_block P Burst b -> b = b1 ++ e :: b2 -> datagram_to e = Some dst ->
  exists target rest, P target /\ b1 = Base (EResolveUDP target (Ok dst)) :: rest /\
    Forall (fun e => is_Some (base_event e)) rest.
Proof.
  intros (target & d & sock & mid & tb & tq & HP & -> & Hm & Ht & Hq) E Hd.
  destruct b1 as [|x b1]; [injection E as <- _; done|]. injection E as <- E. exists target.
  assert (Hbase : forall l, Forall (fun e : nev => is_Some (base_event e)) (map Base l)).
  { intros l. apply Forall_map, Forall_true. by eexists. }
  assert (forall l, map Base mid ++ map Base tb = b1 ++ e :: l -> d = dst /\ Forall (fun e => is_Some (base_event e)) b1) as Hin.
  { intros l El. assert (e ∈ map Base mid ++ map Base tb) as He by (rewrite El; set_solver).
    rewrite <- List.map_app in El. pose proof (Hbase (mid ++ tb)) as Hf. rewrite El in Hf. apply Forall_app in Hf as [Hf _].
    split; [|done]. apply elem_of_app in He as [(x & -> & Hx)%list_elem_of_fmap|(x & -> & Hx)%list_elem_of_fmap].
    - rewrite Forall_forall in Hm. by destruct (Hm x Hx) as [r ->].
    - rewrite Forall_forall in Ht. specialize (Ht x Hx). destruct x; try done. simpl in *. destruct Ht. congruence. }
  destruct Hq as [->|(HB & cfg & q & attempts & r & ->)].
  - rewrite app_nil_r in E. destruct (Hin _ E) as [-> Hf]. by exists b1.
  - rewrite (assoc_L (++)) in E. apply app_eq_inv in E as [(k & E1 & E2)|(k & E1 & E2)].
    + destruct k as [|x k]; [|injection E2 as <- _; destruct (Hin _ E1) as [-> Hf]; by exists b1].
      rewrite app_nil_r in E1. injection E2 as -> _. simpl in Hd. injection Hd as ->. exists b1. split_and!; [done..|].
      rewrite <- E1, <- List.map_app. apply Hbase.
    + destruct k as [|x k]; [|injection E2 as <- E2; by destruct k].
      injection E2 as <- _. simpl in Hd. injection Hd as ->. exists b1. split_and!; [done..|].
      rewrite E1, app_nil_r, <- List.map_app. apply Hbase.
Qed.

Definition no_datagram (e : nev) : Prop := datagram_to e = None.

Lemma single_datagram S b b1 e b2 dst :
  (forall e, S e -> no_datagram e) -> single S b -> b = b1 ++ e :: b2 -> datagram_to e <> Some dst.
Proof.
  intros Hs (x & -> & Hx) E Hd. destruct b1 as [|y [|]]; simpl in E; try done. injection E as -> _.
  specialize (Hs _ Hx). unfold no_datagram in Hs. congruence.
Qed.

(** Before every datagram its address was resolved, and nothing but bookkeeping of the
    library happened in between. *)
Lemma blocks_datagram S P Burst t t1 e t2 dst :
  (forall e, S e -> no_datagram e) -> made_of (blocks S P Burst) t -> t = t1 ++ e :: t2 -> datagram_to e = Some dst ->
  exists target t0 rest, P target /\ t1 = t0 ++ Base (EResolveUDP target (Ok dst)) :: rest /\
    Forall (fun e => is_Some (base_event e)) rest.
Proof.
  intros Hs Ht E Hd. eapply (made_of_preceded (blocks S P Burst) (fun t1 _ => exists target t0 rest, P target /\
    t1 = t0 ++ Base (EResolveUDP target (Ok dst)) :: rest /\ Forall (fun e => is_Some (base_event e)) rest)); [exact Ht|exact E|].
  intros b b1 b2 t0 [Hb|Hb] Eb; [by destruct (single_datagram S b b1 e b2 dst)|].
  destruct (quic_block_datagram P Burst b b1 e b2 dst Hb Eb Hd) as (target & rest & HP & -> & Hf).
  by exists target, t0, rest.
Qed.

Lemma blocks_resolved S P Burst t :
  (forall e, S e -> no_datagram e) -> made_of (blocks S P Burst) t -> resolved_before P t.
Proof.
  intros Hs Ht t1 e t2 dst E Hd.
  destruct (blocks_datagram S P Burst t t1 e t2 dst Hs Ht E Hd) as (target & t0 & rest & HP & -> & _).
  exists target. set_solver.
Qed.

(** A QUIC dial comes right after its burst. *)
Lemma blocks_burst S P Burst t t1 sock dst cfg q attempts r t2 :
  (forall e, S e -> no_datagram e) -> made_of (blocks S P Burst) t -> t = t1 ++ EQUICDial sock dst cfg q attempts r :: t2 ->
  exists t0 tb, t1 = t0 ++ map Base tb /\ Burst sock dst tb.
Proof.
  intros Hs Ht E. eapply (made_of_preceded (blocks S P Burst) (fun t1 _ => exists t0 tb, t1 = t0 ++ map Base tb /\ Burst sock dst tb));
    [exact Ht|exact E|].
  intros b b1 b2 t0 [Hb|Hb] Eb; [by destruct (single_datagram S b b1 _ b2 dst Hs Hb Eb)|].
  destruct Hb as (target & d & s & mid & tb & tq & HP & -> & Hm & Htw & Hq).
  destruct b1 as [|x b1]; [done|]. injection Eb as <- Eb. rewrite (assoc_L (++)), <- List.map_app in Eb.
  assert (forall k l, map Base (mid ++ tb) <> k ++ EQUICDial sock dst cfg q attempts r :: l) as Hno.
  { intros k l E'. apply (base_not_dial (mid ++ tb) sock dst cfg q attempts r). rewrite E'. set_solver. }
  destruct Hq as [->|(HB & cfg' & q' & attempts' & r' & ->)]; [rewrite app_nil_r in Eb; by apply Hno in Eb|].
  apply app_eq_inv in Eb as [(k & E1 & E2)|(k & E1 & E2)].
  - destruct k as [|y k]; [|injection E2 as <- _; by apply Hno in E1]. injection E2 as <- <- _ _ _ _ _.
    rewrite app_nil_r in E1. eexists (t0 ++ Base (EResolveUDP target (Ok dst)) :: map Base mid), tb. split; [|done].
    rewrite <- E1, List.map_app. by rewrite <- !(assoc_L (++)).
  - destruct k as [|y k]; [|injection E2 as _ E2; by destruct k]. injection E2 as <- <- _ _ _ _ _.
    rewrite app_nil_r in E1. eexists (t0 ++ Base (EResolveUDP target (Ok d)) :: map Base mid), tb. split; [|done].
    rewrite E1, List.map_app. by rewrite <- !(assoc_L (++)).
Qed.
End Quic.
