(* ===== verification/Traffic.v ===== *)
(** * What a request puts on the network

    Which addresses are dialed and which handshakes are made, for every computation
    from [rawDial] to [FetchWeb] and [ResolveDoH], under a predicate on events that
    accepts a given set of addresses and TLS configurations. *)

From stdpp Require Import gmap.
From S2P Require Import Prelude GoString GoCodec GoNet GoHTTP Xray Options Headers Noise EchConfig Validate Net EchCache Transport Quic Resolver Fetch Sample.
Open Scope Z_scope.

Section Traffic.
Context `{XrayLib} `{NetURL} `{Unicode} `{IntWidth} `{Cryptobyte} `{DnsLib}.
#[local] Set Default Proof Using "Type*".

(** The addresses [rawDial] may dial. *)
Definition may_dial (o : transportOptions) (a : gostr) : Prop :=
  if bool_decide (Proxy o = []) then exists addr, pin_addr o addr = Ok a
  else exists pu, url_Parse (Proxy o) = Ok pu /\ a = u_Host pu.

Definition same_route (o o' : transportOptions) : Prop := Proxy o' = Proxy o /\ IP o' = IP o.

(** [P] accepts the connections of [o] and the handshakes whose configuration
    satisfies [T]. *)
Record accepts (P : nev -> Prop) (o : transportOptions) (T : tls_config -> Prop) : Prop := {
  acc_neutral : forall e, neutral e = true -> P e;
  acc_dial : forall a r, may_dial o a -> P (EDial a r);
  acc_socks : forall pu auth a r, Proxy o <> [] -> url_Parse (Proxy o) = Ok pu -> P (ESocks (u_Host pu) auth a r);
  acc_tls : forall c fp cfg r, T cfg -> P (EHandshake c fp cfg r)
}.

(** [B] accepts what the transport [rt] does beyond that; its dial over QUIC is not
    judged event by event. *)
Definition rt_accepted (ok : NetWorld -> Prop) (B : list nev -> Prop) (o : transportOptions) (T : tls_config -> Prop)
    (rt : round_tripper) : Prop :=
  match rt with
  | RtPlain _ => forall addr, T (default_tls addr)
  | RtStd _ cfg _ => forall addr, T (name_tls addr cfg)
  | RtH2 _ host ech => T (tlsConfig o host ech (alpnOffer alpnH2))
  | RtUTLS h2 _ _ host ech _ =>
    T (tlsConfig o host ech []) /\ (h2 = false -> forall a r, B [EDial a r])
  | RtH3 sock attempts noise ech cfg q =>
    forall addr s, runs ok B anything (h3_dial o sock attempts noise ech (name_tls addr cfg) q addr s)
  end.

(** ** Lemmas: the HTTP client

    Only [client_do] speaks of it: not what it runs to get a connection. *)

Definition not_client (e : nev) : Prop :=
  match e with EClientDo _ | EClientConnect _ | EClientGot _ | EClientReturn _ => False | _ => True end.

Lemma rawDial_not_client o addr frag : does not_client anything (rawDial o addr frag).
Proof.
  unfold rawDial, dialViaProxy, proxyConnect, dial_tcp, dial_socks, new_fragment, close_conn, ctx_deadline,
    set_deadline, write_conn, read_response.
  repeat does_step; done.
Qed.

(** Dialing alone shakes no hands. *)
Definition unshaken (e : nev) : Prop := match e with EHandshake _ _ _ _ | EQUICDial _ _ _ _ _ _ => False | _ => True end.

Lemma rawDial_unshaken o addr frag : does unshaken anything (rawDial o addr frag).
Proof.
  unfold rawDial, dialViaProxy, proxyConnect, dial_tcp, dial_socks, new_fragment, close_conn, ctx_deadline,
    set_deadline, write_conn, read_response.
  repeat does_step; done.
Qed.

Lemma rt_dial_not_client o rt st addr tls : does not_client anything (rt_dial o rt st addr tls).
Proof.
  unfold rt_dial, handoff_get, stdTLSDial, dialTLS, h3_dial, http_tls, tls_handshake, new_uclient, close_conn,
    quic_dial, quic_close, dial_tcp, resolve_udp.
  repeat first [apply rawDial_not_client
               | apply does_lift; eapply does_mono; [apply send_does|done|done]
               | does_step]; done.
Qed.

Lemma transport_not_client o u frag mode ech s : does not_client anything (transport_with o u frag mode ech s).
Proof.
  unfold transport_with, h3RoundTripper, dialTLS, tls_handshake, new_uclient, close_conn, listen_udp.
  repeat first [apply rawDial_not_client | does_step]; try done.
  intros w h. split; [by repeat constructor|done].
Qed.

Lemma cleanup_not_client rt st : does not_client anything (cleanup rt st).
Proof.
  unfold cleanup, handoff_discard, close_conn, h3_close, quic_transport_close, close_udp.
  repeat does_step; done.
Qed.

(** What it asks for is the request. *)
Definition asks (Q : Request -> Prop) (e : nev) : Prop := match e with EClientDo req => Q req | _ => True end.

Lemma client_do_asks (Q : Request -> Prop) o rt st req : Q req -> does (asks Q) anything (client_do o rt st req).
Proof.
  intros Hq. assert (forall n st, does (asks Q) anything (client_loop n o rt st)) as Hl.
  { induction n as [|n IH]; intros st'; simpl; unfold client_return, client_next, client_got.
    - repeat does_step; done.
    - repeat first [apply IH | eapply does_mono; [apply rt_dial_not_client|by intros []|done] | does_step]; done. }
  unfold client_do, client_start. eapply does_then; [by apply does_perform|]. intros _.
  eapply does_then; [|intros n; apply Hl]. intros w h. split; [constructor|done].
Qed.

(** ** Lemmas: a request *)

Section Accepted.
Context (P : nev -> Prop) (o : transportOptions) (T : tls_config -> Prop) (Hacc : accepts P o T).

Ltac accept := try (by intros; apply (acc_neutral P o T Hacc)).

Lemma proxyConnect_does c pu addr : does P anything (proxyConnect c pu addr).
Proof.
  unfold proxyConnect, ctx_deadline, set_deadline, write_conn, read_response.
  repeat does_step; accept.
Qed.

Lemma dialViaProxy_does addr : Proxy o <> [] -> does P anything (dialViaProxy o addr).
Proof.
  intros Hp. unfold dialViaProxy, dial_socks, dial_tcp, close_conn.
  repeat first [apply proxyConnect_does | does_step]; accept.
  - by eapply (acc_socks P o T Hacc).
  - apply (acc_dial P o T Hacc). unfold may_dial. rewrite bool_decide_false by done. eauto.
Qed.

Lemma rawDial_does addr frag : does P anything (rawDial o addr frag).
Proof.
  unfold rawDial. destruct (pin_addr o addr) as [a|e] eqn:Ea.
  - eapply does_bind_res; [apply (does_ret _ (on_Ok (fun x => x = a))); done| |done]. intros ? ->.
    eapply does_then_res; [| |done].
    + case_bool_decide as Hp; [|by apply dialViaProxy_does]. apply does_opened. intros r.
      apply (acc_dial P o T Hacc). unfold may_dial. rewrite bool_decide_true by done. eauto.
    + unfold new_fragment, close_conn. repeat does_step; accept.
  - eapply does_bind_res; [apply (does_ret _ (on_Ok (fun _ => False))); done|done|done].
Qed.

Lemma tls_handshake_does c fp cfg : T cfg -> does P anything (tls_handshake c fp cfg).
Proof. intros Ht. unfold tls_handshake. apply does_perform. intros r. by apply (acc_tls P o T Hacc). Qed.

Lemma stdTLSDial_does addr frag host ech alpn s :
  T (tlsConfig o host ech alpn) -> does P anything (stdTLSDial o addr frag host ech alpn s).
Proof.
  intros Ht. unfold stdTLSDial, close_conn.
  repeat first [apply rawDial_does | by apply tls_handshake_does | does_step]; accept.
Qed.

Lemma dialTLS_does mode frag host ech fp addr s :
  T (tlsConfig o host ech []) -> does P anything (dialTLS o mode frag host ech fp addr s).
Proof.
  intros Ht. unfold dialTLS, close_conn, new_uclient.
  repeat first [apply rawDial_does | by apply tls_handshake_does | does_step]; accept.
Qed.

Lemma http_tls_does cfg c : T cfg -> does P anything (http_tls cfg c).
Proof.
  intros Ht. unfold http_tls, close_conn.
  repeat first [by apply tls_handshake_does | does_step]; accept.
Qed.

Lemma h3_dial_does sock attempts noise ech cfg q addr s :
  (forall addr target r, pin_addr o addr = Ok target -> P (Base (EResolveUDP target r))) ->
  (forall c p dst r, P (Base (EWriteUDP c p dst r))) -> (forall dst r, P (EQUICDial sock dst cfg q attempts r)) ->
  does P anything (h3_dial o sock attempts noise ech cfg q addr s).
Proof.
  intros Hres Hwr Hq. unfold h3_dial. destruct (pin_addr o addr) as [target|e] eqn:Et; [|by does_step].
  eapply does_then; [apply does_lift; unfold resolve_udp; apply does_perform; intros r; by eapply Hres|].
  intros [dst|e]; [|by does_step]. eapply does_then.
  - destruct noise as [n|]; [|by does_step]. apply does_lift. eapply does_mono; [apply send_does| |done].
    intros [] He; try done; first [apply Hwr | by apply (acc_neutral P o T Hacc)].
  - intros nerr. unfold quic_dial, quic_close. repeat does_step; accept. by apply Hq.
Qed.

Lemma cleanup_does rt st : does P anything (cleanup rt st).
Proof.
  unfold cleanup, handoff_discard, close_conn, h3_close, quic_transport_close, close_udp.
  repeat does_step; accept.
Qed.

Lemma padded_does msg : does P anything (padded msg).
Proof. unfold padded, RandBetween. repeat does_step; accept. Qed.

Lemma echProbe_does name target :
  (forall l, T (probe_config o name l)) -> does P anything (echProbe o name target).
Proof.
  intros Ht. unfold echProbe, close_conn, ctx_deadline, set_deadline.
  eapply does_then_res; [|intros l|done].
  { apply does_lift. unfold bogusECHConfigList, rand_read. repeat does_step; accept. }
  eapply does_then_res; [apply does_ret; done|intros frag|done].
  repeat first [apply rawDial_does | by apply tls_handshake_does | does_step]; accept.
Qed.

End Accepted.

(** The configurations of an HTTP/3 transport. *)
Definition h3_config (o : transportOptions) (ech : list byte) (cfg : tls_config) : Prop :=
  tc_ECHConfigList cfg = ech /\ exists host, cfg = tlsConfig o host ech ["h3" : gostr].

(** Whatever [http3] completes the configuration with. *)
Lemma h3_tls_config o addr host l :
  let cfg := tlsConfig o host l ["h3" : gostr] in
  exists host', name_tls addr
    (if bool_decide (ServerName o = []) then
       {| tc_ServerName := []; tc_InsecureSkipVerify := tc_InsecureSkipVerify cfg;
          tc_NextProtos := tc_NextProtos cfg; tc_ECHConfigList := tc_ECHConfigList cfg;
          tc_MinTLS13 := false; tc_RejectionUnverified := false; tc_NameToVerify := [] |}
     else cfg) = tlsConfig o host' l ["h3" : gostr].
Proof.
  cbv zeta. case_bool_decide as Hn; [|apply name_tls_tlsConfig].
  exists (match SplitHostPort addr with inr (host, _) => host | inl _ => addr end).
  unfold tlsConfig. by rewrite (bool_decide_true _ Hn).
Qed.

(** [B] accepts the dials over QUIC that offer [ech] under the noise of [o]. *)
Definition h3_accepted (ok : NetWorld -> Prop) (B : list nev -> Prop) (o : transportOptions) (ech : list byte) : Prop :=
  (forall r, B [Base (EListenUDP r)]) /\
  forall sock attempts noise cfg q addr s, noise_config o = Ok noise -> h3_config o ech cfg ->
    runs ok B anything (h3_dial o sock attempts noise ech cfg q addr s).

(** A list the handshakes may offer. *)
Definition offerable (ok : NetWorld -> Prop) (B : list nev -> Prop) (o : transportOptions) (T : tls_config -> Prop)
    (l : list byte) : Prop :=
  (forall host alpn, T (tlsConfig o host l alpn)) /\ (alpnMode o = Ok alpnH3 -> h3_accepted ok B o l).

(** ** Lemmas: a request and its blocks *)

Section Blocks.
Context (ok : NetWorld -> Prop) (B : list nev -> Prop) (o : transportOptions) (T : tls_config -> Prop).
Context (Hacc : accepts (fun e => B [e]) o T).

Ltac accept := try (by intros; apply (acc_neutral _ o T Hacc)).

Lemma rt_dial_runs rt st addr tls : rt_accepted ok B o T rt -> runs ok B anything (rt_dial o rt st addr tls).
Proof.
  intros Hrt. destruct rt; simpl in Hrt; unfold rt_dial, handoff_get.
  - apply runs_does. repeat first [by apply (rawDial_does _ o T) | apply (http_tls_does _ o T); [done|apply Hrt] | does_step]; accept.
  - apply runs_does. repeat first [by apply (rawDial_does _ o T) | apply (http_tls_does _ o T); [done|apply Hrt] | does_step]; accept.
  - apply runs_does. repeat first [apply (stdTLSDial_does _ o T); [done|apply Hrt] | does_step]; accept.
  - apply runs_does. destruct Hrt as [Ht Hd]. unfold dial_tcp.
    repeat first [by apply (dialTLS_does _ o T) | does_step]; accept. by apply Hd.
  - destruct tls; [|by apply runs_ret]. eapply runs_then; [by apply Hrt|]. intros [s' r]. by apply runs_ret.
Qed.

Lemma client_do_runs rt st req : rt_accepted ok B o T rt -> runs ok B anything (client_do o rt st req).
Proof.
  intros Hrt.
  assert (forall n st, runs ok B anything (client_loop n o rt st)) as Hl.
  { induction n as [|n IH]; intros st'; simpl; unfold client_return, client_next, client_got.
    - apply runs_does. repeat does_step; accept.
    - eapply runs_then; [apply runs_does; does_step; accept|]. intros [[addr tls]|]; [|apply runs_does; repeat does_step; accept].
      eapply runs_then; [by apply rt_dial_runs|]. intros [st2 r].
      eapply runs_then; [apply runs_does; does_step; accept|]. intros ?. apply IH. }
  unfold client_do, client_start. eapply runs_then; [apply runs_does, does_perform; accept|]. intros _.
  eapply runs_then; [|intros n; apply Hl]. intros w h _. split; [constructor|done].
Qed.

Lemma fetch_over_runs opts method rt st ca :
  fo_transport opts = o -> rt_accepted ok B o T rt -> runs ok B anything (fetch_over opts method rt st ca).
Proof.
  intros Eo Hrt. unfold fetch_over, range_map, fetch_response, body_close. rewrite Eo.
  destruct (NewRequest_error _ _); [by apply runs_ret|]. eapply runs_then; [apply runs_does; does_step; accept|]. intros kvs.
  eapply runs_then; [by apply client_do_runs|]. intros [st' [resp|e]]; apply runs_does; repeat does_step; accept.
Qed.

Lemma exchange_over_runs server wire rt st ca :
  rt_accepted ok B o T rt -> runs ok B anything (exchange_over o server wire rt st ca).
Proof.
  intros Hrt. unfold exchange_over, range_map, read_reply, body_close.
  destruct (NewRequest_error _ _); [by apply runs_ret|]. eapply runs_then; [apply runs_does; does_step; accept|]. intros kvs.
  eapply runs_then; [by apply client_do_runs|]. intros [st' [resp|e]]; apply runs_does; repeat does_step; accept.
Qed.

Lemma h3RoundTripper_does u ech s :
  h3_accepted ok B o ech ->
  does (fun e => B [e]) (on_Ok (fun p => rt_accepted ok B o T p.1)) (h3RoundTripper o u ech s).
Proof.
  intros [Hli Hq]. unfold h3RoundTripper.
  eapply does_bind_res; [apply (does_ret _ (on_Ok anything)); by destruct (quicAttempts o)| |done]. intros attempts _.
  eapply does_bind_res; [apply (does_ret _ (on_Ok (fun n => noise_config o = Ok n))); by destruct (noise_config o)| |done].
  intros noise Hn. eapply does_then; [apply does_lift|].
  { intros w h. split; [|done]. by constructor. }
  intros [sock|e]; apply does_ret; [|done]. simpl. intros addr s'. apply Hq; [done|].
  split; [rewrite name_tls_list; by case_bool_decide|]. by apply h3_tls_config.
Qed.

Lemma transport_with_does u frag mode l s :
  alpnMode o = Ok mode -> offerable ok B o T l -> (Fingerprint o <> [] -> forall a r, B [EDial a r]) ->
  does (fun e => B [e]) (on_Ok (fun p => rt_accepted ok B o T p.1)) (transport_with o u frag mode l s).
Proof.
  intros Em [Hl Hh3] Hfp. unfold transport_with.
  case_bool_decide as Hm; [subst mode; apply h3RoundTripper_does; by apply Hh3|].
  case_bool_decide as Hf; [case_bool_decide; apply does_ret; simpl; [apply Hl|]; intros addr;
    destruct (name_tls_tlsConfig o addr (url_Hostname u) l (alpnOffer mode)) as [host' ->]; apply Hl|].
  destruct (GetFingerprint (Fingerprint o)) as [fp|]; [|by does_step].
  eapply does_then; [apply (dialTLS_does _ o T Hacc), Hl|]. intros [s' [probe|e]]; apply does_ret; [|done].
  simpl. split; [apply Hl|]. intros _. by apply Hfp.
Qed.

Lemma roundTripper_runs acquire u s ca :
  (u_Scheme u <> ("http" : gostr) ->
     runs ok B (fun x => on_Ok (fun p => offerable ok B o T p.1) x.2) (acquire (url_Hostname u) ca)) ->
  (u_Scheme u = ("http" : gostr) -> forall addr, T (default_tls addr)) ->
  (Fingerprint o <> [] -> forall a r, B [EDial a r]) ->
  runs ok B (fun x => on_Ok (fun p => rt_accepted ok B o T p.1) x.2) (roundTripper acquire o u s ca).
Proof.
  intros Hacq Hplain Hfp. unfold roundTripper.
  destruct (fragmentConfig o) as [frag|]; [|by apply runs_ret].
  destruct (alpnMode o) as [mode|] eqn:Em; [|by apply runs_ret].
  case_bool_decide as Hs.
  { apply runs_ret. repeat case_bool_decide; try done. exact (Hplain Hs). }
  eapply runs_bind; [by apply Hacq|]. intros [ca' [[l key]|e]] Hl; [|by apply runs_ret].
  eapply runs_bind; [apply runs_does; by apply transport_with_does|]. intros r Hr. by apply runs_ret.
Qed.

Lemma echAcquire_run_runs ca key fetch :
  (forall ca, runs ok B anything (fetch ca)) -> runs ok B anything (echAcquire_run ca key fetch).
Proof.
  intros Hf. unfold echAcquire_run, now.
  do 2 (eapply runs_then; [apply runs_does; repeat does_step; accept|]; intros ?; case_match; [by apply runs_ret|]).
  eapply runs_then; [apply Hf|]. intros [ca' r]. apply runs_does. repeat does_step; accept.
Qed.

Lemma dnsExchange_runs acquire server msg ca :
  (forall host ca, runs ok B (fun x => on_Ok (fun p => offerable ok B o T p.1) x.2) (acquire host ca)) ->
  (forall addr, T (default_tls addr)) ->
  (Fingerprint o <> [] -> forall a r, B [EDial a r]) ->
  runs ok B anything (dnsExchange acquire o server msg ca).
Proof.
  intros Hacq Hplain Hfp. unfold dnsExchange.
  destruct (url_Parse server) as [su|]; [|by apply runs_ret].
  destruct (bool_decide _ && bool_decide _); [by apply runs_ret|].
  eapply runs_then; [apply runs_does; by apply (padded_does _ o T)|]. intros m. destruct (Pack m) as [wire|]; [|by apply runs_ret].
  eapply runs_bind; [by apply roundTripper_runs|]. intros [ca' [[rt st]|e]] Hrt; [|by apply runs_ret].
  eapply runs_then; [by apply exchange_over_runs|]. intros [[ca'' st'] x].
  eapply runs_then; [apply runs_does; by apply (cleanup_does _ o T)|]. intros _. by apply runs_ret.
Qed.

End Blocks.

(** ** Lemmas: a request and its look-ups *)

(** The look-up of a look-up is none. *)
Lemma echConfigList_off depth o host ca : echEnabled o = false ->
  echConfigList depth o host ca = mret (ca, Ok ([], [])).
Proof. intros He. destruct depth; simpl; by rewrite He. Qed.

(** ECH is off, or the list is in the options. *)
Definition ech_offline (o : transportOptions) : Prop :=
  forall e, Ech o = Some e -> echEnabled o = true -> ech_ConfigList e <> [].

Lemma echConfigList_offline P o depth host ca :
  ech_offline o -> does P anything (echConfigList depth o host ca).
Proof.
  intros Ho. destruct depth; simpl; (destruct (echEnabled o) eqn:Ee; [|by does_step]); simpl;
    (destruct (Ech o) as [e|] eqn:Eo; [|by does_step]); rewrite bool_decide_true by (by apply Ho); by does_step.
Qed.

(** [B] accepts all a request of [o] does, whatever list it offers. *)
Record routes (ok : NetWorld -> Prop) (B : list nev -> Prop) (o : transportOptions) (T : tls_config -> Prop) : Prop := {
  routes_accept : accepts (fun e => B [e]) o T;
  routes_offer : forall l, offerable ok B o T l;
  routes_plain : forall addr, T (default_tls addr);
  routes_probe : forall name l, T (probe_config o name l);
  routes_direct : Fingerprint o <> [] -> forall a r, B [EDial a r]
}.

Lemma routes_any ok B o :
  accepts (fun e => B [e]) o (fun _ => True) -> (alpnMode o = Ok alpnH3 -> forall l, h3_accepted ok B o l) ->
  (Fingerprint o <> [] -> forall a r, B [EDial a r]) -> routes ok B o (fun _ => True).
Proof. intros Hacc Hh3 Hfp. split; try done. intros l. split; [done|]. intros Hm. by apply Hh3. Qed.

Section Routes.
Context (ok : NetWorld -> Prop) (B : list nev -> Prop) (o : transportOptions) (T : tls_config -> Prop).
Context (Hr : routes ok B o T).

Lemma post_offerable {A} (m : N (A * res (list byte * gostr))) :
  runs ok B anything m -> runs ok B (fun x => on_Ok (fun p => offerable ok B o T p.1) x.2) m.
Proof.
  intros Hm. eapply runs_mono; [exact Hm|done|]. intros [? [[]|]] _; [apply (routes_offer _ _ _ _ Hr)|done].
Qed.

Section Requests.
Context (Hech : forall depth host ca, runs ok B anything (echConfigList depth o host ca)).

Lemma fetch_with_runs opts u ca : fo_transport opts = o -> runs ok B anything (fetch_with opts u ca).
Proof.
  intros Eo. unfold fetch_with. rewrite Eo. eapply runs_bind.
  - apply (roundTripper_runs ok B o T (routes_accept _ _ _ _ Hr));
      [|intros _; apply (routes_plain _ _ _ _ Hr)|apply (routes_direct _ _ _ _ Hr)].
    intros _. apply post_offerable, Hech.
  - intros [ca' [[rt st]|e]] Hrt; [|by apply runs_ret].
    eapply runs_then; [by apply (fetch_over_runs ok B o T (routes_accept _ _ _ _ Hr))|]. intros [[ca'' st'] x].
    eapply runs_then; [apply runs_does, (cleanup_does _ o T (routes_accept _ _ _ _ Hr))|]. intros _. by apply runs_ret.
Qed.

Lemma exchange_runs server msg ca : runs ok B anything (dnsExchange (echConfigList 1 o) o server msg ca).
Proof.
  apply (dnsExchange_runs ok B o T (routes_accept _ _ _ _ Hr));
    [|apply (routes_plain _ _ _ _ Hr)|apply (routes_direct _ _ _ _ Hr)].
  intros. apply post_offerable, Hech.
Qed.

End Requests.
End Routes.

(** The look-ups of [o] use the connections of [lookupOpts o]. *)
Lemma echConfigList_runs ok B o T depth host ca :
  accepts (fun e => B [e]) o T -> routes ok B (lookupOpts o) T -> runs ok B anything (echConfigList depth o host ca).
Proof.
  intros Hacc Hr.
  destruct depth as [|depth]; simpl; (destruct (echEnabled o); [|by apply runs_ret]); simpl;
    (destruct (Ech o) as [e|]; [|by apply runs_ret]); (case_bool_decide; [by apply runs_ret|]); case_bool_decide.
  1, 3: destruct (parseECHProbe _) as [[name target]|]; [|by apply runs_ret];
    eapply runs_then; [apply (echAcquire_run_runs ok B o T Hacc)|intros [ca' r]; by apply runs_ret]; intros ca';
    eapply runs_then; [apply runs_does, (echProbe_does _ (lookupOpts o) T (routes_accept _ _ _ _ Hr)), (routes_probe _ _ _ _ Hr)|
      intros r; by apply runs_ret].
  - eapply runs_then; [apply (echAcquire_run_runs ok B o T Hacc)|intros [ca' r]; by apply runs_ret]. intros ca'.
    unfold fetch_doh. apply runs_does. repeat does_step.
  - eapply runs_then; [apply (echAcquire_run_runs ok B o T Hacc)|intros [ca' r]; by apply runs_ret]. intros ca'.
    unfold fetch_doh. eapply runs_then; [|intros [ca'' x]; apply runs_does; by repeat does_step].
    apply (dnsExchange_runs ok B (lookupOpts o) T (routes_accept _ _ _ _ Hr));
      [|apply (routes_plain _ _ _ _ Hr)|apply (routes_direct _ _ _ _ Hr)].
    intros host' ca''. rewrite echConfigList_off by done. apply runs_ret. apply (routes_offer _ _ _ _ Hr).
Qed.

(** Both entry points: nothing is done when the options do not pass [validate]. *)
Lemma FetchWeb_runs ok B o unmarshal json ca :
  (forall opts, unmarshal json = Ok opts -> fo_transport opts = o) ->
  (validate o = Ok tt -> forall opts u ca, fo_transport opts = o -> runs ok B anything (fetch_with opts u ca)) ->
  runs ok B anything (FetchWeb unmarshal json ca).
Proof.
  intros Eo Hw. unfold FetchWeb. destruct (fetch_prepare unmarshal json) as [[opts u]|] eqn:Ef; [|by apply runs_ret].
  unfold fetch_prepare in Ef. destruct (unmarshal json) as [opts'|] eqn:Eu; [|done].
  apply check_bind_Ok in Ef as [_ Ef]. apply unit_bind_Ok in Ef as [Hv Ef].
  assert (opts = opts') as -> by (repeat case_match; by simplify_eq).
  specialize (Eo opts' eq_refl). rewrite Eo in Hv. by apply Hw.
Qed.

Lemma ResolveDoH_runs ok B o unmarshal json ca :
  (forall opts, unmarshal json = Ok opts -> doh_transport opts = o) ->
  (validate o = Ok tt -> forall server msg ca, runs ok B anything (dnsExchange (echConfigList 1 o) o server msg ca)) ->
  runs ok B anything (ResolveDoH unmarshal json ca).
Proof.
  intros Eo Hx. unfold ResolveDoH. destruct (unmarshal json) as [opts|]; [|by apply runs_ret].
  rewrite (Eo opts eq_refl). repeat (case_bool_decide; [by apply runs_ret|]).
  destruct (validate o) as [[]|] eqn:Ev; [|by apply runs_ret]. cbv zeta. destruct (StringToType _); [|by apply runs_ret].
  eapply runs_then; [by apply Hx|intros [ca' x]; by apply runs_ret].
Qed.

Lemma requests_run ok B o T ca w h :
  ok w -> (validate o = Ok tt -> routes ok B o T) ->
  (validate o = Ok tt -> forall depth host ca, runs ok B anything (echConfigList depth o host ca)) ->
  (forall unmarshal json, (forall opts, unmarshal json = Ok opts -> fo_transport opts = o) ->
     wp (FetchWeb unmarshal json ca) w h (fun t _ => made_of B t)) /\
  (forall unmarshal json, (forall opts, unmarshal json = Ok opts -> doh_transport opts = o) ->
     wp (ResolveDoH unmarshal json ca) w h (fun t _ => made_of B t)).
Proof.
  intros Hw Hr He. split; intros unmarshal json Eo; eapply runs_trace; try exact Hw.
  - apply (FetchWeb_runs _ _ o); [done|]. intros Hok opts u ca' E. apply (fetch_with_runs _ _ o T (Hr Hok)); [by apply He|done].
  - apply (ResolveDoH_runs _ _ o); [done|]. intros Hok server msg ca'. apply (exchange_runs _ _ o T (Hr Hok)). by apply He.
Qed.

(** ** Lemmas: event by event *)

Definition anywhere (w : NetWorld) : Prop := True.

Lemma accepts_single P o T : accepts P o T -> accepts (fun e => single P [e]) o T.
Proof. intros [K1 K2 K3 K4]. split; intros; apply single_one; eauto. Qed.

Lemma h3_accepted_single P o T l :
  accepts P o T -> (forall r, P (Base (EListenUDP r))) -> (forall addr target r, pin_addr o addr = Ok target -> P (Base (EResolveUDP target r))) ->
  (forall c p dst r, P (Base (EWriteUDP c p dst r))) ->
  (forall s dst cfg q attempts r, h3_config o l cfg -> P (EQUICDial s dst cfg q attempts r)) ->
  h3_accepted anywhere (single P) o l.
Proof.
  intros Ha Hli Hres Hwr Hq. split; [intros r; by apply single_one|]. intros sock attempts noise cfg q addr s _ Hc.
  apply runs_does. apply (h3_dial_does _ o T (accepts_single P o T Ha)); intros; apply single_one; eauto.
Qed.

Lemma requests_do P o T ca w h :
  (validate o = Ok tt -> routes anywhere (single P) o T) -> (validate o = Ok tt -> routes anywhere (single P) (lookupOpts o) T) ->
  (forall unmarshal json, (forall opts, unmarshal json = Ok opts -> fo_transport opts = o) ->
     wp (FetchWeb unmarshal json ca) w h (fun t _ => Forall P t)) /\
  (forall unmarshal json, (forall opts, unmarshal json = Ok opts -> doh_transport opts = o) ->
     wp (ResolveDoH unmarshal json ca) w h (fun t _ => Forall P t)).
Proof.
  intros Hr Hrl. destruct (requests_run anywhere (single P) o T ca w h I Hr) as [Hf Hd].
  - intros Hok depth host ca'. apply (echConfigList_runs _ _ o T); [apply (routes_accept _ _ _ _ (Hr Hok))|by apply Hrl].
  - split; intros unmarshal json Eo; (eapply wp_mono; [by (apply Hf || apply Hd)|]); intros t x; apply made_of_single.
Qed.

(** ** The two routes *)

(** Nobody but the proxy is spoken to. *)
Definition proxied (o : transportOptions) (e : nev) : Prop :=
  match e with
  | EDial a _ | ESocks a _ _ _ => exists pu, url_Parse (Proxy o) = Ok pu /\ a = u_Host pu
  | EQUICDial _ _ _ _ _ _ | Base (EListenUDP _) | Base (EResolveUDP _ _) | Base (EWriteUDP _ _ _ _) => False
  | _ => True
  end.

(** Nobody but the pinned address is dialed or resolved. *)
Definition pinned_address (o : transportOptions) (a : gostr) : Prop := exists port, a = JoinHostPort (IP o) port.

Definition pinned (o : transportOptions) (e : nev) : Prop :=
  match e with
  | EDial a _ | Base (EResolveUDP a _) => pinned_address o a
  | ESocks _ _ _ _ => False
  | _ => True
  end.

Lemma accepts_proxied o o' : Proxy o' = Proxy o -> Proxy o <> [] -> accepts (proxied o) o' (fun _ => True).
Proof.
  intros Ep Hp. split; try done.
  - intros e He. destruct e; try done. by destruct e.
  - intros a r. unfold may_dial. rewrite Ep, bool_decide_false by done. done.
  - intros pu auth a r _ Hu. rewrite Ep in Hu. simpl. eauto.
Qed.

Lemma pin_addr_pinned o addr a :
  IP o <> [] -> pin_addr o addr = Ok a -> exists port, a = JoinHostPort (IP o) port.
Proof.
  intros Hip. unfold pin_addr. rewrite bool_decide_true by done.
  destruct (SplitHostPort addr) as [|[h p]]; [done|]. intros [= <-]. by exists p.
Qed.

(** Outside the blocks of a QUIC dial. *)
Definition pinned_still (o : transportOptions) (e : nev) : Prop := pinned o e /\ no_datagram e.

Lemma neutral_pinned o e : is_neutral e -> pinned_still o e.
Proof. intros He. split; destruct e; try done; by destruct e. Qed.

Lemma accepts_pinned P Burst o :
  IP o <> [] -> Proxy o = [] -> accepts (fun e => blocks (pinned_still o) P Burst [e]) o (fun _ => True).
Proof.
  intros Hip Hp. split; try done.
  - intros e He. left. apply single_one. by apply neutral_pinned.
  - intros a r. unfold may_dial. rewrite bool_decide_true by done. intros [addr Ha]. left. apply single_one.
    split; [by eapply pin_addr_pinned|done].
  - intros. left. by apply single_one.
Qed.

Lemma h3_accepted_pinned o l :
  IP o <> [] -> h3_accepted anywhere (blocks (pinned_still o) (pinned_address o) (fun _ _ _ => True)) o l.
Proof.
  intros Hip. split; [intros r; left; by apply single_one|]. intros sock attempts noise cfg q addr s _ _.
  apply h3_dial_blocks; [by apply neutral_pinned| |by apply bursts_any].
  intros target r Ht. split; [split; [|done]|]; by apply (pin_addr_pinned o addr).
Qed.

Lemma blocks_pinned o Burst t : made_of (blocks (pinned_still o) (pinned_address o) Burst) t -> Forall (pinned o) t.
Proof.
  induction 1 as [|b t Hb _ IH]; [constructor|]. apply Forall_app. split; [clear IH|exact IH].
  destruct Hb as [(e & -> & He & _)|(target & dst & sock & mid & tb & tq & HP & -> & Hm & Ht & Hq)]; [by constructor|].
  constructor; [exact HP|]. apply Forall_app. split; [|apply Forall_app; split].
  - apply Forall_map. eapply Forall_impl; [exact Hm|]. by intros e [r ->].
  - apply Forall_map. eapply Forall_impl; [exact Ht|]. by intros [] ?.
  - destruct Hq as [->|(_ & cfg & q & attempts & r & ->)]; by repeat constructor.
Qed.

(** A certificate is checked in every case, and for the name that is presented. *)
Definition checked (cfg : tls_config) : Prop :=
  tc_InsecureSkipVerify cfg = false /\ tc_RejectionUnverified cfg = false /\
  (tc_NameToVerify cfg = [] \/ tc_NameToVerify cfg = tc_ServerName cfg).

Definition verified (e : nev) : Prop :=
  match e with EHandshake _ _ cfg _ | EQUICDial _ _ cfg _ _ _ => checked cfg | _ => True end.

Lemma routes_verified o : AllowInsecure o = false -> routes anywhere (single verified) o checked.
Proof.
  intros Ha.
  assert (forall host l alpn, checked (tlsConfig o host l alpn)) as Hc by (intros; split_and!; [done..|by left]).
  assert (accepts verified o checked) as Hacc by (split; try done; intros e He; by destruct e).
  split.
  - by apply accepts_single.
  - intros l. split; [intros; apply Hc|]. intros _. apply (h3_accepted_single verified o checked); try done.
    intros s dst cfg q attempts r [_ [host ->]]. apply Hc.
  - intros addr. unfold default_tls, name_tls. case_bool_decide; split_and!; try done; by left.
  - intros name l. unfold probe_config. split_and!; try done. simpl. case_bool_decide; [by right|by left].
  - intros. by apply single_one.
Qed.

(** ** Properties *)

(** C3: With a proxy and without a fingerprint, [FetchWeb] and [ResolveDoH] speak to
    nobody but the proxy, the look-ups of ECH keys and every redirect included: each
    TCP connection goes to its address, and no UDP socket is opened. *)
Theorem proxy_only o ca w h :
  Proxy o <> [] -> Fingerprint o = [] ->
  (forall unmarshal json, (forall opts, unmarshal json = Ok opts -> fo_transport opts = o) ->
     wp (FetchWeb unmarshal json ca) w h (fun t _ => Forall (proxied o) t)) /\
  (forall unmarshal json, (forall opts, unmarshal json = Ok opts -> doh_transport opts = o) ->
     wp (ResolveDoH unmarshal json ca) w h (fun t _ => Forall (proxied o) t)).
Proof.
  intros Hp Hf.
  assert (validate o = Ok tt -> alpnMode o <> Ok alpnH3) as Hv.
  { intros Hv Hm. apply validate_valid in Hv. by destruct (valid_h3 o Hv Hm) as (_ & _ & ? & _). }
  assert (forall o', Proxy o' = Proxy o -> Fingerprint o' = Fingerprint o -> alpnMode o' = alpnMode o ->
            validate o = Ok tt -> routes anywhere (single (proxied o)) o' (fun _ => True)) as Hr.
  { intros o' Ep Ef Em Hok. apply routes_any; [by apply accepts_single, accepts_proxied| |by rewrite Ef].
    rewrite Em. intros Hm. by destruct (Hv Hok Hm). }
  apply (requests_do _ o (fun _ => True)); intros Hok; by apply Hr.
Qed.


(** C18: Unless the options allow it, no certificate goes unchecked: in every handshake
    of [FetchWeb] and [ResolveDoH], over TCP or QUIC, of the request, its redirects, the
    look-up of ECH keys or the probe for them, verification is on, a rejection of ECH
    included, and it is for the name the handshake presents. *)
Theorem verified_unless_allowed o ca w h :
  AllowInsecure o = false ->
  (forall unmarshal json, (forall opts, unmarshal json = Ok opts -> fo_transport opts = o) ->
     wp (FetchWeb unmarshal json ca) w h (fun t _ => Forall verified t)) /\
  (forall unmarshal json, (forall opts, unmarshal json = Ok opts -> doh_transport opts = o) ->
     wp (ResolveDoH unmarshal json ca) w h (fun t _ => Forall verified t)).
Proof. intros Ha. apply (requests_do _ o checked); intros _; by apply routes_verified. Qed.

End Traffic.

#[local] Existing Instance sample_lib.
#[local] Existing Instance sample_url.
#[local] Existing Instance sample_dns.
#[local] Existing Instance ascii_unicode.
#[local] Existing Instance arm64_int.

Definition dialed (a : gostr) (e : nev) : bool :=
  match e with EDial a' _ => bool_decide (a' = a) | _ => false end.

Lemma proxy_only_witness :
  let o := with_ "http://127.0.0.1:8080" "" "" None in
  let unmarshal := fetch_of o "https://example.com/" in
  let w := scripted "http/1.1" [("example.com:443" : gostr, true); ("example.org:443" : gostr, true)] in
  Proxy o <> [] /\ Fingerprint o = [] /\ length (FetchWeb unmarshal "" ∅ w []).1 = 22%nat /\
  wp (FetchWeb unmarshal "" ∅) w [] (fun t _ => Forall (proxied o) t).
Proof.
  intros o unmarshal w. split_and!; [done|done|by vm_compute|]. apply (proj1 (proxy_only o ∅ w [] ltac:(done) ltac:(done))). by intros opts [= <-].
Defined.

Definition dials_quic (e : nev) : bool := match e with EQUICDial _ _ _ _ _ _ => true | _ => false end.


Definition shakes (e : nev) : bool := match e with EHandshake _ _ _ _ => true | _ => false end.

Lemma verified_unless_allowed_witness :
  let o := with_ "" "" "chrome" probed in
  let unmarshal := fetch_of o "https://example.com/" in
  let w := answering_probe (scripted "h2" [("example.com:443" : gostr, true); ("example.org:443" : gostr, true)]) in
  AllowInsecure o = false /\ length (List.filter shakes (FetchWeb unmarshal "" ∅ w []).1) = 3%nat /\
  wp (FetchWeb unmarshal "" ∅) w [] (fun t _ => Forall verified t).
Proof.
  intros o unmarshal w. split; [done|]. split; [vm_compute; reflexivity|].
  apply (proj1 (verified_unless_allowed o ∅ w [] ltac:(done))). by intros opts [= <-].
Defined.

(** With a fingerprint that negotiated HTTP/1.1, a redirect to a cleartext url is
    dialed directly, proxy or not: the [http.Transport] has a [DialTLSContext] only. *)
Theorem proxy_bypassed :
  let o := with_ "http://127.0.0.1:8080" "" "chrome" None in
  let '(t, (_, r)) := run_fetch o "https://example.com/" "http/1.1"
                        ([("example.com:443" : gostr, true); ("example.com:80" : gostr, false)]) in
  validate o = Ok tt /\ fr_RespError r = None /\
  existsb (dialed "127.0.0.1:8080") t = true /\ existsb (dialed "example.com:80") t = true.
Proof. vm_compute. repeat split. Qed.
