(* ===== verification/Ownership.v ===== *)
(** * Who closes what a request opened

    Connections, UDP sockets and response bodies as resources that are gained by one
    event and given up by another, and a calculus of the resources a computation
    owns before and after it. *)

From stdpp Require Import gmap.
From S2P Require Import Prelude GoString GoCodec GoNet GoHTTP Xray Options Headers Noise EchConfig Validate Net EchCache Transport Resolver Fetch Quic Traffic.
Open Scope Z_scope.

Inductive resource := Conn (c : handle) | Sock (c : handle) | Body.

Section Resources.
Context `{XrayLib}.

(** What an event opens, when [h] happened before it. *)
Definition opens (h : list nev) (e : nev) : list resource :=
  match e with
  | EDial _ None | ESocks _ _ _ None | EQUICDial _ _ _ _ _ None => [Conn (length h)]
  | Base (EListenUDP None) => [Sock (length (omap base_event h))]
  | EClientReturn (Ok _) => [Body]
  | _ => []
  end.

Definition closes (e : nev) : list resource :=
  match e with
  | EClose c | EQUICClose c => [Conn c]
  | Base (ECloseUDP c) => [Sock c]
  | EBodyClose => [Body]
  | _ => []
  end.

(** What is left to the HTTP client. *)
Definition hands_over (e : nev) : list resource :=
  match e with EClientGot (Ok c) => [Conn c] | _ => [] end.

Fixpoint opened_in (h t : list nev) : list resource :=
  match t with
  | [] => []
  | e :: t => opens h e ++ opened_in (h ++ [e]) t
  end.

Definition disposed (t : list nev) : list resource := flat_map (fun e => closes e ++ hands_over e) t.

(** Owning [pre], [m] ends owning [post]: whatever it opens beyond that is closed
    or handed to the HTTP client, once. *)
Definition settles {A} (pre : list resource) (m : N A) (post : A -> list resource) : Prop :=
  forall w h, wp m w h (fun t a => pre ++ opened_in h t ≡ₚ disposed t ++ post a).

(** An event that moves no resource. *)
Definition still (e : nev) : bool :=
  match e with
  | EDial _ None | ESocks _ _ _ None | EQUICDial _ _ _ _ _ None | Base (EListenUDP None) | EClientReturn (Ok _)
  | EClose _ | EQUICClose _ | Base (ECloseUDP _) | EBodyClose | EClientGot (Ok _) => false
  | _ => true
  end.

(** ** Lemmas *)

Lemma opened_in_app h t t' : opened_in h (t ++ t') = opened_in h t ++ opened_in (h ++ t) t'.
Proof.
  revert h. induction t as [|e t IH]; intros h; simpl; [by rewrite app_nil_r|].
  rewrite IH, <- !app_assoc. done.
Qed.

Lemma disposed_app t t' : disposed (t ++ t') = disposed t ++ disposed t'.
Proof. apply flat_map_app. Qed.

Lemma disposed_split t : disposed t ≡ₚ flat_map closes t ++ flat_map hands_over t.
Proof.
  unfold disposed. induction t as [|e t IH]; simpl; [done|]. rewrite IH. solve_Permutation.
Qed.

Lemma still_moves e h : still e = true -> opens h e = [] /\ closes e = [] /\ hands_over e = [].
Proof. intros He. destruct e; simpl in *; repeat case_match; done. Qed.

Lemma still_trace h t : Forall (fun e => still e = true) t -> opened_in h t = [] /\ disposed t = [].
Proof.
  intros Ht. revert h. induction Ht as [|e t He _ IH]; intros h; [done|]. unfold disposed in *. simpl.
  destruct (still_moves e h He) as (-> & -> & ->). apply IH.
Qed.

Lemma settles_ret {A} pre (a : A) post : pre ≡ₚ post a -> settles pre (mret a) post.
Proof. intros Hp w h. apply wp_ret. simpl. by rewrite app_nil_r. Qed.

Lemma settles_bind {A B} pre mid post (m : N A) (f : A -> N B) :
  settles pre m mid -> (forall a, settles (mid a) (f a) post) -> settles pre (m ≫= f) post.
Proof.
  intros Hm Hf w h. apply wp_bind. eapply wp_mono; [apply Hm|]. intros t a Ht.
  eapply wp_mono; [apply Hf|]. intros t' b Ht'.
  rewrite opened_in_app, disposed_app, (assoc_L (++)), Ht, <- !(assoc_L (++)). by rewrite Ht'.
Qed.

Lemma settles_still {A} pre (m : N A) : does (fun e => still e = true) anything m -> settles pre m (fun _ => pre).
Proof.
  intros Hm w h. eapply wp_mono; [apply Hm|]. intros t a [Ht _].
  destruct (still_trace h t Ht) as [-> ->]. by rewrite app_nil_r.
Qed.

(** After a computation that moves nothing. *)
Lemma settles_skip {A B} pre post (m : N A) (f : A -> N B) :
  does (fun e => still e = true) anything m -> (forall a, settles pre (f a) post) -> settles pre (m ≫= f) post.
Proof. intros Hm. apply (settles_bind pre (fun _ => pre)). by apply settles_still. Qed.

Lemma settles_post {A} pre (m : N A) post post' :
  settles pre m post -> (forall a, post a ≡ₚ post' a) -> settles pre m post'.
Proof. intros Hm Hp w h. eapply wp_mono; [apply Hm|]. intros t a Ht. by rewrite <- Hp. Qed.

Lemma settles_pre {A} pre pre' (m : N A) post : settles pre m post -> pre' ≡ₚ pre -> settles pre' m post.
Proof. intros Hm Hp w h. eapply wp_mono; [apply Hm|]. intros t a Ht. by rewrite Hp. Qed.

Lemma settles_bind_res {A B} pre mid post (m : N (res A)) (f : A -> N (res B)) :
  settles pre m (fun r => match r with Ok a => mid a | Err e => post (Err e) end) ->
  (forall a, settles (mid a) (f a) post) -> settles pre (bind_res m f) post.
Proof.
  intros Hm Hf. eapply settles_bind; [exact Hm|]. intros [a|e]; [apply Hf|by apply settles_ret].
Qed.

Lemma settles_close c k : settles (Conn c :: k) (close_conn c) (fun _ => k).
Proof. intros w h. apply wp_perform. simpl. by rewrite app_nil_r. Qed.

Lemma settles_opened k (answer : NetWorld -> list nev -> option error) ev :
  (forall h r, opens h (ev r) = match r with None => [Conn (length h)] | Some _ => [] end) ->
  (forall r, closes (ev r) = [] /\ hands_over (ev r) = []) ->
  settles k (opened (perform answer ev)) (fun r => match r with Ok c => Conn c :: k | Err _ => k end).
Proof.
  intros Ho Hd w h. apply wp_opened. intros r _. unfold disposed. simpl. rewrite Ho.
  destruct (Hd r) as [-> ->]. destruct r; simpl; [by rewrite app_nil_r|]. by rewrite <- Permutation_cons_append.
Qed.

End Resources.

Section Settle.
Context `{XrayLib} `{NetURL} `{Unicode} `{IntWidth} `{Cryptobyte} `{DnsLib}.
#[local] Set Default Proof Using "Type*".

(** The connection of a result, on top of what was owned. *)
Definition owned (r : res handle) (k : list resource) : list resource :=
  match r with Ok c => Conn c :: k | Err _ => k end.

(** What a transport keeps between the dials of the HTTP client. *)
Definition held (rt : round_tripper) (st : rt_state) : list resource :=
  match rt with
  | RtUTLS _ _ _ _ _ _ => match rs_pending st with Some c => [Conn c] | None => [] end
  | RtH3 sock _ _ _ _ _ => [Sock sock]
  | _ => []
  end.

Lemma settles_conn {B} k post (m : N (res handle)) (f : handle -> N (res B)) :
  settles k m (fun r => owned r k) -> (forall c, settles (Conn c :: k) (f c) post) ->
  (forall e, k ≡ₚ post (Err e)) -> settles k (bind_res m f) post.
Proof.
  intros Hm Hf He. eapply settles_bind; [exact Hm|]. intros [c|e]; [apply Hf|]. apply settles_ret, He.
Qed.

(** ** Lemmas: automation *)

Ltac moves_nothing := repeat first [apply nextPacket_does | does_step]; try done.

(** One step of a computation whose resources are settled on every branch; what is
    left are the calls that open or close. *)
Ltac settle :=
  lazymatch goal with
  | |- settles _ (mret _) _ => apply settles_ret; try done
  | |- settles _ (close_conn _ ≫= _) _ => eapply settles_bind; [apply settles_close|intros ?]; cbv beta
  | |- settles _ (perform _ _ ≫= _) _ => apply settles_skip; [by apply does_perform; intros []|intros ?]
  | |- settles _ (if ?b then _ else _) _ => destruct b eqn:?
  | |- settles _ (match ?x with _ => _ end) _ => destruct x eqn:?
  | |- settles _ (let _ := _ in _) _ => cbv zeta
  end.

(** ** Lemmas: connections *)

Lemma proxyConnect_still c pu addr : does (fun e => still e = true) anything (proxyConnect c pu addr).
Proof. unfold proxyConnect, ctx_deadline, set_deadline, write_conn, read_response. moves_nothing. Qed.

Lemma dial_tcp_settles addr k : settles k (dial_tcp addr) (fun r => owned r k).
Proof. apply settles_opened; by intros; destruct r. Qed.

Lemma dial_socks_settles server auth addr k : settles k (dial_socks server auth addr) (fun r => owned r k).
Proof. apply settles_opened; by intros; destruct r. Qed.

Lemma quic_dial_settles s dst cfg q attempts k : settles k (quic_dial s dst cfg q attempts) (fun r => owned r k).
Proof. apply settles_opened; by intros; destruct r. Qed.

Lemma dialViaProxy_settles o addr k : settles k (dialViaProxy o addr) (fun r => owned r k).
Proof.
  unfold dialViaProxy. repeat first [apply dial_socks_settles | settle].
  apply settles_conn; [apply dial_tcp_settles| |done]. intros c.
  apply settles_skip; [apply proxyConnect_still|]. intros err. repeat settle.
Qed.

Lemma rawDial_settles o addr frag k : settles k (rawDial o addr frag) (fun r => owned r k).
Proof.
  unfold rawDial. eapply (settles_bind_res _ (fun _ => k)); [by apply settles_ret; destruct (pin_addr o addr)|].
  intros a. apply settles_conn; [|intros c; unfold new_fragment; by repeat settle|done].
  case_bool_decide; [apply dial_tcp_settles|apply dialViaProxy_settles].
Qed.

Lemma stdTLSDial_settles o addr frag host ech alpn s k :
  settles k (stdTLSDial o addr frag host ech alpn s) (fun p => owned p.2 k).
Proof.
  unfold stdTLSDial, tls_handshake. eapply settles_bind; [apply rawDial_settles|]. intros r. repeat settle.
Qed.

Lemma dialTLS_settles o mode frag host ech fp addr s k :
  settles k (dialTLS o mode frag host ech fp addr s) (fun p => owned p.2 k).
Proof.
  unfold dialTLS, tls_handshake, new_uclient. eapply settles_bind; [apply rawDial_settles|]. intros r. repeat settle.
Qed.

Lemma http_tls_settles cfg c k : settles (Conn c :: k) (http_tls cfg c) (fun r => owned r k).
Proof. unfold http_tls, tls_handshake. repeat settle. Qed.

(** ** Lemmas: UDP sockets and noise *)

Lemma listen_udp_settles k :
  settles k (lift_base listen_udp) (fun r => match r with Ok s => Sock s :: k | Err _ => k end).
Proof.
  intros w h. apply wp_lift_base. unfold wp, listen_udp, disposed. simpl. destruct (w_listen_udp _ _); simpl.
  - by rewrite app_nil_r.
  - by rewrite <- Permutation_cons_append.
Qed.

Lemma close_udp_settles s k : settles (Sock s :: k) (lift_base (close_udp s)) (fun _ => k).
Proof. intros w h. apply wp_lift_base. unfold wp. simpl. by rewrite app_nil_r. Qed.

Lemma send_still n c dst : does (fun e => still e = true) anything (lift_base (send n c dst)).
Proof. apply does_lift. eapply does_mono; [apply send_does|by intros []|done]. Qed.

Lemma h3_dial_settles o sock attempts noise ech cfg q addr s k :
  settles k (h3_dial o sock attempts noise ech cfg q addr s) (fun p => owned p.2 k).
Proof.
  unfold h3_dial, quic_close. repeat settle.
  apply settles_skip; [by apply does_lift, does_perform|]. intros r. settle; [|settle].
  apply settles_skip; [case_match; [apply send_still|by apply does_ret]|]. intros nerr. settle; [settle|].
  eapply settles_bind; [apply quic_dial_settles|]. intros c. settle; [|settle].
  destruct (record _ _ s) as [s' [e|]]; [|by settle].
  eapply (settles_bind _ (fun _ => k)); [|intros ?; by settle].
  intros w h. apply wp_perform. simpl. by rewrite app_nil_r.
Qed.

(** ** Lemmas: transports *)

Lemma h3RoundTripper_settles o u ech s k :
  settles k (h3RoundTripper o u ech s) (fun r => match r with Ok p => held p.1 p.2 ++ k | Err _ => k end).
Proof.
  unfold h3RoundTripper.
  eapply (settles_bind_res _ (fun _ => k)); [by apply settles_ret; destruct (quicAttempts o)|]. intros attempts.
  eapply (settles_bind_res _ (fun _ => k)); [by apply settles_ret; destruct (noise_config o)|]. intros noise.
  eapply settles_bind; [apply listen_udp_settles|]. intros [sock|e]; by settle.
Qed.

Lemma handoff_get_settles (h2 : bool) dial mode frag host ech fp st addr k :
  (forall addr s k, settles k (dial addr s) (fun p => owned p.2 k)) ->
  settles (held (RtUTLS h2 mode frag host ech fp) st ++ k) (handoff_get dial st addr)
    (fun p => owned p.2 (held (RtUTLS h2 mode frag host ech fp) p.1 ++ k)).
Proof.
  intros Hd. unfold handoff_get, held. destruct (rs_pending st) as [c|]; [by settle|].
  eapply settles_bind; [apply Hd|]. intros [s r]. by settle.
Qed.

Lemma rt_dial_settles o rt st addr tls k :
  settles (held rt st ++ k) (rt_dial o rt st addr tls) (fun p => owned p.2 (held rt p.1 ++ k)).
Proof.
  assert (forall (m : N (res handle)), settles (held rt st ++ k) m (fun r => owned r (held rt st ++ k)) ->
            settles (held rt st ++ k) (r ← m; mret (st, r)) (fun p => owned p.2 (held rt p.1 ++ k))) as Hkeep.
  { intros m Hm. eapply settles_bind; [exact Hm|]. intros r. by settle. }
  assert (forall frag cfg (b : bool), settles (held rt st ++ k)
            (c ←? rawDial o addr frag; if b then http_tls cfg c else mret (Ok c))
            (fun r => owned r (held rt st ++ k))) as Htls.
  { intros frag cfg b. apply settles_conn; [apply rawDial_settles|intros c|done].
    destruct b; [apply http_tls_settles|by settle]. }
  unfold rt_dial. cbv zeta. destruct rt.
  - apply Hkeep, Htls.
  - apply Hkeep, Htls.
  - settle; [|by settle]. eapply settles_bind; [apply stdTLSDial_settles|]. intros [s r]. by settle.
  - settle; [apply handoff_get_settles; intros; apply dialTLS_settles|]. settle; [by settle|].
    apply Hkeep, dial_tcp_settles.
  - settle; [|by settle]. eapply settles_bind; [apply h3_dial_settles|]. intros [s r]. by settle.
Qed.

Lemma client_got_settles r k : settles (owned r k) (client_got r) (fun _ => k).
Proof.
  destruct r; intros w h; apply wp_perform; simpl; by rewrite app_nil_r.
Qed.

(** The body of a response. *)
Definition with_body (r : res Response) (k : list resource) : list resource :=
  match r with Ok _ => Body :: k | Err _ => k end.

Lemma client_do_settles o rt st req k :
  settles (held rt st ++ k) (client_do o rt st req) (fun p => with_body p.2 (held rt p.1 ++ k)).
Proof.
  assert (forall st, settles (held rt st ++ k) (r ← client_return; mret (st, r))
            (fun p => with_body p.2 (held rt p.1 ++ k))) as Hret.
  { intros st'. eapply (settles_bind _ (fun r => with_body r (held rt st' ++ k))); [|intros r; by settle].
    intros w h. apply wp_perform. destruct (nw_return w h); simpl; [|by rewrite app_nil_r].
    by rewrite <- Permutation_cons_append. }
  assert (forall n st, settles (held rt st ++ k) (client_loop n o rt st)
            (fun p => with_body p.2 (held rt p.1 ++ k))) as Hl.
  { induction n as [|n IH]; intros st'; simpl; [apply Hret|]. unfold client_next. settle. settle; [|apply Hret].
    settle. eapply settles_bind; [apply rt_dial_settles|]. intros [st'' r].
    eapply settles_bind; [apply client_got_settles|]. intros ?. apply IH. }
  unfold client_do, client_start. settle. apply settles_skip; [|intros n; apply Hl].
  intros w h. split; [constructor|done].
Qed.

Lemma cleanup_settles rt st k : settles (held rt st ++ k) (cleanup rt st) (fun _ => k).
Proof.
  unfold cleanup, held, handoff_discard, h3_close, quic_transport_close.
  destruct rt; try (by settle); [settle; [apply settles_close|by settle]|].
  repeat settle. apply close_udp_settles.
Qed.

Lemma body_close_settles k : settles (Body :: k) body_close (fun _ => k).
Proof. intros w h. apply wp_perform. simpl. by rewrite app_nil_r. Qed.

(** ** Lemmas: requests *)

Lemma transport_with_settles o u frag mode l s k :
  settles k (transport_with o u frag mode l s)
    (fun r => match r with Ok p => held p.1 p.2 ++ k | Err _ => k end).
Proof.
  unfold transport_with. cbv zeta. case_bool_decide; [apply h3RoundTripper_settles|]. repeat settle.
  eapply settles_bind; [apply dialTLS_settles|]. intros [s' [c|e]]; by settle.
Qed.

Lemma roundTripper_settles acquire o u s ca k :
  (forall host ca, settles k (acquire host ca) (fun _ => k)) ->
  settles k (roundTripper acquire o u s ca)
    (fun x => match x.2 with Ok p => held p.1 p.2 ++ k | Err _ => k end).
Proof.
  intros Hacq. unfold roundTripper. repeat (settle; []). settle; [|by settle]. settle; [|by settle]. settle.
  - settle. by repeat case_bool_decide.
  - eapply settles_bind; [apply Hacq|]. intros [ca' [[l key]|e]]; [|by settle].
    eapply settles_bind; [apply transport_with_settles|]. intros r. by settle.
Qed.

(** From the request on: the body is closed, the transport keeps what it holds. *)
Lemma fetch_over_settles opts method rt st ca k :
  settles (held rt st ++ k) (fetch_over opts method rt st ca) (fun x => held rt x.1.2 ++ k).
Proof.
  unfold fetch_over, range_map. settle; [by settle|]. settle.
  eapply settles_bind; [apply client_do_settles|]. intros [st' [resp|e]]; [|by repeat settle].
  unfold fetch_response. eapply (settles_bind _ (fun _ => held rt st' ++ k)); [|intros x; by settle].
  eapply settles_bind; [apply body_close_settles|]. intros ?. by settle.
Qed.

Lemma exchange_over_settles o server wire rt st ca k :
  settles (held rt st ++ k) (exchange_over o server wire rt st ca) (fun x => held rt x.1.2 ++ k).
Proof.
  unfold exchange_over, range_map. settle; [by settle|]. settle.
  eapply settles_bind; [apply client_do_settles|]. intros [st' [resp|e]]; [|by repeat settle].
  unfold read_reply. eapply (settles_bind _ (fun _ => held rt st' ++ k)); [|intros x; by settle].
  eapply settles_bind; [apply body_close_settles|]. intros ?. by settle.
Qed.

Lemma padded_still msg : does (fun e => still e = true) anything (padded msg).
Proof. unfold padded, RandBetween. moves_nothing. Qed.

Lemma dnsExchange_settles acquire o server msg ca k :
  (forall host ca k, settles k (acquire host ca) (fun _ => k)) ->
  settles k (dnsExchange acquire o server msg ca) (fun _ => k).
Proof.
  intros Hacq. unfold dnsExchange. settle; [|by settle]. settle; [by settle|].
  apply settles_skip; [apply padded_still|]. intros m. settle; [|by settle].
  eapply settles_bind; [by apply roundTripper_settles|]. intros [ca' [[rt st]|e]]; [|by settle].
  eapply settles_bind; [apply exchange_over_settles|]. intros [[ca'' st'] x].
  eapply settles_bind; [apply cleanup_settles|]. intros ?. by settle.
Qed.

Lemma echProbe_settles o name target k : settles k (echProbe o name target) (fun _ => k).
Proof.
  unfold echProbe, ctx_deadline, set_deadline, tls_handshake.
  eapply (settles_bind_res _ (fun _ => k)); [|intros l].
  { eapply settles_post; [apply settles_still|by intros []].
    apply does_lift. unfold bogusECHConfigList, rand_read. moves_nothing. }
  eapply (settles_bind_res _ (fun _ => k)); [by apply settles_ret; destruct (fragmentConfig _)|]. intros frag.
  eapply settles_bind; [apply rawDial_settles|]. intros [c|e]; [|by settle]. settle.
  apply settles_skip; [moves_nothing|]. intros ?. apply settles_skip; [moves_nothing|]. intros r. by repeat settle.
Qed.

Lemma echAcquire_run_settles ca key fetch k :
  (forall ca, settles k (fetch ca) (fun _ => k)) -> settles k (echAcquire_run ca key fetch) (fun _ => k).
Proof.
  intros Hf. assert (does (fun e => still e = true) anything (lift_base now)) as Hnow by (apply does_lift, does_perform; done).
  unfold echAcquire_run. apply settles_skip; [exact Hnow|]. intros t1. settle; [by settle|].
  apply settles_skip; [exact Hnow|]. intros t2. settle; [by settle|].
  eapply settles_bind; [apply Hf|]. intros [ca' r]. apply settles_skip; [exact Hnow|]. intros t3.
  by destruct (echStored r t3); settle.
Qed.

Lemma echConfigList_settles depth o host ca k : settles k (echConfigList depth o host ca) (fun _ => k).
Proof.
  revert o host ca k. induction depth as [|depth IH]; intros o host ca k; simpl; (settle; [by settle|]);
    (settle; [|by settle]); (settle; [by settle|]); settle.
  1, 3: settle; [|by settle]; settle; eapply settles_bind; [apply echAcquire_run_settles|intros [ca' r]; by settle];
    intros ca'; eapply settles_bind; [apply echProbe_settles|intros r; by settle].
  1, 2: eapply settles_bind; [apply echAcquire_run_settles|intros [ca' r]; by settle]; intros ca'; unfold fetch_doh.
  - apply (settles_bind _ (fun _ => k)); [by settle|]. intros [ca'' x]. by settle.
  - eapply settles_bind; [by apply dnsExchange_settles|]. intros [ca'' x]. by settle.
Qed.

Lemma fetch_with_settles opts u ca k : settles k (fetch_with opts u ca) (fun _ => k).
Proof.
  unfold fetch_with. cbv zeta. eapply settles_bind.
  { apply roundTripper_settles. intros. apply echConfigList_settles. }
  intros [ca' [[rt st]|e]]; [|by settle].
  eapply settles_bind; [apply fetch_over_settles|]. intros [[ca'' st'] x].
  eapply settles_bind; [apply cleanup_settles|]. intros ?. by settle.
Qed.

(** ** Properties *)

(** C5: Whatever a request opens - connections, tunnels, QUIC connections, UDP
    sockets, response bodies, those of its ECH look-ups included - is closed by the
    time it returns, exactly once, unless it was handed to the HTTP client, exactly
    once; on every path of [FetchWeb] and of [ResolveDoH]. *)
Theorem request_settles ca w h :
  (forall unmarshal json,
     wp (FetchWeb unmarshal json ca) w h (fun t _ => opened_in h t ≡ₚ flat_map closes t ++ flat_map hands_over t)) /\
  (forall unmarshal json,
     wp (ResolveDoH unmarshal json ca) w h (fun t _ => opened_in h t ≡ₚ flat_map closes t ++ flat_map hands_over t)).
Proof.
  assert (forall A (m : N A), settles [] m (fun _ => []) ->
            wp m w h (fun t _ => opened_in h t ≡ₚ flat_map closes t ++ flat_map hands_over t)) as Hs.
  { intros A m Hm. eapply wp_mono; [apply Hm|]. intros t a Ht. simpl in Ht.
    by rewrite Ht, app_nil_r, disposed_split. }
  split; intros unmarshal json; apply Hs.
  - unfold FetchWeb. settle; [|by settle]. settle. apply fetch_with_settles.
  - unfold ResolveDoH. settle; [|by settle]. cbv zeta. repeat (settle; [by settle|]).
    settle; [|by settle]. settle; [|by settle].
    eapply settles_bind; [apply dnsExchange_settles; intros; apply echConfigList_settles|]. intros [ca' x]. by settle.
Qed.

End Settle.
