(* ===== verification/HandoffRun.v ===== *)
(** * A client that dials in turn, as a schedule of dials

    [Transport.v] runs a request's dials one after the other. Here every such run is a
    schedule of the machine of [Handoff.v], so that what holds of all interleavings
    holds of the transport the requests are given. *)

From stdpp Require Import gmap.
From S2P Require Import Prelude Steps GoString GoCodec GoNet GoHTTP Xray Options Noise Headers Net EchCache Transport Handoff Resolver Fetch Sample Quic Traffic Ownership.
Open Scope Z_scope.

Section Run.
Context `{XrayLib} `{NetURL} `{Unicode} `{IntWidth}.

(** What [c] negotiated: QUIC speaks [h3] only, and anything else is in a handshake of
    the history. *)
Definition seen (quic : bool) (h : list nev) (c : handle) (n : negotiation) : Prop :=
  if quic then n.1 = ("h3" : gostr) else exists fp cfg, EHandshake c fp cfg (Ok n) ∈ h.

(** The handshake of [c] in [h] chose HTTP/2, or did not. *)
Definition spoke (h2 : bool) (h : list nev) (c : handle) : Prop :=
  exists fp cfg proto acc, EHandshake c fp cfg (Ok (proto, acc)) ∈ h /\ bool_decide (proto = ("h2" : gostr)) = h2.

(** A transport's state between two dials is that of a machine in which nobody
    holds a mutex; connections are named in the order of the history. *)
Record shared (quic : bool) (st : rt_state) (m : Handoff.machine) (h : list nev) : Prop := {
  shared_pending : Handoff.pending m = rs_pending st;
  shared_state : Handoff.state m = rs_conn st;
  shared_h_mu : Handoff.h_mu m = None;
  shared_s_mu : Handoff.s_mu m = None;
  shared_names : forall c, is_Some (Handoff.negotiated m !! c) -> (c < length h)%nat;
  shared_seen : forall c n, Handoff.negotiated m !! c = Some n -> seen quic h c n
}.

(** What a dial gives that performs [t] after [h]: an error and nothing recorded, or a
    connection opened meanwhile whose negotiation [record] accepts or not. *)
Definition dialed (quic : bool) (h t : list nev) (s : connState) (r : connState * res handle) : Prop :=
  (exists e, r = (s, Err e)) \/
  exists c proto ech, (length h <= c < length h + length t)%nat /\ seen quic t c (proto, ech) /\
    r = match record proto ech s with (s', Some e) => (s', Err e) | (s', None) => (s', Ok c) end.

(** The connections the client was given when the connection it had asked for last
    was one over TLS; [tls] says whether the one asked for before the history was. *)
Fixpoint tls_given (tls : bool) (tr : list nev) : list handle :=
  match tr with
  | [] => []
  | EClientConnect (Some (_, b)) :: r => tls_given b r
  | EClientGot (Ok c) :: r => if tls then c :: tls_given tls r else tls_given tls r
  | _ :: r => tls_given tls r
  end.

(** What a transport promises of the function it dials with. *)
Class Dials (quic : bool) (d : connState -> N (connState * res handle)) : Prop :=
  dials s w h : wp (d s) w h (fun t r => dialed quic h t s r).

(** ** Lemmas *)

Lemma opened_in_names h t c : Conn c ∈ opened_in h t -> (length h <= c < length h + length t)%nat.
Proof.
  revert h. induction t as [|e t IH]; intros h; simpl; [by intros ?%elem_of_nil|].
  intros [Hc|Hc]%elem_of_app.
  - destruct e; simpl in Hc; repeat case_match; simpl in Hc;
      try (by apply elem_of_nil in Hc); apply list_elem_of_singleton in Hc; simplify_eq; lia.
  - apply IH in Hc. rewrite length_app in Hc. simpl in Hc. lia.
Qed.

(** What a dial returns, it opened. *)
Lemma settles_names {A} (m : N A) (f : A -> option handle) w h :
  settles [] m (fun a => match f a with Some c => [Conn c] | None => [] end) ->
  wp m w h (fun t a => forall c, f a = Some c -> (length h <= c < length h + length t)%nat).
Proof.
  intros Hm. eapply wp_mono; [apply Hm|]. intros t a Ht c Hc. cbv beta in Ht. rewrite Hc in Ht. simpl in Ht.
  apply opened_in_names. rewrite Ht. apply elem_of_app. right. by left.
Qed.

Definition res_option {A} (r : res A) : option A := match r with Ok a => Some a | Err _ => None end.

Lemma rawDial_names o addr frag w h :
  wp (rawDial o addr frag) w h (fun t r => forall c, r = Ok c -> (length h <= c < length h + length t)%nat).
Proof.
  eapply wp_mono; [apply (settles_names _ res_option)|].
  - eapply settles_post; [apply rawDial_settles|]. by intros [c|e].
  - intros t r Hr c ->. by apply Hr.
Qed.

Lemma quic_dial_names s dst cfg q attempts w h :
  wp (quic_dial s dst cfg q attempts) w h (fun t r => forall c, r = Ok c -> (length h <= c < length h + length t)%nat).
Proof.
  eapply wp_mono; [apply (settles_names _ res_option)|].
  - eapply settles_post; [apply quic_dial_settles|]. by intros [c|e].
  - intros t r Hr c ->. by apply Hr.
Qed.

(** The last part of every dial: [record], and closing what it refuses. *)
Lemma record_dials quic c proto ech s (close : N unit) w h h0 t0 (Q : list nev -> connState * res handle -> Prop) :
  (length h0 <= c < length h0 + length t0)%nat -> seen quic t0 c (proto, ech) -> (forall t r, dialed quic h0 t0 s r -> Q t r) ->
  wp (match record proto ech s with
      | (s', Some e) => _ ← close; mret (s', Err e)
      | (s', None) => mret (s', Ok c)
      end) w h Q.
Proof.
  intros Hc Hn HQ. assert (dialed quic h0 t0 s (match record proto ech s with
    | (s', Some e) => (s', Err e) | (s', None) => (s', Ok c) end)) as Hd by (right; exists c, proto, ech; done).
  destruct (record proto ech s) as [s' [e|]].
  - apply wp_bind, wp_True. intros t a. apply wp_ret. by apply HQ.
  - apply wp_ret. by apply HQ.
Qed.

Lemma seen_mono quic h h' c n : seen quic h c n -> h ⊆ h' -> seen quic h' c n.
Proof. unfold seen. destruct quic; [done|]. intros (fp & cfg & ?) Hh. eauto. Qed.

Lemma dialed_mono quic h t t' s r : dialed quic h t s r -> t ⊆ t' -> (length t <= length t')%nat -> dialed quic h t' s r.
Proof.
  intros [?|(c & p & e & ? & ? & ?)] Ht Hl; [by left|right]. exists c, p, e. split_and!; [lia..|by eapply seen_mono|done].
Qed.

Lemma dial_fails quic (m : N unit) s e w h h0 (Q : list nev -> connState * res handle -> Prop) :
  (forall t r, dialed quic h0 [] s r -> Q t r) -> wp (_ ← m; mret (s, Err e)) w h Q.
Proof. intros HQ. apply wp_bind, wp_True. intros t a. apply wp_ret. apply HQ. left. by exists e. Qed.

#[local] Ltac known :=
  intros t r Hr; eapply dialed_mono; [exact Hr|set_solver|rewrite ?length_app; simpl; rewrite ?length_app; lia].

#[export] Instance stdTLSDial_dials o addr frag host ech alpn : Dials false (stdTLSDial o addr frag host ech alpn).
Proof.
  intros s w h. unfold stdTLSDial, tls_handshake. apply wp_bind. eapply wp_mono; [apply rawDial_names|].
  intros t0 [c|e] Hc; [|apply wp_ret; left; by exists e]. specialize (Hc c eq_refl).
  apply wp_bind_perform. intros [[proto acc]|e] _; [|eapply (dial_fails false _ _ _ _ _ h); known].
  set (ev := EHandshake c _ _ _). apply (record_dials false _ _ _ _ _ _ _ h (t0 ++ [ev])); [rewrite length_app; lia| |known].
  eexists _, _. apply elem_of_app. right. by left.
Qed.

#[export] Instance dialTLS_dials o mode frag host ech fp addr : Dials false (dialTLS o mode frag host ech fp addr).
Proof.
  intros s w h. unfold dialTLS, tls_handshake, new_uclient. apply wp_bind. eapply wp_mono; [apply rawDial_names|].
  intros t0 [c|e] Hc; [|apply wp_ret; left; by exists e]. specialize (Hc c eq_refl).
  apply wp_bind_perform. intros ok _. destruct (negb ok); [eapply (dial_fails false _ _ _ _ _ h); known|].
  apply wp_bind_perform. intros [[proto acc]|e] _; [case_match|]; [eapply (dial_fails false _ _ _ _ _ h); known| |eapply (dial_fails false _ _ _ _ _ h); known].
  set (ev := EHandshake c _ _ _). apply (record_dials false _ _ _ _ _ _ _ h (t0 ++ [ev])); [rewrite length_app; lia| |known].
  eexists _, _. apply elem_of_app. right. by left.
Qed.

#[export] Instance h3_dial_dials o sock attempts noise ech cfg q addr : Dials true (h3_dial o sock attempts noise ech cfg q addr).
Proof.
  intros s w h. unfold h3_dial. destruct (pin_addr o addr); [|apply wp_ret; left; eauto].
  apply wp_bind, wp_True. intros t1 [dst|e]; [|apply wp_ret; left; eauto].
  apply wp_bind, wp_True. intros t2 [e|]; [apply wp_ret; left; eauto|].
  apply wp_bind. eapply wp_mono; [apply quic_dial_names|].
  intros t0 [c|e] Hc; [|apply wp_ret; left; by exists e]. specialize (Hc c eq_refl).
  rewrite !length_app in Hc.
  eapply (record_dials true c _ _ s _ _ _ h (t1 ++ t2 ++ t0)); [rewrite !length_app; lia|done|known].
Qed.

(** ** Lemmas: calls of the machine alone *)

Lemma run_step t p m m' :
  Handoff.goroutines m !! t = Some p -> Handoff.run t p m = Some m' -> Handoff.step (Handoff.Run t) m = Some m'.
Proof. intros Ht Hr. cbn [Handoff.step]. by rewrite Ht. Qed.

(** The next step of the goroutine that was put in its place last, and the state
    after it as a record. *)
Ltac shape :=
  cbv beta iota delta [Handoff.goto with_h_mu with_s_mu clear_pending with_state Handoff.opened Handoff.close
    Handoff.h_mu Handoff.pending Handoff.s_mu Handoff.state Handoff.negotiated Handoff.closed Handoff.goroutines];
  rewrite ?insert_insert_eq.
Ltac alone eqs :=
  eapply schedule_cons;
    [eapply run_step; [apply lookup_insert_eq|cbn -[record insert lookup]; rewrite ?eqs; reflexivity]|]; shape.

(** What the machine is after a call of [t] that had it alone: the state [s], the
    pending connection [o], the connections [neg], and [t] with [p]. *)
Definition after (m : Handoff.machine) (t : nat) (l : list Handoff.action) (o : option handle) (s : connState)
    (neg : gmap handle negotiation) (p : Handoff.place) : Prop :=
  exists m', schedule Handoff.step l m = Some m' /\ Handoff.pending m' = o /\ Handoff.state m' = s /\
    Handoff.negotiated m' = neg /\ Handoff.goroutines m' = <[t := p]> (Handoff.goroutines m) /\
    Handoff.h_mu m' = None /\ Handoff.s_mu m' = None.

Definition recorded (c : handle) (r : connState * option error) : connState * res handle :=
  match r with (s', Some e) => (s', Err e) | (s', None) => (s', Ok c) end.

Lemma record_refused proto ech s s' e : record proto ech s = (s', Some e) -> s' = s.
Proof. unfold record. case_match; by intros [= <- _]. Qed.

Lemma dial_alone m t r :
  Handoff.h_mu m = None -> Handoff.s_mu m = None -> Handoff.goroutines m !! t = Some Handoff.Dialing ->
  (forall c n, r = Ok (c, n) -> Handoff.negotiated m !! c = None) ->
  let d := match r with
           | Ok (c, n) => recorded c (record n.1 n.2 (Handoff.state m))
           | Err e => (Handoff.state m, Err e)
           end in
  let neg := match r with Ok (c, n) => <[c := n]> (Handoff.negotiated m) | Err _ => Handoff.negotiated m end in
  exists l, after m t l (Handoff.pending m) d.1 neg (Handoff.Got d.2).
Proof.
  intros Hh Hs Ht Hneg. destruct m as [hm pd sm st neg cl g]; simpl in *; subst.
  destruct r as [[c [proto ech]]|e].
  - specialize (Hneg c (proto, ech) eq_refl).
    assert (forall l, schedule Handoff.step (Handoff.DialReturns t (Ok (c, (proto, ech))) :: l) (Handoff.Build_machine None pd None st neg cl g) =
      schedule Handoff.step l (Handoff.Build_machine None pd None st (<[c := (proto, ech)]> neg) cl (<[t := Handoff.RecordLock c (proto, ech)]> g))) as Hd.
    { intros l. cbn [schedule Handoff.step]. cbn [Handoff.goroutines Handoff.negotiated]. by rewrite Ht, Hneg. }
    destruct (record proto ech st) as [s' [e|]] eqn:Er; simpl.
    + exists [Handoff.DialReturns t (Ok (c, (proto, ech))); Handoff.Run t; Handoff.Run t; Handoff.Run t; Handoff.Run t].
      unfold after. rewrite Hd. eexists. split.
      { do 4 alone Er. reflexivity. }
      pose proof (record_refused _ _ _ _ _ Er) as ->. unfold recorded. simpl. rewrite ?Er. done.
    + exists [Handoff.DialReturns t (Ok (c, (proto, ech))); Handoff.Run t; Handoff.Run t; Handoff.Run t; Handoff.Run t].
      unfold after. rewrite Hd. eexists. split.
      { do 4 alone Er. reflexivity. }
      simpl. rewrite ?Er. done.
  - exists [Handoff.DialReturns t (Err e)]. eexists. split.
    { eapply schedule_cons; [cbn [Handoff.step]; cbn [Handoff.goroutines]; rewrite Ht; reflexivity|]. reflexivity. }
    done.
Qed.

(** A call of [get] up to the dial, when nothing is pending; and with a pending
    connection to the end. *)
Lemma get_dials m t :
  Handoff.h_mu m = None -> Handoff.pending m = None -> Handoff.goroutines m !! t = None ->
  exists l, schedule Handoff.step l m = Some (Handoff.goto t Handoff.Dialing m).
Proof.
  intros Hh Hp Ht. destruct m as [hm pd sm st neg cl g]; simpl in *; subst.
  exists [Handoff.CallGet t; Handoff.Run t; Handoff.Run t; Handoff.Run t].
  eapply schedule_cons; [cbn [Handoff.step]; unfold Handoff.call; cbn [Handoff.goroutines]; rewrite Ht; reflexivity|].
  shape. do 3 alone Ht. reflexivity.
Qed.

Lemma get_takes m t c :
  Handoff.h_mu m = None -> Handoff.s_mu m = None -> Handoff.pending m = Some c -> Handoff.goroutines m !! t = None ->
  exists l, after m t l None (Handoff.state m) (Handoff.negotiated m) (Handoff.Got (Ok c)).
Proof.
  intros Hh Hs Hp Ht. destruct m as [hm pd sm st neg cl g]; simpl in *; subst.
  exists [Handoff.CallGet t; Handoff.Run t; Handoff.Run t; Handoff.Run t; Handoff.Run t]. eexists. split.
  { eapply schedule_cons; [cbn [Handoff.step]; unfold Handoff.call; cbn [Handoff.goroutines]; rewrite Ht; reflexivity|].
    shape. do 4 alone Ht. reflexivity. }
  done.
Qed.

(** The call [t] takes the machine to a state of the transport [st'], and ends with [r]. *)
Definition call_gives (quic : bool) (m : Handoff.machine) (t : nat) (st' : rt_state) (h' : list nev) (r : res handle) : Prop :=
  exists l m', schedule Handoff.step l m = Some m' /\ shared quic st' m' h' /\
    Handoff.goroutines m' = <[t := Handoff.Got r]> (Handoff.goroutines m).

(** A dial from the place before it. *)
Lemma dialing_gives quic d `{!Dials quic d} st m m1 l1 t w h :
  shared quic st m h -> schedule Handoff.step l1 m = Some m1 -> m1 = Handoff.goto t Handoff.Dialing m ->
  wp (d (rs_conn st)) w h (fun tr r =>
    call_gives quic m t {| rs_conn := r.1; rs_pending := rs_pending st |} (h ++ tr) r.2).
Proof.
  intros Hsh Hl ->. eapply wp_mono; [apply (dials (quic := quic))|]. intros tr r Hr. destruct Hsh as [Hp Hs Hm1 Hm2 Hn Hsn].
  assert (exists o : res (handle * negotiation),
    r = match o with Ok (c, n) => recorded c (record n.1 n.2 (rs_conn st)) | Err e => (rs_conn st, Err e) end /\
    forall c n, o = Ok (c, n) -> (length h <= c < length h + length tr)%nat /\ seen quic tr c n) as (o & -> & Ho).
  { destruct Hr as [[e ->]|(c & proto & ech & Hc & Hq & ->)]; [exists (Err e); split; [done|by intros ??]|].
    exists (Ok (c, (proto, ech))). split; [done|]. by intros c' n [= <- <-]. }
  destruct (dial_alone (Handoff.goto t Handoff.Dialing m) t o) as (l2 & m2 & K1 & K2 & K3 & K4 & K5 & K6 & K7); try done.
  { apply lookup_insert_eq. }
  { intros c n Hc. destruct (Handoff.negotiated m !! c) eqn:E; [|done]. specialize (Hn c (ex_intro _ _ E)).
    destruct (Ho c n Hc). lia. }
  simpl in K2, K3, K4, K5. exists (l1 ++ l2), m2. rewrite schedule_app, Hl. split_and!; [exact K1| |].
  - rewrite Hs in K3. split; simpl; try congruence; rewrite K4.
    + intros c Hc. rewrite length_app. destruct o as [[c' n]|e]; [|apply Hn in Hc; lia].
      destruct (decide (c = c')) as [->|Hne]; [destruct (Ho c' n eq_refl); lia|].
      rewrite lookup_insert_ne in Hc by done. apply Hn in Hc. lia.
    + intros c n Hc. destruct o as [[c' n']|e]; [|eapply seen_mono; [by apply Hsn|set_solver]].
      destruct (decide (c = c')) as [->|Hne].
      * rewrite lookup_insert_eq in Hc. simplify_eq. eapply seen_mono; [by apply Ho|set_solver].
      * rewrite lookup_insert_ne in Hc by done. eapply seen_mono; [by apply Hsn|set_solver].
  - rewrite K5, insert_insert_eq. by rewrite Hs.
Qed.

Lemma handoff_get_gives quic d st addr `{!Dials quic (d addr)} m t w h :
  shared quic st m h -> Handoff.goroutines m !! t = None ->
  wp (handoff_get d st addr) w h (fun tr r => call_gives quic m t r.1 (h ++ tr) r.2).
Proof.
  intros Hsh Ht. pose proof Hsh as [Hp Hs Hm1 Hm2 Hn Hsn]. unfold handoff_get.
  destruct (rs_pending st) as [c|] eqn:Ep.
  - apply wp_ret. destruct (get_takes m t c Hm1 Hm2 Hp Ht) as (l & m2 & K1 & K2 & K3 & K4 & K5 & K6 & K7).
    exists l, m2. split_and!; [done| |done]. rewrite app_nil_r. split; simpl; try congruence; by rewrite K4.
  - destruct (get_dials m t Hm1 Hp Ht) as [l Hl]. apply wp_bind.
    eapply wp_mono; [by eapply dialing_gives|]. intros tr [s r] Hg. apply wp_ret. rewrite app_nil_r. simpl in *.
    by rewrite Ep in Hg.
Qed.

Lemma dial_gives quic d `{!Dials quic d} st m t w h :
  shared quic st m h -> Handoff.goroutines m !! t = None ->
  wp (d (rs_conn st)) w h (fun tr r =>
    call_gives quic m t {| rs_conn := r.1; rs_pending := rs_pending st |} (h ++ tr) r.2).
Proof.
  intros Hsh Ht. eapply (dialing_gives quic d st m _ [Handoff.CallDial t]); [done| |done].
  cbn [schedule Handoff.step]. unfold Handoff.call. by rewrite Ht.
Qed.

(** The transports whose dials share a [connState]. *)
Definition shares (rt : round_tripper) : bool :=
  match rt with RtPlain _ | RtStd _ _ _ => false | RtH2 _ _ _ | RtUTLS _ _ _ _ _ _ | RtH3 _ _ _ _ _ _ => true end.

Lemma shared_later quic st m h h' : shared quic st m h -> shared quic st m (h ++ h').
Proof.
  intros [? ? ? ? Hn Hs]. split; try done.
  - intros c Hc%Hn. rewrite length_app. lia.
  - intros c n Hc. eapply seen_mono; [by apply Hs|set_solver].
Qed.

Definition is_quic (rt : round_tripper) : bool := match rt with RtH3 _ _ _ _ _ _ => true | _ => false end.

(** One dial of a transport over TLS; the others leave the state alone. *)
Lemma rt_dial_gives o rt st addr m t w h :
  shares rt = true -> shared (is_quic rt) st m h -> Handoff.goroutines m !! t = None ->
  wp (rt_dial o rt st addr true) w h (fun tr r => call_gives (is_quic rt) m t r.1 (h ++ tr) r.2).
Proof.
  intros Hrt Hsh Ht. destruct rt; try done; simpl.
  - apply wp_bind. eapply wp_mono; [apply (dial_gives false _ st m t); done|].
    intros tr [s r] Hg. apply wp_ret. by rewrite app_nil_r.
  - by apply (handoff_get_gives false); [apply _|..].
  - apply wp_bind. eapply wp_mono; [apply (dial_gives true _ st m t); done|].
    intros tr [s r] Hg. apply wp_ret. by rewrite app_nil_r.
Qed.

Lemma rt_dial_cleartext o rt st addr w h :
  shares rt = true -> wp (rt_dial o rt st addr false) w h (fun tr r => r.1 = st).
Proof.
  intros Hrt. destruct rt; try done; simpl; try by apply wp_ret.
  destruct h2; [by apply wp_ret|]. apply wp_bind, wp_True. intros. by apply wp_ret.
Qed.

Lemma tls_given_app tr1 tr2 tls c :
  c ∈ tls_given tls (tr1 ++ tr2) -> c ∈ tls_given tls tr1 \/ exists b, c ∈ tls_given b tr2.
Proof.
  revert tls. induction tr1 as [|e tr1 IH]; intros tls; simpl; [by right; exists tls|].
  destruct e; try apply IH; case_match; try apply IH; [case_match; apply IH|].
  destruct tls; [|apply IH]. intros [->|Hc]%elem_of_cons; [left; by left|].
  destruct (IH true Hc); [left; by right|by right].
Qed.

Lemma tls_given_none tr tls : (forall c, EClientGot (Ok c) ∉ tr) -> tls_given tls tr = [].
Proof.
  revert tls. induction tr as [|e tr IH]; intros tls Hn; [done|].
  assert (forall b, tls_given b tr = []) as IH' by (intros b; apply IH; intros c Hc; apply (Hn c); by right).
  destruct e; simpl; try apply IH'; case_match; try apply IH'; [case_match; apply IH'|]. subst. by edestruct Hn; left.
Qed.

Lemma tls_given_got tr r tls c :
  (forall d, EClientGot (Ok d) ∉ tr) -> (forall x, EClientConnect x ∉ tr) ->
  c ∈ tls_given tls (tr ++ [EClientGot r]) -> tls = true /\ r = Ok c.
Proof.
  intros Hn Hc. revert tls. induction tr as [|e tr IH]; intros tls; simpl.
  - destruct r, tls; simpl; try by intros ?%elem_of_nil. by intros ->%list_elem_of_singleton.
  - assert (forall b, c ∈ tls_given b (tr ++ [EClientGot r]) -> b = true /\ r = Ok c) as IH'.
    { intros b. apply IH; [intros d Hd; apply (Hn d)|intros x Hx; apply (Hc x)]; by right. }
    destruct e; try apply IH'; [edestruct Hc; by left|]. case_match; [|apply IH']. subst. by edestruct Hn; left.
Qed.

(** With no cleartext connection asked for, every connection was given over TLS. *)
Lemma tls_given_all tr c :
  EClientGot (Ok c) ∈ tr -> c ∈ tls_given true tr \/ exists addr, EClientConnect (Some (addr, false)) ∈ tr.
Proof.
  induction tr as [|e tr IH]; [by intros ?%elem_of_nil|]. intros [<-|Hc]%elem_of_cons; [left; by left|].
  destruct (IH Hc) as [Hg|[a Ha]]; [|right; exists a; by right].
  destruct e; simpl; try by left.
  - destruct m as [[a0 [|]]|]; [by left| |by left]. right. exists a0. by left.
  - case_match; left; [by right|done].
Qed.

(** What the client was given over TLS, it was given by a call of the machine. *)
Definition given (tr : list nev) (m : Handoff.machine) : Prop := forall tls c,
  c ∈ tls_given tls tr -> exists t, Handoff.goroutines m !! t = Some (Handoff.Got (Ok c)).

(** The machine after a part [tr] of the client's run, from [m]. *)
Definition client_gives (quic : bool) (m : Handoff.machine) (h tr : list nev) (st' : rt_state) : Prop :=
  exists l m', schedule Handoff.step l m = Some m' /\ shared quic st' m' (h ++ tr) /\
    Handoff.goroutines m ⊆ Handoff.goroutines m' /\ given tr m'.

Lemma client_gives_nothing quic m h tr st :
  shared quic st m h -> (forall c, EClientGot (Ok c) ∉ tr) -> client_gives quic m h tr st.
Proof.
  intros Hsh Hn. exists [], m. split_and!; [done|by apply shared_later|done|]. intros tls c Hc.
  rewrite tls_given_none in Hc by done. by apply elem_of_nil in Hc.
Qed.

Lemma client_gives_then quic m h tr1 tr2 m1 st' :
  leads_to Handoff.step m m1 -> Handoff.goroutines m ⊆ Handoff.goroutines m1 -> given tr1 m1 ->
  client_gives quic m1 (h ++ tr1) tr2 st' -> client_gives quic m h (tr1 ++ tr2) st'.
Proof.
  intros [l1 Hl] Hg1 Hgiv (l2 & m2 & Hl2 & Hsh & Hg2 & Hgiv2). exists (l1 ++ l2), m2.
  rewrite schedule_app, Hl. split_and!; [done|by rewrite (assoc_L (++))|by etrans|].
  intros tls c [Hc|[b Hc]]%tls_given_app; [|by apply (Hgiv2 b)].
  destruct (Hgiv tls c Hc) as [t Ht]. exists t. by eapply lookup_weaken.
Qed.

Lemma client_loop_gives n o rt st m w h :
  shares rt = true -> shared (is_quic rt) st m h ->
  wp (client_loop n o rt st) w h (fun tr r => client_gives (is_quic rt) m h tr r.1).
Proof.
  intros Hrt. revert st m h. induction n as [|n IH]; intros st m h Hsh; simpl.
  { apply wp_bind_perform. intros r _. apply wp_ret. apply client_gives_nothing; [done|].
    intros c Hc. by apply list_elem_of_singleton in Hc. }
  apply wp_bind_perform. intros [[addr tls]|] _.
  2: { apply wp_bind_perform. intros r _. apply wp_ret. apply client_gives_nothing; [done|].
    intros c [Hc|Hc%list_elem_of_singleton]%elem_of_cons; done. }
  set (ev := EClientConnect (Some (addr, tls))). pose proof (shared_later _ _ _ _ [ev] Hsh) as Hsh1.
  set (t := fresh (dom (Handoff.goroutines m))).
  assert (Handoff.goroutines m !! t = None) as Ht by (apply not_elem_of_dom, is_fresh).
  apply wp_bind. assert (wp (rt_dial o rt st addr tls) w (h ++ [ev]) (fun tr r =>
    Forall not_client tr /\ exists m1, leads_to Handoff.step m m1 /\ shared (is_quic rt) r.1 m1 ((h ++ [ev]) ++ tr) /\
      Handoff.goroutines m ⊆ Handoff.goroutines m1 /\
      forall c, r.2 = Ok c -> tls = true -> exists t, Handoff.goroutines m1 !! t = Some (Handoff.Got (Ok c)))) as Hd.
  { apply wp_both; [by apply does_trace, rt_dial_not_client|]. destruct tls.
    - eapply wp_mono; [by apply (rt_dial_gives o rt st addr m t)|]. intros tr [st' r] (l & m1 & K1 & K2 & K3).
      exists m1. split_and!; [by exists l|done|rewrite K3; by apply insert_subseteq|].
      intros c Hc _. exists t. rewrite K3, lookup_insert_eq. simpl in Hc. by rewrite Hc.
    - eapply wp_mono; [by apply rt_dial_cleartext|]. intros tr [st' r]; simpl. intros ->. exists m.
      split_and!; [reflexivity|by apply shared_later|done|done]. }
  eapply wp_mono; [exact Hd|]. intros tr [st' r] (Hng & m1 & K1 & K2 & K3 & K4). simpl in *.
  apply wp_bind_perform. intros [] _. eapply wp_mono; [apply (IH st' m1)|].
  - apply (shared_later _ _ _ _ [EClientGot r]) in K2. exact K2.
  - intros tr2 [st2 r2] Hgv. simpl in *. change (ev :: tr ++ EClientGot r :: tr2) with ([ev] ++ tr ++ [EClientGot r] ++ tr2).
    rewrite !(assoc_L (++)). eapply client_gives_then; [done|done| |].
    + rewrite Forall_forall in Hng. intros b c Hc. rewrite <- (assoc_L (++)) in Hc. simpl in Hc.
      apply tls_given_got in Hc as [-> ->]; [by apply K4|intros d Hin; by apply Hng in Hin..].
    + rewrite !(assoc_L (++)) in *. exact Hgv.
Qed.

Lemma h3RoundTripper_kind o u ech s w h :
  wp (h3RoundTripper o u ech s) w h (fun _ x => forall rt st, x = Ok (rt, st) -> is_quic rt = true).
Proof.
  unfold h3RoundTripper. apply wp_bind_res, wp_True. intros t1 [attempts|e]; [|done].
  apply wp_bind_res, wp_True. intros t2 [noise|e]; [|done].
  apply wp_bind, wp_True. intros t3 [sock|e]; apply wp_ret; [|done]. by intros rt st [= <- <-].
Qed.

Definition utls (rt : round_tripper) : Prop := exists h2 m f ho e fp, rt = RtUTLS h2 m f ho e fp.

Lemma shares_utls rt : utls rt \/ ~ utls rt.
Proof. destruct rt; (by left; eexists _, _, _, _, _, _) || (right; intros (? & ? & ? & ? & ? & ? & [=])). Qed.

(** What [roundTripper] leaves of a uTLS transport is the start of a machine. *)
Lemma transport_starts o u frag mode ech key w h :
  wp (transport_with o u frag mode ech (set_echKey key new_connState)) w h (fun tr x =>
    forall rt st, x = Ok (rt, st) -> (exists h2 m f ho e fp, rt = RtUTLS h2 m f ho e fp) ->
    exists c proto acc, shared false st (Handoff.start key (Some (c, (proto, acc)))) (h ++ tr) /\
      exists m f ho e fp, rt = RtUTLS (bool_decide (proto = ("h2" : gostr))) m f ho e fp).
Proof.
  unfold transport_with. case_bool_decide.
  { eapply wp_mono; [apply (h3RoundTripper_kind o u ech)|]. intros tr x Hx rt st -> (? & ? & ? & ? & ? & ? & ->).
    by specialize (Hx _ _ eq_refl). }
  case_bool_decide; [case_match; apply wp_ret; intros rt st [= <- <-] (? & ? & ? & ? & ? & ? & [=])|].
  case_match; [|by apply wp_ret].
  apply wp_bind. eapply wp_mono; [apply (dials (quic := false))|]. intros tr [s r] Hd.
  destruct Hd as [[e [= -> ->]]|(c & proto & acc & Hc & Hsn & E)]; [by apply wp_ret|].
  assert (forall p a, record p a (set_echKey key new_connState) =
    ((record p a (set_echKey key new_connState)).1, None)) as Hrec by done.
  rewrite Hrec in E. injection E as -> ->. apply wp_ret. intros rt st [= <- <-] _.
  exists c, proto, acc. split.
  - rewrite app_nil_r. split; try done.
    + intros c' [n' Hn']. simpl in Hn'. apply lookup_singleton_Some in Hn' as [<- _]. rewrite length_app. lia.
    + intros c' n' Hn'. simpl in Hn'. apply lookup_singleton_Some in Hn' as [<- <-]. eapply seen_mono; [exact Hsn|set_solver].
  - eexists _, _, _, _, _. reflexivity.
Qed.

Lemma client_do_gives o rt st req m w h :
  shares rt = true -> shared (is_quic rt) st m h ->
  wp (client_do o rt st req) w h (fun tr r => client_gives (is_quic rt) m h tr r.1).
Proof.
  intros Hrt Hsh. unfold client_do. apply wp_bind_perform. intros [] _. apply wp_bind.
  unfold client_patience, wp at 1. pose proof (shared_later _ _ _ _ [EClientDo req] Hsh) as Hsh1.
  eapply wp_mono; [rewrite app_nil_r; by apply client_loop_gives|]. intros tr r (l & m' & K1 & K2 & K3 & K4).
  exists l, m'. split_and!; [done|by rewrite <- (assoc_L (++)) in K2|done|].
  intros tls c Hc. by apply (K4 tls).
Qed.

(** ** Properties *)

(** C30: The dials of one request, run one after the other, are a schedule of the
    machine: there is one that ends in the state the transport is left in, with every
    connection the client was given over TLS returned by one of its calls, also in a
    run in which it asks for connections in the clear. What holds of every interleaving
    of the calls holds of them. *)
Theorem client_is_schedule o rt st req m w h :
  shares rt = true -> shared (is_quic rt) st m h ->
  wp (client_do o rt st req) w h (fun tr r =>
    exists l m', schedule Handoff.step l m = Some m' /\ shared (is_quic rt) r.1 m' (h ++ tr) /\
      Handoff.goroutines m ⊆ Handoff.goroutines m' /\
      (forall c, EClientGot (Ok c) ∈ tr ->
        (exists t, Handoff.goroutines m' !! t = Some (Handoff.Got (Ok c))) \/
        exists addr, EClientConnect (Some (addr, false)) ∈ tr) /\
      forall c, c ∈ tls_given false tr -> exists t, Handoff.goroutines m' !! t = Some (Handoff.Got (Ok c))).
Proof.
  intros Hrt Hsh. eapply wp_mono; [by apply client_do_gives|]. intros tr r (l & m' & K1 & K2 & K3 & K4).
  exists l, m'. split_and!; [done..| |by apply K4].
  intros c [Hc|?]%tls_given_all; [left; by apply (K4 true)|by right].
Qed.

(** C13: A transport over uTLS is for one version of HTTP, chosen by what its first
    connection negotiated; whatever the servers negotiate on the later ones, the client
    is given over TLS only connections whose handshake negotiated that version, also
    after it was given one in the clear. *)
Theorem one_version o u frag mode ech key req w h :
  wp (x ←? transport_with o u frag mode ech (set_echKey key new_connState);
      y ← client_do o x.1 x.2 req; mret (Ok (x.1, y.2))) w h (fun tr x =>
    forall h2 m f ho e fp r, x = Ok (RtUTLS h2 m f ho e fp, r) ->
    forall c, c ∈ tls_given false tr -> spoke h2 (h ++ tr) c).
Proof.
  apply wp_bind_res. eapply wp_mono;
    [apply wp_both; [apply transport_starts|apply (does_trace not_client), transport_not_client]|].
  intros tr1 [[rt st]|e] [Hst Hng]; [|done].
  apply wp_bind. simpl. destruct (shares_utls rt) as [(h2 & m & f & ho & e & fp & ->)|Hn].
  - destruct (Hst _ _ eq_refl ltac:(eauto 10)) as (c0 & proto0 & acc0 & Hsh & m1 & f1 & ho1 & e1 & fp1 & [= -> <- <- <- <- <-]).
    eapply wp_mono; [by apply client_do_gives|]. intros tr2 [st2 r2] (l & m' & K1 & K2 & K3 & K4).
    apply wp_ret. intros h2' m2 f2 ho2 e2 fp2 r [= <- <- <- <- <- <- <-] c Hc. rewrite app_nil_r in *.
    apply tls_given_app in Hc as [Hc|[b Hc]].
    { rewrite tls_given_none in Hc; [by apply elem_of_nil in Hc|]. intros d Hd. rewrite Forall_forall in Hng.
      by apply Hng in Hd. }
    destruct (K4 b c Hc) as [t Ht].
    assert (Handoff.reachable key (Some (c0, (proto0, acc0))) m') as Hr by (by exists l).
    apply handoff_reachable_good in Hr. destruct (good_place _ m' Hr t _ Ht) as [_ [acc Hacc]].
    destruct (good_probe _ m' Hr proto0 eq_refl) as [_ L3]. rewrite L3 in Hacc.
    destruct K2 as [_ _ _ _ _ Hseen]. destruct (Hseen _ _ Hacc) as (fp' & cfg & Hev).
    exists fp', cfg, proto0, acc. split; [by rewrite (assoc_L (++))|done].
  - apply wp_True. intros tr2 [st2 r2]. apply wp_ret. intros h2 m f ho e fp r [= E _]. destruct Hn. by exists h2, m, f, ho, e, fp.
Qed.
End Run.

(** ** Witnesses *)

#[local] Existing Instance sample_lib.
#[local] Existing Instance sample_url.
#[local] Existing Instance sample_dns.
#[local] Existing Instance ascii_unicode.
#[local] Existing Instance arm64_int.

(** An HTTP/2 client follows one redirect. *)
Definition redirected : NetWorld := scripted "h2" [("example.com:443" : gostr, true); ("example.org:443" : gostr, true)].

Definition h2_only : round_tripper := RtH2 None "example.com" [].

Definition example_request : Request := {|
  req_Method := "GET"; req_URL := "https://example.com/"; req_Header := ∅; req_Body := []
|}.

Definition h2_run : list nev * (rt_state * res Response) :=
  client_do (with_ "" "" "" None) h2_only {| rs_conn := set_echKey [] new_connState; rs_pending := None |}
    example_request redirected [].

Definition over_tls (e : nev) : bool := match e with EClientConnect (Some (_, tls)) => tls | _ => true end.
Definition was_given (n : nat) (e : nev) : bool := match e with EClientGot (Ok c) => Nat.eqb c n | _ => false end.

Lemma client_is_schedule_witness :
  exists l m', schedule Handoff.step l (Handoff.start [] None) = Some m' /\
    Handoff.state m' = rs_conn h2_run.2.1 /\
    exists t, Handoff.goroutines m' !! t = Some (Handoff.Got (Ok 6%nat)).
Proof.
  assert (forallb over_tls h2_run.1 = true) as Htls by (vm_compute; reflexivity).
  assert (existsb (was_given 6) h2_run.1 = true) as Hgot by (vm_compute; reflexivity).
  rewrite forallb_forall in Htls. apply existsb_exists in Hgot as ([] & Hgot & Hw); try done.
  destruct r as [c|]; [|done]. simpl in Hw. apply Nat.eqb_eq in Hw as ->.
  pose proof (client_is_schedule (with_ "" "" "" None) h2_only
    {| rs_conn := set_echKey [] new_connState; rs_pending := None |} example_request (Handoff.start [] None) redirected []
    eq_refl) as Hc.
  apply wp_run in Hc.
  - destruct Hc as (l & m' & K1 & K2 & _ & K4 & _). exists l, m'. split_and!; [exact K1|apply (shared_state _ _ _ _ K2)|].
    destruct (K4 _ (proj2 (list_elem_of_In _ _) Hgot)) as [?|[a Ha%list_elem_of_In]]; [done|]. by apply Htls in Ha.
  - split; try done; intros c; simpl; intros; by rewrite lookup_empty in *.
Defined.
