(* ===== verification/EchTraffic.v ===== *)
(** * ECH fails closed

    What a request does with the configuration list it acquired: it offers that list
    in every handshake, and nothing reaches the network without one. *)

From stdpp Require Import gmap.
From S2P Require Import Prelude GoString GoCodec GoNet GoHTTP Xray Options Headers Noise EchConfig Validate Net EchCache Transport Quic Resolver Fetch Sample Traffic.
Open Scope Z_scope.

Section EchTraffic.
Context `{XrayLib} `{NetURL} `{Unicode} `{IntWidth} `{Cryptobyte} `{DnsLib}.
#[local] Set Default Proof Using "Type*".

(** Every handshake, over TCP or QUIC, offers [l]. *)
Definition offers (l : list byte) (e : nev) : Prop :=
  match e with
  | EHandshake _ _ cfg _ | EQUICDial _ _ cfg _ _ _ => tc_ECHConfigList cfg = l
  | _ => True
  end.

(** No entry remembers the empty list as a success. *)
Definition entry_ok (e : echCacheEntry) : Prop := err e = None -> list_ e <> [].
Definition cache_ok (ca : cache) : Prop := map_Forall (fun _ => entry_ok) ca.

(** ** Lemmas: the cache *)

Lemma echInvalidate_ok key ca : cache_ok ca -> cache_ok (echInvalidate key ca).
Proof. intros Hca. unfold echInvalidate. case_bool_decide; [by apply map_Forall_delete|done]. Qed.

(** A result of [fetch] that may be stored. *)
Definition fetched_ok (r : res (list byte * Z)) : Prop := on_Ok (fun p => p.1 <> []) r.

Definition outcome_ok (o : outcome) : Prop := o.2 = None -> o.1 <> [].

Lemma echStored_ok r now key ca :
  fetched_ok r -> cache_ok ca ->
  cache_ok (store_opt key (echStored r now).1 ca) /\ outcome_ok (echStored r now).2.
Proof.
  unfold fetched_ok, outcome_ok. intros Hr Hca. destruct r as [[l ttl]|e]; simpl in *.
  - split; [by apply map_Forall_insert_2; [intros _|]|done].
  - destruct (_ && _); (split; [|done]); [by apply map_Forall_insert_2|done].
Qed.

Lemma echCacheLoad_ok ca key now o : cache_ok ca -> echCacheLoad ca key now = Some o -> outcome_ok o.
Proof.
  intros Hca. unfold echCacheLoad, echCacheHit. destruct (ca !! key) as [e|] eqn:Ek; [|done].
  destruct (negb _); [done|]. intros [= <-]. apply (Hca _ _ Ek).
Qed.

Definition any : nev -> Prop := fun _ => True.

Ltac skip := eapply does_then; [by apply does_lift, does_perform|intros ?].

Lemma echAcquire_run_ok ca key fetch :
  cache_ok ca ->
  (forall ca, cache_ok ca -> does any (fun x => cache_ok x.1 /\ fetched_ok x.2) (fetch ca)) ->
  does any (fun x => cache_ok x.1 /\ outcome_ok x.2) (echAcquire_run ca key fetch).
Proof.
  intros Hca Hf. unfold echAcquire_run. skip.
  destruct (echCacheLoad ca key a) as [o|] eqn:E1; [apply does_ret; split; [done|by eapply echCacheLoad_ok]|].
  skip. destruct (echCacheLoad ca key a0) as [o|] eqn:E2; [apply does_ret; split; [done|by eapply echCacheLoad_ok]|].
  eapply does_bind; [by apply Hf|]. intros [ca' r] [Hca' Hr]. skip.
  pose proof (echStored_ok r a1 key ca' Hr Hca'). by destruct (echStored r a1); apply does_ret.
Qed.

(** What is left of the cache after the transport and the request. *)
Lemma roundTripper_cache acquire o u s ca :
  cache_ok ca -> (forall host ca, cache_ok ca -> does any (fun x => cache_ok x.1) (acquire host ca)) ->
  does any (fun x => cache_ok x.1) (roundTripper acquire o u s ca).
Proof.
  intros Hca Hacq. unfold roundTripper.
  destruct (fragmentConfig o) as [frag|]; [|by apply does_ret]. destruct (alpnMode o) as [mode|]; [|by apply does_ret].
  case_bool_decide; [by apply does_ret|]. eapply does_bind; [by apply Hacq|].
  intros [ca' [[l key]|e]] Hca'; [|by apply does_ret].
  eapply does_then; [|intros r; by apply does_ret]. apply does_any.
Qed.

Lemma exchange_over_cache o server wire rt st ca :
  cache_ok ca -> does any (fun x => cache_ok x.1.1) (exchange_over o server wire rt st ca).
Proof.
  intros Hca. unfold exchange_over. destruct (NewRequest_error _ _); [by apply does_ret|].
  eapply does_then; [apply does_any|]. intros kvs. eapply does_then; [apply does_any|]. intros [st' [resp|e]].
  - eapply does_then; [apply does_any|]. intros x. by apply does_ret.
  - apply does_ret. simpl. case_match; [by apply echInvalidate_ok|done].
Qed.

Lemma dnsExchange_cache acquire o server msg ca :
  cache_ok ca -> (forall host ca, cache_ok ca -> does any (fun x => cache_ok x.1) (acquire host ca)) ->
  does any (fun x => cache_ok x.1) (dnsExchange acquire o server msg ca).
Proof.
  intros Hca Hacq. unfold dnsExchange. destruct (url_Parse server) as [su|]; [|by apply does_ret].
  destruct (bool_decide _ && bool_decide _); [by apply does_ret|].
  eapply does_then; [apply does_any|]. intros m. destruct (Pack m); [|by apply does_ret].
  eapply does_bind; [by apply roundTripper_cache|]. intros [ca' [[rt st]|e]] Hca'; [|by apply does_ret].
  eapply does_bind; [by apply exchange_over_cache|]. intros [[ca'' st'] x] Hca''.
  eapply does_then; [apply does_any|]. intros ?. by apply does_ret.
Qed.

(** ** Lemmas: the look-ups *)

Lemma judge_retry_ok name target r : fetched_ok (judge_retry name target r).
Proof. unfold judge_retry. destruct r as [l|]; [|done]. case_bool_decide; [done|]. by destruct (negb _). Qed.

Lemma echProbe_ok o name target : does any fetched_ok (echProbe o name target).
Proof.
  unfold echProbe. eapply does_bind_res; [eapply does_mono; [apply does_any|done|by intros [] _; exact I]| |done].
  intros l _. eapply does_bind_res; [apply (does_ret _ (on_Ok anything)); by destruct (fragmentConfig o)| |done].
  intros frag _. eapply does_then; [apply does_any|]. intros [c|e]; [|by apply does_ret].
  eapply does_then; [apply does_any|]. intros dl. eapply does_then; [apply does_any|]. intros ?.
  eapply does_bind.
  - instantiate (1 := fetched_ok).
    repeat first [apply does_any | apply does_ret; apply judge_retry_ok | does_step]; try done; try (by intros []).
  - intros r Hr. eapply does_then; [apply does_any|]. intros ?. by apply does_ret.
Qed.

Lemma fetch_doh_ok exchange doh domain ca :
  (forall msg, does any (fun x => cache_ok x.1) (exchange doh msg ca)) ->
  does any (fun x => cache_ok x.1 /\ fetched_ok x.2) (fetch_doh exchange doh domain ca).
Proof.
  intros Hx. unfold fetch_doh. eapply does_bind; [apply Hx|]. intros [ca' x] Hca'. apply does_ret.
  split; [done|]. cbn [snd]. destruct (dx_reply x) as [reply|]; [|done]. destruct (extractECH (Some reply) domain) as [l ttl].
  by case_bool_decide.
Qed.

Definition list_acquired (x : cache * res (list byte * gostr)) : Prop :=
  cache_ok x.1 /\ on_Ok (fun p => p.1 <> []) x.2.

Lemma acquired_ok key ca (o : outcome) : cache_ok ca -> outcome_ok o -> list_acquired (ca, acquired key o).
Proof. intros Hca Ho. destruct o as [l [e|]]; split; try done. by apply Ho. Qed.

Lemma echConfigList_acquired depth o host ca :
  cache_ok ca -> echEnabled o = true -> does any list_acquired (echConfigList depth o host ca).
Proof.
  intros Hca He.
  assert (exists e, Ech o = Some e) as [e Ee] by (unfold echEnabled in He; destruct (Ech o); eauto; done).
  destruct depth as [|depth]; simpl; rewrite He, Ee; simpl; case_bool_decide.
  1, 3: apply does_ret; (split; [done|]); simpl; destruct (b64_decode _ _) as [l|]; [|done];
    destruct (looksLikeECHConfigList l) eqn:El; [|done]; simpl; by intros ->.
  all: case_bool_decide.
  1, 3: destruct (parseECHProbe _) as [[name target]|]; [|by apply does_ret];
    eapply does_bind; [apply echAcquire_run_ok; [done|]|intros [ca' r] [Hca' Hr]; apply does_ret; by apply acquired_ok];
    intros ca' Hca'; eapply does_bind; [apply echProbe_ok|intros r Hr; by apply does_ret].
  all: eapply does_bind; [apply echAcquire_run_ok; [done|]|intros [ca' r] [Hca' Hr]; apply does_ret; by apply acquired_ok].
  all: intros ca' Hca'; apply fetch_doh_ok; intros msg.
  - by apply does_ret.
  - apply dnsExchange_cache; [done|]. intros host' ca'' Hca''. rewrite echConfigList_off by done. by apply does_ret.
Qed.

(** ** Lemmas: after the look-up *)

Lemma accepts_offers l o : accepts (offers l) o (fun cfg => tc_ECHConfigList cfg = l).
Proof.
  split; try done. intros e He. destruct e; try done.
Qed.

(** What the transport of a request with the list [l] may do. *)
Definition list_accepted (l : list byte) (o : transportOptions) : round_tripper -> Prop :=
  rt_accepted anywhere (single (offers l)) o (fun cfg => tc_ECHConfigList cfg = l).

(** The part of [fetch_with] after [echConfigList]. *)
Lemma transport_with_offers opts u frag mode l s :
  alpnMode (fo_transport opts) = Ok mode ->
  does (offers l) (on_Ok (fun p => list_accepted l (fo_transport opts) p.1)) (transport_with (fo_transport opts) u frag mode l s).
Proof.
  intros Em. eapply does_mono; [apply (transport_with_does anywhere (single (offers l))); [apply accepts_single, accepts_offers|done| |]|
    apply single_inv|done].
  - split; [done|]. intros _. eapply h3_accepted_single; [apply accepts_offers|done..|]. intros s0 dst cfg q attempts r [Hl _]. exact Hl.
  - intros. by apply single_one.
Qed.

Lemma fetch_tail opts method l rt st ca :
  cache_ok ca -> list_accepted l (fo_transport opts) rt ->
  does (offers l) (fun x => cache_ok x.1)
    ('(ca, st, x) ← fetch_over opts method rt st ca; _ ← cleanup rt st; mret (ca, x)).
Proof.
  intros Hca Hrt. eapply (does_bind _ (fun x => cache_ok x.1.1)).
  - apply does_result; [apply runs_single; by apply (fetch_over_runs _ _ _ _ (accepts_single _ _ _ (accepts_offers l (fo_transport opts))))|].
    unfold fetch_over. destruct (NewRequest_error _ _); [by apply does_ret|].
    eapply does_then; [apply does_any|]. intros kvs. eapply does_then; [apply does_any|]. intros [st' [resp|e]].
    + eapply does_then; [apply does_any|]. intros x. by apply does_ret.
    + destruct (_ && _); apply does_ret; [by apply echInvalidate_ok|done].
  - intros [[ca' st'] x] Hca'. eapply does_then; [by apply (cleanup_does _ _ _ (accepts_offers l (fo_transport opts)))|]. intros ?. by apply does_ret.
Qed.

(** ** Lemmas: one acquisition *)

(** The entry that a request with this key may use at [now]. *)
Definition fresh (ca : cache) (key : gostr) (now : Z) (ent : echCacheEntry) : Prop :=
  ca !! key = Some ent /\ now < expire ent.

Definition is_fresh (ca : cache) (key : gostr) (now : Z) : Prop := exists ent, fresh ca key now ent.

(** The key, by what is looked up and through which proxy. *)
Definition cache_key (o : transportOptions) (e : echOptions) (host key : gostr) : Prop :=
  if bool_decide (ech_Probe e <> []) then
    exists name target, parseECHProbe (ech_Probe e) = Ok (name, target) /\
      key = ("probe|" : gostr) ++ name ++ ("|" : gostr) ++ target ++ ("|" : gostr) ++ Proxy o
  else key = ("doh|" : gostr) ++ (if bool_decide (ech_Domain e = []) then host else ech_Domain e) ++ ("|" : gostr) ++
               ech_DoH e ++ ("|" : gostr) ++ Proxy o.

Definition remembered (key : gostr) (ent : echCacheEntry) : res (list byte * gostr) :=
  match err ent with Some er => Err er | None => Ok (list_ ent, key) end.

(** One look-up without ECH, which leaves the cache alone: the probe, or a query for
    the HTTPS records of the domain and the first key among them. *)
Definition looked_up (o : transportOptions) (e : echOptions) (host : gostr) (ca : cache) (w : NetWorld) (h tf : list nev)
    (r : res (list byte * Z)) : Prop :=
  if bool_decide (ech_Probe e <> []) then
    exists name target, parseECHProbe (ech_Probe e) = Ok (name, target) /\ echProbe (lookupOpts o) name target w h = (tf, r)
  else exists y,
    let domain := if bool_decide (ech_Domain e = []) then host else ech_Domain e in
    dnsExchange (echConfigList 0 (lookupOpts o)) (lookupOpts o) (ech_DoH e) (SetQuestion (Fqdn domain) TypeHTTPS) ca w h =
      (tf, (ca, y)) /\
    match dx_reply y with
    | Err er => exists text args, r = Err (Errorf text args (Some er))
    | Ok reply =>
      match extractECH (Some reply) domain with
      | ([], _) => exists text args, r = Err (Errorf text args None)
      | found => r = Ok found
      end
    end.

(** What is left in the cache of a look-up that ended at [now]. *)
Definition remembers (ca ca' : cache) (key : gostr) (now : Z) (r : res (list byte * Z)) : Prop :=
  match r with
  | Ok (l, ttl) => exists ent, ca' = <[key := ent]> ca /\ list_ ent = l /\ err ent = None /\
      (0 <= ttl < 2 ^ 32 -> expire ent = now + (if ttl =? 0 then 600 else ttl) * 1000000000)
  | Err er =>
    if errors_has is_ContextCanceled er || errors_has is_ContextDeadlineExceeded er then ca' = ca
    else exists ent, ca' = <[key := ent]> ca /\ list_ ent = [] /\ err ent = Some er /\ expire ent = now + 30 * 1000000000
  end.

(** The same with the cache's own result, for any look-up that leaves the cache alone. *)
Definition acquired_by (fetch : cache -> N (cache * res (list byte * Z))) (ca : cache) (key : gostr) (w : NetWorld)
    (h t : list nev) (t1 : Z) (x : cache * outcome) : Prop :=
  (exists ent, t = [Base (ENow t1)] /\ fresh ca key t1 ent /\ x = (ca, (list_ ent, err ent))) \/
  exists t2, ~ is_fresh ca key t1 /\
    ((exists ent, t = [Base (ENow t1); Base (ENow t2)] /\ fresh ca key t2 ent /\ x = (ca, (list_ ent, err ent))) \/
     exists t3 tf r, ~ is_fresh ca key t2 /\ t = Base (ENow t1) :: Base (ENow t2) :: tf ++ [Base (ENow t3)] /\
       fetch ca w (h ++ [Base (ENow t1); Base (ENow t2)]) = (tf, (ca, r)) /\
       x.2 = match r with Ok (l, _) => (l, None) | Err er => ([], Some er) end /\ remembers ca x.1 key t3 r).

Lemma echCacheLoad_fresh ca key now o :
  echCacheLoad ca key now = Some o -> exists ent, fresh ca key now ent /\ o = (list_ ent, err ent).
Proof.
  unfold echCacheLoad, echCacheHit, fresh. destruct (ca !! key) as [ent|]; [|done].
  destruct (now <? expire ent) eqn:E; [|done]. bools. intros [= <-]. by exists ent.
Qed.

Lemma echCacheLoad_stale ca key now : echCacheLoad ca key now = None -> ~ is_fresh ca key now.
Proof.
  unfold echCacheLoad, echCacheHit. intros Hl (ent & E & Hn). rewrite E in Hl.
  by rewrite (proj2 (Z.ltb_lt _ _) Hn) in Hl.
Qed.

Lemma echStored_remembers ca key now r e o :
  echStored r now = (e, o) ->
  o = match r with Ok (l, _) => (l, None) | Err er => ([], Some er) end /\ remembers ca (store_opt key e ca) key now r.
Proof.
  unfold echStored, remembers. destruct r as [[l ttl]|er]; intros [= <- <-]; (split; [done|]).
  - eexists. split_and!; [reflexivity|done|done|]. intros Ht. simpl. f_equal. rewrite wrapS_small; [|done|].
    + unfold Second, echDefaultTTL. by destruct (ttl =? 0).
    + unfold Second, echDefaultTTL. destruct (ttl =? 0); lia.
  - destruct (errors_has is_ContextCanceled er), (errors_has is_ContextDeadlineExceeded er); simpl; try done.
    eexists. split_and!; done.
Qed.

Lemma echAcquire_run_acquires ca key fetch w h :
  (forall w h, (fetch ca w h).2.1 = ca) ->
  wp (echAcquire_run ca key fetch) w h (fun t x => exists t1, acquired_by fetch ca key w h t t1 x).
Proof.
  intros Hf. unfold echAcquire_run. apply wp_bind, wp_lift_base, wp_perform. set (t1 := w_now _ _). cbn [map].
  destruct (echCacheLoad ca key t1) as [o|] eqn:E1.
  { apply wp_ret. exists t1. left. apply echCacheLoad_fresh in E1 as (ent & Hfr & ->). by exists ent. }
  apply wp_bind, wp_lift_base, wp_perform. set (t2 := w_now _ _). cbn [map].
  pose proof (echCacheLoad_stale _ _ _ E1) as Hs1. destruct (echCacheLoad ca key t2) as [o|] eqn:E2.
  { apply wp_ret. exists t1. right. exists t2. split; [done|]. left. apply echCacheLoad_fresh in E2 as (ent & Hfr & ->). by exists ent. }
  apply wp_bind. rewrite <- (assoc_L (++)). unfold wp at 1. cbn [app]. specialize (Hf w (h ++ [Base (ENow t1); Base (ENow t2)])).
  destruct (fetch ca w _) as [tf [ca' r]] eqn:Ef. simpl in Hf. subst ca'.
  apply wp_bind, wp_lift_base, wp_perform. set (t3 := w_now _ _). cbn [map].
  destruct (echStored r t3) as [e o] eqn:Es. apply wp_ret. exists t1. right. exists t2. split; [done|]. right.
  exists t3, tf, r. rewrite app_nil_r. split_and!; [by apply echCacheLoad_stale|done|done|..].
  all: by eapply echStored_remembers.
Qed.

(** A look-up by DoH has nothing to forget. *)
Lemma dnsExchange_keeps o server msg ca w h :
  (dnsExchange (echConfigList 0 (lookupOpts o)) (lookupOpts o) server msg ca w h).2.1 = ca.
Proof.
  assert (does any (fun x => x.1 = ca) (dnsExchange (echConfigList 0 (lookupOpts o)) (lookupOpts o) server msg ca)) as Hd;
    [|by destruct (wp_run _ _ _ _ (Hd w h))].
  unfold dnsExchange. destruct (url_Parse server) as [su|]; [|by apply does_ret].
  destruct (bool_decide _ && bool_decide _); [by apply does_ret|].
  eapply does_then; [apply does_any|]. intros m. destruct (Pack m); [|by apply does_ret].
  apply (does_bind _ (fun x => x.1 = ca)).
  { unfold roundTripper. destruct (fragmentConfig _) as [frag|]; [|by apply does_ret].
    destruct (alpnMode _) as [mode|]; [|by apply does_ret]. case_bool_decide; [by apply does_ret|].
    rewrite echConfigList_off by done. apply (does_bind _ (fun x => x = (ca, Ok ([], [])))); [by apply does_ret|].
    intros ? ->. eapply does_then; [apply does_any|]. intros r. by apply does_ret. }
  intros [ca' [[rt st]|er]] E; simpl in E; subst ca'; [|by apply does_ret].
  apply (does_bind _ (fun x => x.1.1 = ca)).
  { unfold exchange_over. destruct (NewRequest_error _ _); [by apply does_ret|].
    eapply does_then; [apply does_any|]. intros kvs. eapply does_then; [apply does_any|]. intros [st' [resp|er]].
    - eapply does_then; [apply does_any|]. intros x. by apply does_ret.
    - by apply does_ret. }
  intros [[ca'' st'] x] E. simpl in E. subst ca''. eapply does_then; [apply does_any|]. intros ?. by apply does_ret.
Qed.

Lemma fetch_doh_cache o server domain ca w h :
  (fetch_doh (dnsExchange (echConfigList 0 (lookupOpts o)) (lookupOpts o)) server domain ca w h).2.1 = ca.
Proof. unfold fetch_doh. rewrite bind_run. pose proof (dnsExchange_keeps o server (SetQuestion (Fqdn domain) TypeHTTPS) ca w h) as Hk.
  by destruct (dnsExchange _ _ _ _ ca w h) as [tf [ca' y]].
Qed.

(** From the cache's result to that of [echConfigList]. *)
Lemma acquired_run o e host ca key fetch w h t t1 ca' oc :
  (forall h tf r, fetch ca w h = (tf, (ca, r)) -> looked_up o e host ca w h tf r) ->
  acquired_by fetch ca key w h t t1 (ca', oc) ->
  (exists ent, t = [Base (ENow t1)] /\ fresh ca key t1 ent /\ (ca', acquired key oc) = (ca, remembered key ent)) \/
  exists t2, ~ is_fresh ca key t1 /\
    ((exists ent, t = [Base (ENow t1); Base (ENow t2)] /\ fresh ca key t2 ent /\
        (ca', acquired key oc) = (ca, remembered key ent)) \/
     exists t3 tf r, ~ is_fresh ca key t2 /\ t = Base (ENow t1) :: Base (ENow t2) :: tf ++ [Base (ENow t3)] /\
       looked_up o e host ca w (h ++ [Base (ENow t1); Base (ENow t2)]) tf r /\
       acquired key oc = match r with Ok (l, _) => Ok (l, key) | Err er => Err er end /\ remembers ca ca' key t3 r).
Proof.
  intros Hf [(ent & Et & Hfr & [= -> ->])|(t2 & Hs & [(ent & Et & Hfr & [= -> ->])|(t3 & tf & r & Hs2 & Et & Ef & Eo & Hr)])].
  - left. exists ent. split_and!; [done|done|]. unfold remembered. simpl. by destruct (err ent).
  - right. exists t2. split; [done|]. left. exists ent. split_and!; [done|done|]. unfold remembered. simpl. by destruct (err ent).
  - right. exists t2. split; [done|]. right. exists t3, tf, r. split_and!; [done|done|by apply Hf| |done].
    simpl in Eo. subst oc. by destruct r as [[l ttl]|].
Qed.

(** ** Properties *)

(** C2: ECH fails closed. When a request for an https url asks for ECH, either
    nothing at all is sent, or its trace is the acquisition of a configuration list
    followed by the request: if the acquisition failed nothing follows and the
    result is its error; if it succeeded the list is not empty and every TLS or
    QUIC handshake from there on, redirects included, offers exactly that list. The
    cache never remembers an empty list as a success. *)
Theorem ech_fails_closed unmarshal json opts u ca w h :
  fetch_prepare unmarshal json = Ok (opts, u) -> u_Scheme u <> ("http" : gostr) ->
  echEnabled (fo_transport opts) = true -> cache_ok ca ->
  wp (FetchWeb unmarshal json ca) w h (fun t x =>
    (t = [] /\ exists e, x = (ca, fetch_failed e)) \/
    exists t1 t2 ca1 a, t = t1 ++ t2 /\
      echConfigList 1 (fo_transport opts) (url_Hostname u) ca w h = (t1, (ca1, a)) /\ cache_ok ca1 /\
      match a with
      | Err e => t2 = [] /\ x = (ca1, fetch_failed e)
      | Ok (l, _) => l <> [] /\ Forall (offers l) t2 /\ cache_ok x.1
      end).
Proof.
  intros Hp Hs He Hca. unfold FetchWeb. rewrite Hp. unfold fetch_with, roundTripper.
  destruct (fragmentConfig _) as [frag|e]; [|apply wp_bind, wp_ret; left; eauto].
  destruct (alpnMode _) as [mode|e] eqn:Em; [|apply wp_bind, wp_ret; left; eauto].
  rewrite bool_decide_false by done.
  pose proof (echConfigList_acquired 1 _ (url_Hostname u) ca Hca He w h) as Ha. unfold wp in Ha.
  destruct (echConfigList 1 _ _ ca w h) as [t1 [ca1 a]] eqn:Ea. destruct Ha as (_ & Hca1 & Hl).
  apply wp_bind, wp_bind. unfold wp at 1. rewrite Ea.
  destruct a as [[l key]|e].
  - apply wp_bind. eapply wp_mono; [by apply (transport_with_offers opts u frag mode l)|].
    intros t2 [[rt st]|e] [Ht2 Hrt]; apply wp_ret.
    + eapply wp_mono; [by apply (fetch_tail opts (request_method opts) l)|]. intros t3 x [Ht3 Hx]. right.
      eexists t1, (t2 ++ t3), ca1, (Ok (l, key)). rewrite !app_nil_r, <- !app_assoc. split_and!; try done.
      by apply Forall_app.
    + apply wp_ret. right. eexists t1, t2, ca1, (Ok (l, key)). by rewrite !app_nil_r.
  - apply wp_ret, wp_ret. right. eexists t1, [], ca1, (Err e). by rewrite !app_nil_r.
Qed.

(** C32: The keys of a request come from the cache or from one look-up, by probe or by
    DoH as the options ask. A fresh entry answers at once, a remembered failure
    included, and changes nothing. Otherwise there is one look-up; what it finds is
    remembered for as long as it is good for, ten minutes when it does not say; a
    failure is remembered for thirty seconds, unless the look-up was given up. The
    look-up itself leaves the cache alone. *)
Theorem echConfigList_acquires o e host ca w h :
  echEnabled o = true -> Ech o = Some e -> ech_ConfigList e = [] ->
  wp (echConfigList 1 o host ca) w h (fun t x =>
    (exists er, ech_Probe e <> [] /\ parseECHProbe (ech_Probe e) = Err er /\ t = [] /\ x = (ca, Err er)) \/
    exists key t1, cache_key o e host key /\
      ((exists ent, t = [Base (ENow t1)] /\ fresh ca key t1 ent /\ x = (ca, remembered key ent)) \/
       exists t2, ~ is_fresh ca key t1 /\
         ((exists ent, t = [Base (ENow t1); Base (ENow t2)] /\ fresh ca key t2 ent /\ x = (ca, remembered key ent)) \/
          exists t3 tf r, ~ is_fresh ca key t2 /\ t = Base (ENow t1) :: Base (ENow t2) :: tf ++ [Base (ENow t3)] /\
            looked_up o e host ca w (h ++ [Base (ENow t1); Base (ENow t2)]) tf r /\
            x.2 = match r with Ok (l, _) => Ok (l, key) | Err er => Err er end /\ remembers ca x.1 key t3 r))).
Proof.
  intros He Eo Hc. simpl. rewrite He, Eo. simpl. rewrite bool_decide_false by naive_solver. case_bool_decide as Hp.
  - destruct (parseECHProbe _) as [[name target]|er] eqn:Ep; [|apply wp_ret; left; by exists er].
    apply wp_bind. eapply wp_mono; [apply echAcquire_run_acquires|].
    { intros w' h'. by rewrite bind_run. }
    intros t [ca' x] (t1 & Hx). apply wp_ret. right. rewrite app_nil_r. eexists _, t1. split.
    { unfold cache_key. rewrite bool_decide_true by done. exists name, target. split; [exact Ep|reflexivity]. }
    eapply acquired_run; [|exact Hx]. intros h' tf r Ef. unfold looked_up. rewrite bool_decide_true by done.
    exists name, target. split; [done|]. cbv beta in Ef. rewrite bind_run in Ef. destruct (echProbe _ _ _ w h') as [tf' r'].
    simpl in Ef. rewrite app_nil_r in Ef. by simplify_eq.
  - apply wp_bind. eapply wp_mono; [apply echAcquire_run_acquires; apply fetch_doh_cache|].
    intros t [ca' x] (t1 & Hx). apply wp_ret. right. rewrite app_nil_r. eexists _, t1. split.
    { unfold cache_key. rewrite bool_decide_false by naive_solver. reflexivity. }
    eapply acquired_run; [|exact Hx]. intros h' tf r Ef. unfold looked_up. rewrite bool_decide_false by naive_solver.
    unfold fetch_doh in Ef. rewrite bind_run in Ef.
    pose proof (dnsExchange_keeps o (ech_DoH e) (SetQuestion (Fqdn (if bool_decide (ech_Domain e = []) then host else ech_Domain e)) TypeHTTPS) ca w h') as Hk.
    destruct (dnsExchange _ _ _ _ ca w h') as [tf' [ca'' y]]. simpl in Hk, Ef. subst ca''. rewrite app_nil_r in Ef.
    injection Ef as <- <-. exists y. split; [done|]. destruct (dx_reply y) as [reply|]; [|by eexists _, _].
    unfold extractECH. destruct (extract_loop _ _) as [l ttl].
    destruct l; [rewrite bool_decide_true by done; by eexists _, _|by rewrite bool_decide_false by done].
Qed.

End EchTraffic.

#[local] Existing Instance sample_lib.
#[local] Existing Instance sample_url.
#[local] Existing Instance sample_dns.
#[local] Existing Instance ascii_unicode.
#[local] Existing Instance arm64_int.
Definition listed : option echOptions :=
  Some {| ech_Domain := ""; ech_DoH := ""; ech_ConfigList := "AAj+DQAEAQIDBA=="; ech_Probe := "" |}.

Definition offers_nothing (e : nev) : bool :=
  match e with EHandshake _ _ cfg _ => bool_decide (tc_ECHConfigList cfg = []) | _ => false end.
Definition offers_list (e : nev) : bool :=
  match e with EHandshake _ _ cfg _ => bool_decide (tc_ECHConfigList cfg = sample_list) | _ => false end.

Lemma ech_fails_closed_witness :
  let o := with_ "" "" "chrome" listed in
  let unmarshal := fetch_of o "https://example.com/" in
  let opts := {| fo_transport := o; fo_URL := "https://example.com/"; fo_Method := ""; fo_Data := "" |} in
  let u := {| u_Scheme := "https"; u_User := None; u_Host := "example.com" |} in
  let w := scripted "http/1.1" [("example.com:443" : gostr, true); ("example.org:443" : gostr, true)] in
  fetch_prepare unmarshal "" = Ok (opts, u) /\ echEnabled (fo_transport opts) = true /\ cache_ok ∅ /\
  length (List.filter offers_list (FetchWeb unmarshal "" ∅ w []).1) = 2%nat /\
  wp (FetchWeb unmarshal "" ∅) w [] (fun t x =>
    (t = [] /\ exists e, x = (∅, fetch_failed e)) \/
    exists t1 t2 ca1 a, t = t1 ++ t2 /\
      echConfigList 1 (fo_transport opts) (url_Hostname u) ∅ w [] = (t1, (ca1, a)) /\ cache_ok ca1 /\
      match a with
      | Err e => t2 = [] /\ x = (ca1, fetch_failed e)
      | Ok (l, _) => l <> [] /\ Forall (offers l) t2 /\ cache_ok x.1
      end).
Proof.
  intros o unmarshal opts u w.
  assert (fetch_prepare unmarshal "" = Ok (opts, u)) as Hp by reflexivity.
  assert (cache_ok ∅) as Hca by apply map_Forall_empty.
  split_and!; [exact Hp|reflexivity|exact Hca|reflexivity|].
  exact (ech_fails_closed unmarshal "" opts u ∅ w [] Hp ltac:(done) ltac:(done) Hca).
Defined.

Definition sample_probe : echOptions :=
  {| ech_Domain := ""; ech_DoH := ""; ech_ConfigList := ""; ech_Probe := "cloudflare-ech.com" |}.

Definition found (l : list byte) (x : cache * res (list byte * gostr)) : bool :=
  match x.2 with Ok (l', _) => bool_decide (l' = l) | Err _ => false end.

Lemma echConfigList_acquires_witness :
  let o := with_ "" "" "" (Some sample_probe) in
  let w := answering_probe (scripted "h2" []) in
  let x := echConfigList 1 o "example.com" ∅ w [] in
  exists key t1 t2 t3 tf ttl, cache_key o sample_probe "example.com" key /\
    x.1 = Base (ENow t1) :: Base (ENow t2) :: tf ++ [Base (ENow t3)] /\
    remembers ∅ x.2.1 key t3 (Ok (sample_list, ttl)).
Proof.
  intros o w x. assert (found sample_list x.2 = true) as Hf by (vm_compute; reflexivity).
  assert ((length x.1 =? 0)%nat = false) as Hl by (vm_compute; reflexivity).
  pose proof (echConfigList_acquires o sample_probe "example.com" ∅ w [] eq_refl eq_refl eq_refl) as Hw.
  apply wp_run in Hw. fold x in Hw. clearbody x.
  destruct Hw as [(er & _ & _ & Ht & _)|(key & t1 & Hk & Ha)]; [by rewrite Ht in Hl|].
  destruct Ha as [(ent & _ & [He _] & _)|(t2 & _ & [(ent & _ & [He _] & _)|(t3 & tf & r & _ & Ht & _ & Hx & Hm)])];
    [by rewrite lookup_empty in He..|].
  unfold found in Hf. rewrite Hx in Hf. destruct r as [[l ttl]|]; [|done]. apply bool_decide_eq_true in Hf as ->.
  exists key, t1, t2, t3, tf, ttl. split; [exact Hk|]. split; [exact Ht|exact Hm].
Defined.

(** A request for an http url asks for no configuration list, whatever its
    options say: when it is redirected to https, the handshake offers no ECH and
    nothing is reported. *)
Theorem ech_lost :
  let o := with_ "" "" "" listed in
  let '(t, (_, r)) := run_fetch o "http://example.com/" "http/1.1"
                        [("example.com:80" : gostr, false); ("example.com:443" : gostr, true)] in
  validate o = Ok tt /\ echEnabled o = true /\ fr_RespError r = None /\
  existsb offers_nothing t = true /\ existsb offers_list t = false.
Proof. vm_compute. repeat split. Qed.
