(* ===== verification/Evidence.v ===== *)
(** * What a result is evidence of

    The claims a result makes - a status and a body, that ECH was accepted, a
    configuration list got from a probe - each go back to an event of the trace. *)

From stdpp Require Import gmap.
From S2P Require Import Prelude GoString GoCodec GoNet GoHTTP Xray Options Headers Noise EchConfig Validate Net EchCache Transport Resolver Fetch Sample.
Open Scope Z_scope.

Section Evidence.
Context `{XrayLib} `{NetURL} `{Unicode} `{IntWidth} `{Cryptobyte} `{DnsLib}.
#[local] Set Default Proof Using "Type*".

(** A peer that accepted ECH: a handshake that says so, a completed QUIC handshake
    that offered a list (a refusal is an error there), or what [net/http] reports. *)
Definition ech_accepted (e : nev) : Prop :=
  match e with
  | EHandshake _ _ _ (Ok (_, accepted)) => accepted = true
  | EQUICDial _ _ cfg _ _ None => tc_ECHConfigList cfg <> []
  | EClientReturn (Ok resp) => resp_TLS resp = Some true
  | _ => False
  end.

Definition says_accepted (s : connState) : Prop := cs_set s = true /\ cs_echAccepted s = true.

(** A transport that records what its own handshakes say. *)
Definition records_truly (rt : round_tripper) : Prop :=
  match rt with
  | RtH3 _ _ _ ech cfg _ => tc_ECHConfigList cfg = ech
  | _ => True
  end.

(** ** Lemmas: automation *)

(** One step on the way to the event that matters. *)
Ltac follow :=
  lazymatch goal with
  | |- caused _ _ (mret _) _ => apply caused_ret
  | |- caused _ _ (if ?b then _ else _) _ => destruct b eqn:?
  | |- caused _ _ (match ?x with _ => _ end) _ => destruct x eqn:?
  | |- caused _ _ (let _ := _ in _) _ => cbv zeta
  end.

(** ** Lemmas: connections *)

Lemma record_says proto ech s :
  says_accepted (record proto ech s).1 -> says_accepted s \/ ech = true.
Proof. unfold record, says_accepted. destruct (_ && _); simpl; [by left|]. intros [_ ->]. by right. Qed.

(** Handshake, judge, record: the state claims no more than the handshake said. *)
Lemma tls_record_caused c fp cfg s (k : res (gostr * bool) -> N (connState * res handle)) :
  (forall r, caused ech_accepted (says_accepted s \/ exists p, r = Ok (p, true)) (k r) (fun x => says_accepted x.1)) ->
  caused ech_accepted (says_accepted s) (r ← tls_handshake c fp cfg; k r) (fun x => says_accepted x.1).
Proof.
  intros Hk. eapply caused_bind; [|exact Hk]. apply caused_perform. intros r [?|[p ->]]; [by left|by right].
Qed.

Lemma recorded_caused proto ech s c :
  caused ech_accepted (says_accepted s \/ exists p, Ok (proto, ech) = Ok (p, true))
    (match record proto ech s with
     | (s, Some e) => _ ← close_conn c; mret (s, Err e)
     | (s, None) => mret (s, Ok c)
     end) (fun x => says_accepted x.1).
Proof.
  pose proof (record_says proto ech s) as Hr. destruct (record proto ech s) as [s' [e|]].
  - apply caused_skip. intros ?. apply caused_ret. intros Hs. destruct (Hr Hs) as [?|Hech]; [by left|].
    right. exists proto. by rewrite Hech.
  - apply caused_ret. intros Hs. destruct (Hr Hs) as [?|Hech]; [by left|]. right. exists proto. by rewrite Hech.
Qed.

Lemma stdTLSDial_caused o addr frag host ech alpn s :
  caused ech_accepted (says_accepted s) (stdTLSDial o addr frag host ech alpn s) (fun x => says_accepted x.1).
Proof.
  unfold stdTLSDial. apply caused_skip. intros [raw|e]; [|by follow].
  apply tls_record_caused. intros [[proto acc]|e]; [apply recorded_caused|].
  apply caused_skip. intros ?. follow. by left.
Qed.

Lemma dialTLS_caused o mode frag host ech fp addr s :
  caused ech_accepted (says_accepted s) (dialTLS o mode frag host ech fp addr s) (fun x => says_accepted x.1).
Proof.
  unfold dialTLS. apply caused_skip. intros [raw|e]; [|by follow]. apply caused_skip. intros ok.
  follow; [apply caused_skip; intros ?; by follow|].
  apply tls_record_caused. intros [[proto acc]|e]; [|apply caused_skip; intros ?; follow; by left].
  follow; [apply caused_skip; intros ?; follow; by left|]. apply recorded_caused.
Qed.

Lemma h3_dial_caused o sock attempts noise ech cfg q addr s :
  tc_ECHConfigList cfg = ech ->
  caused ech_accepted (says_accepted s) (h3_dial o sock attempts noise ech cfg q addr s) (fun x => says_accepted x.1).
Proof.
  intros Hcfg. unfold h3_dial. follow; [|by follow]. apply caused_skip. intros [dst|e]; [|by follow].
  apply caused_skip. intros [e|]; [by follow|].
  eapply (caused_bind _ _ (fun c => says_accepted s \/ (is_Ok c = true /\ ech <> []))).
  - intros w h. apply wp_opened. intros r _ [?|[Hr He]]; [by left|]. right. constructor.
    destruct r; [done|]. simpl. by rewrite Hcfg.
  - intros [c|e]; [|follow; intros ?; by left]. pose proof (record_says "h3" (bool_decide (ech <> [])) s) as Hr.
    destruct (record _ _ s) as [s' [e|]]; [apply caused_skip; intros ?|]; follow; intros Hs;
      (destruct (Hr Hs) as [?|He]; [by left|bools; by right]).
Qed.

(** ** Lemmas: transports *)

Lemma rt_dial_caused o rt st addr tls :
  records_truly rt ->
  caused ech_accepted (says_accepted (rs_conn st)) (rt_dial o rt st addr tls) (fun x => says_accepted (rs_conn x.1)).
Proof.
  intros Hrt. unfold rt_dial. cbv zeta. destruct rt; simpl in Hrt.
  - apply caused_skip. intros r. by follow.
  - apply caused_skip. intros r. by follow.
  - follow; [|by follow]. eapply caused_bind; [apply stdTLSDial_caused|]. intros [s r]. by follow.
  - follow; [|follow; [by follow|apply caused_skip; intros r; by follow]].
    unfold handoff_get. follow; [by follow|]. eapply caused_bind; [apply dialTLS_caused|]. intros [s r]. by follow.
  - follow; [|by follow]. eapply caused_bind; [apply h3_dial_caused; by rewrite name_tls_list|]. intros [s r]. by follow.
Qed.

(** After the request: what [echAcceptedFrom] reports. *)
Lemma client_do_caused o rt st req :
  records_truly rt ->
  caused ech_accepted (says_accepted (rs_conn st)) (client_do o rt st req)
    (fun x => match x.2 with Ok resp => echAcceptedFrom (rs_conn x.1) (Some resp) = true | Err _ => False end).
Proof.
  intros Hrt. unfold client_do. apply caused_skip. intros ?. apply caused_skip. intros n. revert st.
  assert (forall st, caused ech_accepted (says_accepted (rs_conn st)) (r ← client_return; mret (st, r))
            (fun x => match x.2 with Ok resp => echAcceptedFrom (rs_conn x.1) (Some resp) = true | Err _ => False end))
    as Hret.
  { intros st. eapply caused_bind; [|intros r; apply caused_ret; intros Hr; exact Hr]. apply caused_perform.
    intros [resp|e]; [|done]. simpl. unfold echAcceptedFrom, says_accepted.
    destruct (cs_set (rs_conn st)); [auto|]. destruct (resp_TLS resp) as [[]|]; [auto|done|done]. }
  induction n as [|n IH]; intros st; simpl; [apply Hret|].
  apply caused_skip. intros [[addr tls]|]; [|apply Hret].
  eapply caused_bind; [by apply rt_dial_caused|]. intros [st' r]. apply caused_skip. intros ?. apply IH.
Qed.

Lemma transport_with_caused o u frag mode l s :
  ~ says_accepted s ->
  caused ech_accepted False (transport_with o u frag mode l s)
    (fun r => match r with Ok (rt, st) => says_accepted (rs_conn st) | Err _ => False end).
Proof.
  intros Hs. unfold transport_with, h3RoundTripper. cbv zeta. follow.
  { repeat (apply caused_skip_res; [intros ?|done]). apply caused_skip. intros [sock|e]; by follow. }
  follow; [follow; by follow|]. follow; [|by follow].
  eapply caused_bind; [eapply caused_mono; [apply dialTLS_caused|done|intros x Hx; exact Hx]|].
  intros [s' [probe|e]]; by follow.
Qed.

Lemma transport_with_records o u frag mode l s :
  does (fun _ => True) (on_Ok (fun p => records_truly p.1)) (transport_with o u frag mode l s).
Proof.
  unfold transport_with, h3RoundTripper. cbv zeta. case_bool_decide.
  - eapply does_then_res; [apply does_any|intros attempts|done].
    eapply does_then_res; [apply does_any|intros noise|done].
    eapply does_then; [apply does_any|]. intros [sock|e]; apply does_ret; [|done]. simpl. by case_bool_decide.
  - case_bool_decide; [case_bool_decide; by apply does_ret|]. destruct (GetFingerprint _); [|by apply does_ret].
    eapply does_then; [apply does_any|]. intros [s' [probe|e]]; by apply does_ret.
Qed.

(** A fresh [connState] claims nothing, and no more once the transport is there. *)
Lemma roundTripper_caused {A : Type} (acquire : gostr -> cache -> N (cache * res (list byte * gostr))) (o : transportOptions) (u : URL) (ca : cache) (post : A -> Prop) (f : cache * res (round_tripper * rt_state) -> N A) :
  (forall ca rt st, records_truly rt -> caused ech_accepted (says_accepted (rs_conn st)) (f (ca, Ok (rt, st))) post) ->
  (forall ca e, caused ech_accepted False (f (ca, Err e)) post) ->
  caused ech_accepted False (roundTripper acquire o u new_connState ca ≫= f) post.
Proof.
  intros Hok Herr.
  eapply (caused_bind_with _ (fun x => on_Ok (fun p => records_truly p.1) x.2) _
            (fun x => match x.2 with Ok (rt, st) => says_accepted (rs_conn st) | Err _ => False end)).
  - unfold roundTripper. destruct (fragmentConfig o); [|by apply does_ret]. destruct (alpnMode o); [|by apply does_ret].
    case_bool_decide; [apply does_ret; simpl; by repeat case_bool_decide|]. eapply does_then; [apply does_any|].
    intros [ca' [[l key]|e]]; [|by apply does_ret]. eapply does_bind; [apply transport_with_records|].
    intros r Hr. by apply does_ret.
  - unfold roundTripper. repeat (follow; [|by follow]). follow.
    + follow. simpl. repeat case_bool_decide; try done. by intros [? _].
    + apply caused_skip. intros [ca' [[l key]|e]]; [|by follow].
      eapply caused_bind; [apply transport_with_caused; by intros [? _]|]. intros r. by follow.
  - intros [ca' [[rt st]|e]] Hx; [by apply Hok|apply Herr].
Qed.

Lemma fetch_over_caused opts method rt st ca :
  records_truly rt ->
  caused ech_accepted (says_accepted (rs_conn st)) (fetch_over opts method rt st ca) (fun x => EchAccepted x.2 = true).
Proof.
  intros Hrt. unfold fetch_over. follow; [by follow|]. apply caused_skip. intros kvs.
  eapply caused_bind; [by apply client_do_caused|]. intros [st' [resp|e]]; [|repeat follow; done].
  eapply (caused_bind _ _ (fun x => EchAccepted x = true)); [|intros x; by follow].
  unfold fetch_response. apply caused_skip. intros ?. follow. by destruct (readBody resp).
Qed.

Lemma exchange_over_caused o server wire rt st ca :
  records_truly rt ->
  caused ech_accepted (says_accepted (rs_conn st)) (exchange_over o server wire rt st ca) (fun x => dx_ech x.2 = true).
Proof.
  intros Hrt. unfold exchange_over. follow; [by follow|]. apply caused_skip. intros kvs.
  eapply caused_bind; [by apply client_do_caused|]. intros [st' [resp|e]]; [|by follow].
  eapply (caused_bind _ _ (fun x => dx_ech x = true)); [|intros x; by follow].
  unfold read_reply. apply caused_skip. intros ?. by follow.
Qed.

Lemma fetch_with_caused opts u ca : caused ech_accepted False (fetch_with opts u ca) (fun x => EchAccepted x.2 = true).
Proof.
  unfold fetch_with. cbv zeta. apply roundTripper_caused; [|intros; by follow].
  intros ca' rt st Hrt. eapply caused_bind; [by apply fetch_over_caused|]. intros [[ca'' st'] x].
  apply caused_skip. intros ?. by follow.
Qed.

Lemma dnsExchange_caused acquire o server msg ca :
  caused ech_accepted False (dnsExchange acquire o server msg ca) (fun x => dx_ech x.2 = true).
Proof.
  unfold dnsExchange. follow; [|by follow]. follow; [by follow|]. apply caused_skip. intros m. follow; [|by follow].
  apply roundTripper_caused; [|intros; by follow].
  intros ca' rt st Hrt. eapply caused_bind; [by apply exchange_over_caused|]. intros [[ca'' st'] x].
  apply caused_skip. intros ?. by follow.
Qed.

(** ** Lemmas: responses *)

(** The response the HTTP client returned. *)
Definition returned (Q : Response -> Prop) (e : nev) : Prop :=
  match e with EClientReturn (Ok resp) => Q resp | _ => False end.

Lemma client_do_returned o rt st req Q :
  caused (returned Q) False (client_do o rt st req) (fun x => match x.2 with Ok resp => Q resp | Err _ => False end).
Proof.
  unfold client_do. apply caused_skip. intros ?. apply caused_skip. intros n. revert st.
  assert (forall st, caused (returned Q) False (r ← client_return; mret (st, r))
            (fun x : rt_state * res Response => match x.2 with Ok resp => Q resp | Err _ => False end)) as Hret.
  { intros st. eapply caused_bind; [|intros r; apply caused_ret; intros Hr; exact Hr]. apply caused_perform.
    intros [resp|e]; [by right|done]. }
  induction n as [|n IH]; intros st; simpl; [apply Hret|].
  apply caused_skip. intros [[addr tls]|]; [|apply Hret]. apply caused_skip. intros [st' r]. apply caused_skip.
  intros ?. apply IH.
Qed.

(** What [FetchWeb] makes of a response. *)
Definition reports (resp : Response) (x : FetchResult) : Prop :=
  exists payload, readBody resp = Ok payload /\
    fr_StatusCode x = StatusCode resp /\ fr_Proto x = resp_Proto resp /\
    RespHeader x = header_Get (resp_Header resp) "X-From-Server" /\
    if 299 <? StatusCode resp
    then RespBody x = [] /\ fr_RespError x = Some (Errorf "ERR status code: %d\n%s" [AInt (StatusCode resp); AStr payload] None)
    else RespBody x = payload /\ fr_RespError x = None.

Lemma failed_dec x : (exists e, x = fetch_failed e) \/ (forall e, x <> fetch_failed e).
Proof.
  destruct x as [b hd hs [e|] st p a]; [|by right].
  destruct (decide (b = [] /\ hd = [] /\ hs = [] /\ st = 0 /\ p = [] /\ a = false)) as [(-> & -> & -> & -> & -> & ->)|Hn].
  - left. by exists e.
  - right. intros e' [=]. by apply Hn.
Qed.

Lemma fetch_with_reports opts u ca x :
  caused (returned (fun resp => reports resp x)) False (fetch_with opts u ca)
    (fun y => y.2 = x /\ forall e, x <> fetch_failed e).
Proof.
  unfold fetch_with. cbv zeta. apply caused_skip. intros [ca' [[rt st]|e]]; [|follow; simpl; naive_solver].
  eapply (caused_bind _ _ (fun y => y.2 = x /\ forall e, x <> fetch_failed e)).
  - unfold fetch_over. follow; [follow; simpl; naive_solver|]. apply caused_skip. intros kvs.
    eapply caused_bind; [apply client_do_returned|]. intros [st' [resp|e]]; [|follow; follow; simpl; naive_solver].
    unfold fetch_response. eapply (caused_bind _ _ (fun y => y = x /\ forall e, x <> fetch_failed e));
      [|intros y; by follow].
    apply caused_skip. intros ?. follow. intros [<- Hx]. simpl.
    destruct (readBody resp) as [payload|e] eqn:Er; [|by destruct (Hx e)].
    exists payload. simpl. by destruct (299 <? _).
  - intros [[ca'' st'] y]. apply caused_skip. intros ?. by follow.
Qed.

(** A reply that came with status 200. *)
Definition replies (reply : dns_Msg) (resp : Response) : Prop :=
  StatusCode resp = 200 /\ exists body, ReadAll (LimitReader (resp_Body resp) maxDNSBytes) = Ok body /\ Unpack body = Ok reply.

Lemma dnsExchange_replies acquire o server msg ca reply :
  caused (returned (replies reply)) False (dnsExchange acquire o server msg ca) (fun x => dx_reply x.2 = Ok reply).
Proof.
  unfold dnsExchange. follow; [|by follow]. follow; [by follow|]. apply caused_skip. intros m. follow; [|by follow].
  apply caused_skip. intros [ca' [[rt st]|e]]; [|by follow].
  eapply (caused_bind _ _ (fun x => dx_reply x.2 = Ok reply)).
  - unfold exchange_over. follow; [by follow|]. apply caused_skip. intros kvs.
    eapply caused_bind; [apply client_do_returned|]. intros [st' [resp|e]]; [|by follow].
    unfold read_reply. eapply (caused_bind _ _ (fun x => dx_reply x = Ok reply)); [|intros y; by follow].
    apply caused_skip. intros ?. follow. simpl. unfold replies. destruct (StatusCode resp =? 200) eqn:Es; simpl.
    + bools. destruct (ReadAll _) as [body|]; [|done]. simpl. destruct (Unpack body) eqn:Eu; naive_solver.
    + intros Hx. by repeat case_match.
  - intros [[ca'' st'] y]. apply caused_skip. intros ?. by follow.
Qed.

(** ** Lemmas: the probe *)

(** A handshake with the probe's configuration whose server, after proving its
    name to [stack], rejected the offer and sent [l]. *)
Definition rejected_with (o : transportOptions) (name : gostr) (l : list byte) (e : nev) : Prop :=
  match e with
  | EHandshake _ fp cfg (Err err) =>
    exists stack bogus, cfg = probe_config o name bogus /\
      (fp = None <-> stack = GoTLS) /\
      errors_find (is_ECHRejectionError stack) err = Some (ECHRejectionError stack l)
  | _ => False
  end.

Lemma judge_retry_caused o name target bogus stack c fp k :
  (fp = None <-> stack = GoTLS) ->
  caused (rejected_with o name k) False
    (r ← tls_handshake c fp (probe_config o name bogus); mret (judge_retry name target (retry_configs stack r)))
    (fun r => exists ttl, r = Ok (k, ttl)).
Proof.
  intros Hfp. eapply (caused_bind _ _ (fun r => exists e, r = Err e /\
    errors_find (is_ECHRejectionError stack) e = Some (ECHRejectionError stack k))).
  - apply caused_perform. intros r (e & -> & He). right. exists stack, bogus. by split_and!.
  - intros [a|e]; apply caused_ret; intros [ttl Ht]; unfold judge_retry, retry_configs in Ht; [done|].
    exists e. split; [done|]. destruct (errors_find _ e) as [e'|] eqn:Ee; [|done].
    pose proof (errors_find_holds _ _ _ Ee) as Hp. destruct e'; try done.
    case_bool_decide; [done|]. destruct (negb _); [done|]. simplify_eq. by destruct stack, stack0.
Qed.

Lemma echProbe_caused o name target l :
  caused (rejected_with o name l) False (echProbe o name target) (fun r => exists ttl, r = Ok (l, ttl)).
Proof.
  unfold echProbe. apply caused_skip_res; [intros bogus|by intros ? [? ?]].
  apply caused_skip_res; [intros frag|by intros ? [? ?]]. apply caused_skip. intros [c|e]; [|follow; by intros [? ?]].
  apply caused_skip. intros dl. apply caused_skip. intros ?.
  eapply (caused_bind _ _ (fun r => exists ttl, r = Ok (l, ttl))).
  - follow; [|by apply judge_retry_caused]. follow; [by apply judge_retry_caused|]. follow. by intros [? ?].
  - intros r. apply caused_skip. intros ?. by follow.
Qed.

Lemma echProbe_judged o name target :
  does (fun _ => True) (on_Ok (fun p => p.1 <> [] /\ well_framed p.1 /\ p.2 = echProbeTTL)) (echProbe o name target).
Proof.
  assert (forall r, on_Ok (fun p => p.1 <> [] /\ well_framed p.1 /\ p.2 = echProbeTTL) (judge_retry name target r)) as Hj.
  { intros [l|e]; [|done]. unfold judge_retry. case_bool_decide; [done|].
    destruct (looksLikeECHConfigList l) eqn:El; [|done]. split_and!; [done| |done]. by apply looksLikeECHConfigList_spec_lem. }
  unfold echProbe. eapply does_then_res; [apply does_any|intros bogus|done].
  eapply does_then_res; [apply does_any|intros frag|done]. eapply does_then; [apply does_any|]. intros [c|e]; [|by does_step].
  do 2 (eapply does_then; [apply does_any|intros ?]).
  eapply does_bind; [|intros r Hr; eapply does_then; [apply does_any|]; intros ?; apply does_ret; exact Hr].
  repeat first [apply does_any | apply does_ret, Hj | does_step]; done.
Qed.

(** ** Properties *)

(** C10: What [FetchWeb] reports comes from the peer: a result that is not an error of
    the library's own describes a response the HTTP client returned, its status,
    protocol and body, with an error exactly when the status is above 299; and a
    result that says ECH was accepted has a handshake in its trace that says so. *)
Theorem FetchWeb_evidence unmarshal json ca w h :
  wp (FetchWeb unmarshal json ca) w h (fun t x =>
    ((exists e, x.2 = fetch_failed e) \/ Exists (returned (fun resp => reports resp x.2)) t) /\
    (EchAccepted x.2 = true -> Exists ech_accepted t)).
Proof.
  unfold FetchWeb. destruct (fetch_prepare unmarshal json) as [[opts u]|e]; [|apply wp_ret; split; eauto; done].
  pose proof (fetch_with_caused opts u ca w h) as Hech.
  assert (forall x, wp (fetch_with opts u ca) w h (fun t y => y.2 = x /\ (forall e, x <> fetch_failed e) ->
            False \/ Exists (returned (fun resp => reports resp x)) t)) as Hrep by (intros x; apply fetch_with_reports).
  unfold wp in *. destruct (fetch_with opts u ca w h) as [t x].
  split; [|by intros Hx; destruct (Hech Hx)].
  destruct (failed_dec x.2) as [|Hx]; [by left|right]. by destruct (Hrep x.2).
Qed.

(** C26: A DNS answer comes from the resolver: when [ResolveDoH] reports no error, the
    HTTP client returned a response with status 200 whose body, at most 64 KiB of
    it, is the message the result summarises; and ECH is reported as accepted only
    when the trace says so. *)
Theorem ResolveDoH_evidence unmarshal json ca w h :
  wp (ResolveDoH unmarshal json ca) w h (fun t x =>
    (dns_RespError x.2 = None ->
       exists reply, Exists (returned (replies reply)) t /\
         dns_Answers x.2 = (summarizeAnswers reply).1.1 /\ dns_IPs x.2 = Join (summarizeAnswers reply).1.2 ("," : gostr) /\
         dns_TTL x.2 = (summarizeAnswers reply).2 /\ dns_RcodeName x.2 = RcodeToString (dns_Rcode reply)) /\
    (dns_EchAccepted x.2 = true -> Exists ech_accepted t)).
Proof.
  assert (forall e, wp (mret (ca, dns_failed e [] false)) w h (fun t x =>
    (dns_RespError x.2 = None ->
       exists reply, Exists (returned (replies reply)) t /\
         dns_Answers x.2 = (summarizeAnswers reply).1.1 /\ dns_IPs x.2 = Join (summarizeAnswers reply).1.2 ("," : gostr) /\
         dns_TTL x.2 = (summarizeAnswers reply).2 /\ dns_RcodeName x.2 = RcodeToString (dns_Rcode reply)) /\
    (dns_EchAccepted x.2 = true -> Exists ech_accepted t))) as Hfail by (intros e; apply wp_ret; by split).
  unfold ResolveDoH. destruct (unmarshal json) as [opts|]; [|apply Hfail]. cbv zeta.
  do 2 (case_bool_decide; [apply Hfail|]). destruct (validate _); [|apply Hfail].
  destruct (StringToType _) as [qtype|]; [|apply Hfail]. apply wp_bind.
  pose proof (dnsExchange_caused (echConfigList 1 (doh_transport opts)) (doh_transport opts) (doh_Server opts)
                (SetQuestion (Fqdn (doh_Domain opts)) qtype) ca w h) as Hech.
  assert (forall reply, wp (dnsExchange (echConfigList 1 (doh_transport opts)) (doh_transport opts) (doh_Server opts)
                (SetQuestion (Fqdn (doh_Domain opts)) qtype) ca) w h (fun t y => dx_reply y.2 = Ok reply ->
            False \/ Exists (returned (replies reply)) t)) as Hrep by (intros reply; apply dnsExchange_replies).
  unfold wp in *. destruct (dnsExchange _ _ _ _ _ w h) as [t [ca' x]]. simpl in *. rewrite app_nil_r.
  destruct (dx_reply x) as [reply|e] eqn:Er; simpl.
  - destruct (summarizeAnswers reply) as [[answers ips] ttl] eqn:Es. simpl. split.
    + intros _. exists reply. rewrite Es. split_and!; try done. by destruct (Hrep reply eq_refl).
    + intros Hx. by destruct (Hech Hx).
  - split; [done|]. intros Hx. by destruct (Hech Hx).
Qed.

(** C17: A list got from a probe was sent by the server the probe names: it is a
    well-framed ECHConfigList that arrived in the rejection of a handshake with the
    probe's own configuration, and it is kept for [echProbeTTL]. *)
Theorem echProbe_evidence o name target w h :
  wp (echProbe o name target) w h (fun t r =>
    match r with
    | Ok (l, ttl) => l <> [] /\ well_framed l /\ ttl = echProbeTTL /\ Exists (rejected_with o name l) t
    | Err _ => True
    end).
Proof.
  pose proof (echProbe_judged o name target w h) as Hj.
  assert (forall l, wp (echProbe o name target) w h (fun t r => (exists ttl, r = Ok (l, ttl)) ->
            False \/ Exists (rejected_with o name l) t)) as Hc by (intros l; apply echProbe_caused).
  unfold wp in *. destruct (echProbe o name target w h) as [t [[l ttl]|e]]; [|done].
  destruct Hj as [_ (Hl & Hw & Ht)]. split_and!; try done. destruct (Hc l) as [|]; eauto. done.
Qed.

End Evidence.
