(* ===== verification/Cert.v ===== *)
(** * The certificate probe ([libv2ray_fetch_cert.go])

    One handshake, over TCP or QUIC, and the certificate the peer sent in it. *)

From stdpp Require Import gmap.
From S2P Require Import Prelude GoString GoCodec GoNet GoHTTP Xray Options Noise EchConfig Validate Net EchCache Transport Resolver Fetch Sample Quic Traffic Ownership.
Open Scope Z_scope.

(** What is read off an [x509.Certificate]; the times are formatted. *)
Record Certificate := {
  x_Subject : gostr;
  x_Issuer : gostr;
  x_CommonName : gostr;
  x_IssuerOrganization : list gostr;
  x_DNSNames : list gostr;
  x_NotBefore : gostr;
  x_NotAfter : gostr
}.

(** [crypto/x509] and [crypto/sha256]. *)
Class X509 := {
  ParseCertificate : list byte -> res Certificate;
  MarshalPublicKey : Certificate -> res (list byte);
  Sum256 : list byte -> list byte
}.

Section Cert.
Context `{XrayLib} `{NetURL} `{Unicode} `{IntWidth} `{X509}.

(** [RespError] is [None] where the source leaves it empty. *)
Record CertResult := {
  cr_Subject : gostr;
  cr_Issuer : gostr;
  cr_CommonName : gostr;
  cr_IssuerOrg : gostr;
  cr_DNSNames : gostr;
  cr_Alpn : gostr;
  cr_AlpnKnown : bool;
  cr_SpkiSha256 : gostr;
  cr_NotBefore : gostr;
  cr_NotAfter : gostr;
  cr_Leaf : list byte;
  cr_ChainLen : nat;
  cr_Proto : gostr;
  cr_HandshakeOK : bool;
  cr_RttMs : Z;
  cr_RespError : option error
}.

Record probeCertOptions := { pc_transport : transportOptions; pc_Address : gostr }.

(** [certSink.capture]: the first chain that is not empty is kept. *)
Definition capture (der rawCerts : list (list byte)) : list (list byte) :=
  if bool_decide (der = []) && bool_decide (rawCerts <> []) then rawCerts else der.

(** Without what the certificate says; the handshake may have failed. *)
Definition cert_result (proto alpn : gostr) (known ok : bool) (rtt : Z) (leaf : list byte) (n : nat)
    (e : option error) : CertResult := {|
  cr_Subject := []; cr_Issuer := []; cr_CommonName := []; cr_IssuerOrg := []; cr_DNSNames := [];
  cr_Alpn := alpn; cr_AlpnKnown := known; cr_SpkiSha256 := []; cr_NotBefore := []; cr_NotAfter := [];
  cr_Leaf := leaf; cr_ChainLen := n; cr_Proto := proto; cr_HandshakeOK := ok; cr_RttMs := rtt; cr_RespError := e |}.

Definition cert_failed (e : error) : CertResult := cert_result [] [] false false 0 [] 0 (Some e).

Definition with_error (r : CertResult) (e : error) : CertResult :=
  cert_result (cr_Proto r) (cr_Alpn r) (cr_AlpnKnown r) (cr_HandshakeOK r) (cr_RttMs r) (cr_Leaf r) (cr_ChainLen r) (Some e).

(** The fields read off the leaf. *)
Definition with_leaf (r : CertResult) (leaf : Certificate) : CertResult := {|
  cr_Subject := x_Subject leaf; cr_Issuer := x_Issuer leaf; cr_CommonName := x_CommonName leaf;
  cr_IssuerOrg := default [] (head (x_IssuerOrganization leaf));
  cr_DNSNames := Join (x_DNSNames leaf) ("," : gostr);
  cr_Alpn := cr_Alpn r; cr_AlpnKnown := cr_AlpnKnown r;
  cr_SpkiSha256 := match MarshalPublicKey leaf with Ok spki => hex_encode (Sum256 spki) | Err _ => [] end;
  cr_NotBefore := x_NotBefore leaf; cr_NotAfter := x_NotAfter leaf;
  cr_Leaf := cr_Leaf r; cr_ChainLen := cr_ChainLen r; cr_Proto := cr_Proto r; cr_HandshakeOK := cr_HandshakeOK r;
  cr_RttMs := cr_RttMs r; cr_RespError := cr_RespError r |}.

Definition certTLSConfig (o : transportOptions) (host mode : gostr) : tls_config := {|
  tc_ServerName := if bool_decide (ServerName o = []) then host else ServerName o;
  tc_InsecureSkipVerify := true;
  tc_NextProtos := alpnOffer mode;
  tc_ECHConfigList := [];
  tc_MinTLS13 := false; tc_RejectionUnverified := false; tc_NameToVerify := []
|}.

(** What a handshake returns, with the chain [certSink] has kept. *)
Definition shaken : Type := list (list byte) * res gostr.

Definition handshakeTCP (o : transportOptions) (target : gostr) (cfg : tls_config) : N shaken :=
  match fragmentConfig o with
  | Err e => mret ([], Err e)
  | Ok frag =>
    conn ← rawDial o target frag;
    match conn with
    | Err e => mret ([], Err e)
    | Ok c =>
      r ← tls_handshake c None cfg;
      calls ← certificates;
      _ ← close_conn c;
      mret (foldl capture [] calls, match r with Ok (proto, _) => Ok proto | Err e => Err e end)
    end
  end.

(** From the socket on, which the caller closes. *)
Definition quic_handshake (o : transportOptions) (attempts : list (list quic_Version)) (noise : option noiseConfig)
    (sock : handle) (dst : udp_addr) (cfg : tls_config) : N shaken :=
  let q := {| qc_Versions := default [] (head attempts); qc_MaxIdleTimeout := timeout o;
              qc_HandshakeIdleTimeout := timeout o; qc_MaxIncomingStreams := 0;
              qc_ChromeParrot := negb (DisableChromeParrot o) |} in
  nerr ← (match noise with Some n => lift_base (send n sock dst) | None => mret None end);
  match nerr with
  | Some e => mret ([], Err e)
  | None =>
    c ← quic_dial sock dst cfg q attempts;
    calls ← certificates;
    let der := foldl capture [] calls in
    match c with
    | Err e => mret (der, Err e)
    | Ok c => alpn ← quic_alpn c; _ ← quic_close c; mret (der, Ok alpn)
    end
  end.

Definition handshakeQUIC (o : transportOptions) (target : gostr) (cfg : tls_config) : N shaken :=
  match quicAttempts o with
  | Err e => mret ([], Err e)
  | Ok attempts =>
    match noise_config o with
    | Err e => mret ([], Err e)
    | Ok noise =>
      dst ← lift_base (resolve_udp target);
      match dst with
      | Err e => mret ([], Err (Errorf "h3: cannot resolve %q: %w" [AStr target] (Some e)))
      | Ok dst =>
        sock ← lift_base listen_udp;
        match sock with
        | Err e => mret ([], Err (Errorf "h3: cannot open udp socket: %w" [] (Some e)))
        | Ok sock =>
          r ← quic_handshake o attempts noise sock dst cfg;
          _ ← quic_transport_close sock;
          _ ← lift_base (close_udp sock);
          mret r
        end
      end
    end
  end.

(** The checks, and the target: the pinned address with the port of the other. *)
Definition cert_prepare (unmarshal : gostr -> res probeCertOptions) (json : gostr)
    : res (probeCertOptions * gostr * gostr * gostr) :=
  match unmarshal json with
  | Err e => Err (Errorf "invalid options json: %w" [] (Some e))
  | Ok opts =>
    let o := pc_transport opts in
    if bool_decide (pc_Address opts = []) then Err (OtherError "address is required") else
    match SplitHostPort (pc_Address opts) with
    | inl e => Err (Errorf "address %q is not host:port: %v" [AStr (pc_Address opts); AErr (OtherError (addr_error_text e))] None)
    | inr (host, port) =>
      if bool_decide (host = []) then Err (Errorf "address %q has no host" [AStr (pc_Address opts)] None) else
      _ ← validate o;
      mode ← alpnMode o;
      Ok (opts, host, mode, JoinHostPort (if bool_decide (IP o <> []) then IP o else host) port)
    end
  end.

Definition cert_report (proto : gostr) (rtt : Z) (r : shaken) : CertResult :=
  match r with
  | ([], Err e) => cert_result proto [] false false rtt [] 0 (Some e)
  | ([], Ok _) => cert_result proto [] false false rtt [] 0 (Some (OtherError "no certificate was presented"))
  | (leaf :: chain, h) =>
    let result := match h with
                  | Err e => cert_result proto [] false false rtt leaf (S (length chain)) (Some e)
                  | Ok alpn => cert_result proto alpn true true rtt leaf (S (length chain)) None
                  end in
    match ParseCertificate leaf with
    | Err e => with_error result (Errorf "cannot parse the leaf certificate: %w" [] (Some e))
    | Ok cert => with_leaf result cert
    end
  end.

Definition ProbeCert (unmarshal : gostr -> res probeCertOptions) (json : gostr) : N CertResult :=
  match cert_prepare unmarshal json with
  | Err e => mret (cert_failed e)
  | Ok (opts, host, mode, target) =>
    let o := pc_transport opts in
    let cfg := certTLSConfig o host mode in
    started ← lift_base now;
    r ← (if bool_decide (mode = alpnH3) then handshakeQUIC o target cfg else handshakeTCP o target cfg);
    t ← lift_base now;
    mret (cert_report (if bool_decide (mode = alpnH3) then "h3" else "tcp")
            (wrapS int_bits (Z.quot (t - started) Millisecond)) r)
  end.

(** ** Lemmas: the chain *)

(** The chains the callback was given in [t], and the first that is not empty. *)
Definition sent_chains (t : list nev) : list (list (list byte)) :=
  flat_map (fun e => match e with ECertificates calls => calls | _ => [] end) t.
Definition first_chain (chains : list (list (list byte))) : list (list byte) :=
  default [] (head (List.filter (fun c => negb (bool_decide (c = []))) chains)).

Lemma capture_nil c : capture [] c = c.
Proof. unfold capture. rewrite bool_decide_true by done. by destruct c. Qed.

Lemma capture_kept der calls : der <> [] -> foldl capture der calls = der.
Proof. intros Hd. induction calls as [|c calls IH]; simpl; [done|].
  assert (capture der c = der) as -> by (unfold capture; rewrite bool_decide_false by done; done). exact IH.
Qed.

Lemma capture_first calls : foldl capture [] calls = first_chain calls.
Proof.
  unfold first_chain. induction calls as [|c calls IH]; simpl; [done|]. rewrite capture_nil.
  destruct c as [|leaf chain]; simpl; [exact IH|]. by apply capture_kept.
Qed.

(** ** Lemmas: the handshake *)

Definition completed (e : nev) : Prop :=
  match e with EHandshake _ _ _ (Ok _) | EQUICDial _ _ _ _ _ None => True | _ => False end.

(** Neither a handshake nor certificates. *)
Definition silent (e : nev) : Prop :=
  match e with ECertificates _ | EHandshake _ _ _ _ | EQUICDial _ _ _ _ _ _ => False | _ => True end.

Definition is_handshake (e : nev) : bool :=
  match e with EHandshake _ _ _ _ | EQUICDial _ _ _ _ _ _ => true | _ => false end.

(** What the peer sends in a handshake is heard, also when the handshake fails. *)
Fixpoint heard (t : list nev) : Prop :=
  match t with
  | [] => True
  | e :: t => (is_handshake e = true -> exists calls t', t = ECertificates calls :: t') /\ heard t
  end.

(** What a handshake returns is what the trace has. *)
Definition shook (t : list nev) (r : shaken) : Prop :=
  r.1 = first_chain (sent_chains t) /\ (is_Ok r.2 = true <-> Exists completed t) /\ heard t.

Lemma sent_chains_app t t' : sent_chains (t ++ t') = sent_chains t ++ sent_chains t'.
Proof. apply flat_map_app. Qed.

Lemma silent_sends t : Forall silent t -> sent_chains t = [] /\ ~ Exists completed t.
Proof.
  induction 1 as [|e t He _ [IH1 IH2]]; [by split; [|intros ?%Exists_nil]|]. split.
  - destruct e; simpl; try done; exact IH1.
  - intros [Hc|Hc]%Exists_cons; [by destruct e|done].
Qed.

Lemma heard_app t t' : heard t -> heard t' -> heard (t ++ t').
Proof.
  induction t as [|e t IH]; simpl; [done|]. intros [He Ht] Ht'. split; [|by apply IH].
  intros (calls & t'' & ->)%He. by exists calls, (t'' ++ t').
Qed.

Lemma heard_silent t : Forall silent t -> heard t.
Proof. induction 1 as [|e t He _ IH]; [done|]. split; [by destruct e|exact IH]. Qed.

(** Silent parts before and after do not matter. *)
Lemma shook_around t0 t t1 r : Forall silent t0 -> Forall silent t1 -> shook t r -> shook (t0 ++ t ++ t1) r.
Proof.
  intros S0 S1 (Hr & Hc & Hh). pose proof (silent_sends t0 S0) as [K0 N0]. pose proof (silent_sends t1 S1) as [K1 N1].
  split_and!.
  - by rewrite !sent_chains_app, K0, K1, app_nil_r.
  - rewrite Hc, !Exists_app. naive_solver.
  - auto using heard_app, heard_silent.
Qed.

Lemma shook_nothing t e : Forall silent t -> shook t ([], Err e).
Proof.
  intros Hs. pose proof (silent_sends t Hs) as [Ht Hn].
  split_and!; simpl; [by rewrite Ht|split; [done|by intros ?]|by apply heard_silent].
Qed.

(** ** Lemmas: what is done *)

(** A probe dials the target or the proxy, which it asks for the target, resolves the
    target, and shakes hands with [cfg] over the carrier of the mode; no HTTP client is
    involved. *)
Definition probing (o : transportOptions) (mode target : gostr) (cfg : tls_config) (e : nev) : Prop :=
  match e with
  | EDial a _ =>
    if bool_decide (Proxy o = []) then a = target else exists pu, url_Parse (Proxy o) = Ok pu /\ a = u_Host pu
  | ESocks server auth a _ => exists pu, url_Parse (Proxy o) = Ok pu /\ server = u_Host pu /\ auth = u_User pu /\ a = target
  | EWrite _ p _ => exists rest, p = ("CONNECT " : gostr) ++ target ++ (" HTTP/1.1" : gostr) ++ rest
  | EHandshake _ fp cfg' _ => mode <> alpnH3 /\ fp = None /\ cfg' = cfg
  | EQUICDial _ _ cfg' _ _ _ => mode = alpnH3 /\ cfg' = cfg
  | Base (EResolveUDP a _) => a = target
  | EUClient _ _ | EClientDo _ | EClientConnect _ | EClientGot _ | EClientReturn _ | EBodyClose | EHeaderOrder _ => False
  | _ => True
  end.

Lemma proxyConnect_neutral (P : nev -> Prop) c pu addr :
  (forall e, match e with EDeadline _ | ESetDeadline _ _ | EReadResponse _ _ => P e | _ => True end) ->
  (forall r, P (EWrite c (connect_request pu addr) r)) ->
  does P anything (proxyConnect c pu addr).
Proof.
  intros HP Hw. unfold proxyConnect, ctx_deadline, set_deadline, write_conn, read_response.
  repeat does_step; intros; first [apply (HP (EDeadline _)) | apply (HP (ESetDeadline _ _))
    | apply Hw | apply (HP (EReadResponse _ _))].
Qed.

Lemma send_lifted (P : nev -> Prop) n c dst :
  (forall e, noise_event e = true -> P (Base e)) -> does P anything (lift_base (send n c dst)).
Proof. intros HP. apply does_lift. eapply does_mono; [apply send_does|exact HP|done]. Qed.

(** The target of a probe: pinning it changes nothing. *)
Definition pinned_already (o : transportOptions) (target : gostr) : Prop := forall a, pin_addr o target = Ok a -> a = target.

Lemma target_pinned o host port :
  x3a ∉ port -> pinned_already o (JoinHostPort (if bool_decide (IP o <> []) then IP o else host) port).
Proof.
  intros Hp a. unfold pin_addr. case_bool_decide; [|by intros [= ->]].
  destruct (SplitHostPort _) as [|[h' p']] eqn:Es; [done|]. intros [= <-].
  by apply Split_Join_port in Es as ->.
Qed.

(** What dialing the target does. *)
Definition dialing (o : transportOptions) (target : gostr) (e : nev) : Prop :=
  match e with
  | EDial _ _ | ESocks _ _ _ _ | EWrite _ _ _ => probing o [] target (certTLSConfig o [] []) e
  | EDeadline _ | ESetDeadline _ _ | EReadResponse _ _ | EFragment _ _ _ | EClose _ => True
  | _ => False
  end.

Lemma rawDial_dialing o target frag : pinned_already o target -> does (dialing o target) anything (rawDial o target frag).
Proof.
  intros Ht. unfold rawDial. destruct (pin_addr o target) as [a|e] eqn:Ea.
  2:{ eapply does_bind_res; [apply (does_ret _ (on_Ok (fun _ => False))); done|done|done]. }
  rewrite (Ht a Ea).
  eapply does_bind_res; [apply (does_ret _ (on_Ok (fun x => x = target))); done| |done]. intros ? ->.
  eapply does_then_res; [| |done].
  - case_bool_decide as Hp.
    + apply does_opened. intros r. simpl. by rewrite bool_decide_true.
    + unfold dialViaProxy. destruct (url_Parse (Proxy o)) as [pu|] eqn:Eu; [|by does_step]. cbv zeta.
      does_step; [apply does_opened; intros; simpl; eauto|]. does_step; [|by does_step].
      eapply does_then_res; [|intros c|done].
      * apply does_opened. intros r. simpl. rewrite bool_decide_false by done. eauto.
      * eapply does_then; [apply proxyConnect_neutral; [by intros []|intros r; simpl; unfold connect_request; by eexists]|].
        intros [e|]; unfold close_conn; repeat does_step.
  - unfold new_fragment, close_conn. repeat does_step.
Qed.

Lemma dialing_silent o target e : dialing o target e -> silent e.
Proof. by destruct e. Qed.

Lemma rawDial_silent o target frag w h :
  pinned_already o target -> wp (rawDial o target frag) w h (fun t _ => Forall silent t).
Proof.
  intros Ht. eapply wp_mono; [by apply does_trace, rawDial_dialing|]. intros t r Hf.
  eapply Forall_impl; [exact Hf|]. apply dialing_silent.
Qed.

Lemma handshakeTCP_probing o mode target cfg :
  pinned_already o target -> mode <> alpnH3 -> does (probing o mode target cfg) anything (handshakeTCP o target cfg).
Proof.
  intros Ht Hm. unfold handshakeTCP, tls_handshake, certificates, close_conn.
  repeat first [eapply does_mono; [by apply rawDial_dialing|by intros []|done] | does_step].
Qed.

Lemma handshakeTCP_shook o target cfg w h :
  pinned_already o target -> wp (handshakeTCP o target cfg) w h shook.
Proof.
  intros Ht. unfold handshakeTCP. destruct (fragmentConfig o) as [frag|e]; [|apply wp_ret, shook_nothing; constructor].
  apply wp_bind. eapply wp_mono; [by apply rawDial_silent|]. intros t [c|e] Hs.
  2:{ apply wp_ret. rewrite app_nil_r. by apply shook_nothing. }
  apply wp_bind_perform. intros r _. apply wp_bind_perform. intros calls _. apply wp_bind_perform. intros ? _. apply wp_ret.
  rewrite <- (app_nil_r [_; _; _]). apply shook_around; [done|constructor|]. split_and!.
  - simpl. rewrite app_nil_r. apply capture_first.
  - rewrite !Exists_cons, Exists_nil. simpl. destruct r as [[proto ech]|e]; simpl; naive_solver.
  - simpl. naive_solver.
Qed.

Lemma handshakeQUIC_probing o mode target cfg :
  mode = alpnH3 -> does (probing o mode target cfg) anything (handshakeQUIC o target cfg).
Proof.
  intros Hm. unfold handshakeQUIC, quic_handshake, quic_dial, quic_close, quic_transport_close, certificates, resolve_udp, close_udp.
  repeat first [apply send_lifted; by intros [] | does_step].
  - intros w h. by repeat constructor.
  - done.
  - intros w h. by repeat constructor.
Qed.

Lemma map_base_silent t : Forall silent (map Base t).
Proof. apply Forall_map, Forall_true. done. Qed.

Lemma quic_handshake_shook o attempts noise sock dst cfg w h :
  wp (quic_handshake o attempts noise sock dst cfg) w h shook.
Proof.
  unfold quic_handshake. cbv zeta. apply wp_bind.
  assert (wp (match noise with Some n => lift_base (send n sock dst) | None => mret None end) w h
    (fun t _ => Forall silent t)) as Hb.
  { destruct noise as [n|]; [|apply wp_ret; constructor]. apply wp_lift_base, wp_True. intros t _. apply map_base_silent. }
  eapply wp_mono; [exact Hb|]. intros t [e|] Ht; [apply wp_ret; rewrite app_nil_r; by apply shook_nothing|].
  apply wp_bind, wp_opened. intros r _. apply wp_bind_perform. intros calls _.
  destruct r as [e|].
  - apply wp_ret. rewrite <- (app_nil_r ([_] ++ _)). apply shook_around; [done|constructor|]. split_and!.
    + simpl. rewrite app_nil_r. apply capture_first.
    + cbn [app]. rewrite !Exists_cons, Exists_nil. simpl. naive_solver.
    + simpl. naive_solver.
  - apply wp_bind. unfold quic_alpn, wp at 1. apply wp_bind_perform. intros ? _. apply wp_ret.
    rewrite <- (app_nil_r ([_] ++ _)). apply shook_around; [done|constructor|]. split_and!.
    + simpl. rewrite app_nil_r. apply capture_first.
    + cbn [app]. rewrite !Exists_cons, Exists_nil. simpl. naive_solver.
    + simpl. naive_solver.
Qed.

(** The handshake over QUIC, around the one on the socket. *)
Lemma handshakeQUIC_run (Q : list nev -> shaken -> Prop) o target cfg w h :
  (forall t e, Forall (fun e => no_datagram e /\ silent e) t -> Q t ([], Err e)) ->
  (forall attempts noise sock dst r h, noise_config o = Ok noise ->
    wp (quic_handshake o attempts noise sock dst cfg) w h (fun t x =>
      Q (Base (EResolveUDP target (Ok dst)) :: Base (EListenUDP r) :: t ++ [EQUICTransportClose sock; Base (ECloseUDP sock)]) x)) ->
  wp (handshakeQUIC o target cfg) w h Q.
Proof.
  intros He Hq. unfold handshakeQUIC. destruct (quicAttempts o) as [attempts|e]; [|apply wp_ret, He; constructor].
  destruct (noise_config o) as [noise|e] eqn:En; [|apply wp_ret, He; constructor].
  apply wp_bind, wp_lift_base, wp_perform. set (rr := w_resolve_udp _ _ _). clearbody rr. cbn [map].
  destruct rr as [dst|e]; [|apply wp_ret, He; by repeat constructor].
  apply wp_bind, wp_lift_base. unfold listen_udp, wp at 1. cbv zeta. cbn [map].
  set (lr := w_listen_udp _ _). clearbody lr. destruct lr as [e|]; [apply wp_ret, He; by repeat constructor|].
  apply wp_bind. eapply wp_mono; [by apply (Hq attempts noise)|]. intros t x Hx.
  apply wp_bind_perform. intros ? _. apply wp_bind, wp_lift_base, wp_perform. apply wp_ret. exact Hx.
Qed.

Lemma handshakeQUIC_shook o target cfg w h : wp (handshakeQUIC o target cfg) w h shook.
Proof.
  apply handshakeQUIC_run.
  - intros t e Ht. apply shook_nothing. eapply Forall_impl; [exact Ht|]. by intros ? [].
  - intros attempts noise sock dst r h' _. eapply wp_mono; [apply quic_handshake_shook|]. intros t x Hx.
    apply (shook_around [_; _]); [by repeat constructor..|exact Hx].
Qed.

Lemma handshakeQUIC_blocks ok P Burst o target cfg :
  P target -> (forall noise, noise_config o = Ok noise -> bursts ok Burst noise) ->
  runs ok (blocks no_datagram P Burst) anything (handshakeQUIC o target cfg).
Proof.
  intros HP Hb w h Hw. apply handshakeQUIC_run.
  - intros t e Ht. split; [|done]. apply made_of_each. eapply Forall_impl; [exact Ht|]. intros x [Hx _]. left. by apply single_one.
  - intros attempts noise sock dst r h' Hn. unfold quic_handshake. cbv zeta.
    eapply wp_mono; [apply (burst_and_dial Burst); [by apply (Hb noise Hn)|]|].
    + intros c. unfold certificates, quic_alpn, quic_close. repeat does_step. intros w' h''. by repeat constructor.
    + intros t x (tb & tq & t' & -> & Ht & Hnt & Hq). split; [|done].
      change (made_of (blocks no_datagram P Burst) (([Base (EResolveUDP target (Ok dst))] ++ map Base [EListenUDP r]) ++
        (map Base tb ++ tq ++ t') ++ [EQUICTransportClose sock; Base (ECloseUDP sock)])).
      rewrite <- !(assoc_L (++)). rewrite (assoc_L (++) (map Base tb)), (assoc_L (++) (map Base [_])), (assoc_L (++) [_] ((map Base [_]) ++ _)).
      apply made_cons; [right; by exists target, dst, sock, [EListenUDP r], tb, tq; split_and!; [..|repeat constructor; by eexists| |]|].
      apply made_of_each, Forall_app. split; [|by rewrite !Forall_cons; split_and!; [left; by apply single_one..|]].
      eapply Forall_impl; [exact Hnt|]. intros e He. left. apply single_one. destruct e; try done. by destruct e.
Qed.

(** ** Lemmas: what is closed *)

Lemma handshakeTCP_settles o target cfg k : settles k (handshakeTCP o target cfg) (fun _ => k).
Proof.
  unfold handshakeTCP. destruct (fragmentConfig o); [|by apply settles_ret].
  eapply settles_bind; [apply rawDial_settles|]. intros [c|e]; [|by apply settles_ret].
  do 2 (apply settles_skip; [by apply does_perform|intros ?]).
  eapply settles_bind; [apply settles_close|]. intros ?. by apply settles_ret.
Qed.

Lemma quic_close_settles c k : settles (Conn c :: k) (quic_close c) (fun _ => k).
Proof. intros w h. apply wp_perform. simpl. by rewrite app_nil_r. Qed.

Lemma handshakeQUIC_settles o target cfg k : settles k (handshakeQUIC o target cfg) (fun _ => k).
Proof.
  unfold handshakeQUIC. destruct (quicAttempts o); [|by apply settles_ret].
  destruct (noise_config o); [|by apply settles_ret].
  apply settles_skip; [by apply does_lift, does_perform|]. intros [dst|e]; [|by apply settles_ret].
  eapply settles_bind; [apply listen_udp_settles|]. intros [sock|e]; [|by apply settles_ret].
  apply (settles_bind _ (fun _ => Sock sock :: k)).
  - unfold quic_handshake. cbv zeta. apply settles_skip; [case_match; [apply send_still|by apply does_ret]|].
    intros [e|]; [by apply settles_ret|]. eapply settles_bind; [apply quic_dial_settles|]. intros c.
    apply settles_skip; [by apply does_perform|]. intros calls. destruct c as [c|e]; [|by apply settles_ret].
    apply settles_skip; [intros w h; by repeat constructor|]. intros alpn.
    eapply settles_bind; [apply quic_close_settles|]. intros ?. by apply settles_ret.
  - intros r. apply settles_skip; [by apply does_perform|]. intros ?.
    eapply settles_bind; [apply close_udp_settles|]. intros ?. by apply settles_ret.
Qed.

Lemma probing_disposed o mode target cfg t : Forall (probing o mode target cfg) t -> disposed t = flat_map closes t.
Proof.
  unfold disposed. induction 1 as [|e t He _ IH]; simpl; [done|]. rewrite IH. f_equal.
  destruct e; try done; apply app_nil_r.
Qed.

(** ** Lemmas: one handshake *)

Lemma handshakeTCP_once o target cfg : pinned_already o target -> uses is_handshake 1 (handshakeTCP o target cfg).
Proof.
  intros Ht. unfold handshakeTCP. destruct (fragmentConfig o); [|apply uses_ret].
  apply uses_skip; [eapply does_mono; [by apply rawDial_dialing|by intros []|done]|]. intros [c|e]; [|apply uses_ret].
  apply uses_last; [apply uses_perform|]. intros r. unfold certificates, close_conn. repeat does_step.
Qed.

Lemma handshakeQUIC_once o target cfg : uses is_handshake 1 (handshakeQUIC o target cfg).
Proof.
  unfold handshakeQUIC. destruct (quicAttempts o); [|apply uses_ret]. destruct (noise_config o); [|apply uses_ret].
  apply uses_skip; [by apply does_lift, does_perform|]. intros [dst|e]; [|apply uses_ret].
  apply uses_skip; [apply does_lift; intros w h; by repeat constructor|]. intros [sock|e]; [|apply uses_ret].
  apply uses_last; [|intros r; unfold quic_transport_close, close_udp; by repeat does_step].
  unfold quic_handshake. cbv zeta.
  apply uses_skip; [case_match; [apply send_lifted; by intros []|by apply does_ret]|].
  intros [e|]; [apply uses_ret|]. apply uses_last.
  - intros w h. apply wp_opened. intros r _. done.
  - intros c. unfold certificates, quic_alpn, quic_close. repeat does_step. intros w h. by repeat constructor.
Qed.

(** ** Lemmas: a handshake is made *)

(** A step before the handshake failed. *)
Definition hindered (e : nev) : Prop :=
  match e with
  | EDial _ (Some _) | ESocks _ _ _ (Some _) | EFragment _ _ (Some _) | EWrite _ _ (Some _) | EReadResponse _ (Err _)
  | Base (EResolveUDP _ (Err _)) | Base (EListenUDP (Some _)) => True
  | EReadResponse _ (Ok (code, _, buffered)) => code <> 200 \/ 0 < buffered
  | _ => False
  end.

Definition tried (e : nev) : Prop := is_handshake e = true \/ hindered e.

(** Options with which the target can be reached, and no noise that may fail. *)
Definition ready (o : transportOptions) (mode target : gostr) : Prop :=
  if bool_decide (mode = alpnH3) then is_Ok (quicAttempts o) = true /\ noise_config o = Ok None
  else is_Ok (fragmentConfig o) = true /\ is_Ok (pin_addr o target) = true /\
    (Proxy o <> [] -> exists pu, url_Parse (Proxy o) = Ok pu /\
       ToLower (u_Scheme pu) ∈ ([("socks5" : gostr); "socks5h"; "http"])).

Definition failing {A} (r : res A) : Prop := match r with Ok _ => False | Err _ => True end.

Lemma opened_tried answer ev :
  (forall e, tried (ev (Some e))) -> caused tried False (opened (perform answer ev)) failing.
Proof. intros He w h. apply wp_opened. intros [e|] _; [|done]. intros _. right. constructor. apply He. Qed.

Lemma proxyConnect_tried c pu addr : caused tried False (proxyConnect c pu addr) (fun r => r <> None).
Proof.
  unfold proxyConnect. apply caused_skip. intros dl. apply caused_skip. intros ?.
  apply (caused_bind _ _ (fun r => r <> None)); [|intros r; apply caused_skip; intros ?; by apply caused_ret].
  apply (caused_bind _ _ (fun r => r <> None)); [apply caused_perform; intros [e|]; [right; by right|done]|].
  intros [e|]; [by apply caused_ret|].
  apply (caused_bind _ _ (fun r => match r with Ok (code, _, buffered) => code <> 200 \/ 0 < buffered | Err _ => True end)).
  - apply caused_perform. intros [[[code st] b]|e]; right; by right.
  - intros [[[code st] b]|e]; apply caused_ret; [|done]. destruct (code =? 200) eqn:Ec; simpl; bools; [|by left].
    destruct (0 <? b) eqn:Eb; bools; [by right|done].
Qed.

Lemma dialViaProxy_tried o pu addr :
  url_Parse (Proxy o) = Ok pu -> ToLower (u_Scheme pu) ∈ ([("socks5" : gostr); "socks5h"; "http"]) ->
  caused tried False (dialViaProxy o addr) failing.
Proof.
  intros Eu Hs. unfold dialViaProxy. rewrite Eu. cbv zeta.
  case_bool_decide as Hk1; [apply opened_tried; intros; by right|].
  case_bool_decide as Hk2; [|exfalso; set_solver].
  apply (caused_bind_res _ _ (fun _ => False)); [apply opened_tried; intros; by right|]. intros c.
  eapply caused_bind; [apply proxyConnect_tried|]. intros [e|]; [|by apply caused_ret].
  apply caused_skip. intros ?. by apply caused_ret.
Qed.

Lemma rawDial_tried o target frag :
  is_Ok (pin_addr o target) = true ->
  (Proxy o <> [] -> exists pu, url_Parse (Proxy o) = Ok pu /\ ToLower (u_Scheme pu) ∈ ([("socks5" : gostr); "socks5h"; "http"])) ->
  caused tried False (rawDial o target frag) failing.
Proof.
  intros Ha Hp. unfold rawDial. destruct (pin_addr o target) as [a|]; [|done].
  apply (caused_bind_res _ _ (fun _ => False)); [by apply caused_ret|]. intros a'.
  apply (caused_bind_res _ _ (fun _ => False)).
  - case_bool_decide as Ep; [apply opened_tried; intros; by right|].
    destruct (Hp Ep) as (pu & Hu & Hs). by eapply dialViaProxy_tried.
  - intros c. destruct frag as [cfg|]; [|by apply caused_ret].
    eapply (caused_bind _ _ (fun r => r <> None)); [apply caused_perform; intros [e|]; [right; by right|done]|].
    intros [e|]; [|by apply caused_ret]. apply caused_skip. intros ?. by apply caused_ret.
Qed.

Lemma handshakeTCP_tried o mode target cfg :
  mode <> alpnH3 -> ready o mode target -> caused tried False (handshakeTCP o target cfg) anything.
Proof.
  intros Hm. unfold ready. rewrite bool_decide_false by done. intros (Hf & Ha & Hp). unfold handshakeTCP.
  destruct (fragmentConfig o) as [frag|]; [|done].
  apply (caused_bind _ _ failing); [by apply rawDial_tried|]. intros [c|e]; [|by apply caused_ret].
  apply (caused_bind _ _ anything); [apply caused_perform; intros; right; by left|]. intros r.
  apply caused_skip. intros calls. apply caused_skip. intros ?. by apply caused_ret.
Qed.

Lemma handshakeQUIC_tried o mode target cfg :
  mode = alpnH3 -> ready o mode target -> caused tried False (handshakeQUIC o target cfg) anything.
Proof.
  intros Hm. unfold ready. rewrite bool_decide_true by done. intros [Hq Hn]. unfold handshakeQUIC. rewrite Hn.
  destruct (quicAttempts o) as [attempts|]; [|done].
  apply (caused_bind _ _ failing).
  { intros w h. apply wp_lift_base, wp_perform. set (r := w_resolve_udp _ _ _). clearbody r. destruct r; [done|].
    intros _. right. constructor. by right. }
  intros [dst|e]; [|by apply caused_ret].
  apply (caused_bind _ _ failing).
  { intros w h. apply wp_lift_base. unfold listen_udp, wp. set (r := w_listen_udp _ _). clearbody r. destruct r; [|done].
    intros _. right. constructor. by right. }
  intros [sock|e]; [|by apply caused_ret].
  apply (caused_bind _ _ anything); [|intros r; do 2 (apply caused_skip; intros ?); by apply caused_ret].
  unfold quic_handshake. cbv zeta. apply (caused_bind _ _ (fun r => r <> None)); [by apply caused_ret|].
  intros [e|]; [by apply caused_ret|]. apply (caused_bind _ _ anything).
  - intros w h. apply wp_opened. intros r _ _. right. constructor. by left.
  - intros c. apply caused_skip. intros calls. destruct c; [|by apply caused_ret].
    do 2 (apply caused_skip; intros ?). by apply caused_ret.
Qed.

(** ** Lemmas: the report *)

(** The fields that are read off the certificate. *)
Definition describes (cert : Certificate) (x : CertResult) : Prop :=
  cr_Subject x = x_Subject cert /\ cr_Issuer x = x_Issuer cert /\ cr_CommonName x = x_CommonName cert /\
  cr_IssuerOrg x = default [] (head (x_IssuerOrganization cert)) /\
  cr_DNSNames x = Join (x_DNSNames cert) ("," : gostr) /\ cr_NotBefore x = x_NotBefore cert /\
  cr_NotAfter x = x_NotAfter cert /\
  forall spki, MarshalPublicKey cert = Ok spki -> cr_SpkiSha256 x = hex_encode (Sum256 spki).

Definition reported (r : shaken) (x : CertResult) : Prop :=
  cr_ChainLen x = length r.1 /\ cr_HandshakeOK x = is_Ok r.2 && bool_decide (r.1 <> []) /\
  cr_AlpnKnown x = cr_HandshakeOK x /\
  match r.1 with
  | [] => is_Some (cr_RespError x) /\ cr_Leaf x = []
  | leaf :: _ =>
    cr_Leaf x = leaf /\
    match ParseCertificate leaf with
    | Ok cert => describes cert x /\ cr_RespError x = res_error r.2
    | Err _ => is_Some (cr_RespError x)
    end
  end.

Lemma cert_report_reported proto rtt r : reported r (cert_report proto rtt r).
Proof.
  destruct r as [[|leaf chain] h]; unfold reported, cert_report; simpl.
  - destruct h; simpl; eauto.
  - destruct (ParseCertificate leaf) as [cert|e] eqn:Ep; destruct h; simpl; split_and!; eauto;
      unfold describes; simpl; split_and!; try done; by intros spki ->.
Qed.

(** The handshake of a probe, over either carrier. *)
Definition shake (o : transportOptions) (mode target : gostr) (cfg : tls_config) : N shaken :=
  if bool_decide (mode = alpnH3) then handshakeQUIC o target cfg else handshakeTCP o target cfg.

Lemma shake_probing o mode target cfg :
  pinned_already o target -> does (probing o mode target cfg) anything (shake o mode target cfg).
Proof. unfold shake. case_bool_decide; [intros; by apply handshakeQUIC_probing|intros; by apply handshakeTCP_probing]. Qed.

Lemma shake_once o mode target cfg : pinned_already o target -> uses is_handshake 1 (shake o mode target cfg).
Proof. unfold shake. case_bool_decide; [intros; apply handshakeQUIC_once|apply handshakeTCP_once]. Qed.

Lemma shake_tried o mode target cfg : ready o mode target -> caused tried False (shake o mode target cfg) anything.
Proof. unfold shake. case_bool_decide; [by apply handshakeQUIC_tried|by apply handshakeTCP_tried]. Qed.

Lemma shake_shook o mode target cfg w h : pinned_already o target -> wp (shake o mode target cfg) w h shook.
Proof. unfold shake. case_bool_decide; [intros; apply handshakeQUIC_shook|apply handshakeTCP_shook]. Qed.

(** The datagrams of a probe are those of one block. *)
Lemma shake_blocks ok P Burst o mode target cfg :
  pinned_already o target -> P target -> (forall noise, noise_config o = Ok noise -> bursts ok Burst noise) ->
  runs ok (blocks no_datagram P Burst) anything (shake o mode target cfg).
Proof.
  intros Ht HP Hb. unfold shake. case_bool_decide as Hm; [by apply handshakeQUIC_blocks|].
  apply runs_does. unfold handshakeTCP, tls_handshake, certificates, close_conn.
  repeat first [eapply does_mono; [by apply rawDial_dialing|intros [] ?; left; by apply single_one|done] | does_step];
    left; by apply single_one.
Qed.

Lemma shake_settles o mode target cfg k : settles k (shake o mode target cfg) (fun _ => k).
Proof. unfold shake. case_bool_decide; [apply handshakeQUIC_settles|apply handshakeTCP_settles]. Qed.

(** The target that passes the checks: the pinned address, or the host, with the port. *)
Lemma cert_prepare_target unmarshal json opts host mode target :
  cert_prepare unmarshal json = Ok (opts, host, mode, target) ->
  unmarshal json = Ok opts /\ exists port, SplitHostPort (pc_Address opts) = inr (host, port) /\
    target = JoinHostPort (if bool_decide (IP (pc_transport opts) <> []) then IP (pc_transport opts) else host) port.
Proof.
  unfold cert_prepare. destruct (unmarshal json) as [opts'|]; [|done]. case_bool_decide; [done|].
  destruct (SplitHostPort _) as [|[host' port]] eqn:Es; [done|]. case_bool_decide; [done|]. intros Hp.
  destruct (validate _) as [[]|]; [|done]. simpl in Hp. destruct (alpnMode _) as [mode'|]; [|done]. injection Hp as <- <- <- <-.
  split; [done|]. by exists port.
Qed.

Lemma cert_prepare_pinned unmarshal json opts host mode target :
  cert_prepare unmarshal json = Ok (opts, host, mode, target) -> pinned_already (pc_transport opts) target.
Proof.
  intros (_ & port & Hs & ->)%cert_prepare_target. apply target_pinned. by eapply SplitHostPort_port.
Qed.

Lemma ProbeCert_shake (Q : list nev -> CertResult -> Prop) opts host mode target w h :
  let o := pc_transport opts in
  let cfg := certTLSConfig o host mode in
  let t0 := w_now (nw_base w h) (omap base_event h) in
  wp (shake o mode target cfg) w (h ++ [Base (ENow t0)]) (fun t r =>
    forall t1 proto rtt, Q (Base (ENow t0) :: t ++ [Base (ENow t1)]) (cert_report proto rtt r)) ->
  wp (started ← lift_base now;
      r ← shake o mode target cfg;
      t ← lift_base now;
      mret (cert_report (if bool_decide (mode = alpnH3) then "h3" else "tcp")
              (wrapS int_bits (Z.quot (t - started) Millisecond)) r)) w h Q.
Proof.
  intros o cfg t0 Hs. apply wp_bind. unfold wp at 1. simpl. apply wp_bind. eapply wp_mono; [exact Hs|].
  intros t r Hq. apply wp_bind. unfold wp at 1. simpl. apply wp_ret. simpl. apply Hq.
Qed.

(** ** Properties *)


(** C25: What [ProbeCert] reports is what happened in the handshake, finished or not.
    The chain is the first that the peer sent that is not empty, whether or not the
    handshake went on after it, and there is none only if none was sent; its leaf is
    described by the fields. [HandshakeOK] says that there is a chain and the handshake
    completed; without a chain there is an error, and with one that can be parsed there
    is an error exactly when the handshake failed. What was sent is heard for every
    handshake, failed or not. *)
Theorem ProbeCert_evidence unmarshal json w h :
  wp (ProbeCert unmarshal json) w h (fun t x =>
    let chain := first_chain (sent_chains t) in
    heard t /\ cr_ChainLen x = length chain /\ cr_Leaf x = default [] (head chain) /\
    (cr_HandshakeOK x = true <-> chain <> [] /\ Exists completed t) /\ cr_AlpnKnown x = cr_HandshakeOK x /\
    match chain with
    | [] => is_Some (cr_RespError x)
    | leaf :: _ =>
      match ParseCertificate leaf with
      | Ok cert => describes cert x /\ (cr_RespError x = None <-> Exists completed t)
      | Err _ => is_Some (cr_RespError x)
      end
    end).
Proof.
  unfold ProbeCert. destruct (cert_prepare unmarshal json) as [[[[opts host] mode] target]|e] eqn:Ec.
  2:{ apply wp_ret. simpl. split_and!; try done; (by split; [|intros []]) || by eexists. }
  pose proof (cert_prepare_pinned _ _ _ _ _ _ Ec) as Hpin.
  cbv zeta. apply ProbeCert_shake. cbv zeta. set (h' := h ++ _). set (cfg := certTLSConfig _ host mode).
  eapply wp_mono; [by apply shake_shook|]. intros t r Hs t1 proto rtt.
  assert (shook ([Base (ENow (w_now (nw_base w h) (omap base_event h)))] ++ t ++ [Base (ENow t1)]) r) as (Hr & Hc & Hh)
    by (apply shook_around; [by repeat constructor..|exact Hs]).
  cbn [app] in Hr, Hc, Hh. split; [exact Hh|]. rewrite <- Hr. clear Hr Hs.
  pose proof (cert_report_reported proto rtt r) as (-> & E & Ea & Hrep). rewrite Ea, E. split; [done|].
  assert (bool_decide (r.1 <> []) = true <-> r.1 <> []) as Hb by apply bool_decide_eq_true.
  destruct r.1 as [|leaf chain]; simpl in *.
  - destruct Hrep as [He ->]. split_and!; [done| |done|done]. rewrite andb_true_iff. naive_solver.
  - destruct Hrep as [-> Hrep]. split_and!; [done| |done|].
    + rewrite andb_true_iff. naive_solver.
    + destruct (ParseCertificate leaf); [|done]. destruct Hrep as [Hd ->]. split; [done|]. rewrite <- Hc. by destruct r.2.
Qed.

End Cert.
