(* ===== verification/EchReject.v ===== *)
(** * A rejected configuration is forgotten

    Which cache entry a request drops, and when: the key that [roundTripper] wrote into
    the [connState] is still there when the HTTP client returns. *)

From stdpp Require Import gmap.
From S2P Require Import Prelude GoString GoCodec GoNet GoHTTP Xray Options Headers Noise EchConfig Validate Net EchCache Transport Resolver Fetch Sample Quic Traffic Cert EchTraffic.
Open Scope Z_scope.

Section EchReject.
Context `{XrayLib} `{NetURL} `{Unicode} `{IntWidth} `{Cryptobyte} `{DnsLib}.
#[local] Set Default Proof Using "Type*".

(** What the HTTP client returned. *)
Definition client_answer (e : nev) : option (res Response) := match e with EClientReturn r => Some r | _ => None end.
Definition no_answer (e : nev) : Prop := client_answer e = None.

(** A computation on a [connState] that leaves the key. *)
Definition keeps_key {A} (s : connState) (x : connState * A) : Prop := cs_echKey x.1 = cs_echKey s.

(** ** Lemmas: the key *)

Lemma record_key proto ech s : cs_echKey (record proto ech s).1 = cs_echKey s.
Proof. unfold record. by destruct (_ && _). Qed.

Lemma rawDial_quiet o addr frag : does no_answer anything (rawDial o addr frag).
Proof. eapply does_mono; [apply rawDial_not_client|by intros []|done]. Qed.

Ltac quiet := eapply does_then; [by apply does_perform|intros ?].

Lemma recorded_key proto ech s c :
  does no_answer (keeps_key s)
    (match record proto ech s with
     | (s, Some e) => _ ← close_conn c; mret (s, Err e)
     | (s, None) => mret (s, Ok c)
     end).
Proof.
  pose proof (record_key proto ech s) as Hk. destruct (record proto ech s) as [s' [e|]]; [quiet|]; by apply does_ret.
Qed.

Lemma stdTLSDial_key o addr frag host ech alpn s : does no_answer (keeps_key s) (stdTLSDial o addr frag host ech alpn s).
Proof.
  unfold stdTLSDial. eapply does_then; [apply rawDial_quiet|]. intros [raw|e]; [|by apply does_ret].
  quiet. destruct a as [[proto acc]|e]; [apply recorded_key|]. quiet. by apply does_ret.
Qed.

Lemma dialTLS_key o mode frag host ech fp addr s :
  does no_answer (keeps_key s) (dialTLS o mode frag host ech fp addr s).
Proof.
  unfold dialTLS. eapply does_then; [apply rawDial_quiet|]. intros [raw|e]; [|by apply does_ret].
  quiet. destruct (negb a); [quiet; by apply does_ret|]. quiet.
  destruct a0 as [[proto acc]|e]; [|quiet; by apply does_ret].
  destruct (_ && _); [quiet; by apply does_ret|]. apply recorded_key.
Qed.

Lemma h3_dial_key o sock attempts noise ech cfg q addr s :
  does no_answer (keeps_key s) (h3_dial o sock attempts noise ech cfg q addr s).
Proof.
  unfold h3_dial. destruct (pin_addr o addr); [|by apply does_ret].
  eapply does_then; [by apply does_lift, does_perform|]. intros [dst|e]; [|by apply does_ret].
  eapply does_then; [case_match; [by apply send_lifted|by apply does_ret]|]. intros [e|]; [by apply does_ret|].
  eapply does_then; [by apply does_opened|]. intros [c|e]; [|by apply does_ret].
  pose proof (record_key "h3" (bool_decide (ech <> [])) s) as Hk.
  destruct (record _ _ s) as [s' [e|]]; [quiet|]; by apply does_ret.
Qed.

Lemma http_tls_quiet cfg c : does no_answer anything (http_tls cfg c).
Proof. unfold http_tls, tls_handshake, close_conn. repeat does_step. Qed.

Definition keeps_st_key {A} (st : rt_state) (x : rt_state * A) : Prop :=
  cs_echKey (rs_conn x.1) = cs_echKey (rs_conn st).

Lemma rt_dial_key o rt st addr tls : does no_answer (keeps_st_key st) (rt_dial o rt st addr tls).
Proof.
  assert (forall (m : N (res handle)), does no_answer anything m ->
            does no_answer (keeps_st_key st) (r ← m; mret (st, r))) as Hkeep.
  { intros m Hm. eapply does_then; [exact Hm|]. intros r. by apply does_ret. }
  assert (forall frag cfg (b : bool), does no_answer anything
            (c ←? rawDial o addr frag; if b then http_tls cfg c else mret (Ok c))) as Htls.
  { intros frag cfg b. eapply does_then_res; [apply rawDial_quiet|intros c|done].
    destruct b; [apply http_tls_quiet|by apply does_ret]. }
  unfold rt_dial. cbv zeta. destruct rt; try (by apply Hkeep, Htls); destruct tls; try (by apply does_ret).
  - eapply does_bind; [apply stdTLSDial_key|]. intros [s r] Hs. by apply does_ret.
  - unfold handoff_get. destruct (rs_pending st); [by apply does_ret|].
    eapply does_bind; [apply dialTLS_key|]. intros [s r] Hs. by apply does_ret.
  - destruct h2; [by apply does_ret|]. apply Hkeep. by apply does_opened.
  - eapply does_bind; [apply h3_dial_key|]. intros [s r] Hs. by apply does_ret.
Qed.

Lemma omap_none t : Forall no_answer t -> omap client_answer t = [].
Proof. induction 1 as [|e t He _ IH]; [done|]. simpl. by rewrite He. Qed.

(** One answer of the client, and no other. *)
Lemma client_do_answer o rt st req w h :
  wp (client_do o rt st req) w h (fun t x => keeps_st_key st x /\ omap client_answer t = [x.2]).
Proof.
  assert (forall (st' : rt_state) w h, cs_echKey (rs_conn st') = cs_echKey (rs_conn st) ->
    wp (r ← client_return; mret (st', r)) w h (fun t x => keeps_st_key st x /\ omap client_answer t = [x.2])) as Hret.
  { intros st' w' h' Hk. apply wp_bind_perform. intros r _. by apply wp_ret. }
  assert (forall n st' w h, cs_echKey (rs_conn st') = cs_echKey (rs_conn st) ->
    wp (client_loop n o rt st') w h (fun t x => keeps_st_key st x /\ omap client_answer t = [x.2])) as Hl.
  { induction n as [|n IH]; intros st' w' h' Hk; simpl; [by apply Hret|].
    apply wp_bind_perform. intros [[addr tls]|] _; [|eapply wp_mono; [by apply Hret|]; done].
    apply wp_bind. eapply wp_mono; [apply rt_dial_key|]. intros t [st'' r] [Ht Hk']. apply wp_bind_perform. intros ? _.
    eapply wp_mono; [apply IH; etransitivity; [exact Hk'|exact Hk]|]. intros t' x [Hx Ha]. split; [done|].
    transitivity (omap client_answer (t ++ EClientGot r :: t')); [done|]. by rewrite omap_app, omap_none. }
  unfold client_do. apply wp_bind_perform. intros ? _. apply wp_bind. unfold client_patience, wp at 1.
  eapply wp_mono; [by apply Hl|]. done.
Qed.

Lemma transport_with_key o u frag mode l s :
  does no_answer (on_Ok (fun p => cs_echKey (rs_conn p.2) = cs_echKey s)) (transport_with o u frag mode l s).
Proof.
  unfold transport_with, h3RoundTripper. cbv zeta. case_bool_decide.
  - eapply does_then_res; [by apply does_ret|intros attempts|done]. eapply does_then_res; [by apply does_ret|intros noise|done].
    eapply does_then; [apply does_lift; intros w h; by repeat constructor|]. intros [sock|e]; by apply does_ret.
  - case_bool_decide; [case_bool_decide; by apply does_ret|]. destruct (GetFingerprint _); [|by apply does_ret].
    eapply does_bind; [apply dialTLS_key|]. intros [s' [probe|e]] Hs; by apply does_ret.
Qed.

Lemma cleanup_quiet rt st : does no_answer anything (cleanup rt st).
Proof. unfold cleanup, handoff_discard, close_conn, h3_close, quic_transport_close, close_udp. repeat does_step. Qed.

(** What the answer of the client makes of the cache [ca] and of the result. *)
Definition answered_with (key : gostr) (ca : cache) (t : list nev) (x : cache * FetchResult) : Prop :=
  match omap client_answer t with
  | [Err e] =>
    if echRejected e then x = (echInvalidate key ca, fetch_failed (ech_rejected_error e)) else x = (ca, fetch_failed e)
  | _ => x.1 = ca
  end.

Lemma answered_quiet key ca t0 t t1 x :
  Forall no_answer t0 -> Forall no_answer t1 -> answered_with key ca t x -> answered_with key ca (t0 ++ t ++ t1) x.
Proof.
  intros H0' H1' Hx. unfold answered_with in *. by rewrite !omap_app, (omap_none t0), (omap_none t1), app_nil_r by done.
Qed.

Lemma fetch_over_answer opts method rt st ca w h :
  echEnabled (fo_transport opts) = true ->
  wp (fetch_over opts method rt st ca) w h (fun t x => answered_with (cs_echKey (rs_conn st)) ca t (x.1.1, x.2)).
Proof.
  intros He. unfold fetch_over. destruct (NewRequest_error _ _); [by apply wp_ret|].
  apply wp_bind_perform. intros kvs _. apply wp_bind. eapply wp_mono; [apply client_do_answer|].
  intros t [st' r] [Hk Ha]. unfold keeps_st_key in Hk. simpl in Hk, Ha. destruct r as [resp|e].
  - apply wp_bind. apply wp_bind_perform. intros ? _. apply wp_ret, wp_ret. rewrite app_nil_r.
    apply (answered_quiet _ _ [EHeaderOrder kvs] t [EBodyClose]); [by repeat constructor..|].
    unfold answered_with. by rewrite Ha.
  - rewrite He. simpl. destruct (echRejected e) eqn:Er; apply wp_ret;
      (apply (answered_quiet _ _ [EHeaderOrder kvs] t []); [by repeat constructor..|]);
      unfold answered_with; rewrite Ha, Er; [by rewrite Hk|done].
Qed.

Lemma FetchWeb_answer unmarshal json opts u ca w h t1 ca1 l key :
  fetch_prepare unmarshal json = Ok (opts, u) -> u_Scheme u <> ("http" : gostr) ->
  echEnabled (fo_transport opts) = true ->
  echConfigList 1 (fo_transport opts) (url_Hostname u) ca w h = (t1, (ca1, Ok (l, key))) ->
  wp (FetchWeb unmarshal json ca) w h (fun t x =>
    (t = [] /\ x.1 = ca) \/ exists t2, t = t1 ++ t2 /\ answered_with key ca1 t2 x).
Proof.
  intros Hp Hs He Ha. unfold FetchWeb. rewrite Hp. unfold fetch_with, roundTripper.
  destruct (fragmentConfig _) as [frag|e]; [|apply wp_bind, wp_ret; by left].
  destruct (alpnMode _) as [mode|e] eqn:Em; [|apply wp_bind, wp_ret; by left].
  rewrite bool_decide_false by done. apply wp_bind, wp_bind. unfold wp at 1. rewrite Ha.
  apply wp_bind. eapply wp_mono; [apply transport_with_key|]. intros t2 [[rt st]|e] [Ht2 Hk]; apply wp_ret.
  - simpl in Hk. apply wp_bind. eapply wp_mono; [by apply fetch_over_answer|]. intros t3 [[ca2 st'] x] Hx.
    apply wp_bind. eapply wp_mono; [apply cleanup_quiet|]. intros t4 ? [Ht4 _]. apply wp_ret. right.
    exists (t2 ++ t3 ++ t4). rewrite !app_nil_r, <- !(assoc_L (++)). split; [done|]. apply answered_quiet; [done|done|].
    by rewrite Hk in Hx.
  - apply wp_ret. right. exists t2. rewrite !app_nil_r. split; [done|]. unfold answered_with. by rewrite omap_none.
Qed.

(** ** Lemmas: the connection of [roundTripper] *)

(** A uTLS handshake that failed. *)
Definition refusal (e : nev) : option error :=
  match e with EHandshake _ (Some _) _ (Err e) => Some e | _ => None end.
Definition refused_with {A} (t : list nev) (x : res A) : Prop := forall e, e ∈ omap refusal t -> x = Err e.

Lemma unrefused t : Forall (fun e => refusal e = None) t -> omap refusal t = [].
Proof. induction 1 as [|e t He _ IH]; [done|]. simpl. by rewrite He. Qed.

Lemma refused_skip {A} t0 t (x : res A) : Forall (fun e => refusal e = None) t0 -> refused_with t x -> refused_with (t0 ++ t) x.
Proof. intros H0' Hx e. rewrite omap_app, unrefused by done. apply Hx. Qed.

Lemma wp_unrefused {A B} (f : A -> res B) (m : N A) w h :
  does (fun e => refusal e = None) anything m -> wp m w h (fun t a => refused_with t (f a)).
Proof. intros Hm. eapply wp_mono; [apply Hm|]. intros t a [Ht _] e. rewrite unrefused by done. by intros ?%elem_of_nil. Qed.

Lemma dialTLS_refused o mode frag host ech fp addr s w h :
  wp (dialTLS o mode frag host ech fp addr s) w h (fun t x => refused_with t x.2).
Proof.
  unfold dialTLS, tls_handshake, new_uclient. apply wp_bind. eapply wp_mono; [apply rawDial_unshaken|].
  intros t raw [Ht _]. assert (Forall (fun e => refusal e = None) t) as Ht'
    by (eapply Forall_impl; [exact Ht|by intros []]).
  apply (wp_mono _ _ _ (fun t' x => refused_with t' x.2)); [|intros; by apply refused_skip].
  destruct raw as [raw|e]; [|by apply wp_ret; intros e' ?%elem_of_nil].
  apply wp_bind_perform. intros ok _. apply (wp_mono _ _ _ (fun t' x => refused_with t' x.2)); [|intros t' x Hx; exact Hx].
  destruct (negb ok); [by apply (wp_unrefused snd); unfold close_conn; repeat does_step|].
  apply wp_bind_perform. intros [[proto acc]|e] _.
  - apply (wp_mono _ _ _ (fun t' x => refused_with t' x.2)); [|intros t' x Hx; exact Hx].
    apply (wp_unrefused snd). unfold close_conn. repeat does_step; done.
  - apply wp_bind_perform. intros ? _. apply wp_ret. by intros e' ->%list_elem_of_singleton.
Qed.

Lemma transport_with_refused o u frag mode l s w h :
  wp (transport_with o u frag mode l s) w h (fun t x => refused_with t x).
Proof.
  unfold transport_with. cbv zeta. case_bool_decide.
  - apply (wp_unrefused id). unfold h3RoundTripper. eapply does_then_res; [by apply does_ret|intros attempts|done].
    eapply does_then_res; [by apply does_ret|intros noise|done].
    eapply does_then; [apply does_lift; intros ? ?; by repeat constructor|]. intros [sock|e]; by apply does_ret.
  - case_bool_decide; [apply (wp_unrefused id); case_bool_decide; by apply does_ret|].
    destruct (GetFingerprint _); [|by apply wp_ret; intros e ?%elem_of_nil].
    apply wp_bind. eapply wp_mono; [apply dialTLS_refused|]. intros t [s' [probe|e]] Ht; apply wp_ret; rewrite app_nil_r.
    + intros e He. by apply Ht in He.
    + intros e' He. apply Ht in He. simpl in He. by injection He as ->.
Qed.

(** Unless the request itself is invalid, the client is started. *)
Lemma fetch_over_client opts method rt st ca w h :
  wp (fetch_over opts method rt st ca) w h (fun t x => Forall not_client t -> t = []).
Proof.
  unfold fetch_over. destruct (NewRequest_error _ _); [by apply wp_ret|].
  apply wp_bind_perform. intros kvs _. unfold client_do. apply wp_bind, wp_bind_perform. intros ? _.
  apply wp_True. intros t [st' r]. apply wp_True. intros t' x Hf.
  apply Forall_cons in Hf as [_ [[] _]%Forall_cons].
Qed.

(** A uTLS handshake that fails before the client is started fails the request. *)
Lemma first_refusal_kept unmarshal json opts u ca w h t1 ca1 l key :
  fetch_prepare unmarshal json = Ok (opts, u) -> u_Scheme u <> ("http" : gostr) ->
  echConfigList 1 (fo_transport opts) (url_Hostname u) ca w h = (t1, (ca1, Ok (l, key))) ->
  wp (FetchWeb unmarshal json ca) w h (fun t x => forall t2 e,
    t = t1 ++ t2 -> Forall not_client t2 -> e ∈ omap refusal t2 -> x = (ca1, fetch_failed e)).
Proof.
  intros Hp Hs Ha. unfold FetchWeb. rewrite Hp. unfold fetch_with, roundTripper.
  assert (forall t2 e, [] = t1 ++ t2 -> e ∉ omap refusal t2) as Hnone
    by (intros t2 e [-> ->]%symmetry%app_eq_nil; apply not_elem_of_nil).
  destruct (fragmentConfig _) as [frag|e]; [|apply wp_bind, wp_ret, wp_ret; intros t2 e' E _ He; by apply Hnone in He].
  destruct (alpnMode _) as [mode|e]; [|apply wp_bind, wp_ret, wp_ret; intros t2 e' E _ He; by apply Hnone in He].
  rewrite bool_decide_false by done. apply wp_bind, wp_bind. unfold wp at 1. rewrite Ha.
  apply wp_bind. eapply wp_mono; [apply transport_with_refused|]. intros t2 [[rt st]|e] Ht2; apply wp_ret.
  - apply wp_bind. eapply wp_mono; [apply fetch_over_client|]. intros t3 [[ca2 st'] x] Hc.
    apply wp_bind. eapply wp_mono;
      [apply (does_trace (fun e => refusal e = None)); unfold cleanup, handoff_discard, close_conn, h3_close, quic_transport_close, close_udp; repeat does_step; done|].
    intros t4 ? Ht4. apply wp_ret. intros t5 e E Hf He. rewrite !app_nil_r, <- !(assoc_L (++)) in E.
    apply (app_inv_head t1) in E as <-. rewrite !Forall_app in Hf. destruct Hf as (_ & Hf & _).
    rewrite (Hc Hf) in He. simpl in He. rewrite omap_app, (unrefused t4), app_nil_r in He by done. by apply Ht2 in He.
  - apply wp_ret. intros t3 e' E _ He. rewrite !app_nil_r in E. apply (app_inv_head t1) in E as <-.
    apply Ht2 in He. by injection He as ->.
Qed.

(** ** Properties *)

(** C19: A configuration that the server refused is forgotten: after a list was
    acquired under a key, [FetchWeb] drops that entry of the cache, and no other,
    exactly when the HTTP client returned an error that means rejection, and says so;
    otherwise the cache stays as the acquisition left it. That includes a refusal of
    the first connection of a fingerprint, which [roundTripper] makes before the client
    is started: whatever its error means, the entry is kept. *)
Theorem rejection_forgets unmarshal json opts u ca w h t1 ca1 l key :
  fetch_prepare unmarshal json = Ok (opts, u) -> u_Scheme u <> ("http" : gostr) ->
  echEnabled (fo_transport opts) = true ->
  echConfigList 1 (fo_transport opts) (url_Hostname u) ca w h = (t1, (ca1, Ok (l, key))) ->
  wp (FetchWeb unmarshal json ca) w h (fun t x =>
    (t = [] /\ x.1 = ca) \/ exists t2, t = t1 ++ t2 /\ answered_with key ca1 t2 x /\
      (Forall not_client t2 -> forall e, e ∈ omap refusal t2 -> x = (ca1, fetch_failed e))).
Proof.
  intros Hp Hs He Ha. eapply wp_mono;
    [apply wp_both; [by eapply FetchWeb_answer|by eapply first_refusal_kept]|].
  intros t x [[?|(t2 & -> & Hx)] Hk]; [by left|right]. exists t2. split_and!; [done..|]. intros Hf e. by apply Hk.
Qed.

End EchReject.

(** ** Witnesses *)

#[local] Existing Instance sample_lib.
#[local] Existing Instance sample_url.
#[local] Existing Instance sample_dns.
#[local] Existing Instance ascii_unicode.
#[local] Existing Instance arm64_int.

(** The server answers every ECH offer with a rejection that carries [sample_list], and
    the client reports that. *)
Definition rejecting : NetWorld :=
  with_handshake (fun _ _ fp _ => Err (ECHRejectionError (if fp then UTLS else GoTLS) sample_list))
    (with_return (fun _ => Err (ECHRejectionError GoTLS sample_list)) (scripted "h2" [("example.com:443" : gostr, true)])).

Lemma rejection_forgets_witness :
  let o := with_ "" "" "" probed in
  let unmarshal := fetch_of o "https://example.com/" in
  let opts := {| fo_transport := o; fo_URL := "https://example.com/"; fo_Method := ""; fo_Data := "" |} in
  let u := {| u_Scheme := "https"; u_User := None; u_Host := "example.com" |} in
  let run := echConfigList 1 (fo_transport opts) (url_Hostname u) ∅ rejecting [] in
  let key := "probe|cloudflare-ech.com|cloudflare-ech.com:443|" : gostr in
  bool_decide (is_Some (run.2.1 !! key)) = true /\
  bool_decide (is_Some ((FetchWeb unmarshal "" ∅ rejecting []).2.1 !! key)) = false /\
  bool_decide (is_Some ((FetchWeb (fetch_of (with_ "" "" "chrome" probed) "https://example.com/") "" ∅ rejecting []).2.1 !! key)) = true /\
  wp (FetchWeb unmarshal "" ∅) rejecting [] (fun t x =>
    (t = [] /\ x.1 = ∅) \/ exists t2, t = run.1 ++ t2 /\ answered_with key run.2.1 t2 x /\
      (Forall not_client t2 -> forall e, e ∈ omap refusal t2 -> x = (run.2.1, fetch_failed e))).
Proof.
  intros o unmarshal opts u run key. split; [vm_compute; reflexivity|]. split; [vm_compute; reflexivity|].
  split; [vm_compute; reflexivity|].
  assert (fetch_prepare unmarshal "" = Ok (opts, u)) as Hp by reflexivity.
  assert (run.2.2 = Ok (sample_list, key)) as Hr by (vm_compute; reflexivity).
  assert (run = (run.1, (run.2.1, Ok (sample_list, key)))) as Ha by (rewrite <- Hr; by destruct run as [? []]).
  exact (rejection_forgets unmarshal "" opts u ∅ rejecting [] _ _ _ _ Hp ltac:(done) eq_refl Ha).
Defined.
