(* ===== verification/Priming.v ===== *)
(** * Noise before QUIC

    The burst of [wnoise] against the first packet of a QUIC handshake, in whole runs of
    the three entry points that dial QUIC: [FetchWeb], [ResolveDoH] and [ProbeCert]. *)

From stdpp Require Import gmap.
From S2P Require Import Prelude GoString GoCodec GoNet GoHTTP Xray Options Noise EchConfig Validate Net EchCache Transport Quic Resolver Fetch Sample Traffic Ownership Cert.
Open Scope Z_scope.

(** The whole burst that a plan asks for, or nothing without a plan. *)
Definition whole_burst (noise : option noiseConfig) (sock : handle) (dst : udp_addr) (t : list event) : Prop :=
  match noise with Some n => sends n sock dst t None | None => t = [] end.

Section Priming.
Context `{XrayLib} `{NetURL} `{Unicode} `{IntWidth} `{Cryptobyte} `{DnsLib} `{X509}.
#[local] Set Default Proof Using "Type*".

(** Right before every QUIC dial in [t] is the whole burst, from its socket to its
    address; and between a dial and the next datagram of the library's own, the address
    of that datagram is resolved: it belongs to another dial. *)
Record primed (noise : option noiseConfig) (t : list nev) : Prop := {
  primed_before : forall t1 sock dst cfg q attempts r t2,
    t = t1 ++ EQUICDial sock dst cfg q attempts r :: t2 ->
    exists t0 tb, t1 = t0 ++ map Base tb /\ whole_burst noise sock dst tb;
  primed_after : forall t1 sock dst cfg q attempts r t2 c p dst' r' t3,
    t = t1 ++ EQUICDial sock dst cfg q attempts r :: t2 ++ Base (EWriteUDP c p dst' r') :: t3 ->
    exists target, Base (EResolveUDP target (Ok dst')) ∈ t2
}.

(** ** Lemmas *)

Lemma bursts_whole o noise : noise_config o = Ok noise -> bursts net_ok (whole_burst noise) noise.
Proof.
  intros Hn sock dst w h Hw. destruct noise as [n|]; [|done].
  apply noise_config_wf_lem in Hn as [Hwf _]. eapply wp_mono; [apply send_trace_lem; [by apply base_ok|done]|].
  intros t r Hs ->. exact Hs.
Qed.

Definition anyone (target : gostr) : Prop := True.
Abbreviation primed_blocks noise := (blocks no_datagram anyone (whole_burst noise)).

Lemma blocks_primed noise t : made_of (primed_blocks noise) t -> primed noise t.
Proof.
  intros Ht. split.
  - intros t1 sock dst cfg q attempts r t2. by apply (blocks_burst no_datagram anyone (whole_burst noise) t).
  - intros t1 sock dst cfg q attempts r t2 c p dst' r' t3 E.
    change (t1 ++ ?x :: t2 ++ ?y) with (t1 ++ [x] ++ t2 ++ y) in E. rewrite !(assoc_L (++)) in E.
    destruct (blocks_datagram _ _ _ _ _ _ _ dst' (fun e He => He) Ht E eq_refl) as (target & t0 & rest & _ & Es & Hb).
    exists target. rewrite <- (assoc_L (++)) in Es. apply app_eq_inv in Es as [(k & -> & Ek)|(k & -> & Ek)].
    + destruct k as [|x k]; [done|]. injection Ek as <- ->. apply Forall_app in Hb as [_ Hb]. apply Forall_cons in Hb as [[] _].
      done.
    + destruct k as [|x k]; [done|]. injection Ek as <- ->. set_solver.
Qed.

Lemma no_datagram_neutral e : is_neutral e -> no_datagram e.
Proof. intros He. destruct e; try done. by destruct e. Qed.

Lemma accepts_primed noise o : accepts (fun e => primed_blocks noise [e]) o (fun _ => True).
Proof.
  split; try done; intros; left; apply single_one; try done. by apply no_datagram_neutral.
Qed.

Lemma routes_primed noise o : noise_config o = Ok noise -> routes net_ok (primed_blocks noise) o (fun _ => True).
Proof.
  intros Hn. apply routes_any; [apply accepts_primed| |intros _ a r; left; by apply single_one].
  intros _ l. split; [intros r; left; by apply single_one|]. intros sock attempts noise' cfg q addr s Hn' _.
  rewrite Hn in Hn'. injection Hn' as <-.
  apply h3_dial_blocks; [apply no_datagram_neutral|done|by eapply bursts_whole].
Qed.

(** ** Properties *)

(** C20: No QUIC packet leaves before the noise, and no noise after: in every run of
    [FetchWeb] and [ResolveDoH], look-ups of ECH keys and redirects included, and of
    [ProbeCert], each QUIC dial comes right after the whole burst that the options ask
    for, from the same socket to the same address; and when the library sends a datagram
    of its own after a dial, its address has been resolved since, for another dial. *)
Theorem noise_before_quic o noise ca w h :
  net_ok w -> noise_config o = Ok noise ->
  (forall unmarshal json, (forall opts, unmarshal json = Ok opts -> fo_transport opts = o) ->
     wp (FetchWeb unmarshal json ca) w h (fun t _ => primed noise t)) /\
  (forall unmarshal json, (forall opts, unmarshal json = Ok opts -> doh_transport opts = o) ->
     wp (ResolveDoH unmarshal json ca) w h (fun t _ => primed noise t)) /\
  (forall unmarshal json, (forall opts, unmarshal json = Ok opts -> pc_transport opts = o) ->
     wp (ProbeCert unmarshal json) w h (fun t _ => primed noise t)).
Proof.
  intros Hw Hn. assert (noise_config (lookupOpts o) = Ok noise) as Hl by exact Hn.
  destruct (requests_run net_ok (primed_blocks noise) o _ ca w h Hw (fun _ => routes_primed noise o Hn)) as [Hf Hd].
  { intros _ depth host ca'. apply (echConfigList_runs _ _ _ (fun _ => True)); [apply accepts_primed|by apply routes_primed]. }
  split_and!; [intros unmarshal json Eo; eapply wp_mono; [by (apply Hf || apply Hd)|]; intros t x; apply blocks_primed..|].
  intros unmarshal json Eo. unfold ProbeCert.
  destruct (cert_prepare unmarshal json) as [[[[opts host] mode] target]|e] eqn:Ec; [|apply wp_ret, blocks_primed; constructor].
  pose proof (cert_prepare_pinned _ _ _ _ _ _ Ec) as Hpin. apply cert_prepare_target in Ec as [Ec _].
  rewrite (Eo opts Ec) in *. cbv zeta. rewrite <- (Eo opts Ec). apply ProbeCert_shake. cbv zeta. rewrite (Eo opts Ec).
  eapply wp_mono; [apply (shake_blocks net_ok anyone (whole_burst noise)); [done|done| |done]|].
  - intros noise' Hn'. rewrite Hn in Hn'. injection Hn' as <-. by eapply bursts_whole.
  - intros t r [Ht _] t1 proto rtt. apply blocks_primed.
    apply (made_cons _ [_]); [left; by apply single_one|]. apply made_of_app; [exact Ht|].
    apply made_of_one. left. by apply single_one.
Qed.

End Priming.

(** ** Witnesses *)

#[local] Existing Instance sample_lib.
#[local] Existing Instance sample_url.
#[local] Existing Instance sample_dns.
#[local] Existing Instance ascii_unicode.
#[local] Existing Instance arm64_int.

Lemma scripted_ok alpn script : net_ok (scripted alpn script).
Proof. split; simpl; [intros; apply world_answering_ok|done|lia]. Qed.

(** What [with_h3] asks for: three to eight datagrams before each dial. *)
Definition sample_plan : noiseConfig :=
  match noise_config (with_h3 "") with Ok (Some n) => n | _ => sample_noise noiseQUIC end.

Definition sends_datagram (e : nev) : bool := match e with Base (EWriteUDP _ _ _ _) => true | _ => false end.

Definition sample_x509 : X509 := {|
  ParseCertificate := fun _ => Err (OtherError "x509: malformed certificate");
  MarshalPublicKey := fun _ => Err (OtherError "x509: unsupported public key type");
  Sum256 := fun b => b
|}.
#[local] Existing Instance sample_x509.

Lemma noise_before_quic_witness :
  let o := with_h3 "" in
  let unmarshal := fetch_of o "https://example.com/" in
  let w := scripted "h3" [("example.com:443" : gostr, true); ("example.org:443" : gostr, true)] in
  noise_config o = Ok (Some sample_plan) /\ net_ok w /\
  length (List.filter dials_quic (FetchWeb unmarshal "" ∅ w []).1) = 2%nat /\
  (6 <=? length (List.filter sends_datagram (FetchWeb unmarshal "" ∅ w []).1))%nat = true /\
  wp (FetchWeb unmarshal "" ∅) w [] (fun t _ => primed (Some sample_plan) t).
Proof.
  intros o unmarshal w.
  pose proof (scripted_ok "h3" [("example.com:443" : gostr, true); ("example.org:443" : gostr, true)]) as Hw.
  assert (noise_config o = Ok (Some sample_plan)) as Hn by (vm_compute; reflexivity).
  split; [exact Hn|]. split; [exact Hw|]. split; [vm_compute; reflexivity|]. split; [vm_compute; reflexivity|].
  apply (proj1 (noise_before_quic o (Some sample_plan) ∅ w [] Hw Hn)). by intros opts [= <-].
Defined.
