(* ===== verification/Queries.v ===== *)
(** * What is asked of servers

    The requests that [FetchWeb] and [ResolveDoH] hand to the HTTP client: the page,
    and DNS queries. [RandBetween] keeps to its bounds here, so these are statements
    about environments that do what their documentation says. *)

From stdpp Require Import gmap.
From S2P Require Import Prelude GoString GoCodec GoNet GoHTTP Xray Options Headers Noise EchConfig Validate Net EchCache Transport Resolver Fetch Sample Quic Traffic Priming.
Open Scope Z_scope.

Section Queries.
Context `{XrayLib} `{NetURL} `{Unicode} `{IntWidth} `{Cryptobyte} `{DnsLib}.
#[local] Set Default Proof Using "Type*".

(** A message without id, with EDNS0 and [n] bytes of padding. *)
Definition padded_by (n : Z) (msg : dns_Msg) : dns_Msg :=
  let msg := SetEdns0 4096 false (clear_Id msg) in
  if IsEdns0 msg then append_padding (replicate (Z.to_nat n) x00) msg else msg.

(** [req] asks [server] for [msg]: a POST of the message, padded by 100 to 300 bytes,
    with the headers of a resolver's client and those of [o]. *)
Definition queries (o : transportOptions) (server : gostr) (msg : dns_Msg) (req : Request) : Prop :=
  req_Method req = ("POST" : gostr) /\ req_URL req = server /\
  (exists n, 100 <= n <= 300 /\ Pack (padded_by n msg) = Ok (req_Body req)) /\
  exists kvs, kvs ≡ₚ map_to_list (Headers o) /\ req_Header req = applyDoHHeaders kvs o ∅.

(** The query of the ECH look-up of a request to [host]: for the HTTPS records of the
    configured name or of [host], to the configured resolver. *)
Definition ech_query (o : transportOptions) (host : gostr) (req : Request) : Prop :=
  exists e, Ech o = Some e /\ ech_ConfigList e = [] /\ ech_Probe e = [] /\
    queries (lookupOpts o) (ech_DoH e)
      (SetQuestion (Fqdn (if bool_decide (ech_Domain e = []) then host else ech_Domain e)) TypeHTTPS) req.

(** The record type of a call of [ResolveDoH]. *)
Definition record_type (opts : dohOptions) : gostr :=
  if bool_decide (ToUpper (doh_Type opts) = []) then "A" else ToUpper (doh_Type opts).

(** ** Lemmas *)

Lemma padded_padded msg : does_when net_ok (asks (fun _ => False)) (fun m => exists n, 100 <= n <= 300 /\ m = padded_by n msg) (padded msg).
Proof.
  intros w h Hw. unfold padded, padded_by. cbv zeta. destruct (IsEdns0 _) eqn:Ee.
  - apply wp_bind_perform. intros n ->. apply wp_ret. split; [by repeat constructor|]. eexists.
    split; [|reflexivity]. apply (rand_between_ok w Hw). lia.
  - apply wp_ret. split; [constructor|]. exists 100. split; [lia|done].
Qed.

Lemma asks_mono (Q Q' : Request -> Prop) e : asks Q e -> (forall req, Q req -> Q' req) -> asks Q' e.
Proof. destruct e; simpl; auto. Qed.

Lemma not_client_asks Q e : not_client e -> asks Q e.
Proof. by destruct e. Qed.

Lemma does_asks {A} (Q : Request -> Prop) (R : A -> Prop) (m : N A) : does not_client R m -> does (asks Q) R m.
Proof. intros Hm. eapply does_mono; [exact Hm|apply not_client_asks|done]. Qed.

Lemma asks_when_mono {A} (Q Q' : Request -> Prop) (R : A -> Prop) (m : N A) :
  does_when net_ok (asks Q) R m -> (forall req, Q req -> Q' req) -> does_when net_ok (asks Q') R m.
Proof.
  intros Hm Hq w h Hw. eapply wp_mono; [by apply Hm|]. intros t a [Ht Ha]. split; [|done].
  eapply Forall_impl; [exact Ht|]. intros e He. by eapply asks_mono.
Qed.

Lemma asks_said {A} (Q : Request -> Prop) (m : N A) w h :
  net_ok w -> does_when net_ok (asks Q) anything m ->
  wp m w h (fun t _ => forall req, EClientDo req ∈ t -> Q req).
Proof.
  intros Hw Hm. eapply wp_mono; [by apply Hm|]. intros t a [Ht _] req Hr. rewrite Forall_forall in Ht.
  by apply Ht in Hr.
Qed.

(** The transport asks for nothing by itself. *)
Lemma roundTripper_asks (Q : Request -> Prop) acquire o u s ca :
  (forall ca, does_when net_ok (asks Q) anything (acquire (url_Hostname u) ca)) ->
  does_when net_ok (asks Q) anything (roundTripper acquire o u s ca).
Proof.
  intros Ha. unfold roundTripper. destruct (fragmentConfig o) as [frag|e]; [|by apply does_when_ret].
  destruct (alpnMode o) as [mode|e]; [|by apply does_when_ret]. case_bool_decide; [by apply does_when_ret|].
  eapply does_when_last; [apply Ha|]. intros [ca' [[l key]|e]]; [|by apply does_ret].
  eapply does_then; [apply does_asks, transport_not_client|]. intros r. by apply does_ret.
Qed.

Lemma range_map_when (Q : Request -> Prop) m :
  does_when net_ok (asks Q) (fun kvs => kvs ≡ₚ map_to_list m) (range_map m).
Proof. intros w h Hw. apply wp_perform. split; [by repeat constructor|]. apply (range_ok w Hw). Qed.

Lemma exchange_over_asks o server msg wire rt st ca :
  (exists n, 100 <= n <= 300 /\ Pack (padded_by n msg) = Ok wire) ->
  does_when net_ok (asks (queries o server msg)) anything (exchange_over o server wire rt st ca).
Proof.
  intros Hp. unfold exchange_over. destruct (NewRequest_error _ _); [by apply does_when_ret|].
  eapply does_when_bind; [apply range_map_when|]. intros kvs Hk.
  eapply does_when_then; [apply client_do_asks|].
  - split_and!; try done. by exists kvs.
  - intros [st' [resp|e]]; [|by apply does_when_ret]. apply does_when_does. unfold read_reply, body_close.
    repeat does_step; done.
Qed.

Lemma dnsExchange_asks (Q : Request -> Prop) acquire o server msg ca :
  (forall su ca, url_Parse server = Ok su -> does_when net_ok (asks Q) anything (acquire (url_Hostname su) ca)) ->
  (forall req, queries o server msg req -> Q req) ->
  does_when net_ok (asks Q) anything (dnsExchange acquire o server msg ca).
Proof.
  intros Ha Hq. unfold dnsExchange. destruct (url_Parse server) as [su|e] eqn:Eu; [|by apply does_when_ret].
  case_match; [by apply does_when_ret|].
  eapply does_when_bind; [eapply asks_when_mono; [apply padded_padded|done]|].
  intros m (n & Hn & ->). destruct (Pack _) as [wire|e] eqn:Ep; [|by apply does_when_ret].
  eapply (does_when_bind _ _ anything); [apply roundTripper_asks; by auto|].
  intros [ca' [[rt st]|e]] _; [|by apply does_when_ret].
  eapply does_when_last.
  - eapply asks_when_mono; [eapply exchange_over_asks; eauto|done].
  - intros [[ca2 st2] x]. eapply does_then; [apply does_asks, cleanup_not_client|]. intros ?. by apply does_ret.
Qed.

(** The look-up and the probe run without ECH. *)
Lemma lookup_asks (Q : Request -> Prop) depth o host ca :
  does_when net_ok (asks Q) anything (echConfigList depth (lookupOpts o) host ca).
Proof. destruct depth; simpl; by apply does_when_ret. Qed.

Lemma echProbe_not_client o name target : does not_client anything (echProbe o name target).
Proof.
  unfold echProbe, ctx_deadline, set_deadline, close_conn, tls_handshake, bogusECHConfigList.
  eapply does_then_res; [|intros l|done].
  { apply does_lift. unfold bogusECHConfigList, rand_read. repeat does_step; done. }
  repeat first [apply rawDial_not_client | does_step]; done.
Qed.

Lemma echAcquire_run_asks (Q : Request -> Prop) ca key fetch :
  (forall ca, does_when net_ok (asks Q) anything (fetch ca)) ->
  does_when net_ok (asks Q) anything (echAcquire_run ca key fetch).
Proof.
  intros Hf. unfold echAcquire_run, now. eapply does_when_then; [by apply does_lift, does_perform|]. intros t1.
  destruct (echCacheLoad ca key t1); [by apply does_when_ret|].
  eapply does_when_then; [by apply does_lift, does_perform|]. intros t2.
  destruct (echCacheLoad ca key t2); [by apply does_when_ret|].
  eapply does_when_last; [apply Hf|]. intros [ca' r].
  eapply does_then; [by apply does_lift, does_perform|]. intros t3. destruct (echStored r t3). by apply does_ret.
Qed.

Lemma echConfigList_asks depth o host ca :
  does_when net_ok (asks (ech_query o host)) anything (echConfigList depth o host ca).
Proof.
  assert (forall ca, does_when net_ok (asks (ech_query o host)) anything
    (echConfigList depth o host ca)) as Hall; [|apply Hall].
  clear ca. intros ca. destruct depth as [|depth]; cbn [echConfigList].
  all: destruct (negb (echEnabled o)); [by apply does_when_ret|].
  all: destruct (Ech o) as [e|] eqn:Ee; [|by apply does_when_ret].
  all: case_bool_decide as Hc; [by apply does_when_ret|].
  all: case_bool_decide as Hp;
    [destruct (parseECHProbe _) as [[name target]|err]; [|by apply does_when_ret]|].
  all: cbv zeta; eapply does_when_last; [|intros [ca' r]; by apply does_ret]; apply echAcquire_run_asks; intros ca2.
  1, 3: apply does_when_does; eapply does_then; [apply does_asks, echProbe_not_client|intros r; by apply does_ret].
  - unfold fetch_doh. eapply does_when_then; [by apply does_ret|]. intros [ca' x]. by apply does_when_ret.
  - unfold fetch_doh. eapply does_when_last; [|intros [ca' x]; by apply does_ret].
    apply dnsExchange_asks; [intros; apply lookup_asks|]. intros req Hq. exists e. done.
Qed.

(** ** Properties *)

(** C14: [ResolveDoH] asks for nothing but DNS: each request of the HTTP client is a POST
    of the query for the name and type of the call to its server, or of the HTTPS
    query of the ECH look-up to the resolver configured for it. No message has an id,
    each is padded by 100 to 300 zero bytes, and the headers are those of a resolver's
    client. *)
Theorem ResolveDoH_queries unmarshal json opts ca w h :
  net_ok w -> unmarshal json = Ok opts ->
  wp (ResolveDoH unmarshal json ca) w h (fun t _ => forall req, EClientDo req ∈ t ->
    (exists qtype, StringToType (record_type opts) = Some qtype /\
       queries (doh_transport opts) (doh_Server opts) (SetQuestion (Fqdn (doh_Domain opts)) qtype) req) \/
    exists su, url_Parse (doh_Server opts) = Ok su /\ ech_query (doh_transport opts) (url_Hostname su) req).
Proof.
  intros Hw Hu. unfold ResolveDoH. rewrite Hu.
  case_bool_decide; [by apply wp_ret; intros ? ?%elem_of_nil|].
  case_bool_decide; [by apply wp_ret; intros ? ?%elem_of_nil|].
  destruct (validate _); [|by apply wp_ret; intros ? ?%elem_of_nil]. cbv zeta. fold (record_type opts).
  destruct (StringToType (record_type opts)) as [qtype|] eqn:Eq; [|by apply wp_ret; intros ? ?%elem_of_nil].
  rewrite <- Eq. apply (asks_said _ _ _ _ Hw).
  eapply does_when_last; [apply dnsExchange_asks|intros [ca' x]; by apply does_ret].
  - intros su ca' Hs. eapply asks_when_mono; [apply echConfigList_asks|]. intros req Hq. right. by exists su.
  - intros req Hq. left. by exists qtype.
Qed.

(** The method of a call of [FetchWeb]: the caller's in upper case, or POST when there is
    data to send and GET when there is none. *)
Definition method_for (opts : fetchOptions) (m : gostr) : Prop :=
  (ToUpper (fo_Method opts) <> [] -> m = ToUpper (fo_Method opts)) /\
  (ToUpper (fo_Method opts) = [] -> fo_Data opts <> [] -> m = ("POST" : gostr)) /\
  (ToUpper (fo_Method opts) = [] -> fo_Data opts = [] -> m = ("GET" : gostr)).

(** What the configured browser, or Chrome, sends: for a navigation when the method is
    GET and for a script's request otherwise, unless the caller names the variant. *)
Definition browser_profile (o : transportOptions) (m : gostr) : Header :=
  let browser := if bool_decide (Browser o = []) then "chrome" : gostr else Browser o in
  let variant := if bool_decide (m = ("GET" : gostr)) then "nav" : gostr else "fetch" in
  TryDefaultHeadersWith (header_Set ∅ "User-Agent" browser)
    (if bool_decide (Variant o = []) then variant else Variant o).

(** Data without a type is sent as JSON, and no other header is touched for it. *)
Definition typed_data (data : gostr) (h0 h : Header) : Prop :=
  (data = [] \/ header_Get h0 "Content-Type" <> [] -> h = h0) /\
  (data <> [] -> header_Get h0 "Content-Type" = [] ->
     h !! ("Content-Type" : gostr) = Some ["application/json" : gostr] /\
     forall k, k <> ("Content-Type" : gostr) -> h !! k = h0 !! k).

(** The page of a call of [FetchWeb]: its method, address and data, with the headers of
    the browser, the caller's [userAgent] over them and the caller's own over both. *)
Definition page (opts : fetchOptions) (req : Request) : Prop :=
  method_for opts (req_Method req) /\ req_URL req = fo_URL opts /\ req_Body req = fo_Data opts /\
  exists h0, layered (fo_transport opts) (browser_profile (fo_transport opts) (req_Method req))
      (UserAgent (fo_transport opts)) h0 /\
    typed_data (fo_Data opts) h0 (req_Header req).

Lemma request_method_for opts : method_for opts (request_method opts).
Proof. unfold method_for, request_method. split_and!; intros; repeat case_bool_decide; done. Qed.

Lemma applyHeaders_layered kvs o m :
  kvs ≡ₚ map_to_list (Headers o) ->
  layered o (browser_profile o m) (UserAgent o)
    (applyHeaders kvs o ∅ (if bool_decide (m <> ("GET" : gostr)) then "fetch" else "nav")).
Proof.
  intros Hk. eapply set_all_layered; [exact Hk|]. unfold applyHeaders, browser_profile.
  replace (if bool_decide (m <> ("GET" : gostr)) then "fetch" : gostr else "nav")
    with (if bool_decide (m = ("GET" : gostr)) then "nav" : gostr else "fetch"); [done|].
  by do 2 case_bool_decide.
Qed.

Lemma header_Set_typed data h :
  typed_data data h (if bool_decide (data <> []) && bool_decide (header_Get h "Content-Type" = [])
                     then header_Set h "Content-Type" "application/json" else h).
Proof.
  split; intros; do 2 case_bool_decide; simpl; try tauto.
  unfold header_Set. split; [apply lookup_insert_eq|]. intros k Hk. by apply lookup_insert_ne.
Qed.

Lemma request_page kvs opts :
  kvs ≡ₚ map_to_list (Headers (fo_transport opts)) ->
  page opts {| req_Method := request_method opts; req_URL := fo_URL opts;
               req_Header := request_header kvs opts (request_method opts); req_Body := fo_Data opts |}.
Proof.
  intros Hk. split; [apply request_method_for|]. do 2 (split; [done|]).
  eexists. split; [by apply applyHeaders_layered|]. apply header_Set_typed.
Qed.

(** C31: [FetchWeb] asks for the page, and for nothing else but the ECH look-up of its
    host when it has to make one. The page is asked for by the caller's method, or POST
    or GET as there is data or not; its headers are those of the browser profile for
    that kind of request, overridden by the caller's [userAgent] and [headers]; data
    whose type no header gives is declared to be JSON. *)
Theorem FetchWeb_requests unmarshal json opts u ca w h :
  net_ok w -> fetch_prepare unmarshal json = Ok (opts, u) ->
  wp (FetchWeb unmarshal json ca) w h (fun t _ => forall req, EClientDo req ∈ t ->
    page opts req \/ ech_query (fo_transport opts) (url_Hostname u) req).
Proof.
  intros Hw Hp. unfold FetchWeb. rewrite Hp. apply (asks_said _ _ _ _ Hw). unfold fetch_with.
  eapply (does_when_bind _ _ anything).
  { apply roundTripper_asks. intros ca'. eapply asks_when_mono; [apply echConfigList_asks|by right]. }
  intros [ca' [[rt st]|e]] _; [|by apply does_when_ret].
  eapply does_when_last; [|intros [[ca2 st2] x]; eapply does_then;
    [apply does_asks, cleanup_not_client|intros ?; by apply does_ret]].
  unfold fetch_over. destruct (NewRequest_error _ _); [by apply does_when_ret|].
  eapply does_when_bind; [apply range_map_when|]. intros kvs Hk.
  eapply does_when_then; [apply client_do_asks; left; by apply request_page|].
  intros [st' [resp|e]]; apply does_when_does; unfold fetch_response, body_close; repeat does_step; done.
Qed.
End Queries.

(** ** Witnesses *)

#[local] Existing Instance sample_lib.
#[local] Existing Instance sample_url.
#[local] Existing Instance sample_dns.
#[local] Existing Instance ascii_unicode.
#[local] Existing Instance arm64_int.

Definition example_query : dohOptions := {|
  doh_transport := with_ "" "" "" None; doh_Domain := "example.com"; doh_Type := "a";
  doh_Server := "https://1.1.1.1/dns-query" |}.

(** The options with a [userAgent] of the caller's. *)
Definition with_agent (ua : gostr) (o : transportOptions) : transportOptions := {|
  Proxy := Proxy o; IP := IP o; Timeout := Timeout o; AllowInsecure := AllowInsecure o; ServerName := ServerName o;
  DisableChromeParrot := DisableChromeParrot o; ALPN := ALPN o; QUICVersion := QUICVersion o; WNoise := WNoise o;
  WNoiseCount := WNoiseCount o; WNoiseDelay := WNoiseDelay o; WPayloadSize := WPayloadSize o;
  Fingerprint := Fingerprint o; Fragment := Fragment o; Ech := Ech o; Browser := Browser o; Variant := Variant o;
  UserAgent := ua; Headers := Headers o
|}.

Definition example_fetch : fetchOptions := {|
  fo_transport := with_agent "probe/1" (with_ "" "" "" None); fo_URL := "https://example.com/"; fo_Method := ""; fo_Data := "{}" |}.

Definition is_request (e : nev) : bool := match e with EClientDo _ => true | _ => false end.

(** The runs of both, when every step succeeds. *)
Definition query_run : list nev * (cache * DNSResult) :=
  ResolveDoH (fun _ => Ok example_query) [] ∅ (scripted "h2" [("1.1.1.1:443" : gostr, true)]) [].
Definition page_run : list nev * (cache * FetchResult) :=
  FetchWeb (fun _ => Ok example_fetch) [] ∅ (scripted "h2" [("example.com:443" : gostr, true)]) [].

Lemma ResolveDoH_queries_witness :
  existsb is_request query_run.1 = true /\
  forall req, EClientDo req ∈ query_run.1 -> req_Method req = ("POST" : gostr).
Proof.
  split; [vm_compute; reflexivity|]. intros req Hr.
  pose proof (ResolveDoH_queries (fun _ => Ok example_query) [] example_query ∅
    (scripted "h2" [("1.1.1.1:443" : gostr, true)]) [] (scripted_ok _ _) eq_refl) as Hq.
  apply wp_run in Hq. destruct (Hq req Hr) as [(qtype & _ & Hm & _)|(su & _ & e & [=] & _)]. exact Hm.
Defined.

Definition first_value (x : option (list gostr)) : gostr := match x with Some (v :: _) => v | _ => [] end.

Lemma FetchWeb_requests_witness :
  existsb is_request page_run.1 = true /\
  forall req, EClientDo req ∈ page_run.1 ->
    req_Method req = ("POST" : gostr) /\
    req_Header req !! ("Content-Type" : gostr) = Some ["application/json" : gostr] /\
    req_Header req !! ("User-Agent" : gostr) = Some ["probe/1" : gostr] /\
    header_Get (req_Header req) "Sec-Fetch-Mode" = "fetch".
Proof.
  split; [vm_compute; reflexivity|]. intros req Hr.
  set (u := {| u_Scheme := "https"; u_User := None; u_Host := "example.com" |}).
  assert (fetch_prepare (fun _ => Ok example_fetch) [] = Ok (example_fetch, u)) as Hu by reflexivity.
  pose proof (FetchWeb_requests (fun _ => Ok example_fetch) [] example_fetch u ∅
    (scripted "h2" [("example.com:443" : gostr, true)]) [] (scripted_ok _ _) Hu) as Hq.
  apply wp_run in Hq. destruct (Hq req Hr) as [(Hm & _ & _ & h0 & Hl & [_ Ht])|(e & [=] & _)].
  destruct Hm as (_ & Hm & _). specialize (Hm eq_refl ltac:(done)). rewrite Hm in Hl.
  pose proof (fun k => proj1 (Hl k)) as Hk.
  assert (h0 !! ("Content-Type" : gostr) = None) as Hc by exact (Hk "Content-Type" eq_refl).
  assert (h0 !! ("User-Agent" : gostr) = Some ["probe/1" : gostr]) as Ha by exact (Hk "User-Agent" eq_refl).
  assert (h0 !! ("Sec-Fetch-Mode" : gostr) = Some ["fetch" : gostr]) as Hs by exact (Hk "Sec-Fetch-Mode" eq_refl).
  assert (header_Get h0 "Content-Type" = []) as Hg by exact (f_equal first_value Hc).
  destruct (Ht ltac:(done) Hg) as [H1 H2].
  split_and!; [exact Hm|exact H1|rewrite H2 by done; exact Ha|].
  etrans; [exact (f_equal first_value (H2 "Sec-Fetch-Mode" ltac:(done)))|].
  exact (f_equal first_value Hs).
Defined.
