(* ===== verification/Api.v ===== *)
(** * The rest of the exported functions ([libv2ray_main.go])

    Traffic statistics, the delay of a core and [GetDataFromWeb]. *)

From stdpp Require Import gmap.
From S2P Require Import Prelude GoString GoCodec GoNet GoHTTP IO Options.
Open Scope Z_scope.

(** A function that may panic. *)
Inductive outcome (A : Type) := Returned (a : A) | Panicked.
Arguments Returned {A} a.
Arguments Panicked {A}.

(** ** Statistics *)

(** The counters of a statistics manager. *)
Abbreviation counters := (gmap gostr Z).

Definition counter_name (tag direct : gostr) : gostr :=
  ("outbound>>>" : gostr) ++ tag ++ (">>>traffic>>>" : gostr) ++ direct.

(** [counter.Set(0)] returns what the counter held. *)
Definition QueryStats (statsManager : option counters) (tag direct : gostr) : Z * option counters :=
  match statsManager with
  | None => (0, None)
  | Some m =>
    match m !! counter_name tag direct with
    | None => (0, Some m)
    | Some n => (n, Some (<[counter_name tag direct := 0]> m))
    end
  end.

(** ** The delay of a core

    A core is known by the position in the history at which it was made. *)

Section Delay.
Context {Inbound Feature Destination : Type}.

(** [core.Config]: the features are in a slice with a capacity. *)
Record CoreConfig := {
  cfg_Inbound : list Inbound;
  cfg_App : list (option Feature);
  cfg_App_cap : nat
}.

(** [context.Background()], or one that ends after a time in nanoseconds and as soon as
    a channel is closed; a nil channel never is. *)
Inductive context := Background | Until (timeout : Z) (closed : option nat).

Inductive cev :=
| ELoadJSON (content : gostr) (r : res CoreConfig)
| ENewCore (cfg : CoreConfig) (r : option error)
| EStartCore (core : nat) (r : option error)
| ECloseCore (core : nat)
| EDo (ctx : context) (url : gostr)
| EAskDial (a : option (gostr * gostr))
| EParseDest (s : gostr) (r : res Destination)
| ECoreDial (core : nat) (dest : Destination) (r : option error)
| EDone (r : res (Z * gostr))
| ECloseBody
| EClock (t : Z).

Record CoreWorld := {
  cw_load : list cev -> gostr -> res CoreConfig;
  cw_new : list cev -> CoreConfig -> option error;
  cw_start : list cev -> nat -> option error;
  (** Whether [http.NewRequestWithContext] refuses an url. *)
  cw_bad_url : gostr -> bool;
  (** The client: how many dials at most, each of a network and an address, and
      then a status code with its text. *)
  cw_dials : list cev -> nat;
  cw_ask : list cev -> option (gostr * gostr);
  cw_parse_dest : list cev -> gostr -> res Destination;
  cw_dial : list cev -> nat -> Destination -> option error;
  cw_done : list cev -> res (Z * gostr);
  cw_clock : list cev -> Z
}.

#[local] Notation K := (IO cev CoreWorld).

Definition new_core (cfg : CoreConfig) : K (res nat) := fun w h =>
  let r := cw_new w h cfg in
  ([ENewCore cfg r], match r with None => Ok (length h) | Some e => Err e end).
Definition load_json (s : gostr) : K (res CoreConfig) := perform (fun w h => cw_load w h s) (ELoadJSON s).
Definition start_core (c : nat) : K (option error) := perform (fun w h => cw_start w h c) (EStartCore c).
Definition close_core (c : nat) : K unit := perform (fun _ _ => tt) (fun _ => ECloseCore c).
Definition clock : K Z := perform cw_clock EClock.

(** [http.StatusOK] and [http.StatusNoContent]. *)
Definition is_20x (code : Z) : bool := (code =? 200) || (code =? 204).

(** Whether [http.NewRequestWithContext] returned an error, and no request. *)
Definition new_request (url : gostr) : K bool := fun w h => ([], cw_bad_url w url).

(** The [DialContext] of the client, as often as it is called. *)
Fixpoint core_dials (n : nat) (inst : nat) : K unit :=
  match n with
  | O => mret tt
  | S n =>
    a ← perform cw_ask EAskDial;
    match a with
    | None => mret tt
    | Some (network, addr) =>
      let s := network ++ (":" : gostr) ++ addr in
      dest ← perform (fun w h => cw_parse_dest w h s) (EParseDest s);
      _ ← (match dest with
           | Err e => mret (Some e)
           | Ok dest => perform (fun w h => cw_dial w h inst dest) (ECoreDial inst dest)
           end);
      core_dials n inst
    end
  end.

Definition client_Do (ctx : context) (inst : nat) (url : gostr) : K (res (Z * gostr)) :=
  _ ← perform (fun _ _ => tt) (fun _ => EDo ctx url);
  n ← (fun w h => ([], cw_dials w h)) : K nat;
  _ ← core_dials n inst;
  perform cw_done EDone.

Definition default_url (url : gostr) : gostr :=
  if bool_decide (url = []) then "https://www.google.com/generate_204" else url.

(** The request is nil when the url was refused, and the error is not looked at. *)
Definition measureInstDelay (ctx : context) (inst : option nat) (url : gostr) : K (outcome (Z * option error)) :=
  match inst with
  | None => mret (Returned (-1, Some (OtherError "core instance nil")))
  | Some inst =>
      let url := default_url url in
      bad ← new_request url;
      start ← clock;
      if (bad : bool) then mret Panicked else
      r ← client_Do ctx inst url;
      match r with
      | Err e => mret (Returned (-1, Some e))
      | Ok (code, status) =>
        if negb (is_20x code) then mret (Returned (-1, Some (Errorf "status != 20x: %s" [AStr status] None)))
        else
          _ ← perform (fun _ _ => tt) (fun _ => ECloseBody);
          t ← clock;
          mret (Returned (Z.quot (t - start) Millisecond, None))
      end
  end.

(** The goroutine waits for [v.closeChan], as it is when the wait begins, and cancels the
    context when it is closed. *)
Definition MeasureDelay (closeChan : option nat) (Vpoint : option nat) (url : gostr) : K (outcome (Z * option error)) :=
  measureInstDelay (Until (12 * Second) closeChan) Vpoint url.

(** [config.App[:5]]: up to the capacity, with nil for what was not set. *)
Definition slice_to (n : nat) (app : list (option Feature)) (cap : nat) : option (list (option Feature)) :=
  if (n <=? cap)%nat then Some (take n (app ++ replicate (cap - length app) None)) else None.

Definition MeasureOutboundDelay (ConfigureFileContent url : gostr) : K (outcome (Z * option error)) :=
  config ← load_json ConfigureFileContent;
  match config with
  | Err e => mret (Returned (-1, Some e))
  | Ok config =>
    match slice_to 5 (cfg_App config) (cfg_App_cap config) with
    | None => mret Panicked
    | Some app =>
      inst ← new_core {| cfg_Inbound := []; cfg_App := app; cfg_App_cap := cfg_App_cap config |};
      match inst with
      | Err e => mret (Returned (-1, Some e))
      | Ok inst =>
        _ ← start_core inst;
        r ← measureInstDelay Background (Some inst) url;
        match r with
        | Panicked => mret Panicked
        | Returned r => _ ← close_core inst; mret (Returned r)
        end
      end
    end
  end.

End Delay.
Arguments cev : clear implicits.
Arguments CoreWorld : clear implicits.

(** ** GetDataFromWeb *)

Section Web.
Context `{NetURL}.

(** [RespError] is [None] where the source leaves it empty. *)
Record WebResult := { wr_RespBody : gostr; wr_RespHeader : gostr; wr_RespError : option error }.

Definition web_failed (e : error) : WebResult := {| wr_RespBody := []; wr_RespHeader := []; wr_RespError := Some e |}.

Definition uagent_list : list gostr := [
  ("Mozilla/5.0 (Windows NT 10.0; Win64; x64) AppleWebKit/537.36 (KHTML, like Gecko) Chrome/138.0.0.0 Safari/537.36" : gostr);
  ("Mozilla/5.0 (Windows NT 10.0; Win64; x64; rv:141.0) Gecko/20100101 Firefox/141.0" : gostr);
  ("Mozilla/5.0 (Macintosh; Intel Mac OS X 10_15_7) AppleWebKit/605.1.15 (KHTML, like Gecko) Version/18.1 Safari/605.1.15" : gostr);
  ("Mozilla/5.0 (iPhone; CPU iPhone OS 18_6 like Mac OS X) AppleWebKit/605.1.15 (KHTML, like Gecko) Version/18.4 Mobile/15E148 Safari/604.1" : gostr);
  ("Mozilla/5.0 (iPhone; CPU iPhone OS 18_6 like Mac OS X) AppleWebKit/605.1.15 (KHTML, like Gecko) CriOS/139.0.7258.60 Mobile/15E148 Safari/604.1" : gostr);
  ("Mozilla/5.0 (Android 16; Mobile; rv:141.0) Gecko/141.0 Firefox/141.0" : gostr);
  ("Mozilla/5.0 (Linux; Android 16) AppleWebKit/537.36 (KHTML, like Gecko) Chrome/138.0.7204.180 Mobile Safari/537.36" : gostr);
  ("Mozilla/5.0 (Linux; Android 10; K) AppleWebKit/537.36 (KHTML, like Gecko) Chrome/138.0.0.0 Mobile Safari/537.36" : gostr)].

Inductive wev :=
| EIntn (n : nat) (i : nat)
| EWebDo (proxy : option URL) (timeout : Z) (insecure : bool) (req : Request)
| EWebReturn (r : res Response)
| EWebClose.

Record WebWorld := {
  (** [rand.Intn]. *)
  ww_intn : list wev -> nat -> nat;
  ww_return : list wev -> res Response
}.

Definition headers_of (is_post is_CF_API : bool) (uagent : gostr) : list (gostr * gostr) :=
  if is_post then
    if is_CF_API then
      [("Content-Type" : gostr, "application/json; charset=UTF-8" : gostr);
       ("Host" : gostr, "api.cloudflareclient.com" : gostr);
       ("Connection" : gostr, "Keep-Alive" : gostr);
       ("Accept-Encoding" : gostr, "gzip" : gostr);
       ("User-Agent" : gostr, "okhttp/3.12.1" : gostr);
       ("CF-Client-Version" : gostr, "a-6.30-3596" : gostr)]
    else
      [("Content-Type" : gostr, "application/json" : gostr);
       ("Accept" : gostr, "application/json" : gostr);
       ("User-Agent" : gostr, uagent)]
  else [("User-Agent" : gostr, uagent)].

(** The body after the [Content-Encoding], which is compared as it is. *)
Definition web_body (resp : Response) : res gostr :=
  if bool_decide (header_Get (resp_Header resp) "Content-Encoding" = ("gzip" : gostr))
  then gunzip (resp_Body resp) else ReadAll (resp_Body resp).

Definition web_result (resp : Response) : WebResult :=
  let resp_header := header_Get (resp_Header resp) "X-From-Server" in
  match web_body resp with
  | Err e => web_failed e
  | Ok body =>
    if 299 <? StatusCode resp
    then {| wr_RespBody := []; wr_RespHeader := resp_header;
            wr_RespError := Some (Errorf "ERR status code: %d\n%s" [AInt (StatusCode resp); AStr body] None) |}
    else {| wr_RespBody := body; wr_RespHeader := resp_header; wr_RespError := None |}
  end.

Definition GetDataFromWeb (myurl mydata my_proxy : gostr) (mytimeout : Z) (allow_sscrt is_post is_CF_API : bool)
    : IO wev WebWorld (outcome WebResult) :=
  uaindex ← perform (fun w h => ww_intn w h (length uagent_list)) (EIntn (length uagent_list));
  let uagent := default [] (uagent_list !! uaindex) in
  match (if bool_decide (my_proxy <> []) then p ← url_Parse my_proxy; Ok (Some p) else Ok None) with
  | Err e => mret (Returned (web_failed e))
  | Ok proxy =>
    let method := if is_post then "POST" : gostr else "GET" in
    match NewRequest_error method myurl with
    | Some e => mret (if is_post then Returned (web_failed e) else Panicked)
    | None =>
      _ ← perform (fun _ _ => tt) (fun _ => EWebDo proxy (wrapS 64 (mytimeout * Millisecond)) allow_sscrt
        {| req_Method := method; req_URL := myurl;
           req_Header := header_SetAll ∅ (headers_of is_post is_CF_API uagent);
           req_Body := if is_post then mydata else [] |});
      r ← perform ww_return EWebReturn;
      match r with
      | Err e => mret (Returned (web_failed e))
      | Ok resp => _ ← perform (fun _ _ => tt) (fun _ => EWebClose); mret (Returned (web_result resp))
      end
    end
  end.

End Web.

(** ** Lemmas *)

Section DelayLemmas.
Context {Inbound Feature Destination : Type}.
#[local] Notation cev := (cev Inbound Feature Destination).

(** The core that dials of the client go through, and the context of its request. *)
Definition through (ctx : context) (c : nat) (e : cev) : Prop :=
  match e with
  | ECoreDial core _ _ => core = c
  | EDo ctx' _ => ctx' = ctx
  | EAskDial _ | EParseDest _ _ => True
  | _ => False
  end.

Lemma core_dials_through n ctx c : does (through ctx c) anything (core_dials n c).
Proof.
  induction n as [|n IH]; simpl; [by apply does_ret|].
  eapply does_then; [by apply does_perform|]. intros [[network addr]|]; [|by apply does_ret].
  eapply does_then; [by apply does_perform|]. intros dest.
  eapply does_then; [destruct dest; [by apply does_perform|by apply does_ret]|]. intros ?. exact IH.
Qed.

Definition measured (ctx : context) (inst : option nat) (url : gostr) (bad : bool) (t : list cev) (r : outcome (Z * option error)) : Prop :=
  match inst with
  | None => t = [] /\ r = Returned (-1, Some (OtherError "core instance nil"))
  | Some c =>
    exists t0, (bad = true /\ t = [EClock t0] /\ r = Panicked) \/
      (bad = false /\ exists td answer, Forall (through ctx c) td /\
        match answer with
        | Err e => t = EClock t0 :: td ++ [EDone answer] /\ r = Returned (-1, Some e)
        | Ok (code, status) =>
          if is_20x code
          then exists t1, t = EClock t0 :: td ++ [EDone answer; ECloseBody; EClock t1] /\
                 r = Returned (Z.quot (t1 - t0) Millisecond, None)
          else t = EClock t0 :: td ++ [EDone answer] /\ exists e, r = Returned (-1, Some e)
        end)
  end.

Lemma client_Do_run ctx c url w h :
  wp (client_Do (Inbound := Inbound) (Feature := Feature) (Destination := Destination) ctx c url) w h
    (fun t r => exists td, Forall (through ctx c) td /\ t = td ++ [EDone r]).
Proof.
  unfold client_Do. apply wp_bind_perform. intros ? _. apply wp_bind. unfold wp at 1. apply wp_bind.
  eapply wp_mono; [apply (core_dials_through (cw_dials w (h ++ [EDo ctx url])) ctx c)|]. intros t ? [Ht _]. apply wp_perform.
  exists (EDo ctx url :: t). split; [by constructor|done].
Qed.

Lemma wp_new_request url w h (Q : list cev -> bool -> Prop) :
  Q [] (cw_bad_url w url) -> wp (new_request url) w h Q.
Proof. done. Qed.

Lemma measureInstDelay_run ctx inst url w h :
  wp (measureInstDelay ctx inst url) w h (measured ctx inst url (cw_bad_url w (default_url url))).
Proof.
  destruct inst as [c|]; [|by apply wp_ret]. unfold measureInstDelay. cbv zeta.
  apply wp_bind, wp_new_request. rewrite app_nil_r. cbn [app]. apply wp_bind_perform. intros t0 _.
  destruct (cw_bad_url w _) eqn:Eb; [apply wp_ret; exists t0; by left|]. apply wp_bind.
  eapply wp_mono; [apply client_Do_run|]. intros t r (td & Htd & ->).
  destruct r as [[code status]|e]; [|apply wp_ret; exists t0; right; split; [done|]; exists td, (Err e); by rewrite app_nil_r].
  destruct (is_20x code) eqn:E20; simpl.
  - apply wp_bind_perform. intros ? _. apply wp_bind_perform. intros t1 _. apply wp_ret. exists t0. right. split; [done|].
    exists td, (Ok (code, status)). split; [done|]. rewrite E20. exists t1. by rewrite <- !(assoc_L (++)).
  - apply wp_ret. exists t0. right. split; [done|]. exists td, (Ok (code, status)). split; [done|]. rewrite E20, app_nil_r. eauto.
Qed.

(** Cores, as resources. *)
Fixpoint cores_made (h t : list cev) : list nat :=
  match t with
  | [] => []
  | e :: t => match e with ENewCore _ None => [length h] | _ => [] end ++ cores_made (h ++ [e]) t
  end.
Definition cores_closed (t : list cev) : list nat :=
  omap (fun e => match e with ECloseCore c => Some c | _ => None end) t.

Lemma cores_made_app h t t' : cores_made h (t ++ t') = cores_made h t ++ cores_made (h ++ t) t'.
Proof.
  revert h. induction t as [|e t IH]; intros h; simpl; [by rewrite app_nil_r|].
  rewrite IH, <- !(assoc_L (++)). done.
Qed.

Definition makes_no_core (e : cev) : Prop := match e with ENewCore _ _ | ECloseCore _ => False | _ => True end.

Lemma no_cores h t : Forall makes_no_core t -> cores_made h t = [] /\ cores_closed t = [].
Proof.
  intros Ht. revert h. induction Ht as [|e t He _ IH]; intros h; [done|]. destruct (IH (h ++ [e])) as [IH1 IH2].
  split; simpl; [rewrite IH1; by destruct e|]. by destruct e.
Qed.

Lemma measured_no_cores ctx inst url bad t r : measured ctx inst url bad t r -> Forall makes_no_core t.
Proof.
  assert (forall c td, Forall (through ctx c) td -> Forall makes_no_core td) as Hth.
  { intros c td Htd. eapply Forall_impl; [exact Htd|]. by intros []. }
  unfold measured. destruct inst as [c|]; [|intros [-> _]; constructor].
  intros (t0 & [(_ & -> & _)|(_ & td & answer & Htd%Hth & Ha)]); [by repeat constructor|].
  destruct answer as [[code status]|e]; [destruct (is_20x code)|];
    [destruct Ha as (t1 & -> & _)|destruct Ha as [-> _]..]; constructor; (done || (apply Forall_app; split; [done|]));
    by repeat constructor.
Qed.

(** What a probe of a configuration does with cores: it makes at most one, of five
    features and without inbounds. *)
Definition tests (e : cev) : Prop :=
  match e with ENewCore cfg _ => cfg_Inbound cfg = [] /\ length (cfg_App cfg) = 5%nat | _ => True end.

Lemma makes_no_core_tests e : makes_no_core e -> tests e.
Proof. by destruct e. Qed.

Lemma wp_new_core cfg w h (Q : list cev -> res nat -> Prop) :
  Q [ENewCore cfg (cw_new w h cfg)] (match cw_new w h cfg with None => Ok (length h) | Some e => Err e end) ->
  wp (new_core cfg) w h Q.
Proof. done. Qed.

Lemma slice_to_length n (app : list (option Feature)) cap app' :
  (length app <= cap)%nat -> slice_to n app cap = Some app' -> length app' = n.
Proof.
  intros Hl. unfold slice_to. destruct (n <=? cap)%nat eqn:E; [|done]. intros [= <-].
  apply Nat.leb_le in E. rewrite length_take, length_app, length_replicate. lia.
Qed.

(** ** Properties *)

(** [MeasureDelay] on every branch: without a core it fails at once; an url that
    [http.NewRequest] refuses panics, since the request is nil; an answer 200 or 204
    gives the milliseconds between the two readings of the clock and its body is
    closed, any other answer is an error; every dial goes through that core, and the
    request ends when the channel of the run is closed or after twelve seconds. *)
Theorem MeasureDelay_spec closeChan inst url w h :
  wp (MeasureDelay closeChan inst url) w h
    (measured (Until (12 * Second) closeChan) inst url (cw_bad_url w (default_url url))).
Proof. apply measureInstDelay_run. Qed.

(** C34: [MeasureOutboundDelay] makes at most one core, of the first five features of
    the configuration and with no inbound, and has closed it when it returns, error or
    not; a panic leaves it open. *)
Theorem MeasureOutboundDelay_closes content url w h :
  (forall h c cfg, cw_load w h c = Ok cfg -> (length (cfg_App cfg) <= cfg_App_cap cfg)%nat) ->
  wp (MeasureOutboundDelay content url) w h (fun t r =>
    Forall tests t /\ (length (cores_made h t) <= 1)%nat /\
    cores_closed t = match r with Returned _ => cores_made h t | Panicked => [] end).
Proof.
  intros Hcap. unfold MeasureOutboundDelay. apply wp_bind_perform. intros r Er.
  destruct r as [config|e]; [|apply wp_ret; split_and!; [by repeat constructor|simpl; lia|done]].
  destruct (slice_to 5 _ _) as [app|] eqn:Es; [|apply wp_ret; split_and!; [by repeat constructor|simpl; lia|done]].
  symmetry in Er. apply Hcap in Er. apply slice_to_length in Es; [|done].
  set (cfg := Build_CoreConfig [] app _). set (h1 := h ++ _).
  apply wp_bind, wp_new_core. destruct (cw_new w h1 cfg) as [e|].
  { apply wp_ret. simpl. split_and!; [by repeat constructor|simpl; lia|done]. }
  apply wp_bind_perform. intros st _. apply wp_bind. eapply wp_mono; [apply measureInstDelay_run|].
  intros t r Hm%measured_no_cores. assert (forall h, cores_made h t = []) as Hmade by (intros h'; apply (no_cores h' t Hm)).
  assert (cores_closed t = []) as Hclosed by (apply (no_cores [] t Hm)).
  assert (Forall tests t) as Ht by (eapply Forall_impl; [exact Hm|apply makes_no_core_tests]).
  destruct r as [r|].
  - apply wp_bind_perform. intros ? _. apply wp_ret. simpl. split_and!.
    + repeat constructor; try done. apply Forall_app. split; [done|by repeat constructor].
    + rewrite cores_made_app, Hmade. simpl. lia.
    + rewrite cores_made_app, Hmade. unfold cores_closed. rewrite !omap_app. unfold cores_closed in Hclosed.
      rewrite Hclosed. simpl. done.
  - apply wp_ret. simpl. rewrite app_nil_r. split_and!.
    + repeat constructor; done.
    + rewrite Hmade. simpl. lia.
    + exact Hclosed.
Qed.

End DelayLemmas.

(** ** Lemmas: statistics *)

(** What happens to the counters: traffic is counted, and queried. *)
Inductive use := Traffic (name : gostr) (n : Z) | Query (tag direct : gostr).

(** The counters after [l], and what each query returned. *)
Fixpoint tally (l : list use) (m : counters) : list (gostr * Z) * counters :=
  match l with
  | [] => ([], m)
  | Traffic name n :: l => tally l (match m !! name with Some k => <[name := k + n]> m | None => m end)
  | Query tag direct :: l =>
    let '(n, m') := QueryStats (Some m) tag direct in
    let '(out, m'') := tally l (default m m') in
    ((counter_name tag direct, n) :: out, m'')
  end.

Definition sum_of (name : gostr) (l : list (gostr * Z)) : Z :=
  foldr (fun p s => (if bool_decide (p.1 = name) then p.2 else 0) + s) 0 l.

Definition counted (name : gostr) (l : list use) : Z :=
  foldr (fun u s => match u with Traffic n k => if bool_decide (n = name) then k else 0 | Query _ _ => 0 end + s) 0 l.

(** No traffic is reported twice and none is lost: for every counter, what
    [QueryStats] returned over any sequence of traffic and queries, with what is left in
    the counter, is what it held at first and what was counted since. *)
Theorem QueryStats_conserves name l m k :
  m !! name = Some k ->
  exists k', (tally l m).2 !! name = Some k' /\ sum_of name (tally l m).1 + k' = k + counted name l.
Proof.
  revert m k. induction l as [|[n j|tag direct] l IH]; intros m k Hk; simpl.
  - exists k. split; [done|lia].
  - destruct (decide (n = name)) as [->|Hn].
    + rewrite bool_decide_true by done. rewrite Hk.
      destruct (IH (<[name := k + j]> m) (k + j)) as (k' & Hk' & E); [by rewrite lookup_insert_eq|].
      exists k'. split; [done|lia].
    + rewrite bool_decide_false by done.
      destruct (IH (match m !! n with Some i => <[n := i + j]> m | None => m end) k) as (k' & Hk' & E).
      { case_match; [by rewrite lookup_insert_ne|done]. }
      exists k'. split; [done|lia].
  - destruct (m !! counter_name tag direct) as [i|] eqn:Ei; simpl.
    + destruct (decide (counter_name tag direct = name)) as [En|Hn].
      * rewrite En, Hk in Ei. injection Ei as [= <-].
        destruct (IH (<[counter_name tag direct := 0]> m) 0) as (k' & Hk' & E); [by rewrite En, lookup_insert_eq|].
        destruct (tally l _) as [out m'']. simpl in *. exists k'. rewrite bool_decide_true by done. split; [done|lia].
      * destruct (IH (<[counter_name tag direct := 0]> m) k) as (k' & Hk' & E); [by rewrite lookup_insert_ne|].
        destruct (tally l _) as [out m'']. simpl in *. exists k'. rewrite bool_decide_false by done. split; [done|lia].
    + destruct (IH m k Hk) as (k' & Hk' & E). destruct (tally l m) as [out m'']. simpl in *. exists k'.
      split; [done|]. case_bool_decide; lia.
Qed.

Lemma QueryStats_conserves_witness :
  let name := counter_name "proxy" "uplink" in
  let l := [Traffic name 5; Query "proxy" "uplink"; Traffic name 7; Query "proxy" "downlink"; Query "proxy" "uplink"] in
  let m : counters := {[ name := 1 ]} in
  (tally l m).1 = [(name, 6); (counter_name "proxy" "downlink", 0); (name, 7)] /\
  exists k', (tally l m).2 !! name = Some k' /\ sum_of name (tally l m).1 + k' = 1 + counted name l.
Proof. split; [by vm_compute|]. by apply QueryStats_conserves. Defined.

Section WebLemmas.
Context `{NetURL}.

(** The request [GetDataFromWeb] sends. *)
Definition sends_request (myurl mydata : gostr) (proxy : option URL) (timeout : Z) (insecure is_post is_CF_API : bool)
    (e : wev) : Prop :=
  exists uagent req, e = EWebDo proxy timeout insecure req /\
    req_URL req = myurl /\ req_Method req = (if is_post then "POST" : gostr else "GET") /\
    req_Body req = (if is_post then mydata else []) /\
    header_Get (req_Header req) "User-Agent" = (if is_post && is_CF_API then "okhttp/3.12.1" : gostr else uagent) /\
    header_Get (req_Header req) "Content-Type" =
      (if is_post then if is_CF_API then "application/json; charset=UTF-8" : gostr else "application/json" else []).

(** [GetDataFromWeb] on every branch: a proxy url that does not parse is an error
    before anything is sent; a refused url is an error of a POST and a panic of a GET;
    otherwise one request goes out, through the proxy if there is one, and its
    response is closed once and becomes the result. *)
Theorem GetDataFromWeb_spec myurl mydata my_proxy mytimeout allow_sscrt is_post is_CF_API w h :
  wp (GetDataFromWeb myurl mydata my_proxy mytimeout allow_sscrt is_post is_CF_API) w h (fun t r =>
    exists i t', t = EIntn 8 i :: t' /\
    match (if bool_decide (my_proxy <> []) then p ← url_Parse my_proxy; Ok (Some p) else Ok None) with
    | Err e => t' = [] /\ r = Returned (web_failed e)
    | Ok proxy =>
      match NewRequest_error (if is_post then "POST" else "GET") myurl with
      | Some e => t' = [] /\ r = if is_post then Returned (web_failed e) else Panicked
      | None => exists e answer, sends_request myurl mydata proxy (wrapS 64 (mytimeout * Millisecond))
          allow_sscrt is_post is_CF_API e /\
        match answer with
        | Err err => t' = [e; EWebReturn answer] /\ r = Returned (web_failed err)
        | Ok resp => t' = [e; EWebReturn answer; EWebClose] /\ r = Returned (web_result resp)
        end
      end
    end).
Proof.
  unfold GetDataFromWeb. apply wp_bind_perform. intros i _. cbv zeta.
  destruct (if bool_decide _ then _ else _) as [proxy|e]; [|apply wp_ret; by exists i, []].
  destruct (NewRequest_error _ _) as [e|]; [apply wp_ret; by exists i, []|].
  apply wp_bind_perform. intros ? _. apply wp_bind_perform. intros [resp|e] _.
  - apply wp_bind_perform. intros ? _. apply wp_ret. eexists i, _. split; [done|]. eexists _, (Ok resp). split; [|done].
    exists (default [] (uagent_list !! i)). eexists. split; [done|]. by destruct is_post, is_CF_API.
  - apply wp_ret. eexists i, _. split; [done|]. eexists _, (Err e). split; [|done].
    exists (default [] (uagent_list !! i)). eexists. split; [done|]. by destruct is_post, is_CF_API.
Qed.

End WebLemmas.

(** ** Witnesses *)

(** Six features, an url that is refused when it is ["bad"], one dial, and 204. *)
Definition sample_core_world : CoreWorld unit nat gostr := {|
  cw_load := fun _ _ => Ok {| cfg_Inbound := [tt]; cfg_App := map Some [0; 1; 2; 3; 4; 5]%nat; cfg_App_cap := 6 |};
  cw_new := fun _ _ => None;
  cw_start := fun _ _ => None;
  cw_bad_url := fun u => bool_decide (u = ("bad" : gostr));
  cw_dials := fun _ => 1%nat;
  cw_ask := fun _ => Some ("tcp" : gostr, "www.google.com:443" : gostr);
  cw_parse_dest := fun _ s => Ok s;
  cw_dial := fun _ _ _ => None;
  cw_done := fun _ => Ok (204, "204 No Content" : gostr);
  cw_clock := fun h => Z.of_nat (length h) * 1000000
|}.

Lemma MeasureOutboundDelay_closes_witness :
  let m := MeasureOutboundDelay "{}" "" in
  (m sample_core_world []).2 = Returned (7, None) /\
  wp m sample_core_world [] (fun t r =>
    Forall tests t /\ (length (cores_made [] t) <= 1)%nat /\
    cores_closed t = match r with Returned _ => cores_made [] t | Panicked => [] end).
Proof.
  split; [by vm_compute|]. apply (MeasureOutboundDelay_closes "{}" "" sample_core_world []).
  intros h c cfg [= <-]. simpl. lia.
Defined.
